(* ===== verification/_CoqProject ===== *)
-Q . S2P
Prelude.v
Protocol.v
Evidence.v
EventStream.v
EventStore.v
EventLog.v
EventStoreInv.v
Scenario.v
EventStoreProps.v
EventStoreReads.v
Subscription.v
Handshake.v
UiContract.v
BundleValidation.v
BundleProps.v
DevicePool.v
DevicePoolProps.v
DevicePoolClock.v
PeerLease.v
PeerLeaseProps.v
Async.v
Control.v
StoreFrame.v
Runtime.v
RuntimeProps.v
MediaWriter.v
MediaWriterProps.v
Registry.v
RegistryProps.v
PeerModel.v
ManualRecording.v
ManualRecordingProps.v
PeerTransport.v
PeerTransportProps.v
PeerNode.v
PeerService.v
PeerServiceRuns.v
PeerServiceSafe.v
PeerServiceInv.v
PeerServiceProps.v
PeerServiceExamples.v
RemoteAuth.v
AuditLog.v
RemoteAuthProps.v
RemoteDriver.v
RemoteDriverProps.v
NodeRouter.v
NodeRouterProps.v
PeerServer.v
PeerServerProps.v
Framing.v
FramingProps.v
EventClient.v
EventClientProps.v
EventServer.v
EventServerProps.v
EventDelivery.v
EventStreamExamples.v
Cleanup.v
EvidenceFs.v
EvidenceFsInv.v
EvidenceFsIndex.v
EvidenceFsSafe.v
EvidenceFsOps.v
EvidenceFsGc.v
EvidenceFsOpen.v
EvidenceFsProps.v
EvidenceFsContract.v
EvidenceFsCounts.v
EvidenceFsExamples.v
