(* ===== verification/Prelude.v ===== *)
(** * DeviceRail: verification library

    DeviceRail drives test devices for remote clients and keeps a durable
    record of what happened. A daemon accepts JSON-RPC requests over NDJSON
    ([daemon], [client], [protocol]); a registry routes them to Drivers
    ([core/src/registry.rs]) under exclusive leases of a device pool
    ([core/src/pool.rs]); a runtime sequences each Driver call with the events
    of the Session ([core/src/lib.rs]) in the Session event store
    ([core/src/event_store.rs]), from which subscribers read and ended Sessions
    are exported as bundles ([session-bundle]). Screenshots and recordings are
    content-addressed objects of an evidence store ([evidence-fs]). A node can
    lend its devices to peers ([distributed-router]), remote clients prove who
    they are and are audited ([remote-auth]), and a person's actions can be
    recorded and replayed ([manual-recording]). Paths are relative to
    [src/crates].

    ** Conventions

    Functions keep the names of the source, fields get a short prefix. Integers
    are [N] below the bound of their type, with checked and saturating
    operations written out; a [String] is its bytes; [BTreeMap] and [HashMap]
    are [gmap]. [Result] is [result]; a method on a locked structure is a
    computation of the state-and-error monad [M] (this file), which keeps the
    state an early return has reached. Methods that await are programs over a
    signature of effects ([Async.v]): other tasks run whenever a program is
    suspended, and [wp] reduces a statement on all executions to one goal per
    effect. Random ids, clocks and what a channel or a Driver answers are
    arguments, so that a theorem holds for all of them. Third-party code
    (serialization, hashing, [Display] texts of identifiers) is a parameter.

    ** The wire protocol

    [Protocol.v] has the data of [protocol/src/{event,action,device,rpc}.rs].
    [Handshake.v] (handshake.rs): version and feature negotiation; negotiation
    picks the newest common version and reports exact reasons otherwise.
    [UiContract.v] (ui.rs): the validators of UI snapshots and selectors; a
    snapshot is accepted exactly when it lists a forest in preorder.
    [Framing.v] and [FramingProps.v] (client/src/framing.rs, the line reader and
    the response writer of daemon/src/main.rs): the incremental decoder equals a
    reference on the whole stream for every chunking, and texts cross the wire
    unchanged in both directions.

    ** The event store

    [EventStore.v] has [MemoryEventStore] with every operation, [EventStream.v]
    the subscriptions, [Evidence.v] asset references, evidence errors and the
    Session-bound writer of core/src/evidence.rs. [EventLog.v] is the
    specification: which events may follow a log. [EventStoreInv.v] proves the
    invariant by induction on operations. [EventStoreProps.v]: reachable logs
    are legal histories whose bookkeeping is their replay, [append] refines the
    specification, ended Sessions pair their actions and media streams, history
    is append-only, ids are never reused, failed operations change nothing.
    [EventStoreReads.v]: paging terminates and reads what one read would,
    exports page consistently, lookups by id are exact. [Subscription.v]: a
    subscriber sees the log after its cursor, gapless, whatever the broadcast
    channel does. [Scenario.v] is a concrete Session the examples share.
    [Cleanup.v] (cleanup.rs): deleting a Session and releasing its evidence, for
    every evidence store with the laws of its class, never takes evidence from a
    retained Session.

    ** Event streams

    A client follows a Session over a WebSocket. [EventServer.v]
    (websocket-transport/src/{connection,queue}.rs): [subscribe], the feeder
    task that serializes the events of a subscription into a bounded queue, and
    [stream_events], the socket loop that writes the queue and one terminal;
    each definition is one turn, so that the tasks interleave, and the two polls
    of the biased [select] are two turns. [EventClient.v]
    (client/src/event_stream.rs, protocol/src/stream.rs): [open_event_stream],
    the socket actor with [accept_event] and [accept_terminal], and the owner's
    [next] (the receive and the locked part apart), [confirm], [cancel] and
    [resume]. Texts are lists of pieces; serde and the outcomes of polls, writes
    and time-outs are arguments. [EventClientProps.v]: whatever the peer sends,
    the client delivers a gapless continuation of its cursor, confirms only what
    it delivered and, unless it is cancelled, ends cleanly only after the whole
    Session.
    [EventServerProps.v]: what the daemon has written, queued and not yet seen is
    the log, and a clean terminal comes last. [EventDelivery.v] puts the store,
    the daemon, the connection and the client together, while the Session is
    not deleted, the store not shut down and the receiver keeps up: the owner
    sees a prefix of the log, all of it at a clean end that it did not bring
    about by [cancel], and no failure that the daemon's or the client's own
    bookkeeping would be to blame for. [EventStreamExamples.v] runs
    the system, also to a clean end after [cancel] and to a missed Session end.

    ** Evidence on disk

    [EvidenceFs.v] has [FileEvidenceStore] of evidence-fs/src/lib.rs with every
    operation and the whole of opening and recovery. The disk is a record of
    finite maps, one per directory; a file whose JSON does not parse is [None].
    Each call to the file system takes its outcome from a list: it works, or
    it fails and leaves the disk alone, except that a failing removal of a
    directory may have removed some of its entries. A process that stops is a
    list that fails from some point on. [put] is two steps, staging and
    publication, between which other operations run. SHA-256 is a parameter,
    known to return 32 bytes.
    [EvidenceFsInv.v] has the judgement [spec] (what holds after a return, after
    a failure, and which errors are possible without failing calls), its rules,
    the invariant [disk_ok] and the relation [keeps] of what unreleased Sessions
    own. [EvidenceFsIndex.v] computes what the scans return on a well-formed
    disk. [EvidenceFsSafe.v], [EvidenceFsOps.v], [EvidenceFsGc.v] and
    [EvidenceFsOpen.v] have the specifications of markers and recovery, of
    [put], of [gc] and of opening. [EvidenceFsProps.v] is the system of
    operations, failures and restarts: disks stay well-formed, what a Session
    owns survives until it is released, every interruption is recovered, content
    is returned, and a collection deletes exactly what it may.
    [EvidenceFsContract.v] discharges the laws of [Cleanup.v].
    [EvidenceFsCounts.v]: while operations return, the incremental reference
    index equals a scan, and so do the reported counts. [EvidenceFsExamples.v]
    is a run with its failures, and the one failure the index does not follow.

    ** Bundles

    [BundleValidation.v] has the validators of session-bundle/src/
    {event_validation,model}.rs, [BundleProps.v] shows that what they accept is
    complete, that every export of a reachable store passes the structural
    checks, and that a manifest indexes exactly the evidence of its events. The
    iterative JSON walk runs with as much fuel as the node limit allows steps,
    which is proved to be enough.

    ** Devices

    [DevicePool.v] (pool.rs) has each method as the sections that run under the
    pool's lock. [DevicePoolProps.v] is the pool with its clock and live guards
    as a transition system: index consistency, what a guard pins, lease grants,
    sweeps, stale registrations. [DevicePoolClock.v]: the wall clock is
    diagnostic only. [Registry.v] and [RegistryProps.v] (registry.rs) put the
    registry's readers and writers around it: both inventories always agree,
    admitted readers find their gate current, refused handles stay refused, and
    snapshots change only after a confirmed call.

    ** The runtime

    [Control.v] (control.rs): cancellation and deadlines. [Runtime.v] (lib.rs)
    has [DeviceRuntime] with an arbitrary Driver; [StoreFrame.v] states what
    other tasks can do to the store meanwhile. [RuntimeProps.v]: a started action
    is completed, an observation lease is released, an action that must omit
    screenshots leaves no evidence. [MediaWriter.v] and [MediaWriterProps.v]
    (media.rs): frames are recorded once and in order although the store may
    commit an append and report a failure, with an example of the one sequence
    of calls that strands an evidence object.

    ** Devices of other nodes

    [distributed-router/src]. [PeerLease.v] and [PeerLeaseProps.v] (lease.rs):
    the lease table excludes other owners, dropped tokens stay dead, and the
    call ledger recognises repeats within its window of 1,024 calls.
    [PeerModel.v] (model.rs): requests, responses and their validators.

    The node that lends a device. [PeerNode.v] and [PeerService.v] (service.rs):
    the tables of [RegistryPeerService], its critical sections ([run_sec], each
    one atomic step), and the handler of every operation as a program over these
    sections, the gates, the clocks and the calls into Core.
    [PeerServiceRuns.v] runs requests, teardowns and the shutdown as threads that
    interleave at every effect and may be dropped there, with a trace and a
    watch on it; [PeerServiceSafe.v] shows that each handler keeps to its watch,
    [PeerServiceInv.v] what the tables hold meanwhile. [PeerServiceProps.v]: a
    call id is executed once per window, a device is operated only under a
    current lease of its connection, and evidence goes only to the lease whose
    operation produced it. [PeerServiceExamples.v] runs a node, also to a lease
    that expires between two checks and blocks its device.
    [PeerServer.v] and [PeerServerProps.v] (server.rs): one stream with its
    frames, its tasks and its writer; every request is answered once, within the
    bounds, and an example shows how a frame is lost when a task is joined.

    The node that borrows it. [PeerTransport.v] and [PeerTransportProps.v]
    (transport.rs and [exchange_raw] of driver.rs): a mutation is reported as
    retryable only when that is safe, with one exception, shown by an example.
    [RemoteDriver.v] and [RemoteDriverProps.v] (driver.rs): evidence is imported
    unchanged in at most 64 chunks of 256 KiB, enough for the limit of 16 MiB,
    and every reference in a result was issued by the local store.
    [NodeRouter.v] and [NodeRouterProps.v] (router.rs, connector.rs,
    security.rs): routes follow the inventories, connecting gives every device
    of every peer one Driver, and retries end: 401 attempts, 25 ms apart, are
    enough fuel for the ten seconds they may take.

    ** Remote authentication

    [RemoteAuth.v] (remote-auth/src/{permission,credentials,auth}.rs): the
    permissions of methods, credentials, and the challenge and response of a
    session on both sides. [AuditLog.v] (audit.rs): the hash-chained log, whose
    verification takes as much fuel as the file has bytes, since every line has
    at least one. [RemoteAuthProps.v]: a proof authenticates the challenge it
    was made for, once and in time, and an honest client's proof does; the log
    holds what was appended, and its last hash stands for all of it. HMAC,
    SHA-256, base64 and JSON are parameters with the laws they are used for.

    ** Manual recordings

    [ManualRecording.v] and [ManualRecordingProps.v] (manual-recording/src/
    lib.rs, protocol/src/manual.rs): which documents are accepted, and that a
    replay is exactly the recorded steps, with the arguments of protected
    actions from the host.

    ** Not modelled

    Device drivers and bridges (processes, HTTP, operating-system services),
    bundle files ([session-bundle/src/{bundle_io,filesystem}.rs]), the daemon's
    dispatch and process management, rendering, schemas, and the packages in
    other languages. Of [distributed-router]: telemetry, which no decision
    reads; configuration files and TCP listeners; the construction of the
    service with its hashed device keys; and the timer that retries the cleanup
    of a connection. Of [remote-auth]: ownership and access-control checks of
    files, and the wiping of secrets. Of the event store: a subscription between the
    flag and the signals of a shutdown. Of event streams: the upgrade request,
    capabilities, the envelopes of the two setup calls, and time. Of
    [evidence-fs]: symbolic links, permissions, foreign files, the process lock,
    and interleavings inside one publication, which its gates restrict to other
    objects and Sessions. Serde attributes are not
    modelled; JSON appears as values ([Protocol.v]) or as opaque text
    ([Framing.v], [EventServer.v]). Allocation failures and poisoned locks are
    not modelled. *)

From stdpp Require Export base tactics option list gmap strings sorting.
From Stdlib Require Export NArith ZArith Lia ZifyBool.

(** ** Results and the state-and-error monad

    A fallible Rust function of type [Result<T, E>] is a [result E T]; a
    method that mutates a locked structure [S] and may return early with [?]
    is an [M S E T], which keeps the state reached at the early return. *)

Inductive result (E A : Type) : Type :=
| Ok (a : A)
| Err (e : E).
Arguments Ok {E A} a.
Arguments Err {E A} e.

#[global] Instance result_eq_dec {E A} `{EqDecision E, EqDecision A} :
  EqDecision (result E A).
Proof. solve_decision. Defined.

#[global] Instance result_ret {E} : MRet (result E) := λ A a, Ok a.
#[global] Instance result_bind {E} : MBind (result E) := λ A B f m,
  match m with Ok a => f a | Err e => Err e end.

Definition is_ok {E A} (r : result E A) : bool :=
  match r with Ok _ => true | Err _ => false end.

Definition is_err {E A} (r : result E A) : bool := negb (is_ok r).

Definition is_none {A} (o : option A) : bool :=
  match o with None => true | Some _ => false end.
Definition is_some {A} (o : option A) : bool := negb (is_none o).
Definition is_some_and {A} (f : A → bool) (o : option A) : bool :=
  match o with Some a => f a | None => false end.

(** [if cond { return Err(e) }] *)
Definition reject_if {E} (cond : bool) (e : E) : result E () :=
  if cond then Err e else Ok ().

(** [option.ok_or(e)] *)
Definition ok_or {E A} (o : option A) (e : E) : result E A :=
  match o with Some a => Ok a | None => Err e end.

(** [result.map_err(|_| e)] *)
Definition map_err {E F A} (f : E → F) (r : result E A) : result F A :=
  match r with Ok a => Ok a | Err e => Err (f e) end.

Definition M (S E A : Type) : Type := S → result E A * S.

#[global] Instance M_ret {S E} : MRet (M S E) := λ A a s, (Ok a, s).
#[global] Instance M_bind {S E} : MBind (M S E) := λ A B f m s,
  match m s with
  | (Ok a, s') => f a s'
  | (Err e, s') => (Err e, s')
  end.

Definition get {S E} : M S E S := λ s, (Ok s, s).
Definition gets {S E A} (f : S → A) : M S E A := λ s, (Ok (f s), s).
Definition modify {S E} (f : S → S) : M S E () := λ s, (Ok (), f s).
Definition throw {S E A} (e : E) : M S E A := λ s, (Err e, s).
Definition lift {S E A} (r : result E A) : M S E A := λ s, (r, s).

(** A computation that returns the state it was given whenever it fails. *)
Definition fails_unchanged {S E A} (m : M S E A) : Prop :=
  ∀ s e s', m s = (Err e, s') → s' = s.

Declare Scope rail_scope.
Delimit Scope rail_scope with rail.
Notation "'fail_if!' b 'with' e ; k" :=
  (mbind (λ _ : (), k) (lift (reject_if b e)))
  (at level 100, b at level 99, e at level 99, k at level 200,
   right associativity) : rail_scope.
Notation "'check!' r ; k" := (mbind (λ _ : (), k) r)
  (at level 100, r at level 99, k at level 200, right associativity)
  : rail_scope.
Open Scope rail_scope.

Section result_lemmas.
Context {E : Type}.

Lemma result_bind_ok {A B} (m : result E A) (f : A → result E B) b :
  m ≫= f = Ok b ↔ ∃ a, m = Ok a ∧ f a = Ok b.
Proof. destruct m; cbn; naive_solver. Qed.

Lemma result_bind_err {A B} (m : result E A) (f : A → result E B) e :
  m ≫= f = Err e ↔ m = Err e ∨ ∃ a, m = Ok a ∧ f a = Err e.
Proof. destruct m; cbn; naive_solver. Qed.

Lemma reject_if_ok b (e : E) u : reject_if b e = Ok u ↔ b = false.
Proof. destruct b, u; cbn; naive_solver. Qed.

Lemma reject_if_err b (e e' : E) : reject_if b e = Err e' ↔ b = true ∧ e' = e.
Proof. destruct b; cbn; naive_solver. Qed.

Lemma ok_or_ok {A} (o : option A) (e : E) a : ok_or o e = Ok a ↔ o = Some a.
Proof. destruct o; cbn; naive_solver. Qed.

Lemma ok_or_err {A} (o : option A) (e e' : E) :
  ok_or o e = Err e' ↔ o = None ∧ e' = e.
Proof. destruct o; cbn; naive_solver. Qed.
Lemma map_err_ok {F A} (f : F → E) (r : result F A) a :
  map_err f r = Ok a ↔ r = Ok a.
Proof. destruct r; cbn; naive_solver. Qed.
End result_lemmas.

Section M_lemmas.
Context {S E : Type}.

Lemma M_bind_ok {A B} (m : M S E A) (f : A → M S E B) s b s' :
  (m ≫= f) s = (Ok b, s') ↔ ∃ a s1, m s = (Ok a, s1) ∧ f a s1 = (Ok b, s').
Proof. unfold mbind, M_bind. destruct (m s) as [[]]; naive_solver. Qed.

Lemma M_bind_err {A B} (m : M S E A) (f : A → M S E B) s e s' :
  (m ≫= f) s = (Err e, s') ↔
  m s = (Err e, s') ∨ ∃ a s1, m s = (Ok a, s1) ∧ f a s1 = (Err e, s').
Proof. unfold mbind, M_bind. destruct (m s) as [[]]; naive_solver. Qed.

Lemma lift_inv {A} (r : result E A) (s : S) x s' :
  lift r s = (x, s') ↔ r = x ∧ s' = s.
Proof. unfold lift. naive_solver. Qed.

Lemma fails_unchanged_lift {A} (r : result E A) :
  fails_unchanged (lift r : M S E A).
Proof. intros s e s' H. by apply lift_inv in H as [_ ->]. Qed.

Lemma fails_unchanged_gets {A} (f : S → A) :
  fails_unchanged (gets f : M S E A).
Proof. by intros s e s' [=]. Qed.

Lemma fails_unchanged_ret {A} (a : A) :
  fails_unchanged (mret a : M S E A).
Proof. by intros s e s' [=]. Qed.

Lemma fails_unchanged_throw {A} (e : E) :
  fails_unchanged (throw e : M S E A).
Proof. by intros s e' s' [=]. Qed.

Lemma fails_unchanged_modify (f : S → S) :
  fails_unchanged (modify f : M S E ()).
Proof. by intros s e' s' [=]. Qed.

(** A step that does not touch the state may precede any other. *)
Lemma fails_unchanged_bind_lift {A B} (r : result E A) (f : A → M S E B) :
  (∀ a, r = Ok a → fails_unchanged (f a)) → fails_unchanged (lift r ≫= f).
Proof.
  intros Hf s e s' [H|(a & s1 & H & H')]%M_bind_err;
    apply lift_inv in H as [? ->]; [done|]. by eapply Hf.
Qed.

Lemma fails_unchanged_bind_gets {A B} (g : S → A) (f : A → M S E B) :
  (∀ a, fails_unchanged (f a)) → fails_unchanged (gets g ≫= f).
Proof. intros Hf s e s' H. eapply Hf, H. Qed.
End M_lemmas.

(** [inv_run] takes a hypothesis [m s = (r, s')] about a monadic program
    apart along its binds; [inv_result] does the same for [result]. *)
Ltac inv_result :=
  repeat match goal with
  | H : _ ≫= _ = Ok _ |- _ => apply result_bind_ok in H as (? & ? & ?)
  | H : _ ≫= _ = Err _ |- _ =>
      apply result_bind_err in H as [?|(? & ? & ?)]
  | H : reject_if _ _ = Ok _ |- _ => apply reject_if_ok in H
  | H : reject_if _ _ = Err _ |- _ => apply reject_if_err in H as [??]
  | H : ok_or _ _ = Ok _ |- _ => apply ok_or_ok in H
  | H : ok_or _ _ = Err _ |- _ => apply ok_or_err in H as [??]
  | H : map_err _ _ = Ok _ |- _ => apply map_err_ok in H
  | H : mret _ = Ok _ |- _ => injection H as H
  | H : mret _ = Err _ |- _ => discriminate H
  end; simplify_eq.

Ltac inv_run :=
  repeat match goal with
  | H : (_ ≫= _) _ = (Ok _, _) |- _ => apply M_bind_ok in H as (? & ? & ? & ?)
  | H : (_ ≫= _) _ = (Err _, _) |- _ =>
      apply M_bind_err in H as [?|(? & ? & ? & ?)]
  | H : lift _ _ = (_, _) |- _ => apply lift_inv in H as [??]
  | H : gets _ _ = (_, _) |- _ => unfold gets in H
  | H : get _ = (_, _) |- _ => unfold get in H
  | H : modify _ _ = (_, _) |- _ => unfold modify in H
  | H : throw _ _ = (_, _) |- _ => unfold throw in H
  | H : mret _ _ = (_, _) |- _ => unfold mret, M_ret in H
  | H : reject_if _ _ = Ok _ |- _ => apply reject_if_ok in H
  | H : reject_if _ _ = Err _ |- _ => apply reject_if_err in H as [??]
  | H : ok_or _ _ = Ok _ |- _ => apply ok_or_ok in H
  | H : ok_or _ _ = Err _ |- _ => apply ok_or_err in H as [??]
  | H : (Ok _, _) = (Err _, _) |- _ => discriminate H
  | H : (Err _, _) = (Ok _, _) |- _ => discriminate H
  end; simplify_eq.

(** [inv_bools] turns boolean guards into propositions. *)
Ltac inv_bools :=
  repeat match goal with
  | H : negb _ = false |- _ => apply negb_false_iff in H
  | H : negb _ = true |- _ => apply negb_true_iff in H
  | H : _ && _ = true |- _ => apply andb_true_iff in H as [??]
  | H : _ || _ = false |- _ => apply orb_false_iff in H as [??]
  | H : bool_decide _ = true |- _ => apply bool_decide_eq_true in H
  | H : bool_decide _ = false |- _ => apply bool_decide_eq_false in H
  end.

(** ** Machine integers

    [u16], [u32], [u64] and [usize] values are natural numbers below the
    type's bound; [usize] is 64 bits wide, as on every supported host. *)

Local Open Scope N_scope.

Definition U64_MAX : N := 2 ^ 64 - 1.
Definition USIZE_MAX : N := 2 ^ 64 - 1.

Definition u64_checked_add (a b : N) : option N :=
  if a + b <=? U64_MAX then Some (a + b) else None.
Definition u64_saturating_add (a b : N) : N := N.min (a + b) U64_MAX.
Definition usize_checked_add (a b : N) : option N :=
  if a + b <=? USIZE_MAX then Some (a + b) else None.
Definition usize_saturating_add (a b : N) : N := N.min (a + b) USIZE_MAX.
(** [usize::try_from(u64)] *)
Definition usize_try_from (v : N) : option N :=
  if v <=? USIZE_MAX then Some v else None.

Definition len {A} (l : list A) : N := N.of_nat (length l).

Lemma u64_checked_add_some a b c :
  u64_checked_add a b = Some c ↔ c = a + b ∧ a + b <= U64_MAX.
Proof. unfold u64_checked_add. destruct (N.leb_spec (a + b) U64_MAX); naive_solver lia. Qed.

Lemma usize_try_from_some v w : usize_try_from v = Some w ↔ w = v ∧ v <= USIZE_MAX.
Proof. unfold usize_try_from. destruct (N.leb_spec v USIZE_MAX); naive_solver lia. Qed.

Lemma len_app {A} (l k : list A) : len (l ++ k) = len l + len k.
Proof. unfold len. rewrite length_app. lia. Qed.

Lemma len_snoc {A} (l : list A) x : len (l ++ [x]) = len l + 1.
Proof. apply len_app. Qed.

(** ** Strings

    A Rust [String] is its UTF-8 bytes. *)

Definition bytes (s : string) : list N :=
  map Ascii.N_of_ascii (String.list_ascii_of_string s).
(** [str::len] *)
Definition str_len (s : string) : N := N.of_nat (String.length s).

(** [s.trim().is_empty()]: every character has the Unicode property
    [White_Space]. The patterns are the UTF-8 encodings of those characters:
    U+0009..U+000D, U+0020, U+0085, U+00A0, U+1680, U+2000..U+200A, U+2028,
    U+2029, U+202F, U+205F and U+3000. *)
Fixpoint blank_bytes (l : list N) : bool :=
  match l with
  | [] => true
  | 0xC2 :: b :: rest =>
      ((b =? 0x85) || (b =? 0xA0)) && blank_bytes rest
  | 0xE1 :: b :: c :: rest => (b =? 0x9A) && (c =? 0x80) && blank_bytes rest
  | 0xE2 :: b :: c :: rest =>
      (((b =? 0x80) &&
          (((0x80 <=? c) && (c <=? 0x8A)) ||
           (c =? 0xA8) || (c =? 0xA9) || (c =? 0xAF))) ||
       ((b =? 0x81) && (c =? 0x9F))) && blank_bytes rest
  | 0xE3 :: b :: c :: rest => (b =? 0x80) && (c =? 0x80) && blank_bytes rest
  | a :: rest =>
      (((0x09 <=? a) && (a <=? 0x0D)) || (a =? 0x20)) && blank_bytes rest
  end.
Definition trim_is_empty (s : string) : bool := blank_bytes (bytes s).

(** [s.chars().count()]: the bytes that are not UTF-8 continuation bytes. *)
Definition chars_count (s : string) : N :=
  len (List.filter (λ b, negb ((0x80 <=? b) && (b <=? 0xBF))) (bytes s)).

(** ** Boolean equality, as derived by [PartialEq] *)

Definition option_eqb {A} (f : A → A → bool) (x y : option A) : bool :=
  match x, y with
  | Some a, Some b => f a b
  | None, None => true
  | _, _ => false
  end.

Fixpoint list_eqb {A} (f : A → A → bool) (l k : list A) : bool :=
  match l, k with
  | [], [] => true
  | a :: l, b :: k => f a b && list_eqb f l k
  | _, _ => false
  end.

(** ** Shared lemmas *)

Lemma bool_decide_refl {A} `{EqDecision A} (x : A) : bool_decide (x = x) = true.
Proof. by apply bool_decide_eq_true. Qed.

Lemma option_eqb_refl {A} (f : A → A → bool) x :
  (∀ a, x = Some a → f a a = true) → option_eqb f x x = true.
Proof. destruct x; cbn; eauto. Qed.

Lemma lookup_snoc_inv {A} (l : list A) x i y :
  (l ++ [x]) !! i = Some y → l !! i = Some y ∨ (i = length l ∧ y = x).
Proof.
  intros [?|[? H]]%lookup_app_Some; [by left|right].
  apply list_lookup_singleton_Some in H as [? ->]. split; [lia|done].
Qed.

Lemma size_zero_empty {K A} `{Countable K} (m : gmap K A) :
  bool_decide (size m = 0%nat) = bool_decide (m = ∅).
Proof. apply bool_decide_ext. apply map_size_empty_iff. Qed.

Lemma alter_as_insert {K A} `{Countable K} (m : gmap K A) f i x :
  m !! i = Some x → alter f i m = <[i := f x]> m.
Proof.
  intros Hi. apply map_eq. intros j. destruct (decide (i = j)) as [<-|].
  - by rewrite lookup_alter_eq, Hi, lookup_insert_eq.
  - by rewrite lookup_alter_ne, lookup_insert_ne.
Qed.

Create HintDb rail.
#[export] Hint Resolve bool_decide_refl : rail.
#[export] Hint Resolve fails_unchanged_lift fails_unchanged_gets
  fails_unchanged_ret fails_unchanged_throw fails_unchanged_modify : rail.

(** ** Time

    An [Instant] is nanoseconds of the monotonic clock, a [Duration] is
    nanoseconds. *)

Definition Instant : Type := N.

(** The last instant the monotonic clock can represent: an [i64] of seconds. *)
Definition INSTANT_MAX : N := (2 ^ 63 - 1) * 10 ^ 9 + 999999999.

(** [Instant::checked_add] and [Duration::from_millis] *)
Definition instant_checked_add (i d : N) : option Instant :=
  if i + d <=? INSTANT_MAX then Some (i + d) else None.
Definition from_millis (ms : N) : N := ms * 10 ^ 6.

(** Text that stands for bytes, and can be read back, for examples *)
Fixpoint pos_string (p : positive) : string :=
  match p with
  | xH => EmptyString
  | xO p => String (Ascii.ascii_of_nat 65) (pos_string p)
  | xI p => String (Ascii.ascii_of_nat 66) (pos_string p)
  end.
Fixpoint string_pos (s : string) : positive :=
  match s with
  | EmptyString => xH
  | String a s => if Ascii.eqb a (Ascii.ascii_of_nat 65) then xO (string_pos s) else xI (string_pos s)
  end.

Lemma string_pos_string p : string_pos (pos_string p) = p.
Proof. induction p as [p IH|p IH|]; cbn; by rewrite ?IH. Qed.

Definition text_of (l : list N) : string := pos_string (encode l).
Definition text_to (text : string) : option (list N) := decode (string_pos text).

Lemma text_to_of l : text_to (text_of l) = Some l.
Proof. unfold text_to, text_of. by rewrite string_pos_string, decode_encode. Qed.

(** The keys of a [BTreeMap], in its order. *)
Definition string_le (x y : string) : Prop := String.leb x y = true.
#[global] Instance string_le_dec : RelDecision string_le.
Proof. intros x y. unfold string_le. apply _. Defined.

Definition btree_keys {A} (m : gmap string A) : list string :=
  merge_sort string_le (elements (dom m)).

Lemma btree_keys_dom {A} (m : gmap string A) :
  length (btree_keys m) = size m ∧ ∀ d, d ∈ btree_keys m ↔ d ∈ dom m.
Proof.
  unfold btree_keys. pose proof (merge_sort_Permutation string_le (elements (dom m))) as Hp.
  split.
  - rewrite Hp. by rewrite <-size_dom.
  - intros d. rewrite Hp. by rewrite elem_of_elements.
Qed.
