(* ===== verification/Protocol.v ===== *)
(** * The wire protocol's data types

    [crates/protocol/src/]: identifiers, sequence numbers, JSON values, device
    observations, action calls and results, and the event envelope every other
    component exchanges. Field names carry a short prefix per record, since
    Rocq projections share one name space; enum constructors keep the source's
    names, prefixed where two enums share one. *)

From S2P Require Import Prelude.
From Stdlib Require Export SpecFloat.

Local Open Scope N_scope.

(** ** Identifiers

    A [Uuid] is its 128-bit value; the derived order of [Uuid] (big-endian
    bytes) is the order of that value. *)

Definition Uuid : Type := N.
Definition SessionId : Type := N.
Definition EventId : Type := N.
Definition MediaStreamId : Type := N.
Definition DeviceId : Type := string.

(** [rpc.rs]: [enum RpcId] *)
Inductive RpcId :=
| RpcString (s : string)
| RpcNumber (n : N).

#[global] Instance RpcId_eq_dec : EqDecision RpcId.
Proof. solve_decision. Defined.

(** [wire_integer.rs] *)
Definition MAX_SAFE_INTEGER : N := 9007199254740991.

(** ** Event sequence numbers ([event.rs]) *)

Definition EventSequence : Type := N.

Module EventSequence.
Definition FIRST : EventSequence := 1.
Definition new (value : N) : option EventSequence :=
  if (0 <? value) && (value <=? MAX_SAFE_INTEGER) then Some value else None.
Definition get (s : EventSequence) : N := s.
Definition checked_next (s : EventSequence) : option EventSequence :=
  u64_checked_add (get s) 1 ≫= new.
End EventSequence.

(** ** JSON values

    A [serde_json::Map] is ordered by key; it is the list of its entries in
    that order. An [f64] is a binary64 value, compared as IEEE 754 does. *)

Definition f64 : Type := spec_float.
Definition f64_eqb (x y : f64) : bool := SFeqb x y.
Definition f64_is_finite (x : f64) : bool :=
  match x with S754_zero _ | S754_finite _ _ _ => true | _ => false end.
(** [x <= 0.0] *)
Definition f64_le_zero (x : f64) : bool := SFleb x (S754_zero false).

Inductive JsonNumber :=
| PosInt (n : N)
| NegInt (z : Z)
| Float (f : f64).

Inductive Json :=
| JNull
| JBool (b : bool)
| JNumber (n : JsonNumber)
| JString (s : string)
| JArray (values : list Json)
| JObject (entries : list (string * Json)).

Definition JsonNumber_eqb (x y : JsonNumber) : bool :=
  match x, y with
  | PosInt a, PosInt b => a =? b
  | NegInt a, NegInt b => (a =? b)%Z
  | Float a, Float b => f64_eqb a b
  | _, _ => false
  end.

Fixpoint Json_eqb (x y : Json) {struct x} : bool :=
  match x, y with
  | JNull, JNull => true
  | JBool a, JBool b => Bool.eqb a b
  | JNumber a, JNumber b => JsonNumber_eqb a b
  | JString a, JString b => String.eqb a b
  | JArray a, JArray b => list_eqb Json_eqb a b
  | JObject a, JObject b =>
      list_eqb (λ p q, String.eqb (fst p) (fst q) && Json_eqb (snd p) (snd q)) a b
  | _, _ => false
  end.

Definition is_null (v : Json) : bool :=
  match v with JNull => true | _ => false end.

(** ** Devices and observations ([device.rs], [ui.rs]) *)

Inductive Platform :=
| Platform_Web
| Platform_Android
| Platform_Ios
| Platform_HarmonyOs
| Platform_MacOs
| Platform_Windows
| Platform_Linux
| Platform_Rdp
| Platform_Mock
| Platform_Other (name : string).

Record DeviceInfo := mkDeviceInfo {
  di_id : DeviceId;
  di_name : string;
  di_platform : Platform;
  di_os_version : option string;
  di_connected : bool;
}.

Record Viewport := mkViewport {
  vp_width : N;
  vp_height : N;
  vp_scale_factor : f64;
}.

Record AssetRef := mkAssetRef {
  ar_id : string;
  ar_media_type : string;
  ar_uri : string;
  ar_sha256 : option string;
}.

#[global] Instance AssetRef_eq_dec : EqDecision AssetRef.
Proof. solve_decision. Defined.
#[global] Program Instance AssetRef_countable : Countable AssetRef :=
  inj_countable'
    (λ a, (ar_id a, ar_media_type a, ar_uri a, ar_sha256 a))
    (λ '(i, m, u, s), mkAssetRef i m u s) _.
Next Obligation. by intros []. Qed.

Inductive ScreenshotOmissionReason :=
| Omission_Policy
| Omission_ProtectedAction.

#[global] Instance ScreenshotOmissionReason_eq_dec :
  EqDecision ScreenshotOmissionReason.
Proof. solve_decision. Defined.

Inductive UiContextKind := Native | Web.

#[global] Instance UiContextKind_eq_dec : EqDecision UiContextKind.
Proof. solve_decision. Defined.

Record UiContextRef := mkUiContextRef {
  cx_context_kind : UiContextKind;
  cx_context_id : string;
  cx_document_epoch : string;
}.

#[global] Instance UiContextRef_eq_dec : EqDecision UiContextRef.
Proof. solve_decision. Defined.

Record UiSnapshotRef := mkUiSnapshotRef {
  us_format_version : N;
  us_context : UiContextRef;
  us_node_count : N;
  us_byte_length : N;
  us_evidence : AssetRef;
}.

#[global] Instance UiSnapshotRef_eq_dec : EqDecision UiSnapshotRef.
Proof. solve_decision. Defined.

Inductive UiSnapshotOmissionReason :=
| UiOmission_DriverUnsupported
| UiOmission_Policy
| UiOmission_ProtectedAction.

#[global] Instance UiSnapshotOmissionReason_eq_dec :
  EqDecision UiSnapshotOmissionReason.
Proof. solve_decision. Defined.

Record Observation := mkObservation {
  obs_id : Uuid;
  obs_device_id : DeviceId;
  obs_captured_at_ms : N;
  obs_viewport : Viewport;
  obs_screenshot : option AssetRef;
  obs_screenshot_omission : option ScreenshotOmissionReason;
  obs_ui_snapshot : option UiSnapshotRef;
  obs_ui_snapshot_omission : option UiSnapshotOmissionReason;
  obs_metadata : list (string * Json);
}.

(** [Observation::asset_refs] *)
Definition observation_asset_refs (o : Observation) : list AssetRef :=
  option_list (obs_screenshot o) ++
  option_list (us_evidence <$> obs_ui_snapshot o).

(** [Observation::ui_snapshot_state_is_valid] *)
Definition ui_snapshot_state_is_valid (o : Observation) : bool :=
  negb (bool_decide (is_Some (obs_ui_snapshot o)) &&
        bool_decide (is_Some (obs_ui_snapshot_omission o))).

(** ** Actions ([action.rs], [ui.rs]) *)

Inductive ActionProtection := Standard | Protected.

#[global] Instance ActionProtection_eq_dec : EqDecision ActionProtection.
Proof. solve_decision. Defined.

Record ActionDefinition := mkActionDefinition {
  def_name : string;
  def_description : string;
  def_input_schema : Json;
  def_protection : ActionProtection;
}.

Record ActionCall := mkActionCall {
  call_id : Uuid;
  call_name : string;
  call_arguments : Json;
}.

Record RecordedActionCall := mkRecordedActionCall {
  rc_id : Uuid;
  rc_name : string;
  rc_arguments : Json;
  rc_arguments_redacted : bool;
}.

(** [RecordedActionCall::from_action_call] *)
Definition from_action_call
    (call : ActionCall) (protection : option ActionProtection)
    : RecordedActionCall :=
  let is_standard :=
    match protection with Some Standard => true | _ => false end in
  {| rc_id := call_id call;
     rc_name := call_name call;
     rc_arguments := if is_standard then call_arguments call else JNull;
     rc_arguments_redacted := negb is_standard |}.

Inductive CoordinateFallbackReason :=
| SemanticInteractionUnavailable
| PlatformLimitation.

#[global] Instance CoordinateFallbackReason_eq_dec :
  EqDecision CoordinateFallbackReason.
Proof. solve_decision. Defined.

Inductive ActionExecution :=
| NativeSemantic (context : UiContextRef)
| WebSemantic (context : UiContextRef)
| CoordinateFallback (context : UiContextRef)
    (fallback_reason : CoordinateFallbackReason).

#[global] Instance ActionExecution_eq_dec : EqDecision ActionExecution.
Proof. solve_decision. Defined.

Record ActionResult := mkActionResult {
  res_call_id : Uuid;
  res_started_at_ms : N;
  res_finished_at_ms : N;
  res_output : Json;
  res_before : option Observation;
  res_after : option Observation;
  res_evidence : list AssetRef;
  res_execution : option ActionExecution;
}.

(** [ActionResult::asset_refs] *)
Definition result_asset_refs (r : ActionResult) : list AssetRef :=
  res_evidence r ++
  (option_list (res_before r) ≫= observation_asset_refs) ++
  (option_list (res_after r) ≫= observation_asset_refs).

(** ** Verdicts and errors ([event.rs]) *)

Definition MAX_VERDICT_SUMMARY_LENGTH : N := 16 * 1024.
Definition MAX_VERDICT_EVIDENCE_REFERENCES : N := 64.

Inductive VerdictStatus := Pass | VerdictFail | VerdictUnknown.

#[global] Instance VerdictStatus_eq_dec : EqDecision VerdictStatus.
Proof. solve_decision. Defined.

Record Verdict := mkVerdict {
  vd_status : VerdictStatus;
  vd_summary : string;
  vd_evidence : list AssetRef;
}.

#[global] Instance Verdict_eq_dec : EqDecision Verdict.
Proof. solve_decision. Defined.

Inductive VerdictValidationError :=
| EmptySummary
| SummaryTooLong (actual maximum : N)
| TooManyEvidenceReferences (actual maximum : N).

(** [Verdict::validate] *)
Definition verdict_validate (v : Verdict) : result VerdictValidationError () :=
  check! reject_if (trim_is_empty (vd_summary v)) EmptySummary;
  let summary_length := chars_count (vd_summary v) in
  check! reject_if (MAX_VERDICT_SUMMARY_LENGTH <? summary_length)
    (SummaryTooLong summary_length MAX_VERDICT_SUMMARY_LENGTH);
  reject_if (MAX_VERDICT_EVIDENCE_REFERENCES <? len (vd_evidence v))
    (TooManyEvidenceReferences (len (vd_evidence v))
       MAX_VERDICT_EVIDENCE_REFERENCES).

Record ErrorInfo := mkErrorInfo {
  ei_code : string;
  ei_message : string;
  ei_retryable : bool;
  ei_details : option Json;
}.

(** ** Sessions and events ([event.rs]) *)

Inductive SessionState := Active | Ended.

#[global] Instance SessionState_eq_dec : EqDecision SessionState.
Proof. solve_decision. Defined.

Inductive SessionOutcome :=
| Outcome_Completed
| Outcome_Failed
| Outcome_Cancelled
| Outcome_Shutdown.

#[global] Instance SessionOutcome_eq_dec : EqDecision SessionOutcome.
Proof. solve_decision. Defined.

Record SessionInfo := mkSessionInfo {
  si_id : SessionId;
  si_state : SessionState;
  si_started_at_ms : N;
  si_ended_at_ms : option N;
  si_event_count : EventSequence;
  si_last_sequence : EventSequence;
}.

Inductive MediaStreamKind := Screenshot | Video.

#[global] Instance MediaStreamKind_eq_dec : EqDecision MediaStreamKind.
Proof. solve_decision. Defined.

Record MediaStreamInfo := mkMediaStreamInfo {
  ms_id : MediaStreamId;
  ms_kind : MediaStreamKind;
  ms_media_type : string;
  ms_viewport : option Viewport;
}.

Record MediaFrame := mkMediaFrame {
  mf_stream_id : MediaStreamId;
  mf_frame_index : EventSequence;
  mf_key_frame : bool;
  mf_duration_ms : option N;
  mf_evidence : AssetRef;
}.

#[global] Instance MediaFrame_eq_dec : EqDecision MediaFrame.
Proof. solve_decision. Defined.

Inductive ActionOutcome :=
| Succeeded (result : ActionResult)
| Failed (error : ErrorInfo)
| Cancelled (error : ErrorInfo)
| TimedOut (error : ErrorInfo) (timeout_ms : N).

Inductive TestEventPayload :=
| SessionStarted
| SessionEnded (outcome : SessionOutcome) (reason : option string)
| ObservationCaptured (observation : Observation)
| ActionStarted (call : RecordedActionCall)
| ActionCompleted (call_id : Uuid) (outcome : ActionOutcome)
| MediaStreamStarted (stream : MediaStreamInfo)
| MediaFrameCaptured (frame : MediaFrame)
| MediaStreamEnded (stream_id : MediaStreamId) (frame_count : N)
| VerdictRecorded (verdict : Verdict)
| ErrorEvent (error : ErrorInfo).

Record TestEvent := mkTestEvent {
  ev_event_id : EventId;
  ev_session_id : SessionId;
  ev_sequence : EventSequence;
  ev_request_id : option RpcId;
  ev_device_id : option DeviceId;
  ev_at_ms : N;
  ev_payload : TestEventPayload;
}.

Record SessionExport := mkSessionExport {
  se_session : SessionInfo;
  se_events : list TestEvent;
}.

Definition has_ui_snapshot_fields (o : Observation) : bool :=
  bool_decide (is_Some (obs_ui_snapshot o)) ||
  bool_decide (is_Some (obs_ui_snapshot_omission o)).

(** [TestEventPayload::required_protocol_minor] *)
Definition required_protocol_minor (p : TestEventPayload) : N :=
  match p with
  | MediaStreamStarted _ | MediaFrameCaptured _ | MediaStreamEnded _ _ => 4
  | ObservationCaptured o => if has_ui_snapshot_fields o then 5 else 0
  | ActionCompleted _ (Succeeded r) =>
      if bool_decide (is_Some (res_execution r)) ||
         existsb has_ui_snapshot_fields
           (option_list (res_before r) ++ option_list (res_after r))
      then 5 else 0
  | _ => 0
  end.

(** ** Derived [PartialEq]

    Types without a floating-point or JSON field derive [Eq], and their
    [PartialEq] is decidable equality. *)

Definition Viewport_eqb (x y : Viewport) : bool :=
  (vp_width x =? vp_width y) && (vp_height x =? vp_height y) &&
  f64_eqb (vp_scale_factor x) (vp_scale_factor y).

Definition Observation_eqb (x y : Observation) : bool :=
  bool_decide (obs_id x = obs_id y) &&
  bool_decide (obs_device_id x = obs_device_id y) &&
  (obs_captured_at_ms x =? obs_captured_at_ms y) &&
  Viewport_eqb (obs_viewport x) (obs_viewport y) &&
  bool_decide (obs_screenshot x = obs_screenshot y) &&
  bool_decide (obs_screenshot_omission x = obs_screenshot_omission y) &&
  bool_decide (obs_ui_snapshot x = obs_ui_snapshot y) &&
  bool_decide (obs_ui_snapshot_omission x = obs_ui_snapshot_omission y) &&
  Json_eqb (JObject (obs_metadata x)) (JObject (obs_metadata y)).

Definition RecordedActionCall_eqb (x y : RecordedActionCall) : bool :=
  bool_decide (rc_id x = rc_id y) && String.eqb (rc_name x) (rc_name y) &&
  Json_eqb (rc_arguments x) (rc_arguments y) &&
  Bool.eqb (rc_arguments_redacted x) (rc_arguments_redacted y).

Definition ActionResult_eqb (x y : ActionResult) : bool :=
  bool_decide (res_call_id x = res_call_id y) &&
  (res_started_at_ms x =? res_started_at_ms y) &&
  (res_finished_at_ms x =? res_finished_at_ms y) &&
  Json_eqb (res_output x) (res_output y) &&
  option_eqb Observation_eqb (res_before x) (res_before y) &&
  option_eqb Observation_eqb (res_after x) (res_after y) &&
  bool_decide (res_evidence x = res_evidence y) &&
  bool_decide (res_execution x = res_execution y).

Definition ErrorInfo_eqb (x y : ErrorInfo) : bool :=
  String.eqb (ei_code x) (ei_code y) &&
  String.eqb (ei_message x) (ei_message y) &&
  Bool.eqb (ei_retryable x) (ei_retryable y) &&
  option_eqb Json_eqb (ei_details x) (ei_details y).

Definition MediaStreamInfo_eqb (x y : MediaStreamInfo) : bool :=
  bool_decide (ms_id x = ms_id y) && bool_decide (ms_kind x = ms_kind y) &&
  String.eqb (ms_media_type x) (ms_media_type y) &&
  option_eqb Viewport_eqb (ms_viewport x) (ms_viewport y).

Definition ActionOutcome_eqb (x y : ActionOutcome) : bool :=
  match x, y with
  | Succeeded a, Succeeded b => ActionResult_eqb a b
  | Failed a, Failed b => ErrorInfo_eqb a b
  | Cancelled a, Cancelled b => ErrorInfo_eqb a b
  | TimedOut a n, TimedOut b m => ErrorInfo_eqb a b && (n =? m)
  | _, _ => false
  end.

Definition TestEventPayload_eqb (x y : TestEventPayload) : bool :=
  match x, y with
  | SessionStarted, SessionStarted => true
  | SessionEnded o r, SessionEnded o' r' =>
      bool_decide (o = o') && bool_decide (r = r')
  | ObservationCaptured a, ObservationCaptured b => Observation_eqb a b
  | ActionStarted a, ActionStarted b => RecordedActionCall_eqb a b
  | ActionCompleted i o, ActionCompleted j o' =>
      bool_decide (i = j) && ActionOutcome_eqb o o'
  | MediaStreamStarted a, MediaStreamStarted b => MediaStreamInfo_eqb a b
  | MediaFrameCaptured a, MediaFrameCaptured b => bool_decide (a = b)
  | MediaStreamEnded i n, MediaStreamEnded j m =>
      bool_decide (i = j) && (n =? m)
  | VerdictRecorded a, VerdictRecorded b => bool_decide (a = b)
  | ErrorEvent a, ErrorEvent b => ErrorInfo_eqb a b
  | _, _ => false
  end.

(** ** Lemmas *)

Lemma EventSequence_new_some v s :
  EventSequence.new v = Some s ↔ s = v ∧ 0 < v ∧ v <= MAX_SAFE_INTEGER.
Proof.
  unfold EventSequence.new.
  destruct (N.ltb_spec 0 v), (N.leb_spec v MAX_SAFE_INTEGER);
    cbn; naive_solver lia.
Qed.

Lemma checked_next_some s s' :
  EventSequence.checked_next s = Some s' ↔ s' = s + 1 ∧ s + 1 <= MAX_SAFE_INTEGER.
Proof.
  unfold EventSequence.checked_next, EventSequence.get. split.
  - intros (w & [-> _]%u64_checked_add_some & [-> ?]%EventSequence_new_some)
      %bind_Some. lia.
  - intros [-> ?]. apply bind_Some. exists (s + 1).
    rewrite u64_checked_add_some, EventSequence_new_some.
    unfold U64_MAX, MAX_SAFE_INTEGER in *. lia.
Qed.

Lemma f64_eqb_refl x : f64_is_finite x = true → f64_eqb x x = true.
Proof.
  unfold f64_eqb, SFeqb. destruct x as [| | |s m e]; try done. intros _. cbn.
  rewrite Z.compare_refl, Pos.compare_cont_refl. by destruct s.
Qed.

(** The finite, positive viewport the Event Store accepts equals itself. *)
Lemma MediaStreamInfo_eqb_refl s :
  (∀ v, ms_viewport s = Some v → f64_is_finite (vp_scale_factor v) = true) →
  MediaStreamInfo_eqb s s = true.
Proof.
  intros Hv. unfold MediaStreamInfo_eqb.
  rewrite !bool_decide_refl, String.eqb_refl. cbn.
  apply option_eqb_refl. intros v Hs. unfold Viewport_eqb.
  by rewrite !N.eqb_refl, f64_eqb_refl by eauto.
Qed.
