(* ===== verification/Evidence.v ===== *)
(** * Content-addressed evidence references

    [crates/core/src/evidence.rs]: the canonical SHA-256 digest, the asset
    reference derived from it, and media-type validation. The bodies of
    evidence objects and the digest function itself are not modelled. *)

From S2P Require Import Prelude Protocol.

Local Open Scope N_scope.

Definition SHA256_HEX_LENGTH : N := 64.
Definition ASSET_ID_PREFIX : string := "sha256:".
Definition ASSET_URI_PREFIX : string := "devicerail://assets/sha256/".
Definition MAX_MEDIA_TYPE_LENGTH : N := 255.

(** [struct Sha256Digest(String)] *)
Abbreviation Sha256Digest := string.

Inductive EvidenceError :=
| Unavailable
| InvalidConfiguration (message : string)
| CorruptStore (message : string)
| InvalidReference (reason : string)
| InvalidDigest (value : string)
| InvalidMediaType (value : string)
| EmptyContent
| DeclaredSizeMismatch (declared actual : N)
| DigestMismatch (expected actual : Sha256Digest)
| EvidenceNotFound (digest : Sha256Digest)
| NotAttached (session_id : SessionId) (digest : Sha256Digest)
| Corrupt (expected actual : Sha256Digest)
| CorruptMetadata (digest : Sha256Digest) (reason : string)
| MediaTypeConflict (digest : Sha256Digest) (existing requested : string)
| UnsafePath (path : string)
| TooLarge (actual maximum : N)
| ReferenceLimit (maximum : N)
| SessionClosed (session_id : SessionId)
| StoreBusy
| UnsupportedStoreVersion (version : N)
| Io (operation message : string)
| EvidenceInternal (message : string).

#[global] Instance EvidenceError_eq_dec : EqDecision EvidenceError.
Proof. solve_decision. Defined.

(** [EvidenceError::to_error_info]; [uuid_text] is the hyphenated text of a
    UUID. The entries of an object are in the order of their keys. *)
Definition evidence_error_info (uuid_text : Uuid → string) (e : EvidenceError) : ErrorInfo :=
  let text key s := (key, JString s) in
  let number key n := (key, JNumber (PosInt n)) in
  let object l := Some (JObject l) in
  let '(code, message, retryable, details) :=
    match e with
    | Unavailable =>
        ("evidence_store_unavailable", "evidence store is not configured for this runtime",
         false, None)
    | InvalidConfiguration _ =>
        ("invalid_evidence_store_configuration", "evidence store configuration is invalid",
         false, None)
    | CorruptStore _ => ("evidence_corrupt", "evidence store is corrupt", false, None)
    | InvalidReference reason =>
        ("invalid_evidence_reference", "evidence reference is invalid", false,
         object [text "reason" reason])
    | InvalidDigest value =>
        ("invalid_evidence_digest", "evidence digest is invalid", false,
         object [text "digest" value])
    | InvalidMediaType media_type =>
        ("invalid_evidence_media_type", "evidence media type is invalid", false,
         object [text "mediaType" media_type])
    | EmptyContent => ("empty_evidence", "evidence content is empty", false, None)
    | DeclaredSizeMismatch declared actual =>
        ("evidence_size_mismatch", "evidence size does not match its declaration", false,
         object [number "actualBytes" actual; number "declaredBytes" declared])
    | DigestMismatch expected actual =>
        ("evidence_digest_mismatch", "evidence digest does not match its declaration", false,
         object [text "actual" actual; text "expected" expected])
    | EvidenceNotFound digest =>
        ("evidence_not_found", "evidence was not found", false, object [text "digest" digest])
    | NotAttached session_id digest =>
        ("evidence_not_attached", "evidence is not attached to this session", false,
         object [text "digest" digest; text "sessionId" (uuid_text session_id)])
    | Corrupt expected actual =>
        ("evidence_corrupt", "evidence content is corrupt", false,
         object [text "actual" actual; text "expected" expected])
    | CorruptMetadata digest _ =>
        ("evidence_corrupt", "evidence metadata is corrupt", false,
         object [text "digest" digest])
    | MediaTypeConflict digest existing requested =>
        ("evidence_media_type_conflict",
         "evidence media type conflicts with stored metadata", false,
         object [text "digest" digest; text "existing" existing;
                 text "requested" requested])
    | UnsafePath _ => ("unsafe_evidence_path", "evidence storage path is unsafe", false, None)
    | TooLarge actual maximum =>
        ("evidence_too_large", "evidence exceeds the configured size limit", false,
         object [number "actualBytes" actual; number "maximumBytes" maximum])
    | ReferenceLimit maximum =>
        ("evidence_reference_limit", "session evidence reference limit exceeded", false,
         object [number "maximum" maximum])
    | SessionClosed session_id =>
        ("evidence_session_closed", "evidence session is already closed", false,
         object [text "sessionId" (uuid_text session_id)])
    | StoreBusy => ("evidence_store_busy", "evidence store is busy", true, None)
    | UnsupportedStoreVersion version =>
        ("unsupported_evidence_store_version", "evidence store version is unsupported", false,
         object [number "version" version])
    | Io _ _ => ("evidence_io_error", "evidence store I/O failed", true, None)
    | EvidenceInternal _ => ("evidence_store_error", "evidence store failed", true, None)
    end%string in
  {| ei_code := code;
     ei_message := message;
     ei_retryable := retryable;
     ei_details := details |}.

Definition is_ascii_digit (b : N) : bool := (0x30 <=? b) && (b <=? 0x39).
Definition is_ascii_lowercase (b : N) : bool := (0x61 <=? b) && (b <=? 0x7A).
Definition is_ascii_graphic (b : N) : bool := (0x21 <=? b) && (b <=? 0x7E).
Definition is_ascii_control (b : N) : bool := (b <=? 0x1F) || (b =? 0x7F).
(** SPACE, TAB, LINE FEED, FORM FEED and CARRIAGE RETURN *)
Definition is_ascii_whitespace (b : N) : bool :=
  (b =? 0x20) || (b =? 0x09) || (b =? 0x0A) || (b =? 0x0C) || (b =? 0x0D).
Definition is_lower_hex (b : N) : bool :=
  is_ascii_digit b || ((0x61 <=? b) && (b <=? 0x66)).

(** [Sha256Digest::parse] *)
Definition parse_digest (value : string) : result EvidenceError Sha256Digest :=
  let valid :=
    (str_len value =? SHA256_HEX_LENGTH) && forallb is_lower_hex (bytes value) in
  if valid then Ok value else Err (InvalidDigest value).

(** [Sha256Digest::asset_id] and [Sha256Digest::asset_uri] *)
Definition asset_id (d : Sha256Digest) : string := ASSET_ID_PREFIX +:+ d.
Definition asset_uri (d : Sha256Digest) : string := ASSET_URI_PREFIX +:+ d.

(** [str::split_once('/')] on the bytes of a string *)
Fixpoint split_once_slash (l : list N) : option (list N * list N) :=
  match l with
  | [] => None
  | b :: rest =>
      if b =? 0x2F then Some ([], rest)
      else '(kind, subtype) ← split_once_slash rest; Some (b :: kind, subtype)
  end.

Definition valid_media_part (part : list N) : bool :=
  negb (bool_decide (part = [])) &&
  forallb (λ b, is_ascii_graphic b && negb (is_ascii_whitespace b) &&
                negb (b =? 0x2F)) part.

(** [validate_media_type] *)
Definition validate_media_type (media_type : string) : result EvidenceError () :=
  check! reject_if (MAX_MEDIA_TYPE_LENGTH <? str_len media_type)
    (InvalidMediaType media_type);
  match split_once_slash (bytes media_type) with
  | None => Err (InvalidMediaType media_type)
  | Some (kind, subtype) =>
      if valid_media_part kind && valid_media_part subtype then Ok ()
      else Err (InvalidMediaType media_type)
  end.

(** [Sha256Digest::from_asset_ref] *)
Definition from_asset_ref (asset : AssetRef) : result EvidenceError Sha256Digest :=
  raw_digest ← ok_or (ar_sha256 asset) (InvalidReference "sha256 is required");
  digest ← map_err
    (λ _, InvalidReference "sha256 is not canonical lowercase hex")
    (parse_digest raw_digest);
  check! reject_if (negb (String.eqb (ar_id asset) (asset_id digest)))
    (InvalidReference "id does not match sha256");
  check! reject_if (negb (String.eqb (ar_uri asset) (asset_uri digest)))
    (InvalidReference "uri is not the canonical DeviceRail asset URI");
  check! validate_media_type (ar_media_type asset);
  Ok digest.

(** The reference [StoredEvidence::asset_ref] builds for stored content. *)
Definition stored_asset_ref (digest : Sha256Digest) (media_type : string)
    : AssetRef :=
  {| ar_id := asset_id digest;
     ar_media_type := media_type;
     ar_uri := asset_uri digest;
     ar_sha256 := Some digest |}.

Record EvidenceMetadata := mkEvidenceMetadata {
  em_digest : Sha256Digest;
  em_media_type : string;
  em_byte_length : N;
  em_created_at_ms : N;
  em_reference_count : N;
}.

(** [EvidenceMetadata::new] *)
Definition evidence_metadata_new (digest : Sha256Digest) (media_type : string)
    (byte_length created_at_ms reference_count : N) : result EvidenceError EvidenceMetadata :=
  check! validate_media_type media_type;
  Ok (mkEvidenceMetadata digest media_type byte_length created_at_ms reference_count).

Record ReleaseReport := mkReleaseReport {
  rr_session_id : SessionId;
  rr_released_references : N;
  rr_newly_unreferenced_assets : N;
  rr_newly_unreferenced_bytes : N;
}.

Record GcPolicy := mkGcPolicy {
  gp_unreferenced_before_ms : N;
  gp_max_assets : option N;
  gp_max_bytes : option N;
  gp_dry_run : bool;
}.

Record GcReport := mkGcReport {
  gr_examined_assets : N;
  gr_candidate_assets : N;
  gr_candidate_bytes : N;
  gr_deleted_assets : N;
  gr_deleted_bytes : N;
  gr_dry_run : bool;
}.

Record PutEvidence := mkPutEvidence {
  put_session_id : SessionId;
  put_media_type : string;
  put_expected_sha256 : option Sha256Digest;
  put_declared_size_bytes : option N;
}.

(** [PutEvidence::new] and [PutEvidence::with_declared_size_bytes] *)
Definition put_new (session_id : SessionId) (media_type : string)
    : result EvidenceError PutEvidence :=
  check! validate_media_type media_type;
  Ok (mkPutEvidence session_id media_type None None).
Definition with_declared_size_bytes (size : N) (p : PutEvidence) : PutEvidence :=
  mkPutEvidence (put_session_id p) (put_media_type p) (put_expected_sha256 p) (Some size).

Record StoredEvidence := mkStoredEvidence {
  sv_metadata : EvidenceMetadata;
  sv_deduplicated : bool;
}.

(** [StoredEvidence::asset_ref] *)
Definition asset_ref (s : StoredEvidence) : AssetRef :=
  stored_asset_ref (em_digest (sv_metadata s)) (em_media_type (sv_metadata s)).

(** ** The Session-bound writer of one Driver operation

    A writer is the Session it is bound to and the store behind it, the
    configured one or [UnavailableEvidenceStore]; its receipts are the
    references it has issued. The answers of a configured store are arguments
    of the operations. *)

Inductive EvidenceBackend := ConfiguredStore | UnavailableEvidenceStore.

Record SessionEvidenceWriter := mkSessionEvidenceWriter {
  sew_session_id : SessionId;
  sew_store : EvidenceBackend;
}.

(** [EvidenceStore::put] and [EvidenceStore::attach] through the backend *)
Definition backend_answer (b : EvidenceBackend)
    (configured : result EvidenceError StoredEvidence) : result EvidenceError StoredEvidence :=
  match b with
  | ConfiguredStore => configured
  | UnavailableEvidenceStore => Err Unavailable
  end.

(** [SessionEvidenceWriter::record] *)
Definition record_receipt (stored : StoredEvidence) (receipts : gset AssetRef) : gset AssetRef :=
  {[asset_ref stored]} ∪ receipts.

(** [SessionEvidenceWriter::put] and [put_with_declared_size] *)
Definition writer_put (w : SessionEvidenceWriter) (media_type : string)
    (configured : result EvidenceError StoredEvidence)
    : M (gset AssetRef) EvidenceError StoredEvidence :=
  _ ← lift (put_new (sew_session_id w) media_type);
  stored ← lift (backend_answer (sew_store w) configured);
  check! modify (record_receipt stored);
  mret stored.

(** [SessionEvidenceWriter::attach] *)
Definition writer_attach (w : SessionEvidenceWriter)
    (configured : result EvidenceError StoredEvidence)
    : M (gset AssetRef) EvidenceError StoredEvidence :=
  stored ← lift (backend_answer (sew_store w) configured);
  check! modify (record_receipt stored);
  mret stored.

(** [SessionEvidenceWriter::receipts_match] *)
Definition receipts_match (issued : gset AssetRef) (returned : list AssetRef) : bool :=
  bool_decide (issued = list_to_set returned).

(** ** Lemmas *)

Lemma parse_digest_ok v d :
  parse_digest v = Ok d ↔
  d = v ∧ str_len v = SHA256_HEX_LENGTH ∧ forallb is_lower_hex (bytes v) = true.
Proof.
  unfold parse_digest.
  destruct (N.eqb_spec (str_len v) SHA256_HEX_LENGTH),
    (forallb is_lower_hex (bytes v)); cbn; naive_solver.
Qed.

(** A canonical reference is determined by its digest and media type. *)
Lemma from_asset_ref_ok a d :
  from_asset_ref a = Ok d ↔
  a = stored_asset_ref d (ar_media_type a) ∧
  parse_digest d = Ok d ∧ validate_media_type (ar_media_type a) = Ok ().
Proof.
  destruct a as [i mt u sha]. unfold from_asset_ref, stored_asset_ref. cbn. split.
  - intros H. inv_result.
    match goal with H : parse_digest _ = Ok _ |- _ =>
      pose proof H as (-> & _ & _)%parse_digest_ok end.
    match goal with H : validate_media_type _ = Ok ?u |- _ => destruct u end.
    rewrite negb_false_iff, String.eqb_eq in *. naive_solver.
  - intros (Heq & Hp & Hm). simplify_eq. cbn. rewrite Hp. cbn.
    rewrite !String.eqb_refl. cbn. by rewrite Hm.
Qed.

Lemma split_once_slash_spec l k s :
  split_once_slash l = Some (k, s) ↔ l = k ++ 0x2F :: s ∧ 0x2F ∉ k.
Proof.
  revert k s. induction l as [|b l IH]; intros k s; cbn.
  { split; [done|]. intros [H _]. by destruct k. }
  destruct (N.eqb_spec b 0x2F) as [->|Hb].
  - split; [intros [= <- <-]; set_solver|].
    intros [H Hk]. destruct k; naive_solver set_solver.
  - rewrite bind_Some. split.
    + intros ([k' s'] & [-> Hk']%IH & [= <- <-]). set_solver.
    + intros [H Hk]. destruct k as [|b' k]; simplify_list_eq.
      exists (k, s). rewrite IH. set_solver.
Qed.

Lemma str_len_bytes s : str_len s = len (bytes s).
Proof.
  unfold str_len, len, bytes. rewrite length_map. f_equal.
  induction s; cbn; congruence.
Qed.

Lemma valid_media_part_not_control p b :
  valid_media_part p = true → b ∈ p → is_ascii_control b = false.
Proof.
  unfold valid_media_part. rewrite andb_true_iff, forallb_forall.
  intros [_ H] Hb%list_elem_of_In. specialize (H b Hb). cbv beta in H.
  apply andb_true_iff in H as [[H _]%andb_true_iff _].
  unfold is_ascii_graphic, is_ascii_control in *. lia.
Qed.

(** An accepted media type is non-empty, at most 255 bytes long and free of
    control bytes, which is what the bundle validator asks of a stream. *)
Lemma validate_media_type_ok m :
  validate_media_type m = Ok () →
  m ≠ ""%string ∧ str_len m <= 255 ∧
  existsb is_ascii_control (bytes m) = false.
Proof.
  unfold validate_media_type. intros H. inv_result.
  destruct (split_once_slash _) as [[k s]|] eqn:Hs; [|done].
  destruct (valid_media_part k) eqn:Hk; [|done].
  destruct (valid_media_part s) eqn:Hv; [|done].
  apply split_once_slash_spec in Hs as [Hb _]. split_and!.
  - intros ->. by destruct k.
  - unfold MAX_MEDIA_TYPE_LENGTH in *. lia.
  - apply not_true_iff_false. rewrite existsb_exists, Hb.
    intros (b & Hin%list_elem_of_In & Hc).
    apply elem_of_app in Hin as [?|[->|?]%elem_of_cons].
    + by rewrite (valid_media_part_not_control k b Hk) in Hc.
    + done.
    + by rewrite (valid_media_part_not_control s b Hv) in Hc.
Qed.
