(* ===== verification/EventStream.v ===== *)
(** * Event subscriptions

    [crates/core/src/event_stream.rs]: the limits of the stream hub and the
    subscription that turns a replay snapshot and a broadcast tail into one
    continuous sequence of events followed by one terminal item.

    The broadcast channel is tokio's: what a poll of the receiver returns is
    an argument of [next], so the lemmas hold for every behaviour of the
    channel. *)

From S2P Require Import Prelude Protocol.

Local Open Scope N_scope.

(** ** Limits *)

Definition MAX_EVENT_STREAM_REPLAY_EVENTS : N := 100000.
Definition MAX_EVENT_STREAM_TAIL_EVENTS : N := 4096.
Definition MAX_EVENT_STREAM_SUBSCRIBERS_PER_SESSION : N := 128.

Inductive EventStreamError :=
| InvalidConfig (field : string) (value maximum : N)
| StreamSessionNotFound (sid : SessionId)
| StreamSessionDeleted (sid : SessionId)
| StreamCursorAhead (sid : SessionId) (after last_sequence : EventSequence)
| ReplayLimitExceeded (sid : SessionId) (requested maximum : N)
| TooManySubscribers (sid : SessionId) (maximum : N)
| StreamStoreShutdown
| StreamInternal (message : string).

Record EventStreamConfig := mkEventStreamConfig {
  cfg_max_replay_events : N;
  cfg_tail_capacity : N;
  cfg_max_subscribers_per_session : N;
}.

Definition validate_limit (field : string) (value maximum : N)
    : result EventStreamError () :=
  reject_if ((value =? 0) || (maximum <? value))
    (InvalidConfig field value maximum).

(** [EventStreamConfig::new] *)
Definition EventStreamConfig_new
    (max_replay_events tail_capacity max_subscribers_per_session : N)
    : result EventStreamError EventStreamConfig :=
  check! validate_limit "maxReplayEvents" max_replay_events
    MAX_EVENT_STREAM_REPLAY_EVENTS;
  check! validate_limit "tailCapacity" tail_capacity
    MAX_EVENT_STREAM_TAIL_EVENTS;
  check! validate_limit "maxSubscribersPerSession" max_subscribers_per_session
    MAX_EVENT_STREAM_SUBSCRIBERS_PER_SESSION;
  Ok {| cfg_max_replay_events := max_replay_events;
        cfg_tail_capacity := tail_capacity;
        cfg_max_subscribers_per_session := max_subscribers_per_session |}.

(** [EventStreamConfig::default] *)
Definition EventStreamConfig_default : EventStreamConfig :=
  {| cfg_max_replay_events := MAX_EVENT_STREAM_REPLAY_EVENTS;
     cfg_tail_capacity := MAX_EVENT_STREAM_TAIL_EVENTS;
     cfg_max_subscribers_per_session :=
       MAX_EVENT_STREAM_SUBSCRIBERS_PER_SESSION |}.

(** ** Items and signals *)

Inductive EventStreamTerminal :=
| TermSessionEnded (last_sequence : EventSequence)
| TermSessionDeleted (last_sequence : EventSequence)
| TermTailLagged (last_delivered : option EventSequence) (missed_events : N)
| TermStoreShutdown
| TermSessionMismatch (expected actual : SessionId)
| TermSequenceGap (expected : N) (actual : EventSequence).

Inductive EventStreamItem :=
| ItemEvent (event : TestEvent)
| ItemTerminal (terminal : EventStreamTerminal).

Inductive EventStreamSignal :=
| SigEvent (event : TestEvent)
| SigSessionDeleted (sid : SessionId) (last_sequence : EventSequence)
| SigStoreShutdown.

(** What one poll of [broadcast::Receiver] returns. *)
Inductive TryRecv :=
| TryOk (signal : EventStreamSignal)
| TryLagged (missed_events : N)
| TryClosed
| TryEmpty.

Inductive Recv :=
| RecvOk (signal : EventStreamSignal)
| RecvLagged (missed_events : N)
| RecvClosed.

(** ** The subscription

    A receiver is identified by the number of signals sent before it was
    registered. *)

Definition Receiver : Type := nat.

Record EventSubscription := mkEventSubscription {
  sub_session_id : SessionId;
  sub_snapshot : list TestEvent;
  sub_tail : option Receiver;
  sub_last_delivered : option EventSequence;
  sub_replay_through : EventSequence;
  sub_session_state : SessionState;
  sub_known_ended : option EventSequence;
  sub_done : bool;
}.

(** [EventSubscription::new] *)
Definition EventSubscription_new (session_id : SessionId)
    (snapshot : list TestEvent) (tail : Receiver)
    (after : option EventSequence) (replay_through : EventSequence)
    (session_state : SessionState) : EventSubscription :=
  {| sub_session_id := session_id;
     sub_snapshot := snapshot;
     sub_tail := Some tail;
     sub_last_delivered := after;
     sub_replay_through := replay_through;
     sub_session_state := session_state;
     sub_known_ended :=
       if bool_decide (session_state = Ended) then Some replay_through else None;
     sub_done := false |}.

(** [EventSubscription::finish] *)
Definition finish (s : EventSubscription) (terminal : EventStreamTerminal)
    : EventStreamItem * EventSubscription :=
  (ItemTerminal terminal,
   {| sub_session_id := sub_session_id s;
      sub_snapshot := [];
      sub_tail := None;
      sub_last_delivered := sub_last_delivered s;
      sub_replay_through := sub_replay_through s;
      sub_session_state := sub_session_state s;
      sub_known_ended := sub_known_ended s;
      sub_done := true |}).

Definition is_session_ended (p : TestEventPayload) : bool :=
  match p with SessionEnded _ _ => true | _ => false end.

(** The sequence number [validate_event] expects next. *)
Definition expected_sequence (s : EventSubscription) : N :=
  match sub_last_delivered s with
  | None => EventSequence.get EventSequence.FIRST
  | Some sequence => u64_saturating_add (EventSequence.get sequence) 1
  end.

(** [EventSubscription::validate_event] *)
Definition validate_event (s : EventSubscription) (event : TestEvent)
    : EventStreamItem * EventSubscription :=
  if negb (bool_decide (ev_session_id event = sub_session_id s)) then
    finish s (TermSessionMismatch (sub_session_id s) (ev_session_id event))
  else
    let expected := expected_sequence s in
    if negb (EventSequence.get (ev_sequence event) =? expected) then
      finish s (TermSequenceGap expected (ev_sequence event))
    else
      (ItemEvent event,
       {| sub_session_id := sub_session_id s;
          sub_snapshot := sub_snapshot s;
          sub_tail := sub_tail s;
          sub_last_delivered := Some (ev_sequence event);
          sub_replay_through := sub_replay_through s;
          sub_session_state := sub_session_state s;
          sub_known_ended :=
            if is_session_ended (ev_payload event)
            then Some (ev_sequence event) else sub_known_ended s;
          sub_done := sub_done s |}).

(** [EventSubscription::handle_signal] *)
Definition handle_signal (s : EventSubscription) (signal : EventStreamSignal)
    : EventStreamItem * EventSubscription :=
  match signal with
  | SigEvent event => validate_event s event
  | SigSessionDeleted session_id last_sequence =>
      if negb (bool_decide (session_id = sub_session_id s)) then
        finish s (TermSessionMismatch (sub_session_id s) session_id)
      else finish s (TermSessionDeleted last_sequence)
  | SigStoreShutdown => finish s TermStoreShutdown
  end.

(** One call of [next]: it returns, it is still waiting on the receiver, or
    one of its two [expect]s panics. *)
Inductive NextResult :=
| NextReturns (item : option EventStreamItem)
| NextPending
| NextPanics.

Definition returns (r : EventStreamItem * EventSubscription)
    : NextResult * EventSubscription :=
  (NextReturns (Some (fst r)), snd r).

Definition pop_front (s : EventSubscription) (rest : list TestEvent)
    : EventSubscription :=
  {| sub_session_id := sub_session_id s;
     sub_snapshot := rest;
     sub_tail := sub_tail s;
     sub_last_delivered := sub_last_delivered s;
     sub_replay_through := sub_replay_through s;
     sub_session_state := sub_session_state s;
     sub_known_ended := sub_known_ended s;
     sub_done := sub_done s |}.

(** [EventSubscription::next]. [poll] is what [try_recv] returns, [wait] what
    the following [recv().await] resolves to, [None] while it is pending. *)
Definition next (poll : TryRecv) (wait : option Recv) (s : EventSubscription)
    : NextResult * EventSubscription :=
  if sub_done s then (NextReturns None, s) else
  match sub_snapshot s with
  | event :: rest => returns (validate_event (pop_front s rest) event)
  | [] =>
      match sub_tail s with
      | None => (NextPanics, s)
      | Some _ =>
          match poll with
          | TryOk signal => returns (handle_signal s signal)
          | TryLagged missed_events =>
              returns (finish s
                (TermTailLagged (sub_last_delivered s) missed_events))
          | TryClosed => returns (finish s TermStoreShutdown)
          | TryEmpty =>
              match sub_known_ended s with
              | Some last_sequence =>
                  returns (finish s (TermSessionEnded last_sequence))
              | None =>
                  match wait with
                  | None => (NextPending, s)
                  | Some (RecvOk signal) => returns (handle_signal s signal)
                  | Some (RecvLagged missed_events) =>
                      returns (finish s
                        (TermTailLagged (sub_last_delivered s) missed_events))
                  | Some RecvClosed => returns (finish s TermStoreShutdown)
                  end
              end
          end
      end
  end.

(** A consumer that calls [next] once per entry of a schedule of receiver
    polls, and what it sees. *)
Fixpoint consume (polls : list (TryRecv * option Recv)) (s : EventSubscription)
    : list NextResult * EventSubscription :=
  match polls with
  | [] => ([], s)
  | (poll, wait) :: rest =>
      let '(r, s1) := next poll wait s in
      let '(rs, s2) := consume rest s1 in
      (r :: rs, s2)
  end.

Definition delivered (rs : list NextResult) : list TestEvent :=
  omap (λ r, match r with
             | NextReturns (Some (ItemEvent e)) => Some e
             | _ => None
             end) rs.

Definition is_terminal (r : NextResult) : bool :=
  match r with NextReturns (Some (ItemTerminal _)) => true | _ => false end.

(** ** Continuity

    [continues sid n events]: the events belong to [sid] and are numbered
    [n + 1], [n + 2], ... *)

Fixpoint continues (sid : SessionId) (n : N) (events : list TestEvent) : Prop :=
  match events with
  | [] => True
  | e :: rest =>
      ev_session_id e = sid ∧ ev_sequence e = n + 1 ∧ continues sid (n + 1) rest
  end.

Definition cursor (after : option EventSequence) : N :=
  match after with None => 0 | Some s => s end.

(** A subscription that has not finished keeps its receiver, and its cursor is
    a protocol sequence number. *)
Definition sub_wf (s : EventSubscription) : Prop :=
  (sub_done s = false → is_Some (sub_tail s)) ∧
  cursor (sub_last_delivered s) <= MAX_SAFE_INTEGER.

Definition event_wf (e : TestEvent) : Prop := ev_sequence e <= MAX_SAFE_INTEGER.

Definition signal_wf (sig : EventStreamSignal) : Prop :=
  match sig with SigEvent e => event_wf e | _ => True end.

Definition poll_wf (p : TryRecv * option Recv) : Prop :=
  match fst p with TryOk sig => signal_wf sig | _ => True end ∧
  match snd p with Some (RecvOk sig) => signal_wf sig | _ => True end.

Lemma continues_app sid n l k :
  continues sid n (l ++ k) ↔ continues sid n l ∧ continues sid (n + len l) k.
Proof.
  revert n. induction l as [|e l IH]; intros n; cbn.
  - unfold len. cbn. rewrite N.add_0_r. naive_solver.
  - rewrite IH. replace (n + len (e :: l)) with (n + 1 + len l)
      by (unfold len; cbn; lia). naive_solver.
Qed.

Lemma continues_lookup sid n events i e :
  continues sid n events → events !! i = Some e →
  ev_session_id e = sid ∧ ev_sequence e = n + N.of_nat i + 1.
Proof.
  revert n i. induction events as [|e' l IH]; intros n i; [done|].
  intros (Hs & Hq & Hc) Hi. destruct i as [|i]; cbn in Hi.
  - simplify_eq. rewrite Hq. split; [done|lia].
  - destruct (IH _ _ Hc Hi) as [? ->]. split; [done|lia].
Qed.

Lemma continues_drop sid n events k :
  continues sid n events → (k <= length events)%nat →
  continues sid (n + N.of_nat k) (drop k events).
Proof.
  intros H Hk. rewrite <-(take_drop k events), continues_app in H.
  destruct H as [_ H]. unfold len in H. by rewrite length_take_le in H by done.
Qed.

Lemma expected_sequence_cursor s :
  cursor (sub_last_delivered s) <= MAX_SAFE_INTEGER →
  expected_sequence s = cursor (sub_last_delivered s) + 1.
Proof.
  unfold expected_sequence, cursor, u64_saturating_add, EventSequence.get,
    EventSequence.FIRST, U64_MAX, MAX_SAFE_INTEGER.
  destruct (sub_last_delivered s); lia.
Qed.

(** What one call of [next] may return from [s], and the subscription after
    it: an event continues the cursor, a terminal finishes the subscription,
    nothing follows a terminal. *)
Definition next_post (s : EventSubscription) (r : NextResult)
    (s' : EventSubscription) : Prop :=
  sub_wf s' ∧ Forall event_wf (sub_snapshot s') ∧
  sub_session_id s' = sub_session_id s ∧
  match r with
  | NextReturns (Some (ItemEvent e)) =>
      sub_done s = false ∧ sub_done s' = false ∧
      ev_session_id e = sub_session_id s ∧
      ev_sequence e = cursor (sub_last_delivered s) + 1 ∧
      sub_last_delivered s' = Some (ev_sequence e)
  | NextReturns (Some (ItemTerminal _)) =>
      sub_done s = false ∧ sub_done s' = true
  | NextReturns None => sub_done s = true ∧ s' = s
  | NextPending => sub_done s = false ∧ s' = s
  | NextPanics => False
  end.

Definition unfinished (s : EventSubscription) : Prop :=
  sub_wf s ∧ sub_done s = false ∧ Forall event_wf (sub_snapshot s).

Lemma finish_post s t :
  unfinished s → uncurry (next_post s) (returns (finish s t)).
Proof.
  intros ([Ht Hc] & Hd & Hs). unfold next_post, sub_wf. cbn. naive_solver.
Qed.

Lemma validate_event_post s e :
  unfinished s → event_wf e →
  uncurry (next_post s) (returns (validate_event s e)).
Proof.
  intros Hu He. pose proof Hu as ([Ht Hc] & Hd & Hs). unfold validate_event.
  case_bool_decide; cbn [negb]; [|by apply finish_post].
  rewrite expected_sequence_cursor by done. unfold EventSequence.get.
  destruct (N.eqb_spec (ev_sequence e) (cursor (sub_last_delivered s) + 1));
    cbn [negb]; [|by apply finish_post].
  unfold next_post, sub_wf. cbn. naive_solver.
Qed.

Lemma handle_signal_post s sig :
  unfinished s → signal_wf sig →
  uncurry (next_post s) (returns (handle_signal s sig)).
Proof.
  intros Hu Hsig. destruct sig as [e|sid q|]; cbn [handle_signal].
  - by apply validate_event_post.
  - by case_match; apply finish_post.
  - by apply finish_post.
Qed.

Lemma next_spec poll wait s :
  sub_wf s → Forall event_wf (sub_snapshot s) → poll_wf (poll, wait) →
  uncurry (next_post s) (next poll wait s).
Proof.
  intros Hwf Hsnap [Hp Hw]. cbn in Hp, Hw. unfold next.
  destruct (sub_done s) eqn:Hd; [unfold next_post; cbn; naive_solver|].
  destruct (sub_snapshot s) as [|e rest] eqn:Hs.
  2: { apply Forall_cons in Hsnap as [He Hrest].
       apply (validate_event_post (pop_front s rest) e); [|done].
       by repeat split; try apply Hwf. }
  assert (unfinished s) as Hu by (split_and!; [done..|by rewrite Hs]).
  destruct (proj1 Hwf Hd) as [rx ->].
  destruct poll as [sig|n| |].
  4: destruct (sub_known_ended s); [|destruct wait as [[sig|n|]|]].
  all: first [by apply handle_signal_post | by apply finish_post|idtac].
  unfold next_post. cbn. rewrite Hs. naive_solver.
Qed.

(** Once done, [next] only returns [None]. *)
Lemma consume_done polls s rs s' :
  sub_done s = true → consume polls s = (rs, s') →
  s' = s ∧ delivered rs = [] ∧ Forall (λ r, r = NextReturns None) rs.
Proof.
  intros Hd. revert rs s'. induction polls as [|[p w] polls IH]; intros rs s' H;
    cbn in H; [naive_solver|].
  unfold next in H. rewrite Hd in H.
  destruct (consume polls s) as [rs1 s1]. simplify_eq.
  destruct (IH _ _ eq_refl) as (-> & Hr & Hf). cbn. auto.
Qed.

(** The events one consumer sees continue its cursor without a gap, and at
    most one terminal follows them. *)
Lemma consume_spec polls s rs s' :
  sub_wf s → Forall event_wf (sub_snapshot s) → Forall poll_wf polls →
  consume polls s = (rs, s') →
  continues (sub_session_id s) (cursor (sub_last_delivered s)) (delivered rs) ∧
  (NextPanics ∉ rs) ∧
  (∀ i, is_terminal <$> (rs !! i) = Some true →
    ∀ j r, (i < j)%nat → rs !! j = Some r → r = NextReturns None).
Proof.
  revert s rs. induction polls as [|[p w] polls IH]; intros s rs Hwf Hsn Hp H;
    cbn in H; [simplify_eq; cbn; set_solver|].
  apply Forall_cons in Hp as [Hp1 Hp].
  pose proof (next_spec p w s Hwf Hsn Hp1) as Hpost.
  destruct (next p w s) as [r s1]. cbn in Hpost.
  destruct Hpost as (Hwf1 & Hsn1 & Hsid & Hr).
  destruct (consume polls s1) as [rs1 s2] eqn:Hc. simplify_eq.
  destruct (IH s1 rs1 Hwf1 Hsn1 Hp Hc) as (Hcont & Hnp & Hterm).
  rewrite Hsid in Hcont. split_and!.
  - destruct r as [[[e|t]|]| |]; cbn.
    + destruct Hr as (_ & _ & ? & Hq & Hl). rewrite Hl in Hcont. cbn in Hcont.
      rewrite <-Hq. auto.
    + destruct (consume_done _ _ _ _ (proj2 Hr) Hc) as (_ & Hnil & _).
      unfold delivered in Hnil. by rewrite Hnil.
    + by destruct Hr as [_ ->].
    + by destruct Hr as [_ ->].
    + done.
  - rewrite not_elem_of_cons. split; [|done]. by intros <-.
  - intros [|i] Hi [|j] r' Hij Hj; [lia| |lia|apply (Hterm i Hi j r'); [lia|done]].
    cbn in Hi, Hj. destruct r as [[[e|t]|]| |]; try done.
    destruct (consume_done _ _ _ _ (proj2 Hr) Hc) as (_ & _ & Hall).
    by eapply (Forall_lookup_1 _ _ _ _ Hall).
Qed.
