(* ===== verification/EventStore.v ===== *)
(** * The Session Event Store

    [crates/core/src/event_store.rs] and the commands of
    [crates/core/src/session.rs]: the in-memory reference implementation of
    the append-only Session log. Every method runs under the store's
    [RwLock] or under one Session's [Mutex]; a method is one atomic step on
    the store, and an execution is a sequence of such steps. Random UUIDs are
    arguments of the methods that draw them. *)

From S2P Require Import Prelude Protocol Evidence EventStream.

Local Open Scope N_scope.

(** ** Commands ([session.rs]) *)

Record StartSession := mkStartSession {
  start_session_id : SessionId;
  start_request_id : option RpcId;
  start_device_id : option DeviceId;
  start_at_ms : N;
}.

Record EndSession := mkEndSession {
  end_session_id : SessionId;
  end_request_id : option RpcId;
  end_device_id : option DeviceId;
  end_at_ms : N;
  end_outcome : SessionOutcome;
  end_reason : option string;
}.

Record PendingEvent := mkPendingEvent {
  pe_session_id : SessionId;
  pe_request_id : option RpcId;
  pe_device_id : option DeviceId;
  pe_at_ms : N;
  pe_payload : TestEventPayload;
}.

(** [struct ObservationLease(Uuid)] *)
Definition ObservationLease : Type := N.

(** [methods.rs] *)
Definition MAX_EVENTS_LIST_PAGE_SIZE : N := 1000.

(** ** Errors *)

Inductive EventStoreError :=
| SessionAlreadyExists (sid : SessionId)
| SessionNotFound (sid : SessionId)
| SessionEndedError (sid : SessionId)
| SessionActive (sid : SessionId)
| ActionsInFlight (sid : SessionId) (count : N)
| ObservationsInFlight (sid : SessionId) (count : N)
| InvalidObservationLease (sid : SessionId) (lease_id : Uuid)
| LifecycleEventReserved
| DuplicateActionCall (id : Uuid)
| ActionNotStarted (id : Uuid)
| ActionCorrelationMismatch (id : Uuid)
| ActionResultMismatch (id : Uuid)
| DuplicateMediaStream (id : MediaStreamId)
| InvalidMediaStream
| MediaStreamNotActive (id : MediaStreamId)
| MediaFrameOutOfOrder
| MediaFrameMismatch
| MediaFrameCountMismatch
| MediaStreamsInFlight (sid : SessionId) (count : N)
| SequenceExhausted (sid : SessionId)
| CursorAhead (sid : SessionId) (after last_sequence : EventSequence)
| InvalidPageLimit (limit maximum : N)
| ShuttingDown
| TimestampOutOfRange
| Internal (message : string).

(** [EventStoreError::to_error_info]. [display] is the [Display] text of the
    error and [uuid_text] the hyphenated text of a UUID. *)
Definition to_error_info (display : EventStoreError → string)
    (uuid_text : Uuid → string) (e : EventStoreError) : ErrorInfo :=
  let session sid := ("sessionId"%string, JString (uuid_text sid)) in
  let number key n := (key, JNumber (PosInt n)) in
  let call id := Some (JObject [("callId"%string, JString (uuid_text id))]) in
  let stream id := Some (JObject [("streamId"%string, JString (uuid_text id))]) in
  let '(code, retryable, details) :=
    match e with
    | SessionAlreadyExists sid =>
        ("session_already_exists", false, Some (JObject [session sid]))
    | SessionNotFound sid =>
        ("session_not_found", false, Some (JObject [session sid]))
    | SessionEndedError sid =>
        ("session_ended", false, Some (JObject [session sid]))
    | SessionActive sid =>
        ("session_active", false, Some (JObject [session sid]))
    | ActionsInFlight sid count =>
        ("session_busy", true,
         Some (JObject [number "inFlightActions" count; session sid]))
    | ObservationsInFlight sid count =>
        ("session_busy", true,
         Some (JObject [number "inFlightObservations" count; session sid]))
    | InvalidObservationLease sid lease_id =>
        ("invalid_observation_lease", false,
         Some (JObject [("leaseId", JString (uuid_text lease_id)); session sid]))
    | LifecycleEventReserved => ("invalid_event", false, None)
    | DuplicateActionCall id => ("duplicate_action_call", false, call id)
    | ActionNotStarted id => ("action_not_started", false, call id)
    | ActionCorrelationMismatch id =>
        ("action_correlation_mismatch", false, call id)
    | ActionResultMismatch id => ("action_result_mismatch", false, call id)
    | DuplicateMediaStream id => ("duplicate_media_stream", false, stream id)
    | InvalidMediaStream => ("invalid_media_stream", false, None)
    | MediaStreamNotActive id => ("media_stream_not_active", false, stream id)
    | MediaFrameOutOfOrder => ("media_frame_out_of_order", false, None)
    | MediaFrameMismatch => ("media_frame_mismatch", false, None)
    | MediaFrameCountMismatch => ("media_frame_count_mismatch", false, None)
    | MediaStreamsInFlight sid count =>
        ("session_busy", true,
         Some (JObject [number "inFlightMediaStreams" count; session sid]))
    | SequenceExhausted sid =>
        ("event_sequence_exhausted", false, Some (JObject [session sid]))
    | CursorAhead sid after last_sequence =>
        ("event_cursor_ahead", false,
         Some (JObject [number "afterSequence" after;
                        number "lastSequence" last_sequence; session sid]))
    | InvalidPageLimit limit maximum =>
        ("invalid_page_limit", false,
         Some (JObject [number "limit" limit; number "maximum" maximum]))
    | ShuttingDown => ("event_store_shutting_down", false, None)
    | TimestampOutOfRange => ("timestamp_out_of_range", false, None)
    | Internal _ => ("event_store_error", true, None)
    end%string in
  {| ei_code := code;
     ei_message := display e;
     ei_retryable := retryable;
     ei_details := details |}.

(** ** State *)

Record ActionCorrelation := mkActionCorrelation {
  ac_request_id : option RpcId;
  ac_device_id : option DeviceId;
}.

#[global] Instance ActionCorrelation_eq_dec : EqDecision ActionCorrelation.
Proof. solve_decision. Defined.

Record MediaStreamState := mkMediaStreamState {
  mss_media_type : string;
  mss_next_frame_index : N;
}.

(** [log_stream_tail] is the sequence of signals sent on the Session's
    broadcast channel. *)
Record SessionLog := mkSessionLog {
  log_info : SessionInfo;
  log_events : list TestEvent;
  log_stream_tail : list EventStreamSignal;
  log_seen_calls : gset Uuid;
  log_in_flight : gmap Uuid ActionCorrelation;
  log_in_flight_observations : gset ObservationLease;
  log_seen_media_streams : gset MediaStreamId;
  log_media_streams : gmap MediaStreamId MediaStreamState;
}.

Record ObservationLeaseState := mkObservationLeaseState {
  ls_session_id : SessionId;
  ls_released : bool;
}.

(** [MemoryEventStore] with the [MemoryEventStoreState] behind its lock.
    [st_closed_tails] keeps the signals sent on the channels of deleted
    Sessions, whose receivers may outlive the log. *)
Record MemoryEventStore := mkMemoryEventStore {
  st_sessions : gmap SessionId SessionLog;
  st_used_session_ids : gset SessionId;
  st_observation_leases : gmap ObservationLease ObservationLeaseState;
  st_stream_shutdown : bool;
  st_stream_config : EventStreamConfig;
  st_closed_tails : gmap SessionId (list EventStreamSignal);
}.

(** [MemoryEventStore::with_event_stream_config] *)
Definition with_event_stream_config (config : EventStreamConfig)
    : MemoryEventStore :=
  {| st_sessions := ∅;
     st_used_session_ids := ∅;
     st_observation_leases := ∅;
     st_stream_shutdown := false;
     st_stream_config := config;
     st_closed_tails := ∅ |}.

Definition set_sessions (f : gmap SessionId SessionLog → gmap SessionId SessionLog)
    (st : MemoryEventStore) : MemoryEventStore :=
  {| st_sessions := f (st_sessions st);
     st_used_session_ids := st_used_session_ids st;
     st_observation_leases := st_observation_leases st;
     st_stream_shutdown := st_stream_shutdown st;
     st_stream_config := st_stream_config st;
     st_closed_tails := st_closed_tails st |}.

Definition set_leases
    (f : gmap ObservationLease ObservationLeaseState →
         gmap ObservationLease ObservationLeaseState)
    (st : MemoryEventStore) : MemoryEventStore :=
  {| st_sessions := st_sessions st;
     st_used_session_ids := st_used_session_ids st;
     st_observation_leases := f (st_observation_leases st);
     st_stream_shutdown := st_stream_shutdown st;
     st_stream_config := st_stream_config st;
     st_closed_tails := st_closed_tails st |}.

Definition set_observations (f : gset ObservationLease → gset ObservationLease)
    (log : SessionLog) : SessionLog :=
  {| log_info := log_info log;
     log_events := log_events log;
     log_stream_tail := log_stream_tail log;
     log_seen_calls := log_seen_calls log;
     log_in_flight := log_in_flight log;
     log_in_flight_observations := f (log_in_flight_observations log);
     log_seen_media_streams := log_seen_media_streams log;
     log_media_streams := log_media_streams log |}.

Definition send (signal : EventStreamSignal) (log : SessionLog) : SessionLog :=
  {| log_info := log_info log;
     log_events := log_events log;
     log_stream_tail := log_stream_tail log ++ [signal];
     log_seen_calls := log_seen_calls log;
     log_in_flight := log_in_flight log;
     log_in_flight_observations := log_in_flight_observations log;
     log_seen_media_streams := log_seen_media_streams log;
     log_media_streams := log_media_streams log |}.

(** [state.sessions.get(id).cloned().ok_or_else(SessionNotFound)] *)
Definition get_log (st : MemoryEventStore) (sid : SessionId)
    : result EventStoreError SessionLog :=
  ok_or (st_sessions st !! sid) (SessionNotFound sid).

(** Runs a method body on the locked log of one Session, in place. *)
Definition with_log {A} (sid : SessionId) (body : M SessionLog EventStoreError A)
    : M MemoryEventStore EventStoreError A := λ st,
  match st_sessions st !! sid with
  | None => (Err (SessionNotFound sid), st)
  | Some log =>
      let '(r, log') := body log in (r, set_sessions <[sid := log']> st)
  end.

(** [if self.stream_shutdown.load(..) { return Err(ShuttingDown) }] *)
Definition ensure_running : M MemoryEventStore EventStoreError () := λ st,
  (reject_if (st_stream_shutdown st) ShuttingDown, st).

(** ** Helpers *)

(** [MemoryEventStore::next_sequence] *)
Definition next_sequence (log : SessionLog) : result EventStoreError EventSequence :=
  ok_or (EventSequence.checked_next (si_last_sequence (log_info log)))
    (SequenceExhausted (si_id (log_info log))).

(** [MemoryEventStore::ensure_timestamp] *)
Definition ensure_timestamp (at_ms : N) : result EventStoreError () :=
  if at_ms <=? MAX_SAFE_INTEGER then Ok () else Err TimestampOutOfRange.

(** [MemoryEventStore::exact_media_retry] *)
Definition exact_media_retry (log : SessionLog) (pending : PendingEvent)
    : option TestEvent :=
  List.find (λ event,
    bool_decide (ev_request_id event = pe_request_id pending) &&
    bool_decide (ev_device_id event = pe_device_id pending) &&
    (ev_at_ms event =? pe_at_ms pending) &&
    TestEventPayload_eqb (ev_payload event) (pe_payload pending))
    (rev (log_events log)).

(** [log.events.push] followed by [update_info_after_append] *)
Definition push_event (event : TestEvent) (log : SessionLog) : SessionLog :=
  {| log_info :=
       {| si_id := si_id (log_info log);
          si_state := si_state (log_info log);
          si_started_at_ms := si_started_at_ms (log_info log);
          si_ended_at_ms := si_ended_at_ms (log_info log);
          si_event_count := ev_sequence event;
          si_last_sequence := ev_sequence event |};
     log_events := log_events log ++ [event];
     log_stream_tail := log_stream_tail log;
     log_seen_calls := log_seen_calls log;
     log_in_flight := log_in_flight log;
     log_in_flight_observations := log_in_flight_observations log;
     log_seen_media_streams := log_seen_media_streams log;
     log_media_streams := log_media_streams log |}.

(** [MemoryEventStore::publish_event] *)
Definition publish_event (event : TestEvent) (log : SessionLog) : SessionLog :=
  send (SigEvent event) log.

(** The first of the drawn UUIDs that is not taken; [None] while the loop is
    still drawing. *)
Definition first_fresh (taken : Uuid → bool) (draws : list Uuid) : option Uuid :=
  List.find (λ u, negb (taken u)) draws.

(** ** Starting a Session *)

(** [SessionEventStore::start_session] *)
Definition start_session (event_id : EventId) (command : StartSession)
    : M MemoryEventStore EventStoreError SessionInfo :=
  check! lift (ensure_timestamp (start_at_ms command));
  check! ensure_running;
  st ← get;
  let session_id := start_session_id command in
  fail_if! bool_decide (session_id ∈ st_used_session_ids st)
    with SessionAlreadyExists session_id;
  let info :=
    {| si_id := session_id;
       si_state := Active;
       si_started_at_ms := start_at_ms command;
       si_ended_at_ms := None;
       si_event_count := EventSequence.FIRST;
       si_last_sequence := EventSequence.FIRST |} in
  let event :=
    {| ev_event_id := event_id;
       ev_session_id := session_id;
       ev_sequence := EventSequence.FIRST;
       ev_request_id := start_request_id command;
       ev_device_id := start_device_id command;
       ev_at_ms := start_at_ms command;
       ev_payload := SessionStarted |} in
  check! modify (λ st,
    {| st_sessions :=
         <[session_id :=
           {| log_info := info;
              log_events := [event];
              log_stream_tail := [];
              log_seen_calls := ∅;
              log_in_flight := ∅;
              log_in_flight_observations := ∅;
              log_seen_media_streams := ∅;
              log_media_streams := ∅ |}]> (st_sessions st);
       st_used_session_ids := {[session_id]} ∪ st_used_session_ids st;
       st_observation_leases := st_observation_leases st;
       st_stream_shutdown := st_stream_shutdown st;
       st_stream_config := st_stream_config st;
       st_closed_tails := st_closed_tails st |});
  mret info.

(** ** Observation leases *)

(** [SessionEventStore::reserve_observation]; [Ok None] while every drawn
    lease collided and the loop is still drawing. *)
Definition reserve_observation (draws : list Uuid) (session_id : SessionId)
    : M MemoryEventStore EventStoreError (option ObservationLease) :=
  check! ensure_running;
  st ← get;
  log ← lift (get_log st session_id);
  fail_if! bool_decide (si_state (log_info log) = Ended)
    with SessionEndedError session_id;
  match first_fresh
    (λ lease, bool_decide (is_Some (st_observation_leases st !! lease))) draws with
  | None => mret None
  | Some lease =>
      check! with_log session_id (modify (set_observations (λ s, {[lease]} ∪ s)));
      check! modify (set_leases <[lease :=
        {| ls_session_id := session_id; ls_released := false |}]>);
      mret (Some lease)
  end.

(** [SessionEventStore::release_observation] *)
Definition release_observation (session_id : SessionId) (lease : ObservationLease)
    : M MemoryEventStore EventStoreError () :=
  st ← get;
  lease_state ← lift (ok_or (st_observation_leases st !! lease)
    (InvalidObservationLease session_id lease));
  fail_if! negb (bool_decide (ls_session_id lease_state = session_id))
    with InvalidObservationLease session_id lease;
  if ls_released lease_state then mret () else
  log ← lift (ok_or (st_sessions st !! session_id)
    (Internal "active observation lease has no Session log"));
  fail_if! negb (bool_decide (lease ∈ log_in_flight_observations log))
    with Internal "active observation lease is missing from Session bookkeeping";
  check! with_log session_id (modify (set_observations (λ s, s ∖ {[lease]})));
  st ← get;
  lease_state ← lift (ok_or (st_observation_leases st !! lease)
    (Internal "validated observation lease disappeared while the state lock was held"));
  modify (set_leases <[lease :=
    {| ls_session_id := ls_session_id lease_state; ls_released := true |}]>).

(** ** Appending an event *)

(** [enum EventTransition] *)
Inductive EventTransition :=
| TransNone
| TransActionStarted (id : Uuid) (correlation : ActionCorrelation)
| TransActionCompleted (id : Uuid)
| TransMediaStarted (id : MediaStreamId) (media_type : string)
| TransMediaFrame (id : MediaStreamId)
| TransMediaEnded (id : MediaStreamId).

(** What the validating [match] of [append] decides: an exact retry returns
    the event already stored, anything else goes on with a transition. *)
Inductive AppendDecision :=
| ReturnExisting (existing : TestEvent)
| Proceed (transition : EventTransition).

Definition viewport_invalid (v : Viewport) : bool :=
  (vp_width v =? 0) || (vp_height v =? 0) ||
  negb (f64_is_finite (vp_scale_factor v)) || f64_le_zero (vp_scale_factor v).

(** The [MediaStreamStarted], [MediaFrameCaptured] and [MediaStreamEnded]
    arms of the [match] on the pending payload. *)
Definition decide_media_started (log : SessionLog) (pending : PendingEvent)
    (stream : MediaStreamInfo) : result EventStoreError AppendDecision :=
  if bool_decide (ms_id stream ∈ log_seen_media_streams log) then
    let untouched :=
      match log_media_streams log !! ms_id stream with
      | Some active => mss_next_frame_index active =? 1
      | None => false
      end in
    match (if untouched then exact_media_retry log pending else None) with
    | Some existing => Ok (ReturnExisting existing)
    | None => Err (DuplicateMediaStream (ms_id stream))
    end
  else if is_err (validate_media_type (ms_media_type stream)) ||
          match ms_viewport stream with
          | Some viewport => viewport_invalid viewport
          | None => false
          end
  then Err InvalidMediaStream
  else Ok (Proceed (TransMediaStarted (ms_id stream) (ms_media_type stream))).

Definition decide_media_frame (log : SessionLog) (pending : PendingEvent)
    (frame : MediaFrame) : result EventStoreError AppendDecision :=
  match log_media_streams log !! mf_stream_id frame with
  | None =>
      match exact_media_retry log pending with
      | Some existing => Ok (ReturnExisting existing)
      | None => Err (MediaStreamNotActive (mf_stream_id frame))
      end
  | Some stream =>
      let index := EventSequence.get (mf_frame_index frame) in
      if negb (index =? mss_next_frame_index stream) then
        match (if index <? mss_next_frame_index stream
               then exact_media_retry log pending else None) with
        | Some existing => Ok (ReturnExisting existing)
        | None => Err MediaFrameOutOfOrder
        end
      else if
        negb (String.eqb (ar_media_type (mf_evidence frame)) (mss_media_type stream)) ||
        is_err (from_asset_ref (mf_evidence frame)) ||
        match mf_duration_ms frame with
        | Some value => MAX_SAFE_INTEGER <? value
        | None => false
        end
      then Err MediaFrameMismatch
      else Ok (Proceed (TransMediaFrame (mf_stream_id frame)))
  end.

Definition decide_media_ended (log : SessionLog) (pending : PendingEvent)
    (stream_id : MediaStreamId) (frame_count : N)
    : result EventStoreError AppendDecision :=
  match log_media_streams log !! stream_id with
  | None =>
      match exact_media_retry log pending with
      | Some existing => Ok (ReturnExisting existing)
      | None => Err (MediaStreamNotActive stream_id)
      end
  | Some stream =>
      if negb (frame_count =? mss_next_frame_index stream - 1)
      then Err MediaFrameCountMismatch
      else Ok (Proceed (TransMediaEnded stream_id))
  end.

(** The [ActionCompleted] arm. *)
Definition decide_action_completed (log : SessionLog) (pending : PendingEvent)
    (id : Uuid) (outcome : ActionOutcome) : result EventStoreError AppendDecision :=
  correlation ← ok_or (log_in_flight log !! id) (ActionNotStarted id);
  check! reject_if
    (negb (bool_decide (ac_request_id correlation = pe_request_id pending)) ||
     negb (bool_decide (ac_device_id correlation = pe_device_id pending)))
    (ActionCorrelationMismatch id);
  check! reject_if
    (match outcome with
     | Succeeded r => negb (bool_decide (res_call_id r = id))
     | _ => false
     end)
    (ActionResultMismatch id);
  Ok (Proceed (TransActionCompleted id)).

(** The [match &pending.payload] that validates an event against the log. *)
Definition decide_append (log : SessionLog) (pending : PendingEvent)
    : result EventStoreError AppendDecision :=
  match pe_payload pending with
  | ActionStarted call =>
      if bool_decide (rc_id call ∈ log_seen_calls log)
      then Err (DuplicateActionCall (rc_id call))
      else Ok (Proceed (TransActionStarted (rc_id call)
        {| ac_request_id := pe_request_id pending;
           ac_device_id := pe_device_id pending |}))
  | ActionCompleted id outcome => decide_action_completed log pending id outcome
  | MediaStreamStarted stream => decide_media_started log pending stream
  | MediaFrameCaptured frame => decide_media_frame log pending frame
  | MediaStreamEnded stream_id frame_count =>
      decide_media_ended log pending stream_id frame_count
  | _ => Ok (Proceed TransNone)
  end.

Definition set_actions (seen : gset Uuid) (in_flight : gmap Uuid ActionCorrelation)
    (log : SessionLog) : SessionLog :=
  {| log_info := log_info log;
     log_events := log_events log;
     log_stream_tail := log_stream_tail log;
     log_seen_calls := seen;
     log_in_flight := in_flight;
     log_in_flight_observations := log_in_flight_observations log;
     log_seen_media_streams := log_seen_media_streams log;
     log_media_streams := log_media_streams log |}.

Definition set_media (seen : gset MediaStreamId)
    (streams : gmap MediaStreamId MediaStreamState) (log : SessionLog)
    : SessionLog :=
  {| log_info := log_info log;
     log_events := log_events log;
     log_stream_tail := log_stream_tail log;
     log_seen_calls := log_seen_calls log;
     log_in_flight := log_in_flight log;
     log_in_flight_observations := log_in_flight_observations log;
     log_seen_media_streams := seen;
     log_media_streams := streams |}.

(** The [match transition] that updates the bookkeeping. The stream of a
    [TransMediaFrame] is active, see [decide_append_media_frame_active]. *)
Definition apply_transition (t : EventTransition) (log : SessionLog) : SessionLog :=
  match t with
  | TransNone => log
  | TransActionStarted id correlation =>
      set_actions ({[id]} ∪ log_seen_calls log)
        (<[id := correlation]> (log_in_flight log)) log
  | TransActionCompleted id =>
      set_actions (log_seen_calls log) (delete id (log_in_flight log)) log
  | TransMediaStarted id media_type =>
      set_media ({[id]} ∪ log_seen_media_streams log)
        (<[id := {| mss_media_type := media_type; mss_next_frame_index := 1 |}]>
           (log_media_streams log)) log
  | TransMediaFrame id =>
      set_media (log_seen_media_streams log)
        (alter (λ s, {| mss_media_type := mss_media_type s;
                        mss_next_frame_index := mss_next_frame_index s + 1 |})
           id (log_media_streams log)) log
  | TransMediaEnded id =>
      set_media (log_seen_media_streams log)
        (delete id (log_media_streams log)) log
  end.

Definition is_lifecycle (p : TestEventPayload) : bool :=
  match p with SessionStarted | SessionEnded _ _ => true | _ => false end.

(** The part of [append] that runs under the Session's lock. *)
Definition append_locked (event_id : EventId) (pending : PendingEvent)
    : M SessionLog EventStoreError TestEvent :=
  log ← get;
  fail_if! bool_decide (si_state (log_info log) = Ended)
    with SessionEndedError (pe_session_id pending);
  sequence ← lift (next_sequence log);
  decision ← lift (decide_append log pending);
  match decision with
  | ReturnExisting existing => mret existing
  | Proceed transition =>
      let event :=
        {| ev_event_id := event_id;
           ev_session_id := pe_session_id pending;
           ev_sequence := sequence;
           ev_request_id := pe_request_id pending;
           ev_device_id := pe_device_id pending;
           ev_at_ms := pe_at_ms pending;
           ev_payload := pe_payload pending |} in
      check! modify (push_event event);
      check! modify (apply_transition transition);
      check! modify (publish_event event);
      mret event
  end.

(** [SessionEventStore::append] *)
Definition append (event_id : EventId) (pending : PendingEvent)
    : M MemoryEventStore EventStoreError TestEvent :=
  check! lift (ensure_timestamp (pe_at_ms pending));
  fail_if! is_lifecycle (pe_payload pending) with LifecycleEventReserved;
  check! ensure_running;
  st ← get;
  _ ← lift (get_log st (pe_session_id pending));
  check! ensure_running;
  with_log (pe_session_id pending) (append_locked event_id pending).

(** ** Ending and deleting a Session *)

Definition set_ended (at_ms : N) (log : SessionLog) : SessionLog :=
  {| log_info :=
       {| si_id := si_id (log_info log);
          si_state := Ended;
          si_started_at_ms := si_started_at_ms (log_info log);
          si_ended_at_ms := Some at_ms;
          si_event_count := si_event_count (log_info log);
          si_last_sequence := si_last_sequence (log_info log) |};
     log_events := log_events log;
     log_stream_tail := log_stream_tail log;
     log_seen_calls := log_seen_calls log;
     log_in_flight := log_in_flight log;
     log_in_flight_observations := log_in_flight_observations log;
     log_seen_media_streams := log_seen_media_streams log;
     log_media_streams := log_media_streams log |}.

(** The part of [end_session] that runs under the Session's lock. *)
Definition end_locked (event_id : EventId) (command : EndSession)
    : M SessionLog EventStoreError SessionInfo :=
  log ← get;
  let session_id := end_session_id command in
  fail_if! bool_decide (si_state (log_info log) = Ended)
    with SessionEndedError session_id;
  fail_if! negb (bool_decide (log_in_flight_observations log = ∅))
    with ObservationsInFlight session_id
      (N.of_nat (size (log_in_flight_observations log)));
  fail_if! negb (bool_decide (log_in_flight log = ∅))
    with ActionsInFlight session_id (N.of_nat (size (log_in_flight log)));
  fail_if! negb (bool_decide (size (log_media_streams log) = 0%nat))
    with MediaStreamsInFlight session_id
      (N.of_nat (size (log_media_streams log)));
  sequence ← lift (next_sequence log);
  let event :=
    {| ev_event_id := event_id;
       ev_session_id := session_id;
       ev_sequence := sequence;
       ev_request_id := end_request_id command;
       ev_device_id := end_device_id command;
       ev_at_ms := end_at_ms command;
       ev_payload := SessionEnded (end_outcome command) (end_reason command) |} in
  check! modify (λ log, push_event event (set_ended (end_at_ms command) log));
  check! modify (publish_event event);
  gets log_info.

(** [SessionEventStore::end_session] *)
Definition end_session (event_id : EventId) (command : EndSession)
    : M MemoryEventStore EventStoreError SessionInfo :=
  check! lift (ensure_timestamp (end_at_ms command));
  check! ensure_running;
  st ← get;
  _ ← lift (get_log st (end_session_id command));
  check! ensure_running;
  with_log (end_session_id command) (end_locked event_id command).

(** [SessionEventStore::delete_ended] *)
Definition delete_ended (session_id : SessionId)
    : M MemoryEventStore EventStoreError () :=
  st ← get;
  log ← lift (get_log st session_id);
  fail_if! bool_decide (si_state (log_info log) = Active)
    with SessionActive session_id;
  let log := send (SigSessionDeleted session_id
    (si_last_sequence (log_info log))) log in
  modify (λ st,
    {| st_sessions := delete session_id (st_sessions st);
       st_used_session_ids := st_used_session_ids st;
       st_observation_leases :=
         filter (λ p, ls_session_id (snd p) ≠ session_id)
           (st_observation_leases st);
       st_stream_shutdown := st_stream_shutdown st;
       st_stream_config := st_stream_config st;
       st_closed_tails :=
         <[session_id := log_stream_tail log]> (st_closed_tails st) |}).

(** [MemoryEventStore::begin_stream_shutdown], as one step: it sets the flag,
    and then signals the Sessions one by one. An operation that loaded the flag
    before and runs meanwhile comes before this step, see [subscribe_after] for
    the exception. *)
Definition begin_stream_shutdown
    : M MemoryEventStore EventStoreError bool :=
  st ← get;
  if st_stream_shutdown st then mret false else
  check! modify (λ st,
    {| st_sessions := send SigStoreShutdown <$> st_sessions st;
       st_used_session_ids := st_used_session_ids st;
       st_observation_leases := st_observation_leases st;
       st_stream_shutdown := true;
       st_stream_config := st_stream_config st;
       st_closed_tails := st_closed_tails st |});
  mret true.

(** ** Reading a Session *)

(** [skip(usize::try_from(after.map_or(0, get)).unwrap_or(usize::MAX))] *)
Definition skip_count (after : option EventSequence) : N :=
  default USIZE_MAX (usize_try_from
    (match after with None => 0 | Some s => EventSequence.get s end)).

(** [SessionEventStore::list_after] *)
Definition list_after (st : MemoryEventStore) (session_id : SessionId)
    (after : option EventSequence) : result EventStoreError (list TestEvent) :=
  log ← get_log st session_id;
  Ok (drop (N.to_nat (skip_count after)) (log_events log)).

(** [SessionEventStore::list_page] *)
Definition list_page (st : MemoryEventStore) (session_id : SessionId)
    (after : option EventSequence) (limit : N)
    : result EventStoreError (list TestEvent) :=
  log ← get_log st session_id;
  Ok (take (N.to_nat limit)
        (drop (N.to_nat (skip_count after)) (log_events log))).

(** [SessionEventStore::list_sessions], in the order of the [BTreeMap]. *)
Definition list_sessions (st : MemoryEventStore) : list SessionInfo :=
  omap (λ sid, log_info <$> st_sessions st !! sid)
    (merge_sort N.le (elements (dom (st_sessions st)))).

(** [SessionEventStore::export_session] *)
Definition export_session (st : MemoryEventStore) (session_id : SessionId)
    : result EventStoreError SessionExport :=
  log ← get_log st session_id;
  Ok {| se_session := log_info log; se_events := log_events log |}.

(** The observations [observation_by_id] considers in one event, in order. *)
Definition event_observations (p : TestEventPayload) : list Observation :=
  match p with
  | ObservationCaptured observation => [observation]
  | ActionCompleted _ (Succeeded r) =>
      option_list (res_before r) ++ option_list (res_after r)
  | _ => []
  end.

(** The references [first_unreachable_asset_reference] removes for one event. *)
Definition event_asset_refs (p : TestEventPayload) : list AssetRef :=
  match p with
  | ObservationCaptured observation => observation_asset_refs observation
  | ActionCompleted _ (Succeeded r) => result_asset_refs r
  | MediaFrameCaptured frame => [mf_evidence frame]
  | VerdictRecorded verdict => vd_evidence verdict
  | _ => []
  end.

(** The scan of [first_unreachable_asset_reference], which stops at the first
    event after which nothing is missing. *)
Fixpoint remove_reachable (events : list TestEvent) (missing : gset AssetRef)
    : option (gset AssetRef) :=
  match events with
  | [] => Some missing
  | event :: rest =>
      let missing := missing ∖ list_to_set (event_asset_refs (ev_payload event)) in
      if bool_decide (missing = ∅) then None else remove_reachable rest missing
  end.

(** [MemoryEventStore::first_unreachable_asset_reference] *)
Definition first_unreachable_asset_reference (st : MemoryEventStore)
    (session_id : SessionId) (assets : list AssetRef)
    : result EventStoreError (option AssetRef) :=
  log ← get_log st session_id;
  match remove_reachable (log_events log) (list_to_set assets) with
  | None => Ok None
  | Some missing =>
      Ok (List.find (λ asset, bool_decide (asset ∈ missing)) assets)
  end.

Section Formatted.

(** [Display] of a [SessionId], used by the messages of internal errors. *)
Context (uuid_text : Uuid → string).

Definition session_message (session_id : SessionId) (text : string) : string :=
  ("session " ++ uuid_text session_id ++ text)%string.

(** The [consider] closure folded over a list of observations. *)
Fixpoint consider_all (session_id : SessionId) (observation_id : Uuid)
    (l : list Observation) (matched : option Observation)
    : result EventStoreError (option Observation) :=
  match l with
  | [] => Ok matched
  | observation :: rest =>
      if negb (bool_decide (obs_id observation = observation_id))
      then consider_all session_id observation_id rest matched
      else match matched with
           | Some _ => Err (Internal (session_message session_id
               " contains a duplicate observation id"))
           | None =>
               consider_all session_id observation_id rest (Some observation)
           end
  end.

(** [MemoryEventStore::observation_by_id] *)
Definition observation_by_id (st : MemoryEventStore) (session_id : SessionId)
    (observation_id : Uuid) : result EventStoreError (option Observation) :=
  log ← get_log st session_id;
  consider_all session_id observation_id
    (log_events log ≫= (λ e, event_observations (ev_payload e))) None.

(** [export_page_range] *)
Definition export_page_range (session : SessionInfo) (event_count : N)
    (after : option EventSequence) (limit : N)
    : result EventStoreError (N * N) :=
  let maximum := MAX_EVENTS_LIST_PAGE_SIZE in
  check! reject_if (negb ((1 <=? limit) && (limit <=? maximum)))
    (InvalidPageLimit limit maximum);
  check! reject_if (negb (bool_decide (si_state session = Ended)))
    (SessionActive (si_id session));
  check! match after with
    | Some after =>
        reject_if (si_last_sequence session <? after)
          (CursorAhead (si_id session) after (si_last_sequence session))
    | None => Ok ()
    end;
  declared_count ← ok_or (usize_try_from (EventSequence.get (si_event_count session)))
    (Internal (session_message (si_id session)
      " event count does not fit this platform"));
  check! reject_if
    (negb (declared_count =? event_count) ||
     negb (si_event_count session =? si_last_sequence session))
    (Internal (session_message (si_id session)
      " metadata does not match its append-only log"));
  start ← match after with
    | None => Ok 0
    | Some sequence =>
        ok_or (usize_try_from (EventSequence.get sequence))
          (Internal (session_message (si_id session)
            " export cursor does not fit this platform"))
    end;
  Ok (start, N.min (usize_saturating_add start limit) event_count).

(** [struct SessionExportPageSnapshot] *)
Record SessionExportPageSnapshot := mkSessionExportPageSnapshot {
  page_session : SessionInfo;
  page_events : list TestEvent;
}.

(** [log.events[start..end]]; [None] when the slice panics. *)
Definition slice {A} (l : list A) (range : N * N) : option (list A) :=
  let '(start, stop) := range in
  if (start <=? stop) && (stop <=? len l)
  then Some (take (N.to_nat (stop - start)) (drop (N.to_nat start) l))
  else None.

(** [SessionEventStore::export_session_page]; [Ok None] where the indexing of
    the log panics. *)
Definition export_session_page (st : MemoryEventStore) (session_id : SessionId)
    (after : option EventSequence) (limit : N)
    : result EventStoreError (option SessionExportPageSnapshot) :=
  log ← get_log st session_id;
  range ← export_page_range (log_info log) (len (log_events log)) after limit;
  Ok (mkSessionExportPageSnapshot (log_info log) <$> slice (log_events log) range).

(** [MemoryEventStore::subscribe_after]. [receiver_count] is what the channel
    reports and [reserve_error] the failure of [VecDeque::try_reserve], if
    it fails. The new receiver sees the signals sent from now on. The flag of
    the shutdown is loaded before the lock of the Session is taken; that a
    shutdown signals the Session between the two is not modelled. Callers end
    the active Session before they shut the store down, so that such a
    subscription, which misses the signal, ends with its Session. *)
Definition subscribe_after (receiver_count : N) (reserve_error : option string)
    (st : MemoryEventStore) (session_id : SessionId)
    (after : option EventSequence)
    : result EventStreamError EventSubscription :=
  let config := st_stream_config st in
  check! reject_if (st_stream_shutdown st) StreamStoreShutdown;
  log ← ok_or (st_sessions st !! session_id)
    (if bool_decide (session_id ∈ st_used_session_ids st)
     then StreamSessionDeleted session_id
     else StreamSessionNotFound session_id);
  let info := log_info log in
  check! match after with
    | Some after =>
        reject_if (si_last_sequence info <? after)
          (StreamCursorAhead session_id after (si_last_sequence info))
    | None => Ok ()
    end;
  event_count ← ok_or (usize_try_from (EventSequence.get (si_last_sequence info)))
    (StreamInternal (session_message session_id
      " event count does not fit this platform"));
  check! reject_if (negb (event_count =? len (log_events log)))
    (StreamInternal (session_message session_id
      " event count does not match its append-only log"));
  let has_terminal_event :=
    match last (log_events log) with
    | Some event => is_session_ended (ev_payload event)
    | None => false
    end in
  check! reject_if
    (negb (Bool.eqb has_terminal_event (bool_decide (si_state info = Ended))))
    (StreamInternal (session_message session_id
      " state does not match its terminal event"));
  start ← match after with
    | None => Ok 0
    | Some sequence =>
        ok_or (usize_try_from (EventSequence.get sequence))
          (StreamInternal (session_message session_id
            " cursor does not fit this platform"))
    end;
  requested ← ok_or
    (if start <=? len (log_events log) then Some (len (log_events log) - start)
     else None)
    (StreamInternal (session_message session_id
      " cursor is inconsistent with its log"));
  check! reject_if (cfg_max_replay_events config <? requested)
    (ReplayLimitExceeded session_id requested (cfg_max_replay_events config));
  check! reject_if (cfg_max_subscribers_per_session config <=? receiver_count)
    (TooManySubscribers session_id (cfg_max_subscribers_per_session config));
  check! match reserve_error with
    | Some error => Err (StreamInternal
        ("failed to reserve event replay snapshot: " ++ error)%string)
    | None => Ok ()
    end;
  Ok (EventSubscription_new session_id
    (drop (N.to_nat start) (log_events log))
    (length (log_stream_tail log)) after
    (si_last_sequence info) (si_state info)).

End Formatted.
