(* ===== verification/EventLog.v ===== *)
(** * What an append-only Session log promises

    The declarative specification of the logs the Event Store of
    [crates/core/src/event_store.rs] keeps: contiguous numbering, one start
    and at most one end, and an action and media state machine that is a fold
    over the events. [EventStoreInv] shows that the store's incremental
    bookkeeping implements it. *)

From S2P Require Import Prelude Protocol Evidence EventStream EventStore.

Local Open Scope N_scope.

(** ** Tracking: the state machine as a fold over the log *)

Record Tracking := mkTracking {
  tr_seen_calls : gset Uuid;
  tr_in_flight : gmap Uuid ActionCorrelation;
  tr_seen_media : gset MediaStreamId;
  tr_media : gmap MediaStreamId MediaStreamState;
}.

Definition tracking0 : Tracking := mkTracking ∅ ∅ ∅ ∅.

Definition correlation (e : TestEvent) : ActionCorrelation :=
  {| ac_request_id := ev_request_id e; ac_device_id := ev_device_id e |}.

Definition next_frame (s : MediaStreamState) : MediaStreamState :=
  {| mss_media_type := mss_media_type s;
     mss_next_frame_index := mss_next_frame_index s + 1 |}.

Definition track (t : Tracking) (e : TestEvent) : Tracking :=
  match ev_payload e with
  | ActionStarted call =>
      mkTracking ({[rc_id call]} ∪ tr_seen_calls t)
        (<[rc_id call := correlation e]> (tr_in_flight t))
        (tr_seen_media t) (tr_media t)
  | ActionCompleted id _ =>
      mkTracking (tr_seen_calls t) (delete id (tr_in_flight t))
        (tr_seen_media t) (tr_media t)
  | MediaStreamStarted s =>
      mkTracking (tr_seen_calls t) (tr_in_flight t)
        ({[ms_id s]} ∪ tr_seen_media t)
        (<[ms_id s := mkMediaStreamState (ms_media_type s) 1]> (tr_media t))
  | MediaFrameCaptured f =>
      mkTracking (tr_seen_calls t) (tr_in_flight t) (tr_seen_media t)
        (alter next_frame (mf_stream_id f) (tr_media t))
  | MediaStreamEnded id _ =>
      mkTracking (tr_seen_calls t) (tr_in_flight t) (tr_seen_media t)
        (delete id (tr_media t))
  | _ => t
  end.

Definition replay (events : list TestEvent) : Tracking :=
  foldl track tracking0 events.

(** The frame [f] may follow on the stream [s]. *)
Definition frame_fits (s : MediaStreamState) (f : MediaFrame) : Prop :=
  mf_frame_index f = mss_next_frame_index s ∧
  ar_media_type (mf_evidence f) = mss_media_type s ∧
  is_ok (from_asset_ref (mf_evidence f)) = true ∧
  from_option (λ d, d <= MAX_SAFE_INTEGER) True (mf_duration_ms f).

Definition stream_fits (s : MediaStreamInfo) : Prop :=
  is_ok (validate_media_type (ms_media_type s)) = true ∧
  from_option (λ v, viewport_invalid v = false) True (ms_viewport s).

(** The event may follow a log whose events track to [t]. *)
Definition permitted (t : Tracking) (e : TestEvent) : Prop :=
  match ev_payload e with
  | ActionStarted call => rc_id call ∉ tr_seen_calls t
  | ActionCompleted id outcome =>
      tr_in_flight t !! id = Some (correlation e) ∧
      match outcome with Succeeded r => res_call_id r = id | _ => True end
  | MediaStreamStarted s => (ms_id s ∉ tr_seen_media t) ∧ stream_fits s
  | MediaFrameCaptured f =>
      ∃ s, tr_media t !! mf_stream_id f = Some s ∧ frame_fits s f
  | MediaStreamEnded id n =>
      ∃ s, tr_media t !! id = Some s ∧ n + 1 = mss_next_frame_index s
  | _ => True
  end.

(** The part of [permitted] that concerns the order of events only. *)
Definition core_permitted (t : Tracking) (e : TestEvent) : Prop :=
  match ev_payload e with
  | ActionStarted call => rc_id call ∉ tr_seen_calls t
  | ActionCompleted id outcome =>
      tr_in_flight t !! id = Some (correlation e) ∧
      match outcome with Succeeded r => res_call_id r = id | _ => True end
  | MediaStreamStarted s => ms_id s ∉ tr_seen_media t
  | MediaFrameCaptured f =>
      ∃ s, tr_media t !! mf_stream_id f = Some s ∧
        mf_frame_index f = mss_next_frame_index s ∧
        ar_media_type (mf_evidence f) = mss_media_type s
  | MediaStreamEnded id n =>
      ∃ s, tr_media t !! id = Some s ∧ n + 1 = mss_next_frame_index s
  | _ => True
  end.

(** Every event satisfies [P] after the events before it. *)
Definition follows (P : Tracking → TestEvent → Prop) (events : list TestEvent) : Prop :=
  ∀ i e, events !! i = Some e → P (replay (take i events)) e.

Definition legal : list TestEvent → Prop := follows permitted.
Definition core_legal : list TestEvent → Prop := follows core_permitted.

(** One [SessionStarted] first, one [SessionEnded] last iff ended. *)
Definition lifecycle (state : SessionState) (events : list TestEvent) : Prop :=
  ∃ first body, ev_payload first = SessionStarted ∧
    Forall (λ e, is_lifecycle (ev_payload e) = false) body ∧
    match state with
    | Active => events = first :: body
    | Ended => ∃ e, is_session_ended (ev_payload e) = true ∧
                    events = first :: body ++ [e]
    end.

(** ** Histories of one action call and of one media stream *)

Definition starts (id : Uuid) (events : list TestEvent) : list TestEvent :=
  List.filter (λ e, match ev_payload e with
                    | ActionStarted call => bool_decide (rc_id call = id)
                    | _ => false
                    end) events.

Definition completions (id : Uuid) (events : list TestEvent) : list TestEvent :=
  List.filter (λ e, match ev_payload e with
                    | ActionCompleted i _ => bool_decide (i = id)
                    | _ => false
                    end) events.

Definition frames (id : MediaStreamId) (events : list TestEvent) : list MediaFrame :=
  omap (λ e, match ev_payload e with
             | MediaFrameCaptured f =>
                 if bool_decide (mf_stream_id f = id) then Some f else None
             | _ => None
             end) events.

Definition stream_starts (id : MediaStreamId) (events : list TestEvent)
    : list MediaStreamInfo :=
  omap (λ e, match ev_payload e with
             | MediaStreamStarted s =>
                 if bool_decide (ms_id s = id) then Some s else None
             | _ => None
             end) events.

Definition stream_ends (id : MediaStreamId) (events : list TestEvent) : list N :=
  omap (λ e, match ev_payload e with
             | MediaStreamEnded i n =>
                 if bool_decide (i = id) then Some n else None
             | _ => None
             end) events.

(** [1; 2; ...; n] *)
Definition indices (n : nat) : list N := (λ i, N.of_nat i + 1) <$> seq 0 n.

(** What a log says of one call: never started, running, or completed once
    with the correlation of its start. *)
Definition call_history (id : Uuid) (events : list TestEvent) : Prop :=
  let t := replay events in
  ((id ∉ tr_seen_calls t) ∧ tr_in_flight t !! id = None ∧
   starts id events = [] ∧ completions id events = []) ∨
  (id ∈ tr_seen_calls t ∧ ∃ s, starts id events = [s] ∧
   tr_in_flight t !! id = Some (correlation s) ∧ completions id events = []) ∨
  (id ∈ tr_seen_calls t ∧ tr_in_flight t !! id = None ∧
   ∃ s c pre mid post, starts id events = [s] ∧ completions id events = [c] ∧
     correlation s = correlation c ∧ events = pre ++ s :: mid ++ c :: post).

(** What a log says of one stream: never opened, open with frames [1..n], or
    closed with the number of its frames. *)
Definition stream_history (id : MediaStreamId) (events : list TestEvent) : Prop :=
  let t := replay events in
  mf_frame_index <$> frames id events = indices (length (frames id events)) ∧
  (((id ∉ tr_seen_media t) ∧ tr_media t !! id = None ∧
    stream_starts id events = [] ∧ frames id events = [] ∧
    stream_ends id events = []) ∨
   (id ∈ tr_seen_media t ∧ ∃ info, stream_starts id events = [info] ∧
    Forall (λ f, ar_media_type (mf_evidence f) = ms_media_type info)
      (frames id events) ∧
    ((stream_ends id events = [] ∧
      tr_media t !! id =
        Some (mkMediaStreamState (ms_media_type info) (len (frames id events) + 1))) ∨
     (stream_ends id events = [len (frames id events)] ∧
      tr_media t !! id = None)))).

(** ** Lemmas *)

Lemma replay_snoc l e : replay (l ++ [e]) = track (replay l) e.
Proof. unfold replay. by rewrite foldl_app. Qed.

Lemma follows_nil P : follows P [].
Proof. intros i e H. by rewrite lookup_nil in H. Qed.

Lemma follows_snoc P l e : follows P (l ++ [e]) ↔ follows P l ∧ P (replay l) e.
Proof.
  split.
  - intros H. split.
    + intros i x Hi. specialize (H i x). rewrite take_app_le in H
        by (apply lookup_lt_Some in Hi; lia).
      apply H, lookup_app_l_Some, Hi.
    + specialize (H (length l) e). rewrite take_app_length in H. apply H.
      by rewrite list_lookup_middle.
  - intros [Hl He] i x [Hi|[-> ->]]%lookup_snoc_inv.
    + rewrite take_app_le by (apply lookup_lt_Some in Hi; lia). by apply Hl.
    + by rewrite take_app_length.
Qed.

Lemma legal_snoc l e : legal (l ++ [e]) ↔ legal l ∧ permitted (replay l) e.
Proof. apply follows_snoc. Qed.

Lemma permitted_core t e : permitted t e → core_permitted t e.
Proof.
  unfold permitted, core_permitted, frame_fits. destruct (ev_payload e); naive_solver.
Qed.

Lemma legal_core l : legal l → core_legal l.
Proof. intros H i e Hi. by apply permitted_core, H. Qed.

(** Induction on a log along its last event. *)
Lemma core_legal_ind (P : list TestEvent → Prop) :
  P [] →
  (∀ l e, core_legal l → core_permitted (replay l) e → P l → P (l ++ [e])) →
  ∀ l, core_legal l → P l.
Proof.
  intros H0 HS l. induction l as [|e l IH] using rev_ind; [done|].
  intros [Hl He]%follows_snoc. auto.
Qed.

Lemma starts_snoc id l e : starts id (l ++ [e]) = starts id l ++ starts id [e].
Proof. apply List.filter_app. Qed.

Lemma completions_snoc id l e :
  completions id (l ++ [e]) = completions id l ++ completions id [e].
Proof. apply List.filter_app. Qed.

Lemma starts_in id l s : starts id l = [s] → s ∈ l.
Proof.
  intros H. assert (In s (starts id l)) as Hs by (rewrite H; by left).
  apply List.filter_In in Hs as [Hs _]. by apply list_elem_of_In.
Qed.

(** An event that does not concern a call leaves its history as it is. *)
Lemma call_history_other id l e :
  starts id [e] = [] → completions id [e] = [] →
  (id ∈ tr_seen_calls (track (replay l) e) ↔ id ∈ tr_seen_calls (replay l)) →
  tr_in_flight (track (replay l) e) !! id = tr_in_flight (replay l) !! id →
  call_history id l → call_history id (l ++ [e]).
Proof.
  unfold call_history. rewrite replay_snoc, starts_snoc, completions_snoc.
  intros -> -> Hseen Hin. rewrite !app_nil_r, Hin, Hseen.
  intros [H|[H|(? & ? & s & c & pre & mid & post & ? & ? & ? & ->)]];
    [by left|by right; left|right; right].
  split; [done|]. split; [done|]. exists s, c, pre, mid, (post ++ [e]).
  split_and!; [done..|]. by rewrite <-app_assoc; cbn; rewrite <-app_assoc.
Qed.

Lemma call_history_start id l e call :
  ev_payload e = ActionStarted call → rc_id call = id →
  id ∉ tr_seen_calls (replay l) →
  call_history id l → call_history id (l ++ [e]).
Proof.
  unfold call_history. rewrite replay_snoc, starts_snoc, completions_snoc.
  intros Hp <- Hfresh H.
  assert (starts (rc_id call) [e] = [e] ∧ completions (rc_id call) [e] = [])
    as [-> ->] by (unfold starts, completions; cbn; by rewrite Hp, bool_decide_refl).
  unfold track. rewrite Hp. cbn.
  destruct H as [(? & ? & Hs & Hc)|[[? _]|[? _]]]; [|done..].
  right; left. rewrite Hs, Hc, lookup_insert_eq. set_solver.
Qed.

Lemma call_history_complete id l e o :
  ev_payload e = ActionCompleted id o →
  tr_in_flight (replay l) !! id = Some (correlation e) →
  call_history id l → call_history id (l ++ [e]).
Proof.
  unfold call_history. rewrite replay_snoc, starts_snoc, completions_snoc.
  intros Hp Hin H.
  assert (starts id [e] = [] ∧ completions id [e] = [e]) as [-> ->]
    by (unfold starts, completions; cbn; by rewrite Hp, bool_decide_refl).
  unfold track. rewrite Hp. cbn.
  destruct H as [(? & ? & _)|[(? & s & Hs & Hi & Hc)|(? & ? & _)]];
    [congruence| |congruence].
  right; right. rewrite Hs, Hc, lookup_delete_eq. split_and!; [done..|].
  destruct (list_elem_of_split _ _ (starts_in _ _ _ Hs)) as (pre & mid & ->).
  exists s, e, pre, mid, []. split_and!; [done..|congruence|].
  by rewrite <-app_assoc.
Qed.

(** Every call of an ordered log has one of the three histories. *)
Lemma core_call_history id l : core_legal l → call_history id l.
Proof.
  revert l. apply core_legal_ind; [left; set_solver|].
  intros l e _ He IH. unfold core_permitted in He.
  destruct (ev_payload e) as [| | |call|i o| | | | |] eqn:Hp.
  4: destruct (decide (rc_id call = id)) as [Hid|Hid];
    [eapply call_history_start; eauto; congruence|].
  5: destruct (decide (i = id)) as [->|Hid];
    [destruct He; by eapply call_history_complete|].
  all: apply call_history_other; unfold starts, completions, track; cbn;
    rewrite ?Hp; cbn; rewrite ?bool_decide_false by done;
    rewrite ?lookup_insert_ne, ?lookup_delete_ne by done; set_solver.
Qed.

Lemma omap_snoc {A B} (f : A → option B) l x :
  omap f (l ++ [x]) = omap f l ++ option_list (f x).
Proof. rewrite omap_app. cbn. by destruct (f x). Qed.

Lemma omap_length_bound {A B} (f : A → option B) l :
  (length (omap f l) <= length l)%nat.
Proof. induction l as [|x l IH]; cbn; [done|]. destruct (f x); cbn; lia. Qed.

Lemma indices_S n : indices (S n) = indices n ++ [N.of_nat n + 1].
Proof. unfold indices. by rewrite seq_S, fmap_app. Qed.

(** An event that does not concern a stream leaves its history as it is. *)
Lemma stream_history_other id l e :
  frames id [e] = [] → stream_starts id [e] = [] → stream_ends id [e] = [] →
  (id ∈ tr_seen_media (track (replay l) e) ↔ id ∈ tr_seen_media (replay l)) →
  tr_media (track (replay l) e) !! id = tr_media (replay l) !! id →
  stream_history id l → stream_history id (l ++ [e]).
Proof.
  unfold stream_history. rewrite replay_snoc.
  unfold frames, stream_starts, stream_ends. rewrite !omap_app.
  intros -> -> -> Hseen Hin. by rewrite !app_nil_r, Hin, Hseen.
Qed.

Lemma stream_history_start id l e s :
  ev_payload e = MediaStreamStarted s → ms_id s = id →
  id ∉ tr_seen_media (replay l) →
  stream_history id l → stream_history id (l ++ [e]).
Proof.
  unfold stream_history. rewrite replay_snoc.
  unfold frames, stream_starts, stream_ends. rewrite !omap_snoc.
  intros Hp Hid Hfresh [_ H]. unfold track. rewrite !Hp. cbn.
  rewrite Hid, bool_decide_refl. cbn. rewrite !app_nil_r.
  destruct H as [(? & ? & -> & -> & ->)|[? _]]; [|done].
  rewrite lookup_insert_eq. split; [done|right]. split; [set_solver|].
  exists s. split; [done|]. split; [constructor|]. by left.
Qed.

Lemma stream_history_frame id l e f s :
  ev_payload e = MediaFrameCaptured f → mf_stream_id f = id →
  tr_media (replay l) !! id = Some s → mf_frame_index f = mss_next_frame_index s →
  ar_media_type (mf_evidence f) = mss_media_type s →
  stream_history id l → stream_history id (l ++ [e]).
Proof.
  unfold stream_history. rewrite replay_snoc.
  unfold frames, stream_starts, stream_ends. rewrite !omap_snoc.
  intros Hp Hid Hs Hix Hmt [Hidx H]. unfold track. rewrite !Hp. cbn.
  rewrite Hid, bool_decide_refl. cbn. rewrite !app_nil_r.
  fold (frames id l) (stream_starts id l) (stream_ends id l) in *.
  destruct H as [(? & ? & _)|(? & info & ? & ? & [(? & Hm)|(? & ?)])];
    [congruence| |congruence].
  rewrite Hs in Hm. simplify_eq. cbn in *. split.
  - rewrite fmap_app, Hidx, length_app, Nat.add_1_r, indices_S. cbn.
    by rewrite Hix.
  - right. split; [done|]. exists info. split; [done|]. split.
    + by apply Forall_app_2; [|constructor].
    + left. split; [done|]. rewrite lookup_alter_eq, Hs, len_snoc. done.
Qed.

Lemma stream_history_end id l e n s :
  ev_payload e = MediaStreamEnded id n →
  tr_media (replay l) !! id = Some s → n + 1 = mss_next_frame_index s →
  stream_history id l → stream_history id (l ++ [e]).
Proof.
  unfold stream_history. rewrite replay_snoc.
  unfold frames, stream_starts, stream_ends. rewrite !omap_snoc.
  intros Hp Hs Hn [Hidx H]. unfold track. rewrite !Hp. cbn.
  rewrite bool_decide_refl. cbn. rewrite !app_nil_r.
  fold (frames id l) (stream_starts id l) (stream_ends id l) in *.
  destruct H as [(? & ? & _)|(? & info & ? & ? & [(He & Hm)|(? & ?)])];
    [congruence| |congruence].
  rewrite Hs in Hm. simplify_eq. cbn in *. split; [done|right].
  split; [done|]. exists info. split_and!; [done..|]. right.
  rewrite He, lookup_delete_eq. split; [|done]. cbn. f_equal. lia.
Qed.

(** Every media stream of an ordered log has one of the three histories. *)
Lemma core_stream_history id l : core_legal l → stream_history id l.
Proof.
  revert l. apply core_legal_ind; [split; [done|left; set_solver]|].
  intros l e _ He IH. unfold core_permitted in He.
  destruct (ev_payload e) as [| | | | |s|f|i n| |] eqn:Hp.
  6: destruct (decide (ms_id s = id)) as [Hid|Hid];
    [eapply stream_history_start; eauto; congruence|].
  7: destruct (decide (mf_stream_id f = id)) as [Hid|Hid];
    [destruct He as (s & ? & ? & ?); eapply stream_history_frame; eauto; congruence|].
  8: destruct (decide (i = id)) as [->|Hid];
    [destruct He as (s & ? & ?); by eapply stream_history_end|].
  all: apply stream_history_other;
    unfold frames, stream_starts, stream_ends, track; cbn;
    rewrite ?Hp; cbn; rewrite ?bool_decide_false by done;
    rewrite ?lookup_insert_ne, ?lookup_delete_ne, ?lookup_alter_ne by done;
    set_solver.
Qed.

Lemma legal_call_history id l : legal l → call_history id l.
Proof. intros H. by apply core_call_history, legal_core. Qed.

Lemma legal_stream_history id l : legal l → stream_history id l.
Proof. intros H. by apply core_stream_history, legal_core. Qed.

(** An open stream of an ordered log has a positive next frame index that is
    no larger than the log. *)
Lemma core_media_bounds l id s :
  core_legal l → tr_media (replay l) !! id = Some s →
  1 <= mss_next_frame_index s <= len l + 1.
Proof.
  intros Hl Hs. destruct (core_stream_history id l Hl) as [_ H].
  assert (len (frames id l) <= len l).
  { unfold len. pose proof (omap_length_bound _ l : (length (frames id l) <= _)%nat).
    lia. }
  destruct H as [(? & ? & _)|(? & info & ? & ? & [(He & Hm)|(? & ?)])];
    [congruence| |congruence].
  rewrite Hs in Hm. simplify_eq. cbn. lia.
Qed.
