(* ===== verification/EventStoreInv.v ===== *)
(** * The Event Store keeps well-formed logs

    The invariant of [MemoryEventStore]: every Session's log satisfies the
    specification of [EventLog], its incremental bookkeeping equals the
    replay of its events, its broadcast channel has carried exactly the
    events after the first, and the observation leases agree with the
    Sessions. Every operation preserves it, so it holds in every reachable
    state. *)

From S2P Require Import Prelude Protocol Evidence EventStream EventStore EventLog.

Local Open Scope N_scope.

(** ** The invariant *)

Definition log_tracking (log : SessionLog) : Tracking :=
  mkTracking (log_seen_calls log) (log_in_flight log)
    (log_seen_media_streams log) (log_media_streams log).

(** The signals a log's channel has carried. *)
Definition published (shutdown : bool) (events : list TestEvent)
    : list EventStreamSignal :=
  (SigEvent <$> drop 1 events) ++ (if shutdown then [SigStoreShutdown] else []).

Record log_wf (shutdown : bool) (sid : SessionId) (log : SessionLog) : Prop := {
  lw_id : si_id (log_info log) = sid;
  lw_continues : continues sid 0 (log_events log);
  lw_last : si_last_sequence (log_info log) = len (log_events log);
  lw_count : si_event_count (log_info log) = len (log_events log);
  lw_bound : len (log_events log) <= MAX_SAFE_INTEGER;
  lw_times : Forall (λ e, ev_at_ms e <= MAX_SAFE_INTEGER) (log_events log);
  lw_started : ev_at_ms <$> head (log_events log) =
    Some (si_started_at_ms (log_info log));
  lw_ended : si_ended_at_ms (log_info log) =
    match si_state (log_info log) with
    | Active => None
    | Ended => ev_at_ms <$> last (log_events log)
    end;
  lw_lifecycle : lifecycle (si_state (log_info log)) (log_events log);
  lw_legal : legal (log_events log);
  lw_tracking : log_tracking log = replay (log_events log);
  lw_quiescent : si_state (log_info log) = Ended →
    log_in_flight log = ∅ ∧ log_media_streams log = ∅ ∧
    log_in_flight_observations log = ∅;
  lw_tail : log_stream_tail log = published shutdown (log_events log);
}.

(** The signals of a deleted Session's channel: a complete log, maybe a
    shutdown, the deletion. *)
Definition closed_wf (sid : SessionId) (tail : list EventStreamSignal) : Prop :=
  ∃ shutdown events, continues sid 0 events ∧ lifecycle Ended events ∧
    tail = published shutdown events ++ [SigSessionDeleted sid (len events)].

Record store_wf (st : MemoryEventStore) : Prop := {
  sw_logs sid log : st_sessions st !! sid = Some log →
    log_wf (st_stream_shutdown st) sid log;
  sw_used : dom (st_sessions st) ⊆ st_used_session_ids st;
  sw_lease_session lease ls : st_observation_leases st !! lease = Some ls →
    ∃ log, st_sessions st !! ls_session_id ls = Some log ∧
      (ls_released ls = false → lease ∈ log_in_flight_observations log);
  sw_in_flight sid log lease : st_sessions st !! sid = Some log →
    lease ∈ log_in_flight_observations log →
    st_observation_leases st !! lease = Some (mkObservationLeaseState sid false);
  sw_closed sid tail : st_closed_tails st !! sid = Some tail →
    closed_wf sid tail ∧ sid ∈ st_used_session_ids st ∧
    st_sessions st !! sid = None;
}.

(** ** Operations as steps *)

Inductive StoreOp :=
| OpStart (event_id : EventId) (command : StartSession)
| OpReserve (draws : list Uuid) (session_id : SessionId)
| OpRelease (session_id : SessionId) (lease : ObservationLease)
| OpAppend (event_id : EventId) (pending : PendingEvent)
| OpEnd (event_id : EventId) (command : EndSession)
| OpDelete (session_id : SessionId)
| OpShutdown.

Definition apply_op (op : StoreOp) (st : MemoryEventStore) : MemoryEventStore :=
  match op with
  | OpStart eid c => snd (start_session eid c st)
  | OpReserve draws sid => snd (reserve_observation draws sid st)
  | OpRelease sid lease => snd (release_observation sid lease st)
  | OpAppend eid p => snd (append eid p st)
  | OpEnd eid c => snd (end_session eid c st)
  | OpDelete sid => snd (delete_ended sid st)
  | OpShutdown => snd (begin_stream_shutdown st)
  end.

Definition run_ops (ops : list StoreOp) (st : MemoryEventStore) : MemoryEventStore :=
  foldl (λ st op, apply_op op st) st ops.

(** The states the store goes through from its construction. *)
Inductive reachable (config : EventStreamConfig) : MemoryEventStore → Prop :=
| reach_new : reachable config (with_event_stream_config config)
| reach_op st op : reachable config st → reachable config (apply_op op st).

(** ** The log's decision procedure against the specification *)

(** The event [append] builds from a pending one. *)
Definition event_of (event_id : EventId) (sequence : EventSequence)
    (p : PendingEvent) : TestEvent :=
  {| ev_event_id := event_id;
     ev_session_id := pe_session_id p;
     ev_sequence := sequence;
     ev_request_id := pe_request_id p;
     ev_device_id := pe_device_id p;
     ev_at_ms := pe_at_ms p;
     ev_payload := pe_payload p |}.

(** Media streams' next indices are positive, so [next_frame_index - 1] does
    not underflow. *)
Definition media_positive (log : SessionLog) : Prop :=
  ∀ id s, log_media_streams log !! id = Some s → 1 <= mss_next_frame_index s.

Lemma is_err_false {E A} (r : result E A) : is_err r = false ↔ is_ok r = true.
Proof. by destruct r. Qed.

Lemma stream_check_ok s :
  is_err (validate_media_type (ms_media_type s)) ||
    match ms_viewport s with
    | Some viewport => viewport_invalid viewport
    | None => false
    end = false ↔ stream_fits s.
Proof.
  unfold stream_fits. rewrite orb_false_iff, is_err_false.
  destruct (ms_viewport s); naive_solver.
Qed.

Lemma frame_check_ok s f :
  mf_frame_index f = mss_next_frame_index s →
  negb (String.eqb (ar_media_type (mf_evidence f)) (mss_media_type s)) ||
    is_err (from_asset_ref (mf_evidence f)) ||
    match mf_duration_ms f with
    | Some value => MAX_SAFE_INTEGER <? value
    | None => false
    end = false ↔ frame_fits s f.
Proof.
  intros Hi. unfold frame_fits.
  rewrite !orb_false_iff, is_err_false, negb_false_iff, String.eqb_eq.
  destruct (mf_duration_ms f) as [d|]; cbn; [rewrite N.ltb_ge|]; naive_solver.
Qed.

Lemma decide_media_frame_proceeds log p f t :
  decide_media_frame log p f = Ok (Proceed t) ↔
  t = TransMediaFrame (mf_stream_id f) ∧
  ∃ s, log_media_streams log !! mf_stream_id f = Some s ∧ frame_fits s f.
Proof.
  unfold decide_media_frame.
  destruct (log_media_streams log !! mf_stream_id f) as [s|] eqn:Hs;
    [|case_match; naive_solver].
  unfold EventSequence.get.
  destruct (N.eqb_spec (mf_frame_index f) (mss_next_frame_index s)) as [Hi|Hi];
    cbn [negb].
  - pose proof (frame_check_ok s f Hi) as Hok.
    match goal with |- context [if ?b then Err _ else _] => destruct b end;
      naive_solver.
  - unfold frame_fits. repeat case_match; naive_solver.
Qed.

Lemma decide_media_started_proceeds log p s t :
  decide_media_started log p s = Ok (Proceed t) ↔
  t = TransMediaStarted (ms_id s) (ms_media_type s) ∧
  (ms_id s ∉ log_seen_media_streams log) ∧ stream_fits s.
Proof.
  unfold decide_media_started. case_bool_decide as Hseen.
  - split; [|naive_solver]. intros H. repeat case_match; naive_solver.
  - pose proof (stream_check_ok s).
    match goal with |- context [if ?b then Err _ else _] => destruct b end;
      naive_solver.
Qed.

Lemma decide_media_ended_proceeds log p id n t :
  media_positive log →
  decide_media_ended log p id n = Ok (Proceed t) ↔
  t = TransMediaEnded id ∧
  ∃ s, log_media_streams log !! id = Some s ∧ n + 1 = mss_next_frame_index s.
Proof.
  intros Hpos. unfold decide_media_ended.
  destruct (log_media_streams log !! id) as [s|] eqn:Hs;
    [|case_match; naive_solver].
  apply Hpos in Hs. destruct (N.eqb_spec n (mss_next_frame_index s - 1));
    cbn [negb]; naive_solver lia.
Qed.

Lemma decide_action_completed_proceeds log p id o t :
  decide_action_completed log p id o = Ok (Proceed t) ↔
  t = TransActionCompleted id ∧
  log_in_flight log !! id =
    Some (mkActionCorrelation (pe_request_id p) (pe_device_id p)) ∧
  match o with Succeeded r => res_call_id r = id | _ => True end.
Proof.
  unfold decide_action_completed.
  destruct (log_in_flight log !! id) as [[rq dv]|]; cbn; [|naive_solver].
  destruct (decide (rq = pe_request_id p)) as [->|],
    (decide (dv = pe_device_id p)) as [->|]; cbn;
    rewrite ?bool_decide_true, ?bool_decide_false by done; cbn;
    try naive_solver.
  destruct o as [r| | |]; cbn; try naive_solver.
  case_bool_decide; cbn; naive_solver.
Qed.

(** [append]'s checks against the bookkeeping let a new event through exactly
    when the specification permits it, with the transition that tracks it. *)
Lemma decide_append_proceeds log p eid sequence :
  media_positive log →
  (∃ t, decide_append log p = Ok (Proceed t)) ↔
  permitted (log_tracking log) (event_of eid sequence p).
Proof.
  intros Hpos. unfold decide_append, permitted. cbn [ev_payload event_of].
  unfold log_tracking. destruct (pe_payload p) eqn:Hp; cbn;
    try (split; [done|intros _; by eexists]).
  - case_bool_decide; naive_solver.
  - setoid_rewrite decide_action_completed_proceeds. naive_solver.
  - setoid_rewrite decide_media_started_proceeds. naive_solver.
  - setoid_rewrite decide_media_frame_proceeds. naive_solver.
  - setoid_rewrite decide_media_ended_proceeds; [|done]. naive_solver.
Qed.

(** The panic of [apply_transition]'s [expect] is unreachable. *)
Lemma decide_append_media_frame_active log p id :
  decide_append log p = Ok (Proceed (TransMediaFrame id)) →
  is_Some (log_media_streams log !! id).
Proof.
  unfold decide_append. destruct (pe_payload p); try done.
  - case_bool_decide; naive_solver.
  - intros [? _]%decide_action_completed_proceeds. done.
  - intros [? _]%decide_media_started_proceeds. done.
  - intros [[= ->] (s & Hs & _)]%decide_media_frame_proceeds. by exists s.
  - unfold decide_media_ended. repeat case_match; naive_solver.
Qed.

Lemma apply_transition_tracks log p eid sequence t :
  media_positive log →
  decide_append log p = Ok (Proceed t) →
  log_tracking (apply_transition t log) =
    track (log_tracking log) (event_of eid sequence p).
Proof.
  intros Hpos. unfold decide_append, track. cbn [ev_payload event_of].
  destruct (pe_payload p) eqn:Hp; try (by intros [= <-]).
  - case_bool_decide; [done|]. by intros [= <-].
  - by intros [-> _]%decide_action_completed_proceeds.
  - by intros [-> _]%decide_media_started_proceeds.
  - by intros [-> _]%decide_media_frame_proceeds.
  - by intros [-> _]%decide_media_ended_proceeds.
Qed.

(** ** What the locked bodies do *)

Definition appended (e : TestEvent) (t : EventTransition) (log : SessionLog)
    : SessionLog :=
  publish_event e (apply_transition t (push_event e log)).

Definition ended (e : TestEvent) (at_ms : N) (log : SessionLog) : SessionLog :=
  publish_event e (push_event e (set_ended at_ms log)).

Definition end_event (event_id : EventId) (sequence : EventSequence)
    (c : EndSession) : TestEvent :=
  {| ev_event_id := event_id;
     ev_session_id := end_session_id c;
     ev_sequence := sequence;
     ev_request_id := end_request_id c;
     ev_device_id := end_device_id c;
     ev_at_ms := end_at_ms c;
     ev_payload := SessionEnded (end_outcome c) (end_reason c) |}.

(** [append] answers from the log. *)
Definition retried (log : SessionLog) (p : PendingEvent) (e : TestEvent) : Prop :=
  si_state (log_info log) = Active ∧ is_ok (next_sequence log) = true ∧
  decide_append log p = Ok (ReturnExisting e).

Lemma not_ended s : s ≠ Ended → s = Active.
Proof. by destruct s. Qed.

Lemma append_locked_cases eid p log r log' :
  append_locked eid p log = (r, log') →
  (log' = log ∧ ∀ e, r = Ok e → retried log p e) ∨
  ∃ sequence t, let e := event_of eid sequence p in
    si_state (log_info log) = Active ∧ next_sequence log = Ok sequence ∧
    decide_append log p = Ok (Proceed t) ∧
    r = Ok e ∧ log' = appended e t log.
Proof.
  unfold append_locked, retried. intros H.
  destruct r as [e|e]; inv_run; try naive_solver.
  - inv_bools. case_match; inv_run.
    + left. split; [done|]. intros e' [= <-]. split_and!; [by apply not_ended| |done].
      match goal with H : next_sequence _ = _ |- _ => by rewrite H end.
    + right. do 2 eexists. split_and!; try done. by apply not_ended.
  - case_match; inv_run.
Qed.

Lemma append_locked_retried eid p log e :
  retried log p e → append_locked eid p log = (Ok e, log).
Proof.
  intros (Ha & Hn & Hd). unfold append_locked, mbind, M_bind, get, lift, reject_if.
  rewrite Ha. cbn. destruct (next_sequence log); [|done]. by rewrite Hd.
Qed.

Lemma end_locked_cases eid c log r log' :
  end_locked eid c log = (r, log') →
  (log' = log ∧ is_err r = true) ∨
  ∃ sequence, let e := end_event eid sequence c in
    si_state (log_info log) = Active ∧ next_sequence log = Ok sequence ∧
    log_in_flight_observations log = ∅ ∧ log_in_flight log = ∅ ∧
    log_media_streams log = ∅ ∧
    log' = ended e (end_at_ms c) log ∧ r = Ok (log_info log').
Proof.
  unfold end_locked. intros H. destruct r as [i|e]; inv_run; try naive_solver.
  right. rewrite size_zero_empty in *. inv_bools.
  eexists. split_and!; try done. by apply not_ended.
Qed.

Lemma media_positive_wf b sid log : log_wf b sid log → media_positive log.
Proof.
  intros [] id s Hs. assert (tr_media (replay (log_events log)) !! id = Some s)
    as Ht by (rewrite <-lw_tracking0; done).
  apply core_media_bounds in Ht as [? _]; [done|by apply legal_core].
Qed.

Lemma next_sequence_wf b sid log sequence :
  log_wf b sid log → next_sequence log = Ok sequence →
  sequence = len (log_events log) + 1 ∧ sequence <= MAX_SAFE_INTEGER.
Proof.
  intros [] H. unfold next_sequence in H. inv_result.
  apply checked_next_some in H. rewrite lw_last0 in H. lia.
Qed.

Lemma log_events_nonempty b sid log : log_wf b sid log → log_events log ≠ [].
Proof. intros [] H. rewrite H in lw_started0. done. Qed.

Lemma published_snoc events e :
  events ≠ [] → published false events ++ [SigEvent e] = published false (events ++ [e]).
Proof.
  intros H. unfold published. rewrite !app_nil_r.
  destruct events; [done|]. cbn. by rewrite !drop_0, fmap_app.
Qed.

Lemma head_snoc {A} (l : list A) x : l ≠ [] → head (l ++ [x]) = head l.
Proof. by destruct l. Qed.

Lemma lifecycle_snoc events e :
  lifecycle Active events → is_lifecycle (ev_payload e) = false →
  lifecycle Active (events ++ [e]).
Proof.
  intros (f & body & ? & ? & ->) He. exists f, (body ++ [e]).
  split; [done|]. split; [|done]. by apply Forall_app_2; [|constructor].
Qed.

Lemma lifecycle_end events e :
  lifecycle Active events → is_session_ended (ev_payload e) = true →
  lifecycle Ended (events ++ [e]).
Proof. intros (f & body & ? & ? & ->) He. exists f, body. eauto. Qed.

Lemma continues_snoc sid events e :
  continues sid 0 events → ev_session_id e = sid →
  ev_sequence e = len events + 1 → continues sid 0 (events ++ [e]).
Proof. intros ? ? ?. apply continues_app. cbn. rewrite N.add_0_l. auto. Qed.

Lemma apply_transition_frame t log :
  log_info (apply_transition t log) = log_info log ∧
  log_events (apply_transition t log) = log_events log ∧
  log_stream_tail (apply_transition t log) = log_stream_tail log ∧
  log_in_flight_observations (apply_transition t log) =
    log_in_flight_observations log.
Proof. by destruct t. Qed.

Lemma appended_info e t log :
  log_info (appended e t log) = log_info (push_event e log) ∧
  log_events (appended e t log) = log_events log ++ [e] ∧
  log_stream_tail (appended e t log) = log_stream_tail log ++ [SigEvent e] ∧
  log_in_flight_observations (appended e t log) =
    log_in_flight_observations log.
Proof.
  unfold appended, publish_event, send. cbn.
  destruct (apply_transition_frame t (push_event e log)) as (-> & -> & -> & ->).
  done.
Qed.


Lemma appended_tracking eid sequence p t log :
  media_positive log →
  decide_append log p = Ok (Proceed t) →
  log_tracking (appended (event_of eid sequence p) t log) =
    track (log_tracking log) (event_of eid sequence p).
Proof.
  intros Hpos Hd. rewrite <-(apply_transition_tracks log p eid sequence t) by done.
  by destruct t.
Qed.

(** Appending a permitted event keeps a log well formed. *)
Lemma appended_wf sid eid sequence p t log :
  log_wf false sid log → pe_session_id p = sid →
  pe_at_ms p <= MAX_SAFE_INTEGER → is_lifecycle (pe_payload p) = false →
  si_state (log_info log) = Active → next_sequence log = Ok sequence →
  decide_append log p = Ok (Proceed t) →
  log_wf false sid (appended (event_of eid sequence p) t log).
Proof.
  intros Hwf Hsid Ht Hl Ha Hn Hd.
  destruct (next_sequence_wf _ _ _ _ Hwf Hn) as [Hq Hb].
  pose proof (media_positive_wf _ _ _ Hwf) as Hpos.
  pose proof (log_events_nonempty _ _ _ Hwf) as Hne.
  pose proof (appended_tracking eid sequence p t log Hpos Hd) as Htr.
  set (e := event_of eid sequence p) in *.
  destruct (appended_info e t log) as (Hi & He & Hs & Ho).
  destruct Hwf. constructor; rewrite ?He, ?Hi, ?Hs, ?Ho; cbn; try done.
  - by apply continues_snoc.
  - by rewrite len_snoc.
  - by rewrite len_snoc.
  - rewrite len_snoc. lia.
  - by apply Forall_app_2; [|constructor].
  - by rewrite head_snoc.
  - by rewrite Ha in *.
  - rewrite Ha in *. by apply lifecycle_snoc.
  - apply legal_snoc. split; [done|]. rewrite <-lw_tracking0.
    apply (decide_append_proceeds log p eid sequence Hpos). by eexists.
  - by rewrite replay_snoc, <-lw_tracking0.
  - by rewrite Ha.
  - by rewrite lw_tail0, published_snoc.
Qed.

(** Ending a quiescent log keeps it well formed. *)
Lemma ended_wf sid eid sequence c log :
  log_wf false sid log → end_session_id c = sid →
  end_at_ms c <= MAX_SAFE_INTEGER →
  si_state (log_info log) = Active → next_sequence log = Ok sequence →
  log_in_flight_observations log = ∅ → log_in_flight log = ∅ →
  log_media_streams log = ∅ →
  log_wf false sid (ended (end_event eid sequence c) (end_at_ms c) log).
Proof.
  intros Hwf Hsid Ht Ha Hn Ho Hf Hm.
  destruct (next_sequence_wf _ _ _ _ Hwf Hn) as [Hq Hb].
  pose proof (log_events_nonempty _ _ _ Hwf) as Hne.
  destruct Hwf. constructor; cbn; try done.
  - by apply continues_snoc.
  - by rewrite len_snoc.
  - by rewrite len_snoc.
  - rewrite len_snoc. lia.
  - by apply Forall_app_2; [|constructor].
  - by rewrite head_snoc.
  - by rewrite last_snoc.
  - rewrite Ha in *. by apply lifecycle_end.
  - by apply legal_snoc.
  - by rewrite replay_snoc, <-lw_tracking0.
  - by rewrite lw_tail0, published_snoc.
Qed.

(** ** What the operations do to the store *)

Lemma set_sessions_id st sid log :
  st_sessions st !! sid = Some log → set_sessions <[sid := log]> st = st.
Proof. intros H. unfold set_sessions. rewrite insert_id by done. by destruct st. Qed.

Lemma with_log_inv {A} sid (body : M SessionLog EventStoreError A) st log r st' :
  st_sessions st !! sid = Some log → with_log sid body st = (r, st') →
  ∃ log', body log = (r, log') ∧ st' = set_sessions <[sid := log']> st.
Proof.
  unfold with_log. intros ->. destruct (body log) as [r' log'] eqn:Hb.
  intros [= <- <-]. eauto.
Qed.

Lemma ensure_running_inv st u st' :
  ensure_running st = (Ok u, st') → st' = st ∧ st_stream_shutdown st = false.
Proof. unfold ensure_running. intros H. by destruct (st_stream_shutdown st); simplify_eq. Qed.

Lemma ensure_running_err st e st' :
  ensure_running st = (Err e, st') → st' = st ∧ st_stream_shutdown st = true.
Proof. unfold ensure_running. intros H. by destruct (st_stream_shutdown st); simplify_eq. Qed.

Lemma ensure_timestamp_ok at_ms u : ensure_timestamp at_ms = Ok u ↔ at_ms <= MAX_SAFE_INTEGER.
Proof.
  unfold ensure_timestamp. destruct u, (N.leb_spec at_ms MAX_SAFE_INTEGER);
    naive_solver lia.
Qed.

(** Takes a run of a store method apart, through its guards. *)
Ltac inv_store :=
  repeat (progress (inv_run;
    repeat match goal with
    | H : ensure_running _ = (Ok _, _) |- _ => apply ensure_running_inv in H as [??]
    | H : ensure_running _ = (Err _, _) |- _ => apply ensure_running_err in H as [??]
    | H : ensure_timestamp _ = Ok _ |- _ => apply ensure_timestamp_ok in H
    | H : get_log _ _ = Ok _ |- _ => unfold get_log in H
    | H1 : st_sessions ?st !! ?sid = Some _, H2 : with_log ?sid _ ?st = _ |- _ =>
        apply (with_log_inv _ _ _ _ _ _ H1) in H2 as (? & ? & ?)
    end; simplify_eq)); inv_bools.

(** The conditions under which [append] reaches the Session's log. *)
Definition append_open (st : MemoryEventStore) (p : PendingEvent) (log : SessionLog)
    : Prop :=
  pe_at_ms p <= MAX_SAFE_INTEGER ∧ is_lifecycle (pe_payload p) = false ∧
  st_stream_shutdown st = false ∧
  st_sessions st !! pe_session_id p = Some log.

Lemma append_run st eid p log :
  append_open st p log →
  append eid p st =
    (fst (append_locked eid p log),
     set_sessions <[pe_session_id p := snd (append_locked eid p log)]> st).
Proof.
  intros (Ht & Hl & Hs & Hlog). unfold append.
  assert (ensure_timestamp (pe_at_ms p) = Ok ()) as -> by (by apply ensure_timestamp_ok).
  unfold mbind, M_bind, lift, get, get_log, ensure_running, with_log.
  repeat (rewrite ?Hl, ?Hs, ?Hlog; cbn).
  by destruct (append_locked eid p log).
Qed.

Lemma append_cases st eid p r st' :
  append eid p st = (r, st') →
  (st' = st ∧ ∀ e, r = Ok e → ∃ log, append_open st p log ∧ retried log p e) ∨
  ∃ log sequence t, let e := event_of eid sequence p in
    append_open st p log ∧
    si_state (log_info log) = Active ∧ next_sequence log = Ok sequence ∧
    decide_append log p = Ok (Proceed t) ∧ r = Ok e ∧
    st' = set_sessions <[pe_session_id p := appended e t log]> st.
Proof.
  intros H. unfold append in H.
  assert ((st' = st ∧ is_err r = true) ∨ ∃ log log', append_open st p log ∧
    append_locked eid p log = (r, log') ∧
    st' = set_sessions <[pe_session_id p := log']> st) as [[-> Hr]|Hlk].
  { destruct r; inv_store; try (by left); right; unfold append_open; eauto 10. }
  { left. split; [done|]. by intros e ->. }
  destruct Hlk as (log & log' & Ho & Hb & ->).
  apply append_locked_cases in Hb as [[-> Hr]|(sequence & t & Hb)].
  - left. rewrite set_sessions_id by apply Ho. split; [done|]. eauto.
  - right. exists log, sequence, t. naive_solver.
Qed.

Lemma end_cases st eid c r st' :
  end_session eid c st = (r, st') →
  (st' = st ∧ is_err r = true) ∨
  ∃ log sequence, let e := end_event eid sequence c in
    end_at_ms c <= MAX_SAFE_INTEGER ∧ st_stream_shutdown st = false ∧
    st_sessions st !! end_session_id c = Some log ∧
    si_state (log_info log) = Active ∧ next_sequence log = Ok sequence ∧
    log_in_flight_observations log = ∅ ∧ log_in_flight log = ∅ ∧
    log_media_streams log = ∅ ∧
    r = Ok (log_info (ended e (end_at_ms c) log)) ∧
    st' = set_sessions <[end_session_id c := ended e (end_at_ms c) log]> st.
Proof.
  intros H. unfold end_session in H.
  assert ((st' = st ∧ is_err r = true) ∨ ∃ log log',
    (end_at_ms c <= MAX_SAFE_INTEGER ∧ st_stream_shutdown st = false ∧
     st_sessions st !! end_session_id c = Some log) ∧
    end_locked eid c log = (r, log') ∧
    st' = set_sessions <[end_session_id c := log']> st) as [?|Hlk]; [|by left|].
  { destruct r; inv_store; try (by left); right; eauto 10. }
  destruct Hlk as (log & log' & Ho & Hb & ->).
  apply end_locked_cases in Hb as [[-> Hr]|(sequence & Hb)].
  - left. by rewrite set_sessions_id by apply Ho.
  - right. exists log, sequence. naive_solver.
Qed.

(** The state after a successful [start_session]. *)
Definition started (eid : EventId) (c : StartSession) : SessionLog :=
  {| log_info :=
       mkSessionInfo (start_session_id c) Active (start_at_ms c) None 1 1;
     log_events := [mkTestEvent eid (start_session_id c) 1 (start_request_id c)
       (start_device_id c) (start_at_ms c) SessionStarted];
     log_stream_tail := [];
     log_seen_calls := ∅;
     log_in_flight := ∅;
     log_in_flight_observations := ∅;
     log_seen_media_streams := ∅;
     log_media_streams := ∅ |}.

Lemma start_cases st eid c r st' :
  start_session eid c st = (r, st') →
  (st' = st ∧ is_err r = true) ∨
  (start_at_ms c <= MAX_SAFE_INTEGER ∧ st_stream_shutdown st = false ∧
   (start_session_id c ∉ st_used_session_ids st) ∧
   r = Ok (log_info (started eid c)) ∧
   st' = {| st_sessions := <[start_session_id c := started eid c]> (st_sessions st);
            st_used_session_ids := {[start_session_id c]} ∪ st_used_session_ids st;
            st_observation_leases := st_observation_leases st;
            st_stream_shutdown := st_stream_shutdown st;
            st_stream_config := st_stream_config st;
            st_closed_tails := st_closed_tails st |}).
Proof.
  intros H. unfold start_session in H.
  destruct r; inv_store; try (by left). by right.
Qed.

Lemma reserve_cases st draws sid r st' :
  reserve_observation draws sid st = (r, st') →
  (st' = st ∧ (is_err r = true ∨ r = Ok None)) ∨
  ∃ log lease, r = Ok (Some lease) ∧ st_stream_shutdown st = false ∧
    st_sessions st !! sid = Some log ∧ si_state (log_info log) = Active ∧
    st_observation_leases st !! lease = None ∧
    st' = set_leases <[lease := mkObservationLeaseState sid false]>
      (set_sessions <[sid := set_observations (λ s, {[lease]} ∪ s) log]> st).
Proof.
  intros H. unfold reserve_observation in H.
  destruct r as [o|]; inv_store; try (by left; eauto).
  - destruct (first_fresh _ _) as [lease|] eqn:Hf; inv_store; [|by left; eauto].
    apply find_some in Hf as [_ Hf]. inv_bools.
    right. do 2 eexists. split_and!; try done; [by apply not_ended|].
    by apply eq_None_not_Some.
  - destruct (first_fresh _ _) as [lease|] eqn:Hf; inv_store.
Qed.

Lemma release_cases st sid lease r st' :
  release_observation sid lease st = (r, st') →
  (st' = st ∧ ∀ u, r = Ok u → st_observation_leases st !! lease =
     Some (mkObservationLeaseState sid true)) ∨
  ∃ log, r = Ok () ∧ st_sessions st !! sid = Some log ∧
    st_observation_leases st !! lease = Some (mkObservationLeaseState sid false) ∧
    lease ∈ log_in_flight_observations log ∧
    st' = set_leases <[lease := mkObservationLeaseState sid true]>
      (set_sessions <[sid := set_observations (λ s, s ∖ {[lease]}) log]> st).
Proof.
  intros H. unfold release_observation in H.
  destruct r as [[]|]; inv_store; try (by left; naive_solver).
  - match goal with H : _ !! lease = Some ?ls |- _ =>
      destruct ls as [? released]; cbn in * end.
    destruct released; inv_store; [by left|]. right.
    cbn in *. simplify_eq. by eexists.
  - case_match; inv_store; try (by left); naive_solver.
Qed.

Lemma delete_cases st sid r st' :
  delete_ended sid st = (r, st') →
  (st' = st ∧ is_err r = true) ∨
  ∃ log, r = Ok () ∧ st_sessions st !! sid = Some log ∧
    si_state (log_info log) = Ended ∧
    st' = {| st_sessions := delete sid (st_sessions st);
             st_used_session_ids := st_used_session_ids st;
             st_observation_leases :=
               filter (λ p, ls_session_id (snd p) ≠ sid) (st_observation_leases st);
             st_stream_shutdown := st_stream_shutdown st;
             st_stream_config := st_stream_config st;
             st_closed_tails :=
               <[sid := log_stream_tail log ++
                   [SigSessionDeleted sid (si_last_sequence (log_info log))]]>
                 (st_closed_tails st) |}.
Proof.
  intros H. unfold delete_ended in H.
  destruct r as [[]|]; inv_store; try (by left). right.
  eexists. split_and!; try done. by destruct (si_state _).
Qed.

(** ** Preservation *)

(** Replacing one Session's log by a well-formed one with the same
    observation leases. *)
Lemma store_wf_update st sid log log' :
  store_wf st → st_sessions st !! sid = Some log →
  log_wf (st_stream_shutdown st) sid log' →
  log_in_flight_observations log' = log_in_flight_observations log →
  store_wf (set_sessions <[sid := log']> st).
Proof.
  intros [] Hlog Hwf Ho. constructor; cbn.
  - intros i l Hi. destruct (decide (i = sid)) as [->|].
    + rewrite lookup_insert_eq in Hi. by simplify_eq.
    + rewrite lookup_insert_ne in Hi by done. eauto.
  - rewrite dom_insert. apply elem_of_dom_2 in Hlog. set_solver.
  - intros lease ls (l & Hl & Hr)%sw_lease_session0.
    destruct (decide (ls_session_id ls = sid)) as [Heq|].
    + rewrite Heq in *. rewrite lookup_insert_eq. exists log'. split; [done|].
      rewrite Ho. by simplify_eq.
    + rewrite lookup_insert_ne by done. eauto.
  - intros i l lease Hi Hin. destruct (decide (i = sid)) as [->|].
    + rewrite lookup_insert_eq in Hi. simplify_eq. rewrite Ho in Hin. eauto.
    + rewrite lookup_insert_ne in Hi by done. eauto.
  - intros i tail (? & ? & Hi)%sw_closed0. split_and!; [done..|].
    rewrite lookup_insert_ne; [done|congruence].
Qed.

Lemma new_store_wf config : store_wf (with_event_stream_config config).
Proof. constructor; cbn; set_solver. Qed.

Lemma append_wf st eid p r st' :
  store_wf st → append eid p st = (r, st') → store_wf st'.
Proof.
  intros Hwf [[-> _]|(log & sequence & t & (? & ? & Hs & Hlog) & ? & ? & ? & _ & ->)]
    %append_cases; [done|].
  eapply store_wf_update; [done|done| |by apply appended_info].
  rewrite Hs. apply appended_wf; try done.
  rewrite <-Hs. by apply sw_logs.
Qed.

Lemma end_wf st eid c r st' :
  store_wf st → end_session eid c st = (r, st') → store_wf st'.
Proof.
  intros Hwf [[-> _]|(log & sequence & ? & Hs & Hlog & ? & ? & ? & ? & ? & _ & ->)]
    %end_cases; [done|].
  eapply store_wf_update; [done|done| |done].
  rewrite Hs. apply ended_wf; try done. rewrite <-Hs. by apply sw_logs.
Qed.

Lemma started_wf eid c :
  start_at_ms c <= MAX_SAFE_INTEGER →
  log_wf false (start_session_id c) (started eid c).
Proof.
  intros Ht. constructor; cbn; try done.
  - by constructor.
  - eexists _, []. split_and!; [| |done]; done.
  - intros i e Hi. apply list_lookup_singleton_Some in Hi as [-> <-]. done.
Qed.

Lemma start_wf st eid c r st' :
  store_wf st → start_session eid c st = (r, st') → store_wf st'.
Proof.
  intros Hwf [[-> _]|(Ht & Hs & Hfresh & _ & ->)]%start_cases; [done|].
  destruct Hwf. constructor; cbn.
  - intros i l Hi. destruct (decide (i = start_session_id c)) as [->|].
    + rewrite lookup_insert_eq in Hi. simplify_eq. rewrite Hs.
      by apply started_wf.
    + rewrite lookup_insert_ne in Hi by done. eauto.
  - set_solver.
  - intros lease ls (l & Hl & Hr)%sw_lease_session0.
    exists l. rewrite lookup_insert_ne; [done|].
    intros Heq. rewrite <-Heq in Hl. apply elem_of_dom_2 in Hl. set_solver.
  - intros i l lease Hi Hin. destruct (decide (i = start_session_id c)) as [->|].
    + rewrite lookup_insert_eq in Hi. simplify_eq. set_solver.
    + rewrite lookup_insert_ne in Hi by done. eauto.
  - intros i tail (? & ? & Hi)%sw_closed0. split_and!; [done|set_solver|].
    rewrite lookup_insert_ne; [done|]. set_solver.
Qed.

Lemma set_observations_wf b sid log f :
  log_wf b sid log → (si_state (log_info log) = Ended → f ∅ = ∅) →
  log_wf b sid (set_observations f log).
Proof.
  intros [] Hf. constructor; try done. cbn. intros He.
  destruct (lw_quiescent0 He) as (? & ? & ->). auto.
Qed.

(** Reserving and releasing touch one Session's lease set and one lease. *)
Lemma lease_update_wf st sid log f lease released :
  store_wf st → st_sessions st !! sid = Some log →
  log_wf (st_stream_shutdown st) sid (set_observations f log) →
  (∀ l, l ∈ f (log_in_flight_observations log) ↔
     (l = lease ∧ released = false) ∨
     (l ≠ lease ∧ l ∈ log_in_flight_observations log)) →
  (∀ ls, st_observation_leases st !! lease = Some ls → ls_session_id ls = sid) →
  store_wf (set_leases <[lease := mkObservationLeaseState sid released]>
    (set_sessions <[sid := set_observations f log]> st)).
Proof.
  intros Hwf Hlog Hlw Hf Hls. destruct Hwf. constructor; cbn.
  - intros i l Hi. destruct (decide (i = sid)) as [->|].
    + rewrite lookup_insert_eq in Hi. by simplify_eq.
    + rewrite lookup_insert_ne in Hi by done. eauto.
  - rewrite dom_insert. apply elem_of_dom_2 in Hlog. set_solver.
  - intros l ls Hl. destruct (decide (l = lease)) as [->|Hne].
    + rewrite lookup_insert_eq in Hl. simplify_eq. cbn.
      rewrite lookup_insert_eq. eexists. split; [done|]. cbn. naive_solver.
    + rewrite lookup_insert_ne in Hl by done.
      apply sw_lease_session0 in Hl as (l' & Hl' & Hr).
      destruct (decide (ls_session_id ls = sid)) as [Heq|].
      * rewrite Heq in *. rewrite lookup_insert_eq. eexists. split; [done|]. cbn. naive_solver.
      * rewrite lookup_insert_ne by done. eauto.
  - intros i l lease' Hi Hin. destruct (decide (i = sid)) as [->|].
    + rewrite lookup_insert_eq in Hi. simplify_eq. cbn in Hin.
      apply Hf in Hin as [[-> ->]|[? ?]]; [by rewrite lookup_insert_eq|].
      rewrite lookup_insert_ne by done. eauto.
    + rewrite lookup_insert_ne in Hi by done.
      pose proof (sw_in_flight0 _ _ _ Hi Hin) as Hl.
      rewrite lookup_insert_ne; [done|]. intros <-. naive_solver.
  - intros i tail (? & ? & Hi)%sw_closed0. split_and!; [done..|].
    rewrite lookup_insert_ne; [done|congruence].
Qed.

Lemma reserve_wf st draws sid r st' :
  store_wf st → reserve_observation draws sid st = (r, st') → store_wf st'.
Proof.
  intros Hwf [[-> _]|(log & lease & _ & Hs & Hlog & Ha & Hfresh & ->)]
    %reserve_cases; [done|].
  assert (lease ∉ log_in_flight_observations log) as Hnew.
  { intros Hin. by rewrite (sw_in_flight _ Hwf _ _ _ Hlog Hin) in Hfresh. }
  apply lease_update_wf; [done|done| |set_solver|congruence].
  apply set_observations_wf; [by apply sw_logs|congruence].
Qed.

Lemma release_wf st sid lease r st' :
  store_wf st → release_observation sid lease st = (r, st') → store_wf st'.
Proof.
  intros Hwf [[-> _]|(log & _ & Hlog & Hl & Hin & ->)]%release_cases; [done|].
  apply lease_update_wf; [done|done| |set_solver|naive_solver].
  apply set_observations_wf; [by apply sw_logs|set_solver].
Qed.

Lemma delete_wf st sid r st' :
  store_wf st → delete_ended sid st = (r, st') → store_wf st'.
Proof.
  intros Hwf [[-> _]|(log & _ & Hlog & He & ->)]%delete_cases; [done|].
  pose proof (sw_logs _ Hwf _ _ Hlog) as Hlw. destruct Hwf. constructor; cbn.
  - intros i l [_ Hi]%lookup_delete_Some. eauto.
  - set_solver.
  - intros lease ls [Hl Hne]%map_lookup_filter_Some. cbn in Hne.
    apply sw_lease_session0 in Hl as (l & Hl & Hr).
    exists l. by rewrite lookup_delete_ne.
  - intros i l lease [Hne Hi]%lookup_delete_Some Hin.
    apply map_lookup_filter_Some. eauto.
  - intros i tail Hi. destruct (decide (i = sid)) as [->|].
    + rewrite lookup_insert_eq in Hi. simplify_eq. rewrite lookup_delete_eq.
      split_and!; [|apply elem_of_dom_2 in Hlog; set_solver|done].
      destruct Hlw. exists (st_stream_shutdown st), (log_events log).
      rewrite He in lw_lifecycle0. rewrite lw_last0, lw_tail0. done.
    + rewrite lookup_insert_ne in Hi by done. rewrite lookup_delete_ne by done.
      eauto.
Qed.

Lemma send_shutdown_wf sid log :
  log_wf false sid log → log_wf true sid (send SigStoreShutdown log).
Proof.
  intros []. constructor; try done. cbn. rewrite lw_tail0. unfold published.
  by rewrite app_nil_r.
Qed.

Lemma shutdown_wf st r st' :
  store_wf st → begin_stream_shutdown st = (r, st') → store_wf st'.
Proof.
  intros Hwf. unfold begin_stream_shutdown, mbind, M_bind, get. cbn.
  destruct (st_stream_shutdown st) eqn:Hs; intros [= _ <-]; [done|].
  destruct Hwf. constructor; cbn; try done.
  - intros i l (l' & <- & Hi)%lookup_fmap_Some. apply send_shutdown_wf.
    rewrite <-Hs. eauto.
  - by rewrite dom_fmap.
  - intros lease ls (l & Hl & Hr)%sw_lease_session0.
    exists (send SigStoreShutdown l). by rewrite lookup_fmap, Hl.
  - intros i l lease (l' & <- & Hi)%lookup_fmap_Some Hin. eauto.
  - intros i tail (? & ? & Hi)%sw_closed0. by rewrite lookup_fmap, Hi.
Qed.

#[export] Hint Resolve new_store_wf append_wf end_wf start_wf reserve_wf release_wf
  delete_wf shutdown_wf : rail.

Lemma apply_op_wf op st : store_wf st → store_wf (apply_op op st).
Proof.
  intros Hwf. destruct op; cbn;
    match goal with |- store_wf (snd ?m) => destruct m eqn:? end; cbn;
    eauto with rail.
Qed.

Lemma reachable_wf config st : reachable config st → store_wf st.
Proof. induction 1; auto using apply_op_wf with rail. Qed.

Lemma reachable_run config st ops :
  reachable config st → reachable config (run_ops ops st).
Proof.
  revert st. induction ops as [|op ops IH]; intros st H; [done|].
  apply IH. by constructor.
Qed.

(** ** How one operation changes one Session *)

(** A log only grows, and not at all once it has ended. *)
Definition log_evolves (log log' : SessionLog) : Prop :=
  log_events log `prefix_of` log_events log' ∧
  si_started_at_ms (log_info log') = si_started_at_ms (log_info log) ∧
  (si_state (log_info log) = Ended →
   log_events log' = log_events log ∧ log_info log' = log_info log).

#[global] Instance log_evolves_preorder : PreOrder log_evolves.
Proof.
  split.
  - intros log. by split_and!.
  - intros l1 l2 l3 (Hp & Ht & He) (Hp' & Ht' & He'). split_and!.
    + by etrans.
    + congruence.
    + intros H. destruct (He H) as [? Hi]. rewrite <-Hi in H.
      destruct (He' H). split; congruence.
Qed.

Lemma appended_evolves e t log :
  si_state (log_info log) = Active → log_evolves log (appended e t log).
Proof.
  intros Ha. destruct (appended_info e t log) as (Hi & He & _).
  unfold log_evolves. rewrite Hi, He. split_and!; [by eexists|done|congruence].
Qed.

Lemma lookup_update st sid log' i log :
  st_sessions st !! i = Some log →
  (i = sid → log_evolves log log') →
  ∃ l', <[sid := log']> (st_sessions st) !! i = Some l' ∧ log_evolves log l'.
Proof.
  intros Hi Hev. destruct (decide (i = sid)) as [->|].
  - rewrite lookup_insert_eq. eauto.
  - rewrite lookup_insert_ne by done. by exists log.
Qed.

Lemma apply_op_session op st i log :
  store_wf st → st_sessions st !! i = Some log →
  (∃ log', st_sessions (apply_op op st) !! i = Some log' ∧ log_evolves log log') ∨
  (op = OpDelete i ∧ si_state (log_info log) = Ended ∧
   st_sessions (apply_op op st) !! i = None).
Proof.
  intros Hwf Hi.
  assert (∃ l, st_sessions st !! i = Some l ∧ log_evolves log l) as Hsame
    by (by exists log).
  destruct op as [eid c|draws sid|sid lease|eid p|eid c|sid|]; cbn.
  - destruct (start_session eid c st) eqn:H. left.
    apply start_cases in H as [[-> _]|(? & ? & Hf & _ & ->)]; [done|].
    apply lookup_update; [done|]. intros ->.
    apply elem_of_dom_2, (sw_used _ Hwf) in Hi. done.
  - destruct (reserve_observation draws sid st) eqn:H. left.
    apply reserve_cases in H as [[-> _]|(l & ? & _ & _ & Hl & _ & _ & ->)]; [done|].
    apply lookup_update; [done|]. intros ->. by simplify_eq.
  - destruct (release_observation sid lease st) eqn:H. left.
    apply release_cases in H as [[-> _]|(l & _ & Hl & _ & _ & ->)]; [done|].
    apply lookup_update; [done|]. intros ->. by simplify_eq.
  - destruct (append eid p st) eqn:H. left.
    apply append_cases in H as [[-> _]|(l & ? & ? & Ho & ? & _ & _ & _ & ->)]; [done|].
    apply lookup_update; [done|]. intros ->. destruct Ho as (_ & _ & _ & Ho).
    simplify_eq. by apply appended_evolves.
  - destruct (end_session eid c st) eqn:H. left.
    apply end_cases in H
      as [[-> _]|(l & ? & _ & _ & Hl & Ha & _ & _ & _ & _ & _ & ->)]; [done|].
    apply lookup_update; [done|]. intros ->. simplify_eq.
    split_and!; [by eexists|done|congruence].
  - destruct (delete_ended sid st) eqn:H.
    apply delete_cases in H as [[-> _]|(l & _ & Hl & He & ->)]; [by left|]. cbn.
    destruct (decide (sid = i)) as [->|].
    + right. rewrite lookup_delete_eq. by simplify_eq.
    + left. by rewrite lookup_delete_ne.
  - left. unfold begin_stream_shutdown, mbind, M_bind, get. cbn.
    destruct (st_stream_shutdown st); [done|]. cbn. rewrite lookup_fmap, Hi.
    eexists. split; [done|]. by split_and!.
Qed.

(** A used Session id that has no log never gets one again. *)
Lemma apply_op_tombstone op st i :
  i ∈ st_used_session_ids st → st_sessions st !! i = None →
  i ∈ st_used_session_ids (apply_op op st) ∧
  st_sessions (apply_op op st) !! i = None.
Proof.
  intros Hu Hi.
  destruct op as [eid c|draws sid|sid lease|eid p|eid c|sid|]; cbn.
  - destruct (start_session eid c st) eqn:H.
    apply start_cases in H as [[-> _]|(? & ? & Hf & _ & ->)]; [done|]. cbn.
    rewrite lookup_insert_ne by congruence. set_solver.
  - destruct (reserve_observation draws sid st) eqn:H.
    apply reserve_cases in H as [[-> _]|(l & ? & _ & _ & Hl & _ & _ & ->)]; [done|].
    cbn. by rewrite lookup_insert_ne by congruence.
  - destruct (release_observation sid lease st) eqn:H.
    apply release_cases in H as [[-> _]|(l & _ & Hl & _ & _ & ->)]; [done|].
    cbn. by rewrite lookup_insert_ne by congruence.
  - destruct (append eid p st) eqn:H.
    apply append_cases in H as [[-> _]|(l & ? & ? & Ho & ? & _ & _ & _ & ->)]; [done|].
    destruct Ho as (_ & _ & _ & Ho). cbn. by rewrite lookup_insert_ne by congruence.
  - destruct (end_session eid c st) eqn:H.
    apply end_cases in H
      as [[-> _]|(l & ? & _ & _ & Hl & Ha & _ & _ & _ & _ & _ & ->)]; [done|].
    cbn. by rewrite lookup_insert_ne by congruence.
  - destruct (delete_ended sid st) eqn:H.
    apply delete_cases in H as [[-> _]|(l & _ & Hl & He & ->)]; [done|]. cbn.
    split; [done|]. by apply lookup_delete_None; right.
  - unfold begin_stream_shutdown, mbind, M_bind, get. cbn.
    destruct (st_stream_shutdown st); [done|]. cbn. by rewrite lookup_fmap, Hi.
Qed.

Lemma run_ops_tombstone ops st i :
  i ∈ st_used_session_ids st → st_sessions st !! i = None →
  i ∈ st_used_session_ids (run_ops ops st) ∧
  st_sessions (run_ops ops st) !! i = None.
Proof.
  revert st. induction ops as [|op ops IH]; intros st Hu Hn; [done|].
  by apply IH; apply apply_op_tombstone.
Qed.

Lemma delete_keeps_used sid st :
  st_used_session_ids (apply_op (OpDelete sid) st) = st_used_session_ids st.
Proof.
  cbn. destruct (delete_ended sid st) eqn:H.
  by apply delete_cases in H as [[-> _]|(? & _ & _ & _ & ->)].
Qed.

Lemma reachable_used config st sid log :
  reachable config st → st_sessions st !! sid = Some log →
  sid ∈ st_used_session_ids st.
Proof.
  intros Hr Hl. by apply elem_of_dom_2, (sw_used _ (reachable_wf _ _ Hr)) in Hl.
Qed.

(** A property of every Session log of every reachable store. *)
Lemma reachable_log config st sid log :
  reachable config st → st_sessions st !! sid = Some log →
  log_wf (st_stream_shutdown st) sid log.
Proof. intros Hr. by apply sw_logs, (reachable_wf config). Qed.
