(* ===== verification/Scenario.v ===== *)
(** * A recorded Session

    The inputs at which the development's theorems are evaluated: a Session on
    one device with an observation, an action, a screenshot stream of one
    frame and a verdict, driven through the Event Store's operations. *)

From S2P Require Import Prelude Protocol Evidence EventStream EventStore EventStoreInv.

Local Open Scope N_scope.

Definition sample_session : SessionId := 7.
Definition sample_device : DeviceId := "pixel-8".
Definition sample_request : option RpcId := Some (RpcNumber 3).
Definition sample_call : Uuid := 40.
Definition sample_stream : MediaStreamId := 60.
Definition sample_uuid_text (u : Uuid) : string := "00000000-0000-0000-0000-000000000007".

Definition sample_digest : Sha256Digest :=
  "00112233445566778899aabbccddeeff00112233445566778899aabbccddeeff".
Definition sample_asset : AssetRef := stored_asset_ref sample_digest "image/png".

(** A scale factor of 1.0 *)
Definition sample_viewport : Viewport :=
  mkViewport 1080 2400 (S754_finite false 4503599627370496 (-52)).

Definition sample_observation (id : Uuid) (at_ms : N) : Observation :=
  {| obs_id := id;
     obs_device_id := sample_device;
     obs_captured_at_ms := at_ms;
     obs_viewport := sample_viewport;
     obs_screenshot := Some sample_asset;
     obs_screenshot_omission := None;
     obs_ui_snapshot := None;
     obs_ui_snapshot_omission := None;
     obs_metadata := [] |}.

Definition sample_result : ActionResult :=
  {| res_call_id := sample_call;
     res_started_at_ms := 1010;
     res_finished_at_ms := 1040;
     res_output := JNull;
     res_before := None;
     res_after := Some (sample_observation 31 1040);
     res_evidence := [];
     res_execution := None |}.

Definition sample_pending (at_ms : N) (payload : TestEventPayload) : PendingEvent :=
  mkPendingEvent sample_session sample_request (Some sample_device) at_ms payload.

Definition sample_frame : PendingEvent :=
  sample_pending 1021 (MediaFrameCaptured
    (mkMediaFrame sample_stream 1 true (Some 33) sample_asset)).
Definition sample_verdict : PendingEvent :=
  sample_pending 1050 (VerdictRecorded (mkVerdict Pass "the screen is shown" [sample_asset])).

Definition sample_start : StartSession :=
  mkStartSession sample_session None (Some sample_device) 1000.
Definition sample_end : EndSession :=
  mkEndSession sample_session None (Some sample_device) 1060 Outcome_Completed None.

(** The Session up to the point where its stream and its action are open. *)
Definition opening_ops : list StoreOp :=
  [ OpStart 100 sample_start;
    OpReserve [501] sample_session;
    OpAppend 101 (sample_pending 1005 (ObservationCaptured (sample_observation 30 1005)));
    OpRelease sample_session 501;
    OpAppend 102 (sample_pending 1010 (ActionStarted
      (mkRecordedActionCall sample_call "tap" (JObject [("x", JNumber (PosInt 4))]) false)));
    OpAppend 103 (sample_pending 1020 (MediaStreamStarted
      (mkMediaStreamInfo sample_stream Screenshot "image/png" (Some sample_viewport)))) ].

Definition closing_ops : list StoreOp :=
  [ OpAppend 104 sample_frame;
    OpAppend 105 (sample_pending 1030 (MediaStreamEnded sample_stream 1));
    OpAppend 106 (sample_pending 1040 (ActionCompleted sample_call (Succeeded sample_result))) ].

Definition new_store : MemoryEventStore :=
  with_event_stream_config EventStreamConfig_default.
Definition opening_store : MemoryEventStore := run_ops opening_ops new_store.
Definition quiescent_store : MemoryEventStore := run_ops closing_ops opening_store.
Definition ended_store : MemoryEventStore :=
  run_ops [OpAppend 107 sample_verdict; OpEnd 108 sample_end] quiescent_store.

Lemma opening_reachable : reachable EventStreamConfig_default opening_store.
Proof. apply reachable_run, reach_new. Qed.

Lemma quiescent_reachable : reachable EventStreamConfig_default quiescent_store.
Proof. apply reachable_run, opening_reachable. Qed.

Lemma ended_reachable : reachable EventStreamConfig_default ended_store.
Proof. apply reachable_run, quiescent_reachable. Qed.

Lemma closing_keeps_session : OpDelete sample_session ∉ closing_ops.
Proof.
  intros H. repeat (apply elem_of_cons in H as [H|H]; [discriminate|]).
  by apply elem_of_nil in H.
Qed.

#[export] Hint Resolve opening_reachable quiescent_reachable ended_reachable : rail.

(** Finds the sample Session's log by running the store. *)
Ltac run_log := eexists; split; [vm_compute; reflexivity|].
