(* ===== verification/EventStoreProps.v ===== *)
(** * Properties of the Event Store

    What [MemoryEventStore] promises its clients, in every state reachable
    from its construction by any sequence of operations: the logs it keeps,
    what an append does, what ending and deleting a Session require, leases,
    retries, and the read paths. *)

From S2P Require Import Prelude Protocol Evidence EventStream EventStore EventLog.
From S2P Require Import EventStoreInv Scenario.

Local Open Scope N_scope.

(** ** Shared lemmas *)

Definition retry_of (p : PendingEvent) (e : TestEvent) : Prop :=
  ev_request_id e = pe_request_id p ∧ ev_device_id e = pe_device_id p ∧
  ev_at_ms e = pe_at_ms p ∧
  TestEventPayload_eqb (ev_payload e) (pe_payload p) = true.

Lemma exact_media_retry_some log p e :
  exact_media_retry log p = Some e → e ∈ log_events log ∧ retry_of p e.
Proof.
  unfold exact_media_retry, retry_of. intros [Hin Hm]%find_some.
  apply in_rev, list_elem_of_In in Hin. inv_bools. rewrite N.eqb_eq in *. done.
Qed.

Lemma decide_append_existing log p e :
  decide_append log p = Ok (ReturnExisting e) → exact_media_retry log p = Some e.
Proof.
  unfold decide_append, decide_action_completed, decide_media_started,
    decide_media_frame, decide_media_ended.
  destruct (pe_payload p); try done.
  - by case_bool_decide.
  - intros H. inv_result.
  - intros H. repeat case_match; naive_solver.
  - intros H. repeat case_match; naive_solver.
  - intros H. repeat case_match; naive_solver.
Qed.

Lemma decide_append_refused log p eid sequence r log' :
  media_positive log →
  ¬ permitted (log_tracking log) (event_of eid sequence p) →
  append_locked eid p log = (r, log') →
  log' = log ∧ ∀ e, r = Ok e → e ∈ log_events log ∧ retry_of p e.
Proof.
  intros Hpos Hno [[-> Hr]|(q & t & _ & _ & Hd & _)]%append_locked_cases.
  - split; [done|]. intros e He.
    apply Hr in He as (_ & _ & He).
    by apply exact_media_retry_some, decide_append_existing.
  - destruct Hno. eapply decide_append_proceeds; eauto.
Qed.

Lemma append_locked_permitted sid eid p log :
  log_wf false sid log → si_state (log_info log) = Active →
  len (log_events log) < MAX_SAFE_INTEGER →
  permitted (log_tracking log) (event_of eid (len (log_events log) + 1) p) →
  ∃ t, decide_append log p = Ok (Proceed t) ∧
    let e := event_of eid (len (log_events log) + 1) p in
    append_locked eid p log = (Ok e, appended e t log).
Proof.
  intros Hwf Ha Hlen Hp.
  apply decide_append_proceeds in Hp as [t Ht]; [|by eapply media_positive_wf].
  exists t. split; [done|]. unfold append_locked, mbind, M_bind, get, lift, reject_if.
  rewrite Ha. cbn. unfold next_sequence. rewrite (lw_last _ _ _ Hwf).
  replace (EventSequence.checked_next (len (log_events log)))
    with (Some (len (log_events log) + 1))
    by (symmetry; apply checked_next_some; lia).
  cbn. by rewrite Ht.
Qed.

Lemma reachable_call_history config st sid log id :
  reachable config st → st_sessions st !! sid = Some log →
  call_history id (log_events log).
Proof. intros Hr Hl. by eapply legal_call_history, lw_legal, reachable_log. Qed.

(** What "nothing in flight" means in terms of the log and the leases. *)
Lemma observations_quiescent st sid log :
  store_wf st → st_sessions st !! sid = Some log →
  log_in_flight_observations log = ∅ ↔
  ∀ lease, st_observation_leases st !! lease ≠ Some (mkObservationLeaseState sid false).
Proof.
  intros Hwf Hl. split.
  - intros Ho lease (l & Hl' & Hin)%(sw_lease_session _ Hwf). cbn in *.
    simplify_eq. set_solver.
  - intros Hno. apply set_eq. intros lease. split; [|set_solver].
    intros Hin. by apply (sw_in_flight _ Hwf _ _ _ Hl), Hno in Hin.
Qed.

Lemma actions_quiescent b sid log :
  log_wf b sid log →
  log_in_flight log = ∅ ↔
  ∀ id, starts id (log_events log) ≠ [] → completions id (log_events log) ≠ [].
Proof.
  intros Hwf. change (log_in_flight log) with (tr_in_flight (log_tracking log)).
  rewrite (lw_tracking _ _ _ Hwf). split.
  - intros Hf id. destruct (legal_call_history id _ (lw_legal _ _ _ Hwf))
      as [(_ & _ & ? & _)|[(_ & s & _ & Hi & _)|(_ & _ & s & e & ? & ? & ? & _ & -> & _)]];
      [done| |done]. by rewrite Hf in Hi.
  - intros Hall. apply map_eq. intros id. rewrite lookup_empty.
    specialize (Hall id). destruct (legal_call_history id _ (lw_legal _ _ _ Hwf))
      as [(_ & ? & _)|[(_ & s & Hs & _ & Hc)|(_ & ? & _)]]; [done| |done].
    rewrite Hs, Hc in Hall. by destruct Hall.
Qed.

Lemma media_quiescent b sid log :
  log_wf b sid log →
  log_media_streams log = ∅ ↔
  ∀ id, stream_starts id (log_events log) ≠ [] → stream_ends id (log_events log) ≠ [].
Proof.
  intros Hwf. change (log_media_streams log) with (tr_media (log_tracking log)).
  rewrite (lw_tracking _ _ _ Hwf). split.
  - intros Hf id. destruct (legal_stream_history id _ (lw_legal _ _ _ Hwf))
      as [_ [(_ & _ & ? & _)|(_ & info & _ & _ & [(_ & Hm)|(-> & _)])]]; [done| |done].
    by rewrite Hf in Hm.
  - intros Hall. apply map_eq. intros id. rewrite lookup_empty.
    specialize (Hall id). destruct (legal_stream_history id _ (lw_legal _ _ _ Hwf))
      as [_ [(_ & ? & _)|(_ & info & Hs & _ & [(He & _)|(_ & ?)])]]; [done| |done].
    rewrite Hs, He in Hall. by destruct Hall.
Qed.

(** ** Theorems *)

(** C1: in every reachable store, every Session log starts with
    [SessionStarted], ends with [SessionEnded] exactly when the Session has
    ended, numbers its events 1, 2, 3, ... without gaps, agrees with the
    Session's metadata, contains only events the action and media state
    machine permits after the events before them, and the store's incremental
    bookkeeping (seen calls, calls in flight, seen and open media streams)
    equals the replay of the log. *)
Theorem reachable_logs_well_formed config st sid log :
  reachable config st → st_sessions st !! sid = Some log →
  lifecycle (si_state (log_info log)) (log_events log) ∧
  continues sid 0 (log_events log) ∧
  si_id (log_info log) = sid ∧
  si_event_count (log_info log) = len (log_events log) ∧
  si_last_sequence (log_info log) = len (log_events log) ∧
  len (log_events log) <= MAX_SAFE_INTEGER ∧
  legal (log_events log) ∧
  log_tracking log = replay (log_events log) ∧
  (si_state (log_info log) = Ended →
   log_in_flight log = ∅ ∧ log_media_streams log = ∅ ∧
   log_in_flight_observations log = ∅).
Proof. intros Hr Hl. by destruct (reachable_log _ _ _ _ Hr Hl). Qed.

(** C2: on an active Session of a reachable store, [append] accepts a new
    event exactly when the specification permits it after the log: it then
    stores and publishes the event with the next sequence number, and the
    bookkeeping stays the replay of the log. Any other request leaves the
    store as it was, and if it still returns an event, that event is already
    in the log and is an exact copy of the request. *)
Theorem append_refines_spec config st eid p log :
  reachable config st → append_open st p log →
  si_state (log_info log) = Active → len (log_events log) < MAX_SAFE_INTEGER →
  let e := event_of eid (len (log_events log) + 1) p in
  (permitted (replay (log_events log)) e →
   ∃ log', append eid p st = (Ok e, set_sessions <[pe_session_id p := log']> st) ∧
     log_events log' = log_events log ++ [e] ∧
     log_tracking log' = replay (log_events log ++ [e]) ∧
     log_stream_tail log' = log_stream_tail log ++ [SigEvent e]) ∧
  (¬ permitted (replay (log_events log)) e →
   snd (append eid p st) = st ∧
   ∀ e', fst (append eid p st) = Ok e' → e' ∈ log_events log ∧ retry_of p e').
Proof.
  intros Hr Ho Ha Hlen. cbv zeta. destruct (id Ho) as (_ & _ & Hs & Hl).
  pose proof (reachable_log _ _ _ _ Hr Hl) as Hwf. rewrite Hs in Hwf.
  pose proof (media_positive_wf _ _ _ Hwf) as Hpos.
  rewrite (append_run st eid p log Ho), <-(lw_tracking _ _ _ Hwf). split.
  - intros (t & Hd & Hrun)%(append_locked_permitted _ _ _ _ Hwf Ha Hlen).
    rewrite Hrun. eexists. split; [done|]. cbn [fst snd].
    destruct (appended_info (event_of eid (len (log_events log) + 1) p) t log)
      as (_ & -> & -> & _).
    rewrite replay_snoc, <-(lw_tracking _ _ _ Hwf).
    by rewrite appended_tracking.
  - intros Hno. destruct (append_locked eid p log) as [r log'] eqn:Hrun.
    apply (decide_append_refused _ _ _ _ _ _ Hpos Hno) in Hrun as [-> Hr'].
    cbn. by rewrite set_sessions_id.
Qed.

(** C3: in an ended Session every action call was either never mentioned or
    started exactly once and completed exactly once, later, by an event with
    the request and device of its start. *)
Theorem ended_session_pairs_actions config st sid log id :
  reachable config st → st_sessions st !! sid = Some log →
  si_state (log_info log) = Ended →
  (starts id (log_events log) = [] ∧ completions id (log_events log) = []) ∨
  ∃ s c pre mid post, starts id (log_events log) = [s] ∧
    completions id (log_events log) = [c] ∧ correlation s = correlation c ∧
    log_events log = pre ++ s :: mid ++ c :: post.
Proof.
  intros Hr Hl He.
  destruct (reachable_call_history _ _ _ _ id Hr Hl)
    as [(_ & _ & ? & ?)|[(_ & s & _ & Hi & _)|(_ & _ & ?)]]; [by left| |by right].
  pose proof (reachable_log _ _ _ _ Hr Hl) as Hwf.
  rewrite <-(lw_tracking _ _ _ Hwf) in Hi. cbn in Hi.
  destruct (lw_quiescent _ _ _ Hwf He) as [Hf _]. by rewrite Hf in Hi.
Qed.

(** C4: in an ended Session every media stream was either never mentioned or
    was started exactly once and ended exactly once; its frames are numbered
    1, 2, ..., n, carry the media type of the stream, and the recorded frame
    count is n. *)
Theorem ended_session_media_complete config st sid log id :
  reachable config st → st_sessions st !! sid = Some log →
  si_state (log_info log) = Ended →
  let fs := frames id (log_events log) in
  mf_frame_index <$> fs = indices (length fs) ∧
  ((stream_starts id (log_events log) = [] ∧ fs = [] ∧
    stream_ends id (log_events log) = []) ∨
   ∃ info, stream_starts id (log_events log) = [info] ∧
     Forall (λ f, ar_media_type (mf_evidence f) = ms_media_type info) fs ∧
     stream_ends id (log_events log) = [len fs]).
Proof.
  intros Hr Hl He. pose proof (reachable_log _ _ _ _ Hr Hl) as Hwf.
  destruct (legal_stream_history id _ (lw_legal _ _ _ Hwf))
    as [? [(_ & _ & ?)|(_ & info & ? & ? & [(_ & Hm)|(? & _)])]];
    (split; [done|]); [by left| |by right; eauto].
  rewrite <-(lw_tracking _ _ _ Hwf) in Hm. cbn in Hm.
  destruct (lw_quiescent _ _ _ Hwf He) as (_ & Hq & _). by rewrite Hq in Hm.
Qed.

(** C5: whatever operations follow, a Session's log is only ever extended,
    an ended log and its metadata never change, and a log disappears only by
    a deletion request that found the Session ended. *)
Theorem history_is_append_only config st ops sid log :
  reachable config st → st_sessions st !! sid = Some log →
  (∃ log', st_sessions (run_ops ops st) !! sid = Some log' ∧ log_evolves log log') ∨
  (∃ ops1 ops2 log1, ops = ops1 ++ OpDelete sid :: ops2 ∧
     st_sessions (run_ops ops1 st) !! sid = Some log1 ∧
     si_state (log_info log1) = Ended ∧ log_evolves log log1 ∧
     st_sessions (run_ops ops st) !! sid = None).
Proof.
  revert st log. induction ops as [|op ops IH]; intros st log Hr Hl.
  { left. by exists log. }
  destruct (apply_op_session op st sid log (reachable_wf _ _ Hr) Hl)
    as [(l & Hl' & Hev)|(-> & He & Hn)].
  - destruct (IH _ _ (reach_op _ _ op Hr) Hl')
      as [(l' & ? & ?)|(ops1 & ops2 & l1 & -> & ? & ? & ? & ?)].
    + left. exists l'. split; [done|]. by etrans.
    + right. exists (op :: ops1), ops2, l1. split_and!; try done. by etrans.
  - right. exists [], ops, log. split_and!; try done.
    apply (run_ops_tombstone ops) in Hn as [_ ?]; [done|].
    rewrite delete_keeps_used. by eapply reachable_used.
Qed.

(** The id of a deleted Session is never reused: after the deletion, no
    sequence of operations brings the Session back, and starting a Session
    with that id fails. *)
Theorem deleted_session_id_stays_used config st sid st' ops eid c :
  reachable config st → delete_ended sid st = (Ok (), st') →
  start_session_id c = sid →
  st_sessions (run_ops ops st') !! sid = None ∧
  is_err (fst (start_session eid c (run_ops ops st'))) = true.
Proof.
  intros Hr Hd Hc.
  apply delete_cases in Hd as [[_ ?]|(log & _ & Hl & He & Hst)]; [done|].
  assert (sid ∈ st_used_session_ids (run_ops ops st') ∧
    st_sessions (run_ops ops st') !! sid = None) as [Hu ?].
  { apply run_ops_tombstone; rewrite Hst; cbn; [|by rewrite lookup_delete_eq].
    by eapply reachable_used. }
  split; [done|]. destruct (start_session _ _ _) as [r s] eqn:Hs.
  apply start_cases in Hs as [[_ ?]|(_ & _ & Hf & _)]; [done|congruence].
Qed.

(** C7: an operation that returns an error leaves the store as it was. *)
Theorem failed_operations_change_nothing eid start finish sid draws lease p :
  fails_unchanged (start_session eid start) ∧
  fails_unchanged (reserve_observation draws sid) ∧
  fails_unchanged (release_observation sid lease) ∧
  fails_unchanged (append eid p) ∧
  fails_unchanged (end_session eid finish) ∧
  fails_unchanged (delete_ended sid) ∧
  fails_unchanged begin_stream_shutdown.
Proof.
  split_and!; intros st e st'.
  - by intros [[-> _]|(? & ? & ? & ? & ?)]%start_cases.
  - by intros [[-> _]|(? & ? & ? & _)]%reserve_cases.
  - by intros [[-> _]|(? & ? & _)]%release_cases.
  - by intros [[-> _]|(? & ? & ? & _ & _ & _ & _ & ? & _)]%append_cases.
  - by intros [[-> _]|(? & ? & _ & _ & _ & _ & _ & _ & _ & _ & ? & _)]%end_cases.
  - by intros [[-> _]|(? & ? & _)]%delete_cases.
  - unfold begin_stream_shutdown, mbind, M_bind, get. cbn.
    by destruct (st_stream_shutdown st).
Qed.

(** [end_session] on a Session that can be ended. *)
Lemma end_session_runs st eid c log sequence :
  end_at_ms c <= MAX_SAFE_INTEGER → st_stream_shutdown st = false →
  st_sessions st !! end_session_id c = Some log →
  si_state (log_info log) = Active → log_in_flight_observations log = ∅ →
  log_in_flight log = ∅ → log_media_streams log = ∅ →
  next_sequence log = Ok sequence →
  is_ok (fst (end_session eid c st)) = true.
Proof.
  intros Ht%(ensure_timestamp_ok _ ()) Hs Hl Ha Ho Hf Hm Hn. unfold end_session.
  rewrite Ht. unfold mbind, M_bind, lift, get, get_log, ensure_running, with_log.
  repeat (rewrite ?Hs, ?Hl; cbn). unfold end_locked.
  unfold mbind, M_bind, lift, get, gets, modify, reject_if.
  rewrite size_zero_empty. by rewrite Ha, Ho, Hf, Hm, Hn.
Qed.

(** C8: an active Session of a reachable, running store can be ended exactly
    when nothing is in flight: every observation lease of the Session has
    been released, every started action is completed and every started media
    stream is ended in the log. (The request's time and the next sequence
    number must be representable.) *)
Theorem end_session_iff_quiescent config st eid c log :
  reachable config st → st_stream_shutdown st = false →
  end_at_ms c <= MAX_SAFE_INTEGER →
  st_sessions st !! end_session_id c = Some log →
  si_state (log_info log) = Active → len (log_events log) < MAX_SAFE_INTEGER →
  is_ok (fst (end_session eid c st)) = true ↔
  (∀ lease, st_observation_leases st !! lease ≠
     Some (mkObservationLeaseState (end_session_id c) false)) ∧
  (∀ id, starts id (log_events log) ≠ [] → completions id (log_events log) ≠ []) ∧
  (∀ id, stream_starts id (log_events log) ≠ [] →
     stream_ends id (log_events log) ≠ []).
Proof.
  intros Hr Hs Ht Hl Ha Hlen. pose proof (reachable_wf _ _ Hr) as Hsw.
  pose proof (reachable_log _ _ _ _ Hr Hl) as Hwf.
  rewrite <-(observations_quiescent _ _ _ Hsw Hl), <-(actions_quiescent _ _ _ Hwf),
    <-(media_quiescent _ _ _ Hwf). split.
  - destruct (end_session eid c st) as [r st'] eqn:He.
    apply end_cases in He as [[_ ?]|(l & ? & _ & _ & Hl' & _ & _ & ? & ? & ? & _)];
      [by destruct r|]. naive_solver.
  - intros (Ho & Hf & Hm). eapply end_session_runs; try done.
    unfold next_sequence. rewrite (lw_last _ _ _ Hwf).
    apply ok_or_ok, checked_next_some. split; [done|lia].
Qed.

(** ** Observation leases *)

(** A lease keeps its Session for as long as the Session is not deleted. *)
Lemma apply_op_lease op st lease ls :
  st_observation_leases st !! lease = Some ls → op ≠ OpDelete (ls_session_id ls) →
  ∃ released, st_observation_leases (apply_op op st) !! lease =
    Some (mkObservationLeaseState (ls_session_id ls) released).
Proof.
  intros Hl Hop.
  assert (∃ b, st_observation_leases st !! lease =
    Some (mkObservationLeaseState (ls_session_id ls) b)) as Hsame
    by (destruct ls; eauto).
  destruct op as [eid c|draws sid|sid l|eid p|eid c|sid|]; cbn.
  - destruct (start_session eid c st) eqn:H.
    by apply start_cases in H as [[-> _]|(_ & _ & _ & _ & ->)].
  - destruct (reserve_observation draws sid st) eqn:H.
    apply reserve_cases in H as [[-> _]|(? & l & _ & _ & _ & _ & Hn & ->)]; [done|].
    cbn. by rewrite lookup_insert_ne by congruence.
  - destruct (release_observation sid l st) eqn:H.
    apply release_cases in H as [[-> _]|(? & _ & _ & Hl' & _ & ->)]; [done|]. cbn.
    destruct (decide (l = lease)) as [->|]; [|by rewrite lookup_insert_ne].
    rewrite lookup_insert_eq. simplify_eq. eauto.
  - destruct (append eid p st) eqn:H.
    by apply append_cases in H as [[-> _]|(? & ? & ? & _ & _ & _ & _ & _ & ->)].
  - destruct (end_session eid c st) eqn:H.
    by apply end_cases in H
      as [[-> _]|(? & ? & _ & _ & _ & _ & _ & _ & _ & _ & _ & ->)].
  - destruct (delete_ended sid st) eqn:H.
    apply delete_cases in H as [[-> _]|(? & _ & _ & _ & ->)]; [done|]. cbn.
    destruct Hsame as [b Hb]. exists b. apply map_lookup_filter_Some.
    split; [done|]. cbn. congruence.
  - unfold begin_stream_shutdown, mbind, M_bind, get. cbn.
    by destruct (st_stream_shutdown st).
Qed.

Lemma run_ops_lease ops st lease sid b :
  st_observation_leases st !! lease = Some (mkObservationLeaseState sid b) →
  OpDelete sid ∉ ops →
  ∃ released, st_observation_leases (run_ops ops st) !! lease =
    Some (mkObservationLeaseState sid released).
Proof.
  revert st b. induction ops as [|op ops IH]; intros st b Hl Hops; [eauto|].
  destruct (apply_op_lease op st lease _ Hl) as [b' Hb']; [set_solver|].
  eapply IH; [done|set_solver].
Qed.

(** Releasing a lease of the table always succeeds, and leaves it released. *)
Lemma release_succeeds st sid lease b :
  store_wf st →
  st_observation_leases st !! lease = Some (mkObservationLeaseState sid b) →
  ∃ st', release_observation sid lease st = (Ok (), st') ∧
    st_observation_leases st' !! lease = Some (mkObservationLeaseState sid true) ∧
    (b = true → st' = st).
Proof.
  intros Hwf Hl. unfold release_observation, mbind, M_bind, get, lift.
  rewrite Hl. cbn. rewrite bool_decide_refl. cbn.
  destruct b; [by exists st|].
  destruct (sw_lease_session _ Hwf _ _ Hl) as (log & Hlog & Hin). cbn in *.
  rewrite Hlog. cbn. rewrite (bool_decide_true (lease ∈ _)) by auto. cbn.
  unfold with_log. rewrite Hlog. cbn. rewrite Hl. cbn. eexists. split; [done|].
  split; [|done]. cbn. by rewrite lookup_insert_eq.
Qed.

(** A reserved observation lease can be released at any later time for
    as long as its Session is not deleted, shutdown included, and whatever
    else happened; the release never hits an internal error, and a second
    release is a no-op that also succeeds. *)
Theorem observation_lease_releasable config st draws sid lease st1 ops :
  reachable config st →
  reserve_observation draws sid st = (Ok (Some lease), st1) →
  OpDelete sid ∉ ops →
  ∃ st2, release_observation sid lease (run_ops ops st1) = (Ok (), st2) ∧
    release_observation sid lease st2 = (Ok (), st2).
Proof.
  intros Hr Hres Hops.
  assert (reachable config st1) as Hr1.
  { replace st1 with (apply_op (OpReserve draws sid) st) by (cbn; by rewrite Hres).
    by constructor. }
  apply reserve_cases in Hres
    as [[_ [?|?]]|(log & l & [= <-] & _ & _ & _ & _ & Hst)]; [done..|].
  assert (st_observation_leases st1 !! lease =
    Some (mkObservationLeaseState sid false)) as Hl
    by (rewrite Hst; apply lookup_insert_eq).
  destruct (run_ops_lease ops st1 lease sid false Hl Hops) as [b Hb].
  pose proof (reachable_wf _ _ (reachable_run _ _ ops Hr1)) as Hwf.
  destruct (release_succeeds _ _ _ _ Hwf Hb) as (st2 & H2 & Hl2 & _).
  exists st2. split; [done|].
  destruct (release_succeeds st2 sid lease true) as (st3 & H3 & _ & H);
    [by eapply release_wf|done|]. by rewrite H in H3.
Qed.

(** ** Idempotent media retries *)

Definition is_media (p : TestEventPayload) : bool :=
  match p with
  | MediaStreamStarted _ | MediaFrameCaptured _ | MediaStreamEnded _ _ => true
  | _ => false
  end.

(** The most recent event answers its own retry. *)
Lemma exact_media_retry_last log p e :
  last (log_events log) = Some e → retry_of p e → exact_media_retry log p = Some e.
Proof.
  intros (l & Hl)%last_Some (Hq & Hd & Ht & Hp). unfold exact_media_retry.
  rewrite Hl, rev_app_distr. cbn. rewrite Hq, Hd, Ht, Hp.
  by rewrite !bool_decide_refl, N.eqb_refl.
Qed.

Lemma permitted_media_eqb t e :
  is_media (ev_payload e) = true → permitted t e →
  TestEventPayload_eqb (ev_payload e) (ev_payload e) = true.
Proof.
  unfold permitted. destruct (ev_payload e) as [| | | | |s|f|i n| |]; try done; cbn.
  - intros _ (_ & _ & Hv). apply MediaStreamInfo_eqb_refl. intros v Hs.
    rewrite Hs in Hv. cbn in Hv. unfold viewport_invalid in Hv. by inv_bools.
  - intros _ _. apply bool_decide_refl.
  - intros _ _. by rewrite bool_decide_refl, N.eqb_refl.
Qed.

(** After a media event was appended, the same request is answered from the
    log. *)
Lemma decide_append_retry log p eid sequence t :
  media_positive log → is_media (pe_payload p) = true →
  decide_append log p = Ok (Proceed t) →
  let e := event_of eid sequence p in
  decide_append (appended e t log) p = Ok (ReturnExisting e).
Proof.
  intros Hpos Hm Hd e. assert (permitted (log_tracking log) e) as Hperm
    by (eapply decide_append_proceeds; eauto).
  assert (exact_media_retry (appended e t log) p = Some e) as Hretry.
  { apply exact_media_retry_last; [|split_and!; try done; by eapply permitted_media_eqb].
    destruct (appended_info e t log) as (_ & -> & _). apply last_snoc. }
  revert Hd. unfold decide_append. destruct (pe_payload p) as [| | | | |s|f|i n| |];
    try done.
  - intros [-> _]%decide_media_started_proceeds. unfold decide_media_started.
    rewrite Hretry. cbn. rewrite lookup_insert_eq. cbn.
    by rewrite bool_decide_true by set_solver.
  - intros [-> (s & Hs & Hi & _)]%decide_media_frame_proceeds.
    unfold decide_media_frame. rewrite Hretry. cbn.
    rewrite lookup_alter_eq, Hs. cbn. unfold EventSequence.get. rewrite Hi.
    destruct (N.eqb_spec (mss_next_frame_index s) (mss_next_frame_index s + 1));
      [lia|]. by destruct (N.ltb_spec (mss_next_frame_index s)
        (mss_next_frame_index s + 1)); [|lia].
  - intros [-> _]%decide_media_ended_proceeds; [|done].
    unfold decide_media_ended. rewrite Hretry. cbn. by rewrite lookup_delete_eq.
Qed.

(** Repeating a media append that succeeded, with any fresh event id,
    returns the stored event and changes nothing (as long as the Session has
    a sequence number left, which [append] checks before it looks for the
    retry). *)
Theorem media_append_is_idempotent config st eid eid' p e st' :
  reachable config st → is_media (pe_payload p) = true →
  append eid p st = (Ok e, st') → ev_sequence e < MAX_SAFE_INTEGER →
  append eid' p st' = (Ok e, st').
Proof.
  intros Hr Hm [[-> He]|(log & q & t & Ho & Ha & Hn & Hd & [= ->] & ->)]%append_cases Hq.
  - destruct (He e) as (log & Ho & Hret); [done|].
    rewrite (append_run _ _ _ _ Ho), (append_locked_retried _ _ _ _ Hret). cbn.
    by rewrite set_sessions_id by apply Ho.
  - destruct (id Ho) as (? & ? & Hs & Hl). cbn in Hq.
    pose proof (reachable_log _ _ _ _ Hr Hl) as Hwf. rewrite Hs in Hwf.
    set (e := event_of eid q p). set (log' := appended e t log).
    set (st1 := set_sessions _ st).
    destruct (next_sequence_wf _ _ _ _ Hwf Hn) as [Hlen _].
    assert (append_open st1 p log') as Ho1
      by (split_and!; try done; apply lookup_insert_eq).
    destruct (appended_info e t log) as (Hi & _).
    assert (retried log' p e) as Hret.
    { split_and!; [by unfold log'; rewrite Hi| |].
      - unfold next_sequence, log'. rewrite Hi. cbn.
        replace (EventSequence.checked_next q) with (Some (q + 1)); [done|].
        symmetry. apply checked_next_some. lia.
      - apply decide_append_retry; [by eapply media_positive_wf|done..]. }
    rewrite (append_run _ _ _ _ Ho1), (append_locked_retried _ _ _ _ Hret). cbn.
    by rewrite set_sessions_id by apply Ho1.
Qed.

(** ** The theorems at the sample Session *)

Lemma reachable_logs_well_formed_witness :
  ∃ log, st_sessions ended_store !! sample_session = Some log ∧
    len (log_events log) = 9 ∧ lifecycle Ended (log_events log) ∧
    legal (log_events log).
Proof.
  run_log.
  edestruct (reachable_logs_well_formed EventStreamConfig_default ended_store
    sample_session) as (Hl & _ & _ & _ & _ & _ & Hg & _);
    [exact ended_reachable|vm_compute; reflexivity|].
  split; [vm_compute; reflexivity|]. split; [exact Hl|exact Hg].
Defined.

Lemma append_refines_spec_witness :
  ∃ log, st_sessions opening_store !! sample_session = Some log ∧
    let e := event_of 104 (len (log_events log) + 1) sample_frame in
    ∃ log', append 104 sample_frame opening_store =
      (Ok e, set_sessions <[pe_session_id sample_frame := log']> opening_store) ∧
    log_events log' = log_events log ++ [e].
Proof.
  run_log.
  edestruct (append_refines_spec EventStreamConfig_default opening_store 104 sample_frame)
    as [H _]; [exact opening_reachable
      |split_and!; [vm_compute; discriminate|vm_compute; reflexivity..]
      |vm_compute; reflexivity..|].
  lapply H; [intros (log' & Ha & He & _); exists log'; split; [exact Ha|exact He]|].
  eexists. split; [vm_compute; reflexivity|].
  split_and!; [vm_compute; reflexivity..|vm_compute; discriminate].
Defined.

Lemma ended_session_pairs_actions_witness :
  ∃ log, st_sessions ended_store !! sample_session = Some log ∧
    ∃ s c pre mid post, starts sample_call (log_events log) = [s] ∧
      completions sample_call (log_events log) = [c] ∧ correlation s = correlation c ∧
      log_events log = pre ++ s :: mid ++ c :: post.
Proof.
  run_log.
  edestruct ended_session_pairs_actions
    with (st := ended_store) (sid := sample_session) (id := sample_call) as [[H _]|H];
    [exact ended_reachable|vm_compute; reflexivity..|discriminate H|exact H].
Defined.

Lemma ended_session_media_complete_witness :
  ∃ log, st_sessions ended_store !! sample_session = Some log ∧
    ∃ info, stream_starts sample_stream (log_events log) = [info] ∧
      stream_ends sample_stream (log_events log) =
        [len (frames sample_stream (log_events log))].
Proof.
  run_log.
  edestruct ended_session_media_complete
    with (st := ended_store) (sid := sample_session) (id := sample_stream) as [_ [[H _]|(info & H & _ & Hn)]];
    [exact ended_reachable|vm_compute; reflexivity..|discriminate H|].
  exists info. split; [exact H|exact Hn].
Defined.

Lemma history_is_append_only_witness :
  ∃ log, st_sessions opening_store !! sample_session = Some log ∧
    ∃ log', st_sessions quiescent_store !! sample_session = Some log' ∧
      log_evolves log log'.
Proof.
  run_log.
  edestruct (history_is_append_only EventStreamConfig_default opening_store closing_ops
    sample_session) as [H|(ops1 & ops2 & log1 & Hops & _)];
    [exact opening_reachable|vm_compute; reflexivity|exact H|].
  destruct closing_keeps_session. rewrite Hops. set_solver.
Defined.

Lemma deleted_session_id_stays_used_witness :
  ∃ st', delete_ended sample_session ended_store = (Ok (), st') ∧
    is_err (fst (start_session 109 sample_start (run_ops opening_ops st'))) = true.
Proof.
  run_log.
  eapply deleted_session_id_stays_used
    with (st := ended_store) (sid := sample_session);
    [exact ended_reachable|vm_compute; reflexivity..].
Defined.

Lemma end_session_iff_quiescent_witness :
  ∃ log, st_sessions quiescent_store !! sample_session = Some log ∧
    ∀ id, starts id (log_events log) ≠ [] → completions id (log_events log) ≠ [].
Proof.
  run_log.
  eapply (end_session_iff_quiescent EventStreamConfig_default quiescent_store 108
    sample_end); [exact quiescent_reachable|vm_compute; reflexivity|
    vm_compute; discriminate|vm_compute; reflexivity..].
Defined.

Lemma observation_lease_releasable_witness :
  ∃ st1, reserve_observation [502] sample_session opening_store = (Ok (Some 502), st1) ∧
    ∃ st2, release_observation sample_session 502 (run_ops closing_ops st1) = (Ok (), st2) ∧
      release_observation sample_session 502 st2 = (Ok (), st2).
Proof.
  run_log.
  eapply (observation_lease_releasable EventStreamConfig_default opening_store [502]);
    [exact opening_reachable|vm_compute; reflexivity|exact closing_keeps_session].
Defined.

Lemma media_append_is_idempotent_witness :
  ∃ st', append 104 sample_frame opening_store =
      (Ok (event_of 104 5 sample_frame), st') ∧
    append 999 sample_frame st' = (Ok (event_of 104 5 sample_frame), st').
Proof.
  run_log.
  eapply (media_append_is_idempotent EventStreamConfig_default opening_store 104);
    [exact opening_reachable|vm_compute; reflexivity..].
Defined.
