(* ===== verification/EventStoreReads.v ===== *)
(** * The Event Store's read paths

    Paging through a log with the cursor helper of
    [crates/client/src/pagination.rs], the pages of an export, and the two
    scans of a Session's evidence and observations, against reference
    definitions. *)

From S2P Require Import Prelude Protocol Evidence EventStream EventStore EventLog.
From S2P Require Import EventStoreInv Scenario.

Local Open Scope N_scope.

(** ** Caller-driven pagination *)

(** [enum WatermarkError] *)
Inductive WatermarkError :=
| ExceedsSafeInteger (watermark max : N).

(** [after_sequence_from_watermark] *)
Definition after_sequence_from_watermark (watermark : N)
    : result WatermarkError (option EventSequence) :=
  if watermark =? 0 then Ok None else
  ok_or (Some <$> EventSequence.new watermark)
    (ExceedsSafeInteger watermark MAX_SAFE_INTEGER).

(** The caller of a paged method: it starts from a watermark, moves it to the
    sequence of the last event of each page, and stops at the first empty
    page. [None] when a call fails or the fuel runs out. *)
Fixpoint collect (fuel : nat)
    (fetch : option EventSequence → option (list TestEvent)) (watermark : N)
    : option (list TestEvent) :=
  match fuel with
  | O => None
  | S fuel =>
      match after_sequence_from_watermark watermark with
      | Err _ => None
      | Ok after =>
          page ← fetch after;
          match last page with
          | None => Some []
          | Some e =>
              rest ← collect fuel fetch (EventSequence.get (ev_sequence e));
              Some (page ++ rest)
          end
      end
  end.

Definition result_option {E A} (r : result E A) : option A :=
  match r with Ok a => Some a | Err _ => None end.

Lemma after_sequence_cursor w after :
  after_sequence_from_watermark w = Ok after → cursor after = w.
Proof.
  unfold after_sequence_from_watermark. destruct (N.eqb_spec w 0) as [->|].
  - by intros [= <-].
  - intros (s & [-> _]%EventSequence_new_some & ->)%ok_or_ok%fmap_Some. done.
Qed.

Lemma after_sequence_ok w :
  w <= MAX_SAFE_INTEGER → ∃ after, after_sequence_from_watermark w = Ok after.
Proof.
  intros Hw. unfold after_sequence_from_watermark.
  destruct (N.eqb_spec w 0); [by eexists|].
  replace (EventSequence.new w) with (Some w); [by eexists|].
  symmetry. apply EventSequence_new_some. lia.
Qed.

(** If every page is the next [limit] events after its cursor, collecting
    the pages gives every event after the watermark. *)
Lemma collect_spec sid events limit fetch :
  continues sid 0 events → len events <= MAX_SAFE_INTEGER → (0 < limit)%nat →
  (∀ after, cursor after <= len events →
     fetch after = Some (take limit (drop (N.to_nat (cursor after)) events))) →
  ∀ fuel w, w <= len events → (N.to_nat (len events - w) < fuel)%nat →
  collect fuel fetch w = Some (drop (N.to_nat w) events).
Proof.
  intros Hc Hlen Hlim Hfetch. induction fuel as [|fuel IH]; intros w Hw Hf; [lia|].
  cbn. destruct (after_sequence_ok w) as [after Ha]; [lia|]. rewrite Ha.
  apply after_sequence_cursor in Ha. rewrite Hfetch, Ha by lia. cbn.
  set (rest := drop (N.to_nat w) events).
  assert (continues sid w rest) as Hr.
  { replace w with (0 + N.of_nat (N.to_nat w)) at 1 by lia.
    apply continues_drop; [done|unfold len in *; lia]. }
  destruct (last (take limit rest)) as [e|] eqn:Hl.
  - assert (rest ≠ []) as Hne by (intros E; rewrite E, take_nil in Hl; done).
    assert (len rest = len events - w) as Hlr
      by (unfold len, rest in *; rewrite length_drop; lia).
    rewrite last_lookup in Hl. set (k := length (take limit rest)) in *.
    assert (k = Nat.min limit (length rest)) as Hk by apply length_take.
    assert (0 < length rest)%nat by (destruct rest; cbn; [done|lia]).
    rewrite lookup_take in Hl. case_decide; [|done].
    destruct (continues_lookup _ _ _ _ _ Hr Hl) as [_ Hq].
    unfold EventSequence.get. replace (ev_sequence e) with (w + N.of_nat k)
      by (rewrite Hq; lia).
    rewrite IH by (unfold len in *; lia). cbn. f_equal.
    replace (N.to_nat (w + N.of_nat k)) with (N.to_nat w + k)%nat by lia.
    rewrite <-drop_drop. fold rest.
    replace (take limit rest) with (take k rest); [apply take_drop|].
    rewrite Hk, <-take_take, (take_ge rest (length rest)); done.
  - apply last_None in Hl. f_equal.
    destruct rest as [|x rest]; [done|]. destruct limit; [lia|done].
Qed.

(** ** Pages of a log *)

Lemma skip_count_cursor after :
  cursor after <= MAX_SAFE_INTEGER → skip_count after = cursor after.
Proof.
  intros H. unfold skip_count, usize_try_from, EventSequence.get.
  destruct after as [a|]; [|done]. cbn [cursor] in *.
  destruct (N.leb_spec a USIZE_MAX); [done|].
  unfold USIZE_MAX, MAX_SAFE_INTEGER in *. lia.
Qed.

(** C11: reading a Session of a reachable store page by page, with any
    positive page size and the client's cursor helper, terminates within one
    call more than there are events left and returns exactly what one
    unbounded [list_after] from the same position returns: the events after
    the watermark, each once and in order. *)
Theorem paging_reads_everything config st sid log limit watermark fuel :
  reachable config st → st_sessions st !! sid = Some log → 0 < limit →
  watermark <= len (log_events log) →
  (N.to_nat (len (log_events log) - watermark) < fuel)%nat →
  let all := drop (N.to_nat watermark) (log_events log) in
  collect fuel (λ after, result_option (list_page st sid after limit)) watermark
    = Some all ∧
  ∀ after, after_sequence_from_watermark watermark = Ok after →
    list_after st sid after = Ok all.
Proof.
  intros Hr Hl Hlim Hw Hf all. pose proof (reachable_log _ _ _ _ Hr Hl) as Hwf.
  pose proof (lw_bound _ _ _ Hwf) as Hb. split.
  - eapply (collect_spec sid _ (N.to_nat limit)); try done;
      [by apply (lw_continues _ _ _ Hwf)|lia|].
    intros after Ha. unfold list_page, get_log. rewrite Hl. cbn.
    by rewrite skip_count_cursor by lia.
  - intros after Ha%after_sequence_cursor. unfold list_after, get_log. rewrite Hl. cbn.
    rewrite skip_count_cursor by lia. by rewrite Ha.
Qed.

Section Formatted.
Context (uuid_text : Uuid → string).

(** The page range of a consistent, ended log. *)
Lemma export_page_range_ok info n after limit :
  si_state info = Ended → si_event_count info = n → si_last_sequence info = n →
  n <= MAX_SAFE_INTEGER → 1 <= limit <= MAX_EVENTS_LIST_PAGE_SIZE →
  cursor after <= n →
  export_page_range uuid_text info n after limit =
    Ok (cursor after, N.min (cursor after + limit) n).
Proof.
  intros He Hc Hq Hn Hlim Ha. unfold export_page_range.
  assert (limit <= MAX_SAFE_INTEGER)
    by (unfold MAX_EVENTS_LIST_PAGE_SIZE, MAX_SAFE_INTEGER in *; lia).
  assert (∀ v, v <= n → usize_try_from v = Some v) as Hfit.
  { intros v Hv. apply usize_try_from_some.
    unfold USIZE_MAX, MAX_SAFE_INTEGER in *. lia. }
  assert (usize_saturating_add (cursor after) limit = cursor after + limit) as Hs
    by (unfold usize_saturating_add, USIZE_MAX, MAX_SAFE_INTEGER in *; lia).
  replace ((1 <=? limit) && (limit <=? MAX_EVENTS_LIST_PAGE_SIZE)) with true by lia.
  rewrite He, Hc, Hq. unfold EventSequence.get. cbn.
  destruct after as [a|]; cbn in *.
  - replace (n <? a) with false by lia. cbn. rewrite !Hfit by lia. cbn.
    rewrite N.eqb_refl. cbn. by rewrite Hs.
  - rewrite Hfit by lia. cbn. rewrite N.eqb_refl. cbn. by rewrite Hs.
Qed.

Lemma export_page_ok config st sid log after limit :
  reachable config st → st_sessions st !! sid = Some log →
  si_state (log_info log) = Ended → 1 <= limit <= MAX_EVENTS_LIST_PAGE_SIZE →
  cursor after <= len (log_events log) →
  export_session_page uuid_text st sid after limit =
    Ok (Some (mkSessionExportPageSnapshot (log_info log)
      (take (N.to_nat limit) (drop (N.to_nat (cursor after)) (log_events log))))).
Proof.
  intros Hr Hl He Hlim Ha. pose proof (reachable_log _ _ _ _ Hr Hl) as Hwf.
  unfold export_session_page, get_log. rewrite Hl. cbn.
  rewrite (export_page_range_ok (log_info log));
    [|done|apply Hwf|apply Hwf|apply Hwf|done|done].
  cbn. set (stop := N.min _ _).
  replace ((cursor after <=? stop) && (stop <=? len (log_events log))) with true by lia.
  cbn. do 3 f_equal. set (rest := drop (N.to_nat (cursor after)) (log_events log)).
  assert (length rest =
    (length (log_events log) - N.to_nat (cursor after))%nat) by apply length_drop.
  unfold len in *. destruct (decide (N.to_nat limit <= length rest)%nat).
  - f_equal. lia.
  - rewrite !take_ge by lia. done.
Qed.

(** Paging through the export of an ended Session of a reachable store
    yields exactly the events of [export_session] after the watermark, for
    every page size the protocol allows; no page reports an internal error
    and none panics. *)
Theorem export_pages_agree_with_export config st sid log limit watermark fuel :
  reachable config st → st_sessions st !! sid = Some log →
  si_state (log_info log) = Ended → 1 <= limit <= MAX_EVENTS_LIST_PAGE_SIZE →
  watermark <= len (log_events log) →
  (N.to_nat (len (log_events log) - watermark) < fuel)%nat →
  (∀ after, cursor after <= len (log_events log) → ∃ page,
     export_session_page uuid_text st sid after limit = Ok (Some page) ∧
     page_session page = log_info log) ∧
  export_session st sid = Ok (mkSessionExport (log_info log) (log_events log)) ∧
  collect fuel (λ after,
    page ← result_option (export_session_page uuid_text st sid after limit);
    page_events <$> page) watermark =
    Some (drop (N.to_nat watermark) (log_events log)).
Proof.
  intros Hr Hl He Hlim Hw Hf. pose proof (reachable_log _ _ _ _ Hr Hl) as Hwf.
  split_and!.
  - intros after Ha. eexists. by rewrite (export_page_ok config _ _ log).
  - unfold export_session, get_log. by rewrite Hl.
  - eapply (collect_spec sid _ (N.to_nat limit)); try done;
      [by apply (lw_continues _ _ _ Hwf)|by apply (lw_bound _ _ _ Hwf)|lia|].
    intros after Ha. by rewrite (export_page_ok config _ _ log).
Qed.

(** ** Scans *)

(** All the observations a log records under one id. *)
Definition observations_of (observation_id : Uuid) (log : SessionLog)
    : list Observation :=
  List.filter (λ o, bool_decide (obs_id o = observation_id))
    (log_events log ≫= (λ e, event_observations (ev_payload e))).

Lemma consider_all_spec sid id l matched :
  consider_all uuid_text sid id l matched =
  match option_list matched ++
    List.filter (λ o, bool_decide (obs_id o = id)) l with
  | [] => Ok None
  | [o] => Ok (Some o)
  | _ => Err (Internal (session_message uuid_text sid
      " contains a duplicate observation id"))
  end.
Proof.
  revert matched. induction l as [|o l IH]; intros matched; cbn.
  - by destruct matched.
  - case_bool_decide; cbn; rewrite ?IH; [|done]. by destruct matched.
Qed.

(** [observation_by_id] returns the one observation the Session's log
    records under the id (captured alone, or before or after an action), none
    if there is none, and reports a corrupted log if there are several. *)
Theorem observation_by_id_spec st sid log id :
  st_sessions st !! sid = Some log →
  observation_by_id uuid_text st sid id =
  match observations_of id log with
  | [] => Ok None
  | [o] => Ok (Some o)
  | _ => Err (Internal (session_message uuid_text sid
      " contains a duplicate observation id"))
  end.
Proof.
  intros Hl. unfold observation_by_id, get_log. rewrite Hl. cbn.
  by rewrite consider_all_spec.
Qed.
End Formatted.

(** All the evidence references a log makes reachable. *)
Definition log_asset_refs (log : SessionLog) : list AssetRef :=
  log_events log ≫= (λ e, event_asset_refs (ev_payload e)).

Lemma difference_subset (X Y Z : gset AssetRef) : X ∖ Y ⊆ Z → X ⊆ Y ∪ Z.
Proof. intros H x Hx. destruct (decide (x ∈ Y)); set_solver. Qed.

Lemma remove_reachable_spec events missing :
  let refs := events ≫= (λ e, event_asset_refs (ev_payload e)) in
  match remove_reachable events missing with
  | None => missing ⊆ list_to_set refs
  | Some remaining => remaining = missing ∖ list_to_set refs
  end.
Proof.
  revert missing. induction events as [|e events IH]; intros missing; cbn.
  - set_solver.
  - rewrite list_to_set_app_L. set (here := list_to_set (event_asset_refs _)).
    case_bool_decide as Hm; [apply difference_subset; set_solver|].
    specialize (IH (missing ∖ here)). cbn in IH. case_match; [set_solver|].
    by apply difference_subset.
Qed.

Lemma find_ext_in {A} (f g : A → bool) l :
  (∀ x, x ∈ l → f x = g x) → List.find f l = List.find g l.
Proof.
  induction l as [|x l IH]; intros H; [done|]. cbn.
  rewrite (H x) by left. case_match; [done|]. apply IH. set_solver.
Qed.

Lemma find_none_all {A} (f : A → bool) l :
  (∀ x, x ∈ l → f x = false) → List.find f l = None.
Proof. intros H. rewrite (find_ext_in f (λ _, false)) by done. clear H. by induction l. Qed.

(** [first_unreachable_asset_reference], which scans the log once and
    stops early, returns the first of the given references that no event of
    the Session mentions. *)
Theorem first_unreachable_spec st sid log assets :
  st_sessions st !! sid = Some log →
  first_unreachable_asset_reference st sid assets =
  Ok (List.find (λ a, bool_decide (a ∉ log_asset_refs log)) assets).
Proof.
  intros Hl. unfold first_unreachable_asset_reference, get_log. rewrite Hl. cbn.
  pose proof (remove_reachable_spec (log_events log) (list_to_set assets)) as H.
  cbn in H. fold (log_asset_refs log) in H.
  destruct (remove_reachable _ _) as [remaining|]; f_equal.
  - apply find_ext_in. intros a Ha. apply bool_decide_ext. set_solver.
  - symmetry. apply find_none_all. intros a Ha.
    apply bool_decide_eq_false. set_solver.
Qed.

(** ** The theorems at the sample Session *)

Lemma paging_reads_everything_witness :
  ∃ log, st_sessions quiescent_store !! sample_session = Some log ∧
    collect 9 (λ after, result_option (list_page quiescent_store sample_session after 2)) 1
    = Some (drop 1 (log_events log)).
Proof.
  run_log.
  eapply (paging_reads_everything EventStreamConfig_default quiescent_store
    sample_session); [exact quiescent_reachable|vm_compute; reflexivity
    |reflexivity|vm_compute; discriminate|vm_compute; lia].
Defined.

Lemma export_pages_agree_with_export_witness :
  ∃ log, st_sessions ended_store !! sample_session = Some log ∧
    export_session ended_store sample_session =
      Ok (mkSessionExport (log_info log) (log_events log)).
Proof.
  run_log.
  eapply (export_pages_agree_with_export sample_uuid_text EventStreamConfig_default
    ended_store sample_session) with (limit := 4) (watermark := 2) (fuel := 9%nat);
    [exact ended_reachable|vm_compute; reflexivity..|split; vm_compute; discriminate
    |vm_compute; discriminate|vm_compute; lia].
Defined.

Lemma observation_by_id_spec_witness :
  observation_by_id sample_uuid_text ended_store sample_session 31 =
    Ok (Some (sample_observation 31 1040)).
Proof.
  erewrite (observation_by_id_spec sample_uuid_text ended_store sample_session);
    [|vm_compute; reflexivity]. vm_compute. reflexivity.
Defined.

Lemma first_unreachable_spec_witness :
  first_unreachable_asset_reference ended_store sample_session
    [sample_asset; stored_asset_ref sample_digest "image/jpeg"] =
  Ok (Some (stored_asset_ref sample_digest "image/jpeg")).
Proof.
  erewrite (first_unreachable_spec ended_store sample_session);
    [|vm_compute; reflexivity]. vm_compute. reflexivity.
Defined.
