(* ===== verification/Subscription.v ===== *)
(** * Subscriptions to the Event Store

    [MemoryEventStore::subscribe_after] (crates/core/src/event_store.rs)
    together with [EventSubscription::next] (crates/core/src/event_stream.rs):
    the snapshot taken at registration and the signals published afterwards
    make up the log, with nothing lost or repeated at the seam. *)

From S2P Require Import Prelude Protocol Evidence EventStream EventStore EventLog.
From S2P Require Import EventStoreInv Scenario.

Local Open Scope N_scope.

(** ** Delivering a known sequence of events *)

(** A poll of the receiver that yields the signal, at once or after waiting. *)
Definition delivers (p : TryRecv * option Recv) (sig : EventStreamSignal) : Prop :=
  fst p = TryOk sig ∨ p = (TryEmpty, Some (RecvOk sig)).

(** A subscription that is waiting for the event after [c]. *)
Definition ready (s : EventSubscription) (sid : SessionId) (c : N) : Prop :=
  sub_done s = false ∧ is_Some (sub_tail s) ∧ sub_session_id s = sid ∧
  cursor (sub_last_delivered s) = c.

(** [SessionEnded] is the last event, if it occurs. *)
Definition ended_last (events : list TestEvent) : Prop :=
  ∀ e rest pre, events = pre ++ e :: rest →
    is_session_ended (ev_payload e) = true → rest = [].

Definition event_item (e : TestEvent) : NextResult := NextReturns (Some (ItemEvent e)).

(** What [validate_event] leaves of a subscription after a good event. *)
Definition advance (e : TestEvent) (s : EventSubscription) : EventSubscription :=
  {| sub_session_id := sub_session_id s;
     sub_snapshot := sub_snapshot s;
     sub_tail := sub_tail s;
     sub_last_delivered := Some (ev_sequence e);
     sub_replay_through := sub_replay_through s;
     sub_session_state := sub_session_state s;
     sub_known_ended :=
       if is_session_ended (ev_payload e)
       then Some (ev_sequence e) else sub_known_ended s;
     sub_done := sub_done s |}.

Lemma validate_event_ok s sid c e :
  ready s sid c → c <= MAX_SAFE_INTEGER → ev_session_id e = sid →
  ev_sequence e = c + 1 → validate_event s e = (ItemEvent e, advance e s).
Proof.
  intros (_ & _ & Hsid & Hc) Hb He Hq. unfold validate_event.
  rewrite bool_decide_true by congruence. cbn [negb].
  rewrite expected_sequence_cursor, Hc by lia. unfold EventSequence.get.
  by destruct (N.eqb_spec (ev_sequence e) (c + 1)).
Qed.

Lemma ready_advance s sid c e :
  ready s sid c → ev_sequence e = c + 1 → ready (advance e s) sid (c + 1).
Proof. intros (? & ? & ? & ?) Hq. by split_and!. Qed.

Lemma ended_last_cons e events : ended_last (e :: events) → ended_last events.
Proof. intros H x rest pre ->. by apply (H x rest (e :: pre)). Qed.

Definition known_after (s : EventSubscription) (events : list TestEvent)
    : option EventSequence :=
  foldl (λ k e, if is_session_ended (ev_payload e) then Some (ev_sequence e) else k)
    (sub_known_ended s) events.

(** The buffered part of the stream. *)
Lemma consume_snapshot sid snap polls s c :
  ready s sid c → sub_snapshot s = snap → continues sid c snap →
  c + len snap <= MAX_SAFE_INTEGER → length polls = length snap →
  ∃ s', consume polls s = (event_item <$> snap, s') ∧ ready s' sid (c + len snap) ∧
    sub_snapshot s' = [] ∧ sub_known_ended s' = known_after s snap.
Proof.
  revert polls s c. induction snap as [|e snap IH]; intros polls s c Hr Hs Hc Hb Hp.
  { destruct polls; [|done]. exists s. unfold len. cbn. by rewrite N.add_0_r. }
  destruct polls as [|[p w] polls]; [done|]. destruct Hc as (He & Hq & Hc).
  assert (c + 1 + len snap = c + len (e :: snap)) as Hlen by (unfold len; cbn; lia).
  cbn. unfold next. rewrite (proj1 Hr), Hs.
  rewrite (validate_event_ok (pop_front s snap) sid c) by (done || lia). cbn.
  destruct (IH polls (advance e (pop_front s snap)) (c + 1)) as (s' & -> & Hr' & ? & Hk);
    [by apply ready_advance|done|done|lia|naive_solver|].
  exists s'. rewrite <-Hlen. by rewrite Hk.
Qed.

(** The live part of the stream. *)
Lemma consume_tail sid evs polls s c :
  ready s sid c → sub_snapshot s = [] → continues sid c evs →
  c + len evs <= MAX_SAFE_INTEGER → Forall2 delivers polls (SigEvent <$> evs) →
  ended_last evs → (sub_known_ended s = None ∨ evs = []) →
  ∃ s', consume polls s = (event_item <$> evs, s') ∧ ready s' sid (c + len evs) ∧
    sub_snapshot s' = [] ∧ sub_known_ended s' = known_after s evs.
Proof.
  revert polls s c. induction evs as [|e evs IH]; intros polls s c Hr Hs Hc Hb Hp Hl Hk.
  { inversion Hp. subst. exists s. unfold len. cbn. by rewrite N.add_0_r. }
  inversion Hp as [|[p w] sig ps sigs Hd Hps]. subst. destruct Hc as (He & Hq & Hc).
  assert (c + 1 + len evs = c + len (e :: evs)) as Hlen by (unfold len; cbn; lia).
  destruct Hk as [Hk|]; [|done]. cbn.
  assert (next p w s = (event_item e, advance e s)) as ->.
  { unfold next. rewrite (proj1 Hr), Hs, Hk. destruct (proj1 (proj2 Hr)) as [rx ->].
    destruct Hd as [Hd|[= -> ->]]; [cbn in Hd; rewrite Hd|]; cbn;
      by rewrite (validate_event_ok s sid c) by (done || lia). }
  destruct (IH ps (advance e s) (c + 1)) as (s' & -> & Hr' & ? & Hk');
    [by apply ready_advance|done|done|lia|done|by eapply ended_last_cons| |].
  - destruct (is_session_ended (ev_payload e)) eqn:Hend; cbn; rewrite Hend; [|by left].
    right. by apply (Hl e evs []).
  - exists s'. rewrite <-Hlen. by rewrite Hk'.
Qed.

Lemma consume_app p1 p2 s :
  consume (p1 ++ p2) s =
  (fst (consume p1 s) ++ fst (consume p2 (snd (consume p1 s))),
   snd (consume p2 (snd (consume p1 s)))).
Proof.
  revert s. induction p1 as [|[p w] p1 IH]; intros s; cbn.
  - by destruct (consume p2 s).
  - destruct (next p w s) as [r s1]. rewrite IH.
    by destruct (consume p1 s1) as [rs1 s2], (consume p2 s2) as [rs2 s3].
Qed.

(** ** Subscribing to a reachable store *)

(** What [subscribe_after] does on a consistent log: one of the documented
    refusals, or the log after the cursor and a receiver for what follows. *)
Definition subscribe_reference (count : N) (st : MemoryEventStore)
    (sid : SessionId) (after : option EventSequence)
    : result EventStreamError EventSubscription :=
  let config := st_stream_config st in
  if st_stream_shutdown st then Err StreamStoreShutdown else
  match st_sessions st !! sid with
  | None =>
      Err (if bool_decide (sid ∈ st_used_session_ids st)
           then StreamSessionDeleted sid else StreamSessionNotFound sid)
  | Some log =>
      let total := len (log_events log) in
      if total <? cursor after then Err (StreamCursorAhead sid (cursor after) total)
      else if cfg_max_replay_events config <? total - cursor after
      then Err (ReplayLimitExceeded sid (total - cursor after)
        (cfg_max_replay_events config))
      else if cfg_max_subscribers_per_session config <=? count
      then Err (TooManySubscribers sid (cfg_max_subscribers_per_session config))
      else Ok (EventSubscription_new sid
        (drop (N.to_nat (cursor after)) (log_events log))
        (length (log_events log) - 1)%nat after total (si_state (log_info log)))
  end.

Lemma lifecycle_last state events :
  lifecycle state events →
  match last events with
  | Some e => is_session_ended (ev_payload e)
  | None => false
  end = bool_decide (state = Ended).
Proof.
  intros (first & body & Hf & Hb & Hev). destruct state.
  - rewrite Hev. destruct body as [|x body _] using rev_ind; cbn; [by rewrite Hf|].
    rewrite app_comm_cons, last_snoc.
    apply Forall_app in Hb as [_ Hx%Forall_inv]. by destruct (ev_payload x).
  - destruct Hev as (e & He & ->). by rewrite app_comm_cons, last_snoc.
Qed.

Lemma lifecycle_ended_last state events : lifecycle state events → ended_last events.
Proof.
  intros (first & body & Hf & Hb & Hev) e rest pre -> He.
  assert (∀ p r, first :: body ≠ p ++ e :: r) as Hnone.
  { intros [|y p] r Hx; cbn in Hx; simplify_eq; [by rewrite Hf in He|].
    apply Forall_app in Hb as [_ Hx%Forall_inv]. by destruct (ev_payload e). }
  destruct state; [by destruct (Hnone pre rest)|]. destruct Hev as (x & Hx & Hev).
  destruct rest as [|y rest _] using rev_ind; [done|].
  rewrite !app_comm_cons, app_assoc in Hev.
  apply app_inj_tail in Hev as [Hev _]. by destruct (Hnone pre rest).
Qed.

Lemma subscribe_reference_ok count st sid after sub :
  subscribe_reference count st sid after = Ok sub →
  ∃ log, st_sessions st !! sid = Some log ∧ st_stream_shutdown st = false ∧
    cursor after <= len (log_events log) ∧
    sub = EventSubscription_new sid
      (drop (N.to_nat (cursor after)) (log_events log))
      (length (log_events log) - 1)%nat after
      (len (log_events log)) (si_state (log_info log)).
Proof.
  unfold subscribe_reference. intros H. repeat case_match; simplify_eq.
  eexists. split_and!; try done. lia.
Qed.

(** A Session that is still there after some operations has evolved. *)
Lemma run_ops_evolves config ops st sid log log' :
  reachable config st → st_sessions st !! sid = Some log →
  st_sessions (run_ops ops st) !! sid = Some log' → log_evolves log log'.
Proof.
  revert st log. induction ops as [|op ops IH]; intros st log Hr Hl Hl'; cbn in Hl'.
  { by simplify_eq. }
  pose proof (reachable_wf _ _ Hr) as Hwf.
  destruct (apply_op_session op st sid log Hwf Hl) as [(l & Hl1 & Hev)|(-> & _ & Hn)].
  - etrans; [done|]. eapply IH; [|done|done]. by constructor.
  - exfalso. assert (sid ∈ st_used_session_ids (apply_op (OpDelete sid) st)) as Hu.
    { apply elem_of_dom_2, (sw_used _ Hwf) in Hl. cbn.
      destruct (delete_ended sid st) eqn:H.
      by apply delete_cases in H as [[-> _]|(? & _ & _ & _ & ->)]. }
    destruct (run_ops_tombstone ops _ _ Hu Hn). unfold run_ops in *. congruence.
Qed.

(** The signals published after the first [k] events were. *)
Lemma published_suffix events0 evs tail :
  events0 ≠ [] → tail = published false (events0 ++ evs) →
  drop (length events0 - 1) tail = SigEvent <$> evs.
Proof.
  intros Hne ->. unfold published. destruct events0 as [|e l]; [done|]. cbn.
  rewrite app_nil_r, !drop_0, Nat.sub_0_r, fmap_app.
  by rewrite drop_app_length' by by rewrite length_fmap.
Qed.

(** What a subscription knows of the end of the Session once it has seen a
    suffix of the log. *)
Lemma known_fold sid state events pre l k0 :
  lifecycle state events → continues sid 0 events → events = pre ++ l →
  match state with
  | Active => k0 = None
  | Ended => k0 = Some (len events) ∨ l ≠ []
  end →
  foldl (λ k e, if is_session_ended (ev_payload e) then Some (ev_sequence e) else k)
    k0 l = match state with Active => None | Ended => Some (len events) end.
Proof.
  intros Hlc Hc Hev Hk. pose proof (lifecycle_last _ _ Hlc) as Hlast.
  destruct state.
  - subst k0. assert (Forall (λ e, is_session_ended (ev_payload e) = false) l) as Hall.
    { apply Forall_forall. intros e [l1 [l2 ->]]%list_elem_of_split.
      destruct (is_session_ended (ev_payload e)) eqn:He; [|done].
      rewrite app_assoc in Hev.
      rewrite (lifecycle_ended_last _ _ Hlc e l2 (pre ++ l1) Hev He) in Hev.
      by rewrite Hev, last_snoc, He in Hlast. }
    clear -Hall. induction Hall as [|e l He _ IH]; [done|]. cbn. by rewrite He.
  - destruct l as [|e l _] using rev_ind; [naive_solver|].
    rewrite app_assoc in Hev. rewrite Hev, last_snoc in Hlast.
    rewrite foldl_app. cbn. rewrite Hlast. cbn. f_equal.
    assert (events !! length (pre ++ l) = Some e) as Hi
      by (rewrite Hev; by apply list_lookup_middle).
    apply (continues_lookup _ _ _ _ _ Hc) in Hi as [_ ->].
    rewrite Hev, len_snoc. unfold len. lia.
Qed.

(** Draining the snapshot of [events0] and then the signals of the events
    [evs] appended since. *)
Lemma consume_log sid n state0 state events0 evs after p1 p2 :
  let c := N.to_nat (cursor after) in
  let s0 := EventSubscription_new sid (drop c events0) n after (len events0) state0 in
  cursor after <= len events0 → len (events0 ++ evs) <= MAX_SAFE_INTEGER →
  continues sid 0 (events0 ++ evs) → lifecycle state0 events0 →
  lifecycle state (events0 ++ evs) → (state0 = Ended → evs = [] ∧ state = Ended) →
  length p1 = length (drop c events0) → Forall2 delivers p2 (SigEvent <$> evs) →
  ∃ s', consume (p1 ++ p2) s0 = (event_item <$> drop c (events0 ++ evs), s') ∧
    ready s' sid (len (events0 ++ evs)) ∧ sub_snapshot s' = [] ∧
    sub_known_ended s' =
      match state with Active => None | Ended => Some (len (events0 ++ evs)) end.
Proof.
  intros c s0 Hcur Hb Hc Hlc0 Hlc Hfix Hp1 Hp2. set (snap := drop c events0) in *.
  assert (ready s0 sid (cursor after)) as Hrd by (by split_and!).
  assert (cursor after + len snap = len events0) as Hlen
    by (unfold len, snap, c in *; rewrite length_drop; lia).
  rewrite len_app in Hb.
  assert (drop c (events0 ++ evs) = snap ++ evs) as Hdrop
    by (apply drop_app_le; unfold len, c in *; lia).
  assert (continues sid (cursor after) (snap ++ evs)) as [Hcs Hce]%continues_app.
  { rewrite <-Hdrop. replace (cursor after) with (0 + N.of_nat c) by (unfold c; lia).
    apply continues_drop; [done|rewrite length_app; unfold len, c in *; lia]. }
  destruct (consume_snapshot sid snap p1 s0 (cursor after)) as (s1 & H1 & Hr1 & Hs1 & Hk1);
    [done|done|done|lia|done|].
  destruct (consume_tail sid evs p2 s1 (cursor after + len snap))
    as (s2 & H2 & Hr2 & Hs2 & Hk2); [done|done|done|lia|done| | |].
  - intros e rest pre -> He.
    by apply (lifecycle_ended_last _ _ Hlc e rest (events0 ++ pre)); [rewrite <-app_assoc|].
  - destruct state0; [left|by right; apply Hfix]. rewrite Hk1.
    apply (known_fold sid Active events0 (take c events0)); try done;
      [by apply continues_app in Hc as [? _]|symmetry; apply take_drop].
  - exists s2. rewrite consume_app, H1. cbn. rewrite H2. cbn.
    rewrite Hdrop, fmap_app, len_app, <-Hlen. split_and!; try done.
    rewrite Hk2. unfold known_after. rewrite Hk1. unfold known_after.
    rewrite <-foldl_app, Hlen, <-len_app.
    apply (known_fold sid _ (events0 ++ evs) (take c (events0 ++ evs))); try done;
      [by rewrite <-Hdrop, take_drop|]. clear -Hlc0 Hlc Hfix.
    apply lifecycle_last in Hlc0, Hlc. destruct state0, state; cbn; try naive_solver.
    + right. intros [_ ->]%app_nil. rewrite app_nil_r in Hlc. by rewrite Hlc0 in Hlc.
    + left. destruct Hfix as [-> _]; [done|]. by rewrite app_nil_r.
Qed.

Lemma continues_bounded sid events :
  continues sid 0 events → len events <= MAX_SAFE_INTEGER → Forall event_wf events.
Proof.
  intros Hc Hb. apply Forall_lookup. intros i e Hi. unfold event_wf.
  destruct (continues_lookup _ _ _ _ _ Hc Hi) as [_ ->].
  apply lookup_lt_Some in Hi. unfold len in *. lia.
Qed.

Section Formatted.
Context (uuid_text : Uuid → string).

Lemma usize_fits n : n <= MAX_SAFE_INTEGER → usize_try_from n = Some n.
Proof.
  intros. apply usize_try_from_some. unfold USIZE_MAX, MAX_SAFE_INTEGER in *. lia.
Qed.

Lemma published_length events : length (published false events) = (length events - 1)%nat.
Proof. unfold published. by rewrite app_nil_r, length_fmap, length_drop. Qed.

(** On a reachable store [subscribe_after] is its reference. *)
Lemma subscribe_after_reachable config count st sid after :
  reachable config st →
  subscribe_after uuid_text count None st sid after =
  subscribe_reference count st sid after.
Proof.
  intros Hr. unfold subscribe_after, subscribe_reference, EventSequence.get,
    mbind, result_bind, reject_if.
  destruct (st_stream_shutdown st) eqn:Hs; [done|].
  destruct (st_sessions st !! sid) as [log|] eqn:Hl; [|done].
  pose proof (sw_logs _ (reachable_wf _ _ Hr) _ _ Hl) as Hwf. rewrite Hs in Hwf.
  pose proof (lw_bound _ _ _ Hwf) as Hb.
  cbn [ok_or]. rewrite (lw_last _ _ _ Hwf), (usize_fits _ Hb). cbn [ok_or].
  rewrite N.eqb_refl, (lifecycle_last _ _ (lw_lifecycle _ _ _ Hwf)), eqb_reflx,
    (lw_tail _ _ _ Hwf), published_length.
  destruct after as [a|]; cbn.
  - destruct (N.ltb_spec (len (log_events log)) a); [done|]. cbn.
    rewrite usize_fits by lia. cbn.
    replace (a <=? len (log_events log)) with true by lia. cbn.
    repeat case_match; by simplify_eq.
  - replace (len (log_events log) <? 0) with false by lia.
    replace (0 <=? len (log_events log)) with true by lia. cbn [ok_or].
    repeat case_match; by simplify_eq.
Qed.

(** The log a subscription was registered on, how it has grown since, and what
    a consumer that keeps up sees of it. *)
Lemma subscription_log config count st sid after sub ops log n p1 p2 :
  reachable config st →
  subscribe_after uuid_text count None st sid after = Ok sub →
  st_sessions (run_ops ops st) !! sid = Some log →
  st_stream_shutdown (run_ops ops st) = false →
  sub_tail sub = Some n → length p1 = length (sub_snapshot sub) →
  Forall2 delivers p2 (drop n (log_stream_tail log)) →
  log_wf false sid log ∧
  (∃ log0, log_wf false sid log0 ∧ log_evolves log0 log ∧
    cursor after <= len (log_events log0) ∧
    sub_replay_through sub = len (log_events log0) ∧
    sub_session_state sub = si_state (log_info log0)) ∧
  ∃ sub', consume (p1 ++ p2) sub =
      (event_item <$> drop (N.to_nat (cursor after)) (log_events log), sub') ∧
    fst (next TryEmpty None sub') =
      match si_state (log_info log) with
      | Active => NextPending
      | Ended => NextReturns (Some (ItemTerminal
          (TermSessionEnded (si_last_sequence (log_info log)))))
      end.
Proof.
  intros Hr Hsub Hl1 Hsd1 Hn Hp1 Hp2.
  rewrite (subscribe_after_reachable config) in Hsub by done.
  apply subscribe_reference_ok in Hsub as (log0 & Hl0 & Hsd0 & Hcur & ->).
  injection Hn as <-. cbn in Hp1.
  pose proof (sw_logs _ (reachable_wf _ _ (reachable_run _ _ ops Hr)) _ _ Hl1) as Hwf1.
  pose proof (sw_logs _ (reachable_wf _ _ Hr) _ _ Hl0) as Hwf0.
  rewrite Hsd1 in Hwf1. rewrite Hsd0 in Hwf0.
  pose proof (run_ops_evolves config ops st sid log0 log Hr Hl0 Hl1) as Hgrow.
  split; [done|]. split; [by exists log0|]. destruct Hgrow as ([evs Hev] & _ & Hfix).
  rewrite (published_suffix (log_events log0) evs) in Hp2;
    [|by eapply log_events_nonempty|by rewrite (lw_tail _ _ _ Hwf1), Hev].
  destruct Hwf0 as [_ _ _ _ _ _ _ _ Hlc0 _ _ _ _].
  destruct Hwf1 as [_ Hc Hq _ Hb _ _ _ Hlc _ _ _ _]. rewrite Hev in *.
  edestruct (consume_log sid (length (log_events log0) - 1)%nat
    (si_state (log_info log0)) (si_state (log_info log))) as (s' & H' & Hrd & Hs & Hk);
    [exact Hcur|exact Hb|exact Hc|exact Hlc0|exact Hlc| |exact Hp1|exact Hp2|].
  - intros He. destruct (Hfix He) as [Hsame ->]. split; [|done].
    by apply (app_inv_head (log_events log0)); rewrite app_nil_r.
  - exists s'. split; [done|]. destruct Hrd as (Hd & [rx Hrx] & _).
    unfold next. rewrite Hd, Hs, Hrx, Hk, Hq. by destruct (si_state (log_info log)).
Qed.

(** A subscription to a reachable store delivers the log. Whatever
    operations run after [subscribe_after], a consumer that first drains the
    snapshot and then receives, in order, the signals the channel has carried
    since the registration, sees exactly the events of the log after its
    cursor: none missing, none repeated, none out of order. Then it sees the
    end of the Session if the Session has ended, and otherwise waits. (The
    store is not shutting down, and the receiver does not lag.) *)
Theorem subscription_delivers_the_log config count st sid after sub ops log n p1 p2 :
  reachable config st →
  subscribe_after uuid_text count None st sid after = Ok sub →
  st_sessions (run_ops ops st) !! sid = Some log →
  st_stream_shutdown (run_ops ops st) = false →
  sub_tail sub = Some n → length p1 = length (sub_snapshot sub) →
  Forall2 delivers p2 (drop n (log_stream_tail log)) →
  ∃ sub', consume (p1 ++ p2) sub =
      (event_item <$> drop (N.to_nat (cursor after)) (log_events log), sub') ∧
    fst (next TryEmpty None sub') =
      match si_state (log_info log) with
      | Active => NextPending
      | Ended => NextReturns (Some (ItemTerminal
          (TermSessionEnded (si_last_sequence (log_info log)))))
      end.
Proof. intros. by eapply subscription_log. Qed.

(** On a reachable store [subscribe_after] never reports an internal
    inconsistency: when the replay buffer can be reserved it succeeds with the
    log after the cursor, or fails with the first of its documented refusals
    (shutdown, deleted or unknown Session, cursor ahead, replay limit,
    subscriber limit) that applies. *)
Theorem subscribe_is_total config count st sid after :
  reachable config st →
  subscribe_after uuid_text count None st sid after =
    subscribe_reference count st sid after ∧
  ∀ m, subscribe_after uuid_text count None st sid after ≠ Err (StreamInternal m).
Proof.
  intros Hr. rewrite (subscribe_after_reachable config) by done. split; [done|].
  intros m. unfold subscribe_reference. repeat case_match; naive_solver.
Qed.

(** For every behaviour of the broadcast channel (signals in any order,
    lost signals, lag, closing, waiting), a consumer of a subscription to a
    reachable store sees events that continue its cursor one by one, never a
    panic, and at most one terminal item, after which [next] only returns
    [None]. *)
Theorem stream_is_continuous config count st sid after sub polls :
  reachable config st →
  subscribe_after uuid_text count None st sid after = Ok sub →
  Forall poll_wf polls →
  let rs := fst (consume polls sub) in
  continues sid (cursor after) (delivered rs) ∧ (NextPanics ∉ rs) ∧
  (∀ i, is_terminal <$> (rs !! i) = Some true →
   ∀ j r, (i < j)%nat → rs !! j = Some r → r = NextReturns None).
Proof.
  intros Hr Hsub Hp. rewrite (subscribe_after_reachable config) in Hsub by done.
  apply subscribe_reference_ok in Hsub as (log & Hl & Hs & Hcur & ->).
  pose proof (reachable_log _ _ _ _ Hr Hl) as Hwf.
  set (s0 := EventSubscription_new _ _ _ _ _ _).
  destruct (consume polls s0) as [rs s'] eqn:Hc.
  apply (consume_spec polls s0) in Hc; [done| | |done].
  - split; [by eexists|]. cbn. pose proof (lw_bound _ _ _ Hwf). lia.
  - apply Forall_drop, (continues_bounded sid); apply Hwf.
Qed.
End Formatted.

(** ** The theorems at the sample Session *)

(** A subscriber from the start of the opening store receives the rest of the
    Session as it is recorded. *)
Lemma subscription_delivers_the_log_witness :
  ∃ log sub', st_sessions quiescent_store !! sample_session = Some log ∧
    fst (next TryEmpty None sub') = NextPending.
Proof.
  edestruct (subscription_delivers_the_log sample_uuid_text EventStreamConfig_default 0
    opening_store sample_session None) with (ops := closing_ops)
    (p1 := replicate 4 (TryEmpty, None : option Recv))
    (p2 := (λ sig, (TryOk sig, None : option Recv)) <$>
       drop 3 (log_stream_tail (default (mkSessionLog (mkSessionInfo 0 Active 0 None 0 0)
         [] [] ∅ ∅ ∅ ∅ ∅) (st_sessions quiescent_store !! sample_session))))
    as (sub' & _ & Hn);
    [exact opening_reachable|vm_compute; reflexivity..| |].
  - vm_compute. repeat constructor.
  - eexists _, sub'. split; [vm_compute; reflexivity|exact Hn].
Defined.

Lemma subscribe_is_total_witness :
  subscribe_after sample_uuid_text 0 None opening_store sample_session (Some 9) =
    Err (StreamCursorAhead sample_session 9 4).
Proof.
  rewrite (proj1 (subscribe_is_total sample_uuid_text EventStreamConfig_default 0
    opening_store sample_session (Some 9) opening_reachable)).
  vm_compute. reflexivity.
Defined.

Lemma stream_is_continuous_witness :
  ∃ sub, subscribe_after sample_uuid_text 0 None opening_store sample_session (Some 2) =
    Ok sub ∧
    let rs := fst (consume [(TryEmpty, None); (TryEmpty, None);
      (TryLagged 3, None); (TryEmpty, None)] sub) in
    continues sample_session 2 (delivered rs).
Proof.
  run_log.
  eapply (stream_is_continuous sample_uuid_text EventStreamConfig_default 0 opening_store
    sample_session (Some 2)); [exact opening_reachable|vm_compute; reflexivity|].
  repeat constructor.
Defined.
