(* ===== verification/Handshake.v ===== *)
(** * Protocol and feature negotiation

    [crates/protocol/src/handshake.rs]: version ranges, the choice of the
    newest common version with the reason for a refusal, and the choice of
    the enabled features. *)

From S2P Require Import Prelude Protocol.

Local Open Scope N_scope.

Record ProtocolVersion := mkProtocolVersion {
  pv_major : N;
  pv_minor : N;
}.

Record ProtocolRange := mkProtocolRange {
  pr_major : N;
  pr_min_minor : N;
  pr_max_minor : N;
}.

(** [ProtocolRange::exact], [is_valid], [minimum], [maximum] *)
Definition range_exact (v : ProtocolVersion) : ProtocolRange :=
  mkProtocolRange (pv_major v) (pv_minor v) (pv_minor v).
Definition range_is_valid (r : ProtocolRange) : bool :=
  pr_min_minor r <=? pr_max_minor r.
Definition range_minimum (r : ProtocolRange) : ProtocolVersion :=
  mkProtocolVersion (pr_major r) (pr_min_minor r).
Definition range_maximum (r : ProtocolRange) : ProtocolVersion :=
  mkProtocolVersion (pr_major r) (pr_max_minor r).

(** The derived, lexicographic order of [ProtocolVersion]. *)
Definition version_ltb (x y : ProtocolVersion) : bool :=
  (pv_major x <? pv_major y) ||
  ((pv_major x =? pv_major y) && (pv_minor x <? pv_minor y)).
Definition version_max (x y : ProtocolVersion) : ProtocolVersion :=
  if version_ltb y x then x else y.
Definition version_min (x y : ProtocolVersion) : ProtocolVersion :=
  if version_ltb y x then y else x.

(** [struct ProtocolOffer] *)
Definition ProtocolOffer : Type := list ProtocolRange.

(** [Iterator::min] and [Iterator::max] *)
Definition iter_fold (f : ProtocolVersion → ProtocolVersion → ProtocolVersion)
    (l : list ProtocolVersion) : option ProtocolVersion :=
  match l with [] => None | v :: l => Some (foldl f v l) end.

(** [ProtocolOffer::minimum] and [ProtocolOffer::maximum] *)
Definition offer_minimum (o : ProtocolOffer) : option ProtocolVersion :=
  iter_fold version_min (range_minimum <$> o).
Definition offer_maximum (o : ProtocolOffer) : option ProtocolVersion :=
  iter_fold version_max (range_maximum <$> o).

Inductive ProtocolIncompatibilityReason :=
| ClientTooOld
| ServerTooOld
| NoCommonVersion.

Inductive ProtocolNegotiationError :=
| EmptyClientOffer
| EmptyServerOffer
| InvalidClientRange
| InvalidServerRange
| Incompatible (reason : ProtocolIncompatibilityReason).

Definition validate_offer (offer : ProtocolOffer) (is_client : bool)
    : result ProtocolNegotiationError () :=
  check! reject_if (match offer with [] => true | _ => false end)
    (if is_client then EmptyClientOffer else EmptyServerOffer);
  reject_if (existsb (λ r, negb (range_is_valid r)) offer)
    (if is_client then InvalidClientRange else InvalidServerRange).

Definition incompatibility_reason (client server : ProtocolOffer)
    : ProtocolIncompatibilityReason :=
  let too_old (newest oldest : option ProtocolVersion) :=
    match newest, oldest with
    | Some n, Some o => version_ltb n o
    | _, _ => false
    end in
  if too_old (offer_maximum client) (offer_minimum server) then ClientTooOld
  else if too_old (offer_maximum server) (offer_minimum client) then ServerTooOld
  else NoCommonVersion.

(** The body of the two nested loops of [negotiate_protocol]. *)
Definition consider_pair (client_range server_range : ProtocolRange)
    (selected : option ProtocolVersion) : option ProtocolVersion :=
  if negb (pr_major client_range =? pr_major server_range) then selected else
  let min_minor := N.max (pr_min_minor client_range) (pr_min_minor server_range) in
  let max_minor := N.min (pr_max_minor client_range) (pr_max_minor server_range) in
  if min_minor <=? max_minor then
    let candidate := mkProtocolVersion (pr_major client_range) max_minor in
    Some (match selected with
          | None => candidate
          | Some current => version_max current candidate
          end)
  else selected.

Definition negotiate_protocol (client server : ProtocolOffer)
    : result ProtocolNegotiationError ProtocolVersion :=
  check! validate_offer client true;
  check! validate_offer server false;
  let selected :=
    foldl (λ selected client_range,
      foldl (λ selected server_range,
        consider_pair client_range server_range selected) selected server)
      None client in
  ok_or selected (Incompatible (incompatibility_reason client server)).

(** [PROTOCOL_VERSION] and [supported_protocol_offer] *)
Definition PROTOCOL_VERSION : ProtocolVersion := mkProtocolVersion 1 5.
Definition supported_protocol_offer : ProtocolOffer :=
  [mkProtocolRange 1 0 (pv_minor PROTOCOL_VERSION)].

(** ** Features *)

Record FeatureOffer := mkFeatureOffer {
  fo_required : gset string;
  fo_optional : gset string;
}.

(** [deserialize_unique_string_set]: the first repeated name is the error. *)
Fixpoint unique_string_set (values : list string) (unique : gset string)
    : result string (gset string) :=
  match values with
  | [] => Ok unique
  | value :: rest =>
      if bool_decide (value ∈ unique) then Err value
      else unique_string_set rest ({[value]} ∪ unique)
  end.

(** [negotiate_features]; the error carries [unsupported_required]. *)
Definition negotiate_features (client : FeatureOffer) (available : gset string)
    : result (gset string) (gset string) :=
  let unsupported_required := fo_required client ∖ available in
  if bool_decide (unsupported_required = ∅)
  then Ok (filter (λ feature, feature ∈ available)
             (fo_required client ∪ fo_optional client))
  else Err unsupported_required.

(** ** What an offer supports *)

Definition supports (o : ProtocolOffer) (v : ProtocolVersion) : Prop :=
  ∃ r, r ∈ o ∧ pr_major r = pv_major v ∧
    pr_min_minor r <= pv_minor v <= pr_max_minor r.

Definition version_lt (x y : ProtocolVersion) : Prop := version_ltb x y = true.
Definition version_le (x y : ProtocolVersion) : Prop := ¬ version_lt y x.

Definition offer_wf (o : ProtocolOffer) : Prop :=
  o ≠ [] ∧ ∀ r, r ∈ o → pr_min_minor r <= pr_max_minor r.

(** [lia] on the lexicographic order. *)
Ltac version_lia :=
  unfold version_le, version_lt, version_max, version_min, version_ltb in *; cbn in *;
  repeat case_match; lia.

#[global] Instance version_le_preorder : PreOrder version_le.
Proof. split; [intros x|intros x y z]; version_lia. Qed.

Lemma version_le_antisym x y : version_le x y → version_le y x → x = y.
Proof. destruct x, y. intros. f_equal; version_lia. Qed.

Lemma validate_offer_ok o c u : validate_offer o c = Ok u ↔ offer_wf o.
Proof.
  unfold validate_offer, offer_wf. destruct u. rewrite result_bind_ok.
  setoid_rewrite reject_if_ok. split.
  - intros (_ & Ho & Hv). split; [by destruct o|]. intros r Hr.
    destruct (N.le_gt_cases (pr_min_minor r) (pr_max_minor r)); [done|].
    assert (existsb (λ r, negb (range_is_valid r)) o = true) as Ht; [|congruence].
    apply existsb_exists. exists r. split; [by apply list_elem_of_In|].
    unfold range_is_valid. lia.
  - intros [Hne Hall]. exists (). split; [by destruct o|].
    apply not_true_iff_false. intros (r & Hr & Hn)%existsb_exists.
    apply list_elem_of_In, Hall in Hr. unfold range_is_valid in Hn. lia.
Qed.

(** [selected] is the newest version the pairs in [P] have in common. *)
Definition newest (P : ProtocolVersion → Prop) (selected : option ProtocolVersion)
    : Prop :=
  match selected with
  | None => ∀ v, ¬ P v
  | Some w => P w ∧ ∀ v, P v → version_le v w
  end.

Definition in_pair (c s : ProtocolRange) (v : ProtocolVersion) : Prop :=
  pr_major c = pv_major v ∧ pr_min_minor c <= pv_minor v <= pr_max_minor c ∧
  pr_major s = pv_major v ∧ pr_min_minor s <= pv_minor v <= pr_max_minor s.

Lemma newest_ext P Q selected :
  (∀ v, P v ↔ Q v) → newest P selected → newest Q selected.
Proof. unfold newest. destruct selected; naive_solver. Qed.

Lemma consider_pair_newest P c s selected :
  newest P selected →
  newest (λ v, P v ∨ in_pair c s v) (consider_pair c s selected).
Proof.
  intros H. unfold consider_pair.
  destruct (N.eqb_spec (pr_major c) (pr_major s)) as [Hm|Hm]; cbn [negb].
  2: { eapply newest_ext; [|done]. unfold in_pair. intros v. split; [by left|].
       intros [?|?]; [done|]. destruct Hm. naive_solver congruence. }
  destruct (N.leb_spec (N.max (pr_min_minor c) (pr_min_minor s))
    (N.min (pr_max_minor c) (pr_max_minor s))) as [Hle|Hgt].
  2: { eapply newest_ext; [|done]. unfold in_pair. intros v. split; [by left|].
       intros [?|?]; [done|lia]. }
  set (w := mkProtocolVersion _ _).
  assert (in_pair c s w) as Hw by (unfold in_pair, w; cbn; lia).
  assert (∀ v, in_pair c s v → version_le v w) as Hmax.
  { unfold in_pair, w. intros v Hv. version_lia. }
  destruct selected as [u|]; cbn in *; [|naive_solver].
  destruct H as [Hu Hall]. unfold version_max. destruct (version_ltb w u) eqn:Hlt.
  - split; [by left|]. intros v [?|Hv]; [by apply Hall|].
    etrans; [by apply Hmax|]. version_lia.
  - split; [by right|]. intros v [Hv|Hv]; [|by apply Hmax].
    etrans; [by apply Hall|]. unfold version_le, version_lt. congruence.
Qed.

Lemma consider_row_newest P c server selected :
  newest P selected →
  newest (λ v, P v ∨ ∃ s, s ∈ server ∧ in_pair c s v)
    (foldl (λ selected s, consider_pair c s selected) selected server).
Proof.
  revert P selected. induction server as [|s server IH]; intros P selected H; cbn.
  - eapply newest_ext; [|done]. set_solver.
  - eapply newest_ext; [|by apply IH, consider_pair_newest]. intros v. cbn.
    setoid_rewrite elem_of_cons. naive_solver.
Qed.

Lemma consider_all_newest P client server selected :
  newest P selected →
  newest (λ v, P v ∨ ∃ c s, c ∈ client ∧ s ∈ server ∧ in_pair c s v)
    (foldl (λ selected c,
       foldl (λ selected s, consider_pair c s selected) selected server)
       selected client).
Proof.
  revert P selected. induction client as [|c client IH]; intros P selected H; cbn.
  - eapply newest_ext; [|done]. set_solver.
  - eapply newest_ext; [|by apply IH, consider_row_newest]. intros v. cbn.
    setoid_rewrite elem_of_cons. naive_solver.
Qed.

(** The loops compute the newest common version. *)
Lemma selected_newest client server :
  newest (λ v, supports client v ∧ supports server v)
    (foldl (λ selected c,
       foldl (λ selected s, consider_pair c s selected) selected server)
       None client).
Proof.
  eapply newest_ext; [|apply (consider_all_newest (λ _, False)); naive_solver].
  unfold supports, in_pair. naive_solver.
Qed.

(** A fold by [version_max] or [version_min] is a bound of the list. *)
Lemma fold_max_bound v l w :
  w ∈ v :: l → version_le w (foldl version_max v l).
Proof.
  revert v w. induction l as [|x l IH]; intros v w Hw; cbn.
  - apply list_elem_of_singleton in Hw as ->. done.
  - apply elem_of_cons in Hw as [->|[->|Hw]%elem_of_cons].
    + etrans; [|apply IH; left]. version_lia.
    + etrans; [|apply IH; left]. version_lia.
    + apply IH. by right.
Qed.

Lemma fold_min_bound v l w :
  w ∈ v :: l → version_le (foldl version_min v l) w.
Proof.
  revert v w. induction l as [|x l IH]; intros v w Hw; cbn.
  - apply list_elem_of_singleton in Hw as ->. done.
  - apply elem_of_cons in Hw as [->|[->|Hw]%elem_of_cons].
    + etrans; [apply IH; left|]. version_lia.
    + etrans; [apply IH; left|]. version_lia.
    + apply IH. by right.
Qed.

Lemma fold_in (f : ProtocolVersion → ProtocolVersion → ProtocolVersion) v l :
  (∀ x y, f x y = x ∨ f x y = y) → foldl f v l ∈ v :: l.
Proof.
  intros Hf. revert v. induction l as [|x l IH]; intros v; cbn; [by left|].
  specialize (IH (f v x)). apply elem_of_cons in IH as [->|?]; [|set_solver].
  destruct (Hf v x) as [->| ->]; set_solver.
Qed.

(** The bounds of a valid offer are supported, and bound what it supports. *)
Lemma offer_maximum_spec o :
  offer_wf o → ∃ m, offer_maximum o = Some m ∧ supports o m ∧
    ∀ v, supports o v → version_le v m.
Proof.
  intros [Hne Hv]. destruct o as [|r o]; [done|]. eexists. split; [done|].
  set (m := foldl _ _ _). split.
  - assert (m ∈ range_maximum <$> r :: o) as Hm
      by (apply fold_in; intros; unfold version_max; case_match; auto).
    apply list_elem_of_fmap in Hm as (q & -> & Hq). exists q. cbn.
    split; [done|]. split; [done|]. by specialize (Hv q Hq); lia.
  - intros v (q & Hq & Hm & Hb). etrans; [|apply (fold_max_bound _ _ (range_maximum q))].
    + version_lia.
    + by apply (list_elem_of_fmap_2 range_maximum (r :: o)).
Qed.

Lemma offer_minimum_spec o :
  offer_wf o → ∃ m, offer_minimum o = Some m ∧ supports o m ∧
    ∀ v, supports o v → version_le m v.
Proof.
  intros [Hne Hv]. destruct o as [|r o]; [done|]. eexists. split; [done|].
  set (m := foldl _ _ _). split.
  - assert (m ∈ range_minimum <$> r :: o) as Hm
      by (apply fold_in; intros; unfold version_min; case_match; auto).
    apply list_elem_of_fmap in Hm as (q & -> & Hq). exists q. cbn.
    split; [done|]. split; [done|]. by specialize (Hv q Hq); lia.
  - intros v (q & Hq & Hm & Hb). etrans; [apply (fold_min_bound _ _ (range_minimum q))|].
    + by apply (list_elem_of_fmap_2 range_minimum (r :: o)).
    + version_lia.
Qed.

(** For valid offers [negotiate_protocol] succeeds exactly when client
    and server have a version in common, and then selects the newest one both
    support. *)
Theorem negotiate_protocol_selects_newest client server :
  offer_wf client → offer_wf server →
  match negotiate_protocol client server with
  | Ok v => (supports client v ∧ supports server v) ∧
            ∀ w, supports client w → supports server w → version_le w v
  | Err e => (∃ reason, e = Incompatible reason) ∧
             ∀ v, supports client v → supports server v → False
  end.
Proof.
  intros Hc Hs. unfold negotiate_protocol.
  rewrite (proj2 (validate_offer_ok client true ()) Hc).
  rewrite (proj2 (validate_offer_ok server false ()) Hs). cbn.
  pose proof (selected_newest client server) as H.
  destruct (foldl _ _ _); cbn in *; naive_solver.
Qed.

(** when no version is common, the reported reason is exact: the client
    is too old iff everything it supports is older than everything the server
    supports, and the server is too old iff the same holds the other way
    round. *)
Theorem incompatibility_reason_is_exact client server :
  offer_wf client → offer_wf server →
  (incompatibility_reason client server = ClientTooOld ↔
   ∀ v w, supports client v → supports server w → version_lt v w) ∧
  (incompatibility_reason client server = ServerTooOld ↔
   ∀ v w, supports client v → supports server w → version_lt w v).
Proof.
  intros Hc Hs. unfold incompatibility_reason.
  destruct (offer_maximum_spec _ Hc) as (cM & -> & HcM & HcM').
  destruct (offer_minimum_spec _ Hc) as (cm & -> & Hcm & Hcm').
  destruct (offer_maximum_spec _ Hs) as (sM & -> & HsM & HsM').
  destruct (offer_minimum_spec _ Hs) as (sm & -> & Hsm & Hsm').
  destruct (version_ltb cM sm) eqn:H1; [|destruct (version_ltb sM cm) eqn:H2];
    split; split; try done.
  - intros _ v w Hv%HcM' Hw%Hsm'. version_lia.
  - intros H. specialize (H _ _ HcM Hsm). version_lia.
  - intros H. specialize (H _ _ HcM Hsm). unfold version_lt in H. congruence.
  - intros _ v w Hv%Hcm' Hw%HsM'. version_lia.
  - intros H. specialize (H _ _ HcM Hsm). unfold version_lt in H. congruence.
  - intros H. specialize (H _ _ Hcm HsM). unfold version_lt in H. congruence.
Qed.

(** [negotiate_features] enables exactly the offered features that are
    available, provided every required one is; otherwise it names exactly the
    required features that are missing. *)
Theorem negotiate_features_spec client available :
  match negotiate_features client available with
  | Ok enabled =>
      fo_required client ⊆ available ∧ fo_required client ⊆ enabled ∧
      ∀ f, f ∈ enabled ↔
        (f ∈ fo_required client ∨ f ∈ fo_optional client) ∧ f ∈ available
  | Err missing =>
      missing ≠ ∅ ∧ ∀ f, f ∈ missing ↔ f ∈ fo_required client ∧ (f ∉ available)
  end.
Proof.
  unfold negotiate_features. case_bool_decide as H; [|set_solver].
  assert (fo_required client ⊆ available) as Hsub.
  { intros f Hf. destruct (decide (f ∈ available)); [done|]. set_solver. }
  split; [done|]. set_solver.
Qed.

(** ** The theorems at concrete offers *)

Definition older_offer : ProtocolOffer := [mkProtocolRange 0 0 9; mkProtocolRange 1 0 3].

Lemma older_offer_wf : offer_wf older_offer.
Proof. split; [done|]. intros r Hr. repeat set_unfold. naive_solver lia. Qed.

Lemma supported_offer_wf : offer_wf supported_protocol_offer.
Proof. split; [done|]. intros r ->%list_elem_of_singleton. cbn. lia. Qed.

Lemma negotiate_protocol_selects_newest_witness :
  negotiate_protocol older_offer supported_protocol_offer = Ok (mkProtocolVersion 1 3) ∧
  ∀ w, supports older_offer w → supports supported_protocol_offer w →
    version_le w (mkProtocolVersion 1 3).
Proof.
  split; [vm_compute; reflexivity|].
  exact (proj2 (negotiate_protocol_selects_newest older_offer supported_protocol_offer
    older_offer_wf supported_offer_wf)).
Defined.

Lemma incompatibility_reason_is_exact_witness :
  incompatibility_reason [mkProtocolRange 0 0 9] supported_protocol_offer = ClientTooOld ∧
  ∀ v w, supports [mkProtocolRange 0 0 9] v → supports supported_protocol_offer w →
    version_lt v w.
Proof.
  split; [vm_compute; reflexivity|].
  apply (incompatibility_reason_is_exact [mkProtocolRange 0 0 9] supported_protocol_offer).
  - split; [done|]. intros r ->%list_elem_of_singleton. cbn. lia.
  - exact supported_offer_wf.
  - vm_compute. reflexivity.
Defined.
