(* ===== verification/UiContract.v ===== *)
(** * The UI tree contract

    [crates/protocol/src/ui.rs]: the checks on contexts, nodes, snapshots,
    selectors, execution channels and wait results that drivers, the runtime
    and the bundle validator share. The one-pass check of a snapshot's node
    list is shown to accept exactly the preorder traversals of forests. *)

From S2P Require Import Prelude Protocol.

Local Open Scope N_scope.

Definition UI_SNAPSHOT_FORMAT_VERSION : N := 1.
Definition UI_SNAPSHOT_MEDIA_TYPE : string :=
  "application/vnd.devicerail.ui-tree+json;version=1".
Definition MAX_UI_SNAPSHOT_NODES : N := 10000.
Definition MAX_UI_SNAPSHOT_BYTES : N := 768 * 1024.
Definition MAX_UI_IDENTIFIER_LENGTH : N := 4096.
Definition MAX_UI_ROLE_LENGTH : N := 256.
Definition MAX_UI_TEXT_LENGTH : N := 65536.
Definition MAX_ELEMENT_VALUE_LENGTH : N := 65536.

Definition FIND_ELEMENT_ACTION : string := "findElement".
Definition TAP_ELEMENT_ACTION : string := "tapElement".
Definition CLEAR_ELEMENT_ACTION : string := "clearElement".
Definition SET_ELEMENT_VALUE_ACTION : string := "setElementValue".
Definition WAIT_FOR_ELEMENT_ACTION : string := "waitForElement".

Definition is_semantic_action_name (name : string) : bool :=
  String.eqb name FIND_ELEMENT_ACTION || String.eqb name TAP_ELEMENT_ACTION ||
  String.eqb name CLEAR_ELEMENT_ACTION ||
  String.eqb name SET_ELEMENT_VALUE_ACTION ||
  String.eqb name WAIT_FOR_ELEMENT_ACTION.

Inductive UiContractError :=
| EmptyField (field : string)
| FieldTooLong (field : string)
| InvalidBounds (node : string)
| InvalidContextForCss
| InvalidSemanticExecutionContext
| EmptySelector
| UnsupportedSnapshotFormat (version : N)
| EmptySnapshot
| TooManyNodes (count : N)
| SnapshotTooLarge (bytes : N)
| DuplicateStableNodeId (id : string)
| InvalidRootOrder
| MissingOrLateParent (id : string)
| InvalidPreorder (id : string)
| InvalidNodeCount (count : N)
| InvalidByteLength (bytes : N)
| InvalidSnapshotMediaType (media_type : string)
| InvalidWaitResult.

Definition validate_required (value field : string) (max : N)
    : result UiContractError () :=
  check! reject_if (trim_is_empty value) (EmptyField field);
  reject_if (max <? chars_count value) (FieldTooLong field).

Definition validate_optional (value : option string) (field : string) (max : N)
    : result UiContractError () :=
  reject_if (match value with Some v => max <? chars_count v | None => false end)
    (FieldTooLong field).

(** [if let Some(value) = &field { validate_required(value, ..)? }] *)
Definition validate_present (value : option string) (field : string) (max : N)
    : result UiContractError () :=
  match value with Some v => validate_required v field max | None => Ok () end.

(** [UiContextRef::validate] *)
Definition context_validate (c : UiContextRef) : result UiContractError () :=
  check! validate_required (cx_context_id c) "contextId" MAX_UI_IDENTIFIER_LENGTH;
  validate_required (cx_document_epoch c) "documentEpoch" MAX_UI_IDENTIFIER_LENGTH.

Record UiContextSelector := mkUiContextSelector {
  cs_context_kind : UiContextKind;
  cs_context_id : option string;
}.

(** [UiContextSelector::validate] *)
Definition context_selector_validate (c : UiContextSelector)
    : result UiContractError () :=
  validate_present (cs_context_id c) "contextId" MAX_UI_IDENTIFIER_LENGTH.

Record UiRect := mkUiRect {
  rect_x : f64;
  rect_y : f64;
  rect_width : f64;
  rect_height : f64;
}.

(** [x >= 0.0] *)
Definition f64_ge_zero (x : f64) : bool := SFleb (S754_zero false) x.

(** [UiRect::is_valid] *)
Definition rect_is_valid (r : UiRect) : bool :=
  f64_is_finite (rect_x r) && f64_is_finite (rect_y r) &&
  f64_is_finite (rect_width r) && f64_is_finite (rect_height r) &&
  f64_ge_zero (rect_width r) && f64_ge_zero (rect_height r).

Record UiNode := mkUiNode {
  un_stable_node_id : string;
  un_parent_stable_node_id : option string;
  un_role : string;
  un_name : option string;
  un_value : option string;
  un_identifier : option string;
  un_text : option string;
  un_bounds : option UiRect;
  un_enabled : option bool;
  un_hittable : option bool;
}.

(** [UiNode::validate] *)
Definition node_validate (n : UiNode) : result UiContractError () :=
  check! validate_required (un_stable_node_id n) "stableNodeId"
    MAX_UI_IDENTIFIER_LENGTH;
  check! validate_present (un_parent_stable_node_id n) "parentStableNodeId"
    MAX_UI_IDENTIFIER_LENGTH;
  check! validate_required (un_role n) "role" MAX_UI_ROLE_LENGTH;
  check! validate_optional (un_name n) "name" MAX_UI_TEXT_LENGTH;
  check! validate_optional (un_value n) "value" MAX_UI_TEXT_LENGTH;
  check! validate_optional (un_identifier n) "identifier" MAX_UI_IDENTIFIER_LENGTH;
  check! validate_optional (un_text n) "text" MAX_UI_TEXT_LENGTH;
  reject_if (match un_bounds n with
             | Some bounds => negb (rect_is_valid bounds)
             | None => false
             end) (InvalidBounds (un_stable_node_id n)).

Record UiSnapshot := mkUiSnapshot {
  snap_format_version : N;
  snap_observation_id : Uuid;
  snap_context : UiContextRef;
  snap_root_stable_node_ids : list string;
  snap_nodes : list UiNode;
}.

(** The loop state of [UiSnapshot::validate]; the stack is kept top first. *)
Record Scan := mkScan {
  scan_seen : gset string;
  scan_stack : list string;
  scan_roots : list string;
}.

(** [rposition] of the parent and [truncate] to it. *)
Fixpoint unwind (parent : string) (stack : list string) : option (list string) :=
  match stack with
  | [] => None
  | id :: rest =>
      if bool_decide (id = parent) then Some stack else unwind parent rest
  end.

(** One iteration of the loop over the nodes. *)
Definition scan_node (s : Scan) (node : UiNode) : result UiContractError Scan :=
  let id := un_stable_node_id node in
  check! node_validate node;
  check! reject_if (bool_decide (id ∈ scan_seen s)) (DuplicateStableNodeId id);
  let seen := {[id]} ∪ scan_seen s in
  match un_parent_stable_node_id node with
  | None => Ok (mkScan seen [id] (scan_roots s ++ [id]))
  | Some parent =>
      check! reject_if (negb (bool_decide (parent ∈ seen)))
        (MissingOrLateParent id);
      stack ← ok_or (unwind parent (scan_stack s)) (InvalidPreorder id);
      Ok (mkScan seen (id :: stack) (scan_roots s))
  end.

Fixpoint scan_nodes (s : Scan) (nodes : list UiNode) : result UiContractError Scan :=
  match nodes with
  | [] => Ok s
  | node :: rest => s ← scan_node s node; scan_nodes s rest
  end.

(** [UiSnapshot::validate] *)
Definition snapshot_validate (s : UiSnapshot) : result UiContractError () :=
  check! reject_if (negb (snap_format_version s =? UI_SNAPSHOT_FORMAT_VERSION))
    (UnsupportedSnapshotFormat (snap_format_version s));
  check! context_validate (snap_context s);
  check! reject_if
    (match snap_nodes s, snap_root_stable_node_ids s with
     | [], _ | _, [] => true
     | _, _ => false
     end) EmptySnapshot;
  check! reject_if (MAX_UI_SNAPSHOT_NODES <? len (snap_nodes s))
    (TooManyNodes (len (snap_nodes s)));
  final ← scan_nodes (mkScan ∅ [] []) (snap_nodes s);
  reject_if (negb (bool_decide (scan_roots final = snap_root_stable_node_ids s)))
    InvalidRootOrder.

(** [UiSnapshotRef::validate] *)
Definition snapshot_ref_validate (r : UiSnapshotRef) : result UiContractError () :=
  check! reject_if (negb (us_format_version r =? UI_SNAPSHOT_FORMAT_VERSION))
    (UnsupportedSnapshotFormat (us_format_version r));
  check! context_validate (us_context r);
  check! reject_if
    ((us_node_count r =? 0) || (MAX_UI_SNAPSHOT_NODES <? us_node_count r))
    (InvalidNodeCount (us_node_count r));
  check! reject_if
    ((us_byte_length r =? 0) || (MAX_UI_SNAPSHOT_BYTES <? us_byte_length r))
    (InvalidByteLength (us_byte_length r));
  reject_if (negb (String.eqb (ar_media_type (us_evidence r)) UI_SNAPSHOT_MEDIA_TYPE))
    (InvalidSnapshotMediaType (ar_media_type (us_evidence r))).

(** [UiSnapshot::validate_against] *)
Definition snapshot_validate_against (s : UiSnapshot) (observation_id : Uuid)
    (reference : UiSnapshotRef) : result UiContractError () :=
  check! snapshot_validate s;
  check! snapshot_ref_validate reference;
  reject_if
    (negb (bool_decide (snap_observation_id s = observation_id)) ||
     negb (snap_format_version s =? us_format_version reference) ||
     negb (bool_decide (snap_context s = us_context reference)) ||
     negb (len (snap_nodes s) =? us_node_count reference))
    (InvalidNodeCount (us_node_count reference)).

Record UiNodeRef := mkUiNodeRef {
  nr_observation_id : Uuid;
  nr_context : UiContextRef;
  nr_stable_node_id : string;
}.

(** [UiNodeRef::validate] *)
Definition node_ref_validate (n : UiNodeRef) : result UiContractError () :=
  check! context_validate (nr_context n);
  validate_required (nr_stable_node_id n) "stableNodeId" MAX_UI_IDENTIFIER_LENGTH.

Inductive TextMatchMode := Exact | Contains.

Record TextMatch := mkTextMatch {
  tm_value : string;
  tm_mode : TextMatchMode;
  tm_case_sensitive : bool;
}.

Record ElementSelector := mkElementSelector {
  el_context : option UiContextSelector;
  el_role : option string;
  el_name : option string;
  el_value : option string;
  el_identifier : option string;
  el_text : option TextMatch;
  el_css : option string;
}.

(** [ElementSelector::is_empty] *)
Definition selector_is_empty (s : ElementSelector) : bool :=
  is_none (el_role s) && is_none (el_name s) && is_none (el_value s) &&
  is_none (el_identifier s) && is_none (el_text s) && is_none (el_css s).

(** [ElementSelector::validate] *)
Definition selector_validate (s : ElementSelector) : result UiContractError () :=
  check! reject_if (selector_is_empty s) EmptySelector;
  check! match el_context s with
    | Some context =>
        check! context_selector_validate context;
        reject_if (is_some (el_css s) &&
                   bool_decide (cs_context_kind context = Native))
          InvalidContextForCss
    | None => Ok ()
    end;
  check! validate_present (el_role s) "role" MAX_UI_ROLE_LENGTH;
  check! validate_present (el_name s) "name" MAX_UI_TEXT_LENGTH;
  check! validate_optional (el_value s) "value" MAX_UI_TEXT_LENGTH;
  check! validate_present (el_identifier s) "identifier" MAX_UI_IDENTIFIER_LENGTH;
  check! validate_present (tm_value <$> el_text s) "text.value" MAX_UI_TEXT_LENGTH;
  match el_css s with
  | Some css =>
      check! validate_required css "css" MAX_UI_TEXT_LENGTH;
      check! reject_if
        (is_some (el_role s) || is_some (el_name s) || is_some (el_value s) ||
         is_some (el_identifier s) || is_some (el_text s)) InvalidContextForCss;
      reject_if
        (negb (bool_decide (cs_context_kind <$> el_context s = Some Web)))
        InvalidContextForCss
  | None => Ok ()
  end.

Inductive ElementTarget :=
| TargetSelector (selector : ElementSelector)
| TargetNode (node : UiNodeRef).

(** [ElementTarget::validate] *)
Definition target_validate (t : ElementTarget) : result UiContractError () :=
  match t with
  | TargetSelector selector => selector_validate selector
  | TargetNode node => node_ref_validate node
  end.

(** [ActionExecution::validate] *)
Definition execution_validate (e : ActionExecution) : result UiContractError () :=
  match e with
  | NativeSemantic context =>
      if bool_decide (cx_context_kind context = Native)
      then context_validate context else Err InvalidSemanticExecutionContext
  | WebSemantic context =>
      if bool_decide (cx_context_kind context = Web)
      then context_validate context else Err InvalidSemanticExecutionContext
  | CoordinateFallback context _ => context_validate context
  end.

(** [SetElementValueArguments::validate] *)
Definition set_element_value_validate (target : ElementTarget) (value : string)
    : result UiContractError () :=
  check! target_validate target;
  validate_optional (Some value) "value" MAX_ELEMENT_VALUE_LENGTH.

Inductive WaitForElementCondition := Present | Visible | Enabled | Absent.

Record WaitForElementResult := mkWaitForElementResult {
  wr_matched : bool;
  wr_condition : WaitForElementCondition;
  wr_element : option UiNodeRef;
}.

(** [WaitForElementResult::validate] *)
Definition wait_result_validate (r : WaitForElementResult)
    : result UiContractError () :=
  let valid :=
    match wr_matched r, wr_condition r, is_some (wr_element r) with
    | false, _, false => true
    | true, Absent, false => true
    | true, Present, true | true, Visible, true | true, Enabled, true => true
    | _, _, _ => false
    end in
  check! reject_if (negb valid) InvalidWaitResult;
  match wr_element r with
  | Some element => node_ref_validate element
  | None => Ok ()
  end.

(** ** Forests and their preorder *)

Inductive Tree := Node (node : UiNode) (children : list Tree).

(** Induction with the hypothesis for every child. *)
Fixpoint Tree_rect' (P : Tree → Prop)
    (H : ∀ n ts, Forall P ts → P (Node n ts)) (t : Tree) : P t :=
  match t with
  | Node n ts => H n ts
      ((fix all ts : Forall P ts :=
          match ts with
          | [] => Forall_nil_2 P
          | t :: ts => Forall_cons_2 P t ts (Tree_rect' P H t) (all ts)
          end) ts)
  end.

Fixpoint preorder (t : Tree) : list UiNode :=
  match t with Node n ts => n :: flat_map preorder ts end.

Definition root (t : Tree) : UiNode := match t with Node n _ => n end.

(** Every node names its parent in the tree; a root names [parent]. *)
Fixpoint rooted (parent : option string) (t : Tree) : Prop :=
  match t with
  | Node n ts =>
      un_parent_stable_node_id n = parent ∧
      (fix all ts : Prop :=
         match ts with
         | [] => True
         | t :: ts => rooted (Some (un_stable_node_id n)) t ∧ all ts
         end) ts
  end.

Definition ids (nodes : list UiNode) : list string := un_stable_node_id <$> nodes.

(** The node list is a preorder traversal of a forest with distinct ids and
    the given roots. *)
Definition is_forest (nodes : list UiNode) (roots : list string) : Prop :=
  ∃ forest, nodes = flat_map preorder forest ∧
    Forall (rooted None) forest ∧ roots = ids (root <$> forest) ∧ NoDup (ids nodes).

Lemma rooted_node p n ts :
  rooted p (Node n ts) ↔
  un_parent_stable_node_id n = p ∧ Forall (rooted (Some (un_stable_node_id n))) ts.
Proof.
  cbn. apply and_iff_compat_l. induction ts as [|t ts IH]; [done|].
  rewrite IH, Forall_cons. done.
Qed.

(** ** Soundness of the scan

    The nodes seen so far are a finished forest followed by a path of open
    nodes, each with the subtrees already closed below it. *)

Local Abbreviation Frame := (prod UiNode (list Tree)).
Definition frame_id (f : Frame) : string := un_stable_node_id (fst f).
Definition flat_frame (f : Frame) : list UiNode :=
  fst f :: flat_map preorder (snd f).

(** Frames are listed innermost first. *)
Definition open_nodes (frames : list Frame) : list UiNode :=
  flat_map flat_frame (rev frames).

Fixpoint chain (frames : list Frame) : Prop :=
  match frames with
  | [] => True
  | f :: rest =>
      Forall (rooted (Some (frame_id f))) (snd f) ∧
      un_parent_stable_node_id (fst f) = frame_id <$> head rest ∧ chain rest
  end.

Lemma open_nodes_cons f frames : open_nodes (f :: frames) = open_nodes frames ++ flat_frame f.
Proof. unfold open_nodes. cbn. rewrite flat_map_app. cbn. by rewrite app_nil_r. Qed.

(** Closing the innermost node hands its subtree to the node below. *)
Definition close (n : UiNode) (k : list Tree) (f : Frame) : Frame :=
  (fst f, snd f ++ [Node n k]).

Lemma close_chain n k f rest :
  chain ((n, k) :: f :: rest) → chain (close n k f :: rest).
Proof.
  intros (Hk & Hp & Hf & Hpf & Hr). split_and!; try done.
  apply Forall_app_2; [done|]. constructor; [|constructor].
  by apply rooted_node.
Qed.

Lemma close_open n k f rest :
  open_nodes (close n k f :: rest) = open_nodes ((n, k) :: f :: rest).
Proof.
  rewrite !open_nodes_cons. unfold flat_frame, close. cbn.
  rewrite flat_map_app. cbn. by rewrite app_nil_r, <-app_assoc.
Qed.

(** Unwinding the stack closes the nodes above the parent. *)
Lemma unwind_close p n k rest stack :
  chain ((n, k) :: rest) →
  unwind p (frame_id <$> (n, k) :: rest) = Some stack →
  ∃ frames, stack = frame_id <$> frames ∧ chain frames ∧
    open_nodes frames = open_nodes ((n, k) :: rest) ∧
    frame_id <$> last frames = frame_id <$> last ((n, k) :: rest) ∧
    frame_id <$> head frames = Some p.
Proof.
  revert n k. induction rest as [|[m k2] rest IH]; intros n k Hc Hu;
    cbn in Hu; case_bool_decide as Hid; simplify_eq.
  - by eexists [_].
  - eexists ((n, k) :: (m, k2) :: rest). by split_and!.
  - destruct (IH m (k2 ++ [Node n k])) as (fs & ? & ? & Ho & Hl & ?);
      [by apply (close_chain n k (m, k2))|done|].
    exists fs. split_and!; try done.
    + rewrite Ho. apply (close_open n k (m, k2)).
    + rewrite Hl. by destruct rest.
Qed.

(** Closing everything yields a tree. *)
Lemma close_all n k rest :
  chain ((n, k) :: rest) →
  ∃ t, open_nodes ((n, k) :: rest) = preorder t ∧ rooted None t ∧
    Some (un_stable_node_id (root t)) = frame_id <$> last ((n, k) :: rest).
Proof.
  revert n k. induction rest as [|[m k2] rest IH]; intros n k Hc.
  - exists (Node n k). destruct Hc as (Hk & Hp & _). cbn in Hp.
    rewrite rooted_node. unfold open_nodes, flat_frame. cbn.
    by rewrite app_nil_r.
  - destruct (IH m (k2 ++ [Node n k])) as (t & Ho & Hr & Hl);
      [by apply (close_chain n k (m, k2))|].
    exists t. rewrite <-(close_open n k (m, k2)). split_and!; try done.
    rewrite Hl. by destruct rest.
Qed.

Record scanned (nodes : list UiNode) (s : Scan) (forest : list Tree)
    (frames : list Frame) : Prop := {
  sc_nodes : nodes = flat_map preorder forest ++ open_nodes frames;
  sc_forest : Forall (rooted None) forest;
  sc_chain : chain frames;
  sc_stack : scan_stack s = frame_id <$> frames;
  sc_roots : scan_roots s =
    ids (root <$> forest) ++ option_list (frame_id <$> last frames);
  sc_seen : scan_seen s = list_to_set (ids nodes);
  sc_nodup : NoDup (ids nodes);
}.

Lemma ids_snoc nodes n : ids (nodes ++ [n]) = ids nodes ++ [un_stable_node_id n].
Proof. unfold ids. by rewrite fmap_app. Qed.

Lemma scan_node_scanned nodes s forest frames n s' :
  scanned nodes s forest frames → scan_node s n = Ok s' →
  ∃ forest' frames', scanned (nodes ++ [n]) s' forest' frames'.
Proof.
  intros Hs H. unfold scan_node in H. inv_result. inv_bools.
  pose proof (sc_seen _ _ _ _ Hs) as Hse. pose proof (sc_nodup _ _ _ _ Hs) as Hnd.
  assert (NoDup (ids (nodes ++ [n]))) as Hnd'.
  { rewrite ids_snoc. apply NoDup_app. split_and!; [done|set_solver|].
    apply NoDup_singleton. }
  assert ({[un_stable_node_id n]} ∪ scan_seen s =
    list_to_set (ids (nodes ++ [n]))) as Hse' by (rewrite ids_snoc; set_solver).
  destruct (un_parent_stable_node_id n) as [p|] eqn:Hp; inv_result; inv_bools;
    destruct Hs as [Hn Hf Hc Hst Hro _ _].
  - destruct frames as [|[m k] rest]; [by rewrite Hst in *|].
    rewrite Hst in *. match goal with H : unwind _ _ = Some _ |- _ =>
      destruct (unwind_close p m k rest _ Hc H) as (fs & -> & Hc' & Ho & Hl & Hh) end.
    exists forest, ((n, []) :: fs).
    constructor; cbn [scan_stack scan_roots scan_seen]; try done.
    + rewrite open_nodes_cons, Ho, Hn. by rewrite <-app_assoc.
    + split_and!; [done|by rewrite Hh|done].
    + rewrite Hro. destruct fs; [done|]. by rewrite last_cons_cons, Hl.
  - destruct frames as [|[m k] rest].
    + exists forest, [(n, [])]. rewrite Hn. constructor; cbn; rewrite ?Hn in *; try done.
      * by rewrite !app_nil_r.
      * by rewrite Hro, app_nil_r.
    + destruct (close_all m k rest Hc) as (t & Ho & Hr & Hl).
      exists (forest ++ [t]), [(n, [])].
      constructor; cbn [scan_stack scan_roots scan_seen]; try done.
      * rewrite Hn, Ho, flat_map_app. cbn. by rewrite app_nil_r.
      * by apply Forall_app_2; [|constructor].
      * rewrite Hro, <-Hl. unfold ids. by rewrite !fmap_app.
Qed.

Lemma scan_nodes_scanned rest nodes s forest frames s' :
  scanned nodes s forest frames → scan_nodes s rest = Ok s' →
  ∃ forest' frames', scanned (nodes ++ rest) s' forest' frames'.
Proof.
  revert nodes s forest frames.
  induction rest as [|n rest IH]; intros nodes s forest frames Hs H; cbn in H.
  - simplify_eq. rewrite app_nil_r. eauto.
  - inv_result. match goal with H : scan_node _ _ = Ok _ |- _ =>
      destruct (scan_node_scanned _ _ _ _ _ _ Hs H) as (fo & fr & Hs') end.
    replace (nodes ++ n :: rest) with ((nodes ++ [n]) ++ rest)
      by by rewrite <-app_assoc.
    by eapply IH.
Qed.

(** A node list that passes the scan is the preorder of a forest. *)
Lemma scan_sound nodes s :
  scan_nodes (mkScan ∅ [] []) nodes = Ok s → is_forest nodes (scan_roots s).
Proof.
  intros H. destruct (scan_nodes_scanned nodes [] (mkScan ∅ [] []) [] [] s)
    as (forest & frames & [Hn Hf Hc Hst Hro Hse Hnd]); [|done|].
  { constructor; try done. apply NoDup_nil_2. }
  cbn in Hn. destruct frames as [|[m k] rest].
  - exists forest. cbn in *. rewrite !app_nil_r in *. done.
  - destruct (close_all m k rest Hc) as (t & Ho & Hr & Hl).
    exists (forest ++ [t]). split_and!.
    + rewrite Hn, Ho, flat_map_app. cbn. by rewrite app_nil_r.
    + by apply Forall_app_2; [|constructor].
    + rewrite Hro, <-Hl. unfold ids. by rewrite !fmap_app.
    + done.
Qed.

(** ** Completeness of the scan *)

Lemma scan_nodes_app s l k :
  scan_nodes s (l ++ k) = (s' ← scan_nodes s l; scan_nodes s' k).
Proof.
  revert s. induction l as [|n l IH]; intros s; [done|]. cbn.
  destruct (scan_node s n); [apply IH|done].
Qed.

Lemma unwind_above p above base :
  p ∉ above → unwind p (above ++ p :: base) = Some (p :: base).
Proof.
  induction above as [|x above IH]; intros Hp; cbn.
  - by rewrite bool_decide_true.
  - rewrite bool_decide_false by set_solver. apply IH. set_solver.
Qed.

(** A new, valid node is accepted below a parent that is still open. *)
Lemma scan_node_child s n p above base :
  is_ok (node_validate n) = true → un_stable_node_id n ∉ scan_seen s →
  un_parent_stable_node_id n = Some p → p ∈ scan_seen s →
  scan_stack s = above ++ p :: base → p ∉ above →
  scan_node s n = Ok (mkScan ({[un_stable_node_id n]} ∪ scan_seen s)
    (un_stable_node_id n :: p :: base) (scan_roots s)).
Proof.
  intros Hv Hn Hp Hin Hst Ha. unfold scan_node.
  destruct (node_validate n) as [[]|]; [|done]. cbn.
  rewrite bool_decide_false by done. cbn. rewrite Hp.
  rewrite bool_decide_true by set_solver. cbn.
  by rewrite Hst, unwind_above.
Qed.

(** What scanning a list of new nodes below [p] does to the state. *)
Definition scans_below (p : string) (base : list string) (s : Scan)
    (above : list string) (nodes : list UiNode) (s' : Scan) (above' : list string)
    : Prop :=
  scan_nodes s nodes = Ok s' ∧ scan_stack s' = above' ++ p :: base ∧
  (∀ x, x ∈ above' → x ∈ above ∨ x ∈ ids nodes) ∧
  scan_seen s' = list_to_set (ids nodes) ∪ scan_seen s ∧
  scan_roots s' = scan_roots s.

(** The list is new to the scan and well formed. *)
Definition fresh_nodes (s : Scan) (nodes : list UiNode) : Prop :=
  Forall (λ n, is_ok (node_validate n) = true) nodes ∧ NoDup (ids nodes) ∧
  list_to_set (ids nodes) ## scan_seen s.

Definition tree_scans (t : Tree) : Prop := ∀ p base s above,
  rooted (Some p) t → fresh_nodes s (preorder t) → p ∈ scan_seen s →
  scan_stack s = above ++ p :: base → (p ∉ above) →
  ∃ s' above', scans_below p base s above (preorder t) s' above'.

Lemma ids_app l k : ids (l ++ k) = ids l ++ ids k.
Proof. apply fmap_app. Qed.

Lemma fresh_nodes_l s l k : fresh_nodes s (l ++ k) → fresh_nodes s l.
Proof.
  unfold fresh_nodes. rewrite Forall_app, ids_app, NoDup_app, list_to_set_app_L.
  intros ((? & ?) & (? & Hd & ?) & ?). split_and!; try done; set_solver.
Qed.

Lemma fresh_nodes_r s l k s' :
  fresh_nodes s (l ++ k) → scan_seen s' = list_to_set (ids l) ∪ scan_seen s →
  fresh_nodes s' k.
Proof.
  unfold fresh_nodes. rewrite Forall_app, ids_app, NoDup_app, list_to_set_app_L.
  intros ((? & ?) & (? & Hd & ?) & ?) ->. split_and!; try done; set_solver.
Qed.

Lemma forest_scans ts p base s above :
  Forall tree_scans ts → Forall (rooted (Some p)) ts →
  fresh_nodes s (flat_map preorder ts) → p ∈ scan_seen s →
  scan_stack s = above ++ p :: base → (p ∉ above) →
  ∃ s' above', scans_below p base s above (flat_map preorder ts) s' above'.
Proof.
  intros Hts. revert s above. induction Hts as [|t ts Ht _ IH];
    intros s above Hr Hf Hp Hst Ha; cbn.
  { exists s, above. split_and!; try done; cbn; set_solver. }
  apply Forall_cons in Hr as [Hrt Hrs]. cbn in Hf.
  pose proof (fresh_nodes_l _ _ _ Hf) as Hf1.
  destruct (Ht p base s above) as (s1 & a1 & H1 & Hs1 & Ha1 & Hse1 & Hro1); try done.
  pose proof (fresh_nodes_r _ _ _ s1 Hf Hse1) as Hf2.
  destruct (IH s1 a1) as (s2 & a2 & H2 & Hs2 & Ha2 & Hse2 & Hro2); try done.
  { rewrite Hse1. set_solver. }
  { intros [?|?]%Ha1; [done|]. destruct Hf1 as (_ & _ & Hd). set_solver. }
  exists s2, a2. split_and!; try done.
  - by rewrite scan_nodes_app, H1.
  - intros x Hx. rewrite ids_app, elem_of_app. naive_solver.
  - rewrite Hse2, Hse1, ids_app, list_to_set_app_L. set_solver.
  - congruence.
Qed.

Lemma scans_tree t : tree_scans t.
Proof.
  induction t as [n ts IH] using Tree_rect'.
  intros p base s above [Hp Hr]%rooted_node Hf Hin Hst Ha. cbn [preorder] in *.
  set (id := un_stable_node_id n) in *.
  set (s1 := mkScan ({[id]} ∪ scan_seen s) (id :: p :: base) (scan_roots s)).
  destruct (fresh_nodes_l s [n] _ Hf) as (Hv%Forall_inv & _ & Hd).
  assert (fresh_nodes s1 (flat_map preorder ts)) as Hf2
    by (apply (fresh_nodes_r s [n] _ s1 Hf); cbn; set_solver).
  assert (scan_node s n = Ok s1) as H1
    by (eapply scan_node_child; try done; cbn in Hd; set_solver).
  destruct (forest_scans ts id (p :: base) s1 []) as (s2 & a2 & H2 & Hs2 & Ha2 & Hse2 & Hro2);
    try done; [cbn; set_solver|set_solver|].
  exists s2, (a2 ++ [id]). split_and!; try done.
  - cbn. by rewrite H1.
  - by rewrite <-app_assoc.
  - cbn. fold id. set_solver.
  - rewrite Hse2. cbn. fold id. set_solver.
Qed.

(** Every forest of valid nodes with distinct ids passes the scan. *)
Lemma scan_complete forest s :
  Forall (rooted None) forest → fresh_nodes s (flat_map preorder forest) →
  ∃ s', scan_nodes s (flat_map preorder forest) = Ok s' ∧
    scan_roots s' = scan_roots s ++ ids (root <$> forest).
Proof.
  intros Hr. revert s. induction Hr as [|[n ts] forest [Hp Hts]%rooted_node _ IH];
    intros s Hf; cbn.
  { exists s. by rewrite app_nil_r. }
  set (id := un_stable_node_id n) in *.
  set (s1 := mkScan ({[id]} ∪ scan_seen s) [id] (scan_roots s ++ [id])).
  cbn in Hf. destruct (fresh_nodes_l s [n] _ Hf) as (Hv%Forall_inv & _ & Hd).
  assert (fresh_nodes s1 (flat_map preorder ts ++ flat_map preorder forest)) as Hf2
    by (apply (fresh_nodes_r s [n] _ s1 Hf); cbn; set_solver).
  assert (scan_node s n = Ok s1) as ->.
  { unfold scan_node. destruct (node_validate n) as [[]|]; [|done]. cbn.
    rewrite bool_decide_false by (cbn in Hd; set_solver). cbn. by rewrite Hp. }
  destruct (forest_scans ts id [] s1 []) as (s2 & a2 & H2 & _ & _ & Hse2 & Hro2);
    [by apply Forall_true, scans_tree|done|by eapply fresh_nodes_l|cbn; set_solver|
     done|set_solver|].
  destruct (IH s2) as (s3 & H3 & Hro3); [by eapply fresh_nodes_r|].
  exists s3. cbn. rewrite scan_nodes_app, H2. cbn. split; [done|].
  rewrite Hro3, Hro2. cbn. by rewrite <-app_assoc.
Qed.

(** The one-pass scan accepts exactly the preorder traversals of forests of
    valid nodes. *)
Lemma scan_nodes_iff nodes roots :
  (∃ s, scan_nodes (mkScan ∅ [] []) nodes = Ok s ∧ scan_roots s = roots) ↔
  Forall (λ n, is_ok (node_validate n) = true) nodes ∧ is_forest nodes roots.
Proof.
  split.
  - intros (s & H & <-). split; [|by apply scan_sound].
    clear -H. revert H. generalize (mkScan ∅ [] []).
    induction nodes as [|n nodes IH]; intros s0 H; [constructor|]. cbn in H.
    inv_result. constructor; [|by eapply IH].
    unfold scan_node in *. inv_result. by destruct (node_validate n).
  - intros (Hv & forest & -> & Hr & -> & Hnd).
    destruct (scan_complete forest (mkScan ∅ [] []) Hr) as (s & ? & ?); [|by exists s].
    split_and!; [done|done|set_solver].
Qed.

(** C21: [UiSnapshot::validate] accepts a snapshot exactly when its format
    and context are valid, it has between 1 and 10000 nodes, every node is
    valid, the node list is the preorder traversal of a forest in which every
    node names its parent and no id repeats, and the declared root ids are
    the roots of that forest in order. *)
Theorem snapshot_validate_iff_forest s :
  is_ok (snapshot_validate s) = true ↔
  snap_format_version s = UI_SNAPSHOT_FORMAT_VERSION ∧
  is_ok (context_validate (snap_context s)) = true ∧
  snap_nodes s ≠ [] ∧ len (snap_nodes s) <= MAX_UI_SNAPSHOT_NODES ∧
  Forall (λ n, is_ok (node_validate n) = true) (snap_nodes s) ∧
  is_forest (snap_nodes s) (snap_root_stable_node_ids s).
Proof.
  rewrite <-scan_nodes_iff. unfold snapshot_validate.
  destruct (N.eqb_spec (snap_format_version s) UI_SNAPSHOT_FORMAT_VERSION); cbn;
    [|naive_solver].
  destruct (context_validate (snap_context s)) as [[]|]; cbn; [|naive_solver].
  destruct (snap_nodes s) as [|n nodes] eqn:Hn; [cbn; naive_solver|].
  destruct (N.ltb_spec MAX_UI_SNAPSHOT_NODES (len (n :: nodes))).
  { destruct (snap_root_stable_node_ids s); cbn; naive_solver lia. }
  destruct (scan_nodes (mkScan ∅ [] []) (n :: nodes)) as [f|] eqn:Hs.
  2: { destruct (snap_root_stable_node_ids s); cbn; naive_solver. }
  assert (scan_roots f ≠ []) as Hne.
  { destruct (scan_sound _ _ Hs) as ([|[m k] forest] & ? & _ & -> & _); done. }
  destruct (snap_root_stable_node_ids s) as [|r rs]; cbn [reject_if mbind result_bind].
  - split; [done|]. naive_solver.
  - cbn. case_bool_decide; cbn; naive_solver.
Qed.
