(* ===== verification/BundleValidation.v ===== *)
(** * Session Bundle validation

    [crates/session-bundle/src/event_validation.rs] with the data of
    [model.rs]: the checks an exported Session passes before it is written as
    a bundle and after it is read back. Reading and hashing files is not
    modelled. *)

From S2P Require Import Prelude Protocol Evidence Handshake UiContract.

Local Open Scope N_scope.

(** ** Data ([model.rs]) *)

Definition BUNDLE_MAGIC : string := "devicerail.session-bundle".
Definition BUNDLE_VERSION : N := 1.
Definition ASSET_PATH_PREFIX : string := "assets/sha256/".

Record BundleSource := mkBundleSource {
  src_event_protocol_version : ProtocolVersion;
  src_session_export : SessionExport;
}.

Record BundleAsset := mkBundleAsset {
  ba_sha256 : string;
  ba_media_type : string;
  ba_byte_length : N;
  ba_path : string;
}.

Record BundleManifest := mkBundleManifest {
  bm_magic : string;
  bm_bundle_version : N;
  bm_event_protocol_version : ProtocolVersion;
  bm_session : SessionInfo;
  bm_events : list TestEvent;
  bm_assets : list BundleAsset;
}.

(** [BundleManifest::from_source] and [BundleManifest::session_export] *)
Definition manifest_from_source (s : BundleSource) (assets : list BundleAsset)
    : BundleManifest :=
  {| bm_magic := BUNDLE_MAGIC;
     bm_bundle_version := BUNDLE_VERSION;
     bm_event_protocol_version := src_event_protocol_version s;
     bm_session := se_session (src_session_export s);
     bm_events := se_events (src_session_export s);
     bm_assets := assets |}.
Definition manifest_session_export (m : BundleManifest) : SessionExport :=
  {| se_session := bm_session m; se_events := bm_events m |}.

(** [BundleAsset::canonical_path] *)
Definition canonical_path (digest : string) : string := ASSET_PATH_PREFIX +:+ digest.

Record BundleLimits := mkBundleLimits {
  bl_max_manifest_bytes : N;
  bl_max_events : N;
  bl_max_assets : N;
  bl_max_json_depth : N;
  bl_max_json_nodes : N;
  bl_max_typed_references : N;
  bl_max_asset_bytes : N;
  bl_max_total_asset_bytes : N;
}.

(** [BundleLimits::default] *)
Definition BundleLimits_default : BundleLimits :=
  {| bl_max_manifest_bytes := 16 * 1024 * 1024;
     bl_max_events := 100000;
     bl_max_assets := 10000;
     bl_max_json_depth := 128;
     bl_max_json_nodes := 1000000;
     bl_max_typed_references := 100000;
     bl_max_asset_bytes := 512 * 1024 * 1024;
     bl_max_total_asset_bytes := 4 * 1024 * 1024 * 1024 |}.

Record BundleSummary := mkBundleSummary {
  sum_session_id : SessionId;
  sum_event_count : N;
  sum_asset_count : N;
  sum_asset_bytes : N;
}.

(** [BundleSummary::from_manifest] *)
Definition summary_from_manifest (m : BundleManifest) : BundleSummary :=
  {| sum_session_id := si_id (bm_session m);
     sum_event_count := len (bm_events m);
     sum_asset_count := len (bm_assets m);
     sum_asset_bytes :=
       foldl (λ total a, u64_saturating_add total (ba_byte_length a)) 0 (bm_assets m) |}.

(** ** Errors: [enum ModelError], its constructors prefixed by [Model]. *)

Inductive ModelError :=
| ModelUnsupportedMagic
| ModelUnsupportedBundleVersion (version : N)
| ModelUnsupportedEventProtocol (major minor : N)
| ModelFieldRequiresProtocol12 (field : string)
| ModelFieldRequiresProtocol14 (field : string)
| ModelFieldRequiresProtocol15 (field : string)
| ModelLimitExceeded (resource : string) (limit : N)
| ModelJsonDepthLimit
| ModelSessionNotEnded
| ModelInvalidEndedSession
| ModelInvalidEventSequence
| ModelEventSessionMismatch
| ModelDuplicateEventId
| ModelInvalidLifecycle
| ModelDuplicateActionCall (id : Uuid)
| ModelActionNotStarted (id : Uuid)
| ModelActionCorrelationMismatch (id : Uuid)
| ModelActionResultMismatch (id : Uuid)
| ModelActionTimeMismatch (id : Uuid)
| ModelActionStillInFlight
| ModelInvalidMediaStream
| ModelMediaStreamStillInFlight
| ModelRedactedArgumentsNotNull
| ModelObservationScreenshotConflict
| ModelObservationUiSnapshotConflict
| ModelInvalidUiSnapshotReference
| ModelInvalidActionExecution
| ModelInvalidObservationViewport
| ModelInvalidProtectedActionOmission
| ModelUnexpectedProtectedActionOmission
| ModelInvalidEvidenceReference
| ModelConflictingEvidenceMediaType (digest : string)
| ModelConflictingEvidenceByteLength (digest : string)
| ModelInvalidAssetIndexEntry
| ModelInvalidAssetPath
| ModelAssetIndexNotSorted
| ModelAssetSizeLimit
| ModelAssetSetMismatch
| ModelAssetMediaTypeMismatch
| ModelAssetByteLengthMismatch.

(** ** Protocol gates *)

Definition validate_event_protocol (v : ProtocolVersion) : result ModelError () :=
  if (pv_major v =? 1) && (pv_minor v <=? 5) then Ok ()
  else Err (ModelUnsupportedEventProtocol (pv_major v) (pv_minor v)).

Definition require_protocol_12 (p : ProtocolVersion) (field : string)
    : result ModelError () :=
  if (pv_major p =? 1) && (2 <=? pv_minor p) then Ok ()
  else Err (ModelFieldRequiresProtocol12 field).
Definition require_protocol_14 (p : ProtocolVersion) (field : string)
    : result ModelError () :=
  if (pv_major p =? 1) && (4 <=? pv_minor p) then Ok ()
  else Err (ModelFieldRequiresProtocol14 field).
Definition require_protocol_15 (p : ProtocolVersion) (field : string)
    : result ModelError () :=
  if (pv_major p =? 1) && (5 <=? pv_minor p) then Ok ()
  else Err (ModelFieldRequiresProtocol15 field).

(** ** Bounded JSON values *)

(** The number of values a JSON value consists of, and its nesting depth. *)
Fixpoint json_nodes (v : Json) : N :=
  match v with
  | JArray values => 1 + foldr (λ v n, json_nodes v + n) 0 values
  | JObject entries => 1 + foldr (λ e n, json_nodes (snd e) + n) 0 entries
  | _ => 1
  end.

Fixpoint json_depth (v : Json) : N :=
  match v with
  | JArray values => 1 + foldr (λ v n, N.max (json_depth v) n) 0 values
  | JObject entries => 1 + foldr (λ e n, N.max (json_depth (snd e)) n) 0 entries
  | _ => 1
  end.

(** The values [pending.extend] pushes for one value. *)
Definition json_children (v : Json) : list Json :=
  match v with
  | JArray values => values
  | JObject entries => snd <$> entries
  | _ => []
  end.

(** The loop of [validate_json_value]; [pending] is the stack, top first. The
    number of values of the root bounds the number of iterations, so the loop
    never runs out of fuel (see [json_loop_iff]). *)
Fixpoint json_loop (fuel : nat) (limits : BundleLimits)
    (pending : list (Json * N)) (observed_nodes : N) : result ModelError () :=
  let over := ModelLimitExceeded "event JSON nodes" (bl_max_json_nodes limits) in
  match fuel, pending with
  | O, _ => Err ModelJsonDepthLimit
  | S _, [] => Ok ()
  | S fuel, (value, depth) :: pending =>
      check! reject_if (bl_max_json_depth limits <? depth) ModelJsonDepthLimit;
      observed_nodes ← ok_or (usize_checked_add observed_nodes 1) over;
      check! reject_if (bl_max_json_nodes limits <? observed_nodes) over;
      next_depth ← ok_or (usize_checked_add depth 1) ModelJsonDepthLimit;
      let remaining := bl_max_json_nodes limits - observed_nodes in
      check! reject_if (remaining <? len pending) over;
      let available := remaining - len pending in
      let values := json_children value in
      check! reject_if (available <? len values) over;
      json_loop fuel limits
        (rev ((λ v, (v, next_depth)) <$> values) ++ pending) observed_nodes
  end.

(** [validate_json_value] *)
Definition validate_json_value (root : Json) (initial_depth : N)
    (limits : BundleLimits) : result ModelError () :=
  json_loop (S (N.to_nat (json_nodes root))) limits [(root, initial_depth)] 0.

(** [for x in xs { f(x)? }] *)
Fixpoint for_each {A E} (f : A → result E ()) (l : list A) : result E () :=
  match l with
  | [] => Ok ()
  | x :: l => check! f x; for_each f l
  end.

(** The same, threading a state. *)
Fixpoint fold_result {A S E} (f : S → A → result E S) (s : S) (l : list A)
    : result E S :=
  match l with
  | [] => Ok s
  | x :: l => s ← f s x; fold_result f s l
  end.

(** ** Observations and results *)

Definition validate_observation (o : Observation) (protocol : ProtocolVersion)
    (limits : BundleLimits) : result ModelError () :=
  check! reject_if (is_some (obs_screenshot o) && is_some (obs_screenshot_omission o))
    ModelObservationScreenshotConflict;
  check! if is_some (obs_screenshot_omission o)
    then require_protocol_12 protocol "screenshotOmission" else Ok ();
  check! reject_if (is_some (obs_ui_snapshot o) && is_some (obs_ui_snapshot_omission o))
    ModelObservationUiSnapshotConflict;
  check! if is_some (obs_ui_snapshot o) || is_some (obs_ui_snapshot_omission o)
    then require_protocol_15 protocol "uiSnapshot" else Ok ();
  check! reject_if
    (match obs_ui_snapshot o with
     | Some snapshot => is_err (snapshot_ref_validate snapshot)
     | None => false
     end) ModelInvalidUiSnapshotReference;
  check! reject_if (negb (f64_is_finite (vp_scale_factor (obs_viewport o))))
    ModelInvalidObservationViewport;
  for_each (λ entry, validate_json_value (snd entry) 2 limits) (obs_metadata o).

Definition validate_error_details (e : ErrorInfo) (limits : BundleLimits)
    : result ModelError () :=
  match ei_details e with
  | Some details => validate_json_value details 1 limits
  | None => Ok ()
  end.

Definition observation_protected (o : Observation) : bool :=
  bool_decide (obs_screenshot_omission o = Some Omission_ProtectedAction) ||
  bool_decide (obs_ui_snapshot_omission o = Some UiOmission_ProtectedAction).

Definition result_observations (r : ActionResult) : list Observation :=
  option_list (res_before r) ++ option_list (res_after r).

Definition validate_success_omission (protocol : ProtocolVersion)
    (arguments_redacted : bool) (r : ActionResult) : result ModelError () :=
  if arguments_redacted then
    let protected_observation (observation : option Observation) :=
      match observation with
      | Some o =>
          is_none (obs_screenshot o) &&
          bool_decide (obs_screenshot_omission o = Some Omission_ProtectedAction) &&
          is_none (obs_ui_snapshot o) &&
          ((pv_minor protocol <? 5) ||
           is_none (obs_ui_snapshot_omission o) ||
           bool_decide (obs_ui_snapshot_omission o = Some UiOmission_ProtectedAction))
      | None => false
      end in
    reject_if
      (negb (match res_evidence r with [] => true | _ => false end) ||
       negb (protected_observation (res_before r)) ||
       negb (protected_observation (res_after r)))
      ModelInvalidProtectedActionOmission
  else
    reject_if (existsb observation_protected (result_observations r))
      ModelUnexpectedProtectedActionOmission.

(** The check of [result.execution] in the event loop. *)
Definition validate_execution (protocol : ProtocolVersion)
    (execution : option ActionExecution) : result ModelError () :=
  match execution with
  | None => Ok ()
  | Some execution =>
      check! require_protocol_15 protocol "execution";
      let '(context, expected_kind) :=
        match execution with
        | NativeSemantic context => (context, Some Native)
        | WebSemantic context => (context, Some Web)
        | CoordinateFallback context _ => (context, None)
        end in
      reject_if
        (is_err (context_validate context) ||
         match expected_kind with
         | Some kind => negb (bool_decide (cx_context_kind context = kind))
         | None => false
         end) ModelInvalidActionExecution
  end.

(** ** Evidence references *)

Record ReferenceCollector := mkReferenceCollector {
  col_typed_reference_count : N;
  col_by_digest : gmap Sha256Digest AssetRef;
  col_declared_byte_lengths : gmap Sha256Digest N;
}.

(** [ReferenceCollector::new] *)
Definition collector_new : ReferenceCollector := mkReferenceCollector 0 ∅ ∅.

(** [ReferenceCollector::add] *)
Definition collector_add (limits : BundleLimits) (c : ReferenceCollector)
    (reference : AssetRef) : result ModelError ReferenceCollector :=
  let over := ModelLimitExceeded "typed Evidence references"
    (bl_max_typed_references limits) in
  count ← ok_or (usize_checked_add (col_typed_reference_count c) 1) over;
  check! reject_if (bl_max_typed_references limits <? count) over;
  digest ← map_err (λ _, ModelInvalidEvidenceReference) (from_asset_ref reference);
  match col_by_digest c !! digest with
  | Some existing =>
      check! reject_if
        (negb (String.eqb (ar_media_type existing) (ar_media_type reference)))
        (ModelConflictingEvidenceMediaType digest);
      Ok (mkReferenceCollector count (col_by_digest c) (col_declared_byte_lengths c))
  | None =>
      check! reject_if
        (bl_max_assets limits <=? N.of_nat (size (col_by_digest c)))
        (ModelLimitExceeded "unique typed Evidence assets" (bl_max_assets limits));
      Ok (mkReferenceCollector count (<[digest := reference]> (col_by_digest c))
        (col_declared_byte_lengths c))
  end.

(** [ReferenceCollector::add_with_length] *)
Definition collector_add_with_length (limits : BundleLimits) (c : ReferenceCollector)
    (snapshot : UiSnapshotRef) : result ModelError ReferenceCollector :=
  let reference := us_evidence snapshot in
  let byte_length := us_byte_length snapshot in
  c ← collector_add limits c reference;
  digest ← map_err (λ _, ModelInvalidEvidenceReference) (from_asset_ref reference);
  match col_declared_byte_lengths c !! digest with
  | Some existing =>
      check! reject_if (negb (existing =? byte_length))
        (ModelConflictingEvidenceByteLength digest);
      Ok c
  | None =>
      Ok (mkReferenceCollector (col_typed_reference_count c) (col_by_digest c)
        (<[digest := byte_length]> (col_declared_byte_lengths c)))
  end.

Definition collector_add_all (limits : BundleLimits) (c : ReferenceCollector)
    (references : list AssetRef) : result ModelError ReferenceCollector :=
  fold_result (collector_add limits) c references.

Definition collector_add_snapshots (limits : BundleLimits) (c : ReferenceCollector)
    (snapshots : list UiSnapshotRef) : result ModelError ReferenceCollector :=
  fold_result (collector_add_with_length limits) c snapshots.

(** ** The event loop of [validate_export] *)

Record BundleCorrelation := mkBundleCorrelation {
  bc_request_id : option RpcId;
  bc_device_id : option DeviceId;
  bc_arguments_redacted : bool;
}.

(** The loop's variables. *)
Record Walk := mkWalk {
  wk_event_ids : gset EventId;
  wk_seen_calls : gset Uuid;
  wk_in_flight : gmap Uuid BundleCorrelation;
  wk_seen_media_streams : gset MediaStreamId;
  wk_media_streams : gmap MediaStreamId (string * N);
  wk_references : ReferenceCollector;
}.

Definition walk0 : Walk := mkWalk ∅ ∅ ∅ ∅ ∅ collector_new.

Definition set_references (w : Walk) (c : ReferenceCollector) : Walk :=
  mkWalk (wk_event_ids w) (wk_seen_calls w) (wk_in_flight w)
    (wk_seen_media_streams w) (wk_media_streams w) c.
Definition set_calls (w : Walk) (seen : gset Uuid)
    (in_flight : gmap Uuid BundleCorrelation) : Walk :=
  mkWalk (wk_event_ids w) seen in_flight
    (wk_seen_media_streams w) (wk_media_streams w) (wk_references w).
Definition set_streams (w : Walk) (seen : gset MediaStreamId)
    (streams : gmap MediaStreamId (string * N)) : Walk :=
  mkWalk (wk_event_ids w) (wk_seen_calls w) (wk_in_flight w) seen streams
    (wk_references w).

Section Walk.
Context (protocol : ProtocolVersion) (limits : BundleLimits).

(** The arms of the [match] on an event's payload. [inner] is
    [!(first || last)]. *)
Definition walk_observation (w : Walk) (inner : bool) (o : Observation)
    : result ModelError Walk :=
  check! reject_if (negb inner) ModelInvalidLifecycle;
  check! validate_observation o protocol limits;
  check! reject_if (observation_protected o) ModelUnexpectedProtectedActionOmission;
  c ← collector_add_all limits (wk_references w) (option_list (obs_screenshot o));
  c ← collector_add_snapshots limits c (option_list (obs_ui_snapshot o));
  Ok (set_references w c).

Definition walk_action_started (w : Walk) (inner : bool) (e : TestEvent)
    (call : RecordedActionCall) : result ModelError Walk :=
  check! reject_if (negb inner) ModelInvalidLifecycle;
  check! if rc_arguments_redacted call then
      check! require_protocol_12 protocol "argumentsRedacted";
      reject_if (negb (is_null (rc_arguments call))) ModelRedactedArgumentsNotNull
    else Ok ();
  check! validate_json_value (rc_arguments call) 1 limits;
  check! reject_if (bool_decide (rc_id call ∈ wk_seen_calls w))
    (ModelDuplicateActionCall (rc_id call));
  Ok (set_calls w ({[rc_id call]} ∪ wk_seen_calls w)
    (<[rc_id call := mkBundleCorrelation (ev_request_id e) (ev_device_id e)
         (rc_arguments_redacted call)]> (wk_in_flight w))).

Definition walk_success (c : ReferenceCollector) (id : Uuid) (redacted : bool)
    (r : ActionResult) : result ModelError ReferenceCollector :=
  check! reject_if (negb (bool_decide (res_call_id r = id)))
    (ModelActionResultMismatch id);
  check! reject_if (res_finished_at_ms r <? res_started_at_ms r)
    (ModelActionTimeMismatch id);
  check! validate_json_value (res_output r) 1 limits;
  check! for_each (λ o, validate_observation o protocol limits) (result_observations r);
  check! validate_execution protocol (res_execution r);
  check! validate_success_omission protocol redacted r;
  c ← collector_add_all limits c
    (omap obs_screenshot (result_observations r) ++ res_evidence r);
  collector_add_snapshots limits c (omap obs_ui_snapshot (result_observations r)).

Definition walk_action_completed (w : Walk) (inner : bool) (e : TestEvent)
    (id : Uuid) (outcome : ActionOutcome) : result ModelError Walk :=
  check! reject_if (negb inner) ModelInvalidLifecycle;
  started ← ok_or (wk_in_flight w !! id) (ModelActionNotStarted id);
  let w := set_calls w (wk_seen_calls w) (delete id (wk_in_flight w)) in
  check! reject_if
    (negb (bool_decide (bc_request_id started = ev_request_id e)) ||
     negb (bool_decide (bc_device_id started = ev_device_id e)))
    (ModelActionCorrelationMismatch id);
  match outcome with
  | Succeeded r =>
      c ← walk_success (wk_references w) id (bc_arguments_redacted started) r;
      Ok (set_references w c)
  | Failed error | Cancelled error | TimedOut error _ =>
      check! validate_error_details error limits;
      Ok w
  end.

Definition walk_media_started (w : Walk) (inner : bool) (s : MediaStreamInfo)
    : result ModelError Walk :=
  check! require_protocol_14 protocol "mediaStreamStarted";
  check! reject_if
    (negb inner || (str_len (ms_media_type s) =? 0) ||
     (255 <? str_len (ms_media_type s)) ||
     existsb is_ascii_control (bytes (ms_media_type s)) ||
     bool_decide (ms_id s ∈ wk_seen_media_streams w) ||
     match ms_viewport s with
     | Some v =>
         (vp_width v =? 0) || (vp_height v =? 0) ||
         negb (f64_is_finite (vp_scale_factor v)) || f64_le_zero (vp_scale_factor v)
     | None => false
     end) ModelInvalidMediaStream;
  Ok (set_streams w ({[ms_id s]} ∪ wk_seen_media_streams w)
    (<[ms_id s := (ms_media_type s, 1)]> (wk_media_streams w))).

Definition walk_media_frame (w : Walk) (inner : bool) (f : MediaFrame)
    : result ModelError Walk :=
  check! require_protocol_14 protocol "mediaFrameCaptured";
  check! reject_if (negb inner) ModelInvalidLifecycle;
  '(media_type, next_index) ←
    ok_or (wk_media_streams w !! mf_stream_id f) ModelInvalidMediaStream;
  check! reject_if
    (negb (EventSequence.get (mf_frame_index f) =? next_index) ||
     negb (String.eqb (ar_media_type (mf_evidence f)) media_type) ||
     match mf_duration_ms f with
     | Some value => MAX_SAFE_INTEGER <? value
     | None => false
     end) ModelInvalidMediaStream;
  c ← collector_add limits (wk_references w) (mf_evidence f);
  Ok (set_references
    (set_streams w (wk_seen_media_streams w)
      (<[mf_stream_id f := (media_type, next_index + 1)]> (wk_media_streams w))) c).

Definition walk_media_ended (w : Walk) (inner : bool) (id : MediaStreamId)
    (frame_count : N) : result ModelError Walk :=
  check! require_protocol_14 protocol "mediaStreamEnded";
  check! reject_if (negb inner) ModelInvalidLifecycle;
  '(_, next_index) ← ok_or (wk_media_streams w !! id) ModelInvalidMediaStream;
  check! reject_if (negb (frame_count =? next_index - 1)) ModelInvalidMediaStream;
  Ok (set_streams w (wk_seen_media_streams w) (delete id (wk_media_streams w))).

(** The body of the loop for one event; [w] already holds its event id. *)
Definition walk_payload (session : SessionInfo) (ended_at_ms : N) (w : Walk)
    (first last : bool) (e : TestEvent) : result ModelError Walk :=
  let inner := negb (first || last) in
  match ev_payload e with
  | SessionStarted =>
      check! reject_if (negb first || negb (ev_at_ms e =? si_started_at_ms session))
        ModelInvalidLifecycle;
      Ok w
  | SessionEnded _ _ =>
      check! reject_if (negb last || negb (ev_at_ms e =? ended_at_ms))
        ModelInvalidLifecycle;
      Ok w
  | ObservationCaptured o => walk_observation w inner o
  | ActionStarted call => walk_action_started w inner e call
  | ActionCompleted id outcome => walk_action_completed w inner e id outcome
  | MediaStreamStarted s => walk_media_started w inner s
  | MediaFrameCaptured f => walk_media_frame w inner f
  | MediaStreamEnded id n => walk_media_ended w inner id n
  | VerdictRecorded v =>
      check! reject_if (negb inner) ModelInvalidLifecycle;
      c ← collector_add_all limits (wk_references w) (vd_evidence v);
      Ok (set_references w c)
  | ErrorEvent error =>
      check! reject_if (negb inner) ModelInvalidLifecycle;
      check! validate_error_details error limits;
      Ok w
  end.

Definition is_session_started (p : TestEventPayload) : bool :=
  match p with SessionStarted => true | _ => false end.
Definition is_session_end (p : TestEventPayload) : bool :=
  match p with SessionEnded _ _ => true | _ => false end.

Definition walk_event (session : SessionInfo) (ended_at_ms : N) (total : N)
    (index : N) (w : Walk) (e : TestEvent) : result ModelError Walk :=
  expected_sequence ← ok_or (EventSequence.new (index + 1)) ModelInvalidEventSequence;
  check! reject_if (negb (ev_sequence e =? expected_sequence)) ModelInvalidEventSequence;
  check! reject_if (negb (bool_decide (ev_session_id e = si_id session)))
    ModelEventSessionMismatch;
  check! reject_if (bool_decide (ev_event_id e ∈ wk_event_ids w)) ModelDuplicateEventId;
  let w := mkWalk ({[ev_event_id e]} ∪ wk_event_ids w) (wk_seen_calls w)
    (wk_in_flight w) (wk_seen_media_streams w) (wk_media_streams w)
    (wk_references w) in
  let first := index =? 0 in
  let last := index + 1 =? total in
  w ← walk_payload session ended_at_ms w first last e;
  check! reject_if (first && negb (is_session_started (ev_payload e)))
    ModelInvalidLifecycle;
  check! reject_if (last && negb (is_session_end (ev_payload e)))
    ModelInvalidLifecycle;
  Ok w.

Fixpoint walk_events (session : SessionInfo) (ended_at_ms : N) (total : N)
    (index : N) (w : Walk) (events : list TestEvent) : result ModelError Walk :=
  match events with
  | [] => Ok w
  | e :: rest =>
      w ← walk_event session ended_at_ms total index w e;
      walk_events session ended_at_ms total (index + 1) w rest
  end.

(** [validate_export] *)
Definition validate_export (export : SessionExport)
    : result ModelError ReferenceCollector :=
  let session := se_session export in
  let total := len (se_events export) in
  check! reject_if (bl_max_events limits <? total)
    (ModelLimitExceeded "events" (bl_max_events limits));
  check! reject_if (negb (bool_decide (si_state session = Ended))) ModelSessionNotEnded;
  ended_at_ms ← ok_or (si_ended_at_ms session) ModelInvalidEndedSession;
  event_count ← ok_or (EventSequence.new total) ModelInvalidEventSequence;
  check! reject_if
    (negb (si_event_count session =? event_count) ||
     negb (si_last_sequence session =? event_count)) ModelInvalidEventSequence;
  w ← walk_events session ended_at_ms total 0 walk0 (se_events export);
  check! reject_if (negb (bool_decide (size (wk_in_flight w) = 0%nat)))
    ModelActionStillInFlight;
  check! reject_if (negb (bool_decide (size (wk_media_streams w) = 0%nat)))
    ModelMediaStreamStillInFlight;
  check! reject_if
    (bl_max_assets limits <? N.of_nat (size (col_by_digest (wk_references w))))
    (ModelLimitExceeded "unique typed Evidence assets" (bl_max_assets limits));
  Ok (wk_references w).
End Walk.

(** [validate_source] *)
Definition validate_source (source : BundleSource) (limits : BundleLimits)
    : result ModelError (gmap Sha256Digest AssetRef) :=
  check! validate_event_protocol (src_event_protocol_version source);
  references ← validate_export (src_event_protocol_version source) limits
    (src_session_export source);
  Ok (col_by_digest references).

(** ** The asset index *)

(** The variables of the loop over the assets. *)
Record IndexWalk := mkIndexWalk {
  ix_indexed : gmap Sha256Digest BundleAsset;
  ix_previous_digest : option Sha256Digest;
  ix_total_bytes : N;
}.

Definition index_asset (limits : BundleLimits) (w : IndexWalk) (asset : BundleAsset)
    : result ModelError IndexWalk :=
  digest ← map_err (λ _, ModelInvalidAssetIndexEntry) (parse_digest (ba_sha256 asset));
  let reference :=
    {| ar_id := asset_id digest;
       ar_media_type := ba_media_type asset;
       ar_uri := asset_uri digest;
       ar_sha256 := Some (ba_sha256 asset) |} in
  _ ← map_err (λ _, ModelInvalidAssetIndexEntry) (from_asset_ref reference);
  check! reject_if (negb (String.eqb (ba_path asset) (canonical_path digest)))
    ModelInvalidAssetPath;
  check! reject_if
    (match ix_previous_digest w with
     | Some previous => String.leb digest previous
     | None => false
     end) ModelAssetIndexNotSorted;
  check! reject_if (bl_max_asset_bytes limits <? ba_byte_length asset)
    ModelAssetSizeLimit;
  total_bytes ← ok_or (u64_checked_add (ix_total_bytes w) (ba_byte_length asset))
    ModelAssetSizeLimit;
  check! reject_if (bl_max_total_asset_bytes limits <? total_bytes)
    ModelAssetSizeLimit;
  Ok (mkIndexWalk (<[digest := asset]> (ix_indexed w)) (Some digest) total_bytes).

(** The final loop of [validate_asset_index], for one referenced digest. *)
Definition check_indexed (indexed : gmap Sha256Digest BundleAsset)
    (references : ReferenceCollector) (digest : Sha256Digest)
    : result ModelError () :=
  match col_by_digest references !! digest with
  | None => Ok ()
  | Some reference =>
      asset ← ok_or (indexed !! digest) ModelAssetSetMismatch;
      check! reject_if
        (negb (String.eqb (ba_media_type asset) (ar_media_type reference)))
        ModelAssetMediaTypeMismatch;
      reject_if
        (match col_declared_byte_lengths references !! digest with
         | Some expected => negb (ba_byte_length asset =? expected)
         | None => false
         end) ModelAssetByteLengthMismatch
  end.

(** [validate_asset_index] *)
Definition validate_asset_index (assets : list BundleAsset)
    (references : ReferenceCollector) (limits : BundleLimits)
    : result ModelError () :=
  check! reject_if (bl_max_assets limits <? len assets)
    (ModelLimitExceeded "Bundle assets" (bl_max_assets limits));
  w ← fold_result (index_asset limits) (mkIndexWalk ∅ None 0) assets;
  let indexed := ix_indexed w in
  let referenced := col_by_digest references in
  check! reject_if
    (negb (bool_decide (size indexed = size referenced)) ||
     existsb (λ p, negb (String.eqb (fst p) (snd p)))
       (zip (btree_keys indexed) (btree_keys referenced)))
    ModelAssetSetMismatch;
  for_each (check_indexed indexed references) (btree_keys referenced).

(** [validate_manifest_events] *)
Definition validate_manifest_events (manifest : BundleManifest)
    (limits : BundleLimits) : result ModelError (gmap Sha256Digest AssetRef) :=
  check! reject_if (negb (String.eqb (bm_magic manifest) BUNDLE_MAGIC))
    ModelUnsupportedMagic;
  check! reject_if (negb (bm_bundle_version manifest =? BUNDLE_VERSION))
    (ModelUnsupportedBundleVersion (bm_bundle_version manifest));
  check! validate_event_protocol (bm_event_protocol_version manifest);
  references ← validate_export (bm_event_protocol_version manifest) limits
    (manifest_session_export manifest);
  check! validate_asset_index (bm_assets manifest) references limits;
  Ok (col_by_digest references).
