(* ===== verification/BundleProps.v ===== *)
(** * Properties of Session Bundle validation

    The bounded JSON walk against the depth and size of the value, the event
    walk against the log specification of [EventLog] in both directions, and
    the asset index against the references of the events. *)

From S2P Require Import Prelude Protocol Evidence Handshake UiContract EventStream.
From S2P Require Import EventStore EventLog EventStoreInv Scenario BundleValidation.

Local Open Scope N_scope.

(** ** The JSON walk *)

Fixpoint pending_nodes (pending : list (Json * N)) : N :=
  match pending with
  | [] => 0
  | (v, _) :: rest => json_nodes v + pending_nodes rest
  end.

Definition fits_depth (limits : BundleLimits) (p : Json * N) : Prop :=
  snd p + json_depth (fst p) <= bl_max_json_depth limits + 1.

Lemma json_nodes_pos v : 1 <= json_nodes v.
Proof. destruct v; cbn; lia. Qed.

Lemma json_nodes_children v :
  json_nodes v = 1 + foldr (λ v n, json_nodes v + n) 0 (json_children v).
Proof.
  destruct v as [| | | |vs|es]; cbn; try done. f_equal.
  induction es as [|e es IH]; cbn; [done|]. by rewrite IH.
Qed.

Lemma json_depth_children v :
  json_depth v = 1 + foldr (λ v n, N.max (json_depth v) n) 0 (json_children v).
Proof.
  destruct v as [| | | |vs|es]; cbn; try done. f_equal.
  induction es as [|e es IH]; cbn; [done|]. by rewrite IH.
Qed.

Lemma pending_nodes_app l k : pending_nodes (l ++ k) = pending_nodes l + pending_nodes k.
Proof. induction l as [|[v d] l IH]; cbn; [done|]. rewrite IH. lia. Qed.

Lemma pending_nodes_rev l : pending_nodes (rev l) = pending_nodes l.
Proof. induction l as [|[v d] l IH]; cbn; [done|]. rewrite pending_nodes_app, IH. cbn. lia. Qed.

Lemma pending_nodes_children vs d :
  pending_nodes ((λ v, (v, d)) <$> vs) = foldr (λ v n, json_nodes v + n) 0 vs.
Proof. induction vs as [|v vs IH]; cbn; [done|]. by rewrite <-IH. Qed.

Lemma pending_nodes_len l : len l <= pending_nodes l.
Proof.
  induction l as [|[v d] l IH]; cbn; [done|]. pose proof (json_nodes_pos v).
  unfold len in *. cbn. lia.
Qed.

Lemma fits_depth_children limits v d :
  fits_depth limits (v, d) ↔
  d <= bl_max_json_depth limits ∧
  Forall (fits_depth limits) ((λ v, (v, d + 1)) <$> json_children v).
Proof.
  rewrite Forall_fmap. unfold fits_depth, compose. cbn [fst snd].
  rewrite json_depth_children. generalize (json_children v) as cs.
  induction cs as [|c cs IH]; cbn [foldr].
  - rewrite Forall_nil. split; [|intros [? _]]; [split; [lia|done]|lia].
  - rewrite Forall_cons. split.
    + intros H. destruct IH as [IH _]. destruct IH; [lia|]. split_and!; [done|lia|done].
    + intros (Hd & Hc & Hcs). destruct IH as [_ IH]. specialize (IH (conj Hd Hcs)). lia.
Qed.

Lemma Forall_rev_iff {A} (P : A → Prop) l : Forall P (rev l) ↔ Forall P l.
Proof. by rewrite !Forall_forall; setoid_rewrite <-(Permutation_rev l). Qed.

(** The loop succeeds exactly when everything pending fits the limits. *)
Lemma json_loop_iff limits fuel pending n :
  bl_max_json_depth limits < USIZE_MAX → bl_max_json_nodes limits <= USIZE_MAX →
  (N.to_nat (pending_nodes pending) < fuel)%nat → n <= bl_max_json_nodes limits →
  is_ok (json_loop fuel limits pending n) = true ↔
  Forall (fits_depth limits) pending ∧
  n + pending_nodes pending <= bl_max_json_nodes limits.
Proof.
  intros Hd Hn. revert pending n. induction fuel as [|fuel IH];
    intros pending n Hf Hb; [lia|].
  destruct pending as [|[v d] pending]; [cbn; rewrite Forall_nil; split; [lia|done]|].
  rewrite Forall_cons, fits_depth_children. cbn [json_loop pending_nodes].
  pose proof (pending_nodes_len pending) as Hlen.
  pose proof (json_nodes_children v) as Hv. cbn in Hf.
  set (cs := json_children v) in *.
  pose proof (pending_nodes_children cs (d + 1)) as Hcs. rewrite <-Hcs in Hv.
  pose proof (pending_nodes_len ((λ v, (v, d + 1)) <$> cs)) as Hcl.
  assert (len ((λ v, (v, d + 1)) <$> cs) = len cs) as Hl
    by (unfold len; by rewrite length_fmap). rewrite Hl in Hcl.
  unfold mbind, result_bind, reject_if, usize_checked_add, ok_or.
  destruct (N.ltb_spec (bl_max_json_depth limits) d); [cbn; split; [done|lia]|].
  destruct (N.leb_spec (n + 1) USIZE_MAX); [|cbn; split; [done|lia]].
  destruct (N.ltb_spec (bl_max_json_nodes limits) (n + 1)); [cbn; split; [done|lia]|].
  destruct (N.leb_spec (d + 1) USIZE_MAX); [|lia].
  destruct (N.ltb_spec (bl_max_json_nodes limits - (n + 1)) (len pending));
    [cbn; split; [done|lia]|].
  destruct (N.ltb_spec (bl_max_json_nodes limits - (n + 1) - len pending) (len cs));
    [cbn; split; [done|lia]|].
  assert (pending_nodes (rev ((λ v, (v, d + 1)) <$> cs) ++ pending) =
    pending_nodes ((λ v, (v, d + 1)) <$> cs) + pending_nodes pending) as Hp
    by (by rewrite pending_nodes_app, pending_nodes_rev).
  rewrite IH, Hp by lia. rewrite Forall_app, Forall_rev_iff.
  intuition lia.
Qed.

(** C22: the iterative [validate_json_value] accepts a value exactly when
    its nesting depth, counted from the initial depth, and its number of
    values are within the limits; it terminates, and the machine-word
    arithmetic never overflows before a limit is reached. *)
Theorem validate_json_value_iff limits root initial_depth :
  bl_max_json_depth limits < USIZE_MAX → bl_max_json_nodes limits <= USIZE_MAX →
  is_ok (validate_json_value root initial_depth limits) = true ↔
  initial_depth + json_depth root <= bl_max_json_depth limits + 1 ∧
  json_nodes root <= bl_max_json_nodes limits.
Proof.
  intros Hd Hn. unfold validate_json_value.
  rewrite json_loop_iff; [|done|done|cbn; lia|lia].
  rewrite Forall_singleton. unfold fits_depth. cbn [fst snd pending_nodes].
  by rewrite N.add_0_r, N.add_0_l.
Qed.

(** ** The event walk against the log specification *)

(** The errors that say that a log is not an ordered, complete record of an
    ended Session, as opposed to errors about the content of events. *)
Definition structural (e : ModelError) : bool :=
  match e with
  | ModelSessionNotEnded | ModelInvalidEndedSession | ModelInvalidEventSequence
  | ModelEventSessionMismatch | ModelDuplicateEventId | ModelInvalidLifecycle
  | ModelDuplicateActionCall _ | ModelActionNotStarted _
  | ModelActionCorrelationMismatch _ | ModelActionResultMismatch _
  | ModelActionStillInFlight | ModelInvalidMediaStream
  | ModelMediaStreamStillInFlight => true
  | _ => false
  end.

(** A check that only fails for the content of events. *)
Definition benign {A} (r : result ModelError A) : Prop :=
  ∀ e, r = Err e → structural e = false.

Lemma benign_ok {A} (a : A) : benign (Ok a).
Proof. done. Qed.

Lemma benign_bind {A B} (m : result ModelError A) (f : A → result ModelError B) :
  benign m → (∀ a, m = Ok a → benign (f a)) → benign (m ≫= f).
Proof. unfold benign. intros Hm Hf e [?|(a & ? & ?)]%result_bind_err; eauto. Qed.

Lemma benign_reject_if b e : structural e = false ∨ b = false → benign (reject_if b e).
Proof. intros Hb e' He. inv_result. naive_solver. Qed.

Lemma benign_ok_or {A} (o : option A) e :
  structural e = false ∨ is_Some o → benign (ok_or o e).
Proof. intros [Hs|[a ->]] e' He; inv_result; done. Qed.

Lemma benign_map_err {A E} (r : result E A) e :
  structural e = false → benign (map_err (λ _, e) r).
Proof. intros He e' H. destruct r; naive_solver. Qed.

Lemma benign_skip {A B} (a : A) (f : A → result ModelError B) :
  benign (f a) → benign (Ok a ≫= f).
Proof. done. Qed.

Create HintDb benign.
#[export] Hint Resolve benign_ok benign_reject_if benign_ok_or benign_map_err : benign.

(** Goes through a chain of checks. *)
Ltac benign :=
  repeat first
    [ solve [eauto with benign]
    | match goal with |- benign (_ ≫= _) => apply benign_bind; [|intros ??] end
    | match goal with |- benign (if ?b then _ else _) => destruct b end
    | match goal with |- benign (match ?o with _ => _ end) => destruct o end ].

Lemma benign_json limits fuel pending n : benign (json_loop fuel limits pending n).
Proof.
  revert pending n. induction fuel as [|fuel IH]; intros pending n; cbn [json_loop].
  - intros e [= <-]. done.
  - benign.
Qed.

Lemma benign_for_each {A} (f : A → result ModelError ()) l :
  (∀ x, benign (f x)) → benign (for_each f l).
Proof. intros Hf. induction l as [|x l IH]; cbn [for_each]; benign. Qed.

Lemma benign_fold {A S} (f : S → A → result ModelError S) s l :
  (∀ s x, benign (f s x)) → benign (fold_result f s l).
Proof. intros Hf. revert s. induction l as [|x l IH]; intros s; cbn [fold_result]; benign. Qed.

Lemma benign_json_value v d limits : benign (validate_json_value v d limits).
Proof. apply benign_json. Qed.

#[export] Hint Resolve benign_json_value benign_for_each benign_fold : benign.

Lemma benign_require_12 p f : benign (require_protocol_12 p f).
Proof. unfold require_protocol_12. benign. by intros e [= <-]. Qed.
Lemma benign_require_14 p f : benign (require_protocol_14 p f).
Proof. unfold require_protocol_14. benign. by intros e [= <-]. Qed.
Lemma benign_require_15 p f : benign (require_protocol_15 p f).
Proof. unfold require_protocol_15. benign. by intros e [= <-]. Qed.
#[export] Hint Resolve benign_require_12 benign_require_14 benign_require_15 : benign.

Lemma benign_observation o p limits : benign (validate_observation o p limits).
Proof. unfold validate_observation. benign. Qed.

Lemma benign_error_details e limits : benign (validate_error_details e limits).
Proof. unfold validate_error_details. benign. Qed.

Lemma benign_success_omission p b r : benign (validate_success_omission p b r).
Proof. unfold validate_success_omission. benign. Qed.

Lemma benign_execution p x : benign (validate_execution p x).
Proof. unfold validate_execution. destruct x as [[]|]; benign. Qed.

Lemma benign_add limits c r : benign (collector_add limits c r).
Proof. unfold collector_add. benign. Qed.
#[export] Hint Resolve benign_observation benign_error_details benign_success_omission
  benign_execution benign_add : benign.

Lemma benign_add_with_length limits c s : benign (collector_add_with_length limits c s).
Proof. unfold collector_add_with_length. benign. Qed.
#[export] Hint Resolve benign_add_with_length : benign.

Lemma benign_add_all limits c l : benign (collector_add_all limits c l).
Proof. unfold collector_add_all. benign. Qed.

Lemma benign_add_snapshots limits c l : benign (collector_add_snapshots limits c l).
Proof. unfold collector_add_snapshots. benign. Qed.
#[export] Hint Resolve benign_add_all benign_add_snapshots : benign.

(** The walk's variables hold the replay of the log. *)
Record tracks (w : Walk) (t : Tracking) : Prop := {
  tk_seen_calls : wk_seen_calls w = tr_seen_calls t;
  tk_in_flight :
    (λ c, mkActionCorrelation (bc_request_id c) (bc_device_id c)) <$> wk_in_flight w
      = tr_in_flight t;
  tk_seen_media : wk_seen_media_streams w = tr_seen_media t;
  tk_media :
    (λ p, mkMediaStreamState (fst p) (snd p)) <$> wk_media_streams w = tr_media t;
}.

(** Where an event stands in an export of [total] events. *)
Record placed (session : SessionInfo) (ended_at_ms total i : N) (e : TestEvent)
    : Prop := {
  pl_sequence : ev_sequence e = i + 1;
  pl_session : ev_session_id e = si_id session;
  pl_first : is_session_started (ev_payload e) = true ↔ i = 0;
  pl_last : is_session_end (ev_payload e) = true ↔ i + 1 = total;
  pl_started : i = 0 → ev_at_ms e = si_started_at_ms session;
  pl_ended : i + 1 = total → ev_at_ms e = ended_at_ms;
}.

Definition media_positive_tracking (t : Tracking) : Prop :=
  ∀ id s, tr_media t !! id = Some s → 1 <= mss_next_frame_index s.

Lemma tracks_set_references w t c : tracks (set_references w c) t ↔ tracks w t.
Proof. split; intros []; by constructor. Qed.

Lemma tracks_lookup_media w t id m n :
  tracks w t → wk_media_streams w !! id = Some (m, n) →
  tr_media t !! id = Some (mkMediaStreamState m n).
Proof. intros [] H. by rewrite <-tk_media0, lookup_fmap, H. Qed.

Lemma tracks_lookup_media_inv w t id s :
  tracks w t → tr_media t !! id = Some s →
  wk_media_streams w !! id = Some (mss_media_type s, mss_next_frame_index s).
Proof.
  intros [] H. rewrite <-tk_media0 in H.
  apply lookup_fmap_Some in H as ([m n] & <- & H). done.
Qed.

Lemma tracks_lookup_call_inv w t id c :
  tracks w t → tr_in_flight t !! id = Some c →
  ∃ b, wk_in_flight w !! id = Some b ∧
    bc_request_id b = ac_request_id c ∧ bc_device_id b = ac_device_id c.
Proof.
  intros [] H. rewrite <-tk_in_flight0 in H.
  apply lookup_fmap_Some in H as (b & <- & H). eauto.
Qed.

Section Walk.
Context (protocol : ProtocolVersion) (limits : BundleLimits).

(** An accepted event is in order, and the walk tracks it. *)
Definition walked (w : Walk) (t : Tracking) (e : TestEvent) (w' : Walk) : Prop :=
  core_permitted t e ∧ tracks w' (track t e) ∧ wk_event_ids w' = wk_event_ids w.

Lemma walk_other w w' t e :
  (∀ t, core_permitted t e ∧ track t e = t) → tracks w t →
  (∃ c, w' = set_references w c) → walked w t e w'.
Proof.
  intros He Ht [c ->]. destruct (He t) as [? Htr]. split_and!; [done| |done].
  by rewrite Htr, tracks_set_references.
Qed.

Lemma walk_action_started_sound w t inner e call w' :
  ev_payload e = ActionStarted call → tracks w t →
  walk_action_started protocol limits w inner e call = Ok w' → walked w t e w'.
Proof.
  intros Hp Ht H. unfold walk_action_started in H. inv_result. inv_bools.
  destruct Ht. unfold walked, core_permitted, track. rewrite Hp.
  split_and!; [congruence| |done]. constructor; cbn; try congruence.
  by rewrite fmap_insert, tk_in_flight0.
Qed.

Lemma walk_action_completed_sound w t inner e id outcome w' :
  ev_payload e = ActionCompleted id outcome → tracks w t →
  walk_action_completed protocol limits w inner e id outcome = Ok w' →
  walked w t e w'.
Proof.
  intros Hp Ht H. unfold walk_action_completed in H. inv_result. inv_bools.
  match goal with H : wk_in_flight w !! id = Some ?b |- _ => rename b into b; rename H into Hb end.
  set (w1 := set_calls w (wk_seen_calls w) (delete id (wk_in_flight w))) in *.
  assert (∃ c, w' = set_references w1 c) as [c ->].
  { destruct outcome; inv_result; [by eexists|..]; by exists (wk_references w). }
  unfold walked, core_permitted, track. rewrite Hp. split_and!; [|..|done].
  - rewrite <-(tk_in_flight _ _ Ht), lookup_fmap, Hb. cbn. unfold correlation. congruence.
  - destruct outcome; try done. inv_result.
    match goal with H : walk_success _ _ _ _ _ _ = Ok _ |- _ =>
      unfold walk_success in H end. inv_result. by inv_bools.
  - apply tracks_set_references. destruct Ht. constructor; cbn; try congruence.
    by rewrite fmap_delete, tk_in_flight0.
Qed.

Lemma walk_media_started_sound w t inner e s w' :
  ev_payload e = MediaStreamStarted s → tracks w t →
  walk_media_started protocol w inner s = Ok w' → walked w t e w'.
Proof.
  intros Hp Ht H. unfold walk_media_started in H. inv_result. inv_bools.
  destruct Ht. unfold walked, core_permitted, track. rewrite Hp.
  split_and!; [congruence| |done]. constructor; cbn; try congruence.
  by rewrite fmap_insert, tk_media0.
Qed.

Lemma walk_media_frame_sound w t inner e f w' :
  ev_payload e = MediaFrameCaptured f → tracks w t →
  walk_media_frame protocol limits w inner f = Ok w' → walked w t e w'.
Proof.
  intros Hp Ht H. unfold walk_media_frame in H. inv_result.
  match goal with H : wk_media_streams w !! _ = Some ?p |- _ =>
    destruct p as [m n]; rename H into Hm end. inv_result. inv_bools.
  pose proof (tracks_lookup_media _ _ _ _ _ Ht Hm) as Hs.
  unfold walked, core_permitted, track. rewrite Hp. split_and!; [|..|done].
  - exists (mkMediaStreamState m n). rewrite N.eqb_eq, String.eqb_eq in *. done.
  - apply tracks_set_references. destruct Ht. constructor; cbn; try congruence.
    rewrite fmap_insert, tk_media0. erewrite alter_as_insert by done. done.
Qed.

Lemma walk_media_ended_sound w t inner e id n w' :
  ev_payload e = MediaStreamEnded id n → tracks w t → media_positive_tracking t →
  walk_media_ended protocol w inner id n = Ok w' → walked w t e w'.
Proof.
  intros Hp Ht Hpos H. unfold walk_media_ended in H. inv_result.
  match goal with H : wk_media_streams w !! _ = Some ?p |- _ =>
    destruct p as [m k]; rename H into Hm end. inv_result. inv_bools.
  pose proof (tracks_lookup_media _ _ _ _ _ Ht Hm) as Hs.
  unfold walked, core_permitted, track. rewrite Hp. split_and!; [|..|done].
  - exists (mkMediaStreamState m k). rewrite N.eqb_eq in *. specialize (Hpos _ _ Hs).
    cbn in *. split; [done|lia].
  - destruct Ht. constructor; cbn; try congruence.
    by rewrite fmap_delete, tk_media0.
Qed.

Lemma walk_payload_sound session ended_at w t first last e w' :
  tracks w t → media_positive_tracking t →
  walk_payload protocol limits session ended_at w first last e = Ok w' →
  walked w t e w'.
Proof.
  intros Ht Hpos H. unfold walk_payload in H.
  destruct (ev_payload e) eqn:Hp;
    [| |unfold walk_observation in H
     |by eapply walk_action_started_sound|by eapply walk_action_completed_sound
     |by eapply walk_media_started_sound|by eapply walk_media_frame_sound
     |by eapply walk_media_ended_sound| |]; inv_result;
    (apply walk_other; [|done|]; [intros t'; unfold core_permitted, track; by rewrite Hp|]);
    first [by eexists | by exists (wk_references w'); destruct w'].
Qed.

Lemma walk_payload_position session ended_at w first last e w' :
  walk_payload protocol limits session ended_at w first last e = Ok w' →
  (is_session_started (ev_payload e) = true →
     first = true ∧ ev_at_ms e = si_started_at_ms session) ∧
  (is_session_end (ev_payload e) = true → last = true ∧ ev_at_ms e = ended_at).
Proof.
  unfold walk_payload. destruct (ev_payload e); try (by intros; split);
    intros H; inv_result; inv_bools; rewrite N.eqb_eq in *; naive_solver.
Qed.

(** One accepted event. *)
Lemma walk_event_sound session ended_at total i w t e w' :
  tracks w t → media_positive_tracking t →
  walk_event protocol limits session ended_at total i w e = Ok w' →
  placed session ended_at total i e ∧ core_permitted t e ∧
  tracks w' (track t e) ∧ wk_event_ids w' = {[ev_event_id e]} ∪ wk_event_ids w ∧
  ev_event_id e ∉ wk_event_ids w.
Proof.
  intros Ht Hpos H. unfold walk_event in H. inv_result. inv_bools.
  match goal with H : EventSequence.new _ = Some _ |- _ =>
    apply EventSequence_new_some in H as [-> _] end.
  match goal with H : walk_payload _ _ _ _ ?w1 _ _ _ = Ok _ |- _ =>
    assert (tracks w1 t) as Ht1 by (destruct Ht; by constructor);
    pose proof (walk_payload_position _ _ _ _ _ _ _ H) as [Hs He];
    apply (walk_payload_sound _ _ _ _ _ _ _ _ Ht1 Hpos) in H as (Hc & Htr & Hids) end.
  rewrite N.eqb_eq in *. split_and!; try done.
  constructor; try done.
  - split; [intros [? _]%Hs; lia|]. intros ->. cbn in *.
    by destruct (is_session_started (ev_payload e)).
  - split; [intros [? _]%He; lia|]. intros Hi.
    destruct (is_session_end (ev_payload e)); [done|].
    replace (i + 1 =? total) with true in * by lia. done.
  - intros ->. cbn in *. apply Hs. by destruct (is_session_started (ev_payload e)).
  - intros Hi. apply He. destruct (is_session_end (ev_payload e)); [done|].
    replace (i + 1 =? total) with true in * by lia. done.
Qed.

Lemma core_positive l : core_legal l → media_positive_tracking (replay l).
Proof. intros Hl id s Hs. by apply core_media_bounds in Hs as [? _]. Qed.

(** The accepted events after a prefix. *)
Lemma walk_events_sound session ended_at total events pre w w' :
  core_legal pre → tracks w (replay pre) →
  walk_events protocol limits session ended_at total (len pre) w events = Ok w' →
  core_legal (pre ++ events) ∧ tracks w' (replay (pre ++ events)) ∧
  (∀ i e, events !! i = Some e →
     placed session ended_at total (len pre + N.of_nat i) e) ∧
  NoDup (ev_event_id <$> events) ∧
  (∀ e, e ∈ events → ev_event_id e ∉ wk_event_ids w).
Proof.
  revert pre w. induction events as [|e events IH]; intros pre w Hl Ht H;
    cbn [walk_events] in H.
  { simplify_eq. rewrite app_nil_r. split_and!; try done; [constructor|set_solver]. }
  inv_result. match goal with H : walk_event _ _ _ _ _ _ _ _ = Ok _ |- _ =>
    apply (walk_event_sound _ _ _ _ _ _ _ _ Ht (core_positive _ Hl)) in H
      as (Hpl & Hc & Ht1 & Hids & Hfresh) end.
  match goal with H : walk_events _ _ _ _ _ _ _ _ = Ok _ |- _ => rename H into Hrest end.
  rewrite <-(len_snoc pre e) in Hrest. rewrite <-replay_snoc in Ht1.
  assert (core_legal (pre ++ [e])) as Hl1 by (by apply follows_snoc).
  destruct (IH _ _ Hl1 Ht1 Hrest) as (Hl2 & Ht2 & Hpl2 & Hnd & Hf2).
  rewrite <-app_assoc in Hl2, Ht2. split_and!; try done.
  - intros [|i] x' Hx; cbn in Hx; [simplify_eq; by rewrite N.add_0_r|].
    apply Hpl2 in Hx. rewrite len_snoc in Hx.
    by replace (len pre + N.of_nat (S i)) with (len pre + 1 + N.of_nat i) by lia.
  - apply NoDup_cons. split; [|done]. intros (x' & Hx & Hin)%list_elem_of_fmap.
    apply Hf2 in Hin. rewrite Hids in Hin. set_solver.
  - intros x' [->|Hx]%elem_of_cons; [done|]. apply Hf2 in Hx. rewrite Hids in Hx. set_solver.
Qed.

(** ** A permitted event is only refused for its content *)

Lemma benign_success c id redacted r :
  res_call_id r = id → benign (walk_success protocol limits c id redacted r).
Proof.
  intros <-. unfold walk_success. apply benign_bind; [|intros; benign].
  apply benign_reject_if. right. by rewrite bool_decide_refl.
Qed.

Lemma benign_action_completed w t e id outcome :
  ev_payload e = ActionCompleted id outcome → tracks w t → permitted t e →
  benign (walk_action_completed protocol limits w true e id outcome).
Proof.
  intros Hp Ht Hperm. unfold permitted in Hperm. rewrite Hp in Hperm.
  destruct Hperm as [Hin Hout].
  destruct (tracks_lookup_call_inv _ _ _ _ Ht Hin) as (b & Hb & Hq & Hd).
  unfold walk_action_completed. cbn [negb reject_if]. apply benign_skip.
  rewrite Hb. cbn [ok_or]. apply benign_skip. cbn in Hq, Hd.
  rewrite Hq, Hd, !bool_decide_refl. cbn [negb orb reject_if]. apply benign_skip.
  destruct outcome as [r| | |]; [|benign..].
  apply benign_bind; [by apply benign_success|intros ? _; benign].
Qed.

Lemma benign_media_started w t e s :
  ev_payload e = MediaStreamStarted s → tracks w t → permitted t e →
  benign (walk_media_started protocol w true s).
Proof.
  intros Hp Ht Hperm. unfold permitted in Hperm. rewrite Hp in Hperm.
  destruct Hperm as [Hnew [Hmt Hv]].
  destruct (validate_media_type (ms_media_type s)) as [[]|] eqn:Hval; [|done].
  apply validate_media_type_ok in Hval as (Hne & Hlen & Hctl).
  unfold walk_media_started. apply benign_bind; [benign|]. intros _ _.
  apply benign_bind; [|intros ? _; benign]. apply benign_reject_if. right.
  rewrite Hctl, (tk_seen_media _ _ Ht), bool_decide_false by done. cbn [negb orb].
  replace (str_len (ms_media_type s) =? 0) with false.
  2: { symmetry. apply N.eqb_neq. destruct (ms_media_type s); [done|]. unfold str_len. cbn. lia. }
  replace (255 <? str_len (ms_media_type s)) with false by lia.
  by destruct (ms_viewport s).
Qed.

Lemma benign_media_frame w t e f :
  ev_payload e = MediaFrameCaptured f → tracks w t → permitted t e →
  benign (walk_media_frame protocol limits w true f).
Proof.
  intros Hp Ht Hperm. unfold permitted in Hperm. rewrite Hp in Hperm.
  destruct Hperm as (s & Hs & Hi & Hmt & _ & Hdur).
  unfold walk_media_frame. apply benign_bind; [benign|]. intros _ _.
  cbn [negb reject_if]. apply benign_skip.
  rewrite (tracks_lookup_media_inv _ _ _ _ Ht Hs). cbn [ok_or]. apply benign_skip.
  apply benign_bind; [|intros ? _; benign]. apply benign_reject_if. right.
  unfold EventSequence.get. rewrite Hi, Hmt, N.eqb_refl, String.eqb_refl. cbn [negb orb].
  destruct (mf_duration_ms f) as [d|]; [|done]. cbn in Hdur. lia.
Qed.

Lemma benign_media_ended w t e id n :
  ev_payload e = MediaStreamEnded id n → tracks w t → permitted t e →
  benign (walk_media_ended protocol w true id n).
Proof.
  intros Hp Ht Hperm. unfold permitted in Hperm. rewrite Hp in Hperm.
  destruct Hperm as (s & Hs & Hn).
  unfold walk_media_ended. apply benign_bind; [benign|]. intros _ _.
  cbn [negb reject_if]. apply benign_skip.
  rewrite (tracks_lookup_media_inv _ _ _ _ Ht Hs). cbn [ok_or]. apply benign_skip.
  apply benign_bind; [|intros ? _; benign]. apply benign_reject_if. right. lia.
Qed.

Lemma benign_payload session ended_at total i w t e :
  placed session ended_at total i e → tracks w t → permitted t e →
  benign (walk_payload protocol limits session ended_at w (i =? 0) (i + 1 =? total) e).
Proof.
  intros [_ _ Hfi Hla Hst Hen] Ht Hperm. unfold walk_payload.
  assert (is_session_started (ev_payload e) = false →
    is_session_end (ev_payload e) = false →
    negb ((i =? 0) || (i + 1 =? total)) = true) as Hinner by (intros H1 H2; lia).
  destruct (ev_payload e) eqn:Hp; cbn [is_session_started is_session_end] in *;
    try rewrite Hinner by done.
  - replace (i =? 0) with true by lia. rewrite Hst by lia. rewrite N.eqb_refl. benign.
  - replace (i + 1 =? total) with true by lia. rewrite Hen by lia.
    rewrite N.eqb_refl. benign.
  - unfold walk_observation. benign.
  - unfold walk_action_started. unfold permitted in Hperm. rewrite Hp in Hperm.
    rewrite (tk_seen_calls _ _ Ht), (bool_decide_false (rc_id call ∈ _)) by done. benign.
  - by eapply benign_action_completed.
  - by eapply benign_media_started.
  - by eapply benign_media_frame.
  - by eapply benign_media_ended.
  - benign.
  - benign.
Qed.

Lemma benign_event session ended_at total i w t e :
  placed session ended_at total i e → i + 1 <= MAX_SAFE_INTEGER →
  tracks w t → permitted t e → ev_event_id e ∉ wk_event_ids w →
  benign (walk_event protocol limits session ended_at total i w e).
Proof.
  intros Hpl Hb Ht Hperm Hid. unfold walk_event.
  destruct (id Hpl) as [Hq Hs Hfi Hla _ _].
  replace (EventSequence.new (i + 1)) with (Some (i + 1))
    by (symmetry; apply EventSequence_new_some; lia).
  cbn [ok_or]. apply benign_skip. rewrite Hq, N.eqb_refl, Hs, bool_decide_refl,
    (bool_decide_false (ev_event_id e ∈ _)) by done. cbn [negb reject_if].
  do 3 apply benign_skip.
  apply benign_bind; [eapply benign_payload; try done; destruct Ht; by constructor|].
  intros w' _. apply benign_bind; [|intros _ _; apply benign_bind; [|intros ? _; benign]];
    apply benign_reject_if; right.
  - destruct (is_session_started (ev_payload e)); cbn; [by rewrite andb_false_r|lia].
  - destruct (is_session_end (ev_payload e)); cbn; [by rewrite andb_false_r|lia].
Qed.

Lemma benign_events session ended_at total events pre w :
  legal (pre ++ events) → tracks w (replay pre) →
  len (pre ++ events) <= MAX_SAFE_INTEGER →
  (∀ i e, events !! i = Some e →
     placed session ended_at total (len pre + N.of_nat i) e) →
  NoDup (ev_event_id <$> events) →
  (∀ e, e ∈ events → ev_event_id e ∉ wk_event_ids w) →
  benign (walk_events protocol limits session ended_at total (len pre) w events).
Proof.
  revert pre w. induction events as [|e events IH]; intros pre w Hl Ht Hb Hpl Hnd Hid;
    cbn [walk_events]; [benign|].
  assert (placed session ended_at total (len pre) e) as Hp
    by (rewrite <-(N.add_0_r (len pre)); by apply (Hpl 0%nat)).
  assert (len pre + 1 <= MAX_SAFE_INTEGER)
    by (rewrite len_app in Hb; unfold len in *; cbn in Hb; lia).
  replace (pre ++ e :: events) with ((pre ++ [e]) ++ events) in *
    by by rewrite <-app_assoc.
  assert (legal (pre ++ [e])) as [Hlp Hperm]%legal_snoc.
  { intros i x Hi. specialize (Hl i x). rewrite take_app_le in Hl
      by (apply lookup_lt_Some in Hi; lia). by apply Hl, lookup_app_l_Some. }
  apply benign_bind; [eapply benign_event; try done; apply Hid; left|].
  intros w' Hw. apply (walk_event_sound _ _ _ _ _ _ _ _ Ht
    (core_positive _ (legal_core _ Hlp))) in Hw as (_ & _ & Ht' & Hids & _).
  apply NoDup_cons in Hnd as [Hn Hnd]. rewrite <-(len_snoc pre e). apply IH; try done.
  - by rewrite replay_snoc.
  - intros i x Hi. rewrite len_snoc.
    replace (len pre + 1 + N.of_nat i) with (len pre + N.of_nat (S i)) by lia.
    by apply Hpl.
  - intros x Hx. rewrite Hids. apply not_elem_of_union. split; [|by apply Hid; right].
    apply not_elem_of_singleton. intros Heq. apply Hn. rewrite <-Heq.
    by apply list_elem_of_fmap_2.
Qed.
End Walk.

Lemma tracks0 : tracks walk0 (replay []).
Proof. constructor; cbn; by rewrite ?fmap_empty. Qed.

Lemma placed_lifecycle session ended_at events :
  events ≠ [] →
  (∀ i e, events !! i = Some e →
     placed session ended_at (len events) (N.of_nat i) e) →
  lifecycle Ended events ∧ continues (si_id session) 0 events.
Proof.
  intros Hne Hpl. split.
  - destruct events as [|first rest]; [done|].
    assert (ev_payload first = SessionStarted) as Hf.
    { pose proof (pl_first _ _ _ _ _ (Hpl 0%nat first eq_refl)) as [_ H].
      specialize (H eq_refl). by destruct (ev_payload first). }
    destruct rest as [|e body _] using rev_ind.
    { pose proof (pl_last _ _ _ _ _ (Hpl 0%nat first eq_refl)) as [_ H].
      specialize (H eq_refl). by rewrite Hf in H. }
    exists first, body. split; [done|]. split.
    + apply Forall_lookup. intros i x Hx.
      assert ((first :: body ++ [e]) !! S i = Some x) as Hi by (by apply lookup_app_l_Some).
      apply lookup_lt_Some in Hx. destruct (Hpl _ _ Hi) as [_ _ Hs He _ _].
      unfold len in He. cbn in He. rewrite length_app in He. cbn in He.
      destruct (ev_payload x); cbn in *; try done; lia.
    + exists e. split; [|done].
      assert ((first :: body ++ [e]) !! S (length body) = Some e) as Hi
        by (by apply list_lookup_middle).
      destruct (Hpl _ _ Hi) as [_ _ _ [_ He] _ _].
      unfold len in He. cbn in He. rewrite length_app in He. cbn in He.
      specialize (He ltac:(lia)). by destruct (ev_payload e).
  - clear Hne. revert Hpl. generalize (len events) as total. intros total.
    assert (∀ n, (∀ i e, events !! i = Some e →
      placed session ended_at total (n + N.of_nat i) e) →
      continues (si_id session) n events) as H; [|intros Hpl; apply H; naive_solver].
    induction events as [|e events IH]; intros n Hpl; [done|].
    destruct (Hpl 0%nat e eq_refl) as [Hq Hs _ _ _ _]. cbn. split_and!; [done|lia|].
    apply IH. intros i x Hx. specialize (Hpl (S i) x Hx).
    by replace (n + 1 + N.of_nat i) with (n + N.of_nat (S i)) by lia.
Qed.

(** What a successful validation says of the walk. *)
Lemma validate_export_walk protocol limits export refs :
  validate_export protocol limits export = Ok refs →
  si_state (se_session export) = Ended ∧ se_events export ≠ [] ∧
  si_event_count (se_session export) = len (se_events export) ∧
  si_last_sequence (se_session export) = len (se_events export) ∧
  ∃ ended_at w, si_ended_at_ms (se_session export) = Some ended_at ∧
    walk_events protocol limits (se_session export) ended_at (len (se_events export))
      (len (@nil TestEvent)) walk0 (se_events export) = Ok w ∧
    wk_in_flight w = ∅ ∧ wk_media_streams w = ∅ ∧ wk_references w = refs.
Proof.
  unfold validate_export. intros H. inv_result. rewrite !size_zero_empty in *. inv_bools.
  match goal with H : EventSequence.new _ = Some _ |- _ =>
    apply EventSequence_new_some in H as (-> & ? & _) end.
  rewrite N.eqb_eq in *. split_and!; try done.
  - intros E. rewrite E in *. done.
  - eauto 10.
Qed.

(** A bundle source that passes [validate_export] is the record of an
    ended Session: the events are numbered 1, 2, ..., belong to the Session
    and have distinct ids, the first and only the first is [SessionStarted],
    the last and only the last is [SessionEnded], every action is started
    and completed exactly once by events with the same correlation, and
    every media stream is started and ended exactly once with its frames
    numbered and counted. *)
Theorem validated_export_is_complete protocol limits export refs :
  validate_export protocol limits export = Ok refs →
  let events := se_events export in
  lifecycle Ended events ∧ continues (si_id (se_session export)) 0 events ∧
  NoDup (ev_event_id <$> events) ∧
  (∀ id, (starts id events = [] ∧ completions id events = []) ∨
    ∃ s c pre mid post, starts id events = [s] ∧ completions id events = [c] ∧
      correlation s = correlation c ∧ events = pre ++ s :: mid ++ c :: post) ∧
  (∀ id, let fs := frames id events in
    mf_frame_index <$> fs = indices (length fs) ∧
    ((stream_starts id events = [] ∧ fs = [] ∧ stream_ends id events = []) ∨
     ∃ info, stream_starts id events = [info] ∧ stream_ends id events = [len fs])).
Proof.
  intros (_ & Hne & _ & _ & ended_at & w & _ & Hw & Hin & Hm & _)%validate_export_walk.
  apply (walk_events_sound _ _ _ _ _ _ [] _ _ (follows_nil _) tracks0) in Hw
    as (Hl & [_ Hti _ Htm] & Hpl & Hnd & _). cbn [app] in *.
  destruct (placed_lifecycle _ _ _ Hne Hpl). rewrite Hin, fmap_empty in Hti.
  rewrite Hm, fmap_empty in Htm. split_and!; try done.
  - intros id. destruct (core_call_history id _ Hl)
      as [(_ & _ & ? & ?)|[(_ & s & _ & Hi & _)|(_ & _ & ?)]]; [by left| |by right].
    by rewrite <-Hti in Hi.
  - intros id. destruct (core_stream_history id _ Hl)
      as [? [(_ & _ & ?)|(_ & info & ? & ? & [(_ & Hmm)|(? & _)])]];
      (split; [done|]); [by left| |by right; eauto].
    by rewrite <-Htm in Hmm.
Qed.

(** The position of every event of an ended, well-formed log. *)
Lemma log_wf_placed b sid log :
  log_wf b sid log → si_state (log_info log) = Ended →
  ∃ ended_at, si_ended_at_ms (log_info log) = Some ended_at ∧
    ∀ i e, log_events log !! i = Some e →
      placed (log_info log) ended_at (len (log_events log)) (N.of_nat i) e.
Proof.
  intros Hwf Hend. pose proof (lw_ended _ _ _ Hwf) as Hat. rewrite Hend in Hat.
  pose proof (lw_lifecycle _ _ _ Hwf) as (first & body & Hf & Hb & Hev).
  rewrite Hend in Hev. destruct Hev as (last & Hlast & Hev).
  assert (list.last (log_events log) = Some last) as Hl
    by (rewrite Hev, app_comm_cons; apply last_snoc).
  rewrite Hl in Hat. exists (ev_at_ms last). split; [done|]. intros i e Hi.
  destruct (continues_lookup _ _ _ _ _ (lw_continues _ _ _ Hwf) Hi) as [Hs Hq].
  pose proof (lw_started _ _ _ Hwf) as Hst. rewrite <-(lw_id _ _ _ Hwf) in Hs.
  rewrite Hev in Hi, Hst. cbn in Hst. injection Hst as Hst.
  assert (len (log_events log) = N.of_nat (length body) + 2) as Hlen
    by (rewrite Hev; unfold len; cbn; rewrite length_app; cbn; lia).
  destruct i as [|i]; cbn in Hi; [simplify_eq; constructor; rewrite ?Hf; cbn; try done; lia|].
  apply lookup_snoc_inv in Hi as [Hi|[-> ->]].
  - pose proof (lookup_lt_Some _ _ _ Hi). apply (Forall_lookup_1 _ _ _ _ Hb) in Hi.
    constructor; try done; try lia; destruct (ev_payload e); cbn in *; try done; lia.
  - constructor; try done; try lia; destruct (ev_payload last); cbn in *; try done; lia.
Qed.

(** C24: the export of every ended Session of a reachable Event Store passes
    the structural checks of the bundle validator, under every protocol
    version and every limits: if the event ids are distinct, the validator
    can only refuse it for the content of its events or for a limit, never
    for its sequence, lifecycle, action pairing or media state machine. *)
Theorem store_exports_are_bundleable config st sid log export protocol limits :
  reachable config st → st_sessions st !! sid = Some log →
  si_state (log_info log) = Ended → export_session st sid = Ok export →
  NoDup (ev_event_id <$> log_events log) →
  benign (validate_export protocol limits export).
Proof.
  intros Hr Hl He Hx Hnd. unfold export_session, get_log in Hx. rewrite Hl in Hx.
  injection Hx as <-. pose proof (reachable_log _ _ _ _ Hr Hl) as Hwf.
  destruct (log_wf_placed _ _ _ Hwf He) as (ended_at & Hat & Hpl).
  destruct (lw_quiescent _ _ _ Hwf He) as (Hf & Hm & _).
  pose proof (lw_tracking _ _ _ Hwf) as Htr.
  unfold validate_export. cbn [se_session se_events].
  apply benign_bind; [benign|]. intros _ _. rewrite He, Hat. cbn [negb reject_if ok_or].
  rewrite (bool_decide_refl Ended). cbn [negb reject_if]. do 2 apply benign_skip.
  replace (EventSequence.new (len (log_events log)))
    with (Some (len (log_events log))).
  2: { symmetry. apply EventSequence_new_some. split; [done|].
       split; [|apply Hwf]. pose proof (log_events_nonempty _ _ _ Hwf).
       destruct (log_events log); [done|]. unfold len. cbn. lia. }
  cbn [ok_or]. apply benign_skip.
  rewrite (lw_count _ _ _ Hwf), (lw_last _ _ _ Hwf), N.eqb_refl. cbn [negb orb reject_if].
  apply benign_skip. apply benign_bind.
  { apply (benign_events protocol limits _ _ _ _ []);
      [apply Hwf|apply tracks0|apply Hwf|exact Hpl|done|set_solver]. }
  intros w Hw. apply (walk_events_sound _ _ _ _ _ _ [] _ _ (follows_nil _) tracks0) in Hw
    as (_ & [_ Hti _ Htm] & _). cbn [app] in *. rewrite <-Htr in Hti, Htm.
  cbn in Hti, Htm. rewrite Hf in Hti. rewrite Hm in Htm.
  apply fmap_empty_inv in Hti, Htm. rewrite !size_zero_empty, Hti, Htm.
  rewrite !(bool_decide_true (∅ = ∅)) by done. benign.
Qed.

(** ** The references of the events *)

(** The collector holds one reference per digest of the references in [S]. *)
Record collected (S : gset AssetRef) (c : ReferenceCollector) : Prop := {
  cl_in a : a ∈ S → ∃ d a', from_asset_ref a = Ok d ∧
    col_by_digest c !! d = Some a' ∧ ar_media_type a' = ar_media_type a;
  cl_out d a : col_by_digest c !! d = Some a → a ∈ S ∧ from_asset_ref a = Ok d;
}.

Lemma collected_new : collected ∅ collector_new.
Proof. constructor; [set_solver|]. intros d a. cbn. by rewrite lookup_empty. Qed.

Lemma collected_same S c c' :
  col_by_digest c' = col_by_digest c → collected S c → collected S c'.
Proof. intros H []. constructor; rewrite H; eauto. Qed.

Lemma collector_add_collected S limits c r c' :
  collected S c → collector_add limits c r = Ok c' → collected ({[r]} ∪ S) c'.
Proof.
  intros Hc H. unfold collector_add in H. inv_result.
  match goal with H : match ?o with _ => _ end = Ok _ |- _ =>
    destruct o as [a'|] eqn:Ha end; inv_result; inv_bools.
  - rewrite String.eqb_eq in *. constructor; cbn.
    + intros a [->%elem_of_singleton|Hin]%elem_of_union; [eauto|by eapply cl_in].
    + intros d' a Hl%(cl_out _ _ Hc). set_solver.
  - constructor; cbn.
    + intros a [->%elem_of_singleton|Hin]%elem_of_union.
      { do 2 eexists. split; [done|]. by rewrite lookup_insert_eq. }
      destruct (cl_in _ _ Hc a Hin) as (d' & a' & ? & Hl & ?). exists d', a'.
      rewrite lookup_insert_ne; [done|]. intros ->. by rewrite Ha in Hl.
    + intros d' a [[-> ->]|[_ Hl%(cl_out _ _ Hc)]]%lookup_insert_Some; set_solver.
Qed.

Lemma collector_add_with_length_collected S limits c s c' :
  collected S c → collector_add_with_length limits c s = Ok c' →
  collected ({[us_evidence s]} ∪ S) c'.
Proof.
  intros Hc H. unfold collector_add_with_length in H. inv_result.
  match goal with H : collector_add _ _ _ = Ok _ |- _ =>
    apply (collector_add_collected _ _ _ _ _ Hc) in H end.
  match goal with H : match ?o with _ => _ end = Ok _ |- _ => destruct o end;
    inv_result; [done|]. by refine (collected_same _ _ _ _ H).
Qed.

Lemma fold_collected {A} (f : ReferenceCollector → A → result ModelError ReferenceCollector)
    (g : A → AssetRef) :
  (∀ S c x c', collected S c → f c x = Ok c' → collected ({[g x]} ∪ S) c') →
  ∀ l S c c', collected S c → fold_result f c l = Ok c' →
    collected (list_to_set (g <$> l) ∪ S) c'.
Proof.
  intros Hf l. induction l as [|x l IH]; intros S c c' Hc H; cbn [fold_result] in H.
  { simplify_eq. cbn. by rewrite (left_id_L ∅ (∪)). }
  inv_result. match goal with H : f _ _ = Ok _, H' : fold_result _ _ _ = Ok _ |- _ =>
    apply (Hf S) in H; [|done]; apply (IH _ _ _ H) in H' end. cbn.
  by replace ({[g x]} ∪ list_to_set (g <$> l) ∪ S)
    with (list_to_set (g <$> l) ∪ ({[g x]} ∪ S)) by set_solver.
Qed.

Lemma add_all_collected S limits c l c' :
  collected S c → collector_add_all limits c l = Ok c' →
  collected (list_to_set l ∪ S) c'.
Proof.
  intros Hc H. rewrite <-(list_fmap_id l).
  eapply (fold_collected _ id); [intros; by eapply collector_add_collected|done|done].
Qed.

Lemma add_snapshots_collected S limits c l c' :
  collected S c → collector_add_snapshots limits c l = Ok c' →
  collected (list_to_set (us_evidence <$> l) ∪ S) c'.
Proof.
  intros Hc H. eapply (fold_collected _ us_evidence); [|done|done].
  intros. by eapply collector_add_with_length_collected.
Qed.

(** The evidence references of a list of events. *)
Definition export_asset_refs (events : list TestEvent) : list AssetRef :=
  events ≫= (λ e, event_asset_refs (ev_payload e)).

(** What the events of an export refer to, as the Event Store counts it. *)
Lemma result_refs_set r :
  (list_to_set (us_evidence <$> omap obs_ui_snapshot (result_observations r)) ∪
   list_to_set (omap obs_screenshot (result_observations r) ++ res_evidence r) : gset _) =
  list_to_set (result_asset_refs r).
Proof.
  unfold result_asset_refs, result_observations, observation_asset_refs.
  destruct (res_before r) as [b|], (res_after r) as [a|]; cbn;
    try destruct (obs_screenshot b); try destruct (obs_ui_snapshot b);
    try destruct (obs_screenshot a); try destruct (obs_ui_snapshot a); cbn; set_solver.
Qed.

Lemma observation_refs_set o :
  (list_to_set (us_evidence <$> option_list (obs_ui_snapshot o)) ∪
   list_to_set (option_list (obs_screenshot o)) : gset _) =
  list_to_set (observation_asset_refs o).
Proof.
  unfold observation_asset_refs.
  destruct (obs_screenshot o), (obs_ui_snapshot o); cbn; set_solver.
Qed.

Section Refs.
Context (protocol : ProtocolVersion) (limits : BundleLimits).

Lemma walk_payload_collected session ended_at w first last e w' S :
  collected S (wk_references w) →
  walk_payload protocol limits session ended_at w first last e = Ok w' →
  collected (list_to_set (event_asset_refs (ev_payload e)) ∪ S) (wk_references w').
Proof.
  intros Hc H. unfold walk_payload in H.
  destruct (ev_payload e) as [| |o|call|id [r|x|x|x]|s|f|id n|v|x] eqn:Hp;
    cbn [event_asset_refs list_to_set];
    unfold walk_observation, walk_action_started, walk_action_completed,
      walk_media_started, walk_media_frame, walk_media_ended in H; inv_result;
    rewrite ?(left_id_L ∅ (∪)); try done.
  - rewrite <-observation_refs_set, <-(assoc_L (∪)).
    eapply add_snapshots_collected; [|done]. by eapply add_all_collected.
  - match goal with H : walk_success _ _ _ _ _ _ = Ok _ |- _ =>
      unfold walk_success in H end. inv_result.
    rewrite <-result_refs_set, <-(assoc_L (∪)).
    eapply add_snapshots_collected; [|done]. by eapply add_all_collected.
  - match goal with H : wk_media_streams w !! _ = Some ?p |- _ => destruct p end.
    inv_result. rewrite (right_id_L ∅ (∪)). by eapply collector_add_collected.
  - match goal with H : wk_media_streams w !! _ = Some ?p |- _ => destruct p end.
    by inv_result.
  - by eapply add_all_collected.
Qed.

Lemma walk_events_collected session ended_at total i w events w' S :
  collected S (wk_references w) →
  walk_events protocol limits session ended_at total i w events = Ok w' →
  collected (list_to_set (export_asset_refs events) ∪ S) (wk_references w').
Proof.
  revert i w S. induction events as [|e events IH]; intros i w S Hc H;
    cbn [walk_events] in H.
  { simplify_eq. cbn. by rewrite (left_id_L ∅ (∪)). }
  inv_result. match goal with H : walk_event _ _ _ _ _ _ _ _ = Ok _ |- _ =>
    unfold walk_event in H end. inv_result.
  match goal with H : walk_payload _ _ _ _ _ _ _ _ = Ok _,
      H' : walk_events _ _ _ _ _ _ _ _ = Ok _ |- _ =>
    eapply walk_payload_collected in H; [|exact Hc]; eapply IH in H'; [|exact H] end.
  unfold export_asset_refs. cbn. rewrite list_to_set_app_L. fold (export_asset_refs events).
  by replace (list_to_set (event_asset_refs (ev_payload e)) ∪
    list_to_set (export_asset_refs events) ∪ S) with
    (list_to_set (export_asset_refs events) ∪
     (list_to_set (event_asset_refs (ev_payload e)) ∪ S)) by set_solver.
Qed.

Lemma validate_export_collected export refs :
  validate_export protocol limits export = Ok refs →
  collected (list_to_set (export_asset_refs (se_events export))) refs.
Proof.
  intros (_ & _ & _ & _ & ? & w & _ & Hw & _ & _ & <-)%validate_export_walk.
  apply (walk_events_collected _ _ _ _ _ _ _ ∅) in Hw; [|apply collected_new].
  by rewrite (right_id_L ∅ (∪)) in Hw.
Qed.
End Refs.

(** ** The asset index *)

(** Digests in strictly increasing order, all above [bound]. *)
Fixpoint increasing (bound : option string) (l : list string) : Prop :=
  match l with
  | [] => True
  | d :: rest =>
      match bound with Some b => String.leb d b = false | None => True end ∧
      increasing (Some d) rest
  end.

(** An index entry names its file by its digest and is within the limits. *)
Definition asset_wf (limits : BundleLimits) (a : BundleAsset) : Prop :=
  parse_digest (ba_sha256 a) = Ok (ba_sha256 a) ∧
  validate_media_type (ba_media_type a) = Ok () ∧
  ba_path a = canonical_path (ba_sha256 a) ∧
  ba_byte_length a <= bl_max_asset_bytes limits.

Lemma index_asset_ok limits w a w' :
  index_asset limits w a = Ok w' →
  asset_wf limits a ∧
  match ix_previous_digest w with
  | Some b => String.leb (ba_sha256 a) b = false
  | None => True
  end ∧
  w' = mkIndexWalk (<[ba_sha256 a := a]> (ix_indexed w)) (Some (ba_sha256 a))
    (ix_total_bytes w + ba_byte_length a) ∧
  ix_total_bytes w' <= bl_max_total_asset_bytes limits.
Proof.
  unfold index_asset, asset_wf. intros H. inv_result.
  match goal with H : parse_digest _ = Ok _ |- _ =>
    pose proof (proj1 (parse_digest_ok _ _) H) as [-> _] end.
  match goal with H : from_asset_ref _ = Ok _ |- _ =>
    apply from_asset_ref_ok in H as (_ & _ & Hm) end. cbn in Hm. inv_bools.
  match goal with H : u64_checked_add _ _ = Some _ |- _ =>
    apply u64_checked_add_some in H as [-> _] end.
  rewrite String.eqb_eq in *. cbn. split_and!; try done; try lia.
  by destruct (ix_previous_digest w).
Qed.

Fixpoint total_bytes (assets : list BundleAsset) : N :=
  match assets with
  | [] => 0
  | a :: rest => ba_byte_length a + total_bytes rest
  end.

Lemma fold_index_ok limits assets w w' :
  fold_result (index_asset limits) w assets = Ok w' →
  increasing (ix_previous_digest w) (ba_sha256 <$> assets) ∧
  Forall (asset_wf limits) assets ∧
  dom (ix_indexed w') = list_to_set (ba_sha256 <$> assets) ∪ dom (ix_indexed w) ∧
  (∀ d a, ix_indexed w' !! d = Some a →
    ix_indexed w !! d = Some a ∨ (a ∈ assets ∧ ba_sha256 a = d)) ∧
  ix_total_bytes w' = ix_total_bytes w + total_bytes assets ∧
  (ix_total_bytes w <= bl_max_total_asset_bytes limits →
   ix_total_bytes w' <= bl_max_total_asset_bytes limits).
Proof.
  revert w. induction assets as [|a assets IH]; intros w H; cbn [fold_result] in H.
  { simplify_eq. cbn. split_and!; try done; [set_solver|naive_solver|lia]. }
  inv_result. match goal with H : index_asset _ _ _ = Ok _, H' : _ = Ok w' |- _ =>
    apply index_asset_ok in H as (Ha & Hp & -> & Hle); apply IH in H'
      as (Hs & Hall & Hdom & Hin & Ht & Hb) end.
  cbn in *. split_and!; try done.
  - by constructor.
  - rewrite Hdom, dom_insert_L. set_solver.
  - intros d x [[[? ?]|[_ ?]]%lookup_insert_Some|[? ?]]%Hin; subst; set_solver.
  - rewrite Ht. lia.
  - auto.
Qed.

(** Equal sizes and pairwise equal keys in order mean equal key sets. *)
Lemma zip_eq (l k : list string) :
  length l = length k →
  existsb (λ p, negb (String.eqb (fst p) (snd p))) (zip l k) = false → l = k.
Proof.
  revert k. induction l as [|x l IH]; intros [|y k] Hlen H; try done. cbn in *.
  inv_bools. rewrite String.eqb_eq in *. f_equal; [done|]. apply IH; [lia|done].
Qed.

Lemma for_each_ok {A E} (f : A → result E ()) l x :
  for_each f l = Ok () → x ∈ l → f x = Ok ().
Proof.
  induction l as [|y l IH]; intros H Hx; [by apply not_elem_of_nil in Hx|].
  cbn [for_each] in H. inv_result.
  apply elem_of_cons in Hx as [->|Hx]; [|by apply IH].
  match goal with H : f y = Ok ?u |- _ => by destruct u end.
Qed.

Lemma leb_false_trans x y z :
  String.leb y x = false → String.leb z y = false → String.leb z x = false.
Proof.
  unfold String.leb. intros Hyx Hzy.
  assert (String.compare y x = Gt) as H1 by (by destruct (String.compare y x)).
  assert (String.compare z y = Gt) as H2 by (by destruct (String.compare z y)).
  cut (String.compare z x = Gt); [by intros ->|]. clear Hyx Hzy.
  revert y z H1 H2. induction x as [|a x IH]; intros [|b y] [|c z]; try done.
  cbn. unfold Ascii.compare. intros H1 H2.
  destruct (N.compare_spec (Ascii.N_of_ascii b) (Ascii.N_of_ascii a)); try done;
    destruct (N.compare_spec (Ascii.N_of_ascii c) (Ascii.N_of_ascii b)); try done;
    destruct (N.compare_spec (Ascii.N_of_ascii c) (Ascii.N_of_ascii a)); try done;
    try lia. by eapply IH.
Qed.

Lemma leb_refl x : String.leb x x = true.
Proof. by destruct (String.leb_total x x). Qed.

(** A strictly increasing list has no duplicates. *)
Lemma increasing_nodup bound l :
  increasing bound l →
  NoDup l ∧ ∀ b d, bound = Some b → d ∈ l → String.leb d b = false.
Proof.
  revert bound. induction l as [|x l IH]; intros bound H; [split; [constructor|set_solver]|].
  destruct H as [Hx Hl]. destruct (IH _ Hl) as [Hnd Hall]. split.
  - constructor; [|done]. intros Hin. specialize (Hall _ _ eq_refl Hin).
    by rewrite leb_refl in Hall.
  - intros b d -> [->|Hd]%elem_of_cons; [done|].
    eapply leb_false_trans; [exact Hx|]. by apply Hall.
Qed.

Lemma increasing_inj assets a b :
  increasing None (ba_sha256 <$> assets) → a ∈ assets → b ∈ assets →
  ba_sha256 a = ba_sha256 b → a = b.
Proof.
  intros [Hnd _]%increasing_nodup [i Hi]%list_elem_of_lookup [j Hj]%list_elem_of_lookup Heq.
  assert (i = j) as ->; [|congruence].
  eapply NoDup_lookup; [exact Hnd|rewrite list_lookup_fmap, Hi; done|].
  by rewrite list_lookup_fmap, Hj, Heq.
Qed.

Lemma validate_asset_index_ok assets references limits :
  validate_asset_index assets references limits = Ok () →
  increasing None (ba_sha256 <$> assets) ∧ Forall (asset_wf limits) assets ∧
  dom (col_by_digest references) = list_to_set (ba_sha256 <$> assets) ∧
  (∀ a r, a ∈ assets → col_by_digest references !! ba_sha256 a = Some r →
     ba_media_type a = ar_media_type r) ∧
  total_bytes assets <= bl_max_total_asset_bytes limits.
Proof.
  unfold validate_asset_index. intros H. inv_result. inv_bools.
  match goal with H : fold_result _ _ _ = Ok ?w |- _ => set (ix := w) in *;
    apply fold_index_ok in H as (Hs & Hall & Hdom & Hin & Ht & Hb) end. cbn in Hs, Hdom, Ht, Hb.
  destruct (btree_keys_dom (ix_indexed ix)) as [Hl1 Hk1].
  destruct (btree_keys_dom (col_by_digest references)) as [Hl2 Hk2].
  assert (btree_keys (ix_indexed ix) = btree_keys (col_by_digest references)) as Hkeys
    by (apply zip_eq; [congruence|done]).
  assert (dom (col_by_digest references) = dom (ix_indexed ix)) as Hd
    by (apply set_eq; intros d; by rewrite <-Hk1, <-Hk2, Hkeys).
  split_and!; try done.
  - rewrite Hd, Hdom. set_solver.
  - intros a r Ha Hr.
    match goal with H : for_each _ _ = Ok _ |- _ =>
      apply (for_each_ok _ _ (ba_sha256 a)) in H;
      [|apply Hk2; by apply elem_of_dom_2 in Hr] end.
    unfold check_indexed in *. rewrite Hr in *. inv_result. inv_bools.
    match goal with H : ix_indexed ix !! _ = Some ?b |- _ =>
      destruct (Hin _ _ H) as [He|[Hb' Heq]];
      [cbn in He; by rewrite lookup_empty in He|] end.
    rewrite String.eqb_eq in *.
    by rewrite <-(increasing_inj _ _ _ Hs Hb' Ha Heq).
  - rewrite N.add_0_l in Ht. rewrite <-Ht. apply Hb. lia.
Qed.

(** A manifest that passes [validate_manifest_events] indexes exactly
    the evidence its events refer to: a digest is in the asset index iff some
    event carries a canonical reference with that digest (as the Event Store
    counts references); the index is strictly sorted by digest, every entry
    is stored under the path of its digest with the media type of the
    references, and the total size is within the limits. *)
Theorem validated_manifest_indexes_evidence limits manifest digests :
  validate_manifest_events manifest limits = Ok digests →
  let assets := bm_assets manifest in
  let refs := export_asset_refs (bm_events manifest) in
  (∀ d, d ∈ ba_sha256 <$> assets ↔ ∃ a, a ∈ refs ∧ from_asset_ref a = Ok d) ∧
  dom digests = list_to_set (ba_sha256 <$> assets) ∧
  (∀ a r, a ∈ assets → r ∈ refs → from_asset_ref r = Ok (ba_sha256 a) →
     ba_media_type a = ar_media_type r) ∧
  increasing None (ba_sha256 <$> assets) ∧ Forall (asset_wf limits) assets ∧
  total_bytes assets <= bl_max_total_asset_bytes limits.
Proof.
  unfold validate_manifest_events. intros H. inv_result.
  match goal with H : validate_export _ _ _ = Ok ?c,
      H' : validate_asset_index _ _ _ = Ok ?u |- _ =>
    apply validate_export_collected in H as Hc; rename H' into Hix;
    set (refs := c) in *; destruct u end.
  apply validate_asset_index_ok in Hix as (Hs & Hall & Hdom & Hmt & Hb). cbn in Hc.
  assert (∀ d, d ∈ dom (col_by_digest refs) ↔
    ∃ a, a ∈ export_asset_refs (bm_events manifest) ∧ from_asset_ref a = Ok d) as Hrefs.
  { intros d. rewrite elem_of_dom. split.
    - intros [a Ha]. apply (cl_out _ _ Hc) in Ha. set_solver.
    - intros (a & Hin & Hd). destruct (cl_in _ _ Hc a) as (d' & a' & Hd' & Hl & _);
        [set_solver|]. rewrite Hd in Hd'. simplify_eq. eauto. }
  split_and!; try done.
  - intros d. rewrite <-Hrefs, Hdom. set_solver.
  - intros a r Ha Hr Hd. destruct (cl_in _ _ Hc r) as (d & r' & Hd' & Hl & <-);
      [set_solver|]. rewrite Hd in Hd'. simplify_eq. by eapply Hmt.
Qed.

(** ** The theorems at the sample Session *)

Definition sample_export : result EventStoreError SessionExport :=
  export_session ended_store sample_session.

Lemma validate_json_value_iff_witness :
  is_ok (validate_json_value (JArray [JObject [("x", JNull)]; JBool true]) 1
    BundleLimits_default) = true.
Proof.
  apply (validate_json_value_iff BundleLimits_default);
    vm_compute; [reflexivity|discriminate|split; discriminate].
Defined.

Lemma validated_export_is_complete_witness :
  ∃ export, sample_export = Ok export ∧
    NoDup (ev_event_id <$> se_events export).
Proof.
  run_log.
  eapply (validated_export_is_complete PROTOCOL_VERSION BundleLimits_default);
    vm_compute; reflexivity.
Defined.

Lemma store_exports_are_bundleable_witness :
  ∃ export, sample_export = Ok export ∧
    benign (validate_export PROTOCOL_VERSION BundleLimits_default export).
Proof.
  run_log.
  eapply (store_exports_are_bundleable EventStreamConfig_default ended_store sample_session);
    [exact ended_reachable|vm_compute; reflexivity..|].
  apply (bool_decide_unpack _). vm_compute. exact I.
Defined.

Definition sample_bundle_asset : BundleAsset :=
  mkBundleAsset sample_digest "image/png" 2048 (canonical_path sample_digest).

Lemma validated_manifest_indexes_evidence_witness :
  ∃ export, sample_export = Ok export ∧ ∃ a,
    a ∈ export_asset_refs (se_events export) ∧ from_asset_ref a = Ok sample_digest.
Proof.
  run_log.
  match goal with |- context [export_asset_refs (se_events ?export)] =>
    set (m := manifest_from_source (mkBundleSource PROTOCOL_VERSION export)
      [sample_bundle_asset]) end.
  assert (is_ok (validate_manifest_events m BundleLimits_default) = true) as Hok
    by (vm_compute; reflexivity).
  destruct (validate_manifest_events m BundleLimits_default) as [digests|] eqn:Hv;
    [|discriminate].
  destruct (validated_manifest_indexes_evidence BundleLimits_default m digests Hv)
    as [H _].
  apply (proj1 (H sample_digest)). apply list_elem_of_singleton. reflexivity.
Defined.
