(* ===== verification/DevicePool.v ===== *)
(** * The device pool

    [crates/core/src/pool.rs]: exclusive, expiring, owner-bound device leases
    with health freshness. A method looks up the device's gate, waits for the
    gate, and then runs its body under the pool's lock: the lookup and the
    body are separate definitions, since other operations may run between
    them. Gates are numbered in the order of their allocation ([Arc] identity),
    [Instant]s are nanoseconds of the monotonic clock, and random lease ids
    are arguments. A section reads the clock when it has the lock of the pool;
    the code reads it just before, and may so find a time that is older by the
    wait for the lock. *)

From S2P Require Import Prelude Protocol Evidence.

Local Open Scope N_scope.

Definition MAX_DURATION_MS : N := 24 * 60 * 60 * 1000.
Definition MAX_HEALTH_CODE_BYTES : N := 64.

Definition LeaseId : Type := N.
Definition LeaseOwnerId : Type := N.
Definition GateId : Type := N.

(** ** Configuration, health and leases *)

Inductive DevicePoolError :=
| PoolInvalidConfiguration
| PoolInvalidHealthCode
| PoolInvalidDeviceId
| PoolDeviceAlreadyRegistered (d : DeviceId)
| PoolDeviceNotFound (d : DeviceId)
| PoolDeviceRegistrationChanged (d : DeviceId)
| PoolHealthUnknown (d : DeviceId)
| PoolHealthStale (d : DeviceId)
| PoolDeviceUnhealthy (d : DeviceId) (code : string)
| PoolDeviceInUse (d : DeviceId)
| PoolLeaseNotFound
| PoolLeaseMismatch
| PoolLeaseExpired
| PoolDeviceLeased (d : DeviceId).

Record DevicePoolConfig := mkDevicePoolConfig {
  pc_lease_ttl_ms : N;
  pc_health_validity_ms : N;
}.

(** [DevicePoolConfig::new] *)
Definition DevicePoolConfig_new (lease_ttl_ms health_validity_ms : N)
    : result DevicePoolError DevicePoolConfig :=
  check! reject_if
    ((lease_ttl_ms =? 0) || (MAX_DURATION_MS <? lease_ttl_ms) ||
     (health_validity_ms =? 0) || (MAX_DURATION_MS <? health_validity_ms))
    PoolInvalidConfiguration;
  Ok (mkDevicePoolConfig lease_ttl_ms health_validity_ms).

(** [DevicePoolConfig::default] *)
Definition DevicePoolConfig_default : DevicePoolConfig :=
  mkDevicePoolConfig (5 * 60 * 1000) (30 * 1000).

Definition lease_ttl (c : DevicePoolConfig) : N := from_millis (pc_lease_ttl_ms c).
Definition health_validity (c : DevicePoolConfig) : N :=
  from_millis (pc_health_validity_ms c).

Record DeviceLease := mkDeviceLease {
  dl_id : LeaseId;
  dl_device_id : DeviceId;
  dl_owner_id : LeaseOwnerId;
  dl_issued_at_ms : N;
  dl_expires_at_ms : N;
}.

#[global] Instance DeviceLease_eq_dec : EqDecision DeviceLease.
Proof. solve_decision. Defined.

Inductive PoolHealthState := HealthUnknown | Healthy | Degraded | Unhealthy.

#[global] Instance PoolHealthState_eq_dec : EqDecision PoolHealthState.
Proof. solve_decision. Defined.

Record PoolHealth := mkPoolHealth {
  ph_state : PoolHealthState;
  ph_checked_at_ms : option N;
  ph_code : option string;
}.

(** [valid_health_code] *)
Definition valid_health_code (code : string) : bool :=
  negb (str_len code =? 0) && (str_len code <=? MAX_HEALTH_CODE_BYTES) &&
  forallb (λ b, is_ascii_lowercase b || is_ascii_digit b ||
                (b =? 0x5F) || (b =? 0x2D) || (b =? 0x2E)) (bytes code).

(** [PoolHealth::unknown], [PoolHealth::healthy], [PoolHealth::classified] *)
Definition health_unknown : PoolHealth := mkPoolHealth HealthUnknown None None.
Definition health_healthy (checked_at_ms : N) : PoolHealth :=
  mkPoolHealth Healthy (Some checked_at_ms) None.
Definition health_classified (state : PoolHealthState) (checked_at_ms : N)
    (code : string) : result DevicePoolError PoolHealth :=
  check! reject_if (negb (valid_health_code code)) PoolInvalidHealthCode;
  Ok (mkPoolHealth state (Some checked_at_ms) (Some code)).

(** [validate_health] *)
Definition validate_health (h : PoolHealth) : result DevicePoolError () :=
  let valid :=
    match ph_state h, ph_checked_at_ms h, ph_code h with
    | HealthUnknown, None, None => true
    | Healthy, Some _, None => true
    | Degraded, Some _, Some code | Unhealthy, Some _, Some code =>
        valid_health_code code
    | _, _, _ => false
    end in
  reject_if (negb valid) PoolInvalidHealthCode.

Record LeaseRecord := mkLeaseRecord {
  lr_value : DeviceLease;
  lr_deadline : Instant;
}.

#[global] Instance LeaseRecord_eq_dec : EqDecision LeaseRecord.
Proof. solve_decision. Defined.

Record PoolRecord := mkPoolRecord {
  rec_device_id : DeviceId;
  rec_health : PoolHealth;
  rec_health_checked_at : option Instant;
  rec_lease : option LeaseRecord;
  rec_gate : GateId;
}.

Record DevicePoolEntry := mkDevicePoolEntry {
  en_device_id : DeviceId;
  en_health : PoolHealth;
  en_lease : option DeviceLease;
}.

(** [PoolRecord::public_entry] *)
Definition public_entry (r : PoolRecord) (now : Instant) : DevicePoolEntry :=
  {| en_device_id := rec_device_id r;
     en_health := rec_health r;
     en_lease :=
       match rec_lease r with
       | Some l => if now <? lr_deadline l then Some (lr_value l) else None
       | None => None
       end |}.

(** [ensure_healthy] *)
Definition ensure_healthy (r : PoolRecord) (now : Instant) (validity : N)
    : result DevicePoolError () :=
  checked_at ← ok_or (rec_health_checked_at r) (PoolHealthUnknown (rec_device_id r));
  check! reject_if (validity <? now - checked_at) (PoolHealthStale (rec_device_id r));
  match ph_state (rec_health r) with
  | Healthy | Degraded => Ok ()
  | HealthUnknown => Err (PoolHealthUnknown (rec_device_id r))
  | Unhealthy => Err (PoolDeviceUnhealthy (rec_device_id r)
      (default "unknown"%string (ph_code (rec_health r))))
  end.

(** ** State *)

(** [PoolState], with the number of gates allocated so far. *)
Record PoolState := mkPoolState {
  ps_wall_high_water_ms : N;
  ps_devices : gmap DeviceId PoolRecord;
  ps_lease_devices : gmap LeaseId DeviceId;
  ps_owner_leases : gmap LeaseOwnerId (gset LeaseId);
  ps_lease_deadlines : gset (Instant * LeaseId);
  ps_next_gate : GateId;
}.

(** [DevicePool::new] *)
Definition empty_pool : PoolState := mkPoolState 0 ∅ ∅ ∅ ∅ 0.
Definition DevicePool_new (config : DevicePoolConfig)
    : result DevicePoolError (DevicePoolConfig * PoolState) :=
  config ← DevicePoolConfig_new (pc_lease_ttl_ms config) (pc_health_validity_ms config);
  Ok (config, empty_pool).

Definition set_lease (l : option LeaseRecord) (r : PoolRecord) : PoolRecord :=
  mkPoolRecord (rec_device_id r) (rec_health r) (rec_health_checked_at r) l (rec_gate r).

Definition update_device (d : DeviceId) (f : PoolRecord → PoolRecord) (st : PoolState)
    : PoolState :=
  mkPoolState (ps_wall_high_water_ms st) (alter f d (ps_devices st))
    (ps_lease_devices st) (ps_owner_leases st) (ps_lease_deadlines st)
    (ps_next_gate st).

Definition set_indexes (st : PoolState) (lease_devices : gmap LeaseId DeviceId)
    (owner_leases : gmap LeaseOwnerId (gset LeaseId))
    (lease_deadlines : gset (Instant * LeaseId)) : PoolState :=
  mkPoolState (ps_wall_high_water_ms st) (ps_devices st) lease_devices owner_leases
    lease_deadlines (ps_next_gate st).

Definition lease_of (st : PoolState) (d : DeviceId) : option LeaseRecord :=
  ps_devices st !! d ≫= rec_lease.

(** [PoolState::install_lease] *)
Definition install_lease (d : DeviceId) (l : LeaseRecord) (st : PoolState) : PoolState :=
  let lease_id := dl_id (lr_value l) in
  let owner_id := dl_owner_id (lr_value l) in
  update_device d (set_lease (Some l))
    (set_indexes st
      (<[lease_id := d]> (ps_lease_devices st))
      (<[owner_id := {[lease_id]} ∪ default ∅ (ps_owner_leases st !! owner_id)]>
         (ps_owner_leases st))
      ({[(lr_deadline l, lease_id)]} ∪ ps_lease_deadlines st)).

(** [PoolState::take_lease] *)
Definition take_lease (d : DeviceId) (st : PoolState) : option LeaseRecord * PoolState :=
  match lease_of st d with
  | None => (None, st)
  | Some l =>
      let lease_id := dl_id (lr_value l) in
      let owner_id := dl_owner_id (lr_value l) in
      (Some l,
       update_device d (set_lease None)
         (set_indexes st
           (delete lease_id (ps_lease_devices st))
           (match ps_owner_leases st !! owner_id with
            | Some leases =>
                let leases := leases ∖ {[lease_id]} in
                if bool_decide (leases = ∅) then delete owner_id (ps_owner_leases st)
                else <[owner_id := leases]> (ps_owner_leases st)
            | None => ps_owner_leases st
            end)
           (ps_lease_deadlines st ∖ {[(lr_deadline l, lease_id)]})))
  end.

(** [PoolState::expire_lease] *)
Definition expire_lease (d : DeviceId) (now : Instant) (st : PoolState)
    : option DeviceLease * PoolState :=
  let expired :=
    match lease_of st d with Some l => lr_deadline l <=? now | None => false end in
  if expired then let '(l, st') := take_lease d st in (lr_value <$> l, st')
  else (None, st).

(** [PoolState::renew_lease] *)
Definition renew_lease (d : DeviceId) (deadline : Instant) (expires_at_ms : N)
    (st : PoolState) : option DeviceLease * PoolState :=
  match lease_of st d with
  | None => (None, st)
  | Some l =>
      let v := lr_value l in
      let value := mkDeviceLease (dl_id v) (dl_device_id v) (dl_owner_id v)
        (dl_issued_at_ms v) expires_at_ms in
      (Some value,
       update_device d (set_lease (Some (mkLeaseRecord value deadline)))
         (set_indexes st (ps_lease_devices st) (ps_owner_leases st)
           ({[(deadline, dl_id v)]} ∪
            (ps_lease_deadlines st ∖ {[(lr_deadline l, dl_id v)]}))))
  end.

(** [PoolState::lease_targets] *)
Definition lease_targets (st : PoolState) (lease_ids : list LeaseId)
    : list (DeviceId * GateId) :=
  omap (λ id,
    d ← ps_lease_devices st !! id;
    r ← ps_devices st !! d;
    Some (d, rec_gate r)) lease_ids.

(** [ensure_current_gate] *)
Definition ensure_current_gate (st : PoolState) (d : DeviceId) (gate : GateId)
    : result DevicePoolError () :=
  r ← ok_or (ps_devices st !! d) (PoolDeviceNotFound d);
  reject_if (negb (rec_gate r =? gate)) (PoolDeviceRegistrationChanged d).

(** [advance_wall_clock] *)
Definition advance_wall_clock (now_ms : N) (st : PoolState) : PoolState :=
  mkPoolState (N.max (ps_wall_high_water_ms st) now_ms) (ps_devices st)
    (ps_lease_devices st) (ps_owner_leases st) (ps_lease_deadlines st)
    (ps_next_gate st).

(** ** Methods *)

Definition PoolM (A : Type) : Type := M PoolState DevicePoolError A.

(** [DevicePool::gate] and [DevicePool::lease_device], the lookups that
    precede the wait for the gate. *)
Definition gate (st : PoolState) (d : DeviceId) : result DevicePoolError GateId :=
  ok_or (rec_gate <$> ps_devices st !! d) (PoolDeviceNotFound d).
Definition lease_device (st : PoolState) (id : LeaseId) : result DevicePoolError DeviceId :=
  ok_or (ps_lease_devices st !! id) PoolLeaseNotFound.

(** [struct DeviceRegistrationToken] *)
Record DeviceRegistrationToken := mkDeviceRegistrationToken {
  tok_device_id : DeviceId;
  tok_gate : GateId;
}.

(** [DevicePool::register] *)
Definition register (d : DeviceId) : PoolM DeviceRegistrationToken :=
  fail_if! trim_is_empty d with PoolInvalidDeviceId;
  st ← get;
  fail_if! bool_decide (is_Some (ps_devices st !! d)) with PoolDeviceAlreadyRegistered d;
  let new_gate := ps_next_gate st in
  check! modify (λ st,
    mkPoolState (ps_wall_high_water_ms st)
      (<[d := mkPoolRecord d health_unknown None None new_gate]> (ps_devices st))
      (ps_lease_devices st) (ps_owner_leases st) (ps_lease_deadlines st)
      (new_gate + 1));
  mret (mkDeviceRegistrationToken d new_gate).

(** The body of [DevicePool::remove_with_gate], run while the gate is held
    exclusively. *)
Definition remove_with_gate (d : DeviceId) (now : Instant) (now_ms : N) (g : GateId)
    : PoolM () :=
  st ← get;
  check! lift (ensure_current_gate st d g);
  check! modify (advance_wall_clock now_ms);
  check! modify (λ st, snd (expire_lease d now st));
  st ← get;
  r ← lift (ok_or (ps_devices st !! d) (PoolDeviceNotFound d));
  fail_if! bool_decide (is_Some (lease_of st d)) with PoolDeviceLeased d;
  modify (λ st,
    mkPoolState (ps_wall_high_water_ms st) (delete d (ps_devices st))
      (ps_lease_devices st) (ps_owner_leases st) (ps_lease_deadlines st)
      (ps_next_gate st)).

(** [DevicePool::remove] when no other operation runs before it has the gate. *)
Definition remove (d : DeviceId) (now : Instant) (now_ms : N) : PoolM () :=
  st ← get;
  g ← lift (gate st d);
  remove_with_gate d now now_ms g.

(** [DevicePool::record_health] *)
Definition record_health (token : DeviceRegistrationToken) (health : PoolHealth)
    (now : Instant) (now_ms : N) : PoolM PoolHealth :=
  let d := tok_device_id token in
  check! lift (validate_health health);
  st ← get;
  check! lift (ensure_current_gate st d (tok_gate token));
  check! modify (advance_wall_clock now_ms);
  wall_now ← gets ps_wall_high_water_ms;
  let '(health, checked_at) :=
    if bool_decide (ph_state health = HealthUnknown)
    then (mkPoolHealth (ph_state health) None None, None)
    else (mkPoolHealth (ph_state health) (Some wall_now) (ph_code health), Some now) in
  st ← get;
  r ← lift (ok_or (ps_devices st !! d) (PoolDeviceNotFound d));
  check! modify (update_device d (λ r,
    mkPoolRecord (rec_device_id r) health checked_at (rec_lease r) (rec_gate r)));
  mret health.

(** The body of [DevicePool::acquire], run while the gate is held exclusively.
    The ids [LeaseId::new] draws are [draws]; [Ok None] while every one of them
    collided with a live lease. *)
Definition acquire_with_gate (config : DevicePoolConfig) (draws : list LeaseId)
    (d : DeviceId) (owner : LeaseOwnerId) (now : Instant) (now_ms : N) (g : GateId)
    : PoolM (option DeviceLease) :=
  deadline ← lift (ok_or (instant_checked_add now (lease_ttl config))
    PoolInvalidConfiguration);
  st ← get;
  check! lift (ensure_current_gate st d g);
  check! modify (advance_wall_clock now_ms);
  wall_now ← gets ps_wall_high_water_ms;
  check! modify (λ st, snd (expire_lease d now st));
  st ← get;
  r ← lift (ok_or (ps_devices st !! d) (PoolDeviceNotFound d));
  check! lift (ensure_healthy r now (health_validity config));
  let expires_at_ms := u64_saturating_add wall_now (pc_lease_ttl_ms config) in
  match rec_lease r with
  | Some lease =>
      fail_if! negb (dl_owner_id (lr_value lease) =? owner) with PoolDeviceInUse d;
      let '(value, st') := renew_lease d deadline expires_at_ms st in
      check! modify (λ _, st');
      mret value
  | None =>
      match List.find (λ id, negb (bool_decide (is_Some (ps_lease_devices st !! id))))
              draws with
      | None => mret None
      | Some lease_id =>
          let value := mkDeviceLease lease_id d owner wall_now expires_at_ms in
          check! modify (install_lease d (mkLeaseRecord value deadline));
          mret (Some value)
      end
  end.

(** The body of [DevicePool::access_with_lease_inner], run while the gate is
    shared; [Ok ()] returns the guard that keeps it shared. *)
Definition access_with_lease_inner (config : DevicePoolConfig) (lease_id : LeaseId)
    (d : DeviceId) (owner : LeaseOwnerId) (now : Instant) (now_ms : N)
    (require_fresh_health : bool) (g : GateId) : PoolM () :=
  deadline ← lift (ok_or (instant_checked_add now (lease_ttl config))
    PoolInvalidConfiguration);
  st ← get;
  check! lift (ensure_current_gate st d g);
  check! modify (advance_wall_clock now_ms);
  wall_now ← gets ps_wall_high_water_ms;
  st ← get;
  r ← lift (ok_or (ps_devices st !! d) (PoolDeviceNotFound d));
  check! lift (if require_fresh_health
    then ensure_healthy r now (health_validity config) else Ok ());
  lease ← lift (ok_or (rec_lease r) PoolLeaseNotFound);
  if lr_deadline lease <=? now then
    check! modify (λ st, snd (take_lease d st));
    throw PoolLeaseExpired
  else
    fail_if!
      negb (dl_id (lr_value lease) =? lease_id) ||
      negb (dl_owner_id (lr_value lease) =? owner) ||
      negb (bool_decide (dl_device_id (lr_value lease) = d))
      with PoolLeaseMismatch;
    modify (λ st, snd (renew_lease d deadline
      (u64_saturating_add wall_now (pc_lease_ttl_ms config)) st)).

(** [access_with_lease] and [access_with_lease_for_cleanup] *)
Definition access_with_lease config lease_id d owner now now_ms g : PoolM () :=
  access_with_lease_inner config lease_id d owner now now_ms true g.
Definition access_with_lease_for_cleanup config lease_id d owner now now_ms g : PoolM () :=
  access_with_lease_inner config lease_id d owner now now_ms false g.

(** The body of [DevicePool::access_available_to], run while the gate is
    shared. *)
Definition access_available_to (d : DeviceId) (owner : LeaseOwnerId) (now : Instant)
    (now_ms : N) (g : GateId) : PoolM () :=
  st ← get;
  check! lift (ensure_current_gate st d g);
  check! modify (advance_wall_clock now_ms);
  check! modify (λ st, snd (expire_lease d now st));
  st ← get;
  r ← lift (ok_or (ps_devices st !! d) (PoolDeviceNotFound d));
  fail_if! match rec_lease r with
           | Some lease => negb (dl_owner_id (lr_value lease) =? owner)
           | None => false
           end with PoolDeviceInUse d;
  mret ().

(** The body of [DevicePool::release], run while the gate is held exclusively. *)
Definition release_with_gate (lease_id : LeaseId) (owner : LeaseOwnerId) (d : DeviceId)
    (now : Instant) (now_ms : N) (g : GateId) : PoolM (option DeviceLease) :=
  st ← get;
  check! lift (ensure_current_gate st d g);
  check! modify (advance_wall_clock now_ms);
  st ← get;
  r ← lift (ok_or (ps_devices st !! d) (PoolDeviceNotFound d));
  lease ← lift (ok_or (rec_lease r) PoolLeaseNotFound);
  if lr_deadline lease <=? now then
    check! modify (λ st, snd (take_lease d st));
    throw PoolLeaseExpired
  else
    fail_if! negb (dl_id (lr_value lease) =? lease_id) ||
             negb (dl_owner_id (lr_value lease) =? owner) with PoolLeaseMismatch;
    let '(taken, st') := take_lease d st in
    check! modify (λ _, st');
    mret (lr_value <$> taken).

(** One iteration of the loops of [release_owner], [release_all] and
    [reap_expired], run while the target's gate is held exclusively: the lease
    it pushes, if any, and the state after it. *)
Definition release_owner_target (owner : LeaseOwnerId) (target : DeviceId * GateId)
    (now : Instant) (now_ms : N) (st : PoolState) : option DeviceLease * PoolState :=
  let '(d, g) := target in
  if is_err (ensure_current_gate st d g) then (None, st) else
  let st := advance_wall_clock now_ms st in
  if match lease_of st d with
     | Some l => dl_owner_id (lr_value l) =? owner
     | None => false
     end
  then
    let '(taken, st') := take_lease d st in
    (match taken with
     | Some l => if now <? lr_deadline l then Some (lr_value l) else None
     | None => None
     end, st')
  else (None, st).

Definition release_all_target (target : DeviceId * GateId) (now_ms : N) (st : PoolState)
    : option DeviceLease * PoolState :=
  let '(d, g) := target in
  if is_err (ensure_current_gate st d g) then (None, st) else
  let '(taken, st') := take_lease d (advance_wall_clock now_ms st) in
  (lr_value <$> taken, st').

Definition reap_target (target : DeviceId * GateId) (now : Instant) (now_ms : N)
    (st : PoolState) : option DeviceLease * PoolState :=
  let '(d, g) := target in
  if is_err (ensure_current_gate st d g) then (None, st)
  else expire_lease d now (advance_wall_clock now_ms st).

(** A loop over targets, without other operations in between. *)
Fixpoint for_targets (body : DeviceId * GateId → PoolState → option DeviceLease * PoolState)
    (targets : list (DeviceId * GateId)) (st : PoolState)
    : list DeviceLease * PoolState :=
  match targets with
  | [] => ([], st)
  | target :: rest =>
      let '(out, st1) := body target st in
      let '(outs, st2) := for_targets body rest st1 in
      (option_list out ++ outs, st2)
  end.

(** The targets each of them collects first. *)
Definition release_owner_targets (st : PoolState) (owner : LeaseOwnerId)
    : list (DeviceId * GateId) :=
  lease_targets st (merge_sort N.le (elements (default ∅ (ps_owner_leases st !! owner)))).
Definition release_all_targets (st : PoolState) : list (DeviceId * GateId) :=
  lease_targets st (merge_sort N.le (elements (dom (ps_lease_devices st)))).

(** The order of [BTreeSet<(Instant, LeaseId)>]. *)
Definition deadline_le (x y : Instant * LeaseId) : Prop :=
  fst x < fst y ∨ (fst x = fst y ∧ snd x <= snd y).
#[global] Instance deadline_le_dec : RelDecision deadline_le.
Proof. intros x y. unfold deadline_le. apply _. Defined.

Fixpoint take_while {A} (f : A → bool) (l : list A) : list A :=
  match l with
  | [] => []
  | x :: l => if f x then x :: take_while f l else []
  end.

Definition reap_targets (st : PoolState) (candidate_now : Instant)
    : list (DeviceId * GateId) :=
  lease_targets st (snd <$>
    take_while (λ p, fst p <=? candidate_now)
      (merge_sort deadline_le (elements (ps_lease_deadlines st)))).

(** [DevicePool::release_owner], [release_all] and [reap_expired], each run
    without interference at the instant [now]. *)
Definition release_owner (owner : LeaseOwnerId) (now : Instant) (now_ms : N)
    (st : PoolState) : list DeviceLease * PoolState :=
  for_targets (λ t, release_owner_target owner t now now_ms)
    (release_owner_targets st owner) st.
Definition release_all (now_ms : N) (st : PoolState) : list DeviceLease * PoolState :=
  for_targets (λ t, release_all_target t now_ms) (release_all_targets st) st.
Definition reap_expired (now : Instant) (now_ms : N) (st : PoolState)
    : list DeviceLease * PoolState :=
  for_targets (λ t, reap_target t now now_ms) (reap_targets st now) st.

(** [DevicePool::entries] *)
Definition entries (now : Instant) (now_ms : N) (st : PoolState)
    : list DevicePoolEntry * PoolState :=
  (omap (λ d, (λ r, public_entry r now) <$> ps_devices st !! d)
     (btree_keys (ps_devices st)),
   advance_wall_clock now_ms st).
