(* ===== verification/DevicePoolProps.v ===== *)
(** * The device pool under concurrency

    The pool of [DevicePool.v] with its guards: a system state is the pool,
    the monotonic clock and the live [DeviceAccessGuard]s. A body that takes
    the gate for writing runs only while no guard shares the gate, and a body
    that takes it for reading adds a guard when it succeeds. Bodies run one at
    a time, since they hold the pool's lock. *)

From S2P Require Import Prelude Protocol Evidence DevicePool.

Local Open Scope N_scope.

(** ** The system *)

(** [DeviceAccessGuard], with the owner it was issued to. *)
Record Guard := mkGuard {
  gu_device : DeviceId;
  gu_gate : GateId;
  gu_owner : LeaseOwnerId;
}.

Record PoolSystem := mkPoolSystem {
  sys_pool : PoolState;
  sys_now : Instant;
  sys_guards : list Guard;
}.

Definition new_system : PoolSystem := mkPoolSystem empty_pool 0 [].

(** One atomic section: a whole method, or the part of a method that runs
    after it has waited for the gate [g] it looked up before. *)
Inductive PoolOp :=
| Tick (elapsed : N)
| Register (d : DeviceId)
| Remove (d : DeviceId) (now_ms : N) (g : GateId)
| RecordHealth (token : DeviceRegistrationToken) (health : PoolHealth) (now_ms : N)
| Acquire (draws : list LeaseId) (d : DeviceId) (owner : LeaseOwnerId) (now_ms : N)
    (g : GateId)
| AccessWithLease (lease_id : LeaseId) (d : DeviceId) (owner : LeaseOwnerId)
    (now_ms : N) (require_fresh_health : bool) (g : GateId)
| AccessAvailable (d : DeviceId) (owner : LeaseOwnerId) (now_ms : N) (g : GateId)
| Release (lease_id : LeaseId) (owner : LeaseOwnerId) (d : DeviceId) (now_ms : N)
    (g : GateId)
| ReleaseOwnerTarget (owner : LeaseOwnerId) (d : DeviceId) (now_ms : N) (g : GateId)
| ReleaseAllTarget (d : DeviceId) (now_ms : N) (g : GateId)
| ReapTarget (d : DeviceId) (now_ms : N) (g : GateId)
| Entries (now_ms : N)
| DropGuard (i : nat).

(** No guard shares the gate, so that it can be taken for writing. *)
Definition unshared (g : GateId) (guards : list Guard) : bool :=
  negb (existsb (λ gu, gu_gate gu =? g) guards).

Definition exclusive (g : GateId) (body : PoolState → PoolState) (s : PoolSystem)
    : option PoolSystem :=
  if unshared g (sys_guards s)
  then Some (mkPoolSystem (body (sys_pool s)) (sys_now s) (sys_guards s)) else None.

Definition shared (gu : Guard) (body : PoolM ()) (s : PoolSystem) : option PoolSystem :=
  let '(r, st') := body (sys_pool s) in
  Some (mkPoolSystem st' (sys_now s)
    (match r with Ok _ => gu :: sys_guards s | Err _ => sys_guards s end)).

Definition set_pool (st : PoolState) (s : PoolSystem) : option PoolSystem :=
  Some (mkPoolSystem st (sys_now s) (sys_guards s)).

(** [None] when the section has to wait. *)
Definition pool_step (config : DevicePoolConfig) (op : PoolOp) (s : PoolSystem)
    : option PoolSystem :=
  let st := sys_pool s in
  let now := sys_now s in
  match op with
  | Tick elapsed => Some (mkPoolSystem st (now + elapsed) (sys_guards s))
  | Register d => set_pool (snd (register d st)) s
  | Remove d now_ms g => exclusive g (λ st, snd (remove_with_gate d now now_ms g st)) s
  | RecordHealth token health now_ms =>
      set_pool (snd (record_health token health now now_ms st)) s
  | Acquire draws d owner now_ms g =>
      exclusive g (λ st, snd (acquire_with_gate config draws d owner now now_ms g st)) s
  | AccessWithLease id d owner now_ms fresh g =>
      shared (mkGuard d g owner)
        (access_with_lease_inner config id d owner now now_ms fresh g) s
  | AccessAvailable d owner now_ms g =>
      shared (mkGuard d g owner) (access_available_to d owner now now_ms g) s
  | Release id owner d now_ms g =>
      exclusive g (λ st, snd (release_with_gate id owner d now now_ms g st)) s
  | ReleaseOwnerTarget owner d now_ms g =>
      exclusive g (λ st, snd (release_owner_target owner (d, g) now now_ms st)) s
  | ReleaseAllTarget d now_ms g =>
      exclusive g (λ st, snd (release_all_target (d, g) now_ms st)) s
  | ReapTarget d now_ms g =>
      exclusive g (λ st, snd (reap_target (d, g) now now_ms st)) s
  | Entries now_ms => set_pool (snd (entries now now_ms st)) s
  | DropGuard i => Some (mkPoolSystem st now (delete i (sys_guards s)))
  end.

Fixpoint pool_run (config : DevicePoolConfig) (ops : list PoolOp) (s : PoolSystem)
    : option PoolSystem :=
  match ops with
  | [] => Some s
  | op :: ops => s' ← pool_step config op s; pool_run config ops s'
  end.

Definition pool_reachable (config : DevicePoolConfig) (s : PoolSystem) : Prop :=
  ∃ ops, pool_run config ops new_system = Some s.

(** ** What a section can do to the pool

    Every section changes one device, in steps; the steps that end, replace
    or grant a lease or that remove the device need the gate exclusively,
    except that a lease past its deadline is dropped under a shared gate too. *)

Section Steps.
Context (config : DevicePoolConfig) (now : Instant) (exclusively : bool) (d : DeviceId).

Inductive device_step (st : PoolState) : PoolState → Prop :=
| ds_wall now_ms : device_step st (advance_wall_clock now_ms st)
| ds_expire l : lease_of st d = Some l → lr_deadline l <= now →
    device_step st (snd (take_lease d st))
| ds_renew expires_at_ms :
    device_step st (snd (renew_lease d (now + lease_ttl config) expires_at_ms st))
| ds_health health checked_at :
    device_step st (update_device d (λ r,
      mkPoolRecord (rec_device_id r) health checked_at (rec_lease r) (rec_gate r)) st)
| ds_take : exclusively = true → device_step st (snd (take_lease d st))
| ds_install r l : exclusively = true → ps_devices st !! d = Some r →
    rec_lease r = None → dl_device_id (lr_value l) = d →
    ps_lease_devices st !! dl_id (lr_value l) = None →
    lr_deadline l = now + lease_ttl config →
    device_step st (install_lease d l st)
| ds_remove : exclusively = true → lease_of st d = None →
    device_step st (mkPoolState (ps_wall_high_water_ms st) (delete d (ps_devices st))
      (ps_lease_devices st) (ps_owner_leases st) (ps_lease_deadlines st)
      (ps_next_gate st)).
End Steps.

Definition gate_at (st : PoolState) (d : DeviceId) (g : GateId) : Prop :=
  ∃ r, ps_devices st !! d = Some r ∧ rec_gate r = g.

Definition section_of (config : DevicePoolConfig) (now : Instant) (exclusively : bool)
    (d : DeviceId) (g : GateId) (st st' : PoolState) : Prop :=
  st' = st ∨ gate_at st d g ∧ rtc (device_step config now exclusively d) st st'.

Lemma ensure_current_gate_ok st d g u : ensure_current_gate st d g = Ok u ↔ gate_at st d g.
Proof.
  unfold ensure_current_gate, gate_at. destruct u. rewrite result_bind_ok.
  setoid_rewrite ok_or_ok. setoid_rewrite reject_if_ok.
  setoid_rewrite negb_false_iff. by setoid_rewrite N.eqb_eq.
Qed.

(** Running a program one bind at a time. *)
Lemma snd_lift {E A B} (r : result E A) (k : A → M PoolState E B) st :
  snd ((lift r ≫= k) st) = match r with Ok a => snd (k a st) | Err _ => st end.
Proof. by destruct r. Qed.

Lemma snd_modify {E B} f (k : () → M PoolState E B) st :
  snd ((modify f ≫= k) st) = snd (k () (f st)).
Proof. done. Qed.

Lemma snd_get {E B} (k : PoolState → M PoolState E B) st :
  snd ((get ≫= k) st) = snd (k st st).
Proof. done. Qed.

Lemma snd_gets {E A B} (f : PoolState → A) (k : A → M PoolState E B) st :
  snd ((gets f ≫= k) st) = snd (k (f st) st).
Proof. done. Qed.

Ltac run_program :=
  repeat match goal with
  | |- context [snd ((get ≫= ?k) _)] => rewrite (snd_get k)
  | |- context [snd ((gets ?f ≫= ?k) _)] => rewrite (snd_gets f k)
  | |- context [snd ((modify ?f ≫= ?k) _)] => rewrite (snd_modify f k)
  | |- context [snd ((lift ?r ≫= ?k) _)] =>
      rewrite (snd_lift r k); destruct r eqn:?; [|try apply rtc_refl]
  end.

Lemma expire_steps config now b d st :
  rtc (device_step config now b d) st (snd (expire_lease d now st)).
Proof.
  unfold expire_lease. destruct (lease_of st d) as [l|] eqn:Hl; [|done].
  destruct (N.leb_spec (lr_deadline l) now); [|done].
  destruct (take_lease d st) as [x st'] eqn:Ht. cbn.
  apply rtc_once. replace st' with (snd (take_lease d st)) by by rewrite Ht.
  by eapply ds_expire.
Qed.

(** The start of every section: the gate check and the wall clock. *)
Lemma start_section config now b d g now_ms st st' u :
  ensure_current_gate st d g = Ok u →
  rtc (device_step config now b d) (advance_wall_clock now_ms st) st' →
  section_of config now b d g st st'.
Proof.
  intros Hg Hs. right. split; [by eapply ensure_current_gate_ok|].
  eapply rtc_l; [apply ds_wall|exact Hs].
Qed.

Lemma remove_section config now now_ms d g st :
  section_of config now true d g st (snd (remove_with_gate d now now_ms g st)).
Proof.
  unfold remove_with_gate. run_program; try by left.
  all: eapply start_section; [done|].
  all: etrans; [apply expire_steps|]; try apply rtc_refl.
  inv_result. inv_bools. apply rtc_once, ds_remove; [done|].
  by apply eq_None_not_Some.
Qed.

Lemma deadline_ok config now deadline :
  ok_or (instant_checked_add now (lease_ttl config)) PoolInvalidConfiguration = Ok deadline →
  deadline = now + lease_ttl config.
Proof.
  unfold instant_checked_add. case_match; cbn; intros [=]; congruence.
Qed.

Lemma record_health_section config now now_ms token health st :
  section_of config now false (tok_device_id token) (tok_gate token) st
    (snd (record_health token health now now_ms st)).
Proof.
  unfold record_health. run_program; try by left.
  eapply start_section; [done|]. case_bool_decide; run_program;
    try apply rtc_refl; apply rtc_once, ds_health.
Qed.

Lemma acquire_section config draws d owner now now_ms g st :
  section_of config now true d g st
    (snd (acquire_with_gate config draws d owner now now_ms g st)).
Proof.
  unfold acquire_with_gate. run_program; try by left.
  all: eapply start_section; [done|].
  all: etrans; [apply expire_steps|]; try apply rtc_refl.
  match goal with H : ok_or (instant_checked_add _ _) _ = _ |- _ =>
    apply deadline_ok in H as -> end. inv_result.
  match goal with H : _ !! d = Some ?x |- _ => rename H into Hr, x into r end.
  destruct (rec_lease r) as [l|] eqn:Hl.
  - run_program. destruct (renew_lease _ _ _ _) as [v st'] eqn:Hv. run_program.
    apply rtc_once. replace st' with (snd (v, st')) by done. rewrite <-Hv. constructor.
  - destruct (List.find _ _) as [id|] eqn:Hf; [|done]. run_program.
    apply List.find_some in Hf as [_ Hf]. inv_bools.
    apply rtc_once. eapply ds_install; try done. by apply eq_None_not_Some.
Qed.

Lemma access_with_lease_section config id d owner now now_ms fresh g st :
  section_of config now false d g st
    (snd (access_with_lease_inner config id d owner now now_ms fresh g st)).
Proof.
  unfold access_with_lease_inner. run_program; try by left.
  all: eapply start_section; [done|]; try apply rtc_refl.
  match goal with H : ok_or (instant_checked_add _ _) _ = _ |- _ =>
    apply deadline_ok in H as -> end. inv_result.
  match goal with H : _ !! d = Some ?x, H' : rec_lease _ = Some ?y |- _ =>
    rename H into Hr, x into r, H' into Hl, y into l end.
  destruct (N.leb_spec (lr_deadline l) now); run_program.
  - apply rtc_once. eapply (ds_expire _ _ _ _ _ l); [|done].
    unfold lease_of. by rewrite Hr.
  - apply rtc_once, ds_renew.
Qed.

Lemma access_available_section config d owner now now_ms g st :
  section_of config now false d g st (snd (access_available_to d owner now now_ms g st)).
Proof.
  unfold access_available_to. run_program; try by left.
  all: eapply start_section; [done|]; apply expire_steps.
Qed.

Lemma release_section config id owner d now now_ms g st :
  section_of config now true d g st (snd (release_with_gate id owner d now now_ms g st)).
Proof.
  unfold release_with_gate. run_program; try by left.
  all: eapply start_section; [done|]; try apply rtc_refl.
  case_match; run_program; [by apply rtc_once, ds_take|].
  destruct (take_lease _ _) as [v st'] eqn:Hv. run_program.
  apply rtc_once. replace st' with (snd (v, st')) by done. rewrite <-Hv. by constructor.
Qed.

Lemma take_section config now d g st st' now_ms :
  is_err (ensure_current_gate st d g) = false →
  st' = snd (take_lease d (advance_wall_clock now_ms st)) →
  section_of config now true d g st st'.
Proof.
  intros Hg ->. destruct (ensure_current_gate _ _ _) as [u|] eqn:Hu; [|done].
  eapply start_section; [done|]. by apply rtc_once, ds_take.
Qed.

Lemma release_owner_section config owner d now now_ms g st :
  section_of config now true d g st
    (snd (release_owner_target owner (d, g) now now_ms st)).
Proof.
  unfold release_owner_target. destruct (is_err _) eqn:Hg; [by left|].
  case_match.
  - destruct (take_lease _ _) as [v st'] eqn:Hv. eapply take_section; [done|].
    by rewrite Hv.
  - destruct (ensure_current_gate _ _ _) as [u|] eqn:Hu; [|done].
    eapply start_section; [done|apply rtc_refl].
Qed.

Lemma release_all_section config d now now_ms g st :
  section_of config now true d g st (snd (release_all_target (d, g) now_ms st)).
Proof.
  unfold release_all_target. destruct (is_err _) eqn:Hg; [by left|].
  destruct (take_lease _ _) as [v st'] eqn:Hv. eapply take_section; [done|].
  by rewrite Hv.
Qed.

Lemma reap_section config d now now_ms g st :
  section_of config now true d g st (snd (reap_target (d, g) now now_ms st)).
Proof.
  unfold reap_target. destruct (is_err _) eqn:Hg; [by left|].
  destruct (ensure_current_gate _ _ _) as [u|] eqn:Hu; [|done].
  eapply start_section; [done|]. apply expire_steps.
Qed.

#[local] Hint Resolve remove_section record_health_section acquire_section
  access_with_lease_section access_available_section release_section
  release_owner_section release_all_section reap_section : rail.

(** ** Steps of the system *)

(** A step of the system is the clock, a registration, or a section: of an
    exclusive one, no live guard shares the gate; a shared one may add a guard
    of the device and gate it checked. *)
Variant system_step (config : DevicePoolConfig) (s : PoolSystem) : PoolSystem → Prop :=
| ss_time elapsed guards : guards ⊆ sys_guards s →
    system_step config s (mkPoolSystem (sys_pool s) (sys_now s + elapsed) guards)
| ss_register d :
    system_step config s (mkPoolSystem (snd (register d (sys_pool s))) (sys_now s) (sys_guards s))
| ss_wall now_ms :
    system_step config s
      (mkPoolSystem (advance_wall_clock now_ms (sys_pool s)) (sys_now s) (sys_guards s))
| ss_exclusive d g st' : unshared g (sys_guards s) = true →
    section_of config (sys_now s) true d g (sys_pool s) st' →
    system_step config s (mkPoolSystem st' (sys_now s) (sys_guards s))
| ss_shared d g st' guards : section_of config (sys_now s) false d g (sys_pool s) st' →
    (guards = sys_guards s ∨
     ∃ owner, gate_at (sys_pool s) d g ∧ guards = mkGuard d g owner :: sys_guards s) →
    system_step config s (mkPoolSystem st' (sys_now s) guards).

Lemma exclusive_step config d g body s s' :
  section_of config (sys_now s) true d g (sys_pool s) (body (sys_pool s)) →
  exclusive g body s = Some s' → system_step config s s'.
Proof.
  unfold exclusive. intros Hb. destruct (unshared _ _) eqn:Hu; intros [= <-].
  by eapply ss_exclusive.
Qed.

Lemma shared_step config gu body s s' :
  section_of config (sys_now s) false (gu_device gu) (gu_gate gu) (sys_pool s)
    (snd (body (sys_pool s))) →
  (is_ok (fst (body (sys_pool s))) = true →
   gate_at (sys_pool s) (gu_device gu) (gu_gate gu)) →
  shared gu body s = Some s' → system_step config s s'.
Proof.
  unfold shared. destruct (body _) as [r st'] eqn:Hb. intros Hs Hg [= <-].
  eapply ss_shared; [done|]. destruct r; [|by left]. right. destruct gu. eauto.
Qed.

Lemma access_with_lease_gate config id d owner now now_ms fresh g st :
  is_ok (fst (access_with_lease_inner config id d owner now now_ms fresh g st)) = true →
  gate_at st d g.
Proof.
  rewrite <-(ensure_current_gate_ok st d g ()). unfold access_with_lease_inner.
  destruct (ensure_current_gate st d g) as [[]|e] eqn:Hg; [done|].
  unfold mbind, M_bind, get, lift. destruct (ok_or _ _); [|done]. by rewrite Hg.
Qed.

Lemma access_available_gate d owner now now_ms g st :
  is_ok (fst (access_available_to d owner now now_ms g st)) = true → gate_at st d g.
Proof.
  rewrite <-(ensure_current_gate_ok st d g ()). unfold access_available_to.
  destruct (ensure_current_gate st d g) as [[]|e] eqn:Hg; [done|].
  unfold mbind, M_bind, get, lift. by rewrite Hg.
Qed.

#[local] Hint Resolve access_with_lease_gate access_available_gate : rail.

Lemma pool_step_system config op s s' :
  pool_step config op s = Some s' → system_step config s s'.
Proof.
  destruct op; cbn [pool_step];
    lazymatch goal with
    | |- exclusive _ _ _ = _ → _ => eapply exclusive_step; auto with rail
    | |- shared _ _ _ = _ → _ =>
        eapply shared_step; cbn; eauto with rail
    | _ => idtac
    end.
  - intros [= <-]. by apply ss_time.
  - intros [= <-]. apply ss_register.
  - intros [= <-]. eapply ss_shared; [apply record_health_section|by left].
  - intros [= <-]. apply ss_wall.
  - intros [= <-]. rewrite <-(N.add_0_r (sys_now s)) at 1. apply ss_time.
    apply list_subseteq_delete.
Qed.

(** ** The invariant *)

(** The three indexes are what [PoolState::indexes_are_consistent] recomputes
    from the devices: exactly the installed leases, by id, owner and deadline. *)
Record indexes_consistent (st : PoolState) : Prop := {
  ic_lease_devices id d : ps_lease_devices st !! id = Some d ↔
    ∃ l, lease_of st d = Some l ∧ dl_id (lr_value l) = id;
  ic_owner_leases o id : id ∈ default ∅ (ps_owner_leases st !! o) ↔
    ∃ d l, lease_of st d = Some l ∧ dl_id (lr_value l) = id ∧
      dl_owner_id (lr_value l) = o;
  ic_owner_nonempty o : ps_owner_leases st !! o ≠ Some ∅;
  ic_deadlines t id : (t, id) ∈ ps_lease_deadlines st ↔
    ∃ d l, lease_of st d = Some l ∧ dl_id (lr_value l) = id ∧ lr_deadline l = t;
}.

Record pool_wf (config : DevicePoolConfig) (now : Instant) (st : PoolState) : Prop := {
  pw_indexes : indexes_consistent st;
  pw_records d r : ps_devices st !! d = Some r →
    rec_device_id r = d ∧ rec_gate r < ps_next_gate st;
  pw_gates d d' r r' : ps_devices st !! d = Some r → ps_devices st !! d' = Some r' →
    rec_gate r = rec_gate r' → d = d';
  pw_leases d l : lease_of st d = Some l →
    dl_device_id (lr_value l) = d ∧ lr_deadline l <= now + lease_ttl config;
}.

Lemma lease_id_unique st d d' l l' :
  indexes_consistent st → lease_of st d = Some l → lease_of st d' = Some l' →
  dl_id (lr_value l) = dl_id (lr_value l') → d = d'.
Proof.
  intros Hi Hl Hl' He.
  pose proof (proj2 (ic_lease_devices _ Hi _ d) (ex_intro _ l (conj Hl eq_refl))).
  pose proof (proj2 (ic_lease_devices _ Hi _ d') (ex_intro _ l' (conj Hl' eq_refl))).
  congruence.
Qed.

(** Leases after the primitive operations. *)
Lemma lease_of_update d f st d' :
  lease_of (update_device d f st) d' =
  if decide (d = d') then ps_devices st !! d ≫= rec_lease ∘ f else lease_of st d'.
Proof.
  unfold lease_of, update_device. cbn. case_decide as Hd; [subst|].
  - rewrite lookup_alter_eq. by destruct (ps_devices st !! d').
  - by rewrite lookup_alter_ne.
Qed.

Lemma lease_of_some st d l :
  lease_of st d = Some l → ∃ r, ps_devices st !! d = Some r ∧ rec_lease r = Some l.
Proof. apply bind_Some. Qed.

Lemma lease_of_take st d d' :
  lease_of (snd (take_lease d st)) d' = if decide (d = d') then None else lease_of st d'.
Proof.
  unfold take_lease. destruct (lease_of st d) as [l|] eqn:Hl.
  - cbn. rewrite lease_of_update. case_decide; [|done]. by destruct (_ !! _).
  - cbn. case_decide; congruence.
Qed.

Lemma lease_of_install st d l d' :
  is_Some (ps_devices st !! d) →
  lease_of (install_lease d l st) d' = if decide (d = d') then Some l else lease_of st d'.
Proof.
  intros [r Hr]. unfold install_lease. rewrite lease_of_update. cbn. by rewrite Hr.
Qed.

Definition renewed (l : LeaseRecord) (deadline : Instant) (expires_at_ms : N)
    : LeaseRecord :=
  mkLeaseRecord (mkDeviceLease (dl_id (lr_value l)) (dl_device_id (lr_value l))
    (dl_owner_id (lr_value l)) (dl_issued_at_ms (lr_value l)) expires_at_ms) deadline.

Lemma lease_of_renew st d t e d' :
  lease_of (snd (renew_lease d t e st)) d' =
  if decide (d = d') then (λ l, renewed l t e) <$> lease_of st d else lease_of st d'.
Proof.
  unfold renew_lease. destruct (lease_of st d) as [l|] eqn:Hl; cbn.
  - rewrite lease_of_update. cbn. apply lease_of_some in Hl as (r & Hr & _).
    by rewrite Hr.
  - case_decide; congruence.
Qed.

Lemma leases_after_take st d l d' l' :
  indexes_consistent st → lease_of st d = Some l →
  lease_of (snd (take_lease d st)) d' = Some l' ↔
  lease_of st d' = Some l' ∧ dl_id (lr_value l') ≠ dl_id (lr_value l).
Proof.
  intros Hi Hl. rewrite lease_of_take. case_decide as Hd; [subst; naive_solver|].
  split; [|by intros [? _]]. intros Hl'. split; [done|]. intros He.
  by destruct Hd, (lease_id_unique st d d' l l').
Qed.

Lemma leases_after_renew st d l t e d' l' :
  indexes_consistent st → lease_of st d = Some l →
  lease_of (snd (renew_lease d t e st)) d' = Some l' ↔
  (d' = d ∧ l' = renewed l t e) ∨
  (lease_of st d' = Some l' ∧ dl_id (lr_value l') ≠ dl_id (lr_value l)).
Proof.
  intros Hi Hl. rewrite lease_of_renew, Hl. case_decide as Hd; [subst; cbn; naive_solver|].
  split; [|naive_solver]. intros Hl'. right. split; [done|]. intros He.
  by destruct Hd, (lease_id_unique st d d' l l').
Qed.

Lemma leases_after_install st d r l d' l' :
  ps_devices st !! d = Some r → rec_lease r = None →
  lease_of (install_lease d l st) d' = Some l' ↔
  (d' = d ∧ l' = l) ∨ lease_of st d' = Some l'.
Proof.
  intros Hr Hn. rewrite lease_of_install by done. case_decide as Hd; [subst|naive_solver].
  unfold lease_of. rewrite Hr. cbn. rewrite Hn. naive_solver.
Qed.

(** Removing a lease from its owner's set, and the set when it is empty. *)
Lemma owner_removed (m : gmap LeaseOwnerId (gset LeaseId)) o id o' x m' :
  m' = match m !! o with
       | Some leases =>
           if bool_decide (leases ∖ {[id]} = ∅) then delete o m
           else <[o := leases ∖ {[id]}]> m
       | None => m
       end →
  (x ∈ default ∅ (m' !! o') ↔ x ∈ default ∅ (m !! o') ∧ ¬ (o' = o ∧ x = id)) ∧
  ((∀ o, m !! o ≠ Some ∅) → m' !! o' ≠ Some ∅).
Proof.
  intros ->. destruct (m !! o) as [leases|] eqn:Ho.
  - case_bool_decide as He; (destruct (decide (o = o')) as [<-|];
      [rewrite ?lookup_delete_eq, ?lookup_insert_eq, Ho; cbn
      |rewrite ?lookup_delete_ne, ?lookup_insert_ne by done; naive_solver]).
    + split; [set_solver|done].
    + split; [set_solver|naive_solver].
  - split; [|done]. split; [|naive_solver]. intros Hx. split; [done|].
    intros [-> ->]. by rewrite Ho in Hx.
Qed.

Lemma indexes_take st d :
  indexes_consistent st → indexes_consistent (snd (take_lease d st)).
Proof.
  intros Hi. destruct (lease_of st d) as [l|] eqn:Hl.
  2: { unfold take_lease. by rewrite Hl. }
  pose proof (λ d' l', leases_after_take st d l d' l' Hi Hl) as HL.
  assert (∀ o x, x ∈ default ∅ (ps_owner_leases st !! o) →
    ¬ (o = dl_owner_id (lr_value l) ∧ x = dl_id (lr_value l)) → x ≠ dl_id (lr_value l))
    as Hown.
  { intros o x (d' & l' & Hl' & <- & <-)%(ic_owner_leases _ Hi) Hne He.
    assert (d = d') as <- by (by eapply lease_id_unique). naive_solver. }
  revert HL. unfold take_lease at 1 2. rewrite Hl. intros HL.
  split; cbn.
  - intros id d'. setoid_rewrite HL. rewrite lookup_delete_Some, (ic_lease_devices _ Hi).
    naive_solver.
  - intros o id. setoid_rewrite HL.
    rewrite (proj1 (owner_removed (ps_owner_leases st) _ _ o id _ eq_refl)).
    pose proof (Hown o id). rewrite (ic_owner_leases _ Hi) in *. naive_solver.
  - intros o. apply (proj2 (owner_removed (ps_owner_leases st) _ _ o 0 _ eq_refl)), Hi.
  - intros t id. setoid_rewrite HL. rewrite elem_of_difference, (ic_deadlines _ Hi).
    rewrite elem_of_singleton. split; [|naive_solver].
    intros [(d' & l' & Hl' & <- & <-) Hne]. exists d', l'. split_and!; try done.
    intros He. assert (d = d') as <- by (by eapply lease_id_unique). naive_solver.
Qed.

Lemma indexes_install st d r l :
  indexes_consistent st → ps_devices st !! d = Some r → rec_lease r = None →
  ps_lease_devices st !! dl_id (lr_value l) = None →
  indexes_consistent (install_lease d l st).
Proof.
  intros Hi Hr Hn Hf. pose proof (λ d' l', leases_after_install st d r l d' l' Hr Hn) as HL.
  assert (∀ d' l', lease_of st d' = Some l' → dl_id (lr_value l') ≠ dl_id (lr_value l))
    as Hid.
  { intros d' l' Hl' He. assert (ps_lease_devices st !! dl_id (lr_value l) = Some d');
      [|congruence]. apply (ic_lease_devices _ Hi). eauto. }
  split; intros; cbn [install_lease update_device set_indexes ps_lease_devices
    ps_owner_leases ps_lease_deadlines]; repeat setoid_rewrite HL.
  - rewrite lookup_insert_Some, (ic_lease_devices _ Hi). naive_solver.
  - destruct (decide (o = dl_owner_id (lr_value l))) as [->|].
    + rewrite lookup_insert_eq. cbn. rewrite elem_of_union, elem_of_singleton.
      rewrite (ic_owner_leases _ Hi). naive_solver.
    + rewrite lookup_insert_ne by done. rewrite (ic_owner_leases _ Hi). naive_solver.
  - destruct (decide (o = dl_owner_id (lr_value l))) as [->|].
    + rewrite lookup_insert_eq. intros [= He]. set_solver.
    + rewrite lookup_insert_ne by done. apply Hi.
  - rewrite elem_of_union, elem_of_singleton, (ic_deadlines _ Hi). naive_solver.
Qed.

Lemma indexes_renew st d t e :
  indexes_consistent st → indexes_consistent (snd (renew_lease d t e st)).
Proof.
  intros Hi. destruct (lease_of st d) as [l|] eqn:Hl.
  2: { unfold renew_lease. by rewrite Hl. }
  pose proof (λ d' l', leases_after_renew st d l t e d' l' Hi Hl) as HL.
  assert (∀ d' l', lease_of st d' = Some l' →
    dl_id (lr_value l') = dl_id (lr_value l) → d' = d ∧ l' = l) as Hid.
  { intros d' l' Hl' He. assert (d' = d) as -> by (by eapply lease_id_unique).
    naive_solver. }
  revert HL. unfold renew_lease at 1 2. rewrite Hl. intros HL.
  split; intros; cbn [snd update_device set_indexes ps_lease_devices ps_owner_leases
    ps_lease_deadlines]; repeat setoid_rewrite HL.
  - rewrite (ic_lease_devices _ Hi). split; [|naive_solver].
    intros (l' & Hl' & <-). destruct (decide (dl_id (lr_value l') = dl_id (lr_value l)));
      naive_solver.
  - rewrite (ic_owner_leases _ Hi). split; [|naive_solver].
    intros (d' & l' & Hl' & <- & <-).
    destruct (decide (dl_id (lr_value l') = dl_id (lr_value l))); naive_solver.
  - apply Hi.
  - rewrite elem_of_union, elem_of_difference, !elem_of_singleton, (ic_deadlines _ Hi).
    split; [|naive_solver]. intros [[= -> ->]|[(d' & l' & Hl' & <- & <-) Hne]];
      [naive_solver|]. exists d', l'. split_and!; try done. right. split; [done|].
    intros He. destruct (Hid d' l' Hl' He) as [-> ->]. done.
Qed.

(** Devices keep their identity and gate, and none is added. *)
Definition identities_kept (st st' : PoolState) : Prop :=
  ps_next_gate st' = ps_next_gate st ∧
  ∀ d r', ps_devices st' !! d = Some r' → ∃ r, ps_devices st !! d = Some r ∧
    rec_gate r' = rec_gate r ∧ rec_device_id r' = rec_device_id r.

#[global] Instance identities_kept_preorder : PreOrder identities_kept.
Proof.
  split; [intros st; split; [done|]; eauto|].
  intros st1 st2 st3 [Hn H] [Hn' H']. split; [congruence|].
  intros d r'' (r' & (r & ? & ? & ?)%H & ? & ?)%H'. exists r. split_and!; congruence.
Qed.

Lemma update_identities d f st :
  (∀ r, rec_gate (f r) = rec_gate r ∧ rec_device_id (f r) = rec_device_id r) →
  identities_kept st (update_device d f st).
Proof.
  intros Hf. split; [done|]. intros d' r'. cbn. destruct (decide (d = d')) as [<-|].
  - rewrite lookup_alter_eq. intros (r & -> & Hr)%fmap_Some. subst. eauto.
  - rewrite lookup_alter_ne by done. eauto.
Qed.

Lemma step_identities config now b d st st' :
  device_step config now b d st st' → identities_kept st st'.
Proof.
  assert (∀ l st x y z,
    identities_kept st (update_device d (set_lease l) (set_indexes st x y z))) as Hlease
    by (intros l s x y z; split; [done|]; by apply (update_identities d (set_lease l) s)).
  assert (∀ st, identities_kept st (snd (take_lease d st))) as Htake.
  { intros s. unfold take_lease. case_match; [|done]. apply Hlease. }
  intros H. destruct H.
  - split; [done|eauto].
  - apply Htake.
  - unfold renew_lease. case_match; [|done]. apply Hlease.
  - by apply update_identities.
  - apply Htake.
  - apply Hlease.
  - split; [done|]. cbn. intros d' r' [_ ?]%lookup_delete_Some. eauto.
Qed.

(** The other devices are left alone. *)
Lemma step_elsewhere config now b d st st' d' :
  device_step config now b d st st' → d' ≠ d → ps_devices st' !! d' = ps_devices st !! d'.
Proof.
  intros H Hd. destruct H; try done; unfold take_lease, renew_lease;
    repeat case_match; try done; cbn; by rewrite ?lookup_alter_ne, ?lookup_delete_ne.
Qed.

Lemma update_lease_of f d st d' :
  (∀ r, rec_lease (f r) = rec_lease r) → lease_of (update_device d f st) d' = lease_of st d'.
Proof.
  intros Hf. rewrite lease_of_update. case_decide; [subst|done].
  unfold lease_of. destruct (ps_devices st !! d'); cbn; [apply Hf|done].
Qed.

Lemma indexes_same_leases st st' :
  (∀ d, lease_of st' d = lease_of st d) →
  ps_lease_devices st' = ps_lease_devices st → ps_owner_leases st' = ps_owner_leases st →
  ps_lease_deadlines st' = ps_lease_deadlines st →
  indexes_consistent st → indexes_consistent st'.
Proof.
  intros Hl H1 H2 H3 Hi. split; rewrite ?H1, ?H2, ?H3.
  - intros id d. rewrite Hl. by apply ic_lease_devices.
  - intros o id. setoid_rewrite Hl. by apply ic_owner_leases.
  - by apply ic_owner_nonempty.
  - intros t id. setoid_rewrite Hl. by apply ic_deadlines.
Qed.

Lemma step_indexes config now b d st st' :
  device_step config now b d st st' → indexes_consistent st → indexes_consistent st'.
Proof.
  intros [] Hi.
  - by apply (indexes_same_leases st).
  - by apply indexes_take.
  - by apply indexes_renew.
  - apply (indexes_same_leases st); try done. intros d'. by apply update_lease_of.
  - by apply indexes_take.
  - by eapply indexes_install.
  - apply (indexes_same_leases st); try done. intros d'. unfold lease_of. cbn.
    destruct (decide (d = d')) as [<-|]; [|by rewrite lookup_delete_ne].
    rewrite lookup_delete_eq. by symmetry.
Qed.

(** Every lease after a step is a lease of before with a later deadline, or
    was granted now. *)
Lemma step_leases config now b d st st' d' l' :
  device_step config now b d st st' → lease_of st' d' = Some l' →
  (∃ l, lease_of st d' = Some l ∧
     dl_id (lr_value l') = dl_id (lr_value l) ∧
     dl_owner_id (lr_value l') = dl_owner_id (lr_value l) ∧
     dl_device_id (lr_value l') = dl_device_id (lr_value l) ∧
     (lr_deadline l' = lr_deadline l ∨ lr_deadline l' = now + lease_ttl config)) ∨
  (b = true ∧ d' = d ∧ dl_device_id (lr_value l') = d ∧
   lr_deadline l' = now + lease_ttl config).
Proof.
  intros Hs Hl. destruct (decide (lease_of st d' = Some l')) as [?|Hne].
  { left. exists l'. auto 10. }
  destruct Hs.
  - done.
  - rewrite lease_of_take in Hl. by case_decide.
  - rewrite lease_of_renew in Hl. case_decide; [subst|done].
    apply fmap_Some in Hl as (l & ? & ->). left. exists l. cbn. auto 10.
  - by rewrite update_lease_of in Hl.
  - rewrite lease_of_take in Hl. by case_decide.
  - rewrite lease_of_install in Hl by done. case_decide; [|done]. simplify_eq. by right.
  - unfold lease_of in Hl. cbn in Hl.
    destruct (decide (d = d')) as [<-|]; [by rewrite lookup_delete_eq in Hl|].
    by rewrite lookup_delete_ne in Hl.
Qed.

Lemma step_wf config now b d st st' :
  device_step config now b d st st' → pool_wf config now st → pool_wf config now st'.
Proof.
  intros Hs [Hi Hr Hg Hl]. destruct (step_identities _ _ _ _ _ _ Hs) as [Hn Hk].
  split.
  - by eapply step_indexes.
  - intros d' r' (r & Hd & -> & ->)%Hk. rewrite Hn. by apply Hr.
  - intros d1 d2 r1 r2 (? & ? & -> & _)%Hk (? & ? & -> & _)%Hk. by apply Hg.
  - intros d' l' Hl'. destruct (step_leases _ _ _ _ _ _ _ _ Hs Hl')
      as [(l & [? ?]%Hl & _ & _ & ? & [?|?])|(_ & ? & ? & ?)];
      split; try congruence; lia.
Qed.

Lemma rtc_invariant {A} (R : relation A) (P : A → Prop) x y :
  (∀ x y, R x y → P x → P y) → rtc R x y → P x → P y.
Proof. intros HR. induction 1; eauto. Qed.

Lemma section_wf config now b d g st st' :
  section_of config now b d g st st' → pool_wf config now st → pool_wf config now st'.
Proof.
  intros [->|[_ Hs]]; [done|]. apply (rtc_invariant _ _ _ _ (step_wf config now b d) Hs).
Qed.

Lemma register_cases d st :
  snd (register d st) = st ∨
  ps_devices st !! d = None ∧
  snd (register d st) = mkPoolState (ps_wall_high_water_ms st)
    (<[d := mkPoolRecord d health_unknown None None (ps_next_gate st)]> (ps_devices st))
    (ps_lease_devices st) (ps_owner_leases st) (ps_lease_deadlines st)
    (ps_next_gate st + 1).
Proof.
  unfold register. run_program; [|by left..]. right. inv_result. inv_bools.
  split; [by apply eq_None_not_Some|done].
Qed.

Lemma register_wf config now d st :
  pool_wf config now st → pool_wf config now (snd (register d st)).
Proof.
  intros Hwf. destruct (register_cases d st) as [->|[Hd ->]]; [done|].
  destruct Hwf as [Hi Hr Hg Hl]. set (st' := mkPoolState _ _ _ _ _ _).
  assert (∀ d', lease_of st' d' = lease_of st d') as Hls.
  { intros d'. unfold lease_of. cbn. destruct (decide (d = d')) as [<-|].
    - by rewrite lookup_insert_eq, Hd.
    - by rewrite lookup_insert_ne. }
  split.
  - by apply (indexes_same_leases st).
  - cbn. intros d' r' [[<- <-]|[_ [? ?]%Hr]]%lookup_insert_Some; cbn;
      (split; [done|lia]).
  - cbn. intros d1 d2 r1 r2 [[<- <-]|[? H1]]%lookup_insert_Some
      [[<- <-]|[? H2]]%lookup_insert_Some; cbn; try done;
      [apply Hr in H2 as [_ ?]; lia|apply Hr in H1 as [_ ?]; lia|by eapply Hg].
  - intros d' l. rewrite Hls. apply Hl.
Qed.

Lemma register_gate d st d' g : gate_at st d' g → gate_at (snd (register d st)) d' g.
Proof.
  intros (r & Hr & Hg). destruct (register_cases d st) as [->|[Hd ->]]; [by exists r|].
  exists r. cbn. by rewrite lookup_insert_ne by congruence.
Qed.

(** A device whose gate is shared stays registered. *)
Lemma step_gate config now d st st' d' g :
  device_step config now false d st st' → gate_at st d' g → gate_at st' d' g.
Proof.
  intros Hs (r & Hr & Hg). destruct (decide (d' = d)) as [->|].
  2: { exists r. by erewrite step_elsewhere. }
  unfold gate_at. destruct Hs; try done; unfold take_lease, renew_lease;
    repeat case_match; cbn; try (by exists r); rewrite lookup_alter_eq, Hr; cbn; eauto.
Qed.

Lemma steps_elsewhere config now b d st st' d' :
  rtc (device_step config now b d) st st' → d' ≠ d →
  ps_devices st' !! d' = ps_devices st !! d'.
Proof.
  intros Hs Hd. induction Hs as [|x y z Hxy _ IH]; [done|].
  by rewrite IH; eapply step_elsewhere.
Qed.

(** A section cannot touch a device whose gate it does not hold. *)
Lemma section_elsewhere config now b d g st st' d' g' :
  section_of config now b d g st st' → gate_at st d' g' → g' ≠ g →
  ps_devices st' !! d' = ps_devices st !! d'.
Proof.
  intros [->|[(r & Hr & Hg) Hs]] (r' & Hr' & Hg') Hne; [done|].
  assert (d' ≠ d) by congruence. by eapply steps_elsewhere.
Qed.

Lemma unshared_ne g guards gu :
  unshared g guards = true → gu ∈ guards → gu_gate gu ≠ g.
Proof.
  unfold unshared. intros Hu%negb_true_iff Hin He.
  rewrite (proj2 (existsb_exists _ _)) in Hu; [done|]. exists gu.
  by rewrite <-list_elem_of_In, N.eqb_eq.
Qed.

(** Every guard belongs to a registered device, under its current gate. *)
Definition system_wf (config : DevicePoolConfig) (s : PoolSystem) : Prop :=
  pool_wf config (sys_now s) (sys_pool s) ∧
  ∀ gu, gu ∈ sys_guards s → gate_at (sys_pool s) (gu_device gu) (gu_gate gu).

Lemma shared_gate config now d g st st' d' g' :
  section_of config now false d g st st' → gate_at st d' g' → gate_at st' d' g'.
Proof.
  intros [->|[_ Hs]]; [done|].
  refine (rtc_invariant _ (λ x, gate_at x d' g') _ _ _ Hs). intros. by eapply step_gate.
Qed.

Lemma exclusive_gate config now d g st st' d' g' :
  section_of config now true d g st st' → gate_at st d' g' → g' ≠ g → gate_at st' d' g'.
Proof.
  intros Hs Hg Hne. unfold gate_at. by erewrite section_elsewhere.
Qed.

Lemma system_step_wf config s s' :
  system_step config s s' → system_wf config s → system_wf config s'.
Proof.
  intros Hs [Hwf Hg]. destruct Hs as [t gs Hgs|d|ms|d g st' Hu Hs|d g st' gs Hs Hgs];
    split; cbn.
  - destruct Hwf as [? ? ? Hl]. split; try done. intros d l [? ?]%Hl. split; [done|lia].
  - intros gu Hin. apply Hg. set_solver.
  - by apply register_wf.
  - intros gu Hin. by apply register_gate, Hg.
  - by apply (step_wf _ _ false "" _ _ (ds_wall _ _ _ _ _ ms)).
  - intros gu Hin. by apply Hg.
  - by eapply section_wf.
  - intros gu Hin. eapply exclusive_gate; [done|by apply Hg|by eapply unshared_ne].
  - by eapply section_wf.
  - intros gu Hin. eapply shared_gate; [done|].
    destruct Hgs as [->|(o & Hd & ->)]; [by apply Hg|].
    apply elem_of_cons in Hin as [->|?]; [done|by apply Hg].
Qed.

Lemma new_system_wf config : system_wf config new_system.
Proof.
  split; [|by intros gu ?%elem_of_nil]. split.
  - split; cbn; intros; unfold lease_of, empty_pool; cbn; rewrite ?lookup_empty;
      repeat setoid_rewrite lookup_empty; set_solver.
  - intros d r. cbn. by rewrite lookup_empty.
  - intros d d' r r'. cbn. by rewrite lookup_empty.
  - intros d l. unfold lease_of. cbn. by rewrite lookup_empty.
Qed.

Lemma pool_run_wf config ops s s' :
  pool_run config ops s = Some s' → system_wf config s → system_wf config s'.
Proof.
  revert s. induction ops as [|op ops IH]; cbn; intros s; [by intros [= <-]|].
  intros (s1 & Hs%pool_step_system & Hr)%bind_Some Hwf.
  eapply IH; [done|]. by eapply system_step_wf.
Qed.

Lemma pool_reachable_wf config s : pool_reachable config s → system_wf config s.
Proof. intros [ops Hr]. eapply pool_run_wf; [done|apply new_system_wf]. Qed.

(** ** What a guard pins *)

(** From [st] to [st'] the device keeps its lease (perhaps renewed), or has
    lost it by its deadline, and has not got a new one. *)
Definition lease_kept (d : DeviceId) (now : Instant) (st st' : PoolState) : Prop :=
  match lease_of st d, lease_of st' d with
  | Some l, Some l' =>
      dl_id (lr_value l') = dl_id (lr_value l) ∧
      dl_owner_id (lr_value l') = dl_owner_id (lr_value l) ∧
      lr_deadline l <= lr_deadline l'
  | Some l, None => lr_deadline l <= now
  | None, None => True
  | None, Some _ => False
  end.

Lemma lease_kept_refl d now st : lease_kept d now st st.
Proof. unfold lease_kept. by destruct (lease_of st d). Qed.

Lemma lease_kept_trans d now now' st1 st2 st3 :
  lease_kept d now st1 st2 → lease_kept d now' st2 st3 → now <= now' →
  lease_kept d now' st1 st3.
Proof.
  unfold lease_kept. destruct (lease_of st1 d), (lease_of st2 d), (lease_of st3 d);
    intros; try done; try lia; destruct_and?; split_and?; try congruence; lia.
Qed.

Lemma lease_kept_elsewhere d now st st' :
  ps_devices st' !! d = ps_devices st !! d → lease_kept d now st st'.
Proof.
  intros Hd. assert (lease_of st' d = lease_of st d) as Hl by (unfold lease_of; by rewrite Hd).
  unfold lease_kept. rewrite Hl. by destruct (lease_of st d).
Qed.

Lemma step_kept config now d st st' d' :
  device_step config now false d st st' → pool_wf config now st →
  lease_kept d' now st st'.
Proof.
  intros Hs Hwf. destruct (decide (d' = d)) as [->|].
  2: { by eapply lease_kept_elsewhere, step_elsewhere. }
  destruct Hs; try done.
  - by apply lease_kept_elsewhere.
  - unfold lease_kept. rewrite lease_of_take, decide_True, H by done. lia.
  - unfold lease_kept. rewrite lease_of_renew, decide_True by done.
    destruct (lease_of st d) eqn:Hl; [|done]. cbn. split_and!; try done.
    by destruct (pw_leases _ _ _ Hwf _ _ Hl).
  - unfold lease_kept. rewrite update_lease_of by done. by destruct (lease_of st d).
Qed.

Lemma section_kept config now d g st st' d' :
  section_of config now false d g st st' → pool_wf config now st →
  lease_kept d' now st st'.
Proof.
  intros [->|[_ Hs]] Hwf; [apply lease_kept_refl|].
  induction Hs as [|x y z Hxy _ IH]; [apply lease_kept_refl|].
  eapply lease_kept_trans; [by eapply step_kept| |done].
  apply IH. by eapply step_wf.
Qed.

Lemma system_step_kept config s s' gu :
  system_step config s s' → system_wf config s → gu ∈ sys_guards s →
  gate_at (sys_pool s') (gu_device gu) (gu_gate gu) ∧ sys_now s <= sys_now s' ∧
  lease_kept (gu_device gu) (sys_now s') (sys_pool s) (sys_pool s').
Proof.
  intros Hs [Hwf Hg] Hin. specialize (Hg gu Hin).
  destruct Hs as [t gs Hgs|d|ms|d g st' Hu Hs|d g st' gs Hs Hgs]; cbn.
  - split_and!; [done|lia|apply lease_kept_refl].
  - split_and!; [by apply register_gate|done|].
    destruct (register_cases d (sys_pool s)) as [->|[Hd ->]]; [apply lease_kept_refl|].
    apply lease_kept_elsewhere. cbn. destruct Hg as (r & Hr & _).
    by rewrite lookup_insert_ne by congruence.
  - split_and!; [done|done|by apply lease_kept_elsewhere].
  - pose proof (unshared_ne _ _ _ Hu Hin).
    split_and!; [by eapply exclusive_gate|done|].
    by eapply lease_kept_elsewhere, section_elsewhere.
  - split_and!; [by eapply shared_gate|done|by eapply section_kept].
Qed.

#[global] Instance Guard_eq_dec : EqDecision Guard.
Proof. solve_decision. Defined.

(** A run during which the guard is alive. *)
Fixpoint run_holding (config : DevicePoolConfig) (gu : Guard) (ops : list PoolOp)
    (s : PoolSystem) : option PoolSystem :=
  match ops with
  | [] => Some s
  | op :: ops =>
      if bool_decide (gu ∈ sys_guards s)
      then s' ← pool_step config op s; run_holding config gu ops s' else None
  end.

Lemma run_holding_time config gu ops s s' :
  run_holding config gu ops s = Some s' → sys_now s <= sys_now s'.
Proof.
  revert s. induction ops as [|op ops IH]; cbn; intros s; [by intros [= <-]|].
  case_bool_decide; [|done]. intros (s1 & Hs%pool_step_system & Hr%IH)%bind_Some.
  destruct Hs; cbn in *; lia.
Qed.

(** C26: in every reachable pool the three lease indexes hold exactly the
    installed leases; every lease is on the device it names and ends at most
    one lease duration from now; records are stored under their device id;
    gates identify registrations; and every live guard belongs to a
    registered device under its current gate. *)
Theorem reachable_pool_consistent config s :
  pool_reachable config s →
  indexes_consistent (sys_pool s) ∧
  (∀ d l, lease_of (sys_pool s) d = Some l →
     dl_device_id (lr_value l) = d ∧
     lr_deadline l <= sys_now s + lease_ttl config) ∧
  (∀ d r, ps_devices (sys_pool s) !! d = Some r → rec_device_id r = d) ∧
  (∀ d d' g, gate_at (sys_pool s) d g → gate_at (sys_pool s) d' g → d = d') ∧
  (∀ gu, gu ∈ sys_guards s → gate_at (sys_pool s) (gu_device gu) (gu_gate gu)).
Proof.
  intros [[Hi Hr Hg Hl] Hgu]%pool_reachable_wf. split_and!; try done.
  - by intros d r [? _]%Hr.
  - intros d d' g (r & ? & <-) (r' & ? & ?). by eapply Hg.
Qed.

(** While an access guard is alive, whatever else runs, its device stays
    registered under the same gate, no lease is granted on it, and the lease
    it had keeps its id and owner and never gets an earlier deadline; it
    disappears only once its deadline has passed. *)
Theorem guard_pins_device config s gu ops s' :
  pool_reachable config s → gu ∈ sys_guards s → run_holding config gu ops s = Some s' →
  gate_at (sys_pool s') (gu_device gu) (gu_gate gu) ∧
  lease_kept (gu_device gu) (sys_now s') (sys_pool s) (sys_pool s').
Proof.
  intros Hr%pool_reachable_wf Hin Hrun.
  assert (gate_at (sys_pool s) (gu_device gu) (gu_gate gu)) as Hg by (by apply Hr).
  clear Hin. revert s Hr Hg Hrun. induction ops as [|op ops IH]; cbn; intros s Hwf Hg.
  { intros [= <-]. split; [done|apply lease_kept_refl]. }
  case_bool_decide as Hin; [|done]. intros (s1 & Hs%pool_step_system & Hrun)%bind_Some.
  destruct (system_step_kept _ _ _ _ Hs Hwf Hin) as (Hg1 & Hn & Hk).
  pose proof (run_holding_time _ _ _ _ _ Hrun).
  destruct (IH s1) as [? ?]; [by eapply system_step_wf|done..|].
  split; [done|]. by eapply lease_kept_trans.
Qed.

(** ** Two owners *)

(** An owner acquires a device, pins it, and outlives its lease; another owner
    then asks for access without a lease. *)
Definition handoff_ops : list PoolOp :=
  [ Register "pixel-8";
    RecordHealth (mkDeviceRegistrationToken "pixel-8" 0) (health_healthy 1000) 1000;
    Acquire [501] "pixel-8" 10 1000 0;
    AccessWithLease 501 "pixel-8" 10 1000 true 0;
    Tick (lease_ttl DevicePoolConfig_default);
    AccessAvailable "pixel-8" 20 301000 0 ].

(** The expiry of a lease does not wait for the guards of its owner:
    [access_available_to] drops an expired lease while the owner's guard is
    still alive, so that two owners can hold guards of one device at once. *)
Theorem expiry_does_not_wait_for_guards :
  ∃ s, pool_run DevicePoolConfig_default handoff_ops new_system = Some s ∧
    mkGuard "pixel-8" 0 10 ∈ sys_guards s ∧ mkGuard "pixel-8" 0 20 ∈ sys_guards s ∧
    lease_of (sys_pool s) "pixel-8" = None.
Proof.
  eexists. split; [vm_compute; reflexivity|]. cbn. split_and!; [set_solver..|].
  vm_compute. reflexivity.
Qed.

(** ** Registrations *)

Lemma identities_retired st st' d g :
  identities_kept st st' → g < ps_next_gate st → ¬ gate_at st d g →
  g < ps_next_gate st' ∧ ¬ gate_at st' d g.
Proof.
  intros [Hn Hk] Hlt Hg. split; [by rewrite Hn|]. intros (r' & (r & ? & ? & _)%Hk & ?).
  apply Hg. exists r. split; congruence.
Qed.

Lemma section_identities config now b d g st st' :
  section_of config now b d g st st' → identities_kept st st'.
Proof.
  intros [->|[_ Hs]]; [done|]. induction Hs; [done|]. etrans; [by eapply step_identities|done].
Qed.

Lemma system_step_retired config s s' d g :
  system_step config s s' → g < ps_next_gate (sys_pool s) → ¬ gate_at (sys_pool s) d g →
  g < ps_next_gate (sys_pool s') ∧ ¬ gate_at (sys_pool s') d g.
Proof.
  intros Hs Hlt Hg. destruct Hs as [|d'| | |]; cbn; try done;
    try by eapply identities_retired; [eapply section_identities|..].
  destruct (register_cases d' (sys_pool s)) as [->|[Hd ->]]; [done|].
  cbn. split; [lia|]. intros (r & Hr & Hgr). cbn in Hr.
  apply lookup_insert_Some in Hr as [[<- <-]|[_ Hr]]; [cbn in Hgr; lia|].
  apply Hg. by exists r.
Qed.

(** A registration token never becomes valid again: once the device has
    been removed (and perhaps registered anew), whatever runs afterwards,
    publishing health with the old token fails and changes nothing. *)
Theorem stale_registration_is_rejected config s ops s' token health now_ms :
  tok_gate token < ps_next_gate (sys_pool s) →
  ¬ gate_at (sys_pool s) (tok_device_id token) (tok_gate token) →
  pool_run config ops s = Some s' →
  ∃ e, record_health token health (sys_now s') now_ms (sys_pool s') =
    (Err e, sys_pool s') ∧
    (e = PoolInvalidHealthCode ∨ e = PoolDeviceNotFound (tok_device_id token) ∨
     e = PoolDeviceRegistrationChanged (tok_device_id token)).
Proof.
  intros Hlt Hg Hrun. revert s Hlt Hg Hrun. induction ops as [|op ops IH]; cbn; intros s Hlt Hg.
  - intros [= <-]. unfold record_health, mbind, M_bind, lift, get.
    destruct (validate_health health) as [[]|e] eqn:Hv.
    + destruct (ensure_current_gate _ _ _) as [u|e] eqn:He;
        [by destruct Hg; eapply ensure_current_gate_ok|].
      exists e. split; [done|]. right. unfold ensure_current_gate in He.
      inv_result; auto.
    + exists e. split; [done|]. left. unfold validate_health in Hv. by inv_result.
  - intros (s1 & Hs%pool_step_system & Hr)%bind_Some.
    destruct (system_step_retired _ _ _ _ _ Hs Hlt Hg). by eapply IH.
Qed.

(** ** Acquisition *)

Definition fresh_healthy (r : PoolRecord) (now validity : N) : Prop :=
  ∃ checked_at, rec_health_checked_at r = Some checked_at ∧ now - checked_at <= validity ∧
    (ph_state (rec_health r) = Healthy ∨ ph_state (rec_health r) = Degraded).

Lemma ensure_healthy_ok r now validity u :
  ensure_healthy r now validity = Ok u ↔ fresh_healthy r now validity.
Proof.
  unfold ensure_healthy, fresh_healthy. destruct u. split.
  - intros H. inv_result. eexists. split; [done|]. split; [lia|].
    destruct (ph_state (rec_health r)); naive_solver.
  - intros (t & -> & Ht & Hs). cbn. destruct (N.ltb_spec validity (now - t)); [lia|].
    cbn. by destruct Hs as [-> | ->].
Qed.

(** The lease of a device, unless its deadline has passed. *)
Definition live_lease (st : PoolState) (d : DeviceId) (now : Instant) : option LeaseRecord :=
  l ← lease_of st d; if lr_deadline l <=? now then None else Some l.

Lemma lease_of_expire st d now d' :
  lease_of (snd (expire_lease d now st)) d' =
  if decide (d = d') then live_lease st d now else lease_of st d'.
Proof.
  unfold expire_lease, live_lease. destruct (lease_of st d) as [l|] eqn:Hl; cbn.
  - destruct (N.leb_spec (lr_deadline l) now).
    + destruct (take_lease d st) as [x st'] eqn:Ht. cbn.
      replace st' with (snd (take_lease d st)) by by rewrite Ht. apply lease_of_take.
    + cbn. case_decide; congruence.
  - case_decide; congruence.
Qed.

Lemma expire_record st d now r :
  ps_devices st !! d = Some r →
  ps_devices (snd (expire_lease d now st)) !! d = Some (set_lease (live_lease st d now) r).
Proof.
  intros Hr. unfold expire_lease, live_lease, take_lease.
  destruct (lease_of st d) as [l|] eqn:Hl; cbn.
  - destruct (_ <=? _); cbn; [by rewrite lookup_alter_eq, Hr|].
    unfold lease_of in Hl. rewrite Hr in *. cbn in Hl. rewrite <-Hl. by destruct r.
  - unfold lease_of in Hl. rewrite Hr in *. cbn in Hl. rewrite <-Hl. by destruct r.
Qed.

(** The outcome of [acquire] once the gate and the health have been checked. *)
Lemma acquire_run config draws d owner now now_ms g st r :
  now + lease_ttl config <= INSTANT_MAX → ps_devices st !! d = Some r → rec_gate r = g →
  fresh_healthy r now (health_validity config) →
  let wall := N.max (ps_wall_high_water_ms st) now_ms in
  let expires := u64_saturating_add wall (pc_lease_ttl_ms config) in
  let st1 := snd (expire_lease d now (advance_wall_clock now_ms st)) in
  acquire_with_gate config draws d owner now now_ms g st =
  match live_lease st d now with
  | Some l =>
      if dl_owner_id (lr_value l) =? owner
      then let '(v, st2) := renew_lease d (now + lease_ttl config) expires st1 in (Ok v, st2)
      else (Err (PoolDeviceInUse d), st1)
  | None =>
      match List.find (λ id, negb (bool_decide (is_Some (ps_lease_devices st1 !! id)))) draws with
      | None => (Ok None, st1)
      | Some id =>
          let v := mkDeviceLease id d owner wall expires in
          (Ok (Some v), install_lease d (mkLeaseRecord v (now + lease_ttl config)) st1)
      end
  end.
Proof.
  intros Ht Hr Hg Hh wall expires st1.
  assert (ps_devices st1 !! d = Some (set_lease (live_lease st d now) r)) as Hr1
    by (by apply (expire_record (advance_wall_clock now_ms st))).
  assert (ensure_current_gate st d g = Ok ()) as Hcg
    by (apply ensure_current_gate_ok; by exists r).
  unfold acquire_with_gate, instant_checked_add.
  destruct (N.leb_spec (now + lease_ttl config) INSTANT_MAX); [|lia].
  unfold mbind, M_bind, get, gets, lift, modify, mret, M_ret. cbn [ok_or]. rewrite Hcg.
  change (snd (expire_lease d now (advance_wall_clock now_ms st))) with st1.
  rewrite Hr1. cbn [ok_or set_lease rec_lease].
  rewrite (proj2 (ensure_healthy_ok (set_lease (live_lease st d now) r) _ _ ())) by done.
  destruct (live_lease st d now) as [l|]; [|by case_match].
  destruct (N.eqb_spec (dl_owner_id (lr_value l)) owner); cbn [negb reject_if]; [|done].
  by destruct (renew_lease _ _ _ _).
Qed.

(** What [acquire] checks before it looks at the lease. *)
Definition acquirable (config : DevicePoolConfig) (st : PoolState) (d : DeviceId)
    (now : Instant) (g : GateId) : Prop :=
  now + lease_ttl config <= INSTANT_MAX ∧
  ∃ r, ps_devices st !! d = Some r ∧ rec_gate r = g ∧
    fresh_healthy r now (health_validity config).

Lemma acquire_checks config draws d owner now now_ms g st v :
  fst (acquire_with_gate config draws d owner now now_ms g st) = Ok v →
  acquirable config st d now g.
Proof.
  unfold acquire_with_gate, acquirable, mbind, M_bind, get, gets, lift, modify.
  destruct (ok_or (instant_checked_add _ _) _) eqn:Ht; [|done].
  destruct (ensure_current_gate st d g) as [[]|] eqn:Hg; [|done].
  apply ensure_current_gate_ok in Hg as (r & Hr & Hg).
  rewrite (expire_record _ _ _ r) by done. cbn [ok_or].
  destruct (ensure_healthy _ _ _) as [[]|] eqn:Hh; [|done]. intros _.
  apply ensure_healthy_ok in Hh. split; [|by exists r].
  unfold instant_checked_add in Ht.
  by destruct (N.leb_spec (now + lease_ttl config) INSTANT_MAX).
Qed.

Lemma free_id_spec st d now now_ms id :
  indexes_consistent st → live_lease st d now = None →
  let st1 := snd (expire_lease d now (advance_wall_clock now_ms st)) in
  negb (bool_decide (is_Some (ps_lease_devices st1 !! id))) = true ↔
  ∀ d' l, d' ≠ d → lease_of st d' = Some l → dl_id (lr_value l) ≠ id.
Proof.
  intros Hi Hn st1. set (st0 := advance_wall_clock now_ms st) in *.
  assert (indexes_consistent st1) as Hi1.
  { refine (rtc_invariant _ _ _ _ (step_indexes DevicePoolConfig_default now true d)
      (expire_steps _ _ _ _ st0) _). by apply (indexes_same_leases st). }
  assert (∀ d', lease_of st1 d' = if decide (d = d') then None else lease_of st d') as Hl1.
  { intros d'. unfold st1. rewrite lease_of_expire. by case_decide. }
  rewrite negb_true_iff, bool_decide_eq_false. split.
  - intros Hf d' l Hd Hl <-. apply Hf. exists d'. apply (ic_lease_devices _ Hi1).
    exists l. by rewrite Hl1, decide_False.
  - intros Hall [d' (l & Hl & <-)%(ic_lease_devices _ Hi1)]. rewrite Hl1 in Hl.
    case_decide; [done|]. by eapply Hall.
Qed.

(** The lease [acquire] installs. *)
Definition granted (config : DevicePoolConfig) (st : PoolState) (d : DeviceId)
    (owner : LeaseOwnerId) (now : Instant) (v : DeviceLease) (st' : PoolState) : Prop :=
  lease_of st' d = Some (mkLeaseRecord v (now + lease_ttl config)) ∧
  dl_device_id v = d ∧ dl_owner_id v = owner ∧
  (∀ l, live_lease st d now = Some l → dl_id v = dl_id (lr_value l)) ∧
  (∀ d' l, d' ≠ d → lease_of st d' = Some l → dl_id (lr_value l) ≠ dl_id v).

Lemma acquire_renews config draws d owner now now_ms g st l :
  pool_wf config now st → acquirable config st d now g → live_lease st d now = Some l →
  dl_owner_id (lr_value l) = owner →
  ∃ v st', acquire_with_gate config draws d owner now now_ms g st = (Ok (Some v), st') ∧
    granted config st d owner now v st'.
Proof.
  intros Hwf (Ht & r & Hr & Hg & Hh) Hl Ho. erewrite acquire_run by done.
  rewrite Hl, Ho, N.eqb_refl. cbn [set_indexes].
  set (st1 := snd (expire_lease _ _ _)). set (expires := u64_saturating_add _ _).
  assert (lease_of st1 d = Some l) as Hl1 by (unfold st1; by rewrite lease_of_expire, decide_True).
  assert (lease_of st d = Some l) as Hl0.
  { unfold live_lease in Hl. destruct (lease_of st d); [|done]. cbn in Hl.
    case_match; naive_solver. }
  pose proof (lease_of_renew st1 d (now + lease_ttl config) expires d) as Hn.
  unfold renew_lease in *. rewrite Hl1 in *. cbn [snd] in Hn.
  rewrite decide_True in Hn by done.
  eexists _, _. split; [reflexivity|]. split_and!; [exact Hn|..]; try done.
  - by destruct (pw_leases _ _ _ Hwf _ _ Hl0).
  - naive_solver.
  - cbn. intros d' l' Hd Hl' He. apply Hd.
    by eapply lease_id_unique; [apply Hwf|..].
Qed.

Lemma acquire_installs config draws d owner now now_ms g st id :
  pool_wf config now st → acquirable config st d now g → live_lease st d now = None →
  id ∈ draws → (∀ d' l, d' ≠ d → lease_of st d' = Some l → dl_id (lr_value l) ≠ id) →
  ∃ v st', acquire_with_gate config draws d owner now now_ms g st = (Ok (Some v), st') ∧
    granted config st d owner now v st'.
Proof.
  intros Hwf (Ht & r & Hr & Hg & Hh) Hl Hin Hfree. erewrite acquire_run by done.
  rewrite Hl. pose proof (λ id, free_id_spec st d now now_ms id
    (pw_indexes _ _ _ Hwf) Hl) as Hfs. cbv zeta in Hfs.
  set (st1 := snd (expire_lease _ _ _)) in *.
  destruct (List.find _ draws) as [id'|] eqn:Hf.
  - apply List.find_some in Hf as [_ Hf]. rewrite Hfs in Hf.
    eexists _, _. split; [reflexivity|]. split_and!; try done; [|naive_solver].
    rewrite lease_of_install; [by rewrite decide_True|]. unfold st1.
    by rewrite (expire_record _ _ _ r).
  - apply list_elem_of_In, (List.find_none _ _ Hf) in Hin.
    rewrite (proj2 (Hfs id) Hfree) in Hin. done.
Qed.

(** [acquire] may grant: the owner already has the lease, or nobody has one. *)
Definition grantable (config : DevicePoolConfig) (st : PoolState) (draws : list LeaseId)
    (d : DeviceId) (owner : LeaseOwnerId) (now : Instant) (g : GateId) : Prop :=
  acquirable config st d now g ∧
  match live_lease st d now with
  | Some l => dl_owner_id (lr_value l) = owner
  | None => ∃ id, id ∈ draws ∧
      ∀ d' l, d' ≠ d → lease_of st d' = Some l → dl_id (lr_value l) ≠ id
  end.

Lemma acquire_only_if config draws d owner now now_ms g st v :
  pool_wf config now st →
  fst (acquire_with_gate config draws d owner now now_ms g st) = Ok (Some v) →
  grantable config st draws d owner now g.
Proof.
  intros Hwf Hv. pose proof (acquire_checks _ _ _ _ _ _ _ _ _ Hv) as Hac.
  split; [done|]. destruct Hac as (Ht & r & Hr & Hg & Hh).
  erewrite acquire_run in Hv by done. destruct (live_lease st d now) as [l|] eqn:Hl.
  - by destruct (N.eqb_spec (dl_owner_id (lr_value l)) owner).
  - pose proof (λ id, free_id_spec st d now now_ms id (pw_indexes _ _ _ Hwf) Hl) as Hfs.
    cbv zeta in Hfs. destruct (List.find _ draws) as [id|] eqn:Hf; [|done].
    apply List.find_some in Hf as [Hin Hf]. rewrite Hfs in Hf. exists id.
    by rewrite list_elem_of_In.
Qed.

Lemma acquire_if config draws d owner now now_ms g st :
  pool_wf config now st → grantable config st draws d owner now g →
  ∃ v st', acquire_with_gate config draws d owner now now_ms g st = (Ok (Some v), st') ∧
    granted config st d owner now v st'.
Proof.
  intros Hwf [Hac Hm]. destruct (live_lease st d now) as [l|] eqn:Hl.
  - by eapply acquire_renews.
  - destruct Hm as (id & ? & ?). by eapply acquire_installs.
Qed.

(** [acquire] grants a lease exactly when the device is registered under
    the gate, its health was checked recently enough and is usable, and no
    other owner has a lease on it whose deadline has not passed (and, for a
    new lease, a drawn id is not in use). The lease granted is the owner's
    current one, renewed, or one with a new id; it is installed with a full
    lease duration from now. No other device changes, whatever the outcome. *)
Theorem acquire_grants_exclusively config s draws d owner now_ms g r st' :
  pool_reachable config s →
  acquire_with_gate config draws d owner (sys_now s) now_ms g (sys_pool s) = (r, st') →
  ((∃ v, r = Ok (Some v)) ↔ grantable config (sys_pool s) draws d owner (sys_now s) g) ∧
  (∀ v, r = Ok (Some v) → granted config (sys_pool s) d owner (sys_now s) v st') ∧
  (∀ d', d' ≠ d → ps_devices st' !! d' = ps_devices (sys_pool s) !! d').
Proof.
  intros [Hwf _]%pool_reachable_wf Ha.
  assert (∀ v, r = Ok (Some v) → grantable config (sys_pool s) draws d owner (sys_now s) g)
    as Hif by (intros v ->; eapply acquire_only_if; [done|by rewrite Ha]).
  split_and!.
  - split; [naive_solver|]. intros Hg.
    apply (acquire_if _ _ _ _ _ now_ms) in Hg as (v & st2 & Hv & _); [|done].
    exists v. congruence.
  - intros v Hv. apply Hif in Hv as Hg.
    apply (acquire_if _ _ _ _ _ now_ms) in Hg as (v2 & st2 & Hv2 & ?); [|done].
    congruence.
  - intros d' Hd. pose proof (acquire_section config draws d owner (sys_now s) now_ms g
      (sys_pool s)) as Hs. rewrite Ha in Hs. cbn in Hs.
    destruct Hs as [->|[_ Hs]]; [done|].
    by eapply steps_elsewhere.
Qed.

(** ** Sweeps *)

(** A target's body drops the leases that satisfy [drop] and reports [emit]. *)
Definition sweeps (body : DeviceId * GateId → PoolState → option DeviceLease * PoolState)
    (dropped : LeaseRecord → bool) (emit : LeaseRecord → option DeviceLease) : Prop :=
  ∀ d g st, gate_at st d g →
    fst (body (d, g) st) =
      (l ← lease_of st d; if dropped l then emit l else None) ∧
    (∀ d', lease_of (snd (body (d, g) st)) d' =
      if decide (d = d') then l ← lease_of st d; if dropped l then None else Some l
      else lease_of st d') ∧
    (∀ d' g', gate_at st d' g' → gate_at (snd (body (d, g) st)) d' g').

Lemma elem_of_option_list {A} (o : option A) x : x ∈ option_list o ↔ o = Some x.
Proof. destruct o; cbn; rewrite ?list_elem_of_singleton, ?elem_of_nil; naive_solver. Qed.

Lemma for_targets_spec body dropped emit targets st :
  sweeps body dropped emit → (∀ d g, (d, g) ∈ targets → gate_at st d g) →
  let '(out, st') := for_targets body targets st in
  (∀ v, v ∈ out ↔ ∃ d l, d ∈ targets.*1 ∧ lease_of st d = Some l ∧ dropped l = true ∧
     emit l = Some v) ∧
  (∀ d, lease_of st' d =
     l ← lease_of st d; if bool_decide (d ∈ targets.*1) && dropped l then None else Some l).
Proof.
  intros Hb. revert st. induction targets as [|[d g] targets IH]; intros st Hg; cbn.
  { split; [set_solver|]. intros d. by destruct (lease_of st d). }
  destruct (Hb d g st) as (Ho & Hl & Hk); [apply Hg; set_solver|].
  destruct (body (d, g) st) as [o st1]. cbn in Ho, Hl, Hk.
  specialize (IH st1). destruct (for_targets body targets st1) as [out st2].
  destruct IH as [IHo IHl]; [intros d' g' ?; apply Hk, Hg; set_solver|].
  split.
  - intros v. rewrite elem_of_app, elem_of_option_list, IHo. subst o.
    setoid_rewrite Hl. split.
    + intros [(l & ? & ?)%bind_Some|(d' & l & Hd' & Hl' & Hdr & ?)].
      * exists d, l. case_match; [|done]. set_solver.
      * exists d', l. case_decide; [subst|set_solver].
        apply bind_Some in Hl' as (l' & _ & Hx).
        destruct (dropped l') eqn:?; [done|]. injection Hx as ->. congruence.
    + intros (d' & l & Hd' & Hl' & Hdr & He). destruct (decide (d = d')) as [<-|].
      * left. rewrite Hl'. cbn. by rewrite Hdr.
      * right. exists d', l. rewrite decide_False by done. set_solver.
  - intros d'. rewrite IHl, Hl. case_decide as Hd; [subst|].
    + rewrite (bool_decide_true (d' ∈ d' :: _)) by set_solver.
      destruct (lease_of st d') as [l|]; [|done]. cbn.
      destruct (dropped l) eqn:Hdr; [done|]. cbn. by rewrite Hdr, andb_false_r.
    + rewrite (bool_decide_ext (d' ∈ d :: _) (d' ∈ targets.*1)); [done|]. set_solver.
Qed.

Lemma gate_at_same st st' :
  identities_kept st st' → (∀ d, is_Some (ps_devices st !! d) → is_Some (ps_devices st' !! d)) →
  ∀ d g, gate_at st d g → gate_at st' d g.
Proof.
  intros [_ Hk] Hd d g (r & Hr & <-). destruct (Hd d) as [r' Hr']; [by eexists|].
  destruct (Hk _ _ Hr') as (r2 & ? & ? & _). exists r'. split; congruence.
Qed.

Lemma take_gate d st d' g : gate_at st d' g → gate_at (snd (take_lease d st)) d' g.
Proof.
  apply gate_at_same.
  - apply (step_identities DevicePoolConfig_default 0 true d). by apply ds_take.
  - intros d2 [r Hr]. unfold take_lease. case_match; [|by exists r]. cbn.
    rewrite lookup_alter_is_Some. by exists r.
Qed.

Lemma take_sweeps dropped (emit : LeaseRecord → option DeviceLease) d st st0 (b : bool) :
  (∀ d', lease_of st0 d' = lease_of st d') → (∀ d' g', gate_at st d' g' → gate_at st0 d' g') →
  b = match lease_of st d with Some l => dropped l | None => false end →
  let r := if b
    then (lease_of st0 d ≫= emit, snd (take_lease d st0)) else (None, st0) in
  fst r = (l ← lease_of st d; if dropped l then emit l else None) ∧
  (∀ d', lease_of (snd r) d' =
    if decide (d = d') then l ← lease_of st d; if (dropped l : bool) then None else Some l
    else lease_of st d') ∧
  (∀ d' g', gate_at st d' g' → gate_at (snd r) d' g').
Proof.
  intros Hl Hg -> r. unfold r. clear r.
  destruct (lease_of st d) as [l|] eqn:Hd; [destruct (dropped l) eqn:Hdr|]; cbn;
    rewrite ?Hl, ?Hd; cbn; rewrite ?Hdr; split_and!; try done; intros d'.
  - rewrite lease_of_take. case_decide; [done|apply Hl].
  - intros g' ?. by apply take_gate, Hg.
  - case_decide; [subst|]; by rewrite Hl.
  - case_decide; [subst|]; by rewrite Hl.
Qed.

Lemma take_fst d st : fst (take_lease d st) = lease_of st d.
Proof. unfold take_lease. by case_match. Qed.

Lemma reap_sweeps now now_ms :
  sweeps (λ t, reap_target t now now_ms) (λ l, lr_deadline l <=? now) (Some ∘ lr_value).
Proof.
  intros d g st Hg. unfold reap_target.
  rewrite (proj2 (ensure_current_gate_ok st d g ())) by done. cbn [is_err is_ok negb].
  pose proof (take_sweeps (λ l, lr_deadline l <=? now) (Some ∘ lr_value) d st
    (advance_wall_clock now_ms st) _ (λ _, eq_refl) (λ _ _ H, H) eq_refl) as Ht.
  unfold expire_lease. change (lease_of (advance_wall_clock now_ms st) d) with (lease_of st d) in *.
  pose proof (take_fst d (advance_wall_clock now_ms st)) as Hf.
  destruct (take_lease d (advance_wall_clock now_ms st)) as [x st']. cbn in Hf, Ht.
  subst x. by destruct (match lease_of st d with Some _ => _ | None => _ end).
Qed.

Lemma release_owner_sweeps owner now now_ms :
  sweeps (λ t, release_owner_target owner t now now_ms)
    (λ l, dl_owner_id (lr_value l) =? owner)
    (λ l, if now <? lr_deadline l then Some (lr_value l) else None).
Proof.
  intros d g st Hg. unfold release_owner_target.
  rewrite (proj2 (ensure_current_gate_ok st d g ())) by done. cbn [is_err is_ok negb].
  pose proof (take_sweeps (λ l, dl_owner_id (lr_value l) =? owner)
    (λ l, if now <? lr_deadline l then Some (lr_value l) else None) d st
    (advance_wall_clock now_ms st) _ (λ _, eq_refl) (λ _ _ H, H) eq_refl) as Ht.
  change (lease_of (advance_wall_clock now_ms st) d) with (lease_of st d) in *.
  pose proof (take_fst d (advance_wall_clock now_ms st)) as Hf.
  destruct (take_lease d (advance_wall_clock now_ms st)) as [x st']. cbn in Hf, Ht.
  subst x. by destruct (match lease_of st d with Some _ => _ | None => _ end).
Qed.

Lemma release_all_sweeps now_ms :
  sweeps (λ t, release_all_target t now_ms) (λ _, true) (Some ∘ lr_value).
Proof.
  intros d g st Hg. unfold release_all_target.
  rewrite (proj2 (ensure_current_gate_ok st d g ())) by done. cbn [is_err is_ok negb].
  pose proof (take_fst d (advance_wall_clock now_ms st)) as Hf.
  pose proof (lease_of_take (advance_wall_clock now_ms st) d) as Hl.
  pose proof (λ d' g', take_gate d (advance_wall_clock now_ms st) d' g') as Hk.
  destruct (take_lease d (advance_wall_clock now_ms st)) as [x st']. cbn in *. subst x.
  split_and!; [|intros d'; rewrite Hl; by destruct (lease_of st d)|done].
  by destruct (lease_of st d) eqn:Hd; unfold lease_of in *; cbn in *; rewrite Hd.
Qed.

Lemma elem_of_lease_targets st ids d g :
  (d, g) ∈ lease_targets st ids ↔
  ∃ id, id ∈ ids ∧ ps_lease_devices st !! id = Some d ∧ gate_at st d g.
Proof.
  unfold lease_targets, gate_at. rewrite list_elem_of_omap. f_equiv. intros id.
  rewrite !bind_Some. setoid_rewrite bind_Some. naive_solver.
Qed.

Lemma lease_targets_gate st ids d g : (d, g) ∈ lease_targets st ids → gate_at st d g.
Proof. by intros (id & _ & _ & ?)%elem_of_lease_targets. Qed.

(** The targets are the devices of the leases with the given ids. *)
Lemma elem_of_target_devices st ids d l :
  indexes_consistent st → lease_of st d = Some l →
  d ∈ (lease_targets st ids).*1 ↔ dl_id (lr_value l) ∈ ids.
Proof.
  intros Hi Hl. rewrite list_elem_of_fmap. split.
  - intros ([d' g] & -> & (id & Hin & Hd & _)%elem_of_lease_targets). cbn in Hl.
    apply (ic_lease_devices _ Hi) in Hd as (l' & ? & <-). by simplify_eq.
  - intros Hin. apply lease_of_some in Hl as Hr. destruct Hr as (r & Hr & _).
    exists (d, rec_gate r). split; [done|]. apply elem_of_lease_targets.
    exists (dl_id (lr_value l)). split_and!; [done| |by exists r].
    apply (ic_lease_devices _ Hi). eauto.
Qed.

#[global] Instance deadline_le_trans : Transitive deadline_le.
Proof. intros x y z. unfold deadline_le. lia. Qed.
#[global] Instance deadline_le_total : Total deadline_le.
Proof. intros x y. unfold deadline_le. lia. Qed.

Lemma elem_of_take_while {A} (R : relation A) (f : A → bool) l x :
  StronglySorted R l → (∀ x y, R x y → f y = true → f x = true) →
  x ∈ take_while f l ↔ x ∈ l ∧ f x = true.
Proof.
  intros Hs Hf. induction Hs as [|y l _ IH Hy]; cbn; [set_solver|].
  destruct (f y) eqn:Hfy.
  - rewrite !elem_of_cons, IH. naive_solver.
  - rewrite elem_of_nil, elem_of_cons. split; [done|]. intros [[->|Hx] Hfx]; [congruence|].
    rewrite Forall_forall in Hy. rewrite (Hf y x) in Hfy; [done|by apply Hy|done].
Qed.

Lemma elem_of_expired_ids st now id :
  id ∈ (snd <$> take_while (λ p, fst p <=? now)
    (merge_sort deadline_le (elements (ps_lease_deadlines st)))) ↔
  ∃ t, (t, id) ∈ ps_lease_deadlines st ∧ t <= now.
Proof.
  set (l := merge_sort _ _).
  assert (∀ p, p ∈ take_while (λ p, fst p <=? now) l ↔
    p ∈ ps_lease_deadlines st ∧ fst p <= now) as Hl.
  { intros p. rewrite (elem_of_take_while deadline_le); cycle 1.
    - apply StronglySorted_merge_sort; apply _.
    - intros x y. unfold deadline_le. cbv beta. rewrite !N.leb_le. unfold Instant in *. lia.
    - unfold l. by rewrite merge_sort_Permutation, elem_of_elements, N.leb_le. }
  rewrite list_elem_of_fmap. setoid_rewrite Hl. split.
  - intros ([t i] & -> & ? & ?). by exists t.
  - intros (t & ? & ?). by exists (t, id).
Qed.

(** A sweep whose targets include every lease it should drop. *)
Lemma sweep_complete body dropped emit st ids out st' :
  indexes_consistent st → sweeps body dropped emit →
  (∀ d l, lease_of st d = Some l → dropped l = true → dl_id (lr_value l) ∈ ids) →
  for_targets body (lease_targets st ids) st = (out, st') →
  (∀ v, v ∈ out ↔ ∃ d l, lease_of st d = Some l ∧ dropped l = true ∧ emit l = Some v) ∧
  (∀ d, lease_of st' d = l ← lease_of st d; if dropped l then None else Some l).
Proof.
  intros Hi Hb Hids Hf.
  pose proof (for_targets_spec _ _ _ (lease_targets st ids) st Hb
    (lease_targets_gate st ids)) as H. rewrite Hf in H. destruct H as [Ho Hl].
  assert (∀ d l, lease_of st d = Some l → dropped l = true →
    d ∈ (lease_targets st ids).*1) as Hin.
  { intros d l Hd Hdr. apply (elem_of_target_devices _ _ _ l Hi Hd). eauto. }
  split.
  - intros v. rewrite Ho. naive_solver.
  - intros d. rewrite Hl. destruct (lease_of st d) as [l|] eqn:Hd; [|done]. cbn.
    destruct (dropped l) eqn:Hdr; [|by rewrite andb_false_r].
    by rewrite bool_decide_true by eauto.
Qed.

Lemma elem_of_merge_sorted (X : gset LeaseId) id :
  id ∈ merge_sort N.le (elements X) ↔ id ∈ X.
Proof. by rewrite merge_sort_Permutation, elem_of_elements. Qed.

(** The sweeps release exactly what they should. Run alone on a reachable
    pool, [reap_expired] drops the leases whose deadline has passed and
    returns them; [release_owner] drops all leases of the owner and returns
    those that had not expired; [release_all] drops and returns every lease;
    each leaves the other leases as they were. *)
Theorem sweeps_release_exactly config s owner now_ms :
  pool_reachable config s →
  let st := sys_pool s in
  let now := sys_now s in
  (let '(out, st') := reap_expired now now_ms st in
   (∀ v, v ∈ out ↔ ∃ d l, lease_of st d = Some l ∧ lr_deadline l <= now ∧ lr_value l = v) ∧
   ∀ d, lease_of st' d = live_lease st d now) ∧
  (let '(out, st') := release_owner owner now now_ms st in
   (∀ v, v ∈ out ↔ ∃ d l, lease_of st d = Some l ∧ dl_owner_id (lr_value l) = owner ∧
      now < lr_deadline l ∧ lr_value l = v) ∧
   ∀ d, lease_of st' d =
     l ← lease_of st d; if dl_owner_id (lr_value l) =? owner then None else Some l) ∧
  (let '(out, st') := release_all now_ms st in
   (∀ v, v ∈ out ↔ ∃ d l, lease_of st d = Some l ∧ lr_value l = v) ∧
   ∀ d, lease_of st' d = None).
Proof.
  intros [[Hi _ _ _] _]%pool_reachable_wf st now.
  split_and!.
  - destruct (reap_expired now now_ms st) as [out st'] eqn:Hs.
    apply (sweep_complete _ _ _ _ _ _ _ Hi (reap_sweeps now now_ms)) in Hs as [Ho Hl].
    { split; [|done]. intros v. rewrite Ho. setoid_rewrite N.leb_le.
      unfold compose. naive_solver. }
    intros d l Hd Ht%N.leb_le. apply elem_of_expired_ids. exists (lr_deadline l).
    split; [|done]. apply (ic_deadlines _ Hi). eauto.
  - destruct (release_owner owner now now_ms st) as [out st'] eqn:Hs.
    apply (sweep_complete _ _ _ _ _ _ _ Hi (release_owner_sweeps owner now now_ms)) in Hs
      as [Ho Hl].
    { split; [|done]. intros v. rewrite Ho. setoid_rewrite N.eqb_eq.
      do 4 f_equiv. destruct (N.ltb_spec now (lr_deadline a0)); naive_solver lia. }
    intros d l Hd Ho%N.eqb_eq. apply elem_of_merge_sorted, (ic_owner_leases _ Hi). eauto.
  - destruct (release_all now_ms st) as [out st'] eqn:Hs.
    apply (sweep_complete _ _ _ _ _ _ _ Hi (release_all_sweeps now_ms)) in Hs as [Ho Hl].
    { split; [intros v; rewrite Ho; unfold compose; naive_solver|].
      intros d. rewrite Hl. by destruct (lease_of (sys_pool s) d). }
    intros d l Hd _. apply elem_of_merge_sorted, elem_of_dom. exists d.
    apply (ic_lease_devices _ Hi). eauto.
Qed.

(** ** The theorems at a concrete pool *)

(** The device is leased to owner 10, who has pinned it. *)
Definition pinned_ops : list PoolOp := take 4 handoff_ops.
Definition sample_guard : Guard := mkGuard "pixel-8" 0 10.

Lemma reachable_pool_consistent_witness :
  ∃ s, pool_run DevicePoolConfig_default handoff_ops new_system = Some s ∧
    indexes_consistent (sys_pool s).
Proof.
  eexists. split; [vm_compute; reflexivity|].
  apply (reachable_pool_consistent DevicePoolConfig_default).
  exists handoff_ops. vm_compute. reflexivity.
Defined.

Lemma guard_pins_device_witness :
  ∃ s, pool_run DevicePoolConfig_default pinned_ops new_system = Some s ∧
    ∃ s', run_holding DevicePoolConfig_default sample_guard (drop 4 handoff_ops) s = Some s' ∧
    gate_at (sys_pool s') "pixel-8" 0.
Proof.
  eexists. split; [vm_compute; reflexivity|].
  eexists. split; [vm_compute; reflexivity|].
  eapply (guard_pins_device DevicePoolConfig_default) with (gu := sample_guard)
    (ops := drop 4 handoff_ops); [exists pinned_ops; vm_compute; reflexivity
    |left|vm_compute; reflexivity].
Defined.

Lemma stale_registration_is_rejected_witness :
  ∃ s, pool_run DevicePoolConfig_default [Register "pixel-8"; Remove "pixel-8" 1000 0;
      Register "pixel-8"] new_system = Some s ∧
    ∃ e, record_health (mkDeviceRegistrationToken "pixel-8" 0) (health_healthy 2000)
      (sys_now s) 2000 (sys_pool s) = (Err e, sys_pool s).
Proof.
  eexists. split; [vm_compute; reflexivity|].
  edestruct (stale_registration_is_rejected DevicePoolConfig_default)
    with (ops := [] : list PoolOp) (token := mkDeviceRegistrationToken "pixel-8" 0)
    (health := health_healthy 2000) (now_ms := 2000) as (e & He & _);
    [| |reflexivity|exists e; exact He].
  - vm_compute. reflexivity.
  - intros (r & Hr & Hg). vm_compute in Hr. injection Hr as <-. discriminate Hg.
Defined.

Lemma acquire_grants_exclusively_witness :
  ∃ s, pool_run DevicePoolConfig_default pinned_ops new_system = Some s ∧
    ¬ grantable DevicePoolConfig_default (sys_pool s) [502] "pixel-8" 20 (sys_now s) 0.
Proof.
  eexists. split; [vm_compute; reflexivity|].
  match goal with |- ¬ grantable _ (sys_pool ?s) _ _ _ _ _ =>
    destruct (acquire_grants_exclusively DevicePoolConfig_default s [502] "pixel-8" 20 2000 0
      (Err (PoolDeviceInUse "pixel-8"))
      (snd (acquire_with_gate DevicePoolConfig_default [502] "pixel-8" 20 (sys_now s) 2000 0
        (sys_pool s)))) as [H _] end.
  - exists pinned_ops. vm_compute. reflexivity.
  - vm_compute. reflexivity.
  - intros [v Hv]%H. discriminate Hv.
Defined.

Lemma sweeps_release_exactly_witness :
  ∃ s, pool_run DevicePoolConfig_default (take 5 handoff_ops) new_system = Some s ∧
    let '(out, st') := reap_expired (sys_now s) 301000 (sys_pool s) in
    ∀ d, lease_of st' d = live_lease (sys_pool s) d (sys_now s).
Proof.
  destruct (pool_run DevicePoolConfig_default (take 5 handoff_ops) new_system)
    as [s|] eqn:Hs; [|vm_compute in Hs; discriminate Hs].
  exists s. split; [reflexivity|].
  destruct (sweeps_release_exactly DevicePoolConfig_default s 10 301000) as [H _].
  { exists (take 5 handoff_ops). exact Hs. }
  revert H. destruct (reap_expired _ _ _) as [out st']. intros [_ H]. exact H.
Defined.
