(* ===== verification/DevicePoolClock.v ===== *)
(** * The device pool and the wall clock

    [crates/core/src/pool.rs] promises that the wall-clock values supplied by
    callers are for diagnostics only. Here two runs of the same sections with
    different wall-clock values are related: they agree on everything but the
    timestamps. The proof is a relational one, rule by rule for the state and
    error monad. *)

From S2P Require Import Prelude Protocol Evidence DevicePool DevicePoolProps.

Local Open Scope N_scope.

(** ** Erasing timestamps *)

Definition erase_value (v : DeviceLease) : DeviceLease :=
  mkDeviceLease (dl_id v) (dl_device_id v) (dl_owner_id v) 0 0.
Definition erase_lease (l : LeaseRecord) : LeaseRecord :=
  mkLeaseRecord (erase_value (lr_value l)) (lr_deadline l).
Definition erase_health (h : PoolHealth) : PoolHealth :=
  mkPoolHealth (ph_state h) ((λ _, 0) <$> ph_checked_at_ms h) (ph_code h).
Definition erase_record (r : PoolRecord) : PoolRecord :=
  mkPoolRecord (rec_device_id r) (erase_health (rec_health r)) (rec_health_checked_at r)
    (erase_lease <$> rec_lease r) (rec_gate r).
Definition erase (st : PoolState) : PoolState :=
  mkPoolState 0 (erase_record <$> ps_devices st) (ps_lease_devices st)
    (ps_owner_leases st) (ps_lease_deadlines st) (ps_next_gate st).
Definition erase_system (s : PoolSystem) : PoolSystem :=
  mkPoolSystem (erase (sys_pool s)) (sys_now s) (sys_guards s).

(** A section without the wall-clock values its caller supplies. *)
Definition erase_op (op : PoolOp) : PoolOp :=
  match op with
  | Tick _ | Register _ | DropGuard _ => op
  | Remove d _ g => Remove d 0 g
  | RecordHealth token health _ => RecordHealth token (erase_health health) 0
  | Acquire draws d owner _ g => Acquire draws d owner 0 g
  | AccessWithLease id d owner _ fresh g => AccessWithLease id d owner 0 fresh g
  | AccessAvailable d owner _ g => AccessAvailable d owner 0 g
  | Release id owner d _ g => Release id owner d 0 g
  | ReleaseOwnerTarget owner d _ g => ReleaseOwnerTarget owner d 0 g
  | ReleaseAllTarget d _ g => ReleaseAllTarget d 0 g
  | ReapTarget d _ g => ReapTarget d 0 g
  | Entries _ => Entries 0
  end.

(** States that differ in timestamps only. *)
Definition sim (st st' : PoolState) : Prop := erase st = erase st'.

#[global] Instance sim_equivalence : Equivalence sim.
Proof. unfold sim. split; [done|by intros x y|by intros x y z; apply eq_trans]. Qed.

(** Programs that take such states to such states, with related results. *)
Definition sim_result {A} (R : relation A) (r r' : result DevicePoolError A) : Prop :=
  match r, r' with Ok a, Ok a' => R a a' | Err e, Err e' => e = e' | _, _ => False end.
Definition sim_run {A} (R : relation A) (m m' : PoolM A) : Prop :=
  ∀ st st', sim st st' →
    sim_result R (fst (m st)) (fst (m' st')) ∧ sim (snd (m st)) (snd (m' st')).

Section Rules.
Context {A B : Type} (R : relation A) (Q : relation B).

Lemma sim_bind (m m' : PoolM A) (k k' : A → PoolM B) :
  sim_run R m m' → (∀ a a', R a a' → sim_run Q (k a) (k' a')) →
  sim_run Q (m ≫= k) (m' ≫= k').
Proof.
  intros Hm Hk st st' Hs. destruct (Hm st st' Hs) as [Hr Hs'].
  unfold mbind, M_bind. destruct (m st) as [[a|e] s1], (m' st') as [[a'|e'] s1']; try done.
  by apply Hk.
Qed.

Lemma sim_lift (r r' : result DevicePoolError A) :
  sim_result R r r' → sim_run R (lift r) (lift r').
Proof. by intros Hr st st' Hs. Qed.

Lemma sim_ret (a a' : A) : R a a' → sim_run R (mret a) (mret a').
Proof. by intros Hr st st' Hs. Qed.

Lemma sim_throw e : sim_run R (throw e) (throw e).
Proof. by intros st st' Hs. Qed.

Lemma sim_gets (f f' : PoolState → A) :
  (∀ st st', sim st st' → R (f st) (f' st')) → sim_run R (gets f) (gets f').
Proof. intros Hf st st' Hs. split; [by apply Hf|done]. Qed.
End Rules.

Lemma sim_get : sim_run sim get get.
Proof. by intros st st' Hs. Qed.

Lemma sim_modify f f' :
  (∀ st st', sim st st' → sim (f st) (f' st')) →
  sim_run (λ _ _, True) (modify f) (modify f').
Proof. intros Hf st st' Hs. split; [done|by apply Hf]. Qed.

Lemma sim_reject b b' e : b = b' → sim_result (λ _ _, True) (reject_if b e) (reject_if b' e).
Proof. intros ->. by destruct b'. Qed.

(** ** The primitive operations commute with erasure *)

Lemma erase_lease_of st d : lease_of (erase st) d = erase_lease <$> lease_of st d.
Proof.
  unfold lease_of. cbn. rewrite lookup_fmap. by destruct (ps_devices st !! d).
Qed.

Lemma erase_update d f f' st :
  (∀ r, erase_record (f r) = f' (erase_record r)) →
  erase (update_device d f st) = update_device d f' (erase st).
Proof.
  intros Hf. unfold erase, update_device. cbn. f_equal. apply map_eq. intros d'.
  rewrite lookup_fmap. destruct (decide (d = d')) as [<-|].
  - rewrite !lookup_alter_eq, lookup_fmap. destruct (_ !! _); cbn; [by rewrite Hf|done].
  - by rewrite !lookup_alter_ne, lookup_fmap.
Qed.

Lemma erase_update_indexes d f f' st x y z :
  (∀ r, erase_record (f r) = f' (erase_record r)) →
  erase (update_device d f (set_indexes st x y z)) =
  update_device d f' (set_indexes (erase st) x y z).
Proof. intros Hf. by rewrite (erase_update _ _ f'). Qed.

Lemma erase_take d st : erase (snd (take_lease d st)) = snd (take_lease d (erase st)).
Proof.
  unfold take_lease. rewrite erase_lease_of. destruct (lease_of st d); [|done].
  by apply erase_update_indexes.
Qed.

Lemma erase_install d l st :
  erase (install_lease d l st) = install_lease d (erase_lease l) (erase st).
Proof. by apply erase_update_indexes. Qed.

Lemma erase_renew d t e st :
  erase (snd (renew_lease d t e st)) = snd (renew_lease d t 0 (erase st)).
Proof.
  unfold renew_lease. rewrite erase_lease_of. destruct (lease_of st d); [|done].
  by apply erase_update_indexes.
Qed.

Lemma erase_expire d now st :
  erase (snd (expire_lease d now st)) = snd (expire_lease d now (erase st)).
Proof.
  unfold expire_lease. rewrite erase_lease_of.
  destruct (lease_of st d) as [l|]; cbn; [|done]. destruct (_ <=? _); [|done].
  pose proof (erase_take d st) as Ht. by destruct (take_lease d st), (take_lease d (erase st)).
Qed.

(** ** Hence they preserve [sim] *)

Lemma sim_advance n n' st st' :
  sim st st' → sim (advance_wall_clock n st) (advance_wall_clock n' st').
Proof. done. Qed.

Lemma sim_take d st st' : sim st st' → sim (snd (take_lease d st)) (snd (take_lease d st')).
Proof. unfold sim. intros Hs. by rewrite !erase_take, Hs. Qed.

Lemma sim_expire d now st st' :
  sim st st' → sim (snd (expire_lease d now st)) (snd (expire_lease d now st')).
Proof. unfold sim. intros Hs. by rewrite !erase_expire, Hs. Qed.

Lemma sim_renew d t e e' st st' :
  sim st st' → sim (snd (renew_lease d t e st)) (snd (renew_lease d t e' st')).
Proof. unfold sim. intros Hs. by rewrite !erase_renew, Hs. Qed.

Lemma sim_install d l l' st st' :
  erase_lease l = erase_lease l' → sim st st' →
  sim (install_lease d l st) (install_lease d l' st').
Proof. unfold sim. intros Hl Hs. by rewrite !erase_install, Hl, Hs. Qed.

Definition sim_record (r r' : PoolRecord) : Prop := erase_record r = erase_record r'.
Definition sim_lease (l l' : LeaseRecord) : Prop := erase_lease l = erase_lease l'.
Definition sim_value (v v' : DeviceLease) : Prop := erase_value v = erase_value v'.

Lemma sim_lookup st st' d :
  sim st st' → option_Forall2 sim_record (ps_devices st !! d) (ps_devices st' !! d).
Proof.
  unfold sim, erase. intros [= Hd _ _ _ _].
  apply (f_equal (λ m : gmap DeviceId PoolRecord, m !! d)) in Hd. rewrite !lookup_fmap in Hd.
  destruct (ps_devices st !! d), (ps_devices st' !! d); try done; constructor.
  by apply (inj Some) in Hd.
Qed.

Lemma sim_lease_of st st' d :
  sim st st' → option_Forall2 sim_lease (lease_of st d) (lease_of st' d).
Proof.
  intros Hs. apply (f_equal (λ st, lease_of st d)) in Hs. rewrite !erase_lease_of in Hs.
  destruct (lease_of st d), (lease_of st' d); try done; constructor.
  by apply (inj Some) in Hs.
Qed.

Lemma sim_gate st st' d g :
  sim st st' → sim_result (λ _ _, True) (ensure_current_gate st d g)
    (ensure_current_gate st' d g).
Proof.
  intros Hs. unfold ensure_current_gate.
  destruct (sim_lookup _ _ d Hs) as [r r' Hr|]; [|done]. cbn.
  apply sim_reject. apply (f_equal rec_gate) in Hr. cbn in Hr. by rewrite Hr.
Qed.

Lemma sim_ok_or {A} (R : relation A) o o' e :
  option_Forall2 R o o' → sim_result R (ok_or o e) (ok_or o' e).
Proof. by intros []. Qed.

Lemma sim_healthy r r' now validity :
  sim_record r r' → sim_result (λ _ _, True) (ensure_healthy r now validity)
    (ensure_healthy r' now validity).
Proof.
  intros Hr. unfold ensure_healthy.
  assert (rec_device_id r = rec_device_id r') as -> by (by apply (f_equal rec_device_id) in Hr).
  assert (rec_health_checked_at r = rec_health_checked_at r') as ->
    by (by apply (f_equal rec_health_checked_at) in Hr).
  assert (ph_state (rec_health r) = ph_state (rec_health r')) as ->
    by (by apply (f_equal (ph_state ∘ rec_health)) in Hr).
  assert (ph_code (rec_health r) = ph_code (rec_health r')) as ->
    by (by apply (f_equal (ph_code ∘ rec_health)) in Hr).
  destruct (rec_health_checked_at r'); [|done]. cbn.
  destruct (_ <? _); [done|]. cbn. by case_match.
Qed.

Lemma sim_rec_lease r r' :
  sim_record r r' → option_Forall2 sim_lease (rec_lease r) (rec_lease r').
Proof.
  intros Hr. apply (f_equal rec_lease) in Hr. cbn in Hr.
  destruct (rec_lease r), (rec_lease r'); try done; constructor.
  by apply (inj Some) in Hr.
Qed.

(** The fields a section looks at. *)
Lemma sim_lease_fields l l' :
  sim_lease l l' → lr_deadline l = lr_deadline l' ∧
    dl_id (lr_value l) = dl_id (lr_value l') ∧
    dl_device_id (lr_value l) = dl_device_id (lr_value l') ∧
    dl_owner_id (lr_value l) = dl_owner_id (lr_value l').
Proof.
  intros Hl. split_and!; [by apply (f_equal lr_deadline) in Hl|..];
    apply (f_equal lr_value) in Hl; cbn in Hl.
  - by apply (f_equal dl_id) in Hl.
  - by apply (f_equal dl_device_id) in Hl.
  - by apply (f_equal dl_owner_id) in Hl.
Qed.

Create HintDb sim.
#[local] Hint Resolve sim_advance sim_take sim_expire sim_renew sim_get sim_gate
  sim_healthy sim_rec_lease sim_lookup sim_lease_of : sim.

(** One bind of a section at a time. *)
Ltac sim_step :=
  lazymatch goal with
  | |- sim_run _ (get ≫= _) _ => eapply (sim_bind sim); [apply sim_get|intros ? ? ?]
  | |- sim_run _ (gets _ ≫= _) _ =>
      eapply (sim_bind (λ _ _, True)); [by apply sim_gets|intros ? ? _]
  | |- sim_run _ (modify _ ≫= _) _ =>
      eapply (sim_bind (λ _ _, True)); [apply sim_modify; auto with sim|intros _ _ _]
  | |- sim_run _ (lift (ensure_current_gate _ _ _) ≫= _) _ =>
      eapply (sim_bind (λ _ _, True)); [apply sim_lift; auto with sim|intros _ _ _]
  | |- sim_run _ (lift (ensure_healthy _ _ _) ≫= _) _ =>
      eapply (sim_bind (λ _ _, True)); [apply sim_lift; auto with sim|intros _ _ _]
  | |- sim_run _ (lift (ok_or (_ !! _) _) ≫= _) _ =>
      eapply (sim_bind sim_record);
        [apply sim_lift, sim_ok_or; auto with sim|intros ? ? ?]
  | |- sim_run _ (lift (ok_or (rec_lease _) _) ≫= _) _ =>
      eapply (sim_bind sim_lease);
        [apply sim_lift, sim_ok_or; auto with sim
        |let Ht := fresh in let Hi := fresh in let Hd := fresh in let Ho := fresh in
         intros ? ? (Ht & Hi & Hd & Ho)%sim_lease_fields; rewrite ?Ht, ?Hi, ?Hd, ?Ho;
         clear Ht Hi Hd Ho]
  | |- sim_run _ (lift (ok_or (instant_checked_add _ _) _) ≫= _) _ =>
      eapply (sim_bind eq); [apply sim_lift; by destruct (ok_or _ _)|intros ? ? <-]
  | |- sim_run _ (lift (reject_if _ _) ≫= _) _ =>
      eapply (sim_bind (λ _ _, True)); [apply sim_lift, sim_reject|intros _ _ _]
  end.

Lemma sim_remove d now n n' g :
  sim_run (λ _ _, True) (remove_with_gate d now n g) (remove_with_gate d now n' g).
Proof.
  unfold remove_with_gate. repeat sim_step.
  - match goal with H : sim _ _ |- bool_decide (is_Some (lease_of ?x _)) = _ =>
      by destruct (sim_lease_of x _ d ltac:(eassumption)) end.
  - apply sim_modify. unfold sim, erase. cbn. intros st st' [= Hd ? ? ? ?].
    f_equal; try done. by rewrite !fmap_delete, Hd.
Qed.

Lemma sim_set_health d h h' c st st' :
  erase_health h = erase_health h' → sim st st' →
  let set h r := mkPoolRecord (rec_device_id r) h c (rec_lease r) (rec_gate r) in
  sim (update_device d (set h) st) (update_device d (set h') st').
Proof.
  intros Hh Hs set. unfold sim.
  rewrite (erase_update _ (set h) (set (erase_health h))) by done.
  rewrite (erase_update _ (set h') (set (erase_health h'))) by done. by rewrite Hh, Hs.
Qed.

Lemma sim_record_health token h h' now n n' :
  erase_health h = erase_health h' →
  sim_run (λ _ _, True) (record_health token h now n) (record_health token h' now n').
Proof.
  intros Hh. unfold record_health.
  assert (ph_state h = ph_state h') as Hst by (by apply (f_equal ph_state) in Hh).
  assert (ph_code h = ph_code h') as Hc by (by apply (f_equal ph_code) in Hh).
  eapply (sim_bind (λ _ _, True)); [|intros _ _ _].
  { apply sim_lift. unfold validate_health. apply sim_reject. rewrite Hst, Hc.
    apply (f_equal ph_checked_at_ms) in Hh. cbn in Hh.
    by destruct (ph_checked_at_ms h), (ph_checked_at_ms h'). }
  do 4 sim_step. rewrite Hst, Hc.
  case_bool_decide; repeat sim_step; try by apply sim_ret.
  all: intros; by apply sim_set_health.
Qed.

Lemma sim_option_value (o o' : option LeaseRecord) :
  option_Forall2 sim_lease o o' → option_Forall2 sim_value (lr_value <$> o) (lr_value <$> o').
Proof.
  intros [l l' Hl|]; constructor. unfold sim_value.
  by apply (f_equal lr_value) in Hl.
Qed.

Lemma sim_taken d st st' :
  sim st st' →
  option_Forall2 sim_lease (fst (take_lease d st)) (fst (take_lease d st')).
Proof. rewrite !take_fst. auto with sim. Qed.

Lemma sim_renewed d t e e' st st' :
  sim st st' →
  option_Forall2 sim_value (fst (renew_lease d t e st)) (fst (renew_lease d t e' st')).
Proof.
  intros Hs. unfold renew_lease. destruct (sim_lease_of _ _ d Hs) as [l l' Hl|];
    constructor. apply sim_lease_fields in Hl as (_ & Hi & Hd & Ho).
  unfold sim_value, erase_value. cbn. congruence.
Qed.

Lemma sim_lease_devices st st' : sim st st' → ps_lease_devices st = ps_lease_devices st'.
Proof. by intros [= _ ? _ _ _]. Qed.

(** Installing the outcome of a primitive operation. *)
Lemma sim_outcome {A B} (R : relation A) (Q : relation B) (f f' : A → B)
    (p p' : A * PoolState) :
  R (fst p) (fst p') → sim (snd p) (snd p') → (∀ a a', R a a' → Q (f a) (f' a')) →
  sim_run Q (let '(v, st) := p in check! modify (λ _, st); mret (f v))
    (let '(v, st) := p' in check! modify (λ _, st); mret (f' v)).
Proof.
  destruct p, p'. cbn. intros Hr Hs Hf. eapply (sim_bind (λ _ _, True));
    [by apply sim_modify|]. intros _ _ _. by apply sim_ret, Hf.
Qed.

Lemma sim_acquire config draws d owner now n n' g :
  sim_run (option_Forall2 sim_value) (acquire_with_gate config draws d owner now n g)
    (acquire_with_gate config draws d owner now n' g).
Proof.
  unfold acquire_with_gate. do 9 sim_step.
  match goal with H : sim_record ?r ?r' |- _ =>
    destruct (sim_rec_lease r r' H) as [l l' Hl|] end.
  - apply sim_lease_fields in Hl as (_ & _ & _ & ->). sim_step; [done|].
    eapply (sim_outcome _ _ id id); [by apply sim_renewed|by apply sim_renew|done].
  - match goal with H : sim ?x _ |- context [ps_lease_devices ?x] =>
      rewrite (sim_lease_devices _ _ H) end.
    destruct (List.find _ draws) as [id|]; [|apply sim_ret; constructor].
    eapply (sim_bind (λ _ _, True)); [|intros _ _ _; apply sim_ret; by constructor].
    apply sim_modify. intros. by apply sim_install.
Qed.

Lemma sim_access_with_lease config id d owner now n n' fresh g :
  sim_run (λ _ _, True) (access_with_lease_inner config id d owner now n fresh g)
    (access_with_lease_inner config id d owner now n' fresh g).
Proof.
  unfold access_with_lease_inner. do 7 sim_step.
  eapply (sim_bind (λ _ _, True)); [|intros _ _ _].
  { apply sim_lift. destruct fresh; [auto with sim|done]. }
  sim_step. case_match; repeat sim_step; [apply sim_throw|done|].
  apply sim_modify. auto with sim.
Qed.

Lemma sim_access_available d owner now n n' g :
  sim_run (λ _ _, True) (access_available_to d owner now n g)
    (access_available_to d owner now n' g).
Proof.
  unfold access_available_to. repeat sim_step; [|by apply sim_ret].
  match goal with H : sim_record ?r ?r' |- _ =>
    destruct (sim_rec_lease r r' H) as [l l' Hl|] end; [|done].
  by apply sim_lease_fields in Hl as (_ & _ & _ & ->).
Qed.

Lemma sim_release id owner d now n n' g :
  sim_run (option_Forall2 sim_value) (release_with_gate id owner d now n g)
    (release_with_gate id owner d now n' g).
Proof.
  unfold release_with_gate. do 6 sim_step. case_match; repeat sim_step; [apply sim_throw|done|].
  eapply (sim_outcome (option_Forall2 sim_lease));
    [by apply sim_taken|by apply sim_take|apply sim_option_value].
Qed.

Lemma sim_register d : sim_run eq (register d) (register d).
Proof.
  unfold register. sim_step; [done|]. sim_step. sim_step.
  - match goal with H : sim ?x ?y |- _ => by destruct (sim_lookup x y d H) end.
  - match goal with H : sim ?x ?y |- _ =>
      assert (ps_next_gate x = ps_next_gate y) as -> by (by injection H) end.
    eapply (sim_bind (λ _ _, True)); [|intros _ _ _; by apply sim_ret].
    apply sim_modify. unfold sim, erase. cbn. intros st st' [= Hd ? ? ? ?].
    f_equal; try done. by rewrite !fmap_insert, Hd.
Qed.

Lemma sim_is_err st st' d g :
  sim st st' → is_err (ensure_current_gate st d g) = is_err (ensure_current_gate st' d g).
Proof.
  intros Hs. pose proof (sim_gate _ _ d g Hs) as Hg.
  by destruct (ensure_current_gate st d g), (ensure_current_gate st' d g).
Qed.

Lemma sim_targets owner d now n n' g st st' :
  sim st st' →
  sim (snd (release_owner_target owner (d, g) now n st))
    (snd (release_owner_target owner (d, g) now n' st')) ∧
  sim (snd (release_all_target (d, g) n st)) (snd (release_all_target (d, g) n' st')) ∧
  sim (snd (reap_target (d, g) now n st)) (snd (reap_target (d, g) now n' st')).
Proof.
  intros Hs. unfold release_owner_target, release_all_target, reap_target.
  rewrite (sim_is_err _ _ d g Hs). destruct (is_err _); [done|].
  pose proof (sim_advance n n' _ _ Hs) as Hs1.
  pose proof (sim_take d _ _ Hs1) as Ht. pose proof (sim_expire d now _ _ Hs1) as He.
  destruct (take_lease d (advance_wall_clock n st)), (take_lease d (advance_wall_clock n' st')).
  split_and!; try done.
  destruct (sim_lease_of _ _ d Hs1) as [l l' Hl|]; [|done].
  apply sim_lease_fields in Hl as (_ & _ & _ & ->). by case_match.
Qed.

(** ** Steps and runs *)

Lemma sim_exclusive g body body' s s' :
  (∀ st st', sim st st' → sim (body st) (body' st')) → erase_system s = erase_system s' →
  erase_system <$> exclusive g body s = erase_system <$> exclusive g body' s'.
Proof.
  intros Hb [= Hd Hl Ho Ht Hn Hnow Hg]. unfold exclusive. rewrite Hg.
  destruct (unshared _ _); [|done]. cbn. unfold erase_system. cbn. do 2 f_equal; try done.
  apply Hb. unfold sim, erase. by f_equal.
Qed.

Lemma sim_shared gu body body' s s' :
  sim_run (λ _ _, True) body body' → erase_system s = erase_system s' →
  erase_system <$> shared gu body s = erase_system <$> shared gu body' s'.
Proof.
  intros Hb [= Hd Hl Ho Ht Hn Hnow Hg]. unfold shared.
  destruct (Hb (sys_pool s) (sys_pool s')) as [Hr Hs]; [unfold sim, erase; by f_equal|].
  destruct (body (sys_pool s)) as [r st], (body' (sys_pool s')) as [r' st']. cbn in *.
  unfold erase_system. cbn. rewrite Hg, Hnow, Hs. by destruct r, r'.
Qed.

Lemma sim_set_pool st st' s s' :
  sim st st' → erase_system s = erase_system s' →
  erase_system <$> set_pool st s = erase_system <$> set_pool st' s'.
Proof.
  intros Hst [= _ _ _ _ _ Hnow Hg]. cbn. unfold erase_system. cbn.
  by rewrite Hst, Hnow, Hg.
Qed.

(** A step of the system, up to timestamps, depends on its inputs up to
    timestamps. *)
Lemma sim_pool_step config op op' s s' :
  erase_op op = erase_op op' → erase_system s = erase_system s' →
  erase_system <$> pool_step config op s = erase_system <$> pool_step config op' s'.
Proof.
  intros Hop Hs. assert (sim (sys_pool s) (sys_pool s')) as Hsim
    by (by injection Hs; intros; unfold sim, erase; f_equal).
  assert (sys_now s = sys_now s') as Hnow by (by injection Hs).
  assert (sys_guards s = sys_guards s') as Hg by (by injection Hs).
  pose proof (f_equal (λ o, match o with RecordHealth _ h _ => h | _ => health_unknown end)
    Hop) as Hh.
  destruct op, op'; try discriminate Hop; cbn in Hh; cbn [pool_step]; rewrite ?Hnow;
    try (injection Hop; clear Hop; intros; subst).
  - cbn. unfold erase_system. cbn. by rewrite Hsim, Hg.
  - apply sim_set_pool; [|done]. by apply (sim_register d0).
  - apply sim_exclusive; [|done]. intros. by apply (sim_remove d0 (sys_now s')).
  - apply sim_set_pool; [|done].
    by apply (sim_record_health token0 health health0 (sys_now s') now_ms now_ms0).
  - apply sim_exclusive; [|done]. intros.
    by apply (sim_acquire config draws0 d0 owner0 (sys_now s')).
  - apply sim_shared; [|done]. apply sim_access_with_lease.
  - apply sim_shared; [|done]. apply sim_access_available.
  - apply sim_exclusive; [|done]. intros.
    by apply (sim_release lease_id0 owner0 d0 (sys_now s')).
  - apply sim_exclusive; [|done]. intros. by apply sim_targets.
  - apply sim_exclusive; [|done]. intros. by apply (sim_targets 0 d0 0).
  - apply sim_exclusive; [|done]. intros. by apply (sim_targets 0).
  - by apply sim_set_pool.
  - cbn. unfold erase_system. cbn. by rewrite Hsim, Hg.
Qed.

(** The wall clock does not influence the pool. Two runs of the same
    sections that differ only in the wall-clock values their callers supply
    wait at the same points and end in systems that differ only in the
    timestamps of leases and health records: who holds which lease until
    which deadline, the indexes, the gates and the guards are the same. *)
Theorem wall_clock_is_diagnostic config ops ops' s :
  erase_op <$> ops = erase_op <$> ops' →
  erase_system <$> pool_run config ops s = erase_system <$> pool_run config ops' s.
Proof.
  intros Hops. assert (∀ s', erase_system s = erase_system s' →
    erase_system <$> pool_run config ops s = erase_system <$> pool_run config ops' s') as H;
    [|by apply H].
  revert ops' s Hops. induction ops as [|op ops IH]; intros [|op' ops'] s Hops s' Hs;
    try discriminate Hops.
  - cbn. by rewrite Hs.
  - assert (erase_op op = erase_op op') as Hop by (by apply (f_equal head) in Hops; simplify_eq/=).
    assert (erase_op <$> ops = erase_op <$> ops') as Hrest by (by apply (f_equal tail) in Hops).
    pose proof (sim_pool_step config op op' s s' Hop Hs) as Hstep. cbn.
    destruct (pool_step config op s) as [s1|], (pool_step config op' s') as [s1'|];
      try discriminate Hstep; [|done].
    cbn. apply IH; [done|]. by apply (inj Some) in Hstep.
Qed.

(** ** The theorem at a concrete pair of runs *)

Definition clocked_ops (now_ms : N) : list PoolOp :=
  [ Register "pixel-8";
    RecordHealth (mkDeviceRegistrationToken "pixel-8" 0) (health_healthy now_ms) now_ms;
    Acquire [501] "pixel-8" 10 now_ms 0 ].

Lemma wall_clock_is_diagnostic_witness :
  erase_system <$> pool_run DevicePoolConfig_default (clocked_ops 1000) new_system =
  erase_system <$> pool_run DevicePoolConfig_default (clocked_ops 5) new_system.
Proof. apply wall_clock_is_diagnostic. reflexivity. Defined.
