(* ===== verification/PeerLease.v ===== *)
(** * Peer leases and the call ledger

    [crates/distributed-router/src/lease.rs] with the parts of [model.rs] it
    uses: the node-side lease authority of one epoch, and the bounded window
    of call ids that deduplicates execute requests. Random lease ids and the
    instants the code reads are arguments; the SHA-256 function is a
    parameter. *)

From S2P Require Import Prelude Protocol Evidence.

Local Open Scope N_scope.

(** ** Wire data ([model.rs]) *)

Definition MAX_DEVICE_KEY_BYTES : N := 128.

Definition is_ascii_alphanumeric (b : N) : bool :=
  is_ascii_digit b || is_ascii_lowercase b || ((0x41 <=? b) && (b <=? 0x5A)).

(** [valid_identifier] *)
Definition valid_identifier (value : string) (max_bytes : N) : bool :=
  let separator b := (b =? 0x2E) || (b =? 0x5F) || (b =? 0x2D) in
  negb (str_len value =? 0) && (str_len value <=? max_bytes) &&
  match bytes value with
  | [] => true
  | first :: rest =>
      is_ascii_alphanumeric first &&
      forallb (λ b, is_ascii_alphanumeric b || separator b) rest
  end.

(** [valid_lease_ttl] *)
Definition valid_lease_ttl (ttl_ms : N) : bool :=
  (1000 <=? ttl_ms) && (ttl_ms <=? 5 * 60000).

Record PeerLease := mkPeerLease {
  pl_lease_id : Uuid;
  pl_device_key : string;
  pl_owner_id : string;
  pl_node_epoch : N;
  pl_expires_at_ms : N;
}.

#[global] Instance PeerLease_eq_dec : EqDecision PeerLease.
Proof. solve_decision. Defined.

(** [PeerLease::validate], which can only report [ModelError::InvalidEnvelope]. *)
Definition peer_lease_valid (l : PeerLease) : bool :=
  negb ((pl_lease_id l =? 0) ||
        negb (valid_identifier (pl_device_key l) MAX_DEVICE_KEY_BYTES) ||
        negb (valid_identifier (pl_owner_id l) 64) ||
        (pl_node_epoch l =? 0) || (MAX_SAFE_INTEGER <? pl_node_epoch l) ||
        (pl_expires_at_ms l =? 0) || (MAX_SAFE_INTEGER <? pl_expires_at_ms l)).

(** ** The lease table *)

Inductive LeaseError :=
| LeaseInvalid
| LeaseHeld
| LeaseStale
| LeaseDeviceNotFound.

(** [LeaseError::code] *)
Definition lease_error_code (e : LeaseError) : string :=
  match e with
  | LeaseInvalid => "lease_invalid"
  | LeaseHeld => "lease_held"
  | LeaseStale => "lease_stale"
  | LeaseDeviceNotFound => "lease_device_not_found"
  end.

Record ActiveLease := mkActiveLease {
  al_token : PeerLease;
  al_deadline : Instant;
}.

(** [ActiveLease::is_active] at the instant [at_] *)
Definition is_active (a : ActiveLease) (now_ms : N) (at_ : Instant) : bool :=
  (now_ms <? pl_expires_at_ms (al_token a)) && (at_ <? al_deadline a).

Record LeaseTable := mkLeaseTable {
  lt_node_epoch : N;
  lt_known_devices : gset string;
  lt_active : gmap string ActiveLease;
}.

Definition LeaseM (A : Type) : Type := M LeaseTable LeaseError A.

Definition set_active (f : gmap string ActiveLease → gmap string ActiveLease)
    (t : LeaseTable) : LeaseTable :=
  mkLeaseTable (lt_node_epoch t) (lt_known_devices t) (f (lt_active t)).

Module Leases.

(** [LeaseTable::new] *)
Definition new (node_epoch : N) (known_devices : list string)
    : result LeaseError LeaseTable :=
  let known_devices : gset string := list_to_set known_devices in
  check! reject_if
    ((node_epoch =? 0) || (MAX_SAFE_INTEGER <? node_epoch) ||
     (size known_devices =? 0)%nat || (256 <? size known_devices)%nat ||
     existsb (λ key, negb (valid_identifier key MAX_DEVICE_KEY_BYTES))
       (elements known_devices)) LeaseInvalid;
  Ok (mkLeaseTable node_epoch known_devices ∅).

(** [LeaseTable::validate_input] *)
Definition validate_input (t : LeaseTable) (device_key owner_id : string)
    (ttl_ms now_ms : N) : result LeaseError () :=
  check! reject_if
    (negb (valid_identifier device_key MAX_DEVICE_KEY_BYTES) ||
     negb (valid_identifier owner_id 64) || negb (valid_lease_ttl ttl_ms) ||
     (now_ms =? 0) || (MAX_SAFE_INTEGER <? now_ms)) LeaseInvalid;
  reject_if (negb (bool_decide (device_key ∈ lt_known_devices t))) LeaseDeviceNotFound.

(** [LeaseTable::validate_lease] *)
Definition validate_lease (t : LeaseTable) (l : PeerLease) (now_ms : N)
    : result LeaseError () :=
  check! reject_if (negb (peer_lease_valid l)) LeaseInvalid;
  reject_if
    (negb (pl_node_epoch l =? lt_node_epoch t) || (now_ms =? 0) ||
     (MAX_SAFE_INTEGER <? now_ms)) LeaseStale.

(** [now_ms.checked_add(ttl_ms).filter(|value| *value <= MAX_SAFE_INTEGER)] *)
Definition expiry (now_ms ttl_ms : N) : option N :=
  e ← u64_checked_add now_ms ttl_ms;
  if e <=? MAX_SAFE_INTEGER then Some e else None.

(** The last part of [acquire] and [renew]: the token with its new expiry is
    installed for [ttl_ms] from the instant [set_at]. *)
Definition install (token : N → PeerLease) (ttl_ms now_ms : N) (set_at : Instant)
    : LeaseM PeerLease :=
  expires_at_ms ← lift (ok_or (expiry now_ms ttl_ms) LeaseInvalid);
  let lease := token expires_at_ms in
  deadline ← lift (ok_or (instant_checked_add set_at (from_millis ttl_ms)) LeaseInvalid);
  check! modify (set_active <[pl_device_key lease := mkActiveLease lease deadline]>);
  mret lease.

(** [LeaseTable::acquire], reading the clock at [checked_at] and [set_at]. *)
Definition acquire (lease_id : Uuid) (device_key owner_id : string) (ttl_ms now_ms : N)
    (checked_at set_at : Instant) : LeaseM PeerLease :=
  t ← get;
  check! lift (validate_input t device_key owner_id ttl_ms now_ms);
  match (a ← lt_active t !! device_key;
         if is_active a now_ms checked_at then Some a else None) with
  | Some existing =>
      if String.eqb (pl_owner_id (al_token existing)) owner_id
      then mret (al_token existing) else throw LeaseHeld
  | None =>
      install (mkPeerLease lease_id device_key owner_id (lt_node_epoch t))
        ttl_ms now_ms set_at
  end.

(** The test of the current token in [authorize], [renew] and [release]. *)
Definition is_current (t : LeaseTable) (l : PeerLease) (now_ms : N) (at_ : Instant) : bool :=
  match lt_active t !! pl_device_key l with
  | Some current => bool_decide (al_token current = l) && is_active current now_ms at_
  | None => false
  end.

(** [LeaseTable::authorize] *)
Definition authorize (l : PeerLease) (now_ms : N) (at_ : Instant) : LeaseM () :=
  t ← get;
  check! lift (validate_lease t l now_ms);
  lift (reject_if (negb (is_current t l now_ms at_)) LeaseStale).

(** [LeaseTable::renew] *)
Definition renew (l : PeerLease) (ttl_ms now_ms : N) (checked_at set_at : Instant)
    : LeaseM PeerLease :=
  fail_if! negb (valid_lease_ttl ttl_ms) with LeaseInvalid;
  t ← get;
  check! lift (validate_lease t l now_ms);
  fail_if! negb (is_current t l now_ms checked_at) with LeaseStale;
  install (mkPeerLease (pl_lease_id l) (pl_device_key l) (pl_owner_id l) (pl_node_epoch l))
    ttl_ms now_ms set_at.

(** [LeaseTable::release] *)
Definition release (l : PeerLease) (now_ms : N) (at_ : Instant) : LeaseM () :=
  t ← get;
  check! lift (validate_lease t l now_ms);
  fail_if! negb (is_current t l now_ms at_) with LeaseStale;
  modify (set_active (delete (pl_device_key l))).

(** [LeaseTable::revoke] *)
Definition revoke (l : PeerLease) : LeaseM () :=
  fail_if! negb (peer_lease_valid l) with LeaseInvalid;
  t ← get;
  fail_if! negb (pl_node_epoch l =? lt_node_epoch t) with LeaseStale;
  match lt_active t !! pl_device_key l with
  | Some current =>
      if bool_decide (al_token current = l)
      then modify (set_active (delete (pl_device_key l))) else throw LeaseStale
  | None => throw LeaseStale
  end.

(** [LeaseTable::invalidate_all] *)
Definition invalidate_all (t : LeaseTable) : LeaseTable := set_active (λ _, ∅) t.

End Leases.

(** ** The call ledger *)

Definition MAX_LEDGER_CALLS : nat := 1024.

Inductive CallLedgerDecision := FirstSeen | Duplicate | Conflict.

Section Ledger.
Context {Fingerprint : Type} `{EqDecision Fingerprint}.
(** [Sha256::digest] *)
Context (digest : list N → Fingerprint).

Record LedgerState := mkLedgerState {
  led_order : list Uuid;
  led_fingerprints : gmap Uuid Fingerprint;
}.

(** [CallLedger::register] *)
Definition ledger_register (call_id : Uuid) (canonical_request : list N) (s : LedgerState)
    : CallLedgerDecision * LedgerState :=
  if call_id =? 0 then (Conflict, s) else
  let fingerprint := digest canonical_request in
  match led_fingerprints s !! call_id with
  | Some existing =>
      (if bool_decide (existing = fingerprint) then Duplicate else Conflict, s)
  | None =>
      let s :=
        if bool_decide (length (led_order s) = MAX_LEDGER_CALLS)
        then match led_order s with
             | [] => s
             | evicted :: order =>
                 mkLedgerState order (delete evicted (led_fingerprints s))
             end
        else s in
      (FirstSeen, mkLedgerState (led_order s ++ [call_id])
        (<[call_id := fingerprint]> (led_fingerprints s)))
  end.
End Ledger.
