(* ===== verification/PeerLeaseProps.v ===== *)
(** * Guarantees of peer leases and of the call ledger

    Exclusivity and staleness of lease tokens over arbitrary sequences of
    table operations, and the ledger's deduplication window against a
    reference that keeps the last first-seen calls. *)

From S2P Require Import Prelude Protocol Evidence PeerLease.

Local Open Scope N_scope.

(** ** Operations of the lease table *)

Inductive LeaseOp :=
| LAcquire (lease_id : Uuid) (device_key owner_id : string) (ttl_ms now_ms : N)
    (checked_at set_at : Instant)
| LAuthorize (l : PeerLease) (now_ms : N) (at_ : Instant)
| LRenew (l : PeerLease) (ttl_ms now_ms : N) (checked_at set_at : Instant)
| LRelease (l : PeerLease) (now_ms : N) (at_ : Instant)
| LRevoke (l : PeerLease)
| LInvalidateAll.

Definition lease_step (op : LeaseOp) (t : LeaseTable) : LeaseTable :=
  match op with
  | LAcquire id k o ttl now c a => snd (Leases.acquire id k o ttl now c a t)
  | LAuthorize l now a => snd (Leases.authorize l now a t)
  | LRenew l ttl now c a => snd (Leases.renew l ttl now c a t)
  | LRelease l now a => snd (Leases.release l now a t)
  | LRevoke l => snd (Leases.revoke l t)
  | LInvalidateAll => Leases.invalidate_all t
  end.

Definition lease_run (ops : list LeaseOp) (t : LeaseTable) : LeaseTable :=
  foldl (λ t op, lease_step op t) t ops.

(** ** What an operation changes *)

Lemma lease_install_cases token ttl now a t r t' :
  (∀ e, pl_device_key (token e) = pl_device_key (token 0)) →
  Leases.install token ttl now a t = (r, t') →
  (t' = t ∧ is_ok r = false) ∨
  ∃ e d, r = Ok (token e) ∧ d = a + from_millis ttl ∧ e = now + ttl ∧ e <= MAX_SAFE_INTEGER ∧
    t' = set_active <[pl_device_key (token 0) := mkActiveLease (token e) d]> t.
Proof.
  intros Hk. unfold Leases.install, Leases.expiry, u64_checked_add, instant_checked_add,
    mbind, M_bind, lift, modify, mret, M_ret.
  destruct (N.leb_spec (now + ttl) U64_MAX); cbn; [|intros [= <- <-]; auto].
  destruct (N.leb_spec (now + ttl) MAX_SAFE_INTEGER); cbn; [|intros [= <- <-]; auto].
  destruct (N.leb_spec (a + from_millis ttl) INSTANT_MAX); cbn; [|intros [= <- <-]; auto].
  intros [= <- <-]. right. eexists _, _. rewrite (Hk (now + ttl)). split_and!; done.
Qed.

Lemma is_current_spec t l now a :
  Leases.is_current t l now a = true ↔
  ∃ c, lt_active t !! pl_device_key l = Some c ∧ al_token c = l ∧
    now < pl_expires_at_ms l ∧ a < al_deadline c.
Proof.
  unfold Leases.is_current, is_active. destruct (lt_active t !! _) as [c|]; [|naive_solver].
  rewrite andb_true_iff, bool_decide_eq_true, andb_true_iff, !N.ltb_lt. naive_solver.
Qed.

Lemma peer_lease_valid_spec l :
  peer_lease_valid l = true ↔
  0 < pl_lease_id l ∧ valid_identifier (pl_device_key l) MAX_DEVICE_KEY_BYTES = true ∧
  valid_identifier (pl_owner_id l) 64 = true ∧
  0 < pl_node_epoch l <= MAX_SAFE_INTEGER ∧ 0 < pl_expires_at_ms l <= MAX_SAFE_INTEGER.
Proof.
  unfold peer_lease_valid. rewrite negb_true_iff, !orb_false_iff, !negb_false_iff. lia.
Qed.

Lemma acquired_token_valid t id k o ttl now :
  Leases.validate_input t k o ttl now = Ok () → 0 < id →
  0 < lt_node_epoch t <= MAX_SAFE_INTEGER → now + ttl <= MAX_SAFE_INTEGER →
  peer_lease_valid (mkPeerLease id k o (lt_node_epoch t) (now + ttl)) = true.
Proof.
  unfold Leases.validate_input. intros Hv ? ? ?. inv_result. inv_bools.
  apply peer_lease_valid_spec. cbn. split_and!; try done; lia.
Qed.

Lemma lease_acquire_cases id k o ttl now c a t r t' :
  Leases.acquire id k o ttl now c a t = (r, t') →
  (t' = t ∧ ∀ l, r = Ok l → ∃ x, lt_active t !! k = Some x ∧ al_token x = l ∧
     is_active x now c = true ∧ pl_owner_id l = o) ∨
  ∃ e d, r = Ok (mkPeerLease id k o (lt_node_epoch t) e) ∧
    (∀ x, lt_active t !! k = Some x → is_active x now c = false) ∧
    (0 < id → 0 < lt_node_epoch t <= MAX_SAFE_INTEGER →
     peer_lease_valid (mkPeerLease id k o (lt_node_epoch t) e) = true) ∧
    t' = set_active <[k := mkActiveLease (mkPeerLease id k o (lt_node_epoch t) e) d]> t.
Proof.
  unfold Leases.acquire. unfold mbind at 1 2, M_bind at 1 2, get, lift.
  destruct (Leases.validate_input _ _ _ _ _) as [[]|] eqn:Hv; [|intros [= <- <-]; by left].
  destruct (_ ≫= _) as [x|] eqn:Hx.
  - apply bind_Some in Hx as (y & Hy & Ha). destruct (is_active y now c) eqn:Hact; [|done].
    injection Ha as ->. destruct (String.eqb_spec (pl_owner_id (al_token x)) o);
      intros [= <- <-]; left; (split; [done|]); [|done]. intros l [= <-]. eauto 10.
  - intros [[-> Hr]|(e & d & -> & _ & -> & He & ->)]%lease_install_cases; [| |done].
    { left. split; [done|]. by intros l ->. }
    right. eexists _, _. split_and!; [done|..|done].
    + intros y Hy. rewrite Hy in Hx. cbn in Hx. by destruct (is_active y now c).
    + intros Hid Hep. by eapply acquired_token_valid.
Qed.

Lemma lease_renew_cases l ttl now c a t r t' :
  Leases.renew l ttl now c a t = (r, t') →
  (t' = t ∧ is_ok r = false) ∨
  ∃ e d, Leases.is_current t l now c = true ∧ 0 < e <= MAX_SAFE_INTEGER ∧
    t' = set_active <[pl_device_key l := mkActiveLease
      (mkPeerLease (pl_lease_id l) (pl_device_key l) (pl_owner_id l) (pl_node_epoch l) e) d]> t.
Proof.
  unfold Leases.renew. unfold mbind at 1 2 3 4, M_bind at 1 2 3 4, get, lift.
  destruct (reject_if (negb (valid_lease_ttl ttl)) _) as [[]|] eqn:Ht;
    [|intros [= <- <-]; by left].
  destruct (Leases.validate_lease _ _ _) as [[]|]; [|intros [= <- <-]; by left].
  destruct (Leases.is_current t l now c) eqn:Hc; [|intros [= <- <-]; by left]. cbn.
  intros [[-> ?]|(e & d & _ & _ & -> & He & ->)]%lease_install_cases; [by left|right|done].
  inv_result. inv_bools. unfold valid_lease_ttl in *.
  eexists _, _. split_and!; try done. lia.
Qed.

Lemma lease_release_cases l now a t r t' :
  Leases.release l now a t = (r, t') →
  (t' = t ∧ is_ok r = false) ∨
  Leases.is_current t l now a = true ∧ r = Ok () ∧
  t' = set_active (delete (pl_device_key l)) t.
Proof.
  unfold Leases.release. unfold mbind, M_bind, get, lift, modify.
  destruct (Leases.validate_lease _ _ _) as [[]|]; [|intros [= <- <-]; by left].
  destruct (Leases.is_current t l now a) eqn:Hc; cbn; intros [= <- <-]; [by right|by left].
Qed.

Lemma lease_revoke_cases l t r t' :
  Leases.revoke l t = (r, t') →
  (t' = t ∧ is_ok r = false) ∨
  (∃ c, lt_active t !! pl_device_key l = Some c ∧ al_token c = l) ∧ r = Ok () ∧
  t' = set_active (delete (pl_device_key l)) t.
Proof.
  unfold Leases.revoke. unfold mbind, M_bind, get, lift, modify.
  destruct (reject_if (negb (peer_lease_valid l)) _) as [[]|]; [|intros [= <- <-]; by left].
  destruct (reject_if _ _) as [[]|]; [|intros [= <- <-]; by left].
  destruct (lt_active t !! _) as [c|] eqn:Hc; [|intros [= <- <-]; by left].
  case_bool_decide; intros [= <- <-]; [right; eauto|by left].
Qed.

Lemma lease_authorize_spec l now a t r t' :
  Leases.authorize l now a t = (r, t') →
  t' = t ∧ (r = Ok () ↔ peer_lease_valid l = true ∧ pl_node_epoch l = lt_node_epoch t ∧
    0 < now <= MAX_SAFE_INTEGER ∧ Leases.is_current t l now a = true).
Proof.
  unfold Leases.authorize, Leases.validate_lease, mbind, M_bind, get, lift.
  destruct (peer_lease_valid l); cbn; [|intros [= <- <-]; naive_solver].
  destruct (N.eqb_spec (pl_node_epoch l) (lt_node_epoch t)), (N.eqb_spec now 0),
    (N.ltb_spec MAX_SAFE_INTEGER now), (Leases.is_current t l now a);
    cbn; intros [= <- <-]; (split; [done|]); split; intros Hr; try done;
    destruct_and?; try done; try lia.
Qed.

(** ** The invariant *)

(** The lease ids an operation draws. *)
Definition op_ids (op : LeaseOp) : list Uuid :=
  match op with LAcquire id _ _ _ _ _ _ => [id] | _ => [] end.
Definition drawn_ids (ops : list LeaseOp) : list Uuid := ops ≫= op_ids.

(** [Uuid::new_v4] never returns the nil id, nor the same id twice. *)
Definition fresh_ids (ops : list LeaseOp) : Prop :=
  NoDup (drawn_ids ops) ∧ (0 ∉ drawn_ids ops).

Record table_wf (ids : list Uuid) (t : LeaseTable) : Prop := {
  tw_epoch : 0 < lt_node_epoch t <= MAX_SAFE_INTEGER;
  tw_token k x : lt_active t !! k = Some x →
    pl_device_key (al_token x) = k ∧ peer_lease_valid (al_token x) = true ∧
    pl_node_epoch (al_token x) = lt_node_epoch t ∧ pl_lease_id (al_token x) ∈ ids;
  tw_unique k k' x x' : lt_active t !! k = Some x → lt_active t !! k' = Some x' →
    pl_lease_id (al_token x) = pl_lease_id (al_token x') → k = k';
}.

(** A table built by [new] and the operations, with fresh ids. *)
Definition lease_reachable (ops : list LeaseOp) (t : LeaseTable) : Prop :=
  ∃ epoch devices t0, Leases.new epoch devices = Ok t0 ∧ fresh_ids ops ∧
    t = lease_run ops t0.

Lemma table_wf_delete ids t k : table_wf ids t → table_wf ids (set_active (delete k) t).
Proof.
  intros [He Ht Hu]. split; [done|..]; cbn.
  - intros k' x [_ ?]%lookup_delete_Some. by apply Ht.
  - intros k1 k2 x1 x2 [_ ?]%lookup_delete_Some [_ ?]%lookup_delete_Some. by apply Hu.
Qed.

Lemma table_wf_insert ids t k x :
  table_wf ids t → pl_device_key (al_token x) = k → peer_lease_valid (al_token x) = true →
  pl_node_epoch (al_token x) = lt_node_epoch t → pl_lease_id (al_token x) ∈ ids →
  (∀ k' x', k' ≠ k → lt_active t !! k' = Some x' →
     pl_lease_id (al_token x') ≠ pl_lease_id (al_token x)) →
  table_wf ids (set_active <[k := x]> t).
Proof.
  intros [He Ht Hu] Hk Hv Hn Hi Hf. split; [done|..]; cbn.
  - intros k' x' [[<- <-]|[_ ?]]%lookup_insert_Some; [done|by apply Ht].
  - intros k1 k2 x1 x2 [[<- <-]|[? H1]]%lookup_insert_Some
      [[<- <-]|[? H2]]%lookup_insert_Some Heq; [done|..].
    + by destruct (Hf k2 x2).
    + by destruct (Hf k1 x1).
    + by eapply Hu.
Qed.

Lemma table_wf_mono ids ids' t : ids ⊆ ids' → table_wf ids t → table_wf ids' t.
Proof. intros Hs [? Ht ?]. split; try done. intros k x Hx. apply Ht in Hx. set_solver. Qed.

Lemma lease_step_wf ids op t :
  table_wf ids t → (∀ id, id ∈ op_ids op → 0 < id ∧ (id ∉ ids)) →
  table_wf (ids ++ op_ids op) (lease_step op t).
Proof.
  intros Hwf Hf. destruct op as [id k o ttl now c a|l' now a|l' ttl now c a|l' now a|l'|];
    cbn [lease_step op_ids] in *; rewrite ?app_nil_r.
  - destruct (Leases.acquire _ _ _ _ _ _ _ _) as [r t'] eqn:Hr.
    destruct (Hf id) as [Hid Hin]; [set_solver|].
    apply lease_acquire_cases in Hr as [[-> _]|(e & x & _ & _ & Hv & ->)];
      [by eapply table_wf_mono; [|done]; set_solver|].
    apply table_wf_insert; cbn; try done; [|by apply Hv; [|apply Hwf]|set_solver|].
    + by eapply table_wf_mono; [|done]; set_solver.
    + intros k' x' _ Hx' He. apply (tw_token _ _ Hwf) in Hx' as (_ & _ & _ & Hi).
      by rewrite He in Hi.
  - destruct (Leases.authorize _ _ _ _) as [r t'] eqn:Hr.
    by apply lease_authorize_spec in Hr as [-> _].
  - destruct (Leases.renew _ _ _ _ _ _) as [r t'] eqn:Hr.
    apply lease_renew_cases in Hr as [[-> _]|(e & x & (y & Hy & <- & _)%is_current_spec & He & ->)];
      [done|]. pose proof (tw_token _ _ Hwf _ _ Hy) as (_ & Hv & ? & ?).
    apply table_wf_insert; cbn; try done.
    + apply peer_lease_valid_spec in Hv as (? & ? & ? & ? & _).
      by apply peer_lease_valid_spec.
    + intros k' x' Hk Hx' Heq. apply Hk. by eapply (tw_unique _ _ Hwf).
  - destruct (Leases.release _ _ _ _) as [r t'] eqn:Hr.
    apply lease_release_cases in Hr as [[-> _]|(_ & _ & ->)]; [done|by apply table_wf_delete].
  - destruct (Leases.revoke _ _) as [r t'] eqn:Hr.
    apply lease_revoke_cases in Hr as [[-> _]|(_ & _ & ->)]; [done|by apply table_wf_delete].
  - split; [apply Hwf|..]; cbn; [by intros k x|by intros k k' x x'].
Qed.

Lemma lease_run_wf ids ops t :
  table_wf ids t → NoDup (ids ++ drawn_ids ops) → (0 ∉ drawn_ids ops) →
  table_wf (ids ++ drawn_ids ops) (lease_run ops t).
Proof.
  revert ids t. induction ops as [|op ops IH]; intros ids t Hwf Hnd H0.
  { cbn. by rewrite app_nil_r. }
  unfold drawn_ids in *. cbn [mbind list_bind] in *. rewrite app_assoc.
  change (lease_run (op :: ops) t) with (lease_run ops (lease_step op t)).
  rewrite app_assoc in Hnd. apply IH; [|done|set_solver].
  apply lease_step_wf; [done|]. intros id Hid. split.
  - destruct (decide (id = 0)) as [->|]; [set_solver|lia].
  - apply NoDup_app in Hnd as [Hnd _]. apply NoDup_app in Hnd as (_ & Hd & _).
    intros ?. by eapply Hd.
Qed.

Lemma lease_reachable_wf ops t : lease_reachable ops t → table_wf (drawn_ids ops) t.
Proof.
  intros (epoch & devices & t0 & Hn & [Hnd H0] & ->).
  apply (lease_run_wf []); [|done..]. unfold Leases.new in Hn. inv_result. inv_bools.
  split; cbn; [lia|by intros|by intros].
Qed.

(** ** Exclusivity *)

(** The operation does not end the lease: the clocks it reads have not passed
    the lease's bounds, and it does not present the lease's token to replace
    or drop it. *)
Definition leaves_lease (l : PeerLease) (deadline : Instant) (op : LeaseOp) : Prop :=
  match op with
  | LAcquire _ k _ _ now c _ =>
      k = pl_device_key l → now < pl_expires_at_ms l ∧ c < deadline
  | LAuthorize _ _ _ => True
  | LRenew l' _ _ _ _ | LRelease l' _ _ | LRevoke l' => l' ≠ l
  | LInvalidateAll => False
  end.

Lemma step_leaves_lease l d op t :
  lt_active t !! pl_device_key l = Some (mkActiveLease l d) → leaves_lease l d op →
  lt_node_epoch (lease_step op t) = lt_node_epoch t ∧
  lt_known_devices (lease_step op t) = lt_known_devices t ∧
  lt_active (lease_step op t) !! pl_device_key l = Some (mkActiveLease l d).
Proof.
  intros Hl Hop. destruct op as [id k o ttl now c a|l' now a|l' ttl now c a|l' now a|l'|];
    cbn [lease_step leaves_lease] in *; [| | | | |done].
  - destruct (Leases.acquire _ _ _ _ _ _ _ _) as [r t'] eqn:Hr.
    apply lease_acquire_cases in Hr as [[-> _]|(e & x & _ & Hx & _ & ->)]; [done|]. cbn.
    split_and!; try done. rewrite lookup_insert_ne; [done|]. intros ->.
    specialize (Hx _ Hl). unfold is_active in Hx. cbn in Hx.
    destruct Hop as [? ?]; [done|]. lia.
  - destruct (Leases.authorize _ _ _ _) as [r t'] eqn:Hr.
    by apply lease_authorize_spec in Hr as [-> _].
  - destruct (Leases.renew _ _ _ _ _ _) as [r t'] eqn:Hr.
    apply lease_renew_cases in Hr as [[-> _]|(e & x & (y & Hy & <- & _)%is_current_spec & _ & ->)]; [done|].
    cbn. split_and!; try done. rewrite lookup_insert_ne; [done|]. intros He.
    rewrite He in Hy. naive_solver.
  - destruct (Leases.release _ _ _ _) as [r t'] eqn:Hr.
    apply lease_release_cases in Hr as [[-> _]|((y & Hy & <- & _)%is_current_spec & _ & ->)]; [done|].
    cbn. split_and!; try done. rewrite lookup_delete_ne; [done|]. intros He.
    rewrite He in Hy. naive_solver.
  - destruct (Leases.revoke _ _) as [r t'] eqn:Hr.
    apply lease_revoke_cases in Hr as [[-> _]|((y & Hy & <-) & _ & ->)]; [done|].
    cbn. split_and!; try done. rewrite lookup_delete_ne; [done|]. intros He.
    rewrite He in Hy. naive_solver.
Qed.

Lemma run_leaves_lease l d ops t :
  lt_active t !! pl_device_key l = Some (mkActiveLease l d) → Forall (leaves_lease l d) ops →
  lt_node_epoch (lease_run ops t) = lt_node_epoch t ∧
  lt_known_devices (lease_run ops t) = lt_known_devices t ∧
  lt_active (lease_run ops t) !! pl_device_key l = Some (mkActiveLease l d).
Proof.
  intros Hl Hops. revert t Hl. induction Hops as [|op ops Hop _ IH]; intros t Hl; [done|].
  destruct (step_leaves_lease l d op t Hl Hop) as (He & Hk & Hl').
  destruct (IH _ Hl') as (? & ? & ?).
  change (lease_run (op :: ops) t) with (lease_run ops (lease_step op t)).
  split_and!; congruence.
Qed.

(** C33: a lease excludes other owners and stays usable. Once [acquire] has
    returned a token, and as long as no clock has passed the token's expiry or
    deadline, nobody presents the token to renew, release or revoke it, and the
    node does not invalidate the whole table, then whatever operations run:
    every other owner is refused the device, no other token is authorized for
    it, and the token itself is. *)
Theorem lease_excludes_other_owners ops0 id k o ttl now c a t l t1 d ops :
  lease_reachable ops0 t → fresh_ids (ops0 ++ [LAcquire id k o ttl now c a]) →
  Leases.acquire id k o ttl now c a t = (Ok l, t1) →
  lt_active t1 !! k = Some (mkActiveLease l d) → Forall (leaves_lease l d) ops →
  let t2 := lease_run ops t1 in
  (∀ id' o' ttl' now' c' a', o' ≠ o → now' < pl_expires_at_ms l → c' < d →
     is_ok (fst (Leases.acquire id' k o' ttl' now' c' a' t2)) = false) ∧
  (∀ l' now' a', fst (Leases.authorize l' now' a' t2) = Ok () →
     pl_device_key l' = k → l' = l) ∧
  (∀ now' a', 0 < now' → now' < pl_expires_at_ms l → a' < d →
     fst (Leases.authorize l now' a' t2) = Ok ()).
Proof.
  intros (epoch & devices & t0 & Hn & _ & ->) Hf Ha Hl Hops t2.
  assert (table_wf (drawn_ids (ops0 ++ [LAcquire id k o ttl now c a])) t1) as Hwf.
  { apply lease_reachable_wf. exists epoch, devices, t0. split_and!; [done..|].
    unfold lease_run. rewrite foldl_app. cbn. unfold lease_run in Ha. by rewrite Ha. }
  destruct (tw_token _ _ Hwf _ _ Hl) as (Hk & Hv & He & _). cbn in Hk, Hv, He.
  assert (pl_owner_id l = o) as Ho.
  { apply lease_acquire_cases in Ha as [[_ H]|(e & d' & [= ->] & _)]; [|done].
    by destruct (H l eq_refl) as (? & _ & _ & _ & ?). }
  rewrite <-Hk in Hl. destruct (run_leaves_lease l d ops t1 Hl Hops) as (He2 & _ & Hl2).
  fold t2 in He2, Hl2. split_and!.
  - intros id' o' ttl' now' c' a' Hne Hnow Hc. subst k.
    destruct (Leases.acquire _ _ _ _ _ _ _ t2) as [r t3] eqn:Hr. cbn.
    apply lease_acquire_cases in Hr as [[_ Hr]|(e & d' & _ & Hx & _)].
    + destruct r as [l2|]; [|done]. destruct (Hr l2 eq_refl) as (x & Hx & <- & _ & ?).
      rewrite Hl2 in Hx. injection Hx as <-. cbn in *. congruence.
    + specialize (Hx _ Hl2). unfold is_active in Hx. cbn in Hx. lia.
  - intros l' now' a' Hau Hk'. destruct (Leases.authorize l' now' a' t2) as [r t3] eqn:Hr.
    apply lease_authorize_spec in Hr as [_ Hr]. cbn in Hau.
    apply Hr in Hau as (_ & _ & _ & (x & Hx & <- & _)%is_current_spec).
    rewrite Hk', <-Hk, Hl2 in Hx. by injection Hx as <-.
  - intros now' a' H0 Hnow Hd. destruct (Leases.authorize l now' a' t2) as [r t3] eqn:Hr.
    apply lease_authorize_spec in Hr as [_ Hr]. cbn. apply Hr. split_and!; try done; [congruence|..].
    + apply peer_lease_valid_spec in Hv. lia.
    + apply is_current_spec. by exists (mkActiveLease l d).
Qed.

(** ** Staleness *)

Definition no_lease (id : Uuid) (t : LeaseTable) : Prop :=
  ∀ k x, lt_active t !! k = Some x → pl_lease_id (al_token x) ≠ id.

Lemma step_no_lease id op t :
  no_lease id t → (id ∉ op_ids op) → no_lease id (lease_step op t).
Proof.
  intros Hn Hid. destruct op as [id' k o ttl now c a|l' now a|l' ttl now c a|l' now a|l'|];
    cbn [lease_step op_ids] in *.
  - destruct (Leases.acquire _ _ _ _ _ _ _ _) as [r t'] eqn:Hr.
    apply lease_acquire_cases in Hr as [[-> _]|(e & x & _ & _ & _ & ->)]; [done|].
    intros k' x'. cbn. intros [[<- <-]|[_ ?]]%lookup_insert_Some; [cbn; set_solver|by eapply Hn].
  - destruct (Leases.authorize _ _ _ _) as [r t'] eqn:Hr.
    by apply lease_authorize_spec in Hr as [-> _].
  - destruct (Leases.renew _ _ _ _ _ _) as [r t'] eqn:Hr.
    apply lease_renew_cases in Hr as [[-> _]|(e & x & (y & Hy & <- & _)%is_current_spec & _ & ->)];
      [done|]. intros k' x'. cbn. intros [[<- <-]|[_ ?]]%lookup_insert_Some; [|by eapply Hn].
    cbn. by eapply Hn.
  - destruct (Leases.release _ _ _ _) as [r t'] eqn:Hr.
    apply lease_release_cases in Hr as [[-> _]|(_ & _ & ->)]; [done|].
    intros k' x'. cbn. intros [_ ?]%lookup_delete_Some. by eapply Hn.
  - destruct (Leases.revoke _ _) as [r t'] eqn:Hr.
    apply lease_revoke_cases in Hr as [[-> _]|(_ & _ & ->)]; [done|].
    intros k' x'. cbn. intros [_ ?]%lookup_delete_Some. by eapply Hn.
  - by intros k x.
Qed.

Lemma run_no_lease id ops t :
  no_lease id t → (id ∉ drawn_ids ops) → no_lease id (lease_run ops t).
Proof.
  revert t. induction ops as [|op ops IH]; intros t Hn Hid; [done|].
  unfold drawn_ids in Hid. cbn [mbind list_bind] in Hid.
  apply IH; [apply step_no_lease; set_solver|set_solver].
Qed.

(** Without a lease of that id in the table, its tokens are refused. *)
Lemma no_lease_refused t l :
  no_lease (pl_lease_id l) t →
  (∀ now a, is_ok (fst (Leases.authorize l now a t)) = false) ∧
  (∀ ttl now c a, is_ok (fst (Leases.renew l ttl now c a t)) = false) ∧
  (∀ now a, is_ok (fst (Leases.release l now a t)) = false) ∧
  is_ok (fst (Leases.revoke l t)) = false.
Proof.
  intros Hno. assert (∀ now a, Leases.is_current t l now a = false) as Hc.
  { intros now a. apply not_true_iff_false. intros (y & Hy & <- & _)%is_current_spec.
    by apply Hno in Hy. }
  split_and!.
  - intros now a. destruct (Leases.authorize l now a t) as [[[]|] t3] eqn:Hr; [|done].
    apply lease_authorize_spec in Hr as [_ [Hr _]].
    destruct Hr as (_ & _ & _ & Hcur); [done|]. by rewrite Hc in Hcur.
  - intros ttl now c a. destruct (Leases.renew l ttl now c a t) as [r t3] eqn:Hr.
    apply lease_renew_cases in Hr as [[_ ?]|(e & d & Hcur & _)]; [done|]. by rewrite Hc in Hcur.
  - intros now a. destruct (Leases.release l now a t) as [r t3] eqn:Hr.
    apply lease_release_cases in Hr as [[_ ?]|(Hcur & _)]; [done|]. by rewrite Hc in Hcur.
  - destruct (Leases.revoke l t) as [r t3] eqn:Hr.
    apply lease_revoke_cases in Hr as [[_ ?]|((y & Hy & <-) & _)]; [done|]. by apply Hno in Hy.
Qed.

(** [release] or [revoke] succeeded for the token. *)
Definition dropped (l : PeerLease) (t t' : LeaseTable) : Prop :=
  (∃ now a, Leases.release l now a t = (Ok (), t')) ∨ Leases.revoke l t = (Ok (), t').

Lemma dropped_no_lease ids l t t' :
  table_wf ids t → dropped l t t' → pl_lease_id l ∈ ids ∧ no_lease (pl_lease_id l) t'.
Proof.
  intros Hwf Hd. assert (∃ x, lt_active t !! pl_device_key l = Some x ∧ al_token x = l ∧
    t' = set_active (delete (pl_device_key l)) t) as (x & Hx & <- & ->).
  { destruct Hd as [(now & a & Hd)|Hd].
    - apply lease_release_cases in Hd as [[_ ?]|((x & ? & ? & _)%is_current_spec & _ & ->)];
        [done|eauto].
    - apply lease_revoke_cases in Hd as [[_ ?]|((x & ? & ?) & _ & ->)]; [done|eauto]. }
  split; [by destruct (tw_token _ _ Hwf _ _ Hx) as (_ & _ & _ & ?)|].
  intros k' x'. cbn. intros [Hne Hx']%lookup_delete_Some He. apply Hne.
  symmetry. by eapply (tw_unique _ _ Hwf).
Qed.

(** A released or revoked lease is dead. Whatever operations follow, no
    token with its lease id is authorized, renewed, released or revoked
    again. *)
Theorem dropped_lease_stays_stale ops0 ops t l t1 l' :
  lease_reachable ops0 t → fresh_ids (ops0 ++ ops) → dropped l t t1 →
  pl_lease_id l' = pl_lease_id l →
  let t2 := lease_run ops t1 in
  (∀ now a, is_ok (fst (Leases.authorize l' now a t2)) = false) ∧
  (∀ ttl now c a, is_ok (fst (Leases.renew l' ttl now c a t2)) = false) ∧
  (∀ now a, is_ok (fst (Leases.release l' now a t2)) = false) ∧
  is_ok (fst (Leases.revoke l' t2)) = false.
Proof.
  intros Hr [Hnd _] Hd Hid t2. apply no_lease_refused. rewrite Hid.
  destruct (dropped_no_lease _ _ _ _ (lease_reachable_wf _ _ Hr) Hd) as [Hin Hno].
  apply run_no_lease; [done|]. unfold drawn_ids in Hnd. rewrite bind_app in Hnd.
  apply NoDup_app in Hnd as (_ & Hdisj & _). by apply Hdisj.
Qed.

(** ** The ledger against a window of first-seen calls *)

Section LedgerSpec.
Context {Fingerprint : Type} `{EqDecision Fingerprint}.
Context (digest : list N → Fingerprint).

Definition ledger0 : LedgerState (Fingerprint := Fingerprint) := mkLedgerState [] ∅.

Fixpoint ledger_run (requests : list (Uuid * list N)) (s : LedgerState (Fingerprint := Fingerprint))
    : LedgerState :=
  match requests with
  | [] => s
  | (id, body) :: rest => ledger_run rest (snd (ledger_register digest id body s))
  end.

(** The window holds the first-seen calls, oldest first. *)
Definition window := list (Uuid * Fingerprint).

(** A new call enters at the end; the oldest leaves a full window. *)
Definition window_push (id : Uuid) (body : list N) (w : window) : window :=
  drop (S (length w) - MAX_LEDGER_CALLS) w ++ [(id, digest body)].

(** What the ledger should answer: the window decides. *)
Definition window_register (id : Uuid) (body : list N) (w : window)
    : CallLedgerDecision * window :=
  if id =? 0 then (Conflict, w) else
  match List.find (λ p, fst p =? id) w with
  | Some (_, fp) => (if bool_decide (fp = digest body) then Duplicate else Conflict, w)
  | None => (FirstSeen, window_push id body w)
  end.

Definition window_of (s : LedgerState (Fingerprint := Fingerprint)) (w : window) : Prop :=
  led_order s = w.*1 ∧ led_fingerprints s = list_to_map w ∧ NoDup w.*1 ∧
  (length w <= MAX_LEDGER_CALLS)%nat.

Lemma find_window (w : window) id :
  NoDup w.*1 →
  snd <$> List.find (λ p, fst p =? id) w = (list_to_map w : gmap Uuid Fingerprint) !! id.
Proof.
  induction w as [|[i f] w IH]; cbn; [by rewrite lookup_empty|].
  intros [Hi Hnd]%NoDup_cons. destruct (N.eqb_spec i id) as [->|].
  - by rewrite lookup_insert_eq.
  - rewrite lookup_insert_ne by done. by apply IH.
Qed.

Lemma evict_window s w :
  window_of s w →
  let s' := if bool_decide (length (led_order s) = MAX_LEDGER_CALLS)
            then match led_order s with
                 | [] => s
                 | evicted :: order => mkLedgerState order (delete evicted (led_fingerprints s))
                 end
            else s in
  let w' := drop (S (length w) - MAX_LEDGER_CALLS) w in
  window_of s' w' ∧ (length w' < MAX_LEDGER_CALLS)%nat.
Proof.
  intros (Ho & Hf & Hnd & Hl). cbn zeta. rewrite Ho, length_fmap.
  case_bool_decide as Hfull.
  - replace (S (length w) - MAX_LEDGER_CALLS)%nat with 1%nat by lia.
    destruct w as [|[i f] w]; [done|]. rewrite fmap_cons in Hnd. apply NoDup_cons in Hnd as [Hi Hnd].
    rewrite length_cons in Hfull. rewrite skipn_cons, drop_0, fmap_cons.
    split; [|lia]. split_and!; cbn [led_order led_fingerprints]; [done| |done|lia].
    rewrite Hf. apply delete_insert_id. by apply not_elem_of_list_to_map_1.
  - replace (S (length w) - MAX_LEDGER_CALLS)%nat with 0%nat by lia. rewrite drop_0.
    split; [done|lia].
Qed.

Lemma window_append s w id fp :
  window_of s w → (length w < MAX_LEDGER_CALLS)%nat → id ∉ w.*1 →
  window_of (mkLedgerState (led_order s ++ [id]) (<[id := fp]> (led_fingerprints s)))
    (w ++ [(id, fp)]).
Proof.
  intros (Ho & Hf & Hnd & Hl) Hlt Hid. split_and!; cbn.
  - by rewrite Ho, fmap_app.
  - rewrite Hf, list_to_map_snoc by done. done.
  - rewrite fmap_app. apply NoDup_app. split_and!; [done|set_solver|apply NoDup_singleton].
  - rewrite length_app. cbn. lia.
Qed.

(** The ledger answers what the window answers. *)
Lemma ledger_register_window s w id body :
  window_of s w →
  fst (ledger_register digest id body s) = fst (window_register id body w) ∧
  window_of (snd (ledger_register digest id body s)) (snd (window_register id body w)).
Proof.
  intros Hw. pose proof Hw as (Ho & Hf & Hnd & Hl).
  unfold ledger_register, window_register. destruct (id =? 0); [done|].
  assert (led_fingerprints s !! id = snd <$> List.find (λ p, fst p =? id) w) as Hfind
    by (rewrite Hf; by rewrite find_window).
  rewrite Hfind.
  destruct (List.find (λ p, fst p =? id) w) as [[i fp]|]; cbn; [done|]. split; [done|].
  destruct (evict_window s w Hw) as [Hw' Hlt]. apply window_append; [done..|].
  cbn in Hfind. rewrite Hf in Hfind.
  apply not_elem_of_list_to_map_2 in Hfind. rewrite fmap_drop. intros Hin. apply Hfind.
  rewrite <- (take_drop (S (length w) - MAX_LEDGER_CALLS) w.*1).
  apply elem_of_app. by right.
Qed.

Lemma ledger_run_window requests s w :
  window_of s w → ∃ w', window_of (ledger_run requests s) w'.
Proof.
  revert s w. induction requests as [|[id body] requests IH]; intros s w Hw; cbn; [eauto|].
  eapply IH, ledger_register_window, Hw.
Qed.

(** The call is in the window with at most [n] younger ones. *)
Definition recent (id : Uuid) (fp : Fingerprint) (n : nat) (w : window) : Prop :=
  ∃ old young, w = old ++ (id, fp) :: young ∧ (length young <= n)%nat.

Lemma window_register_recent id fp n w id' body' :
  (length w <= MAX_LEDGER_CALLS)%nat → (S n < MAX_LEDGER_CALLS)%nat → recent id fp n w →
  recent id fp (S n) (snd (window_register id' body' w)).
Proof.
  intros Hl Hn (old & young & -> & Hy). unfold window_register.
  destruct (id' =? 0); [by eexists _, _; eauto with lia|].
  destruct (List.find _ _) as [[? ?]|]; [by eexists _, _; eauto with lia|].
  cbn [snd]. unfold window_push. rewrite length_app, length_cons in *.
  rewrite drop_app_le by lia. rewrite <- app_assoc, <- app_comm_cons.
  eexists _, _. split; [done|]. rewrite length_app. cbn. lia.
Qed.

Lemma ledger_run_recent requests s w id fp n :
  window_of s w → recent id fp n w → (length requests + n < MAX_LEDGER_CALLS)%nat →
  ∃ w', window_of (ledger_run requests s) w' ∧ recent id fp (length requests + n) w'.
Proof.
  revert s w n. induction requests as [|[id' body'] requests IH]; intros s w n Hw Hr Hn.
  { by exists w. }
  rewrite length_cons in *. replace (S (length requests) + n)%nat
    with (length requests + S n)%nat by lia.
  eapply IH; [by apply ledger_register_window| |lia].
  apply window_register_recent; [apply Hw|lia|done].
Qed.

Lemma recent_decision id fp n w body :
  id ≠ 0 → NoDup w.*1 → recent id fp n w →
  fst (window_register id body w) = if bool_decide (fp = digest body) then Duplicate else Conflict.
Proof.
  intros Hid Hnd (old & young & -> & _). unfold window_register.
  destruct (N.eqb_spec id 0); [done|].
  pose proof (find_window _ id Hnd) as Hf.
  rewrite (elem_of_list_to_map_1 _ id fp) in Hf by (done || set_solver).
  destruct (List.find _ _) as [[? ?]|]; [|done]. by injection Hf as ->.
Qed.

(** The call ledger catches every repeat inside its window. Once a call
    id was registered as first seen, then after fewer than 1,024 further
    registrations of any kind, registering the id again is a duplicate when
    the request has the same fingerprint and a conflict when it has not; it
    is never first seen again. *)
Theorem ledger_detects_repeats before mid id body body' :
  let s0 := ledger_run before ledger0 in
  fst (ledger_register digest id body s0) = FirstSeen →
  (length mid < MAX_LEDGER_CALLS)%nat →
  fst (ledger_register digest id body' (ledger_run ((id, body) :: mid) s0)) =
    if bool_decide (digest body = digest body') then Duplicate else Conflict.
Proof.
  intros s0 Hfirst Hmid. destruct (ledger_run_window before ledger0 []) as [w Hw].
  { split_and!; [done..|constructor|cbn; lia]. }
  fold s0 in Hw. destruct (ledger_register_window s0 w id body Hw) as [Hd Hw1].
  rewrite Hfirst in Hd. unfold window_register in Hd, Hw1.
  destruct (N.eqb_spec id 0) as [|Hid]; [done|].
  destruct (List.find _ _) as [[? ?]|]; cbn in Hd; [by case_bool_decide|].
  destruct (ledger_run_recent mid _ _ id (digest body) 0 Hw1) as (w2 & Hw2 & Hr2);
    [by eexists _, []; cbn; eauto|lia|]. cbn [ledger_run].
  destruct (ledger_register_window _ w2 id body' Hw2) as [-> _].
  eapply recent_decision; [done|apply Hw2|done].
Qed.

End LedgerSpec.

(** ** Witnesses *)

(** A node with two devices, one of them leased to alice. *)
Definition node_table : LeaseTable := mkLeaseTable 1 {["pixel-8"; "ipad"]} ∅.
Definition alice_acquires : LeaseOp := LAcquire 501 "pixel-8" "alice" 60000 1000 0 5.
Definition alice_lease : PeerLease := mkPeerLease 501 "pixel-8" "alice" 1 61000.
Definition alice_table : LeaseTable := lease_run [alice_acquires] node_table.

Definition bob_tries : list LeaseOp :=
  [LAcquire 502 "pixel-8" "bob" 60000 2000 6 7; LAcquire 503 "ipad" "bob" 60000 2000 8 9;
   LRelease (mkPeerLease 502 "pixel-8" "bob" 1 62000) 2000 10].

Lemma node_table_reachable : lease_reachable [] node_table.
Proof.
  exists 1, ["pixel-8"; "ipad"], node_table.
  split_and!; [by vm_compute|split; [constructor|set_solver]|done].
Qed.

Lemma alice_table_reachable : lease_reachable [alice_acquires] alice_table.
Proof.
  exists 1, ["pixel-8"; "ipad"], node_table.
  split_and!; [by vm_compute|split; [apply NoDup_singleton|set_solver]|done].
Qed.

Lemma lease_excludes_other_owners_witness :
  is_ok (fst (Leases.acquire 504 "pixel-8" "bob" 60000 3000 11 12
    (lease_run bob_tries alice_table))) = false ∧
  fst (Leases.authorize alice_lease 3000 11 (lease_run bob_tries alice_table)) = Ok ().
Proof.
  destruct (lease_excludes_other_owners [] 501 "pixel-8" "alice" 60000 1000 0 5 node_table
    alice_lease alice_table (5 + from_millis 60000) bob_tries) as (Hother & _ & Hself).
  - exact node_table_reachable.
  - split; [apply NoDup_singleton|set_solver].
  - by vm_compute.
  - by vm_compute.
  - repeat constructor; done.
  - split; [apply Hother|apply Hself]; done.
Defined.

Lemma dropped_lease_stays_stale_witness :
  let t1 := lease_step (LRelease alice_lease 2000 9) alice_table in
  is_ok (fst (Leases.authorize alice_lease 3000 11 (lease_run bob_tries t1))) = false.
Proof.
  intros t1.
  destruct (dropped_lease_stays_stale [alice_acquires] bob_tries alice_table alice_lease t1
    alice_lease) as (Hauthorize & _).
  - exact alice_table_reachable.
  - split; by apply (bool_decide_unpack _); vm_compute.
  - left. exists 2000, 9. by vm_compute.
  - reflexivity.
  - apply Hauthorize.
Defined.

(** With a checksum for a digest, a repeat after another call is caught. *)
Lemma ledger_detects_repeats_witness :
  fst (ledger_register (foldr N.add 0) 7 [1; 2]
    (ledger_run (foldr N.add 0) [(7, [1; 2]); (8, [3])] ledger0)) = Duplicate ∧
  fst (ledger_register (foldr N.add 0) 7 [9]
    (ledger_run (foldr N.add 0) [(7, [1; 2]); (8, [3])] ledger0)) = Conflict.
Proof.
  split.
  - pose proof (ledger_detects_repeats (foldr N.add 0) [] [(8, [3])] 7 [1; 2] [1; 2]) as H.
    rewrite bool_decide_true in H by reflexivity. apply H; [reflexivity|by apply Nat.ltb_lt].
  - pose proof (ledger_detects_repeats (foldr N.add 0) [] [(8, [3])] 7 [1; 2] [9]) as H.
    rewrite bool_decide_false in H by done. apply H; [reflexivity|by apply Nat.ltb_lt].
Defined.
