(* ===== verification/Async.v ===== *)
(** * Asynchronous programs

    An [async fn] of the source is a program that runs up to its next effect
    (an [.await] on another component, a read of a clock or of a shared
    cell), is suspended there while other tasks run, and goes on with the
    effect's result. [prog] is the syntax of such programs, [runs] their
    executions among other tasks, and [wp] the weakest precondition that
    reduces a statement about all executions to one goal per effect. *)

From S2P Require Import Prelude.

(** ** Programs over a signature of effects *)

Inductive prog (E : Type → Type) (A : Type) : Type :=
| Ret (a : A)
| Step (R : Type) (e : E R) (k : R → prog E A).
Arguments Ret {E A} a.
Arguments Step {E A} R e k.

#[global] Instance prog_ret {E} : MRet (prog E) := λ A, Ret.
#[global] Instance prog_bind {E} : MBind (prog E) := λ A B f,
  fix bind (p : prog E A) : prog E B :=
    match p with
    | Ret a => f a
    | Step R e k => Step R e (λ r, bind (k r))
    end.

(** One effect on its own. *)
Definition perform {E R} (e : E R) : prog E R := Step R e Ret.

(** [expr?] inside a function that returns a [Result]. *)
Definition try_bind {E Er A B} (f : A → prog E (result Er B)) (p : prog E (result Er A))
    : prog E (result Er B) :=
  p ≫= λ r, match r with Ok a => f a | Err e => Ret (Err e) end.

Notation "x ←? p ; k" := (try_bind (λ x, k) p)
  (at level 20, p at level 100, k at level 200, only parsing) : rail_scope.
Notation "'try!' p ; k" := (try_bind (λ _, k) p)
  (at level 100, p at level 99, k at level 200, right associativity, only parsing)
  : rail_scope.

(** ** Executions

    The world is what the effects act on; [env] is one step of the other
    tasks, which may run whenever the program is suspended. *)

Section Semantics.
Context {E : Type → Type} {W : Type}.
Context (step : ∀ R, E R → W → R → W → Prop) (env : W → W → Prop).

Inductive runs {A} : prog E A → W → A → W → Prop :=
| runs_ret a w : runs (Ret a) w a w
| runs_step R (e : E R) k w w1 r w2 a w' :
    rtc env w w1 → step R e w1 r w2 → runs (k r) w2 a w' → runs (Step R e k) w a w'.

Fixpoint wp {A} (p : prog E A) (Q : A → W → Prop) (w : W) : Prop :=
  match p with
  | Ret a => Q a w
  | Step R e k => ∀ w1 r w2, rtc env w w1 → step R e w1 r w2 → wp (k r) Q w2
  end.

Lemma wp_sound {A} (p : prog E A) Q w a w' : wp p Q w → runs p w a w' → Q a w'.
Proof. intros Hwp Hr. induction Hr; cbn in Hwp; eauto. Qed.

Lemma wp_bind {A B} (p : prog E A) (f : A → prog E B) Q w :
  wp p (λ a, wp (f a) Q) w → wp (p ≫= f) Q w.
Proof.
  revert w. induction p as [a|R e k IH]; intros w Hp; [done|].
  intros w1 r w2 Henv Hstep. apply IH. by eapply Hp.
Qed.

Lemma wp_mono {A} (p : prog E A) (Q Q' : A → W → Prop) w :
  wp p Q w → (∀ a w', Q a w' → Q' a w') → wp p Q' w.
Proof.
  revert w. induction p as [a|R e k IH]; intros w Hp HQ; [by apply HQ|].
  intros w1 r w2 Henv Hstep. eapply IH; eauto.
Qed.

Lemma wp_try {Er A B} (p : prog E (result Er A)) (f : A → prog E (result Er B)) Q w :
  wp p (λ r w', match r with Ok a => wp (f a) Q w' | Err e => Q (Err e) w' end) w →
  wp (try_bind f p) Q w.
Proof. intros Hp. apply wp_bind. eapply wp_mono; [done|]. by intros [] w'. Qed.

(** Running a program alone, with a function that answers its effects. *)
Fixpoint exec {A} (h : ∀ R, E R → W → option (R * W)) (p : prog E A) (w : W) : option (A * W) :=
  match p with
  | Ret a => Some (a, w)
  | Step R e k => '(r, w') ← h R e w; exec h (k r) w'
  end.

Lemma exec_runs {A} h (p : prog E A) w a w' :
  (∀ R (e : E R) w r w', h R e w = Some (r, w') → step R e w r w') →
  exec h p w = Some (a, w') → runs p w a w'.
Proof.
  intros Hh. revert w. induction p as [b|R e k IH]; cbn; intros w.
  - intros [= <- <-]. apply runs_ret.
  - intros ([r w1] & He & Hk)%bind_Some. eapply runs_step; [apply rtc_refl|by apply Hh|].
    by apply IH.
Qed.

(** An invariant that the other tasks keep survives a suspension. *)
Lemma env_invariant (I : W → Prop) w w' :
  (∀ x y, I x → env x y → I y) → rtc env w w' → I w → I w'.
Proof. intros HI. induction 1; eauto. Qed.
End Semantics.

Lemma prog_bind_ret {E A B} (a : A) (f : A → prog E B) : Ret a ≫= f = f a.
Proof. done. Qed.

Lemma prog_bind_step {E A B} R (e : E R) k (f : A → prog E B) :
  Step R e k ≫= f = Step R e (λ r, k r ≫= f).
Proof. done. Qed.

(** ** Asynchronous methods on locked state

    A method that holds a [Mutex] guard over its awaits transforms the state
    behind it; an early return keeps the state reached so far. *)

Definition AM (E : Type → Type) (S Er A : Type) : Type := S → prog E (result Er A * S).

#[global] Instance AM_ret {E S Er} : MRet (AM E S Er) := λ A a s, Ret (Ok a, s).
#[global] Instance AM_bind {E S Er} : MBind (AM E S Er) := λ A B f m s,
  m s ≫= λ '(r, s'), match r with Ok a => f a s' | Err e => Ret (Err e, s') end.

Definition am_get {E S Er} : AM E S Er S := λ s, Ret (Ok s, s).
Definition am_modify {E S Er} (f : S → S) : AM E S Er () := λ s, Ret (Ok (), f s).
Definition am_lift {E S Er A} (r : result Er A) : AM E S Er A := λ s, Ret (r, s).
(** An effect whose result is a [Result], with [?]. *)
Definition am_try {E S Er Er' A} (f : Er' → Er) (e : E (result Er' A)) : AM E S Er A :=
  λ s, Step _ e (λ r, Ret (map_err f r, s)).
(** Any other effect. *)
Definition am_effect {E S Er R} (e : E R) : AM E S Er R := λ s, Step R e (λ r, Ret (Ok r, s)).

Section AM_rules.
Context {E : Type → Type} {W : Type}.
Context (step : ∀ R, E R → W → R → W → Prop) (env : W → W → Prop).

Lemma wp_am_bind {S Er A B} (m : AM E S Er A) (f : A → AM E S Er B) Q s w :
  wp step env (m s) (λ rs w', match rs.1 with
    | Ok a => wp step env (f a rs.2) Q w' | Err e => Q (Err e, rs.2) w' end) w →
  wp step env ((m ≫= f) s) Q w.
Proof.
  intros Hm. apply wp_bind. eapply wp_mono; [done|]. by intros [[] s'] w'.
Qed.
End AM_rules.
