(* ===== verification/Control.v ===== *)
(** * Request control: cancellation and deadlines

    [crates/core/src/control.rs]: the cancellation cell shared by every clone
    of an [ExecutionControl], and deadlines that a derived control can shorten
    but never extend. The cells are kept in a table by their address; reading
    the clock is an argument. *)

From S2P Require Import Prelude Protocol.
From stdpp Require Import pretty.

Local Open Scope N_scope.

Inductive CancellationReason := Requested | Shutdown.

#[global] Instance CancellationReason_eq_dec : EqDecision CancellationReason.
Proof. solve_decision. Defined.

(** [CancellationReason::as_str] *)
Definition reason_as_str (r : CancellationReason) : string :=
  match r with Requested => "requested" | Shutdown => "shutdown" end.

Inductive TimeoutScope := Scope_Request | Scope_Action | Scope_Shutdown.

#[global] Instance TimeoutScope_eq_dec : EqDecision TimeoutScope.
Proof. solve_decision. Defined.

(** [TimeoutScope::as_str] *)
Definition scope_as_str (s : TimeoutScope) : string :=
  match s with
  | Scope_Request => "request"
  | Scope_Action => "action"
  | Scope_Shutdown => "shutdown"
  end.

Record ExecutionDeadline := mkExecutionDeadline {
  ed_started_at : Instant;
  ed_duration : N;
  ed_timeout_ms : N;
  ed_scope : TimeoutScope;
}.

(** [ExecutionDeadline::remaining_at]; subtraction on [N] saturates at zero,
    as [checked_duration_since(..).unwrap_or_default()] and
    [saturating_sub] do. *)
Definition remaining_at (d : ExecutionDeadline) (now : Instant) : N :=
  let elapsed := now - ed_started_at d in
  ed_duration d - elapsed.

(** The [Mutex<Option<CancellationReason>>] of every [CancellationState] *)
Abbreviation CellId := N.
Abbreviation Cells := (gmap CellId CancellationReason).

Record ExecutionControl := mkExecutionControl {
  ec_cancellation : CellId;
  ec_deadline : option ExecutionDeadline;
}.

(** [ExecutionController::cancel]: whether this call set the reason. *)
Definition cancel (cell : CellId) (reason : CancellationReason) (cells : Cells) : bool * Cells :=
  match cells !! cell with
  | Some _ => (false, cells)
  | None => (true, <[cell := reason]> cells)
  end.

(** [ExecutionControl::cancellation_reason] and [is_cancelled] *)
Definition cancellation_reason (c : ExecutionControl) (cells : Cells) : option CancellationReason :=
  cells !! ec_cancellation c.
Definition is_cancelled (c : ExecutionControl) (cells : Cells) : bool :=
  bool_decide (is_Some (cancellation_reason c cells)).

(** [ExecutionControl::with_timeout] at the instant [now] *)
Definition with_timeout (c : ExecutionControl) (now : Instant) (timeout_ms : N)
    (scope : TimeoutScope) : ExecutionControl :=
  let candidate :=
    {| ed_started_at := now;
       ed_duration := from_millis timeout_ms;
       ed_timeout_ms := timeout_ms;
       ed_scope := scope |} in
  let deadline :=
    match ec_deadline c with
    | Some existing =>
        if ed_duration candidate <? remaining_at existing now
        then Some candidate else Some existing
    | None => Some candidate
    end in
  mkExecutionControl (ec_cancellation c) deadline.

(** [ExecutionControl::is_expired], [timeout] and [remaining] *)
Definition is_expired (c : ExecutionControl) (now : Instant) : bool :=
  match ec_deadline c with
  | Some deadline => remaining_at deadline now =? 0
  | None => false
  end.
Definition timeout (c : ExecutionControl) : option (TimeoutScope * N) :=
  (λ d, (ed_scope d, ed_timeout_ms d)) <$> ec_deadline c.
Definition remaining (c : ExecutionControl) (now : Instant) : option N :=
  (λ d, remaining_at d now) <$> ec_deadline c.

(** ** Lemmas *)

Lemma remaining_at_mono d t t' : t <= t' → remaining_at d t' <= remaining_at d t.
Proof. unfold remaining_at. lia. Qed.

(** Once a deadline has passed, it has passed for good. *)
Lemma is_expired_mono c t t' : t <= t' → is_expired c t = true → is_expired c t' = true.
Proof.
  unfold is_expired. destruct (ec_deadline c) as [d|]; [|done].
  intros Ht. pose proof (remaining_at_mono d t t' Ht). rewrite !N.eqb_eq. lia.
Qed.

(** A derived control never outlives its parent nor its own timeout, given
    the monotonic clock. *)
Lemma with_timeout_shortens c now timeout_ms scope t r :
  from_option (λ d, ed_started_at d <= now) True (ec_deadline c) → now <= t → remaining (with_timeout c now timeout_ms scope) t = Some r →
  r <= from_millis timeout_ms - (t - now) ∧
  from_option (λ parent, r <= parent) True (remaining c t).
Proof.
  intros Hd Ht. unfold with_timeout, remaining. destruct (ec_deadline c) as [d|]; cbn in *.
  - destruct (N.ltb_spec (from_millis timeout_ms) (remaining_at d now));
      intros [= <-]; unfold remaining_at in *; cbn; lia.
  - intros [= <-]. unfold remaining_at. cbn. lia.
Qed.

(** The first cancellation wins, whatever is signalled later. *)
Lemma cancel_first_wins cell reason cells other reason' :
  snd (cancel other reason' (snd (cancel cell reason cells))) !! cell =
  Some (default reason (cells !! cell)).
Proof.
  unfold cancel. destruct (cells !! cell) as [r|] eqn:Hc; cbn.
  - destruct (cells !! other) eqn:Ho; cbn; [done|].
    by rewrite lookup_insert_ne by congruence.
  - destruct (decide (other = cell)) as [->|].
    + by rewrite lookup_insert_eq; cbn; rewrite lookup_insert_eq.
    + destruct (_ !! other); cbn; [by rewrite lookup_insert_eq|].
      by rewrite lookup_insert_ne, lookup_insert_eq by done.
Qed.
