(* ===== verification/StoreFrame.v ===== *)
(** * What the Event Store keeps while others use it

    A task that has reserved a lease, started an action or opened a media
    stream shares the store with other tasks. The lemmas of this file say how
    one operation can change one Session's log, and what a task can rely on
    as long as the others leave its lease, its call or its stream alone. *)

From S2P Require Import Prelude Protocol Evidence EventStream EventStore.
From S2P Require Import EventLog EventStoreInv EventStoreProps.

Local Open Scope N_scope.

(** ** One operation and one log *)

Inductive log_step (sid : SessionId) (op : StoreOp) (log : SessionLog) : SessionLog → Prop :=
| step_same : log_step sid op log log
| step_observations f : log_step sid op log (set_observations f log)
| step_shutdown : log_step sid op log (send SigStoreShutdown log)
| step_append eid p sequence t :
    op = OpAppend eid p → pe_session_id p = sid → si_state (log_info log) = Active →
    next_sequence log = Ok sequence → decide_append log p = Ok (Proceed t) →
    log_step sid op log (appended (event_of eid sequence p) t log)
| step_end eid c sequence :
    op = OpEnd eid c → log_in_flight_observations log = ∅ → log_in_flight log = ∅ →
    log_media_streams log = ∅ →
    log_step sid op log (ended (end_event eid sequence c) (end_at_ms c) log).

Lemma lookup_update_step st sid op k log log' :
  st_sessions st !! sid = Some log → (k = sid → log_step sid op log log') →
  ∃ l, <[k := log']> (st_sessions st) !! sid = Some l ∧ log_step sid op log l.
Proof.
  intros Hl Hs. destruct (decide (k = sid)) as [->|].
  - rewrite lookup_insert_eq. eauto.
  - rewrite lookup_insert_ne by done. eauto using step_same.
Qed.

Lemma apply_op_log op st sid log :
  store_wf st → st_sessions st !! sid = Some log →
  (∃ log', st_sessions (apply_op op st) !! sid = Some log' ∧ log_step sid op log log') ∨
  (op = OpDelete sid ∧ si_state (log_info log) = Ended).
Proof.
  intros Hwf Hl.
  assert (∃ l, st_sessions st !! sid = Some l ∧ log_step sid op log l) as Hsame
    by eauto using step_same.
  destruct op as [eid c|draws k|k lease|eid p|eid c|k|]; cbn.
  - destruct (start_session eid c st) eqn:H. left.
    apply start_cases in H as [[-> _]|(? & ? & Hf & _ & ->)]; [done|].
    apply lookup_update_step; [done|]. intros <-.
    apply elem_of_dom_2, (sw_used _ Hwf) in Hl. done.
  - destruct (reserve_observation draws k st) eqn:H. left.
    apply reserve_cases in H as [[-> _]|(l & ? & _ & _ & Hk & _ & _ & ->)]; [done|].
    apply lookup_update_step; [done|]. intros ->. simplify_eq. apply step_observations.
  - destruct (release_observation k lease st) eqn:H. left.
    apply release_cases in H as [[-> _]|(l & _ & Hk & _ & _ & ->)]; [done|].
    apply lookup_update_step; [done|]. intros ->. simplify_eq. apply step_observations.
  - destruct (append eid p st) eqn:H. left.
    apply append_cases in H as [[-> _]|(l & q & t & Ho & ? & ? & ? & _ & ->)]; [done|].
    apply lookup_update_step; [done|]. intros <-. destruct Ho as (_ & _ & _ & Ho).
    simplify_eq. by eapply step_append.
  - destruct (end_session eid c st) eqn:H. left.
    apply end_cases in H
      as [[-> _]|(l & q & _ & _ & Hk & _ & _ & ? & ? & ? & _ & ->)]; [done|].
    apply lookup_update_step; [done|]. intros <-. simplify_eq. by eapply step_end.
  - destruct (delete_ended k st) eqn:H.
    apply delete_cases in H as [[-> _]|(l & _ & Hk & He & ->)]; [by left|]. cbn.
    destruct (decide (k = sid)) as [->|]; [right; by simplify_eq|].
    left. rewrite lookup_delete_ne by done. eauto using step_same.
  - left. unfold begin_stream_shutdown, mbind, M_bind, get. cbn.
    destruct (st_stream_shutdown st); [done|]. cbn. rewrite lookup_fmap, Hl.
    eauto using step_shutdown.
Qed.

(** ** Actions in flight *)

Definition in_flight (sid : SessionId) (id : Uuid) (c : ActionCorrelation)
    (st : MemoryEventStore) : Prop :=
  ∃ log, st_sessions st !! sid = Some log ∧ log_in_flight log !! id = Some c.

(** The operation completes the call. *)
Definition completes (id : Uuid) (op : StoreOp) : bool :=
  match op with
  | OpAppend _ p =>
      match pe_payload p with ActionCompleted i _ => bool_decide (i = id) | _ => false end
  | _ => false
  end.

Lemma in_flight_seen b sid log id c :
  log_wf b sid log → log_in_flight log !! id = Some c → id ∈ log_seen_calls log.
Proof.
  intros Hwf Hc. pose proof (legal_call_history id _ (lw_legal _ _ _ Hwf)) as Hh.
  unfold call_history in Hh. rewrite <-(lw_tracking _ _ _ Hwf) in Hh. cbn in Hh.
  naive_solver.
Qed.

Lemma appended_in_flight b sid eid q p t log id c :
  log_wf b sid log → decide_append log p = Ok (Proceed t) →
  completes id (OpAppend eid p) = false → log_in_flight log !! id = Some c →
  log_in_flight (appended (event_of eid q p) t log) !! id = Some c.
Proof.
  intros Hwf Hd Hn Hc.
  pose proof (appended_tracking eid q p t log (media_positive_wf _ _ _ Hwf) Hd) as Ht.
  apply (f_equal tr_in_flight) in Ht. cbn [log_tracking tr_in_flight] in Ht. rewrite Ht.
  unfold completes in Hn. unfold decide_append in Hd. unfold track. cbn [ev_payload event_of].
  destruct (pe_payload p); try done; cbn.
  - case_bool_decide as Hs; [done|]. rewrite lookup_insert_ne; [done|]. intros <-.
    by eapply Hs, in_flight_seen.
  - case_bool_decide; [done|]. by rewrite lookup_delete_ne.
Qed.

(** An action stays in flight until somebody completes it. *)
Lemma apply_op_in_flight op st sid id c :
  store_wf st → in_flight sid id c st → completes id op = false →
  in_flight sid id c (apply_op op st).
Proof.
  intros Hwf (log & Hl & Hc) Hop. pose proof (sw_logs _ Hwf _ _ Hl) as Hlog.
  destruct (apply_op_log op st sid log Hwf Hl) as [(log' & Hl' & Hs)|[_ He]].
  - exists log'. split; [done|]. destruct Hs as [|f| |eid p q t -> _ _ _ Hd|eid e q -> _ Hi _].
    + done.
    + done.
    + done.
    + by eapply appended_in_flight.
    + rewrite Hi in Hc. done.
  - destruct (lw_quiescent _ _ _ Hlog He) as (Hi & _). by rewrite Hi in Hc.
Qed.

(** The conditions under which the store takes no more events. *)
Definition store_closed (sid : SessionId) (st : MemoryEventStore) : Prop :=
  st_stream_shutdown st = true ∨
  ∃ log, st_sessions st !! sid = Some log ∧ MAX_SAFE_INTEGER <= len (log_events log).

(** An event the log permits is refused only by a closed store. *)
Lemma append_permitted_or_closed eid p st log r st' :
  store_wf st → st_sessions st !! pe_session_id p = Some log →
  si_state (log_info log) = Active → pe_at_ms p <= MAX_SAFE_INTEGER →
  is_lifecycle (pe_payload p) = false →
  permitted (log_tracking log) (event_of eid (len (log_events log) + 1) p) →
  append eid p st = (r, st') →
  (∃ e, st' = st ∧ r = Err e ∧ store_closed (pe_session_id p) st) ∨
  (∃ t, let e := event_of eid (len (log_events log) + 1) p in
   r = Ok e ∧ decide_append log p = Ok (Proceed t) ∧ st_stream_shutdown st = false ∧
   st' = set_sessions <[pe_session_id p := appended e t log]> st).
Proof.
  intros Hwf Hl Ha Ht Hlc Hperm Hr. unfold store_closed.
  pose proof (sw_logs _ Hwf _ _ Hl) as Hlog.
  destruct (st_stream_shutdown st) eqn:Hs.
  { left. apply append_cases in Hr as [[-> He]|(l & q & t & (_ & _ & ? & _) & _)]; [|congruence].
    destruct r as [e|e]; [|eauto 10]. destruct (He e eq_refl) as (? & (_ & _ & ? & _) & _).
    congruence. }
  assert (append_open st p log) as Ho by done.
  destruct (N.lt_ge_cases (len (log_events log)) MAX_SAFE_INTEGER) as [Hlen|Hlen].
  - destruct (append_locked_permitted _ eid p log Hlog Ha Hlen Hperm) as (t & Hd & Hrun).
    rewrite (append_run _ _ _ _ Ho), Hrun in Hr. injection Hr as <- <-. right. eauto 10.
  - left. rewrite (append_run _ _ _ _ Ho) in Hr.
    assert (next_sequence log = Err (SequenceExhausted (si_id (log_info log)))) as Hn.
    { unfold next_sequence. rewrite (lw_last _ _ _ Hlog).
      destruct (EventSequence.checked_next _) eqn:Hc; [|done].
      apply checked_next_some in Hc. lia. }
    unfold append_locked, mbind, M_bind, get, lift, reject_if in Hr.
    rewrite Ha in Hr. cbn in Hr. rewrite Hn in Hr. cbn in Hr. injection Hr as <- <-.
    rewrite set_sessions_id by done. eauto 10.
Qed.

(** ** Observation leases *)

Definition lease_held (sid : SessionId) (lease : ObservationLease) (st : MemoryEventStore) : Prop :=
  st_observation_leases st !! lease = Some (mkObservationLeaseState sid false).

(** A lease is held until somebody releases it. *)
Lemma apply_op_held op st sid lease :
  store_wf st → lease_held sid lease st → (∀ k, op ≠ OpRelease k lease) →
  lease_held sid lease (apply_op op st).
Proof.
  unfold lease_held. intros Hwf Hl Hop.
  destruct op as [eid c|draws k|k l|eid p|eid c|k|]; cbn.
  - destruct (start_session eid c st) eqn:H.
    by apply start_cases in H as [[-> _]|(_ & _ & _ & _ & ->)].
  - destruct (reserve_observation draws k st) eqn:H.
    apply reserve_cases in H as [[-> _]|(? & l & _ & _ & _ & _ & Hn & ->)]; [done|].
    cbn. by rewrite lookup_insert_ne by congruence.
  - destruct (release_observation k l st) eqn:H.
    apply release_cases in H as [[-> _]|(? & _ & _ & Hl' & _ & ->)]; [done|]. cbn.
    rewrite lookup_insert_ne; [done|]. intros ->. by destruct (Hop k).
  - destruct (append eid p st) eqn:H.
    by apply append_cases in H as [[-> _]|(? & ? & ? & _ & _ & _ & _ & _ & ->)].
  - destruct (end_session eid c st) eqn:H.
    by apply end_cases in H
      as [[-> _]|(? & ? & _ & _ & _ & _ & _ & _ & _ & _ & _ & ->)].
  - destruct (delete_ended k st) eqn:H.
    apply delete_cases in H as [[-> _]|(log & _ & Hk & He & ->)]; [done|]. cbn.
    apply map_lookup_filter_Some. split; [done|]. cbn. intros <-.
    destruct (sw_lease_session _ Hwf _ _ Hl) as (log' & Hk' & Hin). cbn in *. simplify_eq.
    destruct (lw_quiescent _ _ _ (sw_logs _ Hwf _ _ Hk) He) as (_ & _ & Ho).
    specialize (Hin eq_refl). rewrite Ho in Hin. set_solver.
  - unfold begin_stream_shutdown, mbind, M_bind, get. cbn.
    by destruct (st_stream_shutdown st).
Qed.

(** The Session of a held lease is active. *)
Lemma lease_held_active sid lease st :
  store_wf st → lease_held sid lease st →
  ∃ log, st_sessions st !! sid = Some log ∧ si_state (log_info log) = Active ∧
    lease ∈ log_in_flight_observations log.
Proof.
  intros Hwf Hl. destruct (sw_lease_session _ Hwf _ _ Hl) as (log & Hk & Hin). cbn in *.
  exists log. specialize (Hin eq_refl). split_and!; [done| |done].
  apply not_ended. intros He.
  destruct (lw_quiescent _ _ _ (sw_logs _ Hwf _ _ Hk) He) as (_ & _ & Ho).
  rewrite Ho in Hin. set_solver.
Qed.

Lemma in_flight_active sid id c st :
  store_wf st → in_flight sid id c st →
  ∃ log, st_sessions st !! sid = Some log ∧ si_state (log_info log) = Active ∧
    log_in_flight log !! id = Some c.
Proof.
  intros Hwf (log & Hl & Hc). exists log. split_and!; [done| |done].
  apply not_ended. intros He.
  destruct (lw_quiescent _ _ _ (sw_logs _ Hwf _ _ Hl) He) as (Hi & _).
  by rewrite Hi in Hc.
Qed.

(** ** The history of one call *)

(** The call was started by the event [e] and is in flight; and: it was
    started by [e] and completed by [e'], once each. *)
Definition running (sid : SessionId) (id : Uuid) (e : TestEvent) (st : MemoryEventStore) : Prop :=
  ∃ log, st_sessions st !! sid = Some log ∧
    log_in_flight log !! id = Some (correlation e) ∧ starts id (log_events log) = [e].
Definition finished (sid : SessionId) (id : Uuid) (e e' : TestEvent) (st : MemoryEventStore)
    : Prop :=
  ∃ log, st_sessions st !! sid = Some log ∧ log_in_flight log !! id = None ∧
    starts id (log_events log) = [e] ∧ completions id (log_events log) = [e'].

Lemma log_call_history b sid log id :
  log_wf b sid log →
  ((id ∉ log_seen_calls log) ∧ starts id (log_events log) = [] ∧
   log_in_flight log !! id = None) ∨
  (∃ s, starts id (log_events log) = [s] ∧ completions id (log_events log) = [] ∧
   log_in_flight log !! id = Some (correlation s)) ∨
  (∃ s c, starts id (log_events log) = [s] ∧ completions id (log_events log) = [c] ∧
   log_in_flight log !! id = None).
Proof.
  intros Hwf. pose proof (legal_call_history id _ (lw_legal _ _ _ Hwf)) as Hh.
  unfold call_history in Hh. rewrite <-(lw_tracking _ _ _ Hwf) in Hh. cbn in Hh.
  destruct Hh as [(? & ? & ? & _)|[(_ & s & ? & ? & ?)|(_ & ? & s & c & _ & _ & _ & ? & ? & _)]];
    eauto 10.
Qed.

Lemma starts_prefix id l l' : l `prefix_of` l' → starts id l `prefix_of` starts id l'.
Proof.
  intros [k ->]. unfold starts. rewrite List.filter_app. by eexists.
Qed.

Lemma apply_op_running op st sid id e :
  store_wf st → running sid id e st → completes id op = false →
  running sid id e (apply_op op st).
Proof.
  intros Hwf (log & Hl & Hc & Hs) Hop.
  destruct (apply_op_in_flight op st sid id (correlation e)) as (log' & Hl' & Hc');
    [done|by exists log|done|].
  exists log'. split_and!; [done..|].
  destruct (log_call_history _ _ _ id (sw_logs _ (apply_op_wf op st Hwf) _ _ Hl'))
    as [(_ & _ & ?)|[(s & Hs' & _ & _)|(? & ? & _ & _ & ?)]]; [congruence| |congruence].
  destruct (apply_op_session op st sid log Hwf Hl) as [(l & Hl2 & [Hp _])|(_ & _ & ?)];
    [|congruence].
  rewrite Hl2 in Hl'. injection Hl' as <-. apply (starts_prefix id) in Hp as [k Hk].
  rewrite Hs, Hs' in Hk. injection Hk as <- _. done.
Qed.

(** A successful [ActionStarted] puts the call in flight. *)
Lemma append_action_started eid p st e st' call :
  store_wf st → append eid p st = (Ok e, st') → pe_payload p = ActionStarted call →
  e = event_of eid (ev_sequence e) p ∧ running (pe_session_id p) (rc_id call) e st'.
Proof.
  intros Hwf Happ Hp. pose proof (append_wf st eid p _ _ Hwf Happ) as Hwf'.
  apply append_cases in Happ as [[-> He]|(log & q & t & Ho & Ha & Hn & Hd & [= ->] & ->)].
  { destruct (He e eq_refl) as (log & _ & _ & _ & Hd). unfold decide_append in Hd.
    rewrite Hp in Hd. by case_bool_decide. }
  split; [done|]. set (e := event_of eid q p) in *. set (log' := appended e t log) in *.
  assert (log_in_flight log' !! rc_id call = Some (correlation e)) as Hc.
  { unfold decide_append in Hd. rewrite Hp in Hd. case_bool_decide; [done|].
    injection Hd as <-. apply lookup_insert_eq. }
  exists log'. split_and!; [apply lookup_insert_eq|done|].
  destruct (log_call_history _ _ _ (rc_id call) (sw_logs _ Hwf' _ log' (lookup_insert_eq _ _ _)))
    as [(_ & _ & ?)|[(s & Hs & _ & _)|(? & ? & _ & _ & ?)]]; [congruence| |congruence].
  rewrite Hs. destruct (appended_info e t log) as (_ & He & _). fold log' in He.
  rewrite He, starts_snoc in Hs. unfold starts in Hs at 2. cbn in Hs.
  rewrite Hp, bool_decide_refl in Hs. by destruct (starts _ _) as [|? []]; simplify_list_eq.
Qed.

(** A call in flight can be completed unless the store is closed. *)
Lemma append_action_completed eid p st r st' id o e :
  store_wf st → running (pe_session_id p) id e st → append eid p st = (r, st') →
  pe_payload p = ActionCompleted id o → pe_at_ms p <= MAX_SAFE_INTEGER →
  pe_request_id p = ev_request_id e → pe_device_id p = ev_device_id e →
  (∀ res, o = Succeeded res → res_call_id res = id) →
  (∃ err, r = Err err ∧ st' = st ∧ store_closed (pe_session_id p) st) ∨
  (∃ e', r = Ok e' ∧ e' = event_of eid (ev_sequence e') p ∧
   finished (pe_session_id p) id e e' st').
Proof.
  intros Hwf (log & Hl & Hc & Hs) Happ Hp Ht Hq Hd Ho.
  pose proof (append_wf st eid p _ _ Hwf Happ) as Hwf'.
  destruct (in_flight_active _ _ _ _ Hwf (ex_intro _ log (conj Hl Hc))) as (l & Hl' & Ha & _).
  rewrite Hl in Hl'. injection Hl' as <-.
  apply append_permitted_or_closed with (log := log) in Happ
    as [(err & -> & -> & ?)|(t & -> & Hdec & _ & ->)]; [|clear Hwf'|try done..].
  - left. eauto.
  - right. eexists. split; [done|]. set (e' := event_of _ _ p). split; [done|].
    destruct (appended_info e' t log) as (_ & He & _).
    exists (appended e' t log). split_and!; [apply lookup_insert_eq|..].
    + unfold decide_append in Hdec. rewrite Hp in Hdec.
      apply decide_action_completed_proceeds in Hdec as [-> _]. apply lookup_delete_eq.
    + rewrite He, starts_snoc, Hs. unfold starts. cbn. by rewrite Hp.
    + rewrite He, completions_snoc.
      destruct (log_call_history _ _ _ id (sw_logs _ Hwf _ log Hl))
        as [(_ & _ & ?)|[(s & _ & -> & _)|(? & ? & _ & _ & ?)]]; [congruence| |congruence].
      unfold completions. cbn. by rewrite Hp, bool_decide_refl.
  - by rewrite Hp.
  - unfold permitted. cbn. rewrite Hp, Hc. unfold correlation. cbn. rewrite Hq, Hd.
    split; [done|]. destruct o; auto.
Qed.

(** ** What a held lease keeps *)

Definition in_log (sid : SessionId) (e : TestEvent) (st : MemoryEventStore) : Prop :=
  ∃ log, st_sessions st !! sid = Some log ∧ e ∈ log_events log.

(** The lease was released and is no longer in flight. *)
Definition lease_released (sid : SessionId) (lease : ObservationLease) (st : MemoryEventStore)
    : Prop :=
  st_observation_leases st !! lease = Some (mkObservationLeaseState sid true) ∧
  ∀ k log, st_sessions st !! k = Some log → lease ∉ log_in_flight_observations log.

Lemma apply_op_shutdown op st :
  st_stream_shutdown st = true → st_stream_shutdown (apply_op op st) = true.
Proof.
  intros Hs. destruct op as [eid c|draws k|k l|eid p|eid c|k|]; cbn.
  - destruct (start_session eid c st) eqn:H.
    by apply start_cases in H as [[-> _]|(_ & ? & _ & _ & ->)].
  - destruct (reserve_observation draws k st) eqn:H.
    by apply reserve_cases in H as [[-> _]|(? & l & _ & _ & _ & _ & _ & ->)].
  - destruct (release_observation k l st) eqn:H.
    by apply release_cases in H as [[-> _]|(? & _ & _ & _ & _ & ->)].
  - destruct (append eid p st) eqn:H.
    by apply append_cases in H as [[-> _]|(? & ? & ? & _ & _ & _ & _ & _ & ->)].
  - destruct (end_session eid c st) eqn:H.
    by apply end_cases in H as [[-> _]|(? & ? & _ & _ & _ & _ & _ & _ & _ & _ & _ & ->)].
  - destruct (delete_ended k st) eqn:H.
    by apply delete_cases in H as [[-> _]|(? & _ & _ & _ & ->)].
  - unfold begin_stream_shutdown, mbind, M_bind, get. cbn. by rewrite Hs.
Qed.

(** The log of a Session that is not deleted only grows. *)
Lemma apply_op_grows op st sid log :
  store_wf st → st_sessions st !! sid = Some log → si_state (log_info log) = Active →
  ∃ log', st_sessions (apply_op op st) !! sid = Some log' ∧
    log_events log `prefix_of` log_events log'.
Proof.
  intros Hwf Hl Ha.
  destruct (apply_op_session op st sid log Hwf Hl) as [(l & ? & ? & _)|(_ & ? & _)];
    [eauto|congruence].
Qed.

Lemma apply_op_closed op st sid lease :
  store_wf st → lease_held sid lease st → store_closed sid st →
  store_closed sid (apply_op op st).
Proof.
  intros Hwf Hheld [Hs|(log & Hl & Hlen)]; [left; by apply apply_op_shutdown|right].
  destruct (lease_held_active _ _ _ Hwf Hheld) as (l & Hl' & Ha & _). simplify_eq.
  destruct (apply_op_grows op st sid log Hwf Hl Ha) as (log' & ? & [k Hk]).
  exists log'. split; [done|]. rewrite Hk, len_app. lia.
Qed.

Lemma apply_op_in_log op st sid lease e :
  store_wf st → lease_held sid lease st → in_log sid e st → in_log sid e (apply_op op st).
Proof.
  intros Hwf Hheld (log & Hl & He).
  destruct (lease_held_active _ _ _ Hwf Hheld) as (l & Hl' & Ha & _). simplify_eq.
  destruct (apply_op_grows op st sid log Hwf Hl Ha) as (log' & ? & [k Hk]).
  exists log'. split; [done|]. rewrite Hk. set_solver.
Qed.

(** Releasing a held lease succeeds and changes nothing else. *)
Lemma release_held sid lease st r st' :
  store_wf st → lease_held sid lease st → release_observation sid lease st = (r, st') →
  r = Ok () ∧ lease_released sid lease st' ∧
  (∀ e, in_log sid e st → in_log sid e st') ∧ (store_closed sid st → store_closed sid st').
Proof.
  intros Hwf Hheld Hrel. pose proof (release_wf _ _ _ _ _ Hwf Hrel) as Hwf'.
  destruct (release_succeeds _ _ _ _ Hwf Hheld) as (st2 & Hok & Hl & _).
  rewrite Hrel in Hok. injection Hok as -> ->. split; [done|].
  destruct (lease_held_active _ _ _ Hwf Hheld) as (log & Hlog & Ha & Hin). split.
  - split; [done|]. intros k l Hk Hf. rewrite (sw_in_flight _ Hwf' _ _ _ Hk Hf) in Hl. done.
  - apply release_cases in Hrel as [[-> H]|(l & _ & Hlog' & _ & _ & ->)]; [done|].
    simplify_eq. split.
    + intros e (l' & Hl' & He). simplify_eq. eexists. split; [apply lookup_insert_eq|done].
    + intros [?|(l' & Hl' & He)]; [by left|right]. simplify_eq.
      eexists. split; [apply lookup_insert_eq|done].
Qed.

(** Under a held lease an unconstrained event is recorded unless the store is
    closed. *)
Lemma append_under_lease eid p st r st' lease :
  store_wf st → lease_held (pe_session_id p) lease st → append eid p st = (r, st') →
  pe_at_ms p <= MAX_SAFE_INTEGER →
  match pe_payload p with ObservationCaptured _ | ErrorEvent _ => True | _ => False end →
  lease_held (pe_session_id p) lease st' ∧
  ((∃ err, r = Err err ∧ store_closed (pe_session_id p) st') ∨
   (∃ e q, r = Ok e ∧ e = event_of eid q p ∧ in_log (pe_session_id p) e st')).
Proof.
  intros Hwf Hheld Happ Ht Hp.
  destruct (lease_held_active _ _ _ Hwf Hheld) as (log & Hl & Ha & _).
  assert (is_lifecycle (pe_payload p) = false) as Hlc by (by destruct (pe_payload p)).
  apply append_permitted_or_closed with (log := log) in Happ
    as [(err & -> & -> & ?)|(t & -> & _ & _ & ->)]; try done.
  - eauto 10.
  - split; [done|right]. do 2 eexists. split_and!; [done..|].
    eexists. split; [apply lookup_insert_eq|].
    destruct (appended_info (event_of eid (len (log_events log) + 1) p) t log) as (_ & -> & _).
    set_solver.
  - unfold permitted. cbn. by destruct (pe_payload p).
Qed.
