(* ===== verification/Runtime.v ===== *)
(** * The device runtime

    [crates/core/src/lib.rs] with the operation contexts of
    [crates/core/src/session.rs]: [DeviceRuntime] sequences a Driver call, the
    validation of its result and the durable events of a Session under
    cancellation and deadlines. Its methods are asynchronous programs over
    the effects [RtE]: the Event Store, the clocks, the cancellation cell and
    the Driver, which may answer anything. *)

From S2P Require Import Prelude Protocol Evidence EventStream EventStore.
From S2P Require Import UiContract Control Async.
From stdpp Require Import pretty.

Local Open Scope N_scope.

(** ** Errors *)

Inductive DriverError :=
| DriverNotConnected (device_id : DeviceId)
| DriverUnknownAction (action : string)
| DriverInvalidArguments (action message : string)
| ElementNotFound
| ElementAmbiguous
| ElementStale
| ElementNotInteractable
| UiContextNotFound
| UiContextAmbiguous
| UiContextChanged
| SemanticChannelUnavailable
| DriverProtocol (message : string)
| DriverCancelled
| DriverTimedOut
| DriverPlatform (code : string) (retryable : bool)
| DriverInternal (message : string).

(** [Display] of [DriverError] *)
Definition driver_error_display (e : DriverError) : string :=
  match e with
  | DriverNotConnected d => "device " ++ d ++ " is not connected"
  | DriverUnknownAction a => "unknown action: " ++ a
  | DriverInvalidArguments a m => "invalid arguments for action " ++ a ++ ": " ++ m
  | ElementNotFound => "element was not found"
  | ElementAmbiguous => "element selector matched more than one element"
  | ElementStale => "element reference is stale"
  | ElementNotInteractable => "element is not interactable"
  | UiContextNotFound => "UI context was not found"
  | UiContextAmbiguous => "UI context selector matched more than one context"
  | UiContextChanged => "UI context changed"
  | SemanticChannelUnavailable => "semantic UI channel is unavailable"
  | DriverProtocol m => "protocol error: " ++ m
  | DriverCancelled => "driver operation was cancelled"
  | DriverTimedOut => "driver operation timed out"
  | DriverPlatform _ _ => "platform operation failed"
  | DriverInternal m => "internal driver error: " ++ m
  end%string.

(** [public_platform_code] *)
Definition public_platform_code (code : string) : string :=
  let is_stable :=
    negb (String.eqb code EmptyString) && (str_len code <=? 64) &&
    forallb (λ b, is_ascii_lowercase b || is_ascii_digit b ||
                  ((b =? 0x5F) || (b =? 0x2D) || (b =? 0x2E))) (bytes code) in
  if is_stable then code else "unknown".

(** [DriverError::to_error_info] *)
Definition driver_error_info (e : DriverError) : ErrorInfo :=
  let text key s := Some (JObject [(key, JString s)]) in
  let self := driver_error_display e in
  let '(code, message, retryable, details) :=
    match e with
    | DriverNotConnected device_id =>
        ("device_not_connected", self, true, text "deviceId" device_id)
    | DriverUnknownAction action =>
        ("unknown_action", self, false, text "action" action)
    | DriverInvalidArguments action _ =>
        ("invalid_arguments", "invalid arguments for action " ++ action, false,
         text "action" action)
    | ElementNotFound => ("element_not_found", self, false, None)
    | ElementAmbiguous => ("element_ambiguous", self, false, None)
    | ElementStale => ("element_stale", self, true, None)
    | ElementNotInteractable => ("element_not_interactable", self, false, None)
    | UiContextNotFound => ("ui_context_not_found", self, false, None)
    | UiContextAmbiguous => ("ui_context_ambiguous", self, false, None)
    | UiContextChanged => ("ui_context_changed", self, true, None)
    | SemanticChannelUnavailable => ("semantic_channel_unavailable", self, false, None)
    | DriverProtocol _ => ("protocol_error", "driver protocol error", false, None)
    | DriverCancelled => ("driver_cancelled", self, false, None)
    | DriverTimedOut => ("driver_timed_out", self, true, None)
    | DriverPlatform code retryable =>
        ("platform_error", self, retryable, text "platformCode" (public_platform_code code))
    | DriverInternal _ => ("internal_error", "internal driver error", true, None)
    end%string in
  mkErrorInfo code message retryable details.

Inductive DeviceOperationError :=
| OperationDriver (e : DriverError)
| OperationEvidence (e : EvidenceError).

Inductive RuntimeError :=
| RtDriver (e : DriverError)
| RtEventStore (e : EventStoreError)
| RtEvidence (e : EvidenceError)
| RtCancelled (reason : CancellationReason)
| RtTimedOut (scope : TimeoutScope) (timeout_ms : N).

Abbreviation DriverResult T := (result DriverError T).
Abbreviation DeviceOperationResult T := (result DeviceOperationError T).
Abbreviation RuntimeResult T := (result RuntimeError T).

(** ** Contexts ([session.rs]) *)

Inductive ScreenshotPolicy := Capture | Omit.

#[global] Instance ScreenshotPolicy_eq_dec : EqDecision ScreenshotPolicy.
Proof. solve_decision. Defined.

Record OperationContext := mkOperationContext {
  oc_session_id : SessionId;
  oc_request_id : option RpcId;
  oc_control : ExecutionControl;
  oc_action_timeout_ms : option N;
  oc_screenshot_policy_override : option ScreenshotPolicy;
  oc_ui_snapshots_enabled : bool;
  oc_semantic_actions_enabled : bool;
}.

(** [OperationContext::effective_screenshot_policy] *)
Definition effective_screenshot_policy (c : OperationContext) (runtime_policy : ScreenshotPolicy)
    : ScreenshotPolicy :=
  match runtime_policy, oc_screenshot_policy_override c with
  | Omit, _ | _, Some Omit => Omit
  | _, _ => Capture
  end.

(** [PendingEvent::for_operation] *)
Definition for_operation (context : OperationContext) (device_id : option DeviceId)
    (at_ms : N) (payload : TestEventPayload) : PendingEvent :=
  mkPendingEvent (oc_session_id context) (oc_request_id context) device_id at_ms payload.

Record DriverOperationContext := mkDriverOperationContext {
  dc_control : ExecutionControl;
  dc_evidence : SessionEvidenceWriter;
  dc_screenshot_policy : ScreenshotPolicy;
  dc_ui_snapshots_enabled : bool;
  dc_semantic_actions_enabled : bool;
}.

(** ** Effects *)

(** The methods of [DeviceDriver] the runtime awaits. An operation that is
    given an evidence writer also leaves the writer's receipts. *)
Inductive DriverCall : Type → Type :=
| CallConnect (c : ExecutionControl) : DriverCall (DriverResult DeviceInfo)
| CallDisconnect (c : ExecutionControl) : DriverCall (DriverResult ())
| CallCapabilities (c : ExecutionControl) : DriverCall (DriverResult (list ActionDefinition))
| CallHealthCheck (c : ExecutionControl) : DriverCall (DriverResult ())
| CallObserve (c : DriverOperationContext)
    : DriverCall (DeviceOperationResult Observation * gset AssetRef)
| CallExecute (c : DriverOperationContext) (call : ActionCall)
    : DriverCall (DeviceOperationResult ActionResult * gset AssetRef).

(** The branch of a [select!] between a Driver call, [control.cancelled()] and
    [control.deadline_elapsed()] that completes. *)
Inductive Selected (T : Type) :=
| Ready (t : T)
| Woken (reason : CancellationReason)
| Elapsed.
Arguments Ready {T} t.
Arguments Woken {T} reason.
Arguments Elapsed {T}.

Inductive RtE : Type → Type :=
| Reserve (session_id : SessionId) : RtE (result EventStoreError ObservationLease)
| Release (session_id : SessionId) (lease : ObservationLease) : RtE (result EventStoreError ())
| Append (pending : PendingEvent) : RtE (result EventStoreError TestEvent)
| ReadCell (cell : CellId) : RtE (option CancellationReason)
| ReadClock : RtE Instant
| ReadWallClock : RtE N
| Select (T : Type) (control : ExecutionControl) (call : DriverCall T) : RtE (Selected T).

Abbreviation rt := (prog RtE).

(** [now_ms] *)
Definition now_ms : rt N :=
  millis ← perform ReadWallClock;
  mret (N.min millis MAX_SAFE_INTEGER).

(** [timeout_error] *)
Definition timeout_error (control : ExecutionControl) : RuntimeError :=
  let '(scope, timeout_ms) := default (Scope_Request, 0) (timeout control) in
  RtTimedOut scope timeout_ms.

(** [inactive_control_error] *)
Definition inactive_control_error (control : ExecutionControl) : rt (option RuntimeError) :=
  reason ← perform (ReadCell (ec_cancellation control));
  match reason with
  | Some reason => mret (Some (RtCancelled reason))
  | None =>
      now ← perform ReadClock;
      mret (if is_expired control now then Some (timeout_error control) else None)
  end.

(** [OperationContext::execution_control] *)
Definition execution_control (c : OperationContext) : rt ExecutionControl :=
  match oc_action_timeout_ms c with
  | None => mret (oc_control c)
  | Some timeout_ms =>
      now ← perform ReadClock;
      mret (with_timeout (oc_control c) now timeout_ms Scope_Action)
  end.

(** [normalize_driver_result]. The reason of a set cell never changes, so its
    second read is the first one. *)
Definition normalize_driver_result {T} (control : ExecutionControl) (r : DriverResult T)
    : rt (RuntimeResult T) :=
  match r with
  | Err DriverCancelled =>
      reason ← perform (ReadCell (ec_cancellation control));
      mret match reason with
           | Some reason => Err (RtCancelled reason)
           | None => Err (RtDriver DriverCancelled)
           end
  | Err DriverTimedOut =>
      now ← perform ReadClock;
      mret (if is_expired control now then Err (timeout_error control)
            else Err (RtDriver DriverTimedOut))
  | other => mret (map_err RtDriver other)
  end.

(** [normalize_device_operation_result], keeping the writer's receipts *)
Definition normalize_device_operation_result {T} (control : ExecutionControl)
    (r : DeviceOperationResult T) (receipts : gset AssetRef)
    : rt (RuntimeResult (T * gset AssetRef)) :=
  match r with
  | Ok value => mret (Ok (value, receipts))
  | Err (OperationDriver e) => normalize_driver_result control (Err e)
  | Err (OperationEvidence e) => mret (Err (RtEvidence e))
  end.

(** The part [await_driver] and [await_device_operation] share: the control is
    tested, then the [select!] is awaited. *)
Definition await_call {T U} (control : ExecutionControl) (call : DriverCall T)
    (normalize : T → rt (RuntimeResult U)) : rt (RuntimeResult U) :=
  inactive ← inactive_control_error control;
  match inactive with
  | Some e => mret (Err e)
  | None =>
      selected ← perform (Select T control call);
      match selected with
      | Ready r => normalize r
      | Woken reason => mret (Err (RtCancelled reason))
      | Elapsed => mret (Err (timeout_error control))
      end
  end.

(** [await_driver] *)
Definition await_driver {T} (control : ExecutionControl) (call : DriverCall (DriverResult T))
    : rt (RuntimeResult T) :=
  await_call control call (normalize_driver_result control).

(** [await_device_operation] *)
Definition await_device_operation {T} (control : ExecutionControl)
    (call : DriverCall (DeviceOperationResult T * gset AssetRef))
    : rt (RuntimeResult (T * gset AssetRef)) :=
  await_call control call
    (λ '(r, receipts), normalize_device_operation_result control r receipts).

(** ** Validation of Driver results *)

Definition protocol_error {T} (message : string) : RuntimeResult T :=
  Err (RtDriver (DriverProtocol message)).

(** [{:?}] of the values that occur in messages *)
Definition debug_option {A} (debug : A → string) (o : option A) : string :=
  match o with None => "None" | Some a => "Some(" ++ debug a ++ ")" end%string.
Definition debug_omission (r : ScreenshotOmissionReason) : string :=
  match r with Omission_Policy => "Policy" | Omission_ProtectedAction => "ProtectedAction" end.
Definition debug_ui_omission (r : UiSnapshotOmissionReason) : string :=
  match r with
  | UiOmission_DriverUnsupported => "DriverUnsupported"
  | UiOmission_Policy => "Policy"
  | UiOmission_ProtectedAction => "ProtectedAction"
  end.
Definition debug_protection (p : ActionProtection) : string :=
  match p with Standard => "Standard" | Protected => "Protected" end.

Definition fail_protocol_if (b : bool) (message : string) : RuntimeResult () :=
  if b then protocol_error message else Ok ().

(** The UI omission a screenshot omission implies. *)
Definition expected_ui_omission (expected : option ScreenshotOmissionReason)
    : option UiSnapshotOmissionReason :=
  match expected with
  | Some Omission_Policy => Some UiOmission_Policy
  | Some Omission_ProtectedAction => Some UiOmission_ProtectedAction
  | None => None
  end.

(** [validate_observation_omission] *)
Definition validate_observation_omission (o : Observation)
    (expected : option ScreenshotOmissionReason) (ui_snapshots_enabled : bool)
    : RuntimeResult () :=
  check! fail_protocol_if (negb (bool_decide (obs_screenshot_omission o = expected)))
    ("observation screenshot omission " ++
     debug_option debug_omission (obs_screenshot_omission o) ++
     " does not match expected " ++ debug_option debug_omission expected)%string;
  check! fail_protocol_if (is_some expected && is_some (obs_screenshot o))
    "screenshot-omitted observation returned a screenshot";
  check! fail_protocol_if
    (negb ui_snapshots_enabled &&
     (is_some (obs_ui_snapshot o) || is_some (obs_ui_snapshot_omission o)))
    "observation returned Protocol 1.5 UI Snapshot fields without operation support";
  check! fail_protocol_if (negb (ui_snapshot_state_is_valid o))
    "observation returned both a UI snapshot and an omission reason";
  check! match expected_ui_omission expected, obs_ui_snapshot_omission o with
    | Some e, Some actual =>
        fail_protocol_if (negb (bool_decide (actual = e)))
          ("observation UI snapshot omission " ++ debug_ui_omission actual ++
           " does not match expected " ++ debug_ui_omission e)%string
    | None, Some UiOmission_ProtectedAction =>
        protocol_error "observation reported a protected UI snapshot omission unexpectedly"
    | _, _ => Ok ()
    end;
  check! fail_protocol_if (is_some (expected_ui_omission expected) && is_some (obs_ui_snapshot o))
    "UI-snapshot-omitted observation returned a UI snapshot";
  match obs_ui_snapshot o with
  | Some snapshot =>
      fail_protocol_if (is_err (snapshot_ref_validate snapshot))
        "observation returned an invalid UI snapshot reference"
  | None => Ok ()
  end.

Section Runtime.

(** [Display] of an [EventStoreError] and of a [Uuid] *)
Context (display : EventStoreError → string) (uuid_text : Uuid → string).

(** [validate_action_result] *)
Definition validate_action_result (id : Uuid) (semantic_action : bool) (r : ActionResult)
    : RuntimeResult ActionResult :=
  check! fail_protocol_if (negb (bool_decide (res_call_id r = id)))
    ("action result call id " ++ uuid_text (res_call_id r) ++
     " does not match request " ++ uuid_text id)%string;
  match res_execution r, semantic_action with
  | Some _, false =>
      protocol_error "non-semantic action returned semantic execution metadata"
  | None, true => protocol_error "semantic action omitted execution metadata"
  | Some execution, true =>
      if is_err (execution_validate execution)
      then protocol_error "semantic action returned invalid execution metadata"
      else Ok r
  | None, false => Ok r
  end.

(** [Display] of a [RuntimeError] that is not transparent *)
Definition cancelled_display (reason : CancellationReason) : string :=
  ("request was cancelled: " ++
   match reason with Requested => "Requested" | Shutdown => "Shutdown" end)%string.
Definition timed_out_display (scope : TimeoutScope) (timeout_ms : N) : string :=
  (match scope with
   | Scope_Request => "Request" | Scope_Action => "Action" | Scope_Shutdown => "Shutdown"
   end ++ " timed out after " ++ pretty timeout_ms ++ " ms")%string.

Definition timed_out_details (scope : TimeoutScope) (timeout_ms : N) : option Json :=
  Some (JObject [("scope"%string, JString (scope_as_str scope));
                 ("timeoutMs"%string, JNumber (PosInt timeout_ms))]).

(** [RuntimeError::to_error_info] *)
Definition runtime_error_info (e : RuntimeError) : ErrorInfo :=
  match e with
  | RtDriver e => driver_error_info e
  | RtEventStore e => to_error_info display uuid_text e
  | RtEvidence e => evidence_error_info uuid_text e
  | RtCancelled reason =>
      mkErrorInfo "request_cancelled" (cancelled_display reason) false
        (Some (JObject [("reason"%string, JString (reason_as_str reason))]))
  | RtTimedOut scope timeout_ms =>
      mkErrorInfo
        (match scope with
         | Scope_Action => "action_timed_out"
         | Scope_Request | Scope_Shutdown => "request_timed_out"
         end)
        (timed_out_display scope timeout_ms) true (timed_out_details scope timeout_ms)
  end.

(** [RuntimeError::to_action_error_info] *)
Definition to_action_error_info (e : RuntimeError) : ErrorInfo :=
  match e with
  | RtCancelled reason =>
      mkErrorInfo "action_cancelled" (cancelled_display reason) false
        (Some (JObject [("reason"%string, JString (reason_as_str reason))]))
  | RtTimedOut scope timeout_ms =>
      mkErrorInfo "action_timeout" (timed_out_display scope timeout_ms) true
        (timed_out_details scope timeout_ms)
  | _ => runtime_error_info e
  end.

(** ** The runtime *)

(** The Driver's [id] and its synchronous [action_protection], and the
    runtime's configuration. *)
Record DeviceRuntime := mkDeviceRuntime {
  dr_driver_id : DeviceId;
  dr_action_protection : string → option ActionProtection;
  dr_evidence : EvidenceBackend;
  dr_strict_evidence_receipts : bool;
  dr_screenshot_policy : ScreenshotPolicy;
}.

(** [DeviceRuntime::new], [with_evidence] and [with_screenshot_policy] *)
Definition runtime_new (id : DeviceId) (protection : string → option ActionProtection)
    : DeviceRuntime :=
  mkDeviceRuntime id protection UnavailableEvidenceStore false Capture.
Definition runtime_with_evidence (id : DeviceId) (protection : string → option ActionProtection)
    : DeviceRuntime :=
  mkDeviceRuntime id protection ConfiguredStore true Capture.
Definition with_screenshot_policy (policy : ScreenshotPolicy) (d : DeviceRuntime)
    : DeviceRuntime :=
  mkDeviceRuntime (dr_driver_id d) (dr_action_protection d) (dr_evidence d)
    (dr_strict_evidence_receipts d) policy.

Context (self : DeviceRuntime).

(** [DeviceRuntime::connect], [disconnect] and [health_check] *)
Definition connect (control : ExecutionControl) : rt (RuntimeResult DeviceInfo) :=
  await_driver control (CallConnect control).
Definition disconnect (control : ExecutionControl) : rt (RuntimeResult ()) :=
  await_driver control (CallDisconnect control).
Definition health_check (control : ExecutionControl) : rt (RuntimeResult ()) :=
  await_driver control (CallHealthCheck control).

(** [DeviceRuntime::validate_capability_protections] *)
Fixpoint validate_capability_protections (definitions : list ActionDefinition)
    : RuntimeResult () :=
  match definitions with
  | [] => Ok ()
  | definition :: rest =>
      let declared := dr_action_protection self (def_name definition) in
      if bool_decide (declared = Some (def_protection definition))
      then validate_capability_protections rest
      else protocol_error
        ("action protection for `" ++ def_name definition ++ "` is " ++
         debug_option debug_protection declared ++ ", expected " ++
         debug_protection (def_protection definition))%string
  end.

(** [DeviceRuntime::capabilities] *)
Definition capabilities (control : ExecutionControl) : rt (RuntimeResult (list ActionDefinition)) :=
  definitions ←? await_driver control (CallCapabilities control);
  mret (check! validate_capability_protections definitions; Ok definitions).

(** [DeviceRuntime::validated_action_protection] *)
Definition validated_action_protection (control : ExecutionControl) (name : string)
    : rt (RuntimeResult (option ActionProtection)) :=
  definitions ←? await_driver control (CallCapabilities control);
  mret (
    check! validate_capability_protections definitions;
    match List.find (λ d, String.eqb (def_name d) name) definitions with
    | Some definition => Ok (Some (def_protection definition))
    | None => Ok (dr_action_protection self name)
    end).

(** [DeviceRuntime::driver_context] *)
Definition driver_context (control : ExecutionControl) (operation : OperationContext)
    (policy : ScreenshotPolicy) : DriverOperationContext :=
  let evidence :=
    match policy with
    | Capture => dr_evidence self
    | Omit => UnavailableEvidenceStore
    end in
  mkDriverOperationContext control
    (mkSessionEvidenceWriter (oc_session_id operation) evidence) policy
    (oc_ui_snapshots_enabled operation) (oc_semantic_actions_enabled operation).

(** [DeviceRuntime::validate_observation_evidence] *)
Definition validate_observation_evidence (context : DriverOperationContext)
    (receipts : gset AssetRef) (o : Observation) (expected : option ScreenshotOmissionReason)
    : RuntimeResult () :=
  check! validate_observation_omission o expected (dc_ui_snapshots_enabled context);
  check! fail_protocol_if (is_some expected && negb (receipts_match receipts []))
    "screenshot-omitted observation persisted evidence";
  if negb (dr_strict_evidence_receipts self) ||
     receipts_match receipts (observation_asset_refs o)
  then Ok ()
  else protocol_error "observation evidence does not match this operation's receipts".

Fixpoint validate_observations_omission (l : list Observation)
    (expected : option ScreenshotOmissionReason) (ui_snapshots_enabled : bool)
    : RuntimeResult () :=
  match l with
  | [] => Ok ()
  | o :: rest =>
      check! validate_observation_omission o expected ui_snapshots_enabled;
      validate_observations_omission rest expected ui_snapshots_enabled
  end.

(** [DeviceRuntime::validate_action_evidence] *)
Definition validate_action_evidence (context : DriverOperationContext)
    (receipts : gset AssetRef) (r : ActionResult) (expected : option ScreenshotOmissionReason)
    : RuntimeResult () :=
  check! fail_protocol_if (is_some expected && is_none (res_after r))
    "screenshot-omitted action did not return an after observation";
  check! fail_protocol_if
    (bool_decide (expected = Some Omission_ProtectedAction) && is_none (res_before r))
    "protected action did not return a before observation";
  check! validate_observations_omission (option_list (res_before r) ++ option_list (res_after r))
    expected (dc_ui_snapshots_enabled context);
  if is_some expected then
    check! fail_protocol_if (negb (bool_decide (res_evidence r = [])))
      "screenshot-omitted action returned evidence";
    fail_protocol_if (negb (receipts_match receipts []))
      "screenshot-omitted action persisted evidence"
  else if negb (dr_strict_evidence_receipts self) ||
          receipts_match receipts (result_asset_refs r)
  then Ok ()
  else protocol_error "action evidence does not match this operation's receipts".

(** [self.events.append(..).await] for an event of this operation, now *)
Definition append_now (context : OperationContext) (payload : TestEventPayload)
    : rt (result EventStoreError TestEvent) :=
  at_ms ← now_ms;
  perform (Append (for_operation context (Some (dr_driver_id self)) at_ms payload)).

(** [DeviceRuntime::emit_error] *)
Definition emit_error (context : OperationContext) (error : ErrorInfo)
    : rt (result EventStoreError ()) :=
  _ ←? append_now context (ErrorEvent error);
  mret (Ok ()).

Definition OBSERVATION_RELEASE_MAX_ATTEMPTS : nat := 3.

(** The attempts [1..=n] of [release_observation_lease], of which [retries]
    are left after this one. *)
Fixpoint release_attempts (retries : nat) (session_id : SessionId) (lease : ObservationLease)
    : rt (result EventStoreError ()) :=
  released ← perform (Release session_id lease);
  match released, retries with
  | Ok _, _ => mret (Ok ())
  | Err e, O => mret (Err e)
  | Err _, S retries => release_attempts retries session_id lease
  end.

(** [DeviceRuntime::release_observation_lease] *)
Definition release_observation_lease (session_id : SessionId) (lease : ObservationLease)
    : rt (result EventStoreError ()) :=
  release_attempts (OBSERVATION_RELEASE_MAX_ATTEMPTS - 1) session_id lease.

(** The [match operation] of [observe]: record the observation or the error. *)
Definition record_observation (context : OperationContext) (operation : RuntimeResult Observation)
    : rt (RuntimeResult Observation) :=
  match operation with
  | Ok observation =>
      append ← append_now context (ObservationCaptured observation);
      mret (map_err RtEventStore (_ ← append; Ok observation))
  | Err error =>
      emitted ← emit_error context (runtime_error_info error);
      mret match emitted with
           | Ok _ => Err error
           | Err append_error => Err (RtEventStore append_error)
           end
  end.

(** [DeviceRuntime::observe] *)
Definition observe (context : OperationContext) : rt (RuntimeResult Observation) :=
  reserved ← perform (Reserve (oc_session_id context));
  match reserved with
  | Err e => mret (Err (RtEventStore e))
  | Ok lease =>
      let policy := effective_screenshot_policy context (dr_screenshot_policy self) in
      let dctx := driver_context (oc_control context) context policy in
      returned ← await_device_operation (dc_control dctx) (CallObserve dctx);
      let operation :=
        '(observation, receipts) ← returned;
        check! validate_observation_evidence dctx receipts observation
          (match policy with Capture => None | Omit => Some Omission_Policy end);
        Ok observation in
      recorded ← record_observation context operation;
      released ← release_observation_lease (oc_session_id context) lease;
      mret match released with
           | Ok _ => recorded
           | Err release_error => Err (RtEventStore release_error)
           end
  end.

(** The omission [execute] expects of the Driver's result. *)
Definition expected_action_omission (protection : option ActionProtection)
    (policy : ScreenshotPolicy) : option ScreenshotOmissionReason :=
  match protection with
  | Some Standard =>
      match policy with Capture => None | Omit => Some Omission_Policy end
  | Some Protected | None => Some Omission_ProtectedAction
  end.

(** The outcome [execute] records for its result. *)
Definition action_outcome (r : RuntimeResult ActionResult) : ActionOutcome :=
  match r with
  | Ok r => Succeeded r
  | Err (RtCancelled reason) => Cancelled (to_action_error_info (RtCancelled reason))
  | Err (RtTimedOut scope timeout_ms) =>
      TimedOut (to_action_error_info (RtTimedOut scope timeout_ms)) timeout_ms
  | Err error => Failed (runtime_error_info error)
  end.

(** The Driver's part of [execute], after [ActionStarted] is durable. *)
Definition execute_on_driver (context : OperationContext) (call : ActionCall)
    (protection : option ActionProtection) : rt (RuntimeResult ActionResult) :=
  control ← execution_control context;
  let policy := effective_screenshot_policy context (dr_screenshot_policy self) in
  let expected_omission := expected_action_omission protection policy in
  let action_policy := if is_some expected_omission then Omit else Capture in
  let dctx := driver_context control context action_policy in
  returned ← await_device_operation (dc_control dctx) (CallExecute dctx call);
  mret (
    '(r, receipts) ← returned;
    r ← validate_action_result (call_id call) (is_semantic_action_name (call_name call)) r;
    check! validate_action_evidence dctx receipts r expected_omission;
    Ok r).

(** [DeviceRuntime::execute] *)
Definition execute (context : OperationContext) (call : ActionCall)
    : rt (RuntimeResult ActionResult) :=
  inactive ← inactive_control_error (oc_control context);
  match inactive with
  | Some error => mret (Err error)
  | None =>
      if is_semantic_action_name (call_name call) &&
         (negb (oc_semantic_actions_enabled context) || negb (oc_ui_snapshots_enabled context))
      then mret (Err (RtDriver SemanticChannelUnavailable))
      else
        protection ←? validated_action_protection (oc_control context) (call_name call);
        started ← append_now context (ActionStarted (from_action_call call protection));
        match started with
        | Err e => mret (Err (RtEventStore e))
        | Ok _ =>
            r ← execute_on_driver context call protection;
            completed ← append_now context (ActionCompleted (call_id call) (action_outcome r));
            mret match completed with
                 | Err e => Err (RtEventStore e)
                 | Ok _ => r
                 end
        end
  end.

End Runtime.
