(* ===== verification/RuntimeProps.v ===== *)
(** * Guarantees of the device runtime

    Executions of [observe] and [execute] against the in-memory Event Store,
    with any Driver and among any other tasks: what they leave in the log,
    that they never leave a lease or an action open, and what a protected
    action leaves behind. *)

From S2P Require Import Prelude Protocol Evidence EventStream EventStore.
From S2P Require Import EventLog EventStoreInv EventStoreProps.
From S2P Require Import StoreFrame UiContract Control Async Runtime Scenario.

Local Open Scope N_scope.

(** ** The world of an operation *)

(** What the operation itself has done so far, oldest first. *)
Inductive RtEvent :=
| TReserved (session_id : SessionId) (lease : ObservationLease)
| TAppended (pending : PendingEvent) (answer : result EventStoreError TestEvent)
| TObserve (context : DriverOperationContext)
| TExecute (context : DriverOperationContext) (call : ActionCall).

Record World := mkWorld {
  w_store : MemoryEventStore;
  w_cells : Cells;
  w_clock : Instant;
  w_trace : list RtEvent;
}.

Definition set_store (st : MemoryEventStore) (w : World) : World :=
  mkWorld st (w_cells w) (w_clock w) (w_trace w).
Definition traced (l : list RtEvent) (w : World) : World :=
  mkWorld (w_store w) (w_cells w) (w_clock w) (w_trace w ++ l).

(** What a Driver can do with the writer it is given. *)
Inductive WriterOp :=
| WriterPut (media_type : string) (answer : result EvidenceError StoredEvidence)
| WriterAttach (answer : result EvidenceError StoredEvidence).

Definition writer_op (writer : SessionEvidenceWriter) (op : WriterOp) (receipts : gset AssetRef)
    : gset AssetRef :=
  match op with
  | WriterPut media_type answer => snd (writer_put writer media_type answer receipts)
  | WriterAttach answer => snd (writer_attach writer answer receipts)
  end.

Definition writer_run (writer : SessionEvidenceWriter) (ops : list WriterOp) : gset AssetRef :=
  foldl (λ receipts op, writer_op writer op receipts) ∅ ops.

(** The answers a Driver call can have: anything, with the receipts of some
    use of the writer. *)
Definition driver_may {T} (call : DriverCall T) : T → Prop :=
  match call in DriverCall T return T → Prop with
  | CallObserve c => λ t, ∃ ops, snd t = writer_run (dc_evidence c) ops
  | CallExecute c _ => λ t, ∃ ops, snd t = writer_run (dc_evidence c) ops
  | _ => λ _, True
  end.

Definition call_trace {T} (call : DriverCall T) : list RtEvent :=
  match call with
  | CallObserve c => [TObserve c]
  | CallExecute c call => [TExecute c call]
  | _ => []
  end.

(** One effect of the operation. *)
Definition rt_step (R : Type) (e : RtE R) (w : World) : R → World → Prop :=
  match e in RtE R return R → World → Prop with
  | Reserve sid => λ r w', ∃ draws answer st',
      reserve_observation draws sid (w_store w) = (answer, st') ∧
      match answer with
      | Ok (Some lease) =>
          r = Ok lease ∧ w' = traced [TReserved sid lease] (set_store st' w)
      | Ok None => False
      | Err e => r = Err e ∧ w' = set_store st' w
      end
  | Release sid lease => λ r w', ∃ st',
      release_observation sid lease (w_store w) = (r, st') ∧ w' = set_store st' w
  | Append p => λ r w', ∃ eid st',
      append eid p (w_store w) = (r, st') ∧
      w' = traced [TAppended p r] (set_store st' w)
  | ReadCell cell => λ r w', r = w_cells w !! cell ∧ w' = w
  | ReadClock => λ r w', r = w_clock w ∧ w' = w
  | ReadWallClock => λ _ w', w' = w
  | Select _ control call => λ r w',
      match r with
      | Ready t => driver_may call t
      | Woken reason => cancellation_reason control (w_cells w) = Some reason
      | Elapsed => is_expired control (w_clock w) = true
      end ∧ w' = traced (call_trace call) w
  end.

(** Leases and calls that belong to the operation. *)
Definition own_leases (tr : list RtEvent) : list ObservationLease :=
  omap (λ t, match t with TReserved _ lease => Some lease | _ => None end) tr.
Definition own_calls (tr : list RtEvent) : list Uuid :=
  omap (λ t, match t with
             | TAppended p (Ok _) =>
                 match pe_payload p with ActionStarted call => Some (rc_id call) | _ => None end
             | _ => None
             end) tr.

(** What other tasks may do to the store: anything but release a lease or
    complete a call that is not theirs. *)
Definition foreign_op (tr : list RtEvent) (op : StoreOp) : Prop :=
  match op with
  | OpRelease _ lease => lease ∉ own_leases tr
  | _ => ∀ id, id ∈ own_calls tr → completes id op = false
  end.

(** One step of the other tasks, the requester and the clock. *)
Inductive rt_env : World → World → Prop :=
| env_store w op : foreign_op (w_trace w) op →
    rt_env w (set_store (apply_op op (w_store w)) w)
| env_cancel w cell reason :
    rt_env w (mkWorld (w_store w) (snd (cancel cell reason (w_cells w))) (w_clock w) (w_trace w))
| env_clock w t : w_clock w <= t →
    rt_env w (mkWorld (w_store w) (w_cells w) t (w_trace w)).

Abbreviation rt_runs := (runs rt_step rt_env).
Abbreviation rt_wp := (wp rt_step rt_env).

(** The operation's own appends with the store's answers. *)
Definition appends (tr : list RtEvent) : list (PendingEvent * result EventStoreError TestEvent) :=
  omap (λ t, match t with TAppended p r => Some (p, r) | _ => None end) tr.

(** ** Rules for the runtime's effects *)

Section Rules.
Context (config : EventStreamConfig).

(** The operation is suspended with the trace [tr] in a reachable store
    that satisfies [P]. *)
Record at_point (tr : list RtEvent) (P : MemoryEventStore → Prop) (w : World) : Prop := {
  ap_reachable : reachable config (w_store w);
  ap_trace : w_trace w = tr;
  ap_holds : P (w_store w);
}.

(** [P] survives what other tasks do. *)
Definition stable (tr : list RtEvent) (P : MemoryEventStore → Prop) : Prop :=
  ∀ op st, store_wf st → P st → foreign_op tr op → P (apply_op op st).

Lemma env_at_point tr P w w' :
  stable tr P → at_point tr P w → rtc rt_env w w' → at_point tr P w'.
Proof.
  intros HP Hat Henv. eapply (env_invariant rt_env (at_point tr P)); [|done..].
  clear - HP. intros x y [Hr Ht Hp] Hs. destruct Hs as [w op Hop|w|w]; [|by split..].
  rewrite Ht in Hop. split; cbn; [by constructor|done|].
  apply HP; [by eapply reachable_wf|done..].
Qed.

Lemma stable_true tr : stable tr (λ _, True).
Proof. by intros op st. Qed.

(** Traces that own the same leases and calls. *)
Definition same_owned (tr tr' : list RtEvent) : Prop :=
  own_leases tr' = own_leases tr ∧ own_calls tr' = own_calls tr.

Lemma stable_owned tr tr' P : same_owned tr tr' → stable tr P → stable tr' P.
Proof.
  intros [Hl Hc] HP op st Hwf Hp Hop. apply HP; [done..|].
  unfold foreign_op in *. by rewrite Hl, Hc in Hop.
Qed.

Lemma same_owned_call {T} tr (call : DriverCall T) : same_owned tr (tr ++ call_trace call).
Proof.
  unfold same_owned, own_leases, own_calls. rewrite !omap_app.
  destruct call; cbn; by rewrite !app_nil_r.
Qed.

Lemma stable_call {T} tr (call : DriverCall T) P :
  stable tr P → stable (tr ++ call_trace call) P.
Proof. apply stable_owned, same_owned_call. Qed.

Lemma stable_held tr sid lease : lease ∈ own_leases tr → stable tr (lease_held sid lease).
Proof.
  intros Hin op st Hwf Hp Hop. apply apply_op_held; [done..|]. intros k ->. by apply Hop.
Qed.

Lemma stable_in_flight tr sid id c : id ∈ own_calls tr → stable tr (in_flight sid id c).
Proof.
  intros Hin op st Hwf Hp Hop. apply apply_op_in_flight; [done..|].
  destruct op; try done; by apply Hop.
Qed.

(** Effects that only read. *)
Definition reads {R} (e : RtE R) : Prop :=
  match e with ReadCell _ | ReadClock | ReadWallClock => True | _ => False end.

Lemma wp_read {R A} (e : RtE R) (k : R → rt A) Q tr P w :
  reads e → stable tr P → at_point tr P w →
  (∀ r w', at_point tr P w' → rt_wp (k r) Q w') → rt_wp (Step R e k) Q w.
Proof.
  intros He HP Hat Hk w1 r w2 Henv Hs. apply Hk.
  pose proof (env_at_point _ _ _ _ HP Hat Henv) as H1.
  destruct e; try done; cbn in Hs; destruct_and?; by subst.
Qed.

Lemma wp_append {A} p (k : _ → rt A) Q tr P w :
  stable tr P → at_point tr P w →
  (∀ eid r st w', reachable config st → P st → append eid p st = (r, w_store w') →
     reachable config (w_store w') → w_trace w' = tr ++ [TAppended p r] →
     rt_wp (k r) Q w') →
  rt_wp (Step _ (Append p) k) Q w.
Proof.
  intros HP Hat Hk w1 r w2 Henv (eid & st' & Ha & ->).
  destruct (env_at_point _ _ _ _ HP Hat Henv) as [Hr Ht Hp].
  eapply (Hk eid); [done..| |cbn; by rewrite Ht].
  replace st' with (apply_op (OpAppend eid p) (w_store w1)) by (cbn; by rewrite Ha).
  by constructor.
Qed.

Lemma wp_select {T A} control (call : DriverCall T) (k : _ → rt A) Q tr P w :
  stable tr P → at_point tr P w →
  (∀ r w', at_point (tr ++ call_trace call) P w' → rt_wp (k r) Q w') →
  rt_wp (Step _ (Select T control call) k) Q w.
Proof.
  intros HP Hat Hk w1 r w2 Henv [_ ->]. apply Hk.
  destruct (env_at_point _ _ _ _ HP Hat Henv) as [Hr Ht Hp]. split; cbn; [done| |done].
  by rewrite Ht.
Qed.

Lemma wp_inactive control Q tr P w :
  stable tr P → at_point tr P w → (∀ o w', at_point tr P w' → Q o w') →
  rt_wp (inactive_control_error control) Q w.
Proof.
  intros HP Hat HQ. eapply wp_read; [done..|]. intros [reason|] w1 H1; [by apply HQ|].
  eapply wp_read; [done..|]. intros now w2 H2. by apply HQ.
Qed.

Lemma wp_normalize {T} control (r : DriverResult T) Q tr P w :
  stable tr P → at_point tr P w →
  (∀ w', at_point tr P w' → match r with
     | Ok t => Q (Ok t) w' | Err _ => ∀ e, Q (Err e) w' end) →
  rt_wp (normalize_driver_result control r) Q w.
Proof.
  intros HP Hat HQ. destruct r as [t|[]]; try exact (HQ _ Hat); try exact (HQ _ Hat _).
  - eapply wp_read; [done..|]. intros [reason|] w1 H1; by apply HQ.
  - eapply wp_read; [done..|]. intros now w1 H1. cbn. destruct (is_expired _ _); by apply HQ.
Qed.

(** Awaiting the Driver leaves the store alone; it returns an error, or what
    [normalize] makes of an answer. *)
Lemma wp_await {T U} control (call : DriverCall T) (normalize : T → rt (RuntimeResult U)) Q tr P w :
  stable tr P → at_point tr P w →
  (∀ tr' e w', tr' = tr ∨ tr' = tr ++ call_trace call → at_point tr' P w' → Q (Err e) w') →
  (∀ t w', at_point (tr ++ call_trace call) P w' → rt_wp (normalize t) Q w') →
  rt_wp (await_call control call normalize) Q w.
Proof.
  intros HP Hat Herr Hok. apply wp_bind. eapply wp_inactive; [done..|].
  intros [e|] w1 H1; [by eapply Herr; [left|]|].
  eapply wp_select; [done..|]. intros [t|reason|] w2 H2; [by apply Hok|..];
    by eapply Herr; [right|].
Qed.

Lemma wp_now Q tr P w :
  stable tr P → at_point tr P w →
  (∀ at_ms w', at_ms <= MAX_SAFE_INTEGER → at_point tr P w' → Q at_ms w') →
  rt_wp now_ms Q w.
Proof.
  intros HP Hat HQ. eapply wp_read; [done..|]. intros r w1 H1. apply HQ; [lia|done].
Qed.
End Rules.

(** ** [execute] *)

Section Operations.
Context (config : EventStreamConfig) (display : EventStoreError → string)
  (uuid_text : Uuid → string) (self : DeviceRuntime).

Lemma wp_append_now ctx payload Q tr P w :
  stable tr P → at_point config tr P w →
  (∀ at_ms eid r st w',
     let p := for_operation ctx (Some (dr_driver_id self)) at_ms payload in
     at_ms <= MAX_SAFE_INTEGER → reachable config st → P st →
     append eid p st = (r, w_store w') → reachable config (w_store w') →
     w_trace w' = tr ++ [TAppended p r] → Q r w') →
  rt_wp (append_now self ctx payload) Q w.
Proof.
  intros HP Hat HQ. apply wp_bind. eapply wp_now; [done..|].
  intros at_ms w1 Hms H1. eapply wp_append; [done..|]. intros eid r st w' **.
  by apply (HQ at_ms eid r st).
Qed.

(** The runtime uses the protection its Driver declares, advertised or not. *)
Lemma validate_capability_protections_find definitions name d :
  validate_capability_protections self definitions = Ok () →
  List.find (λ d, String.eqb (def_name d) name) definitions = Some d →
  dr_action_protection self name = Some (def_protection d).
Proof.
  induction definitions as [|d' l IH]; cbn; [done|].
  case_bool_decide as Hd; [|done]. intros Hv.
  destruct (String.eqb_spec (def_name d') name) as [<-|]; [by intros [= <-]|auto].
Qed.

Lemma wp_validated_protection control name Q tr P w :
  stable tr P → at_point config tr P w →
  (∀ e w', at_point config tr P w' → Q (Err e) w') →
  (∀ w', at_point config tr P w' → Q (Ok (dr_action_protection self name)) w') →
  rt_wp (validated_action_protection self control name) Q w.
Proof.
  intros HP Hat Herr Hok. apply wp_try.
  eapply wp_await; [done..|intros tr' e w' [->| ->] H1; [|cbn in H1; rewrite app_nil_r in H1]; by apply Herr|].
  intros r w1 H1. cbn in H1. rewrite app_nil_r in H1.
  eapply wp_normalize; [done..|]. intros w2 H2. destruct r as [definitions|?]; [|intros e'; by apply Herr].
  cbn. destruct (validate_capability_protections self definitions) as [[]|] eqn:Hv; cbn; [|by apply Herr].
  destruct (List.find _ _) as [d|] eqn:Hf; [|by apply Hok].
  rewrite <- (validate_capability_protections_find _ _ _ Hv Hf). by apply Hok.
Qed.

(** The omission the runtime requires of an action's observations, and the
    policy it hands to the Driver. *)
Definition required_omission (ctx : OperationContext) (name : string)
    : option ScreenshotOmissionReason :=
  expected_action_omission (dr_action_protection self name)
    (effective_screenshot_policy ctx (dr_screenshot_policy self)).
Definition handed_policy (ctx : OperationContext) (name : string) : ScreenshotPolicy :=
  if is_some (required_omission ctx name) then Omit else Capture.

(** A result that passed the runtime's checks. *)
Definition accepted (ctx : OperationContext) (call : ActionCall) (res : ActionResult) : Prop :=
  res_call_id res = call_id call ∧ ∃ dctx receipts,
    validate_action_evidence self dctx receipts res (required_omission ctx (call_name call)) = Ok ().

(** The Driver was handed this call at most once, with this policy. *)
Definition handed (ctx : OperationContext) (call : ActionCall) (l : list RtEvent) : Prop :=
  l = [] ∨ ∃ control, l = [TExecute (driver_context self control ctx
    (handed_policy ctx (call_name call))) call].

Lemma validate_action_result_ok id semantic r res :
  validate_action_result uuid_text id semantic r = Ok res → res = r ∧ res_call_id r = id.
Proof.
  unfold validate_action_result, fail_protocol_if. case_bool_decide; cbn; [|done].
  intros Hr. repeat case_match; naive_solver.
Qed.

Lemma wp_execution_control ctx Q tr P w :
  stable tr P → at_point config tr P w → (∀ c w', at_point config tr P w' → Q c w') →
  rt_wp (execution_control ctx) Q w.
Proof.
  intros HP Hat HQ. unfold execution_control. destruct (oc_action_timeout_ms ctx); [|by apply HQ].
  eapply wp_read; [done..|]. intros r w1 H1. by apply HQ.
Qed.

Lemma wp_execute_on_driver ctx call Q tr P w :
  stable tr P → at_point config tr P w →
  (∀ r l w', at_point config (tr ++ l) P w' → handed ctx call l →
     (∀ res, r = Ok res → accepted ctx call res) → Q r w') →
  rt_wp (execute_on_driver uuid_text self ctx call (dr_action_protection self (call_name call))) Q w.
Proof.
  intros HP Hat HQ. apply wp_bind. eapply wp_execution_control; [done..|].
  intros control w1 H1. apply wp_bind. cbn zeta. fold (required_omission ctx (call_name call)).
  fold (handed_policy ctx (call_name call)).
  eapply wp_await; [done|exact H1| |].
  - intros tr' e w' [->| ->] H2; [eapply (HQ _ []); [by rewrite app_nil_r|by left|done]|].
    eapply HQ; [done|right; by eexists|done].
  - intros [r receipts] w2 H2.
    assert (handed ctx call (call_trace (CallExecute (driver_context self control ctx
      (handed_policy ctx (call_name call))) call))) as Hh by (right; by eexists).
    destruct r as [res|[e|e]]; [|eapply wp_normalize; [|exact H2|]|by eapply HQ].
    + eapply HQ; [done..|]. intros res'. cbn. intros Hr. inv_result.
      match goal with H : validate_action_result _ _ _ _ = _ |- _ =>
        apply validate_action_result_ok in H as [-> ?] end.
      split; [done|]. match goal with u : () |- _ => destruct u end. eauto.
    + by apply stable_call.
    + intros w3 H3 e'. by eapply HQ.
Qed.

(** [p] is an event of the operation with this payload. *)
Definition own_event (ctx : OperationContext) (payload : TestEventPayload) (p : PendingEvent)
    : Prop :=
  pe_session_id p = oc_session_id ctx ∧ pe_request_id p = oc_request_id ctx ∧
  pe_device_id p = Some (dr_driver_id self) ∧ pe_payload p = payload.

Definition started_event (ctx : OperationContext) (call : ActionCall) : PendingEvent → Prop :=
  own_event ctx (ActionStarted
    (from_action_call call (dr_action_protection self (call_name call)))).
Definition completed_event (ctx : OperationContext) (call : ActionCall)
    (r : RuntimeResult ActionResult) : PendingEvent → Prop :=
  own_event ctx (ActionCompleted (call_id call) (action_outcome display uuid_text r)).

(** The four ways an [execute] can go: what it did, the store it leaves and
    what it returns. *)
Inductive execute_history (ctx : OperationContext) (call : ActionCall)
    : list RtEvent → MemoryEventStore → RuntimeResult ActionResult → Prop :=
| execute_refused st e : execute_history ctx call [] st (Err e)
| execute_not_started st p e :
    started_event ctx call p →
    execute_history ctx call [TAppended p (Err e)] st (Err (RtEventStore e))
| execute_finished st p e l r p' e' :
    started_event ctx call p → handed ctx call l →
    (∀ res, r = Ok res → accepted ctx call res) → completed_event ctx call r p' →
    finished (oc_session_id ctx) (call_id call) e e' st →
    execute_history ctx call ((TAppended p (Ok e) :: l) ++ [TAppended p' (Ok e')]) st r
| execute_unrecorded st p e l r p' err :
    started_event ctx call p → handed ctx call l →
    (∀ res, r = Ok res → accepted ctx call res) → completed_event ctx call r p' →
    store_closed (oc_session_id ctx) st →
    execute_history ctx call ((TAppended p (Ok e) :: l) ++ [TAppended p' (Err err)]) st
      (Err (RtEventStore err)).

Lemma handed_owned ctx call tr l : handed ctx call l → same_owned tr (tr ++ l).
Proof.
  unfold same_owned, own_leases, own_calls. rewrite !omap_app.
  intros [->|[c ->]]; cbn; by rewrite !app_nil_r.
Qed.

Lemma stable_running tr sid id e : id ∈ own_calls tr → stable tr (running sid id e).
Proof.
  intros Hin op st Hwf Hp Hop. apply apply_op_running; [done..|].
  destruct op; try done; by apply Hop.
Qed.

(** The part of [execute] after a successful [ActionStarted]. *)
Lemma wp_execute_started ctx call p e w :
  started_event ctx call p → (∃ eid q, e = event_of eid q p) →
  at_point config [TAppended p (Ok e)] (running (oc_session_id ctx) (call_id call) e) w →
  rt_wp (r ← execute_on_driver uuid_text self ctx call (dr_action_protection self (call_name call));
         completed ← append_now self ctx
           (ActionCompleted (call_id call) (action_outcome display uuid_text r));
         mret match completed with Err e => Err (RtEventStore e) | Ok _ => r end)
    (λ r w', execute_history ctx call (w_trace w') (w_store w') r) w.
Proof.
  intros Hp (eid0 & q & He) Hat. pose proof Hp as (Hsid & Hreq & Hdev & Hpay).
  assert (call_id call ∈ own_calls [TAppended p (Ok e)]) as Hown.
  { cbn. rewrite Hpay. cbn. set_solver. }
  apply wp_bind. eapply wp_execute_on_driver; [by apply stable_running|exact Hat|].
  intros r l w1 H1 Hl Hr. apply wp_bind.
  eapply wp_append_now; [|exact H1|].
  { eapply stable_owned; [by eapply handed_owned|by apply stable_running]. }
  intros at_ms eid answer st w2 p' Hms Hreach Hrun Happ Hreach' Htr.
  cbn. rewrite Htr.
  eapply append_action_completed in Happ as [(err & -> & <- & Hclosed)|(e' & -> & _ & Hfin)];
    try done.
  - by eapply (execute_unrecorded ctx call _ p e l r).
  - by eapply (execute_finished ctx call _ p e l r).
  - by eapply reachable_wf.
  - rewrite He. by cbn.
  - rewrite He. by cbn.
  - intros res. unfold action_outcome. destruct r as [res'|[]]; intros [= ->].
    by destruct (Hr res eq_refl).
Qed.

Lemma wp_execute ctx call w :
  at_point config [] (λ _, True) w →
  rt_wp (execute display uuid_text self ctx call)
    (λ r w', execute_history ctx call (w_trace w') (w_store w') r) w.
Proof.
  intros Hat. apply wp_bind. eapply wp_inactive; [apply stable_true|done|].
  intros [e|] w1 H1; [cbn; rewrite (ap_trace _ _ _ _ H1); apply execute_refused|].
  destruct (_ && _); [cbn; rewrite (ap_trace _ _ _ _ H1); apply execute_refused|].
  apply wp_try. eapply wp_validated_protection; [apply stable_true|done|..].
  { intros e w2 H2. rewrite (ap_trace _ _ _ _ H2). apply execute_refused. }
  intros w2 H2. apply wp_bind. eapply wp_append_now; [apply stable_true|done|].
  intros at_ms eid [e|e] st w3 p Hms Hreach _ Happ Hreach' Htr; cbn in Htr.
  - apply append_action_started with (call := from_action_call call
      (dr_action_protection self (call_name call))) in Happ as [He Hrun];
      [|by eapply reachable_wf|done].
    apply (wp_execute_started ctx call p e); [done|eauto|by split].
  - cbn. rewrite Htr. by apply execute_not_started.
Qed.

(** ** [observe] *)

Definition observation_policy (ctx : OperationContext) : ScreenshotPolicy :=
  effective_screenshot_policy ctx (dr_screenshot_policy self).

(** An observation that passed the runtime's checks. *)
Definition accepted_observation (ctx : OperationContext) (o : Observation) : Prop :=
  ∃ dctx receipts, validate_observation_evidence self dctx receipts o
    (match observation_policy ctx with Capture => None | Omit => Some Omission_Policy end) = Ok ().

(** The Driver was asked to observe at most once. *)
Definition asked (l : list RtEvent) : Prop := l = [] ∨ ∃ dctx, l = [TObserve dctx].

(** The ways an [observe] can go. *)
Inductive observe_history (ctx : OperationContext)
    : list RtEvent → MemoryEventStore → RuntimeResult Observation → Prop :=
| observe_refused st e : observe_history ctx [] st (Err (RtEventStore e))
| observe_recorded st lease l p e o :
    asked l → own_event ctx (ObservationCaptured o) p → accepted_observation ctx o →
    lease_released (oc_session_id ctx) lease st → in_log (oc_session_id ctx) e st →
    observe_history ctx
      ((TReserved (oc_session_id ctx) lease :: l) ++ [TAppended p (Ok e)]) st (Ok o)
| observe_failed st lease l p e error :
    asked l → own_event ctx (ErrorEvent (runtime_error_info display uuid_text error)) p →
    lease_released (oc_session_id ctx) lease st → in_log (oc_session_id ctx) e st →
    observe_history ctx
      ((TReserved (oc_session_id ctx) lease :: l) ++ [TAppended p (Ok e)]) st (Err error)
| observe_unrecorded st lease l p err :
    asked l → lease_released (oc_session_id ctx) lease st →
    store_closed (oc_session_id ctx) st →
    observe_history ctx
      ((TReserved (oc_session_id ctx) lease :: l) ++ [TAppended p (Err err)]) st
      (Err (RtEventStore err)).

Lemma asked_owned tr l : asked l → same_owned tr (tr ++ l).
Proof.
  unfold same_owned, own_leases, own_calls. rewrite !omap_app.
  intros [->|[c ->]]; cbn; by rewrite !app_nil_r.
Qed.

(** A property that the held lease preserves is stable. *)
Lemma stable_with_lease tr sid lease (P : MemoryEventStore → Prop) :
  lease ∈ own_leases tr →
  (∀ op st, store_wf st → lease_held sid lease st → P st → P (apply_op op st)) →
  stable tr (λ st, lease_held sid lease st ∧ P st).
Proof.
  intros Hin HP op st Hwf [Hh Hp] Hop. split; [by eapply stable_held|auto].
Qed.

Lemma wp_release_held sid lease (P : MemoryEventStore → Prop) Q tr w :
  lease ∈ own_leases tr →
  (∀ op st, store_wf st → lease_held sid lease st → P st → P (apply_op op st)) →
  at_point config tr (λ st, lease_held sid lease st ∧ P st) w →
  (∀ st w', P st → w_trace w' = tr → lease_released sid lease (w_store w') →
     (∀ e, in_log sid e st → in_log sid e (w_store w')) →
     (store_closed sid st → store_closed sid (w_store w')) → Q (Ok ()) w') →
  rt_wp (release_observation_lease sid lease) Q w.
Proof.
  intros Hin HP Hat HQ w1 r w2 Henv (st' & Hrel & ->).
  destruct (env_at_point _ _ _ _ _ (stable_with_lease _ _ _ _ Hin HP) Hat Henv) as [Hr Ht [Hh Hp]].
  apply release_held in Hrel as (-> & Hrel & Hlog & Hcl); [|by eapply reachable_wf|done].
  cbn. by eapply (HQ (w_store w1)).
Qed.

(** Recording the outcome under the lease. *)
Lemma wp_record_observation ctx operation lease l w :
  asked l → (∀ o, operation = Ok o → accepted_observation ctx o) →
  at_point config (TReserved (oc_session_id ctx) lease :: l)
    (lease_held (oc_session_id ctx) lease) w →
  rt_wp (recorded ← record_observation display uuid_text self ctx operation;
         released ← release_observation_lease (oc_session_id ctx) lease;
         mret match released with Ok _ => recorded | Err e => Err (RtEventStore e) end)
    (λ r w', observe_history ctx (w_trace w') (w_store w') r) w.
Proof.
  intros Hl Hop Hat. set (sid := oc_session_id ctx) in *.
  assert (∀ l', lease ∈ own_leases (TReserved sid lease :: l')) as Hin by (intros; cbn; set_solver).
  assert (∀ payload (k : result EventStoreError TestEvent → RuntimeResult Observation),
    match payload with ObservationCaptured _ | ErrorEvent _ => True | _ => False end →
    (∀ p e st, own_event ctx payload p → lease_released sid lease st → in_log sid e st →
       observe_history ctx ((TReserved sid lease :: l) ++ [TAppended p (Ok e)]) st (k (Ok e))) →
    (∀ e, k (Err e) = Err (RtEventStore e)) →
    rt_wp (append_now self ctx payload) (λ answer, rt_wp
      (released ← release_observation_lease sid lease;
       mret match released with Ok _ => k answer | Err e => Err (RtEventStore e) end)
      (λ r w', observe_history ctx (w_trace w') (w_store w') r)) w) as Hgen.
  { intros payload k Hpay Hok Herr. eapply wp_append_now; [by apply stable_held, Hin|exact Hat|].
    intros at_ms eid answer st w1 p Hms Hr Hh Happ Hr' Htr.
    apply append_under_lease with (lease := lease) in Happ as [Hh' Hcase];
      [|by eapply reachable_wf|done..]. change (pe_session_id p) with sid in *.
    apply wp_bind. destruct Hcase as [(err & -> & Hcl)|(e & q & -> & He & Hlog)].
    - eapply (wp_release_held _ _ (store_closed sid)); [apply Hin| |by split|].
      { intros op st' **. by eapply apply_op_closed. }
      intros st' w2 Hp Ht Hrel _ Hcl'. cbn. rewrite Ht, Herr.
      apply observe_unrecorded; auto.
    - eapply (wp_release_held _ _ (in_log sid e)); [apply Hin| |by split|].
      { intros op st' **. by eapply apply_op_in_log. }
      intros st' w2 Hp Ht Hrel Hlog' _. cbn. rewrite Ht. apply Hok; auto. done. }
  apply wp_bind. destruct operation as [o|error]; apply wp_bind.
  - apply (Hgen _ (λ answer, map_err RtEventStore (_ ← answer; Ok o))); [done| |done].
    intros p e st **. apply observe_recorded; auto.
  - apply wp_try. eapply wp_mono; [apply (Hgen (ErrorEvent (runtime_error_info display uuid_text error))
      (λ answer, match answer with Ok _ => Err error | Err e => Err (RtEventStore e) end)); [done| |done]|].
    + intros p e st **. by apply observe_failed.
    + by intros [e|e] w'.
Qed.

Lemma wp_observe ctx w :
  at_point config [] (λ _, True) w →
  rt_wp (observe display uuid_text self ctx)
    (λ r w', observe_history ctx (w_trace w') (w_store w') r) w.
Proof.
  intros Hat w1 reserved w2 Henv (draws & answer & st' & Hres & Hans).
  destruct (env_at_point _ _ _ _ _ (stable_true _) Hat Henv) as [Hr Ht _].
  assert (reachable config st') as Hr'.
  { replace st' with (apply_op (OpReserve draws (oc_session_id ctx)) (w_store w1))
      by (cbn; by rewrite Hres). by constructor. }
  destruct answer as [[lease|]|e]; [|done|].
  2: { destruct Hans as [-> ->]. cbn. rewrite Ht. apply observe_refused. }
  destruct Hans as [-> ->]. cbv beta iota zeta. fold (observation_policy ctx).
  set (dctx := driver_context _ _ _ _). set (sid := oc_session_id ctx) in *.
  assert (at_point config [TReserved sid lease] (lease_held sid lease)
    (traced [TReserved sid lease] (set_store st' w1))) as H2.
  { split; cbn; [done|by rewrite Ht|]. apply reserve_cases in Hres
      as [[_ [?|?]]|(log & l & [= <-] & _ & _ & _ & _ & ->)]; [done..|]. apply lookup_insert_eq. }
  assert (stable [TReserved sid lease] (lease_held sid lease)) as Hst
    by (apply stable_held; cbn; set_solver).
  apply wp_bind. eapply wp_await; [exact Hst|exact H2| |].
  - intros tr' e w' Htr' Hat'. apply (wp_record_observation ctx (Err e) lease
      (match tr' with _ :: l => l | [] => [] end)); [|done|].
    + destruct Htr' as [->| ->]; [by left|right]. by eexists.
    + by destruct Htr' as [->| ->].
  - intros [r receipts] w' Hat'.
    assert (asked [TObserve dctx]) as Hask by (right; by eexists).
    destruct r as [o|[e|e]]; [|eapply wp_normalize; [|exact Hat'|]|].
    + apply (wp_record_observation ctx _ lease [TObserve dctx]); [done| |done].
      intros o' Ho. cbn in Ho. inv_result. match goal with u : () |- _ => destruct u end.
      exists dctx, receipts. done.
    + by apply stable_call.
    + intros w3 H3 e'. by apply (wp_record_observation ctx (Err e') lease [TObserve dctx]).
    + by apply (wp_record_observation ctx (Err _) lease [TObserve dctx]).
Qed.

(** ** Theorems *)

(** C36: however an [execute] goes, with any Driver, cancellation, deadlines
    and other tasks using the store: either no action was started and the
    call fails; or the action was started and then completed once, under the
    same correlation, with the outcome that is returned; or the completion was
    refused because the store is shutting down or out of sequence numbers. No
    other path leaves the action open in the log. *)
Theorem execute_completes_started_action ctx call w r w' :
  reachable config (w_store w) → w_trace w = [] →
  rt_runs (execute display uuid_text self ctx call) w r w' →
  execute_history ctx call (w_trace w') (w_store w') r.
Proof.
  intros Hr Ht Hrun. assert (at_point config [] (λ _, True) w) as Hat by done.
  exact (wp_sound _ _ _ _ _ _ _ (wp_execute ctx call w Hat) Hrun).
Qed.

(** C37: however an [observe] goes, the observation lease it reserved is
    released when it returns. It returns an observation exactly when it
    recorded it, otherwise it recorded the error it returns; only a store that
    is shutting down or out of sequence numbers keeps it from recording. *)
Theorem observe_always_releases_its_lease ctx w r w' :
  reachable config (w_store w) → w_trace w = [] →
  rt_runs (observe display uuid_text self ctx) w r w' →
  observe_history ctx (w_trace w') (w_store w') r.
Proof.
  intros Hr Ht Hrun. assert (at_point config [] (λ _, True) w) as Hat by done.
  exact (wp_sound _ _ _ _ _ _ _ (wp_observe ctx w Hat) Hrun).
Qed.

Lemma is_some_true {A} (o : option A) : is_some o = true ↔ is_Some o.
Proof. destruct o; naive_solver. Qed.

Lemma fail_protocol_if_ok b m u : fail_protocol_if b m = Ok u → b = false.
Proof. by destruct b. Qed.

(** An observation accepted with an omission carries no evidence. *)
Lemma validate_observation_omission_some o reason ui :
  validate_observation_omission o (Some reason) ui = Ok () →
  obs_screenshot_omission o = Some reason ∧ observation_asset_refs o = [].
Proof.
  unfold validate_observation_omission. intros H. inv_result.
  repeat match goal with H : fail_protocol_if _ _ = Ok _ |- _ =>
    apply fail_protocol_if_ok in H end.
  inv_bools. split; [done|]. unfold observation_asset_refs.
  destruct (obs_screenshot o); [done|]. destruct reason, (obs_ui_snapshot o); done.
Qed.

Lemma validate_observations_omission_some l reason ui :
  validate_observations_omission l (Some reason) ui = Ok () →
  Forall (λ o, obs_screenshot_omission o = Some reason ∧ observation_asset_refs o = []) l.
Proof.
  induction l as [|o l IH]; [constructor|]. cbn [validate_observations_omission]. intros H.
  inv_result. match goal with u : () |- _ => destruct u end.
  constructor; [by eapply validate_observation_omission_some|auto].
Qed.

Lemma accepted_omission ctx call res reason :
  required_omission ctx (call_name call) = Some reason → accepted ctx call res →
  result_asset_refs res = [] ∧
  Forall (λ o, obs_screenshot_omission o = Some reason)
    (option_list (res_before res) ++ option_list (res_after res)).
Proof.
  intros Hreq (_ & dctx & receipts & H). rewrite Hreq in H.
  unfold validate_action_evidence in H. cbn [is_some is_none negb andb] in H. inv_result.
  match goal with H : validate_observations_omission _ _ _ = Ok ?u |- _ =>
    destruct u; apply validate_observations_omission_some in H as Hobs end.
  repeat match goal with H : fail_protocol_if _ _ = Ok _ |- _ =>
    apply fail_protocol_if_ok in H end.
  inv_bools. split; [|by eapply Forall_impl; [done|intros o [? _]]].
  unfold result_asset_refs. apply Forall_app in Hobs as [Hb Ha].
  replace (res_evidence res) with (@nil AssetRef) by done.
  destruct (res_before res) as [o|], (res_after res) as [o'|]; cbn; decompose_Forall_hyps;
    repeat match goal with H : _ ∧ observation_asset_refs _ = [] |- _ => destruct H as [_ ->] end;
    done.
Qed.

Lemma writer_run_unavailable sid ops :
  writer_run (mkSessionEvidenceWriter sid UnavailableEvidenceStore) ops = ∅.
Proof.
  unfold writer_run. generalize (∅ : gset AssetRef) as receipts.
  induction ops as [|op ops IH]; intros receipts; [done|]. cbn [foldl]. rewrite IH.
  destruct op; cbn; [|done]. unfold writer_put, mbind, M_bind, lift. by destruct (put_new _ _).
Qed.

Lemma execute_history_in ctx call tr st r x :
  execute_history ctx call tr st r → x ∈ tr →
  (∃ p a, x = TAppended p a ∧ (started_event ctx call p ∨
     ∃ r0, completed_event ctx call r0 p ∧ ∀ res, r0 = Ok res → accepted ctx call res)) ∨
  ∃ control, x = TExecute (driver_context self control ctx
    (handed_policy ctx (call_name call))) call.
Proof.
  intros Hh Hx. destruct Hh as [| |? p e l r0 p' e' ? Hl ? ?|? p e l r0 p' e' ? Hl ? ?].
  1: by apply elem_of_nil in Hx.
  1: apply list_elem_of_singleton in Hx as ->; eauto 10.
  all: destruct Hl as [->|[control ->]]; cbn in Hx;
    rewrite ?elem_of_cons, elem_of_nil in Hx; destruct_or?; subst; try done; eauto 10.
Qed.

(** C38: an action whose screenshots must be omitted leaves no evidence
    behind: no event the operation records refers to an asset, the
    observations of its result state the omission, and the Driver only ever
    got a writer that cannot store anything. If the reason is that the action
    is protected or unknown, its recorded call has no arguments either. *)
Theorem omitted_action_leaves_no_evidence ctx call w r w' reason :
  reachable config (w_store w) → w_trace w = [] →
  rt_runs (execute display uuid_text self ctx call) w r w' →
  required_omission ctx (call_name call) = Some reason →
  (∀ p a, TAppended p a ∈ w_trace w' →
     event_asset_refs (pe_payload p) = [] ∧
     Forall (λ o, obs_screenshot_omission o = Some reason) (event_observations (pe_payload p)) ∧
     (∀ c, pe_payload p = ActionStarted c → reason = Omission_ProtectedAction →
        rc_arguments c = JNull ∧ rc_arguments_redacted c = true)) ∧
  (∀ dctx c, TExecute dctx c ∈ w_trace w' →
     dc_screenshot_policy dctx = Omit ∧ ∀ ops, writer_run (dc_evidence dctx) ops = ∅).
Proof.
  intros Hr Ht Hrun Hreq. assert (at_point config [] (λ _, True) w) as Hat by done.
  pose proof (wp_sound _ _ _ _ _ _ _ (wp_execute ctx call w Hat) Hrun) as Hh. cbv beta in Hh.
  split.
  - intros p a Hin. destruct (execute_history_in _ _ _ _ _ _ Hh Hin)
      as [(p' & a' & [= <- <-] & [(_ & _ & _ & ->)|(r0 & (_ & _ & _ & ->) & Hacc)])|[? [=]]].
    + split_and!; [done|constructor|]. intros c [= <-] ->. unfold from_action_call. cbn.
      unfold required_omission, expected_action_omission in Hreq.
      destruct (dr_action_protection self (call_name call)) as [[]|]; [|done..].
      by destruct (effective_screenshot_policy _ _).
    + destruct r0 as [res|[]]; try (by split_and!; [..|constructor|]).
      cbn. by destruct (accepted_omission _ _ _ _ Hreq (Hacc res eq_refl)).
  - intros dctx c Hin. destruct (execute_history_in _ _ _ _ _ _ Hh Hin)
      as [(? & ? & [=] & _)|[control [= -> ->]]].
    unfold handed_policy. rewrite Hreq. cbn. split; [done|]. apply writer_run_unavailable.
Qed.
End Operations.

(** ** The theorems at the sample Session *)

(** A Driver that answers every call at once. *)
Definition solo_handler (answers : ∀ T, DriverCall T → option T) (R : Type) (e : RtE R) (w : World)
    : option (R * World) :=
  match e in RtE R return option (R * World) with
  | Reserve sid =>
      match reserve_observation [601] sid (w_store w) with
      | (Ok (Some lease), st') => Some (Ok lease, traced [TReserved sid lease] (set_store st' w))
      | (Ok None, _) => None
      | (Err e, st') => Some (Err e, set_store st' w)
      end
  | Release sid lease =>
      let '(r, st') := release_observation sid lease (w_store w) in Some (r, set_store st' w)
  | Append p =>
      let '(r, st') := append (1000 + len (w_trace w)) p (w_store w) in
      Some (r, traced [TAppended p r] (set_store st' w))
  | ReadCell cell => Some (w_cells w !! cell, w)
  | ReadClock => Some (w_clock w, w)
  | ReadWallClock => Some (1100, w)
  | Select T _ call => t ← answers T call; Some (Ready t, traced (call_trace call) w)
  end.

Lemma solo_handler_step answers R e w r w' :
  (∀ T (call : DriverCall T) t, answers T call = Some t → driver_may call t) →
  solo_handler answers R e w = Some (r, w') → rt_step R e w r w'.
Proof.
  intros Ha. destruct e; cbn.
  - destruct (reserve_observation _ _ _) as [[[lease|]|e] st'] eqn:H; intros [= <- <-];
      do 3 eexists; (split; [done|done]).
  - destruct (release_observation _ _ _) eqn:H. intros [= <- <-]. eauto.
  - destruct (append _ _ _) eqn:H. intros [= <- <-]. eauto.
  - by intros [= <- <-].
  - by intros [= <- <-].
  - by intros [= _ <-].
  - intros (t & Ht & [= <- <-])%bind_Some. split; [by apply Ha|done].
Qed.

Definition sample_stored : StoredEvidence :=
  mkStoredEvidence (mkEvidenceMetadata sample_digest "image/png" 2048 1090 1) false.

(** Observations without evidence, for a protected action. *)
Definition omitted_observation (id : Uuid) : Observation :=
  mkObservation id sample_device 1095 sample_viewport None (Some Omission_ProtectedAction)
    None None [].

Definition sample_answer (call : ActionCall) : ActionResult :=
  if String.eqb (call_name call) "tap"
  then mkActionResult (call_id call) 1090 1099 JNull None (Some (sample_observation 33 1095)) []
         None
  else mkActionResult (call_id call) 1090 1099 JNull (Some (omitted_observation 34))
         (Some (omitted_observation 35)) [] None.

(** The Driver stores a screenshot unless its writer refuses. *)
Definition sample_receipts (c : DriverOperationContext) : gset AssetRef :=
  writer_run (dc_evidence c) [WriterPut "image/png" (Ok sample_stored)].

Definition sample_driver (T : Type) (call : DriverCall T) : option T :=
  match call in DriverCall T return option T with
  | CallCapabilities _ => Some (Ok [mkActionDefinition "tap" "taps" JNull Standard;
                                    mkActionDefinition "type" "types a secret" JNull Protected])
  | CallObserve c => Some (Ok (sample_observation 32 1095), sample_receipts c)
  | CallExecute c call => Some (Ok (sample_answer call), sample_receipts c)
  | _ => None
  end.

Lemma sample_driver_may T (call : DriverCall T) t : sample_driver T call = Some t → driver_may call t.
Proof. destruct call; try done; intros [= <-]; by eexists. Qed.

Definition sample_runtime : DeviceRuntime :=
  runtime_with_evidence sample_device (λ name,
    if String.eqb name "tap" then Some Standard
    else if String.eqb name "type" then Some Protected else None).
Definition sample_context : OperationContext :=
  mkOperationContext sample_session sample_request
    (mkExecutionControl 1 (Some (mkExecutionDeadline 0 (from_millis 500) 500 Scope_Request)))
    (Some 100) None false false.
Definition sample_world : World := mkWorld opening_store ∅ (from_millis 20) [].
Definition sample_display (e : EventStoreError) : string := "event store error".

(** An operation run alone by the sample Driver. *)
Definition solo {A} (p : rt A) : option (A * World) :=
  exec (solo_handler sample_driver) p sample_world.

Lemma solo_runs {A} (p : rt A) r w' : solo p = Some (r, w') → rt_runs p sample_world r w'.
Proof.
  apply exec_runs. intros R e w r0 w0. apply solo_handler_step, sample_driver_may.
Qed.

Lemma execute_completes_started_action_witness :
  let call := mkActionCall 41 "tap" (JObject []) in
  ∃ r w', is_ok r = true ∧ length (w_trace w') = 3%nat ∧
    execute_history sample_display sample_uuid_text sample_runtime sample_context call
      (w_trace w') (w_store w') r.
Proof.
  intros call.
  assert (match solo (execute sample_display sample_uuid_text sample_runtime sample_context call) with
          | Some (r, w') => is_ok r && (length (w_trace w') =? 3)%nat | None => false end = true)
    as Hok by (vm_compute; reflexivity).
  destruct (solo _) as [[r w']|] eqn:Hrun; [|done]. apply andb_true_iff in Hok as [Hr Hlen].
  exists r, w'. split_and!; [done|by apply Nat.eqb_eq|].
  apply (execute_completes_started_action EventStreamConfig_default sample_display sample_uuid_text
    sample_runtime sample_context call sample_world); [apply opening_reachable|reflexivity|].
  by apply solo_runs.
Defined.

Lemma observe_always_releases_its_lease_witness :
  ∃ r w', is_ok r = true ∧
    observe_history sample_display sample_uuid_text sample_runtime sample_context
      (w_trace w') (w_store w') r.
Proof.
  assert (match solo (observe sample_display sample_uuid_text sample_runtime sample_context) with
          | Some (r, _) => is_ok r | None => false end = true) as Hok
    by (vm_compute; reflexivity).
  destruct (solo _) as [[r w']|] eqn:Hrun; [|done]. exists r, w'. split; [done|].
  apply (observe_always_releases_its_lease EventStreamConfig_default sample_display
    sample_uuid_text sample_runtime sample_context sample_world);
    [apply opening_reachable|reflexivity|]. by apply solo_runs.
Defined.

Lemma omitted_action_leaves_no_evidence_witness :
  let call := mkActionCall 42 "type" (JObject [("text"%string, JString "secret")]) in
  ∃ r w', rt_runs (execute sample_display sample_uuid_text sample_runtime sample_context call)
      sample_world r w' ∧ is_ok r = true ∧
    ∀ p a, TAppended p a ∈ w_trace w' → event_asset_refs (pe_payload p) = [].
Proof.
  intros call.
  assert (match solo (execute sample_display sample_uuid_text sample_runtime sample_context call) with
          | Some (r, _) => is_ok r | None => false end = true) as Hok
    by (vm_compute; reflexivity).
  destruct (solo _) as [[r w']|] eqn:Hrun; [|done]. exists r, w'. apply solo_runs in Hrun. split_and!; [done..|].
  apply (omitted_action_leaves_no_evidence EventStreamConfig_default sample_display
    sample_uuid_text sample_runtime sample_context call sample_world r w'
    Omission_ProtectedAction); [apply opening_reachable|reflexivity|done|reflexivity].
Defined.
