(* ===== verification/MediaWriter.v ===== *)
(** * The media stream writer

    [crates/core/src/media.rs]: [MediaStreamWriter] stores each frame's
    evidence and then appends the frame's event, keeping what an ambiguous
    append left undecided so that a later call resumes it. All methods hold
    the writer's mutex from their first access to its state to their return;
    they are asynchronous programs on that state. *)

From S2P Require Import Prelude Protocol Evidence EventStream EventStore Control Async Runtime.

Local Open Scope N_scope.

Record PendingFrame := mkPendingFrame {
  pf_request_id : option RpcId;
  pf_at_ms : N;
  pf_frame : MediaFrame;
}.

Record PendingTerminal := mkPendingTerminal {
  pt_request_id : option RpcId;
  pt_at_ms : N;
}.

Record WriterState := mkWriterState {
  ws_started : bool;
  ws_next_frame_index : N;
  ws_pending : option PendingFrame;
  ws_terminal_pending : option PendingTerminal;
  ws_terminal_frame_count : option N;
}.

Record MediaStreamWriter := mkMediaStreamWriter {
  mw_session_id : SessionId;
  mw_default_request_id : option RpcId;
  mw_device_id : option DeviceId;
  mw_stream : MediaStreamInfo;
  mw_started_at_ms : N;
}.

Inductive MediaStreamError :=
| MediaEvent (e : EventStoreError)
| MediaEvidence (e : EvidenceError)
| MediaCancelled
| MediaTimedOut
| MediaEnded
| MediaInvalidFrame.

(** [MediaStreamWriter::prepare]: the state of a new writer *)
Definition prepare : WriterState := mkWriterState false 1 None None None.

(** ** Effects *)

Inductive MwE : Type → Type :=
| MwAppend (pending : PendingEvent) : MwE (result EventStoreError TestEvent)
| MwPut (request : PutEvidence) : MwE (result EvidenceError StoredEvidence)
| MwAttach (session_id : SessionId) (asset : AssetRef) : MwE (result EvidenceError StoredEvidence)
| MwReadCell (cell : CellId) : MwE (option CancellationReason)
| MwReadClock : MwE Instant
| MwLock (control : ExecutionControl) : MwE (Selected ()).

Abbreviation mw := (AM MwE WriterState MediaStreamError).

Definition set_started (s : WriterState) : WriterState :=
  mkWriterState true (ws_next_frame_index s) (ws_pending s) (ws_terminal_pending s)
    (ws_terminal_frame_count s).
Definition set_pending (p : PendingFrame) (s : WriterState) : WriterState :=
  mkWriterState (ws_started s) (ws_next_frame_index s) (Some p) (ws_terminal_pending s)
    (ws_terminal_frame_count s).
Definition frame_flushed (s : WriterState) : WriterState :=
  mkWriterState (ws_started s) (ws_next_frame_index s + 1) None (ws_terminal_pending s)
    (ws_terminal_frame_count s).
Definition set_terminal (t : PendingTerminal) (s : WriterState) : WriterState :=
  mkWriterState (ws_started s) (ws_next_frame_index s) (ws_pending s) (Some t)
    (ws_terminal_frame_count s).
Definition set_closed (frame_count : N) (s : WriterState) : WriterState :=
  mkWriterState (ws_started s) (ws_next_frame_index s) (ws_pending s) None (Some frame_count).

(** [ensure_active] *)
Definition ensure_active (control : ExecutionControl) : mw () :=
  reason ← am_effect (MwReadCell (ec_cancellation control));
  match reason with
  | Some _ => am_lift (Err MediaCancelled)
  | None =>
      now ← am_effect MwReadClock;
      am_lift (reject_if (is_expired control now) MediaTimedOut)
  end.

(** [select! { state = self.state.lock() => .., cancelled, deadline }] *)
Definition lock (control : ExecutionControl) : mw () :=
  selected ← am_effect (MwLock control);
  am_lift match selected with
          | Ready _ => Ok ()
          | Woken _ => Err MediaCancelled
          | Elapsed => Err MediaTimedOut
          end.

Section Writer.
Context (self : MediaStreamWriter).

Definition event_at (request_id : option RpcId) (at_ms : N) (payload : TestEventPayload)
    : PendingEvent :=
  mkPendingEvent (mw_session_id self) request_id (mw_device_id self) at_ms payload.

(** The events of the stream. *)
Definition start_pending : PendingEvent :=
  event_at (mw_default_request_id self) (mw_started_at_ms self)
    (MediaStreamStarted (mw_stream self)).
Definition frame_pending (p : PendingFrame) : PendingEvent :=
  event_at (pf_request_id p) (pf_at_ms p) (MediaFrameCaptured (pf_frame p)).
Definition terminal_pending (t : PendingTerminal) (frame_count : N) : PendingEvent :=
  event_at (pt_request_id t) (pt_at_ms t) (MediaStreamEnded (ms_id (mw_stream self)) frame_count).

(** [MediaStreamWriter::ensure_started_locked] *)
Definition ensure_started_locked : mw () :=
  state ← am_get;
  if ws_started state then mret () else
  _ ← am_try MediaEvent (MwAppend start_pending);
  am_modify set_started.

(** [MediaStreamWriter::ensure_started] *)
Definition ensure_started : mw () := ensure_started_locked.

(** [MediaStreamWriter::flush_pending] *)
Definition flush_pending : mw () :=
  state ← am_get;
  match ws_pending state with
  | None => mret ()
  | Some pending =>
      _ ← am_try MediaEvent (MwAppend (frame_pending pending));
      am_modify frame_flushed
  end.

(** The part of [push_frame_with_request_id] and
    [push_asset_frame_with_request_id] from the lock to the return; [store]
    is the evidence operation. *)
Definition push_locked (control : ExecutionControl) (request_id : option RpcId) (at_ms : N)
    (key_frame : bool) (duration_ms : option N) (store : mw StoredEvidence) : mw MediaFrame :=
  check! lock control;
  check! ensure_started_locked;
  state ← am_get;
  check! am_lift (reject_if (bool_decide (is_Some (ws_terminal_frame_count state))) MediaEnded);
  check! flush_pending;
  check! ensure_active control;
  state ← am_get;
  frame_index ← am_lift (ok_or (EventSequence.new (ws_next_frame_index state)) MediaInvalidFrame);
  stored ← store;
  let frame :=
    {| mf_stream_id := ms_id (mw_stream self);
       mf_frame_index := frame_index;
       mf_key_frame := key_frame;
       mf_duration_ms := duration_ms;
       mf_evidence := asset_ref stored |} in
  check! am_modify (set_pending (mkPendingFrame request_id at_ms frame));
  check! flush_pending;
  mret frame.

Definition duration_too_long (duration_ms : option N) : bool :=
  match duration_ms with Some value => MAX_SAFE_INTEGER <? value | None => false end.

(** [MediaStreamWriter::push_frame_with_request_id] *)
Definition push_frame_with_request_id (control : ExecutionControl) (request_id : option RpcId)
    (at_ms : N) (key_frame : bool) (duration_ms : option N) (declared_size_bytes : N)
    : mw MediaFrame :=
  check! ensure_active control;
  check! am_lift (reject_if
    ((declared_size_bytes =? 0) || duration_too_long duration_ms) MediaInvalidFrame);
  push_locked control request_id at_ms key_frame duration_ms (
    request ← am_lift (map_err MediaEvidence
      (put_new (mw_session_id self) (ms_media_type (mw_stream self))));
    am_try MediaEvidence (MwPut (with_declared_size_bytes declared_size_bytes request))).

(** [MediaStreamWriter::push_asset_frame_with_request_id] *)
Definition push_asset_frame_with_request_id (control : ExecutionControl)
    (request_id : option RpcId) (at_ms : N) (key_frame : bool) (duration_ms : option N)
    (asset : AssetRef) : mw MediaFrame :=
  check! ensure_active control;
  check! am_lift (reject_if
    (negb (String.eqb (ar_media_type asset) (ms_media_type (mw_stream self))) ||
     duration_too_long duration_ms) MediaInvalidFrame);
  push_locked control request_id at_ms key_frame duration_ms
    (am_try MediaEvidence (MwAttach (mw_session_id self) asset)).

(** [MediaStreamWriter::push_frame] and [push_asset_frame] *)
Definition push_frame (control : ExecutionControl) :=
  push_frame_with_request_id control (mw_default_request_id self).
Definition push_asset_frame (control : ExecutionControl) :=
  push_asset_frame_with_request_id control (mw_default_request_id self).

(** [MediaStreamWriter::close] *)
Definition close_stream (request_id : option RpcId) (at_ms : N) : mw N :=
  state ← am_get;
  match ws_terminal_frame_count state with
  | Some frame_count => mret frame_count
  | None =>
      check! ensure_started_locked;
      check! flush_pending;
      state ← am_get;
      let frame_count := ws_next_frame_index state - 1 in
      let terminal :=
        default (mkPendingTerminal request_id at_ms) (ws_terminal_pending state) in
      check! am_modify (set_terminal terminal);
      _ ← am_try MediaEvent (MwAppend (terminal_pending terminal frame_count));
      check! am_modify (set_closed frame_count);
      mret frame_count
  end.

(** [finish_with_request_id], [abort_with_request_id], [finish] and [abort] *)
Definition finish_with_request_id (request_id : option RpcId) (at_ms : N) : mw N :=
  close_stream request_id at_ms.
Definition abort_with_request_id (request_id : option RpcId) (at_ms : N) : mw N :=
  close_stream request_id at_ms.
Definition finish (at_ms : N) : mw N := finish_with_request_id (mw_default_request_id self) at_ms.
Definition abort (at_ms : N) : mw N := abort_with_request_id (mw_default_request_id self) at_ms.

End Writer.
