(* ===== verification/MediaWriterProps.v ===== *)
(** * The media stream writer records every frame once

    Sequences of calls of a [MediaStreamWriter] against the in-memory Event
    Store, where an append may be lost, or be committed and still reported as
    failed, and other tasks use the store. The stored evidence and the frames
    of the log stay in step, so a retry never records a frame twice and a
    closed stream has no evidence left behind. *)

From S2P Require Import Prelude Protocol Evidence EventStream EventStore.
From S2P Require Import EventLog EventStoreInv EventStoreProps StoreFrame.
From S2P Require Import Control Async Runtime MediaWriter Scenario.

Local Open Scope N_scope.

(** ** The world of a writer *)

(** [mww_assets] are the references of the evidence stored for the writer, in
    order. *)
Record MwWorld := mkMwWorld {
  mww_store : MemoryEventStore;
  mww_cells : Cells;
  mww_clock : Instant;
  mww_assets : list AssetRef;
}.

Definition mww_set (st : MemoryEventStore) (w : MwWorld) : MwWorld :=
  mkMwWorld st (mww_cells w) (mww_clock w) (mww_assets w).
Definition mww_stored (answer : result EvidenceError StoredEvidence) (w : MwWorld) : MwWorld :=
  mkMwWorld (mww_store w) (mww_cells w) (mww_clock w)
    (mww_assets w ++ match answer with Ok stored => [asset_ref stored] | Err _ => [] end).

(** One effect of the writer. An append is answered by the store, or fails
    before or after it reached the store. *)
Definition mw_step (R : Type) (e : MwE R) (w : MwWorld) : R → MwWorld → Prop :=
  match e in MwE R return R → MwWorld → Prop with
  | MwAppend p => λ r w', ∃ eid answer st',
      append eid p (mww_store w) = (answer, st') ∧
      (r = answer ∧ w' = mww_set st' w ∨
       is_err r = true ∧ (w' = mww_set st' w ∨ w' = w))
  | MwPut _ => λ r w', w' = mww_stored r w
  | MwAttach _ _ => λ r w', w' = mww_stored r w
  | MwReadCell cell => λ r w', r = mww_cells w !! cell ∧ w' = w
  | MwReadClock => λ r w', r = mww_clock w ∧ w' = w
  | MwLock control => λ r w',
      match r with
      | Ready _ => True
      | Woken reason => cancellation_reason control (mww_cells w) = Some reason
      | Elapsed => is_expired control (mww_clock w) = true
      end ∧ w' = w
  end.

(** The operation concerns the stream. *)
Definition touches_stream (id : MediaStreamId) (op : StoreOp) : bool :=
  match op with
  | OpAppend _ p =>
      match pe_payload p with
      | MediaStreamStarted s => bool_decide (ms_id s = id)
      | MediaFrameCaptured f => bool_decide (mf_stream_id f = id)
      | MediaStreamEnded i _ => bool_decide (i = id)
      | _ => false
      end
  | _ => false
  end.

(** Other tasks do anything but use the writer's stream or delete its
    Session. *)
Inductive mw_env (sid : SessionId) (id : MediaStreamId) : MwWorld → MwWorld → Prop :=
| mw_env_store w op : touches_stream id op = false → op ≠ OpDelete sid →
    mw_env sid id w (mww_set (apply_op op (mww_store w)) w)
| mw_env_cancel w cell reason :
    mw_env sid id w (mkMwWorld (mww_store w) (snd (cancel cell reason (mww_cells w)))
      (mww_clock w) (mww_assets w))
| mw_env_clock w t : mww_clock w <= t →
    mw_env sid id w (mkMwWorld (mww_store w) (mww_cells w) t (mww_assets w)).

(** ** What the log says of a stream *)

Record StreamView := mkStreamView {
  sv_starts : list MediaStreamInfo;
  sv_frames : list MediaFrame;
  sv_ends : list N;
}.

Definition view (id : MediaStreamId) (events : list TestEvent) : StreamView :=
  mkStreamView (stream_starts id events) (frames id events) (stream_ends id events).

(** The view after one more event. *)
Definition view_push (id : MediaStreamId) (payload : TestEventPayload) (v : StreamView)
    : StreamView :=
  match payload with
  | MediaStreamStarted s =>
      if bool_decide (ms_id s = id)
      then mkStreamView (sv_starts v ++ [s]) (sv_frames v) (sv_ends v) else v
  | MediaFrameCaptured f =>
      if bool_decide (mf_stream_id f = id)
      then mkStreamView (sv_starts v) (sv_frames v ++ [f]) (sv_ends v) else v
  | MediaStreamEnded i n =>
      if bool_decide (i = id)
      then mkStreamView (sv_starts v) (sv_frames v) (sv_ends v ++ [n]) else v
  | _ => v
  end.

Lemma view_snoc id events e : view id (events ++ [e]) = view_push id (ev_payload e) (view id events).
Proof.
  unfold view, stream_starts, frames, stream_ends, view_push. rewrite !omap_snoc.
  destruct (ev_payload e); cbn; rewrite ?app_nil_r; try done;
    case_bool_decide; cbn; by rewrite ?app_nil_r.
Qed.

(** Other tasks leave the view alone. *)
Lemma apply_op_view op st sid id log :
  store_wf st → st_sessions st !! sid = Some log →
  touches_stream id op = false → op ≠ OpDelete sid →
  ∃ log', st_sessions (apply_op op st) !! sid = Some log' ∧
    view id (log_events log') = view id (log_events log).
Proof.
  intros Hwf Hl Ht Hd.
  destruct (apply_op_log op st sid log Hwf Hl) as [(log' & Hl' & Hs)|[? _]]; [|done].
  exists log'. split; [done|]. destruct Hs as [|f| |eid p q t -> _ _ _ _|eid c q -> _ _ _]; try done.
  - destruct (appended_info (event_of eid q p) t log) as (_ & -> & _). rewrite view_snoc. cbn in *.
    unfold view_push. destruct (pe_payload p); try done; by rewrite Ht.
  - cbn. by rewrite view_snoc.
Qed.

(** The stream as the store tracks it, by its view. *)
Lemma stream_view b sid log id :
  log_wf b sid log →
  let v := view id (log_events log) in
  mf_frame_index <$> sv_frames v = indices (length (sv_frames v)) ∧
  ((sv_starts v = [] ∧ sv_frames v = [] ∧ sv_ends v = [] ∧
    log_media_streams log !! id = None ∧ (id ∉ log_seen_media_streams log)) ∨
   (∃ info, sv_starts v = [info] ∧ id ∈ log_seen_media_streams log ∧
    (sv_ends v = [] ∧ log_media_streams log !! id =
       Some (mkMediaStreamState (ms_media_type info) (len (sv_frames v) + 1)) ∨
     sv_ends v = [len (sv_frames v)] ∧ log_media_streams log !! id = None))).
Proof.
  intros Hwf v. pose proof (legal_stream_history id _ (lw_legal _ _ _ Hwf)) as Hh.
  unfold stream_history in Hh. rewrite <-(lw_tracking _ _ _ Hwf) in Hh. cbn in Hh.
  destruct Hh as [Hi Hh]. split; [done|]. cbn.
  destruct Hh as [(? & ? & ? & ? & ?)|(? & info & ? & _ & [[? ?]|[? ?]])]; eauto 10.
Qed.

(** ** The invariant between writer, evidence and log *)

Section WriterInvariant.
Context (config : EventStreamConfig) (self : MediaStreamWriter).

Abbreviation sid := (mw_session_id self).
Abbreviation mid := (ms_id (mw_stream self)).
Abbreviation mw_wp := (wp mw_step (mw_env sid mid)).

(** [returned] are the frames that successful pushes have returned. *)
Definition frames_in_step (ws : WriterState) (assets : list AssetRef)
    (returned : list MediaFrame) (recorded : list MediaFrame) : Prop :=
  match ws_pending ws with
  | None =>
      assets = mf_evidence <$> recorded ∧ ws_next_frame_index ws = len recorded + 1 ∧
      returned `sublist_of` recorded
  | Some p =>
      mf_stream_id (pf_frame p) = mid ∧
      mf_frame_index (pf_frame p) = ws_next_frame_index ws ∧
      ∃ flushed, ws_next_frame_index ws = len flushed + 1 ∧
        assets = (mf_evidence <$> flushed) ++ [mf_evidence (pf_frame p)] ∧
        returned `sublist_of` flushed ∧
        (recorded = flushed ∨ recorded = flushed ++ [pf_frame p])
  end.

Definition writer_inv (ws : WriterState) (assets : list AssetRef)
    (returned : list MediaFrame) (v : StreamView) : Prop :=
  if ws_started ws then
    sv_starts v = [mw_stream self] ∧ frames_in_step ws assets returned (sv_frames v) ∧
    (∀ n, ws_terminal_frame_count ws = Some n →
       ws_pending ws = None ∧ sv_ends v = [n] ∧ n = len (sv_frames v))
  else
    ws = prepare ∧ assets = [] ∧ returned = [] ∧ sv_frames v = [] ∧ sv_ends v = [] ∧
    (sv_starts v = [] ∨ sv_starts v = [mw_stream self]).

(** The writer is suspended in the state [ws]. *)
Definition writer_at (ws : WriterState) (returned : list MediaFrame) (w : MwWorld) : Prop :=
  reachable config (mww_store w) ∧ ∃ log, st_sessions (mww_store w) !! sid = Some log ∧
    writer_inv ws (mww_assets w) returned (view mid (log_events log)).

Lemma env_writer_at ws returned w w' :
  writer_at ws returned w → rtc (mw_env sid mid) w w' → writer_at ws returned w'.
Proof.
  intros Hat Henv. eapply (env_invariant _ (writer_at ws returned)); [|done..].
  clear. intros x y [Hr (log & Hl & Hi)] Hs. destruct Hs as [w op Ht Hd|w|w]; [|by split; eauto..].
  split; [by constructor|]. cbn.
  destruct (apply_op_view op (mww_store w) sid mid log) as (log' & Hl' & Hv);
    [by eapply reachable_wf|done..|]. exists log'. by rewrite Hv.
Qed.

(** What an append of the writer can do to the view of its stream. *)
Lemma mw_append_cases p w r w' log :
  reachable config (mww_store w) → st_sessions (mww_store w) !! sid = Some log →
  pe_session_id p = sid → mw_step _ (MwAppend p) w r w' →
  reachable config (mww_store w') ∧ mww_assets w' = mww_assets w ∧
  ∃ log', st_sessions (mww_store w') !! sid = Some log' ∧
    ((view mid (log_events log') = view mid (log_events log) ∧
      ∀ e, r = Ok e → decide_append log p = Ok (ReturnExisting e)) ∨
     (view mid (log_events log') = view_push mid (pe_payload p) (view mid (log_events log)) ∧
      ∃ eid, permitted (log_tracking log) (event_of eid (len (log_events log) + 1) p))).
Proof.
  intros Hr Hl Hown (eid & answer & st' & Happ & Hcase).
  assert (reachable config st') as Hr'.
  { replace st' with (apply_op (OpAppend eid p) (mww_store w)) by (cbn; by rewrite Happ).
    by constructor. }
  pose proof (reachable_log _ _ _ _ Hr Hl) as Hwf.
  assert (∃ log', st_sessions st' !! sid = Some log' ∧
    ((view mid (log_events log') = view mid (log_events log) ∧
      ∀ e, answer = Ok e → decide_append log p = Ok (ReturnExisting e)) ∨
     (view mid (log_events log') = view_push mid (pe_payload p) (view mid (log_events log)) ∧
      ∃ eid, permitted (log_tracking log) (event_of eid (len (log_events log) + 1) p))))
    as (log' & Hl' & Hv).
  { apply append_cases in Happ as [[-> He]|(l & q & t & Ho & _ & Hn & Hd & _ & ->)].
    - exists log. split; [done|left]. split; [done|]. intros e He'.
      destruct (He e He') as (l & (_ & _ & _ & Hl') & _ & _ & Hd). rewrite Hown in Hl'.
      by simplify_eq.
    - destruct Ho as (_ & _ & _ & Hl'). rewrite Hown in Hl'. simplify_eq.
      exists (appended (event_of eid q p) t log). rewrite Hown. split; [apply lookup_insert_eq|right].
      destruct (appended_info (event_of eid q p) t log) as (_ & -> & _). rewrite view_snoc.
      split; [done|]. destruct (next_sequence_wf _ _ _ _ Hwf Hn) as [<- _]. exists eid.
      eapply decide_append_proceeds; [by eapply media_positive_wf|eauto]. }
  destruct Hcase as [[-> ->]|[Herr [->| ->]]]; (split; [done|]); (split; [done|]).
  - eauto.
  - exists log'. split; [done|]. destruct Hv as [[? _]|?]; [left|by right].
    split; [done|]. by intros e ->.
  - exists log. split; [done|left]. split; [done|]. by intros e ->.
Qed.

Lemma wp_writer_read {R A} (e : MwE R) (k : R → prog MwE A) Q ws returned w :
  match e with MwReadCell _ | MwReadClock | MwLock _ => True | _ => False end →
  writer_at ws returned w →
  (∀ r w', writer_at ws returned w' → mw_wp (k r) Q w') → mw_wp (Step R e k) Q w.
Proof.
  intros He Hat Hk w1 r w2 Henv Hs. apply Hk.
  pose proof (env_writer_at _ _ _ _ Hat Henv) as H1.
  destruct e; try done; cbn in Hs; destruct_and?; by subst.
Qed.

(** A method of the writer that keeps the invariant: [Q] holds of a
    successful result. *)
Definition keeps {A} (m : mw A) (ws : WriterState) (returned : list MediaFrame)
    (Q : A → WriterState → Prop) : Prop :=
  ∀ w, writer_at ws returned w →
  mw_wp (m ws) (λ rs w', writer_at rs.2 returned w' ∧
    match rs.1 with Ok a => Q a rs.2 | Err _ => True end) w.

Lemma keeps_bind {A B} (m : mw A) (f : A → mw B) ws returned Q Q' :
  keeps m ws returned Q → (∀ a ws', Q a ws' → keeps (f a) ws' returned Q') →
  keeps (m ≫= f) ws returned Q'.
Proof.
  intros Hm Hf w Hat. apply wp_am_bind. eapply wp_mono; [by apply Hm|].
  intros [[a|e] ws'] w' [Hat' HQ]; cbn in *; [|done]. by apply Hf.
Qed.

Lemma keeps_ret {A} (a : A) ws returned (Q : A → WriterState → Prop) :
  Q a ws → keeps (mret a) ws returned Q.
Proof. by intros HQ w Hat. Qed.

Lemma keeps_get ws returned (Q : WriterState → WriterState → Prop) :
  Q ws ws → keeps am_get ws returned Q.
Proof. by intros HQ w Hat. Qed.

Lemma keeps_lift {A} (r : result MediaStreamError A) ws returned (Q : A → WriterState → Prop) :
  (∀ a, r = Ok a → Q a ws) → keeps (am_lift r) ws returned Q.
Proof. intros HQ w Hat. split; [done|]. destruct r; cbn; auto. Qed.

Lemma keeps_active control ws returned : keeps (ensure_active control) ws returned (λ _ ws', ws' = ws).
Proof.
  intros w Hat. apply wp_am_bind. eapply wp_writer_read; [done..|].
  intros [reason|] w1 H1; [done|]. apply wp_am_bind. eapply wp_writer_read; [done..|].
  intros now w2 H2. cbn. split; [done|]. by destruct (is_expired _ _).
Qed.

Lemma keeps_lock control ws returned : keeps (lock control) ws returned (λ _ ws', ws' = ws).
Proof.
  intros w Hat. apply wp_am_bind. eapply wp_writer_read; [done..|].
  intros [t|reason|] w1 H1; by cbn.
Qed.

Lemma set_started_id ws : ws_started ws = true → set_started ws = ws.
Proof. by destruct ws; cbn; intros ->. Qed.

Lemma keeps_started ws returned :
  keeps (ensure_started_locked self) ws returned (λ _ ws', ws' = set_started ws).
Proof.
  eapply keeps_bind; [by apply (keeps_get _ _ (λ s ws', s = ws ∧ ws' = ws))|].
  intros ? ? [-> ->]. destruct (ws_started ws) eqn:Hstarted.
  { apply keeps_ret. symmetry. by apply set_started_id. }
  intros w Hat. apply wp_am_bind. intros w1 r w2 Henv Hs.
  destruct (env_writer_at _ _ _ _ Hat Henv) as [Hr (log & Hl & Hi)].
  destruct (mw_append_cases (start_pending self) _ _ _ log Hr Hl eq_refl Hs) as (Hr' & Ha & log' & Hl' & Hv).
  pose proof (stream_view _ _ _ mid (reachable_log _ _ _ _ Hr Hl)) as [_ Hview].
  remember (view mid (log_events log)) as v eqn:Ev. clear Ev.
  unfold writer_inv in Hi. rewrite Hstarted in Hi. destruct Hi as (-> & Has & -> & Hf & He & Hst).
  assert (∀ ok : bool, ok = is_ok r → writer_at (if ok then set_started prepare else prepare) [] w2) as Hat2.
  { intros ok Hok. split; [done|]. exists log'. split; [done|]. rewrite Ha, Has.
    destruct Hv as [[Hv Hret]|[Hv (eid & Hperm)]]; rewrite Hv.
    - destruct r as [e|e]; rewrite Hok; [|by split_and!].
      specialize (Hret e eq_refl). cbn in Hret. unfold decide_media_started in Hret.
      destruct Hview as [(_ & _ & _ & _ & Hns)|(info & Hstarts & _ & _)].
      + rewrite bool_decide_false in Hret by done. by case_match.
      + destruct Hst as [Hst|Hst]; [congruence|]. unfold writer_inv, frames_in_step. cbn. rewrite Hf. by split_and!.
    - destruct Hperm as [Hns _]. cbn in Hns. cbn [view_push pe_payload start_pending event_at].
      rewrite bool_decide_refl. destruct Hview as [(Hstarts & _)|(? & _ & ? & _)]; [|done].
      unfold writer_inv, frames_in_step. cbn. rewrite Hstarts, Hf, Hok.
      destruct r; cbn; split_and!; try done. by right. }
  destruct r as [e|e]; cbn; (split; [|done]); by apply (Hat2 _ eq_refl).
Qed.

(** A frame whose append was answered with a stored event is recorded. *)
Lemma retried_frame_recorded p log e :
  mf_stream_id (pf_frame p) = mid → decide_append log (frame_pending self p) = Ok (ReturnExisting e) →
  pf_frame p ∈ sv_frames (view mid (log_events log)).
Proof.
  intros Hmid [Hin (_ & _ & _ & Heq)]%decide_append_existing%exact_media_retry_some.
  cbn in Heq. destruct (ev_payload e) eqn:Hpe; try done. apply bool_decide_eq_true in Heq.
  apply list_elem_of_omap. exists e. split; [done|]. rewrite Hpe, Heq. by rewrite bool_decide_true.
Qed.

(** A flushed frame is recorded, whether this append committed it or an
    earlier one did. *)
Lemma wp_flush ws returned p w :
  ws_started ws = true → ws_pending ws = Some p → writer_at ws returned w →
  mw_wp (flush_pending self ws) (λ rs w', match rs.1 with
    | Ok _ => rs.2 = frame_flushed ws ∧ writer_at rs.2 (returned ++ [pf_frame p]) w'
    | Err _ => rs.2 = ws ∧ writer_at ws returned w' end) w.
Proof.
  intros Hst Hp Hat. unfold flush_pending. apply wp_am_bind. cbn [wp am_get fst snd].
  rewrite Hp. apply wp_am_bind. intros w1 r w2 Henv Hs.
  destruct (env_writer_at _ _ _ _ Hat Henv) as [Hr (log & Hl & Hi)].
  destruct (mw_append_cases (frame_pending self p) _ _ _ log Hr Hl eq_refl Hs) as (Hr' & Ha & log' & Hl' & Hv).
  pose proof (stream_view _ _ _ mid (reachable_log _ _ _ _ Hr Hl)) as [Hidx Hview].
  unfold writer_inv, frames_in_step in Hi. rewrite Hst, Hp in Hi.
  destruct Hi as (Hstarts & (Hmid & Hix & flushed & Hnext & Has & Hsub & Hrec) & Hend).
  remember (view mid (log_events log)) as v eqn:Ev. set (f := pf_frame p) in *.
  assert (∀ n, ws_terminal_frame_count ws ≠ Some n) as Hnt.
  { intros n Hn. by destruct (Hend n Hn) as [? _]. }
  assert (sv_frames (view mid (log_events log')) = flushed ++ [f] ∨
          is_ok r = false ∧ sv_frames (view mid (log_events log')) = flushed) as Hrec'.
  { destruct Hv as [[Hv Hret]|[Hv (eid & s & Hs' & Hfi & _)]]; rewrite Hv.
    - destruct Hrec as [Hrec|Hrec]; [|by left]. right. split; [|done].
      destruct r as [e|]; [|done]. specialize (Hret e eq_refl).
      apply retried_frame_recorded in Hret as Hfin; [|done]. rewrite <-Ev in Hfin. fold f in Hfin.
      apply (list_elem_of_fmap_2 mf_frame_index) in Hfin. rewrite Hidx, Hrec in Hfin.
      apply list_elem_of_fmap in Hfin as (i & Hi & [_ Hlt]%elem_of_seq). unfold len in *. lia.
    - cbn [view_push pe_payload frame_pending event_at].
      rewrite bool_decide_true by done. cbn. left. f_equal.
      destruct Hrec as [->|Hrec]; [done|]. cbn in Hs', Hfi.
      fold f in Hs', Hfi. rewrite Hmid in Hs'.
      destruct Hview as [(? & _)|(info & _ & _ & [(_ & Hm)|(_ & Hm)])]; [congruence| |];
        rewrite Hm in Hs'; [|done]. injection Hs' as <-. cbn in Hfi.
      rewrite Hrec, len_snoc in Hfi. lia. }
  assert (sv_starts (view mid (log_events log')) = [mw_stream self]) as Hstarts'.
  { destruct Hv as [[-> _]|[-> _]]; [done|]. cbn [view_push pe_payload frame_pending event_at].
    by case_bool_decide. }
  destruct r as [e|e]; cbn; (split; [done|]); (split; [done|]);
    exists log'; (split; [done|]); unfold writer_inv, frames_in_step; cbn; rewrite Hst, ?Hp, Ha.
  - destruct Hrec' as [Hrec'|[? _]]; [|done]. cbn in Hrec'. rewrite Hrec'. split_and!; [done|..].
    + rewrite Has, fmap_app. done.
    + rewrite len_snoc. lia.
    + by apply sublist_app.
    + intros n Hn. by destruct (Hnt n).
  - split_and!; [done..| |].
    + exists flushed. split_and!; [done..|]. destruct Hrec' as [?|[_ ?]]; auto.
    + intros n Hn. by destruct (Hnt n).
Qed.

Lemma writer_at_sublist ws returned returned' w :
  returned' `sublist_of` returned → writer_at ws returned w → writer_at ws returned' w.
Proof.
  intros Hsub [Hr (log & Hl & Hi)]. split; [done|]. exists log. split; [done|].
  unfold writer_inv, frames_in_step in *. destruct (ws_started ws).
  - destruct Hi as (? & Hf & ?). split_and!; [done| |done].
    destruct (ws_pending ws).
    + destruct Hf as (? & ? & flushed & ? & ? & ? & ?). split_and!; [done..|].
      exists flushed. split_and!; try done. by etrans.
    + destruct Hf as (? & ? & ?). split_and!; try done. by etrans.
  - destruct Hi as (? & ? & -> & ?). by apply sublist_nil_r in Hsub as ->.
Qed.

Lemma keeps_flush ws returned :
  ws_started ws = true →
  keeps (flush_pending self) ws returned (λ _ ws', ws_started ws' = true ∧ ws_pending ws' = None ∧
    ws_terminal_frame_count ws' = ws_terminal_frame_count ws).
Proof.
  intros Hst w Hat. destruct (ws_pending ws) as [p|] eqn:Hp.
  - eapply wp_mono; [by eapply wp_flush|]. intros [[u|e] ws'] w'; cbn.
    + intros [-> Hat']. split; [|done].
      eapply writer_at_sublist; [|done]. by apply sublist_inserts_r.
    + by intros [-> Hat'].
  - unfold flush_pending. apply wp_am_bind. cbn [wp am_get fst snd]. rewrite Hp. by cbn.
Qed.

(** A step that keeps the invariant, followed by anything. *)
Lemma keeps_then {A B} (m : mw A) (f : A → mw B) ws returned Q Post w :
  keeps m ws returned Q → writer_at ws returned w →
  (∀ e ws' w', writer_at ws' returned w' → Post (Err e, ws') w') →
  (∀ a ws' w', Q a ws' → writer_at ws' returned w' → mw_wp (f a ws') Post w') →
  mw_wp ((m ≫= f) ws) Post w.
Proof.
  intros Hm Hat Herr Hok. apply wp_am_bind. eapply wp_mono; [by apply Hm|].
  intros [[a|e] ws'] w' [Hat' HQ]; cbn in *; auto.
Qed.

(** An evidence operation stores one more asset or fails. *)
Definition stores (store : mw StoredEvidence) : Prop :=
  ∀ ws returned Post w, writer_at ws returned w →
  (∀ e w', writer_at ws returned w' → Post (Err e, ws) w') →
  (∀ stored w', writer_at ws returned w' → Post (Ok stored, ws) (mww_stored (Ok stored) w')) →
  mw_wp (store ws) Post w.

Lemma mww_stored_err e w : mww_stored (Err e) w = w.
Proof. destruct w. unfold mww_stored. cbn. by rewrite app_nil_r. Qed.

Lemma stores_put request : stores (am_try MediaEvidence (MwPut request)).
Proof.
  intros ws returned Post w Hat Herr Hok w1 r w2 Henv ->.
  pose proof (env_writer_at _ _ _ _ Hat Henv). destruct r as [stored|e]; cbn; [by apply Hok|].
  rewrite mww_stored_err. by apply Herr.
Qed.

Lemma stores_put_request (request : result MediaStreamError PutEvidence) f :
  stores (r ← am_lift request; am_try MediaEvidence (MwPut (f r))).
Proof.
  intros ws returned Post w Hat Herr Hok. apply wp_am_bind.
  destruct request as [r|e]; cbn [wp am_lift fst snd]; [|by apply Herr].
  by eapply stores_put.
Qed.

Lemma stores_attach asset : stores (am_try MediaEvidence (MwAttach sid asset)).
Proof.
  intros ws returned Post w Hat Herr Hok w1 r w2 Henv ->.
  pose proof (env_writer_at _ _ _ _ Hat Henv). destruct r as [stored|e]; cbn; [by apply Hok|].
  rewrite mww_stored_err. by apply Herr.
Qed.

(** The new frame becomes pending together with its evidence. *)
Lemma writer_at_pending ws returned w request_id at_ms key duration stored :
  ws_started ws = true → ws_pending ws = None → ws_terminal_frame_count ws = None →
  writer_at ws returned w →
  let frame := mkMediaFrame mid (ws_next_frame_index ws) key duration (asset_ref stored) in
  writer_at (set_pending (mkPendingFrame request_id at_ms frame) ws) returned
    (mww_stored (Ok stored) w).
Proof.
  intros Hst Hp Ht [Hr (log & Hl & Hi)] frame. split; [done|]. exists log. split; [done|].
  unfold writer_inv, frames_in_step in *. rewrite Hst, Hp in Hi. cbn. rewrite Hst, Ht.
  destruct Hi as (? & (Ha & ? & ?) & _). split_and!; try done.
  eexists. split_and!; [done|by rewrite Ha|done|by left].
Qed.

(** The frame a successful push returns is recorded after the earlier ones. *)
Definition push_post (returned : list MediaFrame) (rs : result MediaStreamError MediaFrame * WriterState)
    (w : MwWorld) : Prop :=
  writer_at rs.2 (returned ++ match rs.1 with Ok f => [f] | Err _ => [] end) w.

Lemma wp_push control request_id at_ms key duration store ws returned w :
  stores store → writer_at ws returned w →
  mw_wp (push_locked self control request_id at_ms key duration store ws) (push_post returned) w.
Proof.
  intros Hstore Hat.
  assert (∀ e ws' w', writer_at ws' returned w' → push_post returned (Err e, ws') w') as Herr
    by (intros; unfold push_post; cbn; by rewrite app_nil_r).
  eapply keeps_then; [apply keeps_lock|done|done|]. intros _ ws1 w1 -> H1.
  eapply keeps_then; [apply keeps_started|done|done|]. intros _ ws2 w2 -> H2.
  eapply keeps_then; [by apply (keeps_get _ _ (λ s ws', s = ws' ∧ ws' = set_started ws))|done..|].
  intros s ws3 w3 [-> ->] H3. eapply keeps_then; [|done..|].
  { apply (keeps_lift _ _ _ (λ _ ws', ws' = set_started ws ∧ ws_terminal_frame_count ws' = None)).
    intros [] Hr%reject_if_ok. split; [done|]. apply bool_decide_eq_false in Hr.
    by apply eq_None_not_Some. }
  intros _ ws4 w4 [-> Hterm] H4. eapply keeps_then; [by apply keeps_flush|done..|].
  intros _ ws5 w5 (Hst & Hp & Ht) H5. rewrite Hterm in Ht.
  eapply keeps_then; [apply keeps_active|done..|]. intros _ ws6 w6 -> H6.
  eapply keeps_then; [by apply (keeps_get _ _ (λ s ws', s = ws' ∧ ws' = ws5))|done..|].
  intros s ws7 w7 [-> ->] H7. eapply keeps_then; [|done..|].
  { apply (keeps_lift _ _ _ (λ i ws', i = ws_next_frame_index ws5 ∧ ws' = ws5)).
    intros i Hi%ok_or_ok. apply EventSequence_new_some in Hi as [-> _]. done. }
  intros i ws8 w8 [-> ->] H8. apply wp_am_bind. eapply Hstore; [done|by intros; apply Herr|].
  intros stored w9 H9. cbn [fst snd]. apply wp_am_bind. cbn [wp am_modify fst snd].
  apply wp_am_bind. eapply wp_mono.
  - eapply wp_flush; [done|reflexivity|]. by apply writer_at_pending.
  - intros [[u|e] ws'] w'; cbn; [|intros [-> ?]; by apply Herr]. by intros [-> Hat'].
Qed.

Lemma keeps_close request_id at_ms ws returned :
  keeps (close_stream self request_id at_ms) ws returned
    (λ n ws', ws_started ws' = true ∧ ws_terminal_frame_count ws' = Some n).
Proof.
  intros w Hat. apply wp_am_bind. cbn [wp am_get fst snd].
  destruct (ws_terminal_frame_count ws) as [n|] eqn:Ht.
  { cbn. split; [done|]. split; [|done]. destruct Hat as [_ (log & _ & Hi)].
    unfold writer_inv in Hi. destruct (ws_started ws); [done|]. by destruct Hi as (-> & _). }
  assert (∀ e ws' w', writer_at ws' returned w' → writer_at (Err (A:=N) e, ws').2 returned w' ∧ True)
    as Herr by done.
  eapply keeps_then; [apply keeps_started|done|done|]. intros _ ws2 w2 -> H2.
  eapply keeps_then; [by apply keeps_flush|done..|]. intros _ ws3 w3 (Hst & Hp & Ht') H3.
  cbn in Ht'. rewrite Ht in Ht'.
  eapply keeps_then; [by apply (keeps_get _ _ (λ s ws', s = ws' ∧ ws' = ws3))|done..|].
  intros s ws4 w4 [-> ->] H4. cbv zeta. set (t := default _ _).
  apply wp_am_bind. cbn [wp am_modify fst snd]. apply wp_am_bind.
  intros w5 r w6 Henv Hs.
  destruct (env_writer_at _ _ _ _ H4 Henv) as [Hr (log & Hl & Hi)].
  destruct (mw_append_cases (terminal_pending self t (ws_next_frame_index ws3 - 1)) _ _ _ log
    Hr Hl eq_refl Hs) as (Hr' & Ha & log' & Hl' & Hv).
  pose proof (stream_view _ _ _ mid (reachable_log _ _ _ _ Hr Hl)) as [_ Hview].
  remember (view mid (log_events log)) as v eqn:Ev. clear Ev.
  unfold writer_inv, frames_in_step in Hi. rewrite Hst, Hp in Hi.
  destruct Hi as (Hstarts & (Has & Hnext & Hsub) & _).
  replace (ws_next_frame_index ws3 - 1) with (len (sv_frames v)) in * by lia.
  destruct Hview as [(? & _)|(info & _ & _ & Hends)]; [congruence|].
  assert (sv_starts (view mid (log_events log')) = [mw_stream self] ∧
    sv_frames (view mid (log_events log')) = sv_frames v ∧
    (is_ok r = true → sv_ends (view mid (log_events log')) = [len (sv_frames v)]))
    as (Hstarts' & Hframes' & Hends').
  { destruct Hv as [[-> Hret]|[-> (eid & s & Hs' & _)]].
    - split_and!; [done..|]. destruct r as [e|]; [|done]. intros _.
      specialize (Hret e eq_refl). cbn in Hret. unfold decide_media_ended in Hret.
      destruct Hends as [(_ & Hm)|(He & _)]; [|done]. rewrite Hm in Hret. by case_match.
    - cbn in Hs'. destruct Hends as [(He & _)|(_ & Hm)]; [|by rewrite Hm in Hs'].
      cbn [view_push pe_payload terminal_pending event_at]. rewrite bool_decide_refl. cbn.
      by rewrite He. }
  remember (view mid (log_events log')) as v' eqn:Ev'.
  destruct r as [e|e]; cbn; (split; [|done]); (split; [done|]); exists log'; (split; [done|]);
    rewrite <- Ev', Ha; unfold writer_inv, frames_in_step; cbn; rewrite Hst, Hp, Hframes';
    split_and!; try done.
  - intros n [= <-]. split_and!; [done|by apply Hends'|done].
  - intros n. by rewrite Ht'.
Qed.

(** ** Sequences of calls *)

Inductive WriterCall :=
| DoEnsureStarted
| DoPushFrame (control : ExecutionControl) (request_id : option RpcId) (at_ms : N)
    (key_frame : bool) (duration_ms : option N) (declared_size_bytes : N)
| DoPushAsset (control : ExecutionControl) (request_id : option RpcId) (at_ms : N)
    (key_frame : bool) (duration_ms : option N) (asset : AssetRef)
| DoClose (request_id : option RpcId) (at_ms : N).

Inductive CallResult := IsStarted | IsFrame (f : MediaFrame) | IsClosed (n : N).

Definition run_call (c : WriterCall) : mw CallResult :=
  match c with
  | DoEnsureStarted => check! ensure_started self; mret IsStarted
  | DoPushFrame control rid at_ms key duration size =>
      f ← push_frame_with_request_id self control rid at_ms key duration size; mret (IsFrame f)
  | DoPushAsset control rid at_ms key duration asset =>
      f ← push_asset_frame_with_request_id self control rid at_ms key duration asset;
      mret (IsFrame f)
  | DoClose rid at_ms => n ← close_stream self rid at_ms; mret (IsClosed n)
  end.

(** The calls made on a writer so far with their results, the writer's state
    and the world. *)
Inductive writer_runs (w0 : MwWorld)
    : list (WriterCall * result MediaStreamError CallResult) → WriterState → MwWorld → Prop :=
| writer_prepared : writer_runs w0 [] prepare w0
| writer_waits h ws w w' :
    writer_runs w0 h ws w → rtc (mw_env sid mid) w w' → writer_runs w0 h ws w'
| writer_calls h ws w c r ws' w' :
    writer_runs w0 h ws w → runs mw_step (mw_env sid mid) (run_call c ws) w (r, ws') w' →
    writer_runs w0 (h ++ [(c, r)]) ws' w'.

(** The frames the successful pushes returned. *)
Definition returned_frames (h : list (WriterCall * result MediaStreamError CallResult))
    : list MediaFrame :=
  omap (λ cr, match cr.2 with Ok (IsFrame f) => Some f | _ => None end) h.

Definition frame_of (r : result MediaStreamError CallResult) : list MediaFrame :=
  match r with Ok (IsFrame f) => [f] | _ => [] end.

Lemma wp_push_call (m : mw MediaFrame) ws returned w :
  mw_wp (m ws) (push_post returned) w →
  mw_wp ((f ← m; mret (IsFrame f)) ws)
    (λ rs w', writer_at rs.2 (returned ++ frame_of rs.1) w' ∧
       ∀ n, rs.1 = Ok (IsClosed n) → ws_terminal_frame_count rs.2 = Some n) w.
Proof.
  intros Hm. apply wp_am_bind. eapply wp_mono; [done|].
  intros [[f|e] ws'] w'; cbn; intros Hat; split; done.
Qed.

Lemma wp_call c ws returned w :
  writer_at ws returned w →
  mw_wp (run_call c ws) (λ rs w', writer_at rs.2 (returned ++ frame_of rs.1) w' ∧
    ∀ n, rs.1 = Ok (IsClosed n) → ws_terminal_frame_count rs.2 = Some n) w.
Proof.
  intros Hat. assert (∀ e ws' w', writer_at ws' returned w' → push_post returned (Err e, ws') w')
    as Herr by (intros; unfold push_post; cbn; by rewrite app_nil_r).
  destruct c as [|control rid at_ms key d size|control rid at_ms key d asset|rid at_ms].
  - eapply keeps_then; [apply keeps_started|done|..].
    + intros e ws' w' ?. cbn. by rewrite app_nil_r.
    + intros _ ws' w' _ ?. cbn. by rewrite app_nil_r.
  - apply wp_push_call. eapply keeps_then; [apply keeps_active|done..|]. intros _ ws1 w1 -> H1.
    eapply keeps_then; [by apply (keeps_lift _ _ _ (λ _ ws', ws' = ws))|done..|].
    intros _ ws2 w2 -> H2. apply wp_push; [|done]. apply stores_put_request.
  - apply wp_push_call. eapply keeps_then; [apply keeps_active|done..|]. intros _ ws1 w1 -> H1.
    eapply keeps_then; [by apply (keeps_lift _ _ _ (λ _ ws', ws' = ws))|done..|].
    intros _ ws2 w2 -> H2. apply wp_push; [apply stores_attach|done].
  - eapply keeps_then; [apply keeps_close|done|..].
    + intros e ws' w' ?. cbn. by rewrite app_nil_r.
    + intros n ws' w' [_ Hn] ?. cbn. rewrite app_nil_r. split; [done|]. by intros ? [= <-].
Qed.

(** A closed writer stays closed. *)
Definition sticky {A} (m : mw A) : Prop :=
  ∀ ws w n, ws_terminal_frame_count ws = Some n →
  mw_wp (m ws) (λ rs _, ws_terminal_frame_count rs.2 = Some n) w.

Lemma sticky_bind {A B} (m : mw A) (f : A → mw B) :
  sticky m → (∀ a, sticky (f a)) → sticky (m ≫= f).
Proof.
  intros Hm Hf ws w n Hn. apply wp_am_bind. eapply wp_mono; [by eapply Hm|].
  intros [[a|e] ws'] w' Hn'; cbn in *; [by apply Hf|done].
Qed.

Lemma sticky_ret {A} (a : A) : sticky (mret a).
Proof. by intros ws w n Hn. Qed.
Lemma sticky_get : sticky am_get.
Proof. by intros ws w n Hn. Qed.
Lemma sticky_lift {A} (r : result MediaStreamError A) : sticky (am_lift r).
Proof. by intros ws w n Hn. Qed.
Lemma sticky_effect {R} (e : MwE R) : sticky (am_effect e).
Proof. by intros ws w n Hn w1 r w2 _ _. Qed.
Lemma sticky_try {Er A} (f : Er → MediaStreamError) (e : MwE (result Er A)) : sticky (am_try f e).
Proof. by intros ws w n Hn w1 r w2 _ _. Qed.
Lemma sticky_modify f :
  (∀ ws, ws_terminal_frame_count (f ws) = ws_terminal_frame_count ws) → sticky (am_modify f).
Proof. intros Hf ws w n Hn. cbn. by rewrite Hf. Qed.

Create HintDb sticky.
#[local] Hint Resolve sticky_bind sticky_ret sticky_get sticky_lift sticky_effect sticky_try
  sticky_modify : sticky.

Lemma sticky_active control : sticky (ensure_active control).
Proof. apply sticky_bind; [eauto with sticky|]. intros []; eauto with sticky. Qed.

Lemma sticky_started : sticky (ensure_started_locked self).
Proof. apply sticky_bind; [eauto with sticky|]. intros ws. case_match; eauto 6 with sticky. Qed.

Lemma sticky_flush : sticky (flush_pending self).
Proof. apply sticky_bind; [eauto with sticky|]. intros ws. case_match; eauto 6 with sticky. Qed.

Lemma sticky_push control rid at_ms key d store :
  sticky store → sticky (push_locked self control rid at_ms key d store).
Proof.
  intros Hs. unfold push_locked, lock.
  repeat (first [apply sticky_flush | apply sticky_started | apply sticky_active
    | apply sticky_bind | solve [eauto with sticky] | intros ?]).
Qed.

Lemma sticky_call c : sticky (run_call c).
Proof.
  destruct c as [|control rid at_ms key d size|control rid at_ms key d asset|rid at_ms]; cbn.
  - apply sticky_bind; [apply sticky_started|eauto with sticky].
  - apply sticky_bind; [|eauto with sticky]. unfold push_frame_with_request_id.
    apply sticky_bind; [apply sticky_active|intros _]. apply sticky_bind; [eauto with sticky|intros _].
    apply sticky_push. eauto with sticky.
  - apply sticky_bind; [|eauto with sticky]. unfold push_asset_frame_with_request_id.
    apply sticky_bind; [apply sticky_active|intros _]. apply sticky_bind; [eauto with sticky|intros _].
    apply sticky_push. eauto with sticky.
  - apply sticky_bind; [|eauto with sticky]. intros ws w n Hn. apply wp_am_bind.
    cbn [wp am_get fst snd]. rewrite Hn. done.
Qed.

(** The state of a writer and its log after any calls. *)
Lemma writer_runs_at w0 h ws w :
  writer_at prepare [] w0 → writer_runs w0 h ws w →
  writer_at ws (returned_frames h) w ∧
  ∀ c n, (c, Ok (IsClosed n)) ∈ h → ws_terminal_frame_count ws = Some n.
Proof.
  intros H0. induction 1 as [|h ws w w' _ [IH IHc] Henv|h ws w c r ws' w' _ [IH IHc] Hrun].
  - split; [done|]. intros c n Hin. by apply elem_of_nil in Hin.
  - split; [by eapply env_writer_at|done].
  - pose proof (wp_sound _ _ _ _ _ _ _ (wp_call c ws _ w IH) Hrun) as [Hat Hc]. cbn in Hat, Hc.
    split.
    + unfold returned_frames in *. rewrite omap_app. cbn. by destruct r as [[]|].
    + intros c' n [Hin|[= -> Hr]%list_elem_of_singleton]%elem_of_app; [|by apply Hc].
      exact (wp_sound _ _ _ _ _ _ _ (sticky_call c ws w n (IHc c' n Hin)) Hrun).
Qed.

(** C39: whatever calls are made on a media stream writer, with appends that
    are lost or committed but reported as failed and with other tasks using
    the store: the frames the successful pushes returned are in the Session's
    log, in order and each once; every stored evidence object is the evidence
    of exactly one recorded frame, in the order of storing, except at most the
    last one; and once a close has succeeded with [n], the stream is started
    once, has exactly [n] frames, one per stored object, and is ended once
    with that count. *)
Theorem media_frames_recorded_once w0 h ws w log0 :
  reachable config (mww_store w0) → st_sessions (mww_store w0) !! sid = Some log0 →
  mid ∉ log_seen_media_streams log0 → mww_assets w0 = [] →
  writer_runs w0 h ws w →
  ∃ log, st_sessions (mww_store w) !! sid = Some log ∧
    let recorded := frames mid (log_events log) in
    returned_frames h `sublist_of` recorded ∧
    mf_frame_index <$> recorded = indices (length recorded) ∧
    (mf_evidence <$> recorded = mww_assets w ∨
     ∃ a, (mf_evidence <$> recorded) ++ [a] = mww_assets w) ∧
    (∀ c n, (c, Ok (IsClosed n)) ∈ h →
       stream_starts mid (log_events log) = [mw_stream self] ∧
       mf_evidence <$> recorded = mww_assets w ∧
       stream_ends mid (log_events log) = [n] ∧ n = len recorded).
Proof.
  intros Hr Hl Hfresh Ha Hrun.
  assert (writer_at prepare [] w0) as H0.
  { split; [done|]. exists log0. split; [done|].
    destruct (stream_view _ _ _ mid (reachable_log _ _ _ _ Hr Hl))
      as [_ [(? & ? & ? & _)|(? & _ & ? & _)]]; [|done]. split_and!; auto. }
  destruct (writer_runs_at _ _ _ _ H0 Hrun) as [[Hr' (log & Hlog & Hi)] Hc].
  exists log. split; [done|]. cbn zeta.
  destruct (stream_view _ _ _ mid (reachable_log _ _ _ _ Hr' Hlog)) as [Hidx _]. cbn in Hidx.
  unfold writer_inv, frames_in_step in Hi. cbn in Hi. destruct (ws_started ws).
  - destruct Hi as (Hs & Hf & He). destruct (ws_pending ws) as [p|].
    + destruct Hf as (_ & _ & flushed & _ & Has & Hsub & Hrec). split_and!; [|done|..].
      * destruct Hrec as [->| ->]; [done|]. by apply sublist_inserts_r.
      * destruct Hrec as [->| ->]; [right; eauto|left]. by rewrite Has, fmap_app.
      * intros c n Hin. by destruct (He n (Hc _ _ Hin)) as [? _].
    + destruct Hf as (Has & _ & Hsub). split_and!; [done..|by left|].
      intros c n Hin. destruct (He n (Hc _ _ Hin)) as (_ & ? & ?). by split_and!.
  - destruct Hi as (-> & Has & Hret & Hf & _). rewrite Hf, Has. split_and!; [by rewrite Hret|done|by left|].
    intros c n Hin. by specialize (Hc _ _ Hin).
Qed.
End WriterInvariant.

(** ** The theorem at a faulty store *)

(** The appends that are reported as failed although they are committed, and
    changed the log: that of frame 2, or that of the end. *)
Definition frame_fault (p : PendingEvent) (changed : bool) : bool :=
  match pe_payload p with
  | MediaFrameCaptured f => (mf_frame_index f =? 2) && changed
  | _ => false
  end.
Definition end_fault (p : PendingEvent) (changed : bool) : bool :=
  match pe_payload p with MediaStreamEnded _ _ => changed | _ => false end.

Definition log_length (sid : SessionId) (st : MemoryEventStore) : N :=
  from_option (λ log, len (log_events log)) 0 (st_sessions st !! sid).

Definition faulty_handler (faulty : PendingEvent → bool → bool) (stored : StoredEvidence)
    (R : Type) (e : MwE R) (w : MwWorld)
    : option (R * MwWorld) :=
  match e in MwE R return option (R * MwWorld) with
  | MwAppend p =>
      let '(answer, st') := append (2000 + log_length (pe_session_id p) (mww_store w)) p
        (mww_store w) in
      let changed := negb (log_length (pe_session_id p) st' =?
        log_length (pe_session_id p) (mww_store w)) in
      Some (if faulty p changed then Err (Internal "connection lost") else answer, mww_set st' w)
  | MwPut _ => Some (Ok stored, mww_stored (Ok stored) w)
  | MwAttach _ _ => Some (Ok stored, mww_stored (Ok stored) w)
  | MwReadCell cell => Some (mww_cells w !! cell, w)
  | MwReadClock => Some (mww_clock w, w)
  | MwLock _ => Some (Ready (), w)
  end.

Lemma faulty_handler_step faulty stored R e w r w' :
  faulty_handler faulty stored R e w = Some (r, w') → mw_step R e w r w'.
Proof.
  destruct e; cbn; try (intros [= <- <-]; by eauto).
  destruct (append _ _ _) as [answer st'] eqn:Happ. intros [= <- <-].
  do 3 eexists. split; [done|]. destruct (faulty _ _); [right|left]; auto.
Qed.

Fixpoint run_calls (faulty : PendingEvent → bool → bool) (self : MediaStreamWriter)
    (stored : StoredEvidence) (calls : list WriterCall) (ws : WriterState) (w : MwWorld)
    : option (list (WriterCall * result MediaStreamError CallResult) * WriterState * MwWorld) :=
  match calls with
  | [] => Some ([], ws, w)
  | c :: calls =>
      '(r, ws', w') ← exec (faulty_handler faulty stored) (run_call self c ws) w;
      '(h, ws'', w'') ← run_calls faulty self stored calls ws' w';
      Some ((c, r) :: h, ws'', w'')
  end.

Lemma run_calls_runs faulty self stored calls w0 h0 ws w h ws' w' :
  writer_runs self w0 h0 ws w → run_calls faulty self stored calls ws w = Some (h, ws', w') →
  writer_runs self w0 (h0 ++ h) ws' w'.
Proof.
  revert h0 ws w h. induction calls as [|c calls IH]; cbn; intros h0 ws w h H0.
  - intros [= <- <- <-]. by rewrite app_nil_r.
  - intros ([[r ws1] w1] & Hc & ([[h1 ws2] w2] & Hrest & [= <- <- <-])%bind_Some)%bind_Some.
    rewrite cons_middle, app_assoc. eapply IH; [|done]. eapply writer_calls; [done|].
    by eapply exec_runs; [apply faulty_handler_step|].
Qed.

Definition sample_writer : MediaStreamWriter :=
  mkMediaStreamWriter sample_session sample_request (Some sample_device)
    (mkMediaStreamInfo 61 Screenshot "image/png" (Some sample_viewport)) 1100.
Definition sample_png : StoredEvidence :=
  mkStoredEvidence (mkEvidenceMetadata sample_digest "image/png" 2048 1090 1) false.
Definition sample_push (at_ms : N) : WriterCall :=
  DoPushFrame (mkExecutionControl 1 None) None at_ms true (Some 33) 2048.
Definition sample_calls : list WriterCall := [sample_push 1101; sample_push 1102; DoClose None 1103].
Definition sample_mw_world : MwWorld := mkMwWorld opening_store ∅ 0 [].

(** The second push fails although its frame was committed; the close finds
    the frame and ends the stream with both. *)
Lemma media_frames_recorded_once_witness :
  ∃ h ws w log, run_calls frame_fault sample_writer sample_png sample_calls prepare
      sample_mw_world = Some (h, ws, w) ∧
    length (returned_frames h) = 1%nat ∧ st_sessions (mww_store w) !! sample_session = Some log ∧
    mf_evidence <$> frames 61 (log_events log) = mww_assets w ∧
    stream_ends 61 (log_events log) = [2].
Proof.
  assert (match run_calls frame_fault sample_writer sample_png sample_calls prepare sample_mw_world with
          | Some (h, _, _) => (length (returned_frames h) =? 1)%nat &&
              existsb (λ cr, match cr.2 with Ok (IsClosed n) => n =? 2 | _ => false end) h
          | None => false end = true) as Hok by (vm_compute; reflexivity).
  destruct (run_calls _ _ _ _ _ _) as [[[h ws] w]|] eqn:Hrun; [|done].
  apply andb_true_iff in Hok as [Hlen%Nat.eqb_eq ([c r] & Hin%list_elem_of_In & Hr)%existsb_exists].
  apply (run_calls_runs _ _ _ _ sample_mw_world [] _ _ _ _ _ (writer_prepared _ _)) in Hrun as Hruns.
  destruct (st_sessions opening_store !! sample_session) as [log0|] eqn:Hlog0;
    [|by vm_compute in Hlog0].
  destruct (media_frames_recorded_once EventStreamConfig_default sample_writer sample_mw_world h ws w
    log0) as (log & Hlog & _ & _ & _ & Hclosed).
  - apply opening_reachable.
  - exact Hlog0.
  - assert (61 ∉ from_option log_seen_media_streams ∅
      (st_sessions opening_store !! sample_session)) as H
      by (apply (bool_decide_unpack _); vm_compute; exact I).
    by rewrite Hlog0 in H.
  - reflexivity.
  - exact Hruns.
  - exists h, ws, w, log. split; [reflexivity|]. split; [exact Hlen|]. split; [exact Hlog|].
    destruct r as [[| |n]|]; try discriminate Hr. apply N.eqb_eq in Hr as ->.
    destruct (Hclosed c 2 Hin) as (_ & Hf & He & _). split; [exact Hf|exact He].
Defined.

(** A push after a close that was committed but reported as failed stores its
    evidence and then cannot append its frame, because the stream has ended;
    the frame stays pending and every later close fails on it. The stored
    object is not the evidence of any event. *)
Lemma push_after_ambiguous_close_strands_evidence :
  let calls := [sample_push 1101; DoClose None 1102; sample_push 1103; DoClose None 1104;
                DoClose None 1105] in
  match run_calls end_fault sample_writer sample_png calls prepare sample_mw_world with
  | Some (h, ws, w) =>
      h.*2 = [Ok (IsFrame (mkMediaFrame 61 1 true (Some 33) (asset_ref sample_png)));
              Err (MediaEvent (Internal "connection lost"));
              Err (MediaEvent (MediaStreamNotActive 61));
              Err (MediaEvent (MediaStreamNotActive 61));
              Err (MediaEvent (MediaStreamNotActive 61))] ∧
      length (mww_assets w) = 2%nat ∧
      (length ∘ frames 61 ∘ log_events) <$> st_sessions (mww_store w) !! sample_session = Some 1%nat
  | None => False
  end.
Proof. vm_compute. split_and!; reflexivity. Qed.
