(* ===== verification/Registry.v ===== *)
(** * The driver registry

    [crates/core/src/registry.rs]: the routes to the registered Drivers over
    one device pool. [Arc<Entry>]s are numbered in the order of their
    allocation, and a [DriverHandle] is such a number: an entry stays alive
    behind its handles after it has left the registry. Registration and
    removal hold the registry's lock for writing and are one step each. A
    method that holds it for reading is a sequence of steps between which
    other readers run: the entry check, the lookups of the pool, and the
    sections of [DevicePoolProps.v] that run under a device's gate. *)

From S2P Require Import Prelude Protocol Evidence EventStream EventStore Control Async.
From S2P Require Import Runtime DevicePool DevicePoolProps.

Local Open Scope N_scope.

Inductive RegistryError :=
| RegInvalidDeviceId (d : DeviceId)
| RegInvalidDeviceName (d : DeviceId)
| RegDeviceIdMismatch (driver_id info_id : DeviceId)
| RegDeviceAlreadyRegistered (d : DeviceId)
| RegDeviceNotFound (d : DeviceId)
| RegDeviceLeased (d : DeviceId)
| RegInventoryInconsistent (d : DeviceId)
| RegNoDevicesRegistered
| RegDeviceSelectionRequired (count : N).

(** [RegistryError::to_error_info], given the error's [Display] text *)
Definition registry_error_info (display : RegistryError → string) (e : RegistryError)
    : ErrorInfo :=
  let device d := Some (JObject [("deviceId"%string, JString d)]) in
  let '(code, retryable, details) :=
    match e with
    | RegInvalidDeviceId d => ("invalid_device_id", false, device d)
    | RegInvalidDeviceName d => ("invalid_device_name", false, device d)
    | RegDeviceIdMismatch driver_id info_id =>
        ("device_id_mismatch", false,
         Some (JObject [("driverId", JString driver_id); ("deviceInfoId", JString info_id)]))
    | RegDeviceAlreadyRegistered d => ("device_already_registered", false, device d)
    | RegDeviceNotFound d => ("device_not_found", false, device d)
    | RegDeviceLeased d => ("device_leased", true, device d)
    | RegInventoryInconsistent d => ("registry_inventory_inconsistent", false, device d)
    | RegNoDevicesRegistered => ("no_devices_registered", true, None)
    | RegDeviceSelectionRequired count =>
        ("device_selection_required", false,
         Some (JObject [("deviceCount", JNumber (PosInt count))]))
    end%string in
  mkErrorInfo code (display e) retryable details.

(** ** State *)

Definition EntryId : Type := N.

(** [Entry]; its lifecycle lock is behind the effects of [HandleE]. *)
Record Entry := mkEntry {
  ent_runtime : DeviceRuntime;
  ent_registration : DeviceRegistrationToken;
  ent_info : DeviceInfo;
}.

(** [DriverRegistry] with the allocated entries and the pool's guards and
    clock. *)
Record Registry := mkRegistry {
  rg_entries : gmap DeviceId EntryId;
  rg_heap : gmap EntryId Entry;
  rg_next : EntryId;
  rg_pool : PoolSystem;
}.

Record RegistryConfig := mkRegistryConfig {
  rc_pool : DevicePoolConfig;
  rc_strict_evidence_receipts : bool;
  rc_screenshot_policy : ScreenshotPolicy;
}.

(** [new_with_pool_config] and [with_evidence_and_pool_config], as
    [strict_evidence_receipts] is false or true *)
Definition registry_new (strict : bool) (pool_config : DevicePoolConfig)
    : result DevicePoolError (RegistryConfig * Registry) :=
  '(pool_config, pool) ← DevicePool_new pool_config;
  Ok (mkRegistryConfig pool_config strict Capture,
      mkRegistry ∅ ∅ 0 (mkPoolSystem pool 0 [])).

(** [DriverRegistry::with_screenshot_policy] *)
Definition registry_with_screenshot_policy (policy : ScreenshotPolicy) (c : RegistryConfig)
    : RegistryConfig :=
  mkRegistryConfig (rc_pool c) (rc_strict_evidence_receipts c) policy.

Definition RegM (A : Type) : Type := M Registry RegistryError A.

Definition set_pool_state (p : PoolState) (st : Registry) : Registry :=
  mkRegistry (rg_entries st) (rg_heap st) (rg_next st)
    (mkPoolSystem p (sys_now (rg_pool st)) (sys_guards (rg_pool st))).

(** A pool method called under the registry's write lock. *)
Definition in_pool {A} (f : DevicePoolError → RegistryError) (m : PoolM A) : RegM A :=
  λ st, let '(r, p) := m (sys_pool (rg_pool st)) in (map_err f r, set_pool_state p st).

(** ** Mutations of the registry *)

(** [validate_registration] *)
Definition validate_registration (driver_id : DeviceId) (info : DeviceInfo)
    : result RegistryError () :=
  check! reject_if (trim_is_empty driver_id) (RegInvalidDeviceId driver_id);
  check! reject_if (trim_is_empty (di_id info)) (RegInvalidDeviceId (di_id info));
  check! reject_if (trim_is_empty (di_name info)) (RegInvalidDeviceName (di_id info));
  reject_if (negb (bool_decide (di_id info = driver_id)))
    (RegDeviceIdMismatch driver_id (di_id info)).

(** The runtime [register] builds for a Driver. *)
Definition route_runtime (config : RegistryConfig) (driver_id : DeviceId)
    (protection : string → option ActionProtection) : DeviceRuntime :=
  with_screenshot_policy (rc_screenshot_policy config)
    (if rc_strict_evidence_receipts config
     then runtime_with_evidence driver_id protection
     else runtime_new driver_id protection).

Definition insert_entry (driver_id : DeviceId) (e : Entry) (st : Registry) : Registry :=
  mkRegistry (<[driver_id := rg_next st]> (rg_entries st))
    (<[rg_next st := e]> (rg_heap st)) (rg_next st + 1) (rg_pool st).

(** [DriverRegistry::register] *)
Definition registry_register (config : RegistryConfig) (driver_id : DeviceId)
    (protection : string → option ActionProtection) (info : DeviceInfo) : RegM EntryId :=
  check! lift (validate_registration driver_id info);
  let runtime := route_runtime config driver_id protection in
  st ← get;
  match rg_entries st !! driver_id with
  | None =>
      registration ← in_pool (λ _, RegDeviceAlreadyRegistered driver_id)
        (register driver_id);
      check! modify (insert_entry driver_id (mkEntry runtime registration info));
      mret (rg_next st)
  | Some _ => throw (RegDeviceAlreadyRegistered driver_id)
  end.

(** [unregister_error] *)
Definition unregister_error (d : DeviceId) (e : DevicePoolError) : RegistryError :=
  match e with
  | PoolDeviceLeased _ => RegDeviceLeased d
  | _ => RegInventoryInconsistent d
  end.

(** [DriverRegistry::unregister], from the moment the device's gate is free *)
Definition unregister (d : DeviceId) (now_ms : N) : RegM () :=
  st ← get;
  fail_if! negb (bool_decide (is_Some (rg_entries st !! d))) with RegDeviceNotFound d;
  check! in_pool (unregister_error d) (remove d (sys_now (rg_pool st)) now_ms);
  modify (λ st,
    mkRegistry (delete d (rg_entries st)) (rg_heap st) (rg_next st) (rg_pool st)).

(** ** Lookups *)

(** [DriverRegistry::list], [resolve], [action_protection], [sole] and [handles] *)
Definition list_devices (st : Registry) : list DeviceInfo :=
  omap (λ d, ent_info <$> (rg_entries st !! d ≫= λ e, rg_heap st !! e))
    (btree_keys (rg_entries st)).
Definition resolve (st : Registry) (d : DeviceId) : result RegistryError EntryId :=
  ok_or (rg_entries st !! d) (RegDeviceNotFound d).
Definition handles (st : Registry) : list EntryId :=
  omap (λ d, rg_entries st !! d) (btree_keys (rg_entries st)).
Definition sole (st : Registry) : result RegistryError EntryId :=
  match handles st with
  | [] => Err RegNoDevicesRegistered
  | [e] => Ok e
  | es => Err (RegDeviceSelectionRequired (len es))
  end.

(** [DriverHandle::id] and [DriverHandle::action_protection], of the entry
    [e] behind the handle, and [DriverRegistry::action_protection] *)
Definition handle_id (e : Entry) : DeviceId := dr_driver_id (ent_runtime e).
Definition handle_action_protection (e : Entry) (name : string) : option ActionProtection :=
  dr_action_protection (ent_runtime e) name.
Definition registry_action_protection (st : Registry) (d : DeviceId) (name : string)
    : result RegistryError (option ActionProtection) :=
  h ← resolve st d;
  Ok (e ← rg_heap st !! h; handle_action_protection e name).

(** [ensure_current_entry] for the handle [h] of the entry [e] *)
Definition ensure_current_entry (st : Registry) (h : EntryId) (e : Entry)
    : result DevicePoolError () :=
  match rg_entries st !! handle_id e with
  | Some current => reject_if (negb (current =? h)) (PoolDeviceRegistrationChanged (handle_id e))
  | None => Err (PoolDeviceNotFound (handle_id e))
  end.

(** ** Methods that hold the registry's lock for reading

    Each checks the handle and calls one method of the pool; [PoolCall] is
    the pool's method with its arguments. *)

Inductive PoolCall :=
| CallRecordHealth (token : DeviceRegistrationToken) (health : PoolHealth) (now_ms : N)
| CallAcquire (draws : list LeaseId) (d : DeviceId) (owner : LeaseOwnerId) (now_ms : N)
| CallAccessWithLease (lease_id : LeaseId) (d : DeviceId) (owner : LeaseOwnerId)
    (now_ms : N) (require_fresh_health : bool)
| CallAccessAvailable (d : DeviceId) (owner : LeaseOwnerId) (now_ms : N)
| CallRelease (lease_id : LeaseId) (owner : LeaseOwnerId) (now_ms : N)
| CallReleaseOn (lease_id : LeaseId) (owner : LeaseOwnerId) (d : DeviceId) (now_ms : N)
| CallReleaseOwner (owner : LeaseOwnerId) (now_ms : N)
| CallReleaseAll (now_ms : N)
| CallEntries (now_ms : N).

Section Methods.
Context (st : Registry) (h : EntryId) (e : Entry).

(** [DriverRegistry::record_health], [acquire_lease], [access_with_lease],
    [access_available_to] and [cleanup_access_with_lease] *)
Definition registry_record_health (health : PoolHealth) (now_ms : N)
    : result DevicePoolError PoolCall :=
  check! ensure_current_entry st h e;
  Ok (CallRecordHealth (ent_registration e) health now_ms).
Definition acquire_lease (draws : list LeaseId) (owner : LeaseOwnerId) (now_ms : N)
    : result DevicePoolError PoolCall :=
  check! ensure_current_entry st h e;
  Ok (CallAcquire draws (handle_id e) owner now_ms).
Definition registry_access_with_lease (lease_id : LeaseId) (owner : LeaseOwnerId) (now_ms : N)
    : result DevicePoolError PoolCall :=
  check! ensure_current_entry st h e;
  Ok (CallAccessWithLease lease_id (handle_id e) owner now_ms true).
Definition registry_access_available_to (owner : LeaseOwnerId) (now_ms : N)
    : result DevicePoolError PoolCall :=
  check! ensure_current_entry st h e;
  Ok (CallAccessAvailable (handle_id e) owner now_ms).
Definition cleanup_access_with_lease (lease_id : LeaseId) (owner : LeaseOwnerId) (now_ms : N)
    : result DevicePoolError PoolCall :=
  check! ensure_current_entry st h e;
  Ok (CallAccessWithLease lease_id (handle_id e) owner now_ms false).
End Methods.

(** What a reader has still to do: look up the pool, or run sections. *)
Inductive Reader :=
| Looking (call : PoolCall)
| Waiting (sections : list PoolOp).

(** The lookups a pool method makes before it waits for a gate, each under
    the pool's lock. *)
Definition pool_lookup (st : PoolState) (call : PoolCall) : result DevicePoolError Reader :=
  match call with
  | CallRecordHealth token health now_ms => Ok (Waiting [RecordHealth token health now_ms])
  | CallAcquire draws d owner now_ms =>
      g ← gate st d; Ok (Waiting [Acquire draws d owner now_ms g])
  | CallAccessWithLease id d owner now_ms fresh =>
      g ← gate st d; Ok (Waiting [AccessWithLease id d owner now_ms fresh g])
  | CallAccessAvailable d owner now_ms =>
      g ← gate st d; Ok (Waiting [AccessAvailable d owner now_ms g])
  | CallRelease id owner now_ms =>
      d ← lease_device st id; Ok (Looking (CallReleaseOn id owner d now_ms))
  | CallReleaseOn id owner d now_ms =>
      g ← gate st d; Ok (Waiting [DevicePoolProps.Release id owner d now_ms g])
  | CallReleaseOwner owner now_ms =>
      Ok (Waiting ((λ '(d, g), ReleaseOwnerTarget owner d now_ms g) <$>
            release_owner_targets st owner))
  | CallReleaseAll now_ms =>
      Ok (Waiting ((λ '(d, g), ReleaseAllTarget d now_ms g) <$> release_all_targets st))
  | CallEntries now_ms => Ok (Waiting [Entries now_ms])
  end.

(** ** Driver handles

    A call through a handle holds the entry's lifecycle lock around the call
    of the runtime. *)

(** What [connect] and [disconnect] do to the entry's snapshot. *)
Inductive InfoChange :=
| PublishInfo (info : DeviceInfo)
| MarkDisconnected.

Definition apply_info (c : InfoChange) (i : DeviceInfo) : DeviceInfo :=
  match c with
  | PublishInfo info => info
  | MarkDisconnected =>
      mkDeviceInfo (di_id i) (di_name i) (di_platform i) (di_os_version i) false
  end.

Inductive HandleE : Type → Type :=
| OnRuntime (R : Type) (effect : RtE R) : HandleE R
| AwaitLifecycle (exclusively : bool) (control : ExecutionControl) : HandleE (Selected ())
| DropLifecycle : HandleE ()
| ChangeInfo (c : InfoChange) : HandleE ().

Abbreviation hd := (prog HandleE).

Fixpoint on_runtime {A} (p : rt A) : hd A :=
  match p with
  | Ret a => Ret a
  | Step R effect k => Step R (OnRuntime R effect) (λ r, on_runtime (k r))
  end.

(** [acquire_read] and [acquire_write] *)
Definition acquire_lifecycle (exclusively : bool) (control : ExecutionControl)
    : hd (RuntimeResult ()) :=
  inactive ← on_runtime (inactive_control_error control);
  match inactive with
  | Some error => mret (Err error)
  | None =>
      selected ← perform (AwaitLifecycle exclusively control);
      mret match selected with
           | Ready _ => Ok ()
           | Woken reason => Err (RtCancelled reason)
           | Elapsed => Err (timeout_error control)
           end
  end.

(** [let _lifecycle = acquire_..(..).await?] around a method's body *)
Definition with_lifecycle {A} (exclusively : bool) (control : ExecutionControl)
    (body : hd (RuntimeResult A)) : hd (RuntimeResult A) :=
  try! acquire_lifecycle exclusively control;
  r ← body;
  check! perform DropLifecycle;
  mret r.

Section Handle.
Context (display : EventStoreError → string) (uuid_text : Uuid → string) (e : Entry).

(** [DriverHandle::connect] *)
Definition handle_connect (control : ExecutionControl) : hd (RuntimeResult DeviceInfo) :=
  with_lifecycle true control (
    info ←? on_runtime (connect control);
    if negb (bool_decide (di_id info = handle_id e)) then
      mret (protocol_error ("connected device id " ++ di_id info ++
        " does not match registered device " ++ handle_id e)%string)
    else
      check! perform (ChangeInfo (PublishInfo info));
      mret (Ok info)).

(** [DriverHandle::disconnect] *)
Definition handle_disconnect (control : ExecutionControl) : hd (RuntimeResult ()) :=
  with_lifecycle true control (
    try! on_runtime (disconnect control);
    check! perform (ChangeInfo MarkDisconnected);
    mret (Ok ())).

(** [DriverHandle::capabilities], [health_check], [observe] and [execute] *)
Definition handle_capabilities (control : ExecutionControl)
    : hd (RuntimeResult (list ActionDefinition)) :=
  with_lifecycle false control (on_runtime (capabilities (ent_runtime e) control)).
Definition handle_health_check (control : ExecutionControl) : hd (RuntimeResult ()) :=
  with_lifecycle false control (on_runtime (health_check control)).
Definition handle_observe (context : OperationContext) : hd (RuntimeResult Observation) :=
  with_lifecycle false (oc_control context)
    (on_runtime (observe display uuid_text (ent_runtime e) context)).
Definition handle_execute (context : OperationContext) (call : ActionCall)
    : hd (RuntimeResult ActionResult) :=
  with_lifecycle false (oc_control context)
    (on_runtime (execute display uuid_text (ent_runtime e) context call)).
End Handle.
