(* ===== verification/RegistryProps.v ===== *)
(** * The registry and its pool agree

    The registry of [Registry.v] as a system: its state, and the readers that
    hold its lock. Registration and removal need the lock for writing, so they
    run while there are no readers, and a removal also while no guard shares
    the device's gate. *)

From S2P Require Import Prelude Protocol Evidence EventStream EventStore Control Async.
From S2P Require Import Runtime DevicePool DevicePoolProps Registry.

Local Open Scope N_scope.

(** ** The system *)

Record RegistrySystem := mkRegistrySystem {
  rs_registry : Registry;
  rs_readers : list Reader;
}.

(** The methods that hold the lock for reading, with the handle some of them
    take. *)
Inductive ReadMethod :=
| RecordHealthOf (h : EntryId) (health : PoolHealth) (now_ms : N)
| AcquireLeaseOf (h : EntryId) (draws : list LeaseId) (owner : LeaseOwnerId) (now_ms : N)
| AccessWithLeaseOf (h : EntryId) (id : LeaseId) (owner : LeaseOwnerId) (now_ms : N)
| AccessAvailableTo (h : EntryId) (owner : LeaseOwnerId) (now_ms : N)
| CleanupAccessOf (h : EntryId) (id : LeaseId) (owner : LeaseOwnerId) (now_ms : N)
| ReleaseLease (id : LeaseId) (owner : LeaseOwnerId) (now_ms : N)
| ReleaseOwnerLeases (owner : LeaseOwnerId) (now_ms : N)
| ReleaseAllLeases (now_ms : N)
| PoolEntries (now_ms : N).

(** The start of a method; [None] if there is no such handle. *)
Definition admit_reader (st : Registry) (m : ReadMethod)
    : option (result DevicePoolError PoolCall) :=
  let on h f := (λ e, f st h e) <$> rg_heap st !! h in
  match m with
  | RecordHealthOf h health now_ms =>
      on h (λ st h e, registry_record_health st h e health now_ms)
  | AcquireLeaseOf h draws owner now_ms =>
      on h (λ st h e, acquire_lease st h e draws owner now_ms)
  | AccessWithLeaseOf h id owner now_ms =>
      on h (λ st h e, registry_access_with_lease st h e id owner now_ms)
  | AccessAvailableTo h owner now_ms =>
      on h (λ st h e, registry_access_available_to st h e owner now_ms)
  | CleanupAccessOf h id owner now_ms =>
      on h (λ st h e, cleanup_access_with_lease st h e id owner now_ms)
  | ReleaseLease id owner now_ms => Some (Ok (CallRelease id owner now_ms))
  | ReleaseOwnerLeases owner now_ms => Some (Ok (CallReleaseOwner owner now_ms))
  | ReleaseAllLeases now_ms => Some (Ok (CallReleaseAll now_ms))
  | PoolEntries now_ms => Some (Ok (CallEntries now_ms))
  end.

Inductive RegistryOp :=
| OpRegister (d : DeviceId) (protection : string → option ActionProtection) (info : DeviceInfo)
| OpUnregister (d : DeviceId) (now_ms : N)
| OpAdmit (m : ReadMethod)
| OpLookup (i : nat)
| OpSection (i : nat)
| OpTick (elapsed : N)
| OpDropGuard (i : nat)
| OpChangeInfo (h : EntryId) (c : InfoChange).

Definition no_readers (s : RegistrySystem) : bool := bool_decide (length (rs_readers s) = 0%nat).

(** The gate a removal of [d] waits for is free. *)
Definition removable (st : Registry) (d : DeviceId) : bool :=
  match gate (sys_pool (rg_pool st)) d with
  | Ok g => unshared g (sys_guards (rg_pool st))
  | Err _ => true
  end.

Definition set_pool_system (p : PoolSystem) (st : Registry) : Registry :=
  mkRegistry (rg_entries st) (rg_heap st) (rg_next st) p.

Definition on_registry (f : Registry → Registry) (s : RegistrySystem) : RegistrySystem :=
  mkRegistrySystem (f (rs_registry s)) (rs_readers s).

(** The snapshot of an entry may change to one of the same device. *)
Definition change_allowed (e : Entry) (c : InfoChange) : bool :=
  bool_decide (di_id (apply_info c (ent_info e)) = handle_id e).

Definition change_info (c : InfoChange) (e : Entry) : Entry :=
  mkEntry (ent_runtime e) (ent_registration e) (apply_info c (ent_info e)).

Definition registry_step (config : RegistryConfig) (op : RegistryOp) (s : RegistrySystem)
    : option RegistrySystem :=
  let st := rs_registry s in
  match op with
  | OpRegister d protection info =>
      if no_readers s
      then Some (on_registry (λ st, snd (registry_register config d protection info st)) s)
      else None
  | OpUnregister d now_ms =>
      if no_readers s && removable st d
      then Some (on_registry (λ st, snd (unregister d now_ms st)) s) else None
  | OpAdmit m =>
      r ← admit_reader st m;
      Some match r with
           | Ok call => mkRegistrySystem st (rs_readers s ++ [Looking call])
           | Err _ => s
           end
  | OpLookup i =>
      match rs_readers s !! i with
      | Some (Looking call) =>
          Some (mkRegistrySystem st
            match pool_lookup (sys_pool (rg_pool st)) call with
            | Ok r => <[i := r]> (rs_readers s)
            | Err _ => delete i (rs_readers s)
            end)
      | _ => None
      end
  | OpSection i =>
      match rs_readers s !! i with
      | Some (Waiting []) => Some (mkRegistrySystem st (delete i (rs_readers s)))
      | Some (Waiting (op :: ops)) =>
          p ← pool_step (rc_pool config) op (rg_pool st);
          Some (mkRegistrySystem (set_pool_system p st) (<[i := Waiting ops]> (rs_readers s)))
      | _ => None
      end
  | OpTick elapsed =>
      p ← pool_step (rc_pool config) (Tick elapsed) (rg_pool st);
      Some (on_registry (set_pool_system p) s)
  | OpDropGuard i =>
      p ← pool_step (rc_pool config) (DropGuard i) (rg_pool st);
      Some (on_registry (set_pool_system p) s)
  | OpChangeInfo h c =>
      e ← rg_heap st !! h;
      if change_allowed e c
      then Some (on_registry (λ st, mkRegistry (rg_entries st)
             (<[h := change_info c e]> (rg_heap st)) (rg_next st) (rg_pool st)) s)
      else None
  end.

Fixpoint registry_run (config : RegistryConfig) (ops : list RegistryOp) (s : RegistrySystem)
    : option RegistrySystem :=
  match ops with
  | [] => Some s
  | op :: ops => s' ← registry_step config op s; registry_run config ops s'
  end.

Definition empty_registry : RegistrySystem := mkRegistrySystem (mkRegistry ∅ ∅ 0 new_system) [].

Definition registry_reachable (config : RegistryConfig) (s : RegistrySystem) : Prop :=
  ∃ ops, registry_run config ops empty_registry = Some s.

(** ** The gates of the pool *)

Definition gates (st : PoolState) : gmap DeviceId GateId := rec_gate <$> ps_devices st.

Lemma gate_at_gates st d g : gate_at st d g ↔ gates st !! d = Some g.
Proof. unfold gate_at, gates. rewrite lookup_fmap, fmap_Some. naive_solver. Qed.

Lemma gates_update d f st :
  (∀ r, rec_gate (f r) = rec_gate r) → gates (update_device d f st) = gates st.
Proof.
  intros Hf. apply map_eq. intros d'. unfold gates. rewrite !lookup_fmap. cbn.
  destruct (decide (d = d')) as [<-|].
  - rewrite lookup_alter_eq. destruct (ps_devices st !! d); cbn; [by rewrite Hf|done].
  - by rewrite lookup_alter_ne.
Qed.

Lemma gates_lease d l st x y z :
  gates (update_device d (set_lease l) (set_indexes st x y z)) = gates st.
Proof. exact (gates_update d (set_lease l) (set_indexes st x y z) (λ _, eq_refl)). Qed.

Lemma gates_take d st : gates (snd (take_lease d st)) = gates st.
Proof. unfold take_lease. case_match; [|done]. apply gates_lease. Qed.

Lemma gates_renew d t e st : gates (snd (renew_lease d t e st)) = gates st.
Proof. unfold renew_lease. case_match; [|done]. apply gates_lease. Qed.

Lemma gates_expire d now st : gates (snd (expire_lease d now st)) = gates st.
Proof.
  unfold expire_lease. destruct (if lease_of st d is Some _ then _ else _); [|done].
  rewrite <-(gates_take d st). by destruct (take_lease d st).
Qed.

Lemma gates_taken d st l st' : take_lease d st = (l, st') → gates st' = gates st.
Proof. intros H. rewrite <-(gates_take d st). by rewrite H. Qed.

Lemma gates_renewed d t e st l st' : renew_lease d t e st = (l, st') → gates st' = gates st.
Proof. intros H. rewrite <-(gates_renew d t e st). by rewrite H. Qed.

Lemma gates_wall now_ms st : gates (advance_wall_clock now_ms st) = gates st.
Proof. done. Qed.

Lemma gates_install d l st : gates (install_lease d l st) = gates st.
Proof. apply gates_lease. Qed.

Create Rewrite HintDb gates.
#[local] Hint Rewrite gates_lease gates_take gates_renew gates_expire gates_wall
  gates_install : gates.

(** The sections of readers keep the gates. *)
Definition reader_section (op : PoolOp) : bool :=
  match op with
  | Tick _ | Register _ | Remove _ _ _ | DropGuard _ => false
  | _ => true
  end.

Ltac simpl_gates :=
  cbn [snd fst mret M_ret throw modify]; rewrite ?gates_update by done; autorewrite with gates;
  repeat match goal with
  | H : take_lease _ _ = (_, ?st) |- context [gates ?st] => rewrite (gates_taken _ _ _ _ H)
  | H : renew_lease _ _ _ _ = (_, ?st) |- context [gates ?st] =>
      rewrite (gates_renewed _ _ _ _ _ _ H)
  end; autorewrite with gates.

Ltac keeps_gates :=
  run_program; simpl_gates; try done;
  lazymatch goal with
  | |- context [snd ((match ?x with _ => _ end) _)] => destruct x eqn:?; keeps_gates
  | |- context [snd (match ?x with _ => _ end)] => destruct x eqn:?; keeps_gates
  | |- _ => idtac
  end.

Lemma gates_record_health token health now now_ms st :
  gates (snd (record_health token health now now_ms st)) = gates st.
Proof. unfold record_health. keeps_gates. Qed.

Lemma gates_acquire config draws d owner now now_ms g st :
  gates (snd (acquire_with_gate config draws d owner now now_ms g st)) = gates st.
Proof. unfold acquire_with_gate. keeps_gates. Qed.

Lemma gates_access config id d owner now now_ms fresh g st :
  gates (snd (access_with_lease_inner config id d owner now now_ms fresh g st)) = gates st.
Proof. unfold access_with_lease_inner. keeps_gates. Qed.

Lemma gates_available d owner now now_ms g st :
  gates (snd (access_available_to d owner now now_ms g st)) = gates st.
Proof. unfold access_available_to. keeps_gates. Qed.

Lemma gates_release id owner d now now_ms g st :
  gates (snd (release_with_gate id owner d now now_ms g st)) = gates st.
Proof. unfold release_with_gate. keeps_gates. Qed.

Lemma gates_release_owner owner d g now now_ms st :
  gates (snd (release_owner_target owner (d, g) now now_ms st)) = gates st.
Proof. unfold release_owner_target. keeps_gates. Qed.

Lemma gates_release_all d g now_ms st :
  gates (snd (release_all_target (d, g) now_ms st)) = gates st.
Proof. unfold release_all_target. keeps_gates. Qed.

#[local] Hint Rewrite gates_record_health gates_acquire gates_access gates_available
  gates_release gates_release_owner gates_release_all : gates.

Lemma exclusive_pool g body s s' :
  exclusive g body s = Some s' → sys_pool s' = body (sys_pool s).
Proof. unfold exclusive. case_match; [|done]. by intros [= <-]. Qed.

Lemma shared_pool gu body s s' :
  shared gu body s = Some s' → sys_pool s' = snd (body (sys_pool s)).
Proof. unfold shared. destruct (body _). by intros [= <-]. Qed.

Lemma pool_step_gates config op s s' :
  reader_section op = true → pool_step config op s = Some s' →
  gates (sys_pool s') = gates (sys_pool s).
Proof.
  destruct op; try done; intros _; cbn [pool_step].
  all: try (intros ->%exclusive_pool; by autorewrite with gates).
  all: try (intros ->%shared_pool; by autorewrite with gates).
  - intros [= <-]. apply gates_record_health.
  - intros ->%exclusive_pool. unfold reap_target. case_match; by autorewrite with gates.
  - by intros [= <-].
Qed.

(** ** The invariant *)

(** The device and the gate a section is for. *)
Definition section_target (op : PoolOp) : option (DeviceId * GateId) :=
  match op with
  | RecordHealth token _ _ => Some (tok_device_id token, tok_gate token)
  | Remove d _ g | Acquire _ d _ _ g | AccessWithLease _ d _ _ _ g
  | AccessAvailable d _ _ g | DevicePoolProps.Release _ _ d _ g
  | ReleaseOwnerTarget _ d _ g | ReleaseAllTarget d _ g | ReapTarget d _ g => Some (d, g)
  | Tick _ | Register _ | Entries _ | DropGuard _ => None
  end.

(** The device a lookup is for. *)
Definition lookup_target (call : PoolCall) : option DeviceId :=
  match call with
  | CallAcquire _ d _ _ | CallAccessWithLease _ d _ _ _ | CallAccessAvailable d _ _
  | CallReleaseOn _ _ d _ => Some d
  | _ => None
  end.

Section Invariant.
Context (gs : gmap DeviceId GateId).

Definition section_current (op : PoolOp) : Prop :=
  reader_section op = true ∧
  ∀ d g, section_target op = Some (d, g) → gs !! d = Some g.

Definition reader_current (r : Reader) : Prop :=
  match r with
  | Looking call =>
      (∀ token health now_ms, call = CallRecordHealth token health now_ms →
         gs !! tok_device_id token = Some (tok_gate token)) ∧
      ∀ d, lookup_target call = Some d → is_Some (gs !! d)
  | Waiting ops => Forall section_current ops
  end.
End Invariant.

Record entry_wf (e : Entry) : Prop := {
  ew_info : di_id (ent_info e) = handle_id e;
  ew_registration : tok_device_id (ent_registration e) = handle_id e;
}.

Record registry_wf (config : RegistryConfig) (s : RegistrySystem) : Prop := {
  rw_pool : system_wf (rc_pool config) (rg_pool (rs_registry s));
  rw_entries d h : rg_entries (rs_registry s) !! d = Some h →
    ∃ e, rg_heap (rs_registry s) !! h = Some e ∧ handle_id e = d ∧
      gates (sys_pool (rg_pool (rs_registry s))) !! d = Some (tok_gate (ent_registration e));
  rw_devices d : is_Some (gates (sys_pool (rg_pool (rs_registry s))) !! d) →
    is_Some (rg_entries (rs_registry s) !! d);
  rw_heap h e : rg_heap (rs_registry s) !! h = Some e →
    h < rg_next (rs_registry s) ∧ entry_wf e;
  rw_readers : Forall (reader_current (gates (sys_pool (rg_pool (rs_registry s)))))
    (rs_readers s);
}.

(** Only the pool changes, and keeps its gates. *)
Lemma registry_wf_pool config st p rs rs' :
  registry_wf config (mkRegistrySystem st rs) →
  system_wf (rc_pool config) p → gates (sys_pool p) = gates (sys_pool (rg_pool st)) →
  Forall (reader_current (gates (sys_pool (rg_pool st)))) rs' →
  registry_wf config (mkRegistrySystem (set_pool_system p st) rs').
Proof.
  intros [? He Hd Hh Hr] Hp Hg Hr'. split; cbn; rewrite ?Hg; done.
Qed.

Lemma registry_wf_readers config st rs rs' :
  registry_wf config (mkRegistrySystem st rs) →
  Forall (reader_current (gates (sys_pool (rg_pool st)))) rs' →
  registry_wf config (mkRegistrySystem st rs').
Proof. intros [] ?. by split. Qed.

(** ** Registration and removal *)

Lemma pool_register_run d p :
  fst (register d p) =
    (if trim_is_empty d then Err PoolInvalidDeviceId
     else match ps_devices p !! d with
          | Some _ => Err (PoolDeviceAlreadyRegistered d)
          | None => Ok (mkDeviceRegistrationToken d (ps_next_gate p))
          end).
Proof.
  unfold register, mbind, M_bind, get, lift. destruct (trim_is_empty d); [done|]. cbn.
  by destruct (ps_devices p !! d).
Qed.

Lemma pool_register_gates d p :
  is_ok (fst (register d p)) = true →
  gates (snd (register d p)) = <[d := ps_next_gate p]> (gates p).
Proof.
  unfold register, mbind, M_bind, get, lift. destruct (trim_is_empty d); [done|]. cbn.
  destruct (ps_devices p !! d); [done|]. intros _. cbn. unfold gates. by rewrite fmap_insert.
Qed.

Lemma gates_none p d : gates p !! d = None ↔ ps_devices p !! d = None.
Proof. unfold gates. by rewrite lookup_fmap, fmap_None. Qed.

Lemma validate_registration_ok d info u :
  validate_registration d info = Ok u → trim_is_empty d = false ∧ di_id info = d.
Proof. unfold validate_registration. intros. inv_result. inv_bools. done. Qed.

(** What [register] returns and leaves when registry and pool agree. *)
Lemma registry_register_run config s d protection info :
  registry_wf config s →
  registry_register config d protection info (rs_registry s) =
  let st := rs_registry s in
  match validate_registration d info, rg_entries st !! d with
  | Err error, _ => (Err error, st)
  | Ok _, Some _ => (Err (RegDeviceAlreadyRegistered d), st)
  | Ok _, None =>
      let p := sys_pool (rg_pool st) in
      (Ok (rg_next st),
       insert_entry d
         (mkEntry (route_runtime config d protection)
            (mkDeviceRegistrationToken d (ps_next_gate p)) info)
         (set_pool_state (snd (register d p)) st))
  end.
Proof.
  intros [_ _ Hd _ _]. unfold registry_register.
  destruct (validate_registration d info) as [u|] eqn:Hv; [|done].
  apply validate_registration_ok in Hv as [Ht _]. set (st := rs_registry s) in *.
  unfold mbind, M_bind, get, lift. destruct (rg_entries st !! d) eqn:He; [done|].
  assert (ps_devices (sys_pool (rg_pool st)) !! d = None) as Hn.
  { apply gates_none, eq_None_not_Some. intros [h Hh]%Hd. congruence. }
  pose proof (pool_register_run d (sys_pool (rg_pool st))) as Hr. rewrite Ht, Hn in Hr.
  unfold in_pool. destruct (register d _) as [r p']. cbn in Hr. by subst r.
Qed.

(** [remove] for a registered device. *)
Lemma pool_remove_run d now now_ms p g :
  gates p !! d = Some g →
  fst (remove d now now_ms p) =
    (if live_lease p d now is Some _ then Err (PoolDeviceLeased d) else Ok ()) ∧
  gates (snd (remove d now now_ms p)) =
    (if live_lease p d now is Some _ then gates p else delete d (gates p)).
Proof.
  intros Hg. pose proof Hg as (r & Hr & Hrg)%gate_at_gates.
  unfold remove, remove_with_gate, gate, mbind, M_bind, get, lift, modify.
  rewrite Hr. cbn. unfold ensure_current_gate. rewrite Hr. cbn.
  rewrite N.eqb_refl. cbn.
  set (p1 := advance_wall_clock now_ms p).
  assert (ps_devices p1 !! d = Some r) as Hr1 by done.
  pose proof (expire_record p1 d now r Hr1) as Hx. 
  pose proof (lease_of_expire p1 d now d) as Hl. rewrite decide_True in Hl by done.
  rewrite Hx. cbn. rewrite Hl. change (live_lease p1 d now) with (live_lease p d now).
  pose proof (gates_expire d now p1) as He.
  destruct (live_lease p d now); cbn; [done|]. split; [done|].
  unfold gates in *. by rewrite fmap_delete, He.
Qed.

(** What [unregister] returns and leaves. *)
Definition unregistered (s : RegistrySystem) (d : DeviceId) (now_ms : N)
    (r : result RegistryError ()) (st' : Registry) : Prop :=
  let st := rs_registry s in
  let live := live_lease (sys_pool (rg_pool st)) d (sys_now (rg_pool st)) in
  match rg_entries st !! d with
  | None => r = Err (RegDeviceNotFound d) ∧ st' = st
  | Some _ =>
      r = (if live is Some _ then Err (RegDeviceLeased d) else Ok ()) ∧
      st' = mkRegistry (if live is Some _ then rg_entries st else delete d (rg_entries st))
        (rg_heap st) (rg_next st)
        (mkPoolSystem (snd (remove d (sys_now (rg_pool st)) now_ms (sys_pool (rg_pool st))))
           (sys_now (rg_pool st)) (sys_guards (rg_pool st)))
  end.

Lemma unregister_run config s d now_ms :
  registry_wf config s →
  unregistered s d now_ms (fst (unregister d now_ms (rs_registry s)))
    (snd (unregister d now_ms (rs_registry s))).
Proof.
  intros [_ He _ _ _]. unfold unregistered, unregister, mbind, M_bind, get, lift, modify.
  destruct (rg_entries (rs_registry s) !! d) as [h|] eqn:Hd; [|done].
  apply He in Hd as (e & _ & _ & Hg). cbn. unfold in_pool.
  destruct (pool_remove_run d (sys_now (rg_pool (rs_registry s))) now_ms _ _ Hg) as [Hr _].
  destruct (remove _ _ _ _) as [r p']. cbn in Hr. subst r.
  by destruct (live_lease _ _ _).
Qed.

Lemma remove_system config st d now_ms :
  system_wf config (rg_pool st) → removable st d = true →
  system_wf config (mkPoolSystem
    (snd (remove d (sys_now (rg_pool st)) now_ms (sys_pool (rg_pool st))))
    (sys_now (rg_pool st)) (sys_guards (rg_pool st))).
Proof.
  intros Hwf. unfold removable, remove, mbind, M_bind, get, lift.
  destruct (gate _ d) as [g|] eqn:Hg; intros Hu; [|by destruct (rg_pool st)].
  eapply (system_step_wf config), Hwf.
  eapply (pool_step_system config (Remove d now_ms g)). cbn. unfold exclusive. by rewrite Hu.
Qed.

(** ** Preservation *)

Lemma reader_current_insert gs d g r :
  gs !! d = None → reader_current gs r → reader_current (<[d := g]> gs) r.
Proof.
  intros Hd. assert (∀ d' g', gs !! d' = Some g' → <[d := g]> gs !! d' = Some g') as Hk.
  { intros d' g' H. rewrite lookup_insert_ne; congruence. }
  destruct r as [call|ops]; cbn.
  - intros [Ht Hl]. split; [eauto|]. intros d' [g' Hg']%Hl. eauto.
  - intros Hf. eapply Forall_impl; [exact Hf|]. intros op [Hr Ho]. split; eauto.
Qed.

Lemma register_preserves config s d protection info :
  registry_wf config s → rs_readers s = [] →
  registry_wf config
    (on_registry (λ st, snd (registry_register config d protection info st)) s).
Proof.
  intros Hwf Hn. unfold on_registry. rewrite registry_register_run by done.
  destruct s as [st rs]. cbn in *. subst rs.
  destruct (validate_registration d info) as [u|] eqn:Hv; [|done].
  apply validate_registration_ok in Hv as [Ht Hi].
  destruct (rg_entries st !! d) eqn:Hd; [done|].
  destruct Hwf as [Hp He Hg Hh _]. cbn in *.
  assert (ps_devices (sys_pool (rg_pool st)) !! d = None) as Hf.
  { apply gates_none, eq_None_not_Some. intros [h ?]%Hg. congruence. }
  assert (gates (snd (register d (sys_pool (rg_pool st)))) =
    <[d := ps_next_gate (sys_pool (rg_pool st))]> (gates (sys_pool (rg_pool st)))) as Hgs.
  { apply pool_register_gates. by rewrite pool_register_run, Ht, Hf. }
  split; cbn; rewrite ?Hgs.
  - eapply system_step_wf, Hp. by apply (pool_step_system (rc_pool config) (Register d)).
  - intros d' h [[<- <-]|[Hne Hh']]%lookup_insert_Some.
    + rewrite lookup_insert_eq. eexists. split; [done|]. cbn. rewrite lookup_insert_eq.
      split; [|done]. unfold handle_id, route_runtime. cbn.
      by destruct (rc_strict_evidence_receipts _).
    + apply He in Hh' as (e & Hh' & Hid & Hge). exists e.
      pose proof Hh' as [? _]%Hh. rewrite (lookup_insert_ne (rg_heap st)) by lia.
      by rewrite lookup_insert_ne.
  - intros d' [g Hg']. destruct (decide (d = d')) as [<-|]; [by rewrite lookup_insert_eq|].
    rewrite lookup_insert_ne in * by done. eauto.
  - intros h e [[<- <-]|[Hne Hh']]%lookup_insert_Some.
    + split; [lia|]. unfold handle_id, route_runtime. split; cbn;
        by destruct (rc_strict_evidence_receipts _).
    + apply Hh in Hh' as [? ?]. split; [lia|done].
  - done.
Qed.

Lemma unregister_preserves config s d now_ms :
  registry_wf config s → rs_readers s = [] → removable (rs_registry s) d = true →
  registry_wf config (on_registry (λ st, snd (unregister d now_ms st)) s).
Proof.
  intros Hwf Hn Hrm. pose proof (unregister_run config s d now_ms Hwf) as Hrun.
  unfold on_registry. rewrite Hn. unfold unregistered in Hrun.
  destruct s as [st rs]. cbn in *. subst rs.
  destruct (rg_entries st !! d) as [h|] eqn:Hd; destruct Hrun as [_ ->]; [|done].
  destruct Hwf as [Hp He Hg Hh _]. cbn in *.
  pose proof (He _ _ Hd) as (e & _ & _ & Hge).
  destruct (pool_remove_run d (sys_now (rg_pool st)) now_ms _ _ Hge) as [_ Hgs].
  split; cbn; rewrite ?Hgs; try done; [by apply remove_system|..];
    destruct (live_lease _ _ _); eauto.
  - intros d' h' [Hne (e' & ? & ? & ?)%He]%lookup_delete_Some. exists e'.
    by rewrite lookup_delete_ne.
  - intros d' [g [Hne Hg']%lookup_delete_Some]. rewrite lookup_delete_ne by done. eauto.
Qed.

(** The entry behind an accepted handle has the device's current gate. *)
Lemma current_entry_gate config s h e u :
  registry_wf config s → rg_heap (rs_registry s) !! h = Some e →
  ensure_current_entry (rs_registry s) h e = Ok u →
  gates (sys_pool (rg_pool (rs_registry s))) !! handle_id e =
    Some (tok_gate (ent_registration e)).
Proof.
  intros Hwf Hh. unfold ensure_current_entry.
  destruct (rg_entries _ !! _) as [h'|] eqn:He; [|done]. intros. inv_result. inv_bools.
  rewrite N.eqb_eq in *.
  apply (rw_entries _ _ Hwf) in He as (e' & Hh' & _ & Hg). congruence.
Qed.

Lemma admitted_current config s m call :
  registry_wf config s → admit_reader (rs_registry s) m = Some (Ok call) →
  reader_current (gates (sys_pool (rg_pool (rs_registry s)))) (Looking call).
Proof.
  intros Hwf. destruct m; cbn; try (intros [= <-]; by split).
  all: intros (e & Hh & Hm)%fmap_Some; symmetry in Hm.
  all: apply result_bind_ok in Hm as (u & Hc & [= <-]).
  all: pose proof (current_entry_gate _ _ _ _ _ Hwf Hh Hc) as Hg.
  all: apply (rw_heap _ _ Hwf) in Hh as [_ [_ Ht]].
  all: split; [intros ? ? ? [= <-]; congruence || done|intros ? [= <-]; eauto].
Qed.

Lemma lookup_current p call r :
  indexes_consistent p → reader_current (gates p) (Looking call) →
  pool_lookup p call = Ok r → reader_current (gates p) r.
Proof.
  assert (∀ d g, gate p d = Ok g → gates p !! d = Some g) as Hgate.
  { intros d g. unfold gate, gates. rewrite lookup_fmap. apply ok_or_ok. }
  intros Hi [Ht Hd]. destruct call; cbn; intros Hr;
    try (apply result_bind_ok in Hr as (x & Hx & [= <-])); try injection Hr as <-; cbn.
  all: try (apply Forall_singleton; split; [done|]; intros ? ? [= <- <-]; eauto; fail).
  - split; [done|]. intros ? [= <-]. unfold lease_device in Hx. apply ok_or_ok in Hx.
    apply (ic_lease_devices _ Hi) in Hx as (l & Hl & _).
    apply lease_of_some in Hl as (rec & Hr & _). unfold gates. by rewrite lookup_fmap, Hr.
  - apply Forall_fmap, Forall_forall. intros [d g] Hin. split; [done|]. cbn.
    intros ? ? [= <- <-]. apply gate_at_gates. by eapply lease_targets_gate.
  - apply Forall_fmap, Forall_forall. intros [d g] Hin. split; [done|]. cbn.
    intros ? ? [= <- <-]. apply gate_at_gates. by eapply lease_targets_gate.
Qed.

Lemma change_info_preserves config s h e c :
  registry_wf config s → rg_heap (rs_registry s) !! h = Some e → change_allowed e c = true →
  registry_wf config (on_registry (λ st, mkRegistry (rg_entries st)
    (<[h := change_info c e]> (rg_heap st)) (rg_next st) (rg_pool st)) s).
Proof.
  intros [Hp He Hg Hh Hr] Hhe Hc%bool_decide_eq_true. split; cbn; try done.
  - intros d h' (e' & Hh' & Hid & Hge)%He. destruct (decide (h = h')) as [<-|].
    + rewrite lookup_insert_eq. eexists. split; [done|]. by simplify_eq.
    + rewrite lookup_insert_ne by done. eauto.
  - apply Hh in Hhe as [? [Hi Ht]].
    intros h' e' [[<- <-]|[_ ?%Hh]]%lookup_insert_Some; [|done]. done.
Qed.

Lemma registry_step_wf config op s s' :
  registry_step config op s = Some s' → registry_wf config s → registry_wf config s'.
Proof.
  intros Hs Hwf. destruct op; cbn in Hs.
  - destruct (no_readers s) eqn:Hn; [|done]. injection Hs as <-.
    apply bool_decide_eq_true, length_zero_iff_nil in Hn. by apply register_preserves.
  - destruct (no_readers s) eqn:Hn, (removable _ d) eqn:Hm; try done. injection Hs as <-.
    apply bool_decide_eq_true, length_zero_iff_nil in Hn. by apply unregister_preserves.
  - apply bind_Some in Hs as ([call|] & Ha & [= <-]); [|done].
    destruct s as [st rs]. eapply registry_wf_readers; [done|]. apply Forall_app.
    split; [apply Hwf|]. apply Forall_singleton. by eapply admitted_current.
  - destruct (rs_readers s !! i) as [[call|]|] eqn:Hi; try done. injection Hs as <-.
    destruct s as [st rs]. eapply registry_wf_readers; [done|]. cbn in *.
    pose proof (rw_readers _ _ Hwf) as Hr. cbn in Hr.
    destruct (pool_lookup _ _) as [r|] eqn:Hl; [|by apply Forall_delete].
    apply Forall_insert; [done|]. eapply lookup_current; [apply Hwf| |done].
    by eapply Forall_lookup_1 in Hr.
  - destruct (rs_readers s !! i) as [[|[|op ops]]|] eqn:Hi; try done.
    + injection Hs as <-. destruct s as [st rs]. eapply registry_wf_readers; [done|].
      apply Forall_delete, Hwf.
    + apply bind_Some in Hs as (p & Hp & [= <-]). destruct s as [st rs]. cbn in *.
      pose proof (rw_readers _ _ Hwf) as Hr. cbn in Hr.
      pose proof (Forall_lookup_1 _ _ _ _ Hr Hi) as [[Hop _] Hops]%Forall_cons.
      eapply registry_wf_pool; [done|..].
      * eapply system_step_wf; [by eapply pool_step_system|apply Hwf].
      * by eapply pool_step_gates.
      * by apply Forall_insert.
  - injection Hs as <-. destruct s as [st rs]. eapply registry_wf_pool; [done| |done|apply Hwf].
    eapply system_step_wf, Hwf. by apply (pool_step_system _ (Tick elapsed)).
  - injection Hs as <-. destruct s as [st rs]. eapply registry_wf_pool; [done| |done|apply Hwf].
    eapply system_step_wf, Hwf. by apply (pool_step_system _ (DropGuard i)).
  - apply bind_Some in Hs as (e & Hh & Hs). destruct (change_allowed e c) eqn:Hc; [|done].
    injection Hs as <-. by apply change_info_preserves.
Qed.

Lemma empty_registry_wf config : registry_wf config empty_registry.
Proof.
  split; cbn; try done. apply new_system_wf.
Qed.

Lemma registry_run_wf config ops s s' :
  registry_run config ops s = Some s' → registry_wf config s → registry_wf config s'.
Proof.
  revert s. induction ops as [|op ops IH]; cbn; intros s; [by intros [= <-]|].
  intros (s1 & Hs & Hr)%bind_Some Hwf. eapply IH; [done|]. by eapply registry_step_wf.
Qed.

Lemma registry_reachable_wf config s : registry_reachable config s → registry_wf config s.
Proof. intros [ops Hr]. eapply registry_run_wf; [done|apply empty_registry_wf]. Qed.

(** ** Listings *)

Lemma list_devices_ids config s :
  registry_wf config s →
  di_id <$> list_devices (rs_registry s) = btree_keys (rg_entries (rs_registry s)).
Proof.
  intros Hwf. unfold list_devices.
  assert (∀ d, d ∈ btree_keys (rg_entries (rs_registry s)) →
    is_Some (rg_entries (rs_registry s) !! d)) as Hk 
    by (intros d Hd; apply elem_of_dom; by apply btree_keys_dom).
  induction (btree_keys _) as [|d ds IH]; [done|]. cbn.
  destruct (Hk d) as [h Hh]; [by left|]. rewrite Hh. cbn.
  destruct (rw_entries _ _ Hwf _ _ Hh) as (e & He & Hid & _). rewrite He. cbn. f_equal.
  - apply (rw_heap _ _ Hwf) in He as [_ [Hi _]]. congruence.
  - apply IH. intros d' Hd'. apply Hk. by right.
Qed.

(** ** Retired handles *)

Definition refused (s : RegistrySystem) (h : EntryId) : Prop :=
  ∃ e, rg_heap (rs_registry s) !! h = Some e ∧
    is_err (ensure_current_entry (rs_registry s) h e) = true.

Lemma refused_iff s h :
  refused s h ↔ ∃ e, rg_heap (rs_registry s) !! h = Some e ∧
    rg_entries (rs_registry s) !! handle_id e ≠ Some h.
Proof.
  unfold refused, ensure_current_entry. f_equiv. intros e. apply and_iff_compat_l.
  destruct (rg_entries _ !! _) as [h'|]; [|done].
  destruct (N.eqb_spec h' h) as [->|]; cbn; naive_solver.
Qed.

(** A handle that is refused stays refused: entries get new numbers. *)
Lemma registry_step_refused config op s s' h :
  registry_wf config s → registry_step config op s = Some s' → refused s h → refused s' h.
Proof.
  rewrite !refused_iff. intros Hwf Hs (e & Hh & Hne).
  assert (h < rg_next (rs_registry s)) as Hlt by by apply (rw_heap _ _ Hwf) in Hh as [? _].
  destruct op; cbn in Hs.
  - destruct (no_readers s); [|done]. injection Hs as <-. cbn.
    rewrite registry_register_run by done. cbn. repeat case_match; cbn; eauto.
    exists e. rewrite lookup_insert_ne by lia. split; [done|].
    intros [[_ <-]|[_ ?]]%lookup_insert_Some; [lia|done].
  - destruct (no_readers s), (removable _ _); try done. injection Hs as <-. cbn.
    pose proof (unregister_run config s d now_ms Hwf) as Hu. unfold unregistered in Hu.
    case_match; destruct Hu as [_ ->]; eauto. exists e. cbn. split; [done|].
    case_match; [done|]. by intros [_ ?]%lookup_delete_Some.
  - apply bind_Some in Hs as ([] & _ & [= <-]); eauto.
  - repeat case_match; try done; injection Hs as <-; eauto.
  - repeat case_match; try done; [injection Hs as <-; eauto|].
    apply bind_Some in Hs as (p' & _ & [= <-]). eauto.
  - injection Hs as <-. eauto.
  - injection Hs as <-. eauto.
  - apply bind_Some in Hs as (e' & Hh' & Hs). case_match; [|done]. injection Hs as <-. cbn.
    destruct (decide (h0 = h)) as [->|].
    + rewrite lookup_insert_eq. eexists. split; [done|]. by simplify_eq.
    + rewrite lookup_insert_ne by done. eauto.
Qed.

Lemma registry_run_refused config ops s s' h :
  registry_wf config s → registry_run config ops s = Some s' → refused s h → refused s' h.
Proof.
  revert s. induction ops as [|op ops IH]; cbn; intros s Hwf; [by intros [= <-]|].
  intros (s1 & Hs & Hr)%bind_Some Href. eapply IH; [|done|].
  - by eapply registry_step_wf.
  - by eapply registry_step_refused.
Qed.

(** ** Calls through a handle

    The snapshot changes a call makes, whatever the runtime and the lifecycle
    lock answer. *)

Definition handle_step (R : Type) (e : HandleE R) (tr : list InfoChange) (_ : R)
    (tr' : list InfoChange) : Prop :=
  tr' = match e with ChangeInfo c => tr ++ [c] | _ => tr end.

(** No other task takes part in the calls of one handle. *)
Definition alone (tr tr' : list InfoChange) : Prop := False.

Abbreviation handle_wp := (wp handle_step alone).

Lemma handle_wp_step {A} R (e : HandleE R) (k : R → hd A) Q tr :
  (∀ r, handle_wp (k r) Q match e with ChangeInfo c => tr ++ [c] | _ => tr end) →
  handle_wp (Step R e k) Q tr.
Proof.
  intros Hk tr1 r tr2 Ha ->. apply rtc_inv in Ha as [<-|(? & [] & _)]. apply Hk.
Qed.

Lemma wp_on_runtime {A} (p : rt A) Q tr : (∀ a, Q a tr) → handle_wp (on_runtime p) Q tr.
Proof.
  intros HQ. induction p as [a|R e k IH]; [apply HQ|]. by apply handle_wp_step.
Qed.

Lemma wp_with_lifecycle {A} b c (body : hd (RuntimeResult A)) Q tr :
  (∀ e, Q (Err e) tr) → handle_wp body Q tr → handle_wp (with_lifecycle b c body) Q tr.
Proof.
  intros He Hb. apply wp_try, wp_bind, wp_on_runtime. intros [e|]; [apply He|].
  apply handle_wp_step. intros []; cbn; [|apply He..].
  apply wp_bind. eapply wp_mono; [exact Hb|]. intros r tr' HQ.
  apply handle_wp_step. by intros [].
Qed.

(** [connect] publishes the Driver's answer exactly when it succeeds, and only
    an answer for the handle's own device. *)
Lemma handle_connect_publishes e control r tr :
  runs handle_step alone (handle_connect e control) [] r tr →
  match r with
  | Ok info => tr = [PublishInfo info] ∧ di_id info = handle_id e
  | Err _ => tr = []
  end.
Proof.
  intros Hr. refine (wp_sound _ _ _ (λ r tr, match r with Ok _ => _ | Err _ => _ end) _ _ _ _ Hr).
  apply wp_with_lifecycle; [done|]. apply wp_try, wp_on_runtime. intros [info|]; [|done].
  case_bool_decide; [|done]. apply handle_wp_step. by intros [].
Qed.

(** [disconnect] marks the snapshot exactly when it succeeds. *)
Lemma handle_disconnect_marks control r tr :
  runs handle_step alone (handle_disconnect control) [] r tr →
  tr = match r with Ok _ => [MarkDisconnected] | Err _ => [] end.
Proof.
  intros Hr. refine (wp_sound _ _ _ (λ r tr, tr = match r with Ok _ => _ | Err _ => _ end) _ _ _ _ Hr).
  apply wp_with_lifecycle; [done|]. apply wp_try, wp_on_runtime. intros [info|]; [|done].
  apply handle_wp_step. by intros [].
Qed.

(** So each of them is an [OpChangeInfo] of the system. *)
Lemma handle_changes_allowed e control tr :
  entry_wf e →
  (∃ r, runs handle_step alone (handle_connect e control) [] r tr) ∨
  (∃ r, runs handle_step alone (handle_disconnect control) [] r tr) →
  Forall (λ c, change_allowed e c = true) tr.
Proof.
  intros [Hi _] [[r Hr%handle_connect_publishes]|[r ->%handle_disconnect_marks]].
  - destruct r; [|by subst]. destruct Hr as [-> Hd]. apply Forall_singleton.
    by apply bool_decide_eq_true.
  - destruct r; [|done]. apply Forall_singleton. by apply bool_decide_eq_true.
Qed.

(** ** The theorem *)

(** C40: In every reachable state the registry and its pool hold the same
    devices, and a listing names each of them once, in order. So [register]
    refuses a valid registration only for an id that is in the registry, and
    [unregister] fails only for an unknown device or a live lease; neither ever
    meets an inconsistent inventory. A reader that has passed the entry check
    finds its device and its gate still current when it comes to its section,
    however other readers are interleaved. And a handle that is refused once is
    refused forever, also after its device has been registered again. *)
Theorem registry_and_pool_agree config s :
  registry_reachable config s →
  let st := rs_registry s in
  let p := sys_pool (rg_pool st) in
  (∀ d, is_Some (rg_entries st !! d) ↔ is_Some (ps_devices p !! d)) ∧
  di_id <$> list_devices st = btree_keys (rg_entries st) ∧
  (∀ d protection info,
     fst (registry_register config d protection info st) =
     match validate_registration d info, rg_entries st !! d with
     | Err error, _ => Err error
     | Ok _, Some _ => Err (RegDeviceAlreadyRegistered d)
     | Ok _, None => Ok (rg_next st)
     end) ∧
  (∀ d now_ms,
     fst (unregister d now_ms st) =
     match rg_entries st !! d, live_lease p d (sys_now (rg_pool st)) with
     | None, _ => Err (RegDeviceNotFound d)
     | Some _, Some _ => Err (RegDeviceLeased d)
     | Some _, None => Ok ()
     end) ∧
  (∀ i call d, rs_readers s !! i = Some (Looking call) → lookup_target call = Some d →
     is_ok (gate p d) = true) ∧
  (∀ i ops op d g, rs_readers s !! i = Some (Waiting ops) → op ∈ ops →
     section_target op = Some (d, g) → ensure_current_gate p d g = Ok ()) ∧
  (∀ h ops s', refused s h → registry_run config ops s = Some s' → refused s' h).
Proof.
  intros Hwf%registry_reachable_wf. cbv zeta.
  pose proof (rw_readers _ _ Hwf) as Hrd. split_and!.
  - intros d. split.
    + intros [h Hh]. apply (rw_entries _ _ Hwf) in Hh as (e & _ & _ & (r & ? & _)%gate_at_gates).
      by exists r.
    + intros [r Hr]. apply (rw_devices _ _ Hwf). unfold gates. by rewrite lookup_fmap, Hr.
  - by eapply list_devices_ids.
  - intros d protection info. rewrite registry_register_run by done. cbv zeta.
    by destruct (validate_registration d info), (rg_entries (rs_registry s) !! d).
  - intros d now_ms. pose proof (unregister_run config s d now_ms Hwf) as Hu.
    unfold unregistered in Hu.
    destruct (rg_entries (rs_registry s) !! d); destruct Hu as [-> _]; [|done].
    by destruct (live_lease _ _ _).
  - intros i call d Hi Hd. pose proof (Forall_lookup_1 _ _ _ _ Hrd Hi) as [_ Hg].
    apply Hg in Hd as [g (r & Hr & _)%gate_at_gates]. unfold gate. by rewrite Hr.
  - intros i ops op d g Hi Hin Ht. apply (Forall_lookup_1 _ _ _ _ Hrd) in Hi as Hops.
    cbn in Hops. rewrite Forall_forall in Hops. apply Hops in Hin as [_ Hg].
    by apply ensure_current_gate_ok, gate_at_gates, Hg.
  - intros h ops s' Href Hrun. by eapply registry_run_refused.
Qed.

(** A device is registered twice; a reader of the second registration waits
    for the gate, and the handle of the first one is refused. *)
Definition sample_registry_config : RegistryConfig :=
  mkRegistryConfig DevicePoolConfig_default true Capture.
Definition sample_device : DeviceInfo :=
  mkDeviceInfo "pixel-8" "Pixel 8" Platform_Android None false.
Definition sample_registry_ops : list RegistryOp :=
  [OpRegister "pixel-8" (λ _, None) sample_device;
   OpUnregister "pixel-8" 0;
   OpRegister "pixel-8" (λ _, None) sample_device;
   OpAdmit (AcquireLeaseOf 1 [7] 10 0);
   OpLookup 0].

Definition sample_registry : RegistrySystem :=
  default empty_registry
    (registry_run sample_registry_config sample_registry_ops empty_registry).

Lemma registry_and_pool_agree_witness :
  registry_reachable sample_registry_config sample_registry ∧
  di_id <$> list_devices (rs_registry sample_registry) = ["pixel-8"%string] ∧
  ensure_current_gate (sys_pool (rg_pool (rs_registry sample_registry))) "pixel-8" 1 = Ok () ∧
  refused sample_registry 0.
Proof.
  assert (registry_reachable sample_registry_config sample_registry) as Hr.
  { exists sample_registry_ops. vm_compute. reflexivity. }
  destruct (registry_and_pool_agree sample_registry_config sample_registry Hr)
    as (_ & Hl & _ & _ & _ & Hs & Hf).
  split; [exact Hr|]. split; [|split].
  - rewrite Hl. vm_compute. reflexivity.
  - eapply (Hs 0%nat [Acquire [7] "pixel-8" 10 0 1] (Acquire [7] "pixel-8" 10 0 1)).
    + vm_compute. reflexivity.
    + apply list_elem_of_singleton. reflexivity.
    + reflexivity.
  - apply (Hf 0 [] sample_registry); [|reflexivity].
    eexists. split; vm_compute; reflexivity.
Defined.
