(* ===== verification/PeerModel.v ===== *)
(** * Messages between nodes

    [crates/distributed-router/src/model.rs]: the requests and responses of the
    peer protocol with their validators, and the correspondence between a
    request and the results it admits. *)

From S2P Require Import Prelude Protocol Evidence PeerLease.

Local Open Scope N_scope.

Definition DISTRIBUTED_PROTOCOL_VERSION : N := 2.
Definition MAX_INVENTORY_DEVICES : N := 256.
Definition MAX_CAPABILITIES : N := 128.
Definition MAX_REQUEST_TIMEOUT_MS : N := 5 * 60000.
Definition MAX_PEER_FRAME_BYTES : N := 1024 * 1024.

(** A [NodeId] is a valid identifier of at most 64 bytes. *)
Definition NodeId : Type := string.

Inductive ModelError :=
| UnsupportedVersion
| InvalidIdentifier
| InvalidEnvelope
| InventoryLimit
| DuplicateDevice
| ResponseMismatch.

#[global] Instance Platform_eq_dec : EqDecision Platform.
Proof. solve_decision. Defined.

(** ** Inventories *)

Record RemoteDeviceDescriptor := mkRemoteDeviceDescriptor {
  rd_device_key : string;
  rd_name : string;
  rd_platform : Platform;
  rd_os_version : option string;
}.

#[global] Instance RemoteDeviceDescriptor_eq_dec : EqDecision RemoteDeviceDescriptor.
Proof. solve_decision. Defined.

(** [RemoteDeviceDescriptor::validate] *)
Definition descriptor_validate (d : RemoteDeviceDescriptor) : result ModelError () :=
  reject_if
    (negb (valid_identifier (rd_device_key d) MAX_DEVICE_KEY_BYTES) ||
     trim_is_empty (rd_name d) || (256 <? str_len (rd_name d)) ||
     match rd_os_version d with
     | Some value => trim_is_empty value || (128 <? str_len value)
     | None => false
     end ||
     match rd_platform d with
     | Platform_Other value => trim_is_empty value || (64 <? str_len value)
     | _ => false
     end) InvalidIdentifier.

Record InventorySnapshot := mkInventorySnapshot {
  iv_node_id : NodeId;
  iv_epoch : N;
  iv_revision : N;
  iv_generated_at_ms : N;
  iv_devices : list RemoteDeviceDescriptor;
}.

Definition out_of_range (value : N) : bool := (value =? 0) || (MAX_SAFE_INTEGER <? value).

(** The loop of [InventorySnapshot::validate] *)
Fixpoint validate_devices (devices : list RemoteDeviceDescriptor) (keys : gset string)
    : result ModelError () :=
  match devices with
  | [] => Ok ()
  | device :: devices =>
      check! descriptor_validate device;
      check! reject_if (bool_decide (rd_device_key device ∈ keys)) DuplicateDevice;
      validate_devices devices ({[rd_device_key device]} ∪ keys)
  end.

(** [InventorySnapshot::validate] *)
Definition inventory_validate (i : InventorySnapshot) : result ModelError () :=
  check! reject_if (out_of_range (iv_epoch i) || out_of_range (iv_revision i) ||
                    out_of_range (iv_generated_at_ms i)) InvalidEnvelope;
  check! reject_if ((len (iv_devices i) =? 0) || (MAX_INVENTORY_DEVICES <? len (iv_devices i)))
    InventoryLimit;
  validate_devices (iv_devices i) ∅.

Inductive HealthState := Healthy | Degraded | Unavailable.

#[global] Instance HealthState_eq_dec : EqDecision HealthState.
Proof. solve_decision. Defined.

Record PeerProtocolCapabilities := mkPeerProtocolCapabilities {
  pc_ui_snapshots_v1 : bool;
  pc_semantic_actions_v1 : bool;
}.

(** [PeerProtocolCapabilities::supports_required] *)
Definition supports_required (c : PeerProtocolCapabilities) : bool :=
  pc_ui_snapshots_v1 c && pc_semantic_actions_v1 c.

(** ** Requests *)

Inductive PeerOperation :=
| PO_Hello
| PO_Inventory
| PO_Health
| PO_Capabilities (device_key : string)
| PO_LeaseAcquire (device_key owner_id : string) (ttl_ms : N)
| PO_LeaseRenew (lease : PeerLease) (ttl_ms : N)
| PO_LeaseRelease (lease : PeerLease)
| PO_Connect (device_key : string)
| PO_Disconnect (device_key : string)
| PO_Observe (device_key : string) (screenshot_omission : option ScreenshotOmissionReason)
    (ui_snapshots_enabled semantic_actions_enabled : bool)
| PO_Execute (device_key : string) (call : ActionCall)
    (screenshot_omission : option ScreenshotOmissionReason)
    (ui_snapshots_enabled semantic_actions_enabled : bool)
| PO_EvidenceRead (device_key evidence_id : string) (offset max_bytes : N)
| PO_Cancel (target_request_id : Uuid) (call_id : option Uuid).

(** [PeerOperation::device_key] *)
Definition device_key (o : PeerOperation) : option string :=
  match o with
  | PO_Capabilities key | PO_LeaseAcquire key _ _ | PO_Connect key | PO_Disconnect key
  | PO_Observe key _ _ _ | PO_Execute key _ _ _ _ | PO_EvidenceRead key _ _ _ => Some key
  | PO_LeaseRenew lease _ | PO_LeaseRelease lease => Some (pl_device_key lease)
  | PO_Hello | PO_Inventory | PO_Health | PO_Cancel _ _ => None
  end.

Record PeerRequest := mkPeerRequest {
  pr_protocol_version : N;
  pr_request_id : Uuid;
  pr_trace_id : Uuid;
  pr_node_id : NodeId;
  pr_node_epoch : option N;
  pr_timeout_ms : option N;
  pr_call_id : option Uuid;
  pr_lease : option PeerLease;
  pr_operation : PeerOperation;
}.

(** [PeerRequest::new]; the random ids are arguments *)
Definition request_new (request_id trace_id : Uuid) (node_id : NodeId) (node_epoch : option N)
    (operation : PeerOperation) : PeerRequest :=
  mkPeerRequest DISTRIBUTED_PROTOCOL_VERSION request_id trace_id node_id node_epoch None
    (match operation with PO_Execute _ call _ _ _ => Some (call_id call) | _ => None end)
    None operation.

(** [valid_evidence_id] *)
Definition valid_evidence_id (value : string) : bool :=
  valid_identifier value 128 ||
  (String.prefix ASSET_ID_PREFIX value &&
   let digest := drop 7 (bytes value) in
   (len digest =? 64) && forallb is_lower_hex digest).

Definition is_object (v : Json) : bool := match v with JObject _ => true | _ => false end.

(** The part of [PeerRequest::validate] that depends on the operation *)
Definition operation_invalid (r : PeerRequest) : bool :=
  let no_epoch := is_none (pr_node_epoch r) in
  let no_lease := is_none (pr_lease r) in
  let some_call := is_some (pr_call_id r) in
  match pr_operation r with
  | PO_Hello | PO_Inventory => is_some (pr_node_epoch r) || is_some (pr_lease r) || some_call
  | PO_Health | PO_Capabilities _ => no_epoch || is_some (pr_lease r) || some_call
  | PO_LeaseAcquire _ owner_id ttl_ms =>
      no_epoch || is_some (pr_lease r) || some_call ||
      negb (valid_identifier owner_id 64) || negb (valid_lease_ttl ttl_ms)
  | PO_LeaseRenew lease ttl_ms =>
      negb (bool_decide (pr_node_epoch r = Some (pl_node_epoch lease))) ||
      negb (bool_decide (pr_lease r = Some lease)) || some_call || negb (valid_lease_ttl ttl_ms)
  | PO_LeaseRelease lease =>
      negb (bool_decide (pr_node_epoch r = Some (pl_node_epoch lease))) ||
      negb (bool_decide (pr_lease r = Some lease)) || some_call
  | PO_Connect _ | PO_Disconnect _ | PO_Observe _ _ _ _ => no_epoch || no_lease || some_call
  | PO_Execute _ call _ _ _ =>
      no_epoch || no_lease || negb (bool_decide (pr_call_id r = Some (call_id call))) ||
      (call_id call =? 0) || trim_is_empty (call_name call) || (128 <? str_len (call_name call)) ||
      negb (is_object (call_arguments call))
  | PO_EvidenceRead _ evidence_id offset max_bytes =>
      no_epoch || no_lease || some_call || negb (valid_evidence_id evidence_id) ||
      (MAX_SAFE_INTEGER <? offset) || negb ((1 <=? max_bytes) && (max_bytes <=? 256 * 1024))
  | PO_Cancel target_request_id call_id =>
      no_epoch || is_some (pr_lease r) || some_call || (target_request_id =? 0) ||
      is_some_and (λ id, id =? 0) call_id
  end.

(** [PeerRequest::validate] *)
Definition request_validate (r : PeerRequest) : result ModelError () :=
  check! reject_if (negb (pr_protocol_version r =? DISTRIBUTED_PROTOCOL_VERSION)) UnsupportedVersion;
  check! reject_if ((pr_request_id r =? 0) || (pr_trace_id r =? 0) ||
      is_some_and out_of_range (pr_node_epoch r) ||
      is_some_and (λ value, (value =? 0) || (MAX_REQUEST_TIMEOUT_MS <? value)) (pr_timeout_ms r) ||
      is_some_and (λ value, value =? 0) (pr_call_id r)) InvalidEnvelope;
  check! reject_if (is_some_and (λ key, negb (valid_identifier key MAX_DEVICE_KEY_BYTES))
      (device_key (pr_operation r))) InvalidIdentifier;
  check! match pr_lease r with
    | None => Ok ()
    | Some lease =>
        check! reject_if (negb (peer_lease_valid lease)) InvalidEnvelope;
        reject_if (negb (bool_decide (device_key (pr_operation r) = Some (pl_device_key lease))) ||
                   negb (bool_decide (pr_node_epoch r = Some (pl_node_epoch lease)))) InvalidEnvelope
    end;
  reject_if (operation_invalid r) InvalidEnvelope.

(** ** Responses *)

Inductive PeerResult :=
| PR_Hello (node_id : NodeId) (epoch max_frame_bytes : N) (capabilities : PeerProtocolCapabilities)
| PR_Inventory (inventory : InventorySnapshot)
| PR_Health (state : HealthState) (checked_at_ms : N)
| PR_Capabilities (actions : list ActionDefinition)
| PR_Lease (lease : PeerLease)
| PR_Device (device : DeviceInfo)
| PR_Observation (observation : Observation)
| PR_Action (result : ActionResult)
| PR_EvidenceChunk (evidence_id media_type : string) (total_size offset : N)
    (data_base64 : string) (sha256 : option string) (done : bool)
| PR_Ack.

(** [PeerResult::matches_request] *)
Definition matches_request (res : PeerResult) (r : PeerRequest) (response_epoch : N) : bool :=
  match pr_operation r, res with
  | PO_Hello, PR_Hello node_id epoch max_frame_bytes _ =>
      String.eqb node_id (pr_node_id r) && (epoch =? response_epoch) &&
      (0 <? max_frame_bytes) && (max_frame_bytes <=? MAX_PEER_FRAME_BYTES)
  | PO_Inventory, PR_Inventory inventory =>
      is_ok (inventory_validate inventory) && String.eqb (iv_node_id inventory) (pr_node_id r) &&
      (iv_epoch inventory =? response_epoch)
  | PO_Health, PR_Health _ checked_at_ms => (0 <? checked_at_ms) && (checked_at_ms <=? MAX_SAFE_INTEGER)
  | PO_Capabilities _, PR_Capabilities actions =>
      negb (len actions =? 0) && (len actions <=? MAX_CAPABILITIES)
  | PO_LeaseAcquire key owner_id _, PR_Lease lease =>
      peer_lease_valid lease && String.eqb (pl_device_key lease) key &&
      String.eqb (pl_owner_id lease) owner_id && (pl_node_epoch lease =? response_epoch)
  | PO_LeaseRenew old _, PR_Lease renewed =>
      peer_lease_valid renewed && (pl_lease_id renewed =? pl_lease_id old) &&
      String.eqb (pl_device_key renewed) (pl_device_key old) &&
      String.eqb (pl_owner_id renewed) (pl_owner_id old) &&
      (pl_node_epoch renewed =? pl_node_epoch old)
  | PO_LeaseRelease _, PR_Ack | PO_Disconnect _, PR_Ack | PO_Cancel _ _, PR_Ack => true
  | PO_Connect key, PR_Device device => String.eqb (di_id device) key && di_connected device
  | PO_Observe key _ _ _, PR_Observation observation => String.eqb (obs_device_id observation) key
  | PO_Execute _ call _ _ _, PR_Action result => res_call_id result =? call_id call
  | PO_EvidenceRead _ evidence_id offset max_bytes,
    PR_EvidenceChunk returned_id _ total_size returned_offset data_base64 _ _ =>
      String.eqb returned_id evidence_id && (returned_offset =? offset) && (offset <? total_size) &&
      (str_len data_base64 <=? (max_bytes + 2) / 3 * 4)
  | _, _ => false
  end.

Record PeerError := mkPeerError {
  pe_code : string;
  pe_retryable : bool;
  pe_outcome_unknown : bool;
}.

#[global] Instance PeerError_eq_dec : EqDecision PeerError.
Proof. solve_decision. Defined.

(** [valid_code] *)
Definition valid_code (value : string) : bool :=
  negb (str_len value =? 0) && (str_len value <=? 64) &&
  match bytes value with
  | [] => true
  | first :: rest =>
      is_ascii_lowercase first &&
      forallb (λ b, is_ascii_lowercase b || is_ascii_digit b ||
                    (b =? 0x5F) || (b =? 0x2D) || (b =? 0x2E)) rest
  end.

Record PeerResponse := mkPeerResponse {
  ps_protocol_version : N;
  ps_request_id : Uuid;
  ps_node_id : NodeId;
  ps_node_epoch : N;
  ps_ok : bool;
  ps_result : option PeerResult;
  ps_error : option PeerError;
}.

(** [PeerResponse::success] and [PeerResponse::failure] *)
Definition response_success (r : PeerRequest) (node_epoch : N) (res : PeerResult) : PeerResponse :=
  mkPeerResponse DISTRIBUTED_PROTOCOL_VERSION (pr_request_id r) (pr_node_id r) node_epoch true
    (Some res) None.
Definition response_failure (r : PeerRequest) (node_epoch : N) (error : PeerError) : PeerResponse :=
  mkPeerResponse DISTRIBUTED_PROTOCOL_VERSION (pr_request_id r) (pr_node_id r) node_epoch false
    None (Some error).

(** [PeerResponse::validate_for] *)
Definition validate_for (s : PeerResponse) (r : PeerRequest) : result ModelError () :=
  check! reject_if (negb (ps_protocol_version s =? DISTRIBUTED_PROTOCOL_VERSION)) UnsupportedVersion;
  check! reject_if
    (negb (ps_request_id s =? pr_request_id r) || negb (String.eqb (ps_node_id s) (pr_node_id r)) ||
     out_of_range (ps_node_epoch s) ||
     is_some_and (λ expected, negb (ps_node_epoch s =? expected)) (pr_node_epoch r) ||
     negb (Bool.eqb (ps_ok s) (is_some (ps_result s) && is_none (ps_error s))) ||
     (negb (ps_ok s) && (is_some (ps_result s) || is_none (ps_error s)))) ResponseMismatch;
  check! reject_if (is_some_and (λ error, negb (valid_code (pe_code error))) (ps_error s))
    InvalidEnvelope;
  reject_if (is_some_and (λ res, negb (matches_request res r (ps_node_epoch s))) (ps_result s))
    ResponseMismatch.
