(* ===== verification/ManualRecording.v ===== *)
(** * Replaying manual recordings

    [crates/manual-recording/src/lib.rs] and [crates/protocol/src/manual.rs]: a
    person's actions as a document, and its compilation into the calls that
    replay it. A document is accepted exactly when it is an ordered, numbered
    record, and it compiles exactly to its steps, with the arguments of a
    protected action from the host and from nowhere else.

    JSON text, JSON Schema and SHA-256 are parameters. The closure that
    resolves secrets may change its state. *)

From S2P Require Import Prelude Protocol Evidence PeerLease PeerModel.

Local Open Scope N_scope.

Definition MANUAL_RECORDING_VERSION : N := 1.
Definition MAX_ACTIONS : N := 256.
Definition MAX_ACTION_SPACE_BYTES : N := 1024 * 1024.
Definition MAX_RECORDING_BYTES : N := 16 * 1024 * 1024.
Definition MAX_ARGUMENT_BYTES : N := 64 * 1024.

Inductive ManualActionArguments :=
| ArgumentsCaptured (value : Json)
| ArgumentsProtected (secret_ref : string).

Record ManualActionStep := mkManualActionStep {
  ms_sequence : EventSequence;
  ms_captured_at_ms : N;
  ms_call_id : Uuid;
  ms_name : string;
  ms_arguments : ManualActionArguments;
}.

Record ManualRecording := mkManualRecording {
  mr_format_version : N;
  mr_recording_id : Uuid;
  mr_source_device_id : DeviceId;
  mr_action_space_sha256 : string;
  mr_started_at_ms : N;
  mr_ended_at_ms : N;
  mr_steps : list ManualActionStep;
}.

Inductive ManualRecordingError :=
| MRE_UnsupportedVersion
| MRE_InvalidRecording (what : string)
| MRE_InvalidActionSpace (what : string)
| MRE_ActionSpaceChanged
| MRE_UnknownAction
| MRE_ProtectionMismatch
| MRE_SecretUnavailable
| MRE_InvalidArguments.

(** [valid_secret_ref] of [validate_recording] *)
Definition valid_secret_ref (arguments : ManualActionArguments) : bool :=
  match arguments with
  | ArgumentsCaptured _ => true
  | ArgumentsProtected secret_ref =>
      negb (str_len secret_ref =? 0) && (str_len secret_ref <=? 128) &&
      forallb (λ b, is_ascii_alphanumeric b || (b =? 0x2D) || (b =? 0x5F) || (b =? 0x2E))
        (bytes secret_ref)
  end.

(** The loop of [validate_recording] *)
Fixpoint validate_steps (ended_at : N) (index : N) (call_ids : gset Uuid) (previous_at : N)
    (steps : list ManualActionStep) : result ManualRecordingError () :=
  match steps with
  | [] => Ok ()
  | step :: steps =>
      check! reject_if (negb (EventSequence.get (ms_sequence step) =? index + 1) ||
          (ms_captured_at_ms step <? previous_at) || (ended_at <? ms_captured_at_ms step) ||
          (str_len (ms_name step) =? 0) || (128 <? str_len (ms_name step)) ||
          bool_decide (ms_call_id step ∈ call_ids) || negb (valid_secret_ref (ms_arguments step)))
        (MRE_InvalidRecording "step");
      validate_steps ended_at (index + 1) ({[ms_call_id step]} ∪ call_ids) (ms_captured_at_ms step) steps
  end.

Section Recording.
(** The sizes and the text of JSON, [None] when it cannot be written; the
    validation of a schema against its meta-schema, and its compilation to a
    validator; the hexadecimal SHA-256 *)
Context (recording_bytes : ManualRecording → option N) (value_bytes : Json → option N).
Context (space_json : list ActionDefinition → option (list N)).
Context (meta_valid : Json → bool) (validator_for : Json → option (Json → bool)).
Context (sha256_hex : list N → string).

(** [validate_recording] *)
Definition validate_recording (r : ManualRecording) : result ManualRecordingError () :=
  check! reject_if (negb (mr_format_version r =? MANUAL_RECORDING_VERSION)) MRE_UnsupportedVersion;
  check! reject_if (trim_is_empty (mr_source_device_id r) ||
      (mr_ended_at_ms r <? mr_started_at_ms r) || negb (str_len (mr_action_space_sha256 r) =? 64) ||
      negb (forallb is_lower_hex (bytes (mr_action_space_sha256 r))) ||
      (10000 <? len (mr_steps r)) ||
      match recording_bytes r with Some n => MAX_RECORDING_BYTES <? n | None => true end)
    (MRE_InvalidRecording "document");
  validate_steps (mr_ended_at_ms r) 0 ∅ (mr_started_at_ms r) (mr_steps r).

(** The loop of [validate_action_space] *)
Fixpoint validate_definitions (names : gset string) (actions : list ActionDefinition)
    : result ManualRecordingError () :=
  match actions with
  | [] => Ok ()
  | action :: actions =>
      check! reject_if ((str_len (def_name action) =? 0) || (128 <? str_len (def_name action)) ||
          bool_decide (def_name action ∈ names) || negb (is_object (def_input_schema action)) ||
          negb (meta_valid (def_input_schema action)))
        (MRE_InvalidActionSpace "action_definition");
      validate_definitions ({[def_name action]} ∪ names) actions
  end.

(** [validate_action_space] *)
Definition validate_action_space (actions : list ActionDefinition) : result ManualRecordingError () :=
  check! reject_if ((len actions =? 0) || (MAX_ACTIONS <? len actions))
    (MRE_InvalidActionSpace "action_count");
  validate_definitions ∅ actions.

(** [action_space_digest] *)
Definition action_space_digest (actions : list ActionDefinition) : result ManualRecordingError string :=
  check! validate_action_space actions;
  bytes ← ok_or (space_json actions) (MRE_InvalidActionSpace "serialization_failed");
  check! reject_if (MAX_ACTION_SPACE_BYTES <? len bytes) (MRE_InvalidActionSpace "size_limit");
  Ok (sha256_hex bytes).

(** The map from names to definitions; a later definition replaces an earlier
    one *)
Definition actions_by_name (actions : list ActionDefinition) : gmap string ActionDefinition :=
  foldl (λ m action, <[def_name action := action]> m) ∅ actions.

Section Replay.
Context {R : Type} (resolve_secret : string → R → option Json * R).

(** The arguments of a step *)
Definition step_arguments (action : ActionDefinition) (arguments : ManualActionArguments)
    : M R ManualRecordingError Json :=
  match def_protection action, arguments with
  | Standard, ArgumentsCaptured value => mret value
  | Protected, ArgumentsProtected secret_ref => λ state,
      let '(value, state) := resolve_secret secret_ref state in
      (ok_or value MRE_SecretUnavailable, state)
  | _, _ => throw MRE_ProtectionMismatch
  end.

(** The checks of [compile_replay] on the arguments of an action *)
Definition check_arguments (action : ActionDefinition) (arguments : Json)
    : result ManualRecordingError () :=
  check! reject_if (negb (is_object arguments) ||
      match value_bytes arguments with Some n => MAX_ARGUMENT_BYTES <? n | None => true end)
    MRE_InvalidArguments;
  validator ← ok_or (validator_for (def_input_schema action)) (MRE_InvalidActionSpace "invalid_schema");
  reject_if (negb (validator arguments)) MRE_InvalidArguments.

(** The loop of [compile_replay] *)
Fixpoint compile_steps (actions : gmap string ActionDefinition) (steps : list ManualActionStep)
    : M R ManualRecordingError (list ActionCall) :=
  match steps with
  | [] => mret []
  | step :: steps =>
      action ← lift (ok_or (actions !! ms_name step) MRE_UnknownAction);
      arguments ← step_arguments action (ms_arguments step);
      check! lift (check_arguments action arguments);
      calls ← compile_steps actions steps;
      mret (mkActionCall (ms_call_id step) (ms_name step) arguments :: calls)
  end.

(** [compile_replay] *)
Definition compile_replay (r : ManualRecording) (actions : list ActionDefinition)
    : M R ManualRecordingError (list ActionCall) :=
  check! lift (validate_recording r);
  digest ← lift (action_space_digest actions);
  fail_if! negb (String.eqb digest (mr_action_space_sha256 r)) with MRE_ActionSpaceChanged;
  compile_steps (actions_by_name actions) (mr_steps r).
End Replay.
End Recording.
