(* ===== verification/ManualRecordingProps.v ===== *)
(** * What a manual recording replays

    The accepted documents and action spaces, and the calls a document
    compiles to, each characterised from both sides. *)

From S2P Require Import Prelude Protocol Evidence PeerLease PeerModel ManualRecording.

Local Open Scope N_scope.

(** ** Documents *)

(** A step by itself *)
Definition step_ok (step : ManualActionStep) : Prop :=
  0 < str_len (ms_name step) ≤ 128 ∧ valid_secret_ref (ms_arguments step) = true.

(** Steps that continue a recording: numbered after [index], in the order of
    time between [previous_at] and [ended_at], each with a call id of its own *)
Record steps_ok (ended_at index previous_at : N) (steps : list ManualActionStep) : Prop := {
  so_numbered i step : steps !! i = Some step → ms_sequence step = index + N.of_nat i + 1;
  so_ordered : StronglySorted N.le (previous_at :: (ms_captured_at_ms <$> steps) ++ [ended_at]);
  so_ids : NoDup (ms_call_id <$> steps);
  so_steps : Forall step_ok steps;
}.

Lemma steps_ok_nil ended_at index previous_at :
  steps_ok ended_at index previous_at [] ↔ previous_at ≤ ended_at.
Proof.
  split.
  - intros [_ Hs _ _]. inversion Hs as [|? ? _ Hle]; subst. by inversion Hle.
  - intros Hle. split; [done| |constructor..]. by repeat constructor.
Qed.

Lemma steps_ok_cons ended_at index previous_at step steps :
  steps_ok ended_at index previous_at (step :: steps) ↔
    ms_sequence step = index + 1 ∧ previous_at ≤ ms_captured_at_ms step ∧
    step_ok step ∧ ¬ (ms_call_id step ∈ ms_call_id <$> steps) ∧
    steps_ok ended_at (index + 1) (ms_captured_at_ms step) steps.
Proof.
  split.
  - intros [Hn Hs Hi Hok]. inversion Hs as [|? ? Hs' Hle]; subst. inversion Hle; subst.
    apply NoDup_cons in Hi as [? ?]. apply Forall_cons in Hok as [? ?].
    split; [rewrite (Hn 0%nat step eq_refl); lia|]. split_and!; [done..|]. split; try done.
    intros i s Hl. rewrite (Hn (S i) s Hl). lia.
  - intros (Hseq & Hle & Hok & Hni & [Hn Hs Hi Hall]). split.
    + intros [|i] s Hl; cbn in Hl; [simplify_eq; lia|]. rewrite (Hn _ _ Hl). lia.
    + constructor; [done|]. cbn. constructor; [done|]. inversion Hs as [|? ? _ Hf]; subst.
      eapply Forall_impl; [exact Hf|]. cbn. lia.
    + by constructor.
    + by constructor.
Qed.

Lemma validate_steps_iff ended_at index ids previous_at steps :
  previous_at ≤ ended_at →
  validate_steps ended_at index ids previous_at steps = Ok () ↔
    steps_ok ended_at index previous_at steps ∧ Forall (λ step, ms_call_id step ∉ ids) steps.
Proof.
  revert index ids previous_at. induction steps as [|step steps IH]; intros index ids previous_at Hle.
  { rewrite steps_ok_nil. cbn. naive_solver. }
  cbn [validate_steps]. rewrite steps_ok_cons, Forall_cons, result_bind_ok. split.
  - intros ([] & Hb%reject_if_ok & Hrest). inv_bools.
    apply IH in Hrest as [Hok Hids]; [|lia]. unfold step_ok, EventSequence.get in *.
    split_and!; try done; try lia; [|eapply Forall_impl; [exact Hids|set_solver]].
    rewrite Forall_forall in Hids. intros (s & Heq & Hin)%list_elem_of_fmap.
    apply (Hids s Hin). set_solver.
  - intros [(Hseq & Hprev & [Hname Href] & Hni & Hok) [Hnew Hids]]. exists ().
    assert (ms_captured_at_ms step ≤ ended_at) as Hend.
    { destruct Hok as [_ Hs _ _]. inversion Hs as [|? ? _ Hf]; subst.
      rewrite Forall_app, Forall_singleton in Hf. tauto. }
    split.
    + apply reject_if_ok. rewrite Href, bool_decide_false by done. unfold EventSequence.get.
      rewrite !orb_false_iff, negb_false_iff, N.eqb_eq, !N.ltb_ge, N.eqb_neq. split_and!; try done; lia.
    + apply IH; [done|]. split; [done|]. rewrite Forall_forall in *. intros s Hs.
      rewrite not_elem_of_union, not_elem_of_singleton. split; [|by apply Hids].
      intros Heq. apply Hni, list_elem_of_fmap. by exists s.
Qed.

Section Recording.
Context (recording_bytes : ManualRecording → option N) (value_bytes : Json → option N).
Context (space_json : list ActionDefinition → option (list N)).
Context (meta_valid : Json → bool) (validator_for : Json → option (Json → bool)).
Context (sha256_hex : list N → string).

Record recording_ok (r : ManualRecording) : Prop := {
  ro_version : mr_format_version r = MANUAL_RECORDING_VERSION;
  ro_source : trim_is_empty (mr_source_device_id r) = false;
  ro_times : mr_started_at_ms r ≤ mr_ended_at_ms r;
  ro_digest : str_len (mr_action_space_sha256 r) = 64 ∧
    forallb is_lower_hex (bytes (mr_action_space_sha256 r)) = true;
  ro_count : len (mr_steps r) ≤ 10000;
  ro_size : ∃ n, recording_bytes r = Some n ∧ n ≤ MAX_RECORDING_BYTES;
  ro_steps : steps_ok (mr_ended_at_ms r) 0 (mr_started_at_ms r) (mr_steps r);
}.

(** A size that is known and within its limit *)
Lemma size_within (size : option N) limit :
  match size with Some n => limit <? n | None => true end = false ↔ ∃ n, size = Some n ∧ n ≤ limit.
Proof. destruct size; [rewrite N.ltb_ge|]; naive_solver. Qed.

(** [validate_recording] accepts exactly the well-formed documents. *)
Theorem validate_recording_iff r :
  validate_recording recording_bytes r = Ok () ↔ recording_ok r.
Proof.
  unfold validate_recording. rewrite result_bind_ok. split.
  - intros ([] & Hv%reject_if_ok & (? & Hd%reject_if_ok & Hs)%result_bind_ok).
    rewrite !orb_false_iff, size_within, !negb_false_iff, !N.ltb_ge, N.eqb_eq in Hd.
    destruct Hd as (((((? & ?) & ?) & ?) & ?) & ?). apply validate_steps_iff in Hs as [? _]; [|done].
    apply negb_false_iff, N.eqb_eq in Hv. by split.
  - intros [Hv ? ? [? ?] ? ? ?]. exists (). rewrite reject_if_ok, negb_false_iff, N.eqb_eq. split; [done|].
    apply result_bind_ok. exists (). split.
    + apply reject_if_ok. rewrite !orb_false_iff, size_within, !negb_false_iff, !N.ltb_ge, N.eqb_eq.
      by split_and!.
    + apply validate_steps_iff; [done|]. split; [done|]. apply Forall_forall. set_solver.
Qed.

(** ** Action spaces *)

Definition definition_ok (action : ActionDefinition) : Prop :=
  0 < str_len (def_name action) ≤ 128 ∧ is_object (def_input_schema action) = true ∧
  meta_valid (def_input_schema action) = true.

Record space_ok (actions : list ActionDefinition) : Prop := {
  sp_count : 0 < len actions ≤ MAX_ACTIONS;
  sp_names : NoDup (def_name <$> actions);
  sp_definitions : Forall definition_ok actions;
}.

Lemma validate_definitions_iff names actions :
  validate_definitions meta_valid names actions = Ok () ↔
    NoDup (def_name <$> actions) ∧ Forall definition_ok actions ∧
    Forall (λ action, def_name action ∉ names) actions.
Proof.
  revert names. induction actions as [|action actions IH]; intros names.
  { cbn. split; [|done]. intros _. repeat constructor. }
  cbn [validate_definitions]. rewrite result_bind_ok, fmap_cons, NoDup_cons, !Forall_cons.
  unfold definition_ok at 1. split.
  - intros ([] & Hb%reject_if_ok & (Hnd & Hall & Hnew)%IH). inv_bools.
    split_and!; try done; try lia; [|eapply Forall_impl; [exact Hnew|cbn; set_solver +]].
    rewrite Forall_forall in Hnew. intros (a & Heq & Ha)%list_elem_of_fmap.
    apply (Hnew a Ha). rewrite Heq. set_solver +.
  - intros ([Hni Hnd] & ((Hname & Hobj & Hmeta) & Hall) & Hnew & Hnames). exists (). split.
    + apply reject_if_ok. rewrite Hobj, Hmeta, bool_decide_false by done.
      rewrite !orb_false_iff, N.ltb_ge, N.eqb_neq. split_and!; try done; lia.
    + apply IH. split_and!; [done..|]. rewrite Forall_forall in *. intros a Ha.
      rewrite not_elem_of_union, not_elem_of_singleton. split; [|by apply Hnames].
      intros Heq. apply Hni, list_elem_of_fmap. by exists a.
Qed.

Lemma validate_action_space_iff actions :
  validate_action_space meta_valid actions = Ok () ↔ space_ok actions.
Proof.
  unfold validate_action_space. rewrite result_bind_ok. split.
  - intros ([] & Hb%reject_if_ok & (? & ? & _)%validate_definitions_iff).
    apply orb_false_iff in Hb as [?%N.eqb_neq ?%N.ltb_ge]. split; [lia|done..].
  - intros [? ? ?]. exists (). rewrite reject_if_ok, orb_false_iff, N.eqb_neq, N.ltb_ge.
    split; [lia|]. apply validate_definitions_iff. split_and!; [done..|]. apply Forall_forall. set_solver.
Qed.

(** The digest of an action space *)
Definition has_digest (actions : list ActionDefinition) (digest : string) : Prop :=
  ∃ json, space_json actions = Some json ∧ len json ≤ MAX_ACTION_SPACE_BYTES ∧ sha256_hex json = digest.

Lemma action_space_digest_iff actions digest :
  action_space_digest space_json meta_valid sha256_hex actions = Ok digest ↔
    space_ok actions ∧ has_digest actions digest.
Proof.
  unfold action_space_digest, has_digest. rewrite result_bind_ok, <- validate_action_space_iff. split.
  - intros ([] & ? & (json & Hj%ok_or_ok & (? & Hb%reject_if_ok & Hd)%result_bind_ok)%result_bind_ok).
    injection Hd as <-. apply N.ltb_ge in Hb. eauto 10.
  - intros (? & json & Hj & Hle & <-). exists (). split; [done|]. rewrite Hj. cbn.
    by rewrite (proj2 (N.ltb_ge _ _) Hle).
Qed.

Lemma actions_by_name_lookup actions name action :
  NoDup (def_name <$> actions) →
  actions_by_name actions !! name = Some action ↔ action ∈ actions ∧ def_name action = name.
Proof.
  unfold actions_by_name. induction actions as [|a actions IH] using rev_ind; intros Hnd.
  { cbn. rewrite lookup_empty. set_solver. }
  rewrite fmap_app, NoDup_app in Hnd. destruct Hnd as (Hnd & Hdis & _).
  rewrite foldl_app. cbn. rewrite lookup_insert_Some, (IH Hnd), elem_of_app, list_elem_of_singleton.
  split; [naive_solver|]. intros [[Ha| ->] <-]; [right|by left].
  split; [|done]. intros Heq. eapply Hdis; [by apply list_elem_of_fmap_2|]. set_solver.
Qed.

(** ** Calls *)

Section Replay.
Context {R : Type} (resolve_secret : string → R → option Json * R).

(** Where the arguments of a step come from: those of a standard action from
    the document, those of a protected one from the host *)
Inductive supplies (action : ActionDefinition) : ManualActionArguments → R → Json → R → Prop :=
| supplies_captured value s :
    def_protection action = Standard → supplies action (ArgumentsCaptured value) s value s
| supplies_protected secret_ref value s s' :
    def_protection action = Protected → resolve_secret secret_ref s = (Some value, s') →
    supplies action (ArgumentsProtected secret_ref) s value s'.

Definition accepts (action : ActionDefinition) (arguments : Json) : Prop :=
  is_object arguments = true ∧ (∃ n, value_bytes arguments = Some n ∧ n ≤ MAX_ARGUMENT_BYTES) ∧
  ∃ validator, validator_for (def_input_schema action) = Some validator ∧ validator arguments = true.

(** Calls that replay steps one by one *)
Inductive replays (actions : list ActionDefinition)
    : R → list ManualActionStep → list ActionCall → R → Prop :=
| replays_nil s : replays actions s [] [] s
| replays_step action step steps arguments calls s s1 s2 :
    action ∈ actions → def_name action = ms_name step →
    supplies action (ms_arguments step) s arguments s1 → accepts action arguments →
    replays actions s1 steps calls s2 →
    replays actions s (step :: steps)
      (mkActionCall (ms_call_id step) (ms_name step) arguments :: calls) s2.

Lemma step_arguments_iff action arguments s value s' :
  step_arguments resolve_secret action arguments s = (Ok value, s') ↔
    supplies action arguments s value s'.
Proof.
  unfold step_arguments. split.
  - destruct (def_protection action) eqn:Hp, arguments as [v|ref]; try done.
    + intros [= <- <-]. by constructor.
    + destruct (resolve_secret ref s) as [o s1] eqn:Hr. intros [= Ho%ok_or_ok <-]. subst o. by constructor.
  - intros [v s1 Hp|ref v s1 s2 Hp Hr]; rewrite Hp; [done|]. by rewrite Hr.
Qed.

Lemma check_arguments_iff action arguments :
  check_arguments value_bytes validator_for action arguments = Ok () ↔ accepts action arguments.
Proof.
  unfold check_arguments, accepts. rewrite result_bind_ok. split.
  - intros ([] & Hb%reject_if_ok & (v & Hv%ok_or_ok & Ha%reject_if_ok)%result_bind_ok).
    rewrite orb_false_iff, size_within, negb_false_iff in Hb. apply negb_false_iff in Ha. naive_solver.
  - intros (Hobj & Hsize%size_within & v & Hv & Ha). exists (). rewrite Hobj, Hsize, Hv. cbn. by rewrite Ha.
Qed.

Lemma compile_steps_iff actions steps s calls s' :
  NoDup (def_name <$> actions) →
  compile_steps value_bytes validator_for resolve_secret (actions_by_name actions) steps s =
    (Ok calls, s') ↔ replays actions s steps calls s'.
Proof.
  intros Hnd. revert s calls. induction steps as [|step steps IH]; intros s calls.
  { split; [intros [= <- <-]; constructor|by inversion 1]. }
  cbn [compile_steps]. split.
  - intros Hrun. inv_run.
    match goal with H : _ = Some _ |- _ => apply actions_by_name_lookup in H as [??]; [|done] end.
    repeat match goal with
    | H : step_arguments _ _ _ _ = _ |- _ => apply step_arguments_iff in H
    | H : compile_steps _ _ _ _ _ _ = _ |- _ => apply IH in H
    | H : check_arguments _ _ _ _ = Ok ?u |- _ => destruct u; apply check_arguments_iff in H
    end.
    by econstructor.
  - inversion 1 as [|action ? ? arguments calls' ? s1 ? Ha Hn Hs Hacc Hrest]; subst.
    apply step_arguments_iff in Hs. apply check_arguments_iff in Hacc. apply IH in Hrest.
    assert (actions_by_name actions !! ms_name step = Some action) as Hl
      by by apply actions_by_name_lookup.
    unfold mbind, M_bind, lift. rewrite Hl. cbn. by rewrite Hs, Hacc, Hrest.
Qed.

(** Compiling a document.  [compile_replay] gives calls exactly when the
    document and the action space are well-formed, the space has the digest of
    the document, and the calls are those of the steps, in their order and
    with their ids: a standard action with the recorded arguments, a protected
    one with what the host gives for its reference, both accepted by the
    schema of the action.  The host is asked for nothing else. *)
Theorem compile_replay_iff r actions s calls s' :
  compile_replay recording_bytes value_bytes space_json meta_valid validator_for sha256_hex
    resolve_secret r actions s = (Ok calls, s') ↔
    recording_ok r ∧ space_ok actions ∧ has_digest actions (mr_action_space_sha256 r) ∧
    replays actions s (mr_steps r) calls s'.
Proof.
  unfold compile_replay. split.
  - intros Hrun. inv_run. inv_bools.
    repeat match goal with
    | H : validate_recording _ _ = Ok ?u |- _ => destruct u; apply validate_recording_iff in H
    | H : action_space_digest _ _ _ _ = Ok _ |- _ => apply action_space_digest_iff in H as [??]
    | H : String.eqb _ _ = true |- _ => apply String.eqb_eq in H
    end. subst. split_and!; try done. by apply compile_steps_iff; [apply sp_names|].
  - intros (Hr%validate_recording_iff & Hsp & Hd & Hrep).
    apply compile_steps_iff in Hrep; [|by apply sp_names].
    unfold mbind, M_bind, lift. rewrite Hr. cbn.
    rewrite (proj2 (action_space_digest_iff _ _) (conj Hsp Hd)). cbn. by rewrite String.eqb_refl.
Qed.
End Replay.
End Recording.

(** A recording of a standard and a protected action, with a host that counts
    what it is asked for *)
Module ReplayExamples.
Definition digest : string := "00000000000000000000000000000000000000000000000000000000000000aa".
Definition space : list ActionDefinition :=
  [mkActionDefinition "tap" "Tap" (JObject []) Standard;
   mkActionDefinition "fillSecret" "Fill" (JObject []) Protected].
Definition recording (protected_step : ManualActionArguments) : ManualRecording :=
  mkManualRecording 1 9 "web-1" digest 100 110
    [mkManualActionStep 1 101 1 "tap" (ArgumentsCaptured (JObject [("x", JString "3")]));
     mkManualActionStep 2 105 2 "fillSecret" protected_step].

Definition host (secret_ref : string) (asked : N) : option Json * N :=
  (if String.eqb secret_ref "login" then Some (JObject [("text", JString "pw")]) else None, asked + 1).

Definition replay (r : ManualRecording) : result ManualRecordingError (list ActionCall) * N :=
  compile_replay (λ _, Some 500) (λ _, Some 20) (λ _, Some [1]) (λ _, true) (λ _, Some (λ _, true))
    (λ _, digest) host r space 0.

Example replay_asks_for_the_secret :
  replay (recording (ArgumentsProtected "login")) =
    (Ok [mkActionCall 1 "tap" (JObject [("x", JString "3")]);
         mkActionCall 2 "fillSecret" (JObject [("text", JString "pw")])], 1).
Proof. vm_compute. reflexivity. Qed.

Example replay_fails_closed :
  replay (recording (ArgumentsProtected "other")) = (Err MRE_SecretUnavailable, 1) ∧
  replay (recording (ArgumentsCaptured (JObject []))) = (Err MRE_ProtectionMismatch, 0).
Proof. vm_compute. split; reflexivity. Qed.
End ReplayExamples.
