(* ===== verification/PeerTransport.v ===== *)
(** * Exchanges with a peer

    [crates/distributed-router/src/transport.rs] and the exchange functions of
    [driver.rs]: one request and its response on an authenticated stream, and
    what a Driver reports when the exchange fails.

    JSON and the bundled schema are parameters. What the stream, the
    cancellation signal and the deadline do is an argument of each exchange. *)

From S2P Require Import Prelude Protocol Control Runtime PeerLease PeerModel.

Local Open Scope N_scope.

Inductive TransportError :=
| TE_InvalidRequest
| TE_FrameTooLarge
| TE_ClosedBeforeSend
| TE_FailedAfterSend
| TE_Protocol
| TE_UnsupportedVersion
| TE_Cancelled
| TE_CancelledAfterSend
| TE_TimedOut
| TE_TimedOutAfterSend.

#[global] Instance TransportError_eq_dec : EqDecision TransportError.
Proof. solve_decision. Defined.

(** [TransportError::may_have_reached_peer] *)
Definition may_have_reached_peer (e : TransportError) : bool :=
  match e with
  | TE_FailedAfterSend | TE_CancelledAfterSend | TE_TimedOutAfterSend => true
  | _ => false
  end.

(** [TransportError::code] *)
Definition transport_error_code (e : TransportError) : string :=
  match e with
  | TE_InvalidRequest => "peer_request_invalid"
  | TE_FrameTooLarge => "peer_frame_too_large"
  | TE_ClosedBeforeSend => "peer_closed_before_send"
  | TE_FailedAfterSend => "peer_failed_after_send"
  | TE_Protocol => "peer_protocol_error"
  | TE_UnsupportedVersion => "peer_protocol_version_unsupported"
  | TE_Cancelled => "peer_cancelled"
  | TE_CancelledAfterSend => "peer_cancelled_after_send"
  | TE_TimedOut => "peer_timed_out"
  | TE_TimedOutAfterSend => "peer_timed_out_after_send"
  end.

(** ** Frames *)

(** What [read_until] finds: the bytes up to a newline, or all of them *)
Fixpoint until_newline (input : list N) : list N :=
  match input with
  | [] => []
  | b :: input => if b =? 10 then [b] else b :: until_newline input
  end.

(** [read_frame]: the bytes that arrive before the end of the stream or an
    error of it *)
Definition read_frame (input : list N) (failed : bool) : result TransportError (list N) :=
  let bytes := until_newline (take (N.to_nat (MAX_PEER_FRAME_BYTES + 1)) input) in
  let complete := bool_decide (last bytes = Some 10) ||
                  (len bytes =? MAX_PEER_FRAME_BYTES + 1) in
  if failed && negb complete then Err TE_FailedAfterSend
  else if len bytes =? 0 then Err TE_FailedAfterSend
  else if (MAX_PEER_FRAME_BYTES <? len bytes) || negb (bool_decide (last bytes = Some 10))
  then Err TE_FrameTooLarge
  else
    let bytes := take (length bytes - 1) bytes in
    if (len bytes =? 0) || bool_decide (last bytes = Some 13) then Err TE_Protocol else Ok bytes.

(** ** One exchange *)

(** What the [select]s of [request] see: the lock of the stream, the write,
    and the wait for the response *)
Inductive Waited (A : Type) := WaitDone (a : A) | WaitCancelled | WaitTimedOut.
Arguments WaitDone {A} a.
Arguments WaitCancelled {A}.
Arguments WaitTimedOut {A}.

(** Whether the control is cancelled and expired at a moment *)
Record Pulse := mkPulse { pu_cancelled : bool; pu_expired : bool }.

Record Answers := mkAnswers {
  an_entry : Pulse;
  an_remaining : option N;
  an_lock : Waited ();
  an_locked : Pulse;
  an_write : Waited bool;
  an_input : list N;
  an_input_failed : bool;
  an_read : Waited ();
}.

(** [NdjsonPeerTransport]: whether the stream is still there, and the requests
    of which bytes may have been written *)
Record Transport := mkTransport {
  tr_expected_node_id : NodeId;
  tr_open : bool;
  tr_sent : list PeerRequest;
}.

Definition drop_stream (t : Transport) : Transport :=
  mkTransport (tr_expected_node_id t) false (tr_sent t).
Definition record_sent (r : PeerRequest) (t : Transport) : Transport :=
  mkTransport (tr_expected_node_id t) (tr_open t) (tr_sent t ++ [r]).

Definition set_timeout (ms : N) (r : PeerRequest) : PeerRequest :=
  mkPeerRequest (pr_protocol_version r) (pr_request_id r) (pr_trace_id r) (pr_node_id r)
    (pr_node_epoch r) (Some ms) (pr_call_id r) (pr_lease r) (pr_operation r).

(** A [select] over the work, the cancellation and the deadline *)
Definition waited {A} (w : Waited A) (cancelled timed_out : TransportError)
    : result TransportError A :=
  match w with
  | WaitDone a => Ok a
  | WaitCancelled => Err cancelled
  | WaitTimedOut => Err timed_out
  end.

Section Exchange.
Context (encode_request : PeerRequest → option (list N)).
Context (decode_response : list N → option PeerResponse).
Context (schema_accepts : list N → bool) (wire_version : list N → option N).

(** [encode_frame] *)
Definition encode_frame (r : PeerRequest) : result TransportError (list N) :=
  bytes ← ok_or (encode_request r) TE_InvalidRequest;
  check! reject_if ((len bytes =? 0) || (MAX_PEER_FRAME_BYTES <=? len bytes)) TE_FrameTooLarge;
  Ok (bytes ++ [10]).

Definition pulse_check (p : Pulse) : result TransportError () :=
  check! reject_if (pu_cancelled p) TE_Cancelled;
  reject_if (pu_expired p) TE_TimedOut.

(** The timeout [request] fills in: the remaining milliseconds, at most
    [MAX_REQUEST_TIMEOUT_MS] and at least one *)
Definition with_remaining (a : Answers) (r : PeerRequest) : PeerRequest :=
  match pr_timeout_ms r, an_remaining a with
  | None, Some remaining =>
      set_timeout (N.max (N.min (remaining / 10 ^ 6) MAX_REQUEST_TIMEOUT_MS) 1) r
  | _, _ => r
  end.

Definition validation_error (e : ModelError) : TransportError :=
  match e with UnsupportedVersion => TE_UnsupportedVersion | _ => TE_InvalidRequest end.

(** What [request] makes of the bytes of a response *)
Definition accept_response (r : PeerRequest) (bytes : list N) : result TransportError PeerResponse :=
  check! reject_if (negb (schema_accepts bytes))
    (if is_some_and (λ version, negb (version =? DISTRIBUTED_PROTOCOL_VERSION)) (wire_version bytes)
     then TE_UnsupportedVersion else TE_Protocol);
  response ← ok_or (decode_response bytes) TE_Protocol;
  check! reject_if (is_err (validate_for response r)) TE_Protocol;
  Ok response.

(** [NdjsonPeerTransport::request] up to the write: the request that is written *)
Definition admit_request (a : Answers) (r : PeerRequest) (t : Transport)
    : result TransportError PeerRequest :=
  check! reject_if (negb (String.eqb (pr_node_id r) (tr_expected_node_id t))) TE_InvalidRequest;
  check! pulse_check (an_entry a);
  let r := with_remaining a r in
  check! map_err validation_error (request_validate r);
  _ ← encode_frame r;
  check! waited (an_lock a) TE_Cancelled TE_TimedOut;
  check! pulse_check (an_locked a);
  check! reject_if (negb (tr_open t)) TE_ClosedBeforeSend;
  Ok r.

(** The rest of it: the write and the response *)
Definition await_response (a : Answers) (r : PeerRequest) : result TransportError PeerResponse :=
  written ← waited (an_write a) TE_CancelledAfterSend TE_TimedOutAfterSend;
  check! reject_if (negb written) TE_FailedAfterSend;
  check! waited (an_read a) TE_CancelledAfterSend TE_TimedOutAfterSend;
  bytes ← read_frame (an_input a) (an_input_failed a);
  accept_response r bytes.

(** [NdjsonPeerTransport::request]; an error after the write closes the
    stream. The cancel frame that a cancelled wait writes to the stream it
    closes is not recorded. *)
Definition request (a : Answers) (r : PeerRequest) (t : Transport)
    : result TransportError PeerResponse * Transport :=
  match admit_request a r t with
  | Err e => (Err e, t)
  | Ok r =>
      let t := record_sent r t in
      let answer := await_response a r in
      (answer, if is_ok answer then t else drop_stream t)
  end.

(** ** What a Driver reports *)

Definition platform (code : string) (retryable : bool) : DriverError := DriverPlatform code retryable.

(** [s.chars().take(n)] on the bytes of a string *)
Fixpoint take_chars (n : nat) (s : list N) : list N :=
  match s with
  | [] => []
  | b :: s =>
      if (0x80 <=? b) && (b <? 0xC0) then b :: take_chars n s
      else match n with O => [] | S n => b :: take_chars n s end
  end.

Definition from_bytes (s : list N) : string :=
  String.string_of_list_ascii (Ascii.ascii_of_N <$> s).

(** [invalid_arguments] *)
Definition invalid_arguments (action message : string) : DriverError :=
  let bounded_action := from_bytes (take_chars 128 (bytes action)) in
  let bounded_message := from_bytes (take_chars 256 (bytes message)) in
  DriverInvalidArguments
    (if trim_is_empty bounded_action then "unknown_action" else bounded_action)
    (if trim_is_empty bounded_message then "arguments were rejected" else bounded_message).

(** [semantic_driver_error] *)
Definition semantic_driver_error (code : string) : option DriverError :=
  if String.eqb code "element_not_found" then Some ElementNotFound
  else if String.eqb code "element_ambiguous" then Some ElementAmbiguous
  else if String.eqb code "element_stale" then Some ElementStale
  else if String.eqb code "element_not_interactable" then Some ElementNotInteractable
  else if String.eqb code "ui_context_not_found" then Some UiContextNotFound
  else if String.eqb code "ui_context_ambiguous" then Some UiContextAmbiguous
  else if String.eqb code "ui_context_changed" then Some UiContextChanged
  else if String.eqb code "semantic_channel_unavailable" then Some SemanticChannelUnavailable
  else None.

Definition outcome_unknown_code (o : PeerOperation) : string :=
  match o with
  | PO_Execute _ _ _ _ _ => "remote_execute_outcome_unknown"
  | PO_Connect _ | PO_Disconnect _ => "remote_lifecycle_outcome_unknown"
  | _ => "remote_outcome_unknown"
  end.

(** What [response_to_result] makes of the peer's error *)
Definition remote_error (r : PeerRequest) (e : PeerError) : DriverError :=
  if pe_outcome_unknown e then platform (outcome_unknown_code (pr_operation r)) false
  else
    match pr_operation r, String.eqb (pe_code e) "invalid_arguments" with
    | PO_Execute _ call _ _ _, true =>
        invalid_arguments (call_name call) "remote peer rejected the action arguments"
    | _, _ =>
        match semantic_driver_error (pe_code e) with
        | Some error => error
        | None => platform (String.substring 0 64 ("remote_" +:+ pe_code e)) (pe_retryable e)
        end
    end.

(** [response_to_result] *)
Definition response_to_result (s : PeerResponse) (r : PeerRequest) : result DriverError PeerResult :=
  check! map_err (λ _, DriverProtocol "peer response mismatch") (validate_for s r);
  if ps_ok s then ok_or (ps_result s) (DriverProtocol "peer response has no result")
  else
    error ← ok_or (ps_error s) (DriverProtocol "peer response has no error");
    Err (remote_error r error).

(** The arms of [exchange_raw] for a failed exchange; [execute] says that the
    method is [OperationMethod::Execute] *)
Definition exchange_error (mutation execute : bool) (e : TransportError) : DriverError :=
  let unknown := platform (if execute then "remote_execute_outcome_unknown"
                           else "remote_lifecycle_outcome_unknown") false in
  match e with
  | TE_Cancelled => DriverCancelled
  | TE_TimedOut => DriverTimedOut
  | TE_CancelledAfterSend => if mutation then unknown else DriverCancelled
  | TE_TimedOutAfterSend => if mutation then unknown else DriverTimedOut
  | TE_Protocol | TE_InvalidRequest | TE_UnsupportedVersion => DriverProtocol (transport_error_code e)
  | e => if mutation && may_have_reached_peer e then unknown
         else platform (transport_error_code e) true
  end.

(** [exchange_raw], telemetry aside *)
Definition exchange_raw (a : Answers) (mutation execute : bool) (r : PeerRequest) (t : Transport)
    : result DriverError PeerResult * Transport :=
  match request a r t with
  | (Ok response, t) => (response_to_result response r, t)
  | (Err e, t) => (Err (exchange_error mutation execute e), t)
  end.
End Exchange.
