(* ===== verification/PeerTransportProps.v ===== *)
(** * What an exchange with a peer tells its caller

    A mutation whose request may have reached the peer is reported as
    retryable only on the word of the peer; the one exception, a response
    frame that is cut off or oversized, is shown by an example. *)

From S2P Require Import Prelude Protocol Control Runtime PeerLease PeerModel PeerTransport.

Local Open Scope N_scope.

Section ExchangeProps.
Context (encode_request : PeerRequest → option (list N)).
Context (decode_response : list N → option PeerResponse).
Context (schema_accepts : list N → bool) (wire_version : list N → option N).

#[local] Abbreviation request :=
  (request encode_request decode_response schema_accepts wire_version).
#[local] Abbreviation exchange_raw :=
  (exchange_raw encode_request decode_response schema_accepts wire_version).

(** Filling in the timeout does not change which responses answer a request. *)
Lemma validate_for_with_remaining a r s :
  validate_for s (with_remaining a r) = validate_for s r.
Proof. unfold with_remaining. by destruct (pr_timeout_ms r), (an_remaining a). Qed.

(** What [request] may return, by whether the request was written. *)
Inductive exchanged (a : Answers) (r : PeerRequest) (t : Transport)
    : result TransportError PeerResponse → Transport → Prop :=
| exchanged_not_sent e :
    e ≠ TE_Protocol → may_have_reached_peer e = false → exchanged a r t (Err e) t
| exchanged_lost e :
    tr_open t = true → may_have_reached_peer e = true ∨ e = TE_Protocol ∨ e = TE_UnsupportedVersion →
    exchanged a r t (Err e) (drop_stream (record_sent (with_remaining a r) t))
| exchanged_cut_off :
    tr_open t = true → read_frame (an_input a) (an_input_failed a) = Err TE_FrameTooLarge →
    exchanged a r t (Err TE_FrameTooLarge) (drop_stream (record_sent (with_remaining a r) t))
| exchanged_answered frame s :
    tr_open t = true → read_frame (an_input a) (an_input_failed a) = Ok frame →
    decode_response frame = Some s → validate_for s r = Ok () →
    exchanged a r t (Ok s) (record_sent (with_remaining a r) t).

Lemma read_frame_error input failed e :
  read_frame input failed = Err e →
  may_have_reached_peer e = true ∨ e = TE_Protocol ∨ e = TE_FrameTooLarge.
Proof.
  unfold read_frame. repeat case_match; intros [= <-]; cbn; auto.
Qed.

Lemma accept_response_cases a r bytes :
  match accept_response decode_response schema_accepts wire_version (with_remaining a r) bytes with
  | Ok s => decode_response bytes = Some s ∧ validate_for s r = Ok ()
  | Err e => e = TE_Protocol ∨ e = TE_UnsupportedVersion
  end.
Proof.
  unfold accept_response, reject_if, mbind, result_bind. destruct (schema_accepts bytes); cbn -[is_some_and];
    [|destruct (is_some_and _ _); auto].
  destruct (decode_response bytes) as [s|]; cbn -[validate_for]; [|auto].
  rewrite validate_for_with_remaining. destruct (validate_for s r) as [[]|] eqn:?; cbn; auto.
Qed.

Lemma admit_request_ok a r t r' :
  admit_request encode_request a r t = Ok r' → r' = with_remaining a r ∧ tr_open t = true.
Proof. unfold admit_request. intros H. inv_result. by destruct (tr_open t). Qed.

Lemma admit_request_err a r t e :
  admit_request encode_request a r t = Err e → e ≠ TE_Protocol ∧ may_have_reached_peer e = false.
Proof.
  unfold admit_request, pulse_check, encode_frame. intros H. inv_result; try done.
  - destruct (request_validate _) as [|[]]; naive_solver.
  - destruct (an_lock a); cbn in *; naive_solver.
Qed.

Lemma request_cases a r t res t' : request a r t = (res, t') → exchanged a r t res t'.
Proof.
  unfold PeerTransport.request. destruct (admit_request _ a r t) as [r'|e] eqn:Hadmit; cycle 1.
  { intros [= <- <-]. apply admit_request_err in Hadmit as [??]. by constructor. }
  apply admit_request_ok in Hadmit as [-> Hopen]. intros [= <- <-]. unfold await_response.
  destruct (an_write a) as [[]| |]; try (apply exchanged_lost; by auto).
  destruct (an_read a); try (apply exchanged_lost; by auto).
  cbn [waited mbind result_bind reject_if negb].
  destruct (read_frame _ _) as [frame|e] eqn:Hread; cbn [mbind result_bind].
  - pose proof (accept_response_cases a r frame) as Hacc.
    destruct (accept_response _ _ _ _ _); cbn [is_ok].
    + destruct Hacc. by eapply exchanged_answered.
    + apply exchanged_lost; auto.
  - destruct (read_frame_error _ _ _ Hread) as [?|[?| ->]];
      [apply exchanged_lost; auto..|by apply exchanged_cut_off].
Qed.

(** The errors of a peer that say that a call may be tried again. *)
Definition peer_allows_retry (e : PeerError) : Prop :=
  pe_outcome_unknown e = false ∧
  (pe_retryable e = true ∨ pe_code e = "element_stale" ∨ pe_code e = "ui_context_changed").

Lemma semantic_error_retryable code d :
  semantic_driver_error code = Some d → ei_retryable (driver_error_info d) = true →
  code = "element_stale" ∨ code = "ui_context_changed".
Proof.
  unfold semantic_driver_error.
  repeat case_match; intros [= <-]; try done; intros _; [left|right]; by apply String.eqb_eq.
Qed.

Lemma remote_error_retryable r e :
  ei_retryable (driver_error_info (remote_error r e)) = true → peer_allows_retry e.
Proof.
  unfold remote_error, peer_allows_retry. destruct (pe_outcome_unknown e); [done|].
  pose proof (semantic_error_retryable (pe_code e)) as Hsem.
  destruct (semantic_driver_error (pe_code e)) as [d|];
    destruct (pr_operation r), (String.eqb (pe_code e) "invalid_arguments");
    try discriminate 1; cbn [platform]; intros; split; eauto.
Qed.

Lemma exchange_error_retryable execute e :
  ei_retryable (driver_error_info (exchange_error true execute e)) = true →
  may_have_reached_peer e = false ∧ e ≠ TE_Protocol ∧ e ≠ TE_UnsupportedVersion.
Proof. by destruct e. Qed.

(** C25: the caller of a mutation (connect, disconnect, execute) is told that
    it may try again only when that is safe to believe. If [exchange_raw]
    reports a retryable error, then nothing of the request was written, or the
    peer itself answered this very request with an error that allows a retry
    and whose outcome is not unknown, or the response frame was cut off or
    oversized, the case [read_frame] misclassifies; the stream is then closed. *)
Theorem mutation_errors_are_honest a execute r t e t' :
  exchange_raw a true execute r t = (Err e, t') →
  ei_retryable (driver_error_info e) = true →
  t' = t ∨
  (∃ frame s error, read_frame (an_input a) (an_input_failed a) = Ok frame ∧
     decode_response frame = Some s ∧ validate_for s r = Ok () ∧
     ps_error s = Some error ∧ peer_allows_retry error) ∨
  (read_frame (an_input a) (an_input_failed a) = Err TE_FrameTooLarge ∧ tr_open t' = false).
Proof.
  unfold PeerTransport.exchange_raw. destruct (request a r t) as [res t1] eqn:Hreq.
  apply request_cases in Hreq. destruct Hreq as [e' He' Hr|e' Ho He'|Ho Hread|frame s Ho Hf Hd Hv].
  - intros [= _ ->]. auto.
  - intros [= <- <-] Hretry. apply exchange_error_retryable in Hretry as (? & ? & ?).
    naive_solver congruence.
  - intros [= _ <-]. auto.
  - intros [= Hres <-] Hretry. right. left. unfold response_to_result in Hres. rewrite Hv in Hres.
    cbn [map_err mbind result_bind] in Hres. destruct (ps_ok s).
    + apply ok_or_err in Hres as [_ ->]. done.
    + apply result_bind_err in Hres as [Hres|(error & Hs & [= <-])].
      { apply ok_or_err in Hres as [_ ->]. done. }
      apply ok_or_ok in Hs. apply remote_error_retryable in Hretry. by exists frame, s, error.
Qed.
End ExchangeProps.

(** ** Examples *)

Module ExchangeExamples.

(** A tap sent to a node whose encoder and decoder are fixed. *)
Definition tap_call : ActionCall := {| call_id := 9; call_name := "tap"; call_arguments := JObject [] |}.
Definition tap_request : PeerRequest :=
  let r := request_new 7 8 "node-b" (Some 3) (PO_Execute "d-1" tap_call None false false) in
  mkPeerRequest (pr_protocol_version r) 7 8 "node-b" (Some 3) (Some 5000) (Some 9)
    (Some (mkPeerLease 4 "d-1" "router" 3 99000)) (pr_operation r).
Definition peer_stream : Transport := mkTransport "node-b" true [].
Definition busy : PeerError := mkPeerError "device_pool_error" true false.

(** What the peer sends back, with nothing cancelled and nothing late. *)
Definition answers (input : list N) : Answers :=
  mkAnswers (mkPulse false false) None (WaitDone ()) (mkPulse false false) (WaitDone true)
    input false (WaitDone ()).
Definition tap_exchange (input : list N) : result DriverError PeerResult * Transport :=
  exchange_raw (λ _, Some [123]) (λ _, Some (response_failure tap_request 3 busy)) (λ _, true)
    (λ _, Some 2) (answers input) true true tap_request peer_stream.

Lemma mutation_errors_are_honest_witness :
  ∃ frame, read_frame [123; 10] false = Ok frame ∧ peer_allows_retry busy.
Proof.
  assert (tap_exchange [123; 10] = (Err (DriverPlatform "remote_device_pool_error" true),
    mkTransport "node-b" true [tap_request])) as Hrun by (vm_compute; reflexivity).
  destruct (mutation_errors_are_honest _ _ _ _ (answers [123; 10]) true tap_request peer_stream _ _
    Hrun) as [?|[(frame & s & error & Hframe & Hs & _ & He & Hretry)|[Hread _]]].
  - vm_compute; reflexivity.
  - discriminate.
  - injection Hs as <-. injection He as <-. exists frame. split; assumption.
  - discriminate.
Defined.

(** The exception. The request was written whole and the connection dropped
    inside the response, so the tap may have been performed; the caller is
    told that it may be tried again. An empty response is reported as an
    unknown outcome. *)
Lemma cut_off_execute_is_retryable :
  tap_exchange [123] =
    (Err (DriverPlatform "peer_frame_too_large" true), mkTransport "node-b" false [tap_request]) ∧
  tap_exchange [] =
    (Err (DriverPlatform "remote_execute_outcome_unknown" false),
     mkTransport "node-b" false [tap_request]).
Proof. by vm_compute. Qed.

End ExchangeExamples.
