(* ===== verification/PeerNode.v ===== *)
(** * The state of a node that serves its devices to peers

    [crates/distributed-router/src/service.rs], first part: the tables of
    [RegistryPeerService], the two bounded caches it keeps, and the critical
    sections in which a request reads and writes them. Each section runs under
    one or more [Mutex]es without an [.await], so it is one atomic step
    ([run_sec]); the programs that string the sections together are in
    PeerService.v.

    The cells a [Binding] shares between its clones ([Arc<StdMutex<..>>],
    [Arc<AtomicBool>]) are in a heap, so that a clone taken out of the table
    sees later writes. Gates, cells and cancellation cells get fresh numbers. *)

From S2P Require Import Prelude Protocol Evidence EventStore DevicePool Control PeerLease PeerModel.

Local Open Scope N_scope.

Definition MAX_SERVICE_EVIDENCE_BYTES : N := 16 * 1024 * 1024.
Definition MAX_TERMINAL_CALLS : N := 1024.
Definition MAX_TERMINAL_BYTES : N := 16 * 1024 * 1024.
Definition MAX_ONE_TERMINAL_BYTES : N := 256 * 1024.
Definition MAX_OPERATION_TIMEOUT_MS : N := 5 * 60000.
Definition CLEANUP_TIMEOUT_MS : N := 5000.
Definition MAX_CONNECTION_LEASES : N := 16.
Definition MAX_EVIDENCE_CURSORS_PER_BINDING : N := 4.

(** [peer_error] *)
Definition peer_error (code : string) (retryable outcome_unknown : bool) : PeerError :=
  mkPeerError code retryable outcome_unknown.

(** [lease_error] *)
Definition lease_error (e : LeaseError) : PeerError :=
  peer_error (lease_error_code e) (match e with LeaseHeld => true | _ => false end) false.

(** ** Evidence cursors *)

(** [EvidenceReadCursor]; the body is what is left to read of the object *)
Record EvidenceReadCursor := mkEvidenceReadCursor {
  cu_digest : Sha256Digest;
  cu_media_type : string;
  cu_total_size : N;
  cu_offset : N;
  cu_body : list N;
}.

Record EvidenceCursorSet := mkEvidenceCursorSet {
  cs_order : list string;
  cs_values : gmap string EvidenceReadCursor;
}.

Definition cursors0 : EvidenceCursorSet := mkEvidenceCursorSet [] ∅.

(** [EvidenceCursorSet::take] *)
Definition cursor_take (evidence_id : string) (s : EvidenceCursorSet)
    : option EvidenceReadCursor * EvidenceCursorSet :=
  (cs_values s !! evidence_id,
   mkEvidenceCursorSet (filter (λ candidate, candidate ≠ evidence_id) (cs_order s))
     (delete evidence_id (cs_values s))).

(** The loop of [EvidenceCursorSet::insert] *)
Fixpoint evict_cursors (order : list string) (values : gmap string EvidenceReadCursor)
    : EvidenceCursorSet :=
  if N.of_nat (size values) <? MAX_EVIDENCE_CURSORS_PER_BINDING
  then mkEvidenceCursorSet order values
  else match order with
       | [] => mkEvidenceCursorSet [] values
       | evicted :: order => evict_cursors order (delete evicted values)
       end.

(** [EvidenceCursorSet::insert] *)
Definition cursor_insert (evidence_id : string) (cursor : EvidenceReadCursor)
    (s : EvidenceCursorSet) : EvidenceCursorSet :=
  let s := snd (cursor_take evidence_id s) in
  let s := evict_cursors (cs_order s) (cs_values s) in
  mkEvidenceCursorSet (cs_order s ++ [evidence_id]) (<[evidence_id := cursor]> (cs_values s)).

(** ** Bindings *)

Record CleanupProgress := mkCleanupProgress {
  cp_started : bool;
  cp_disconnected : bool;
  cp_session_ended : bool;
  cp_evidence_cleaned : bool;
  cp_core_lease_released : bool;
}.

Inductive CleanupStage :=
| StageStarted | StageDisconnected | StageSessionEnded | StageEvidenceCleaned | StageLeaseReleased.

Definition mark (stage : CleanupStage) (p : CleanupProgress) : CleanupProgress :=
  let '(mkCleanupProgress a b c d e) := p in
  match stage with
  | StageStarted => mkCleanupProgress true b c d e
  | StageDisconnected => mkCleanupProgress a true c d e
  | StageSessionEnded => mkCleanupProgress a b true d e
  | StageEvidenceCleaned => mkCleanupProgress a b c true e
  | StageLeaseReleased => mkCleanupProgress a b c d true
  end.

(** The shared cells of a [Binding] *)
Record BindingCells := mkBindingCells {
  bc_core_lease : option DeviceLease;
  bc_session_started : bool;
  bc_evidence_cursors : EvidenceCursorSet;
  bc_cleanup : CleanupProgress;
}.

Definition cells0 : BindingCells :=
  mkBindingCells None false cursors0 (mkCleanupProgress false false false false false).

(** [Binding]; [bd_cells] is where its shared cells are *)
Record Binding := mkBinding {
  bd_connection_id : Uuid;
  bd_peer_lease : PeerLease;
  bd_device_id : DeviceId;
  bd_session_start : StartSession;
  bd_allowed_evidence : gset string;
  bd_cells : N;
}.

Definition set_peer_lease (l : PeerLease) (b : Binding) : Binding :=
  mkBinding (bd_connection_id b) l (bd_device_id b) (bd_session_start b)
    (bd_allowed_evidence b) (bd_cells b).
Definition allow_ids (ids : list string) (b : Binding) : Binding :=
  mkBinding (bd_connection_id b) (bd_peer_lease b) (bd_device_id b) (bd_session_start b)
    (list_to_set ids ∪ bd_allowed_evidence b) (bd_cells b).

Record IssuedLease := mkIssuedLease {
  il_connection_id : Uuid;
  il_lease : PeerLease;
  il_gate : N;
}.

(** ** Terminal results of executed calls *)

Inductive CachedTerminal :=
| TerminalSuccess (res : PeerResult)
| TerminalFailure (e : PeerError).

Record CachedEntry := mkCachedEntry {
  cd_lease_id : Uuid;
  cd_terminal : CachedTerminal;
  cd_bytes : N;
}.

Record TerminalCache := mkTerminalCache {
  tc_order : list Uuid;
  tc_values : gmap Uuid CachedEntry;
  tc_bytes : N;
}.

Definition terminals0 : TerminalCache := mkTerminalCache [] ∅ 0.

(** [TerminalCache::get] *)
Definition terminal_get (call_id lease_id : Uuid) (c : TerminalCache) : option CachedTerminal :=
  entry ← tc_values c !! call_id;
  if cd_lease_id entry =? lease_id then Some (cd_terminal entry) else None.

(** [TerminalCache::remove] *)
Definition terminal_remove (call_id : Uuid) (c : TerminalCache) : TerminalCache :=
  match tc_values c !! call_id with
  | Some entry =>
      mkTerminalCache (filter (λ candidate, candidate ≠ call_id) (tc_order c))
        (delete call_id (tc_values c)) (tc_bytes c - cd_bytes entry)
  | None => c
  end.

(** The loop of [TerminalCache::insert] that makes room for [bytes] more *)
Fixpoint evict_terminals (bytes : N) (order : list Uuid) (values : gmap Uuid CachedEntry)
    (total : N) : TerminalCache :=
  if (MAX_TERMINAL_CALLS <=? len order) || (MAX_TERMINAL_BYTES <? usize_saturating_add total bytes)
  then match order with
       | [] => mkTerminalCache [] values total
       | evicted :: order =>
           evict_terminals bytes order (delete evicted values)
             (match values !! evicted with Some entry => total - cd_bytes entry | None => total end)
       end
  else mkTerminalCache order values total.

(** [TerminalCache::insert]; [bytes] is the length of the terminal's JSON *)
Definition terminal_insert (bytes : N) (call_id lease_id : Uuid) (terminal : CachedTerminal)
    (c : TerminalCache) : TerminalCache :=
  if MAX_ONE_TERMINAL_BYTES <? bytes then c else
  let c := terminal_remove call_id c in
  let c := evict_terminals bytes (tc_order c) (tc_values c) (tc_bytes c) in
  mkTerminalCache (tc_order c ++ [call_id])
    (<[call_id := mkCachedEntry lease_id terminal bytes]> (tc_values c)) (tc_bytes c + bytes).

(** [TerminalCache::remove_lease] *)
Definition terminal_remove_lease (lease_id : Uuid) (c : TerminalCache) : TerminalCache :=
  foldr terminal_remove c
    (map_to_list (filter (λ '(_, entry), cd_lease_id entry = lease_id) (tc_values c))).*1.

(** ** Critical sections

    [at_] is the instant each check of the monotonic clock reads, by the lease
    it is about; the wall clock, random ids and instants are arguments. *)

Inductive Sec : Type → Type :=
| SecReady : Sec bool
| SecSetReady (ready : bool) : Sec ()
| SecNewControl (now : Instant) (timeout_ms : N) : Sec ExecutionControl
| SecIsCancelled (c : ExecutionControl) : Sec bool
| SecCancel (key : Uuid * Uuid) (reason : CancellationReason) : Sec bool
| SecCancelAll (reason : CancellationReason) : Sec ()
| SecEnter (key : Uuid * Uuid) (c : ExecutionControl) : Sec bool
| SecLeave (key : Uuid * Uuid) : Sec ()
| SecActive (connection_id : Uuid) : Sec (list (Uuid * Uuid))
| SecIssued (connection_id : option Uuid) : Sec (list IssuedLease)
| SecExpired (device_key : string) (now : N) (at_ : Uuid → Instant) : Sec (list IssuedLease)
| SecAcquire (device_key subject : string) (connection_id : Uuid) (ttl_ms now : N)
    (lease_id : Uuid) (at_ : Uuid → Instant) (checked_at set_at : Instant)
    : Sec (result PeerError PeerLease)
| SecGate (lease : PeerLease) (connection_id : Uuid) : Sec (option N)
| SecUnlock (gate : N) : Sec ()
| SecAuthorize (lease : PeerLease) (now : N) (at_ : Instant) : Sec (result LeaseError ())
| SecRenew (lease : PeerLease) (connection_id : Uuid) (ttl_ms now : N)
    (checked_at set_at : Instant) : Sec (result PeerError PeerLease)
| SecRelease (lease : PeerLease) (now : N) (at_ : Instant) : Sec (result LeaseError ())
| SecRevoke (lease : PeerLease) : Sec (result LeaseError ())
| SecForget (lease_id : Uuid) : Sec ()
| SecInvalidateAll : Sec ()
| SecBinding (lease_id : Uuid) : Sec (option Binding)
| SecCells (cell : N) : Sec BindingCells
| SecPublishLease (cell : N) (lease : DeviceLease) : Sec ()
| SecSessionStarted (cell : N) : Sec ()
| SecMark (cell : N) (stage : CleanupStage) : Sec ()
| SecReserve (lease : PeerLease) (connection_id : Uuid) (device_id : DeviceId)
    (start : StartSession) : Sec (option Binding)
| SecBeginCleanup (lease : PeerLease) (connection_id : Uuid)
    : Sec (result PeerError (option Binding))
| SecFinishCleanup (lease : PeerLease) (connection_id : Uuid) (cell : N) : Sec (result PeerError ())
| SecRegister (call_id : Uuid) (fingerprint : list N) : Sec CallLedgerDecision
| SecTerminal (call_id lease_id : Uuid) : Sec (option CachedTerminal)
| SecInFlight (call_id : Uuid) : Sec bool
| SecSetInFlight (call_id : Uuid) (in_flight : bool) : Sec ()
| SecCacheTerminal (call_id lease_id : Uuid) (terminal : CachedTerminal) : Sec ()
| SecAllow (lease_id : Uuid) (ids : list string) : Sec (result PeerError ())
| SecTakeCursor (cell : N) (evidence_id : string) : Sec (option EvidenceReadCursor)
| SecPutCursor (cell : N) (evidence_id : string) (cursor : EvidenceReadCursor) : Sec ().

(** ** The service *)

Section Node.
Context {Fingerprint : Type} `{EqDecision Fingerprint}.
(** [Sha256::digest], and the length of the JSON of a terminal result *)
Context (digest : list N → Fingerprint) (terminal_bytes : CachedTerminal → N).

(** [RegistryPeerService], without what is fixed at construction *)
Record Service := mkService {
  ns_ready : bool;
  ns_leases : LeaseTable;
  ns_issued_leases : gmap Uuid IssuedLease;
  ns_bindings : gmap Uuid Binding;
  ns_cells : gmap N BindingCells;
  ns_calls : @LedgerState Fingerprint;
  ns_terminals : TerminalCache;
  ns_in_flight_calls : gset Uuid;
  ns_active : gmap (Uuid * Uuid) ExecutionControl;
  ns_cancelled : Cells;
  ns_held : gset N;
  ns_next : N;
}.

Definition set_leases (f : LeaseTable → LeaseTable) (v : Service) : Service :=
  mkService (ns_ready v) (f (ns_leases v)) (ns_issued_leases v) (ns_bindings v) (ns_cells v)
    (ns_calls v) (ns_terminals v) (ns_in_flight_calls v) (ns_active v) (ns_cancelled v)
    (ns_held v) (ns_next v).
Definition set_issued (f : gmap Uuid IssuedLease → gmap Uuid IssuedLease) (v : Service) : Service :=
  mkService (ns_ready v) (ns_leases v) (f (ns_issued_leases v)) (ns_bindings v) (ns_cells v)
    (ns_calls v) (ns_terminals v) (ns_in_flight_calls v) (ns_active v) (ns_cancelled v)
    (ns_held v) (ns_next v).
Definition set_bindings (f : gmap Uuid Binding → gmap Uuid Binding) (v : Service) : Service :=
  mkService (ns_ready v) (ns_leases v) (ns_issued_leases v) (f (ns_bindings v)) (ns_cells v)
    (ns_calls v) (ns_terminals v) (ns_in_flight_calls v) (ns_active v) (ns_cancelled v)
    (ns_held v) (ns_next v).
Definition set_cells (cell : N) (f : BindingCells → BindingCells) (v : Service) : Service :=
  mkService (ns_ready v) (ns_leases v) (ns_issued_leases v) (ns_bindings v)
    (<[cell := f (default cells0 (ns_cells v !! cell))]> (ns_cells v))
    (ns_calls v) (ns_terminals v) (ns_in_flight_calls v) (ns_active v) (ns_cancelled v)
    (ns_held v) (ns_next v).
Definition set_calls (s : @LedgerState Fingerprint) (v : Service) : Service :=
  mkService (ns_ready v) (ns_leases v) (ns_issued_leases v) (ns_bindings v) (ns_cells v)
    s (ns_terminals v) (ns_in_flight_calls v) (ns_active v) (ns_cancelled v)
    (ns_held v) (ns_next v).
Definition set_terminals (f : TerminalCache → TerminalCache) (v : Service) : Service :=
  mkService (ns_ready v) (ns_leases v) (ns_issued_leases v) (ns_bindings v) (ns_cells v)
    (ns_calls v) (f (ns_terminals v)) (ns_in_flight_calls v) (ns_active v) (ns_cancelled v)
    (ns_held v) (ns_next v).
Definition set_in_flight (f : gset Uuid → gset Uuid) (v : Service) : Service :=
  mkService (ns_ready v) (ns_leases v) (ns_issued_leases v) (ns_bindings v) (ns_cells v)
    (ns_calls v) (ns_terminals v) (f (ns_in_flight_calls v)) (ns_active v) (ns_cancelled v)
    (ns_held v) (ns_next v).
Definition set_requests (active : gmap (Uuid * Uuid) ExecutionControl) (cancelled : Cells)
    (v : Service) : Service :=
  mkService (ns_ready v) (ns_leases v) (ns_issued_leases v) (ns_bindings v) (ns_cells v)
    (ns_calls v) (ns_terminals v) (ns_in_flight_calls v) active cancelled (ns_held v) (ns_next v).
Definition set_ready (b : bool) (v : Service) : Service :=
  mkService b (ns_leases v) (ns_issued_leases v) (ns_bindings v) (ns_cells v)
    (ns_calls v) (ns_terminals v) (ns_in_flight_calls v) (ns_active v) (ns_cancelled v)
    (ns_held v) (ns_next v).
Definition set_held (f : gset N → gset N) (v : Service) : Service :=
  mkService (ns_ready v) (ns_leases v) (ns_issued_leases v) (ns_bindings v) (ns_cells v)
    (ns_calls v) (ns_terminals v) (ns_in_flight_calls v) (ns_active v) (ns_cancelled v)
    (f (ns_held v)) (ns_next v).
(** A number that was not used before *)
Definition fresh (v : Service) : N * Service :=
  (ns_next v,
   mkService (ns_ready v) (ns_leases v) (ns_issued_leases v) (ns_bindings v) (ns_cells v)
     (ns_calls v) (ns_terminals v) (ns_in_flight_calls v) (ns_active v) (ns_cancelled v)
     (ns_held v) (ns_next v + 1)).

Definition cells_of (cell : N) (v : Service) : BindingCells := default cells0 (ns_cells v !! cell).
Definition issued_values (v : Service) : list IssuedLease := (map_to_list (ns_issued_leases v)).*2.

(** Whether [self.leases.authorize] accepts an issued lease *)
Definition live (v : Service) (now : N) (at_ : Uuid → Instant) (il : IssuedLease) : bool :=
  is_ok (fst (Leases.authorize (il_lease il) now (at_ (pl_lease_id (il_lease il))) (ns_leases v))).

(** The section of [LeaseAcquire] under the lock of [issued_leases]. At most
    one issued lease of a device is live, so the order in which the table is
    searched does not matter. *)
Definition acquire_section (key subject : string) (connection_id : Uuid)
    (ttl_ms now : N) (lease_id : Uuid) (at_ : Uuid → Instant) (checked_at set_at : Instant)
    (v : Service) : result PeerError PeerLease * Service :=
  let existing := List.find (λ il, String.eqb (pl_device_key (il_lease il)) key && live v now at_ il)
    (issued_values v) in
  let count := len (List.filter (λ il, (il_connection_id il =? connection_id) && live v now at_ il)
    (issued_values v)) in
  if is_some_and (λ il, negb (il_connection_id il =? connection_id)) existing
  then (Err (peer_error "lease_held" true false), v)
  else if is_none existing && (MAX_CONNECTION_LEASES <=? count)
  then (Err (peer_error "connection_lease_limit" false false), v)
  else
    match Leases.acquire lease_id key subject ttl_ms now checked_at set_at (ns_leases v) with
    | (Err e, t) => (Err (lease_error e), set_leases (λ _, t) v)
    | (Ok lease, t) =>
        let v := set_leases (λ _, t) v in
        let '(gate, v) :=
          match ns_issued_leases v !! pl_lease_id lease with
          | Some issued => (il_gate issued, v)
          | None => fresh v
          end in
        (Ok lease, set_issued <[pl_lease_id lease := mkIssuedLease connection_id lease gate]> v)
    end.

(** The gate of a lease that is issued to a connection, the lookup of
    [lock_issued_lease] and of [require_lease_connection] *)
Definition issued_gate (lease : PeerLease) (connection_id : Uuid) (v : Service) : option N :=
  issued ← ns_issued_leases v !! pl_lease_id lease;
  if (il_connection_id issued =? connection_id) && bool_decide (il_lease issued = lease)
  then Some (il_gate issued) else None.

(** Whether a binding is the one of this lease and connection *)
Definition binds (b : Binding) (lease : PeerLease) (connection_id : Uuid) : bool :=
  bool_decide (bd_peer_lease b = lease) && (bd_connection_id b =? connection_id).

(** The section of [LeaseRenew], under the locks of [bindings] and
    [issued_leases] *)
Definition renew_section (lease : PeerLease) (connection_id : Uuid) (ttl_ms now : N)
    (checked_at set_at : Instant) (v : Service) : result PeerError PeerLease * Service :=
  if is_some_and (λ b, negb (binds b lease connection_id)) (ns_bindings v !! pl_lease_id lease)
  then (Err (peer_error "lease_binding_mismatch" false false), v)
  else
    match issued_gate lease connection_id v with
    | None => (Err (peer_error "lease_connection_mismatch" false false), v)
    | Some gate =>
        match Leases.renew lease ttl_ms now checked_at set_at (ns_leases v) with
        | (Err e, t) => (Err (lease_error e), set_leases (λ _, t) v)
        | (Ok renewed, t) =>
            (Ok renewed,
             set_issued <[pl_lease_id lease := mkIssuedLease connection_id renewed gate]>
               (set_bindings (alter (set_peer_lease renewed) (pl_lease_id lease))
                 (set_leases (λ _, t) v)))
        end
    end.

(** The part of [connect] that publishes the reservation *)
Definition reserve_section (lease : PeerLease) (connection_id : Uuid) (device_id : DeviceId)
    (start : StartSession) (v : Service) : option Binding * Service :=
  match ns_bindings v !! pl_lease_id lease with
  | Some _ => (None, v)
  | None =>
      let '(cell, v) := fresh v in
      let binding := mkBinding connection_id lease device_id start ∅ cell in
      (Some binding, set_bindings <[pl_lease_id lease := binding]> (set_cells cell (λ _, cells0) v))
  end.

Definition set_cleanup (stage : CleanupStage) (c : BindingCells) : BindingCells :=
  mkBindingCells (bc_core_lease c) (bc_session_started c) (bc_evidence_cursors c)
    (mark stage (bc_cleanup c)).

(** The first section of [cleanup_binding_locked] *)
Definition begin_cleanup_section (lease : PeerLease) (connection_id : Uuid) (v : Service)
    : result PeerError (option Binding) * Service :=
  match ns_bindings v !! pl_lease_id lease with
  | None => (Ok None, v)
  | Some b =>
      if binds b lease connection_id
      then (Ok (Some b), set_cells (bd_cells b) (set_cleanup StageStarted) v)
      else (Err (peer_error "lease_binding_mismatch" false false), v)
  end.

(** The last section of [cleanup_binding_locked] *)
Definition finish_cleanup_section (lease : PeerLease) (connection_id : Uuid) (cell : N)
    (v : Service) : result PeerError () * Service :=
  let drop_terminals := set_terminals (terminal_remove_lease (pl_lease_id lease)) in
  match ns_bindings v !! pl_lease_id lease with
  | Some current =>
      if binds current lease connection_id && (bd_cells current =? cell)
      then (Ok (), drop_terminals (set_bindings (delete (pl_lease_id lease)) v))
      else (Err (peer_error "lease_binding_mismatch" false false), v)
  | None => (Ok (), drop_terminals v)
  end.

Definition on_cursors {A} (cell : N) (f : EvidenceCursorSet → A * EvidenceCursorSet) (v : Service)
    : A * Service :=
  let '(a, cursors) := f (bc_evidence_cursors (cells_of cell v)) in
  (a, set_cells cell (λ c, mkBindingCells (bc_core_lease c) (bc_session_started c) cursors
        (bc_cleanup c)) v).

(** The effect of a section *)
Definition run_sec {A} (s : Sec A) (v : Service) : A * Service :=
  match s in Sec A return A * Service with
  | SecReady => (ns_ready v, v)
  | SecSetReady ready => ((), set_ready ready v)
  | SecNewControl now timeout_ms =>
      let '(cell, v) := fresh v in
      (with_timeout (mkExecutionControl cell None) now timeout_ms Scope_Request, v)
  | SecIsCancelled c => (is_cancelled c (ns_cancelled v), v)
  | SecCancel key reason =>
      match ns_active v !! key with
      | Some c =>
          let '(done, cells) := cancel (ec_cancellation c) reason (ns_cancelled v) in
          (done, set_requests (ns_active v) cells v)
      | None => (false, v)
      end
  | SecCancelAll reason =>
      ((), set_requests (ns_active v)
             (map_fold (λ _ c cells, snd (cancel (ec_cancellation c) reason cells))
               (ns_cancelled v) (ns_active v)) v)
  | SecEnter key c =>
      match ns_active v !! key with
      | Some _ => (false, v)
      | None => (true, set_requests (<[key := c]> (ns_active v)) (ns_cancelled v) v)
      end
  | SecLeave key => ((), set_requests (delete key (ns_active v)) (ns_cancelled v) v)
  | SecActive connection_id =>
      (List.filter (λ key, fst key =? connection_id) (map_to_list (ns_active v)).*1, v)
  | SecIssued connection_id =>
      (List.filter (λ il, match connection_id with
                     | Some id => il_connection_id il =? id | None => true end) (issued_values v), v)
  | SecExpired key now at_ =>
      (List.filter (λ il, String.eqb (pl_device_key (il_lease il)) key &&
                     negb (live v now at_ il)) (issued_values v), v)
  | SecAcquire key subject connection_id ttl_ms now lease_id at_ checked_at set_at =>
      acquire_section key subject connection_id ttl_ms now lease_id at_ checked_at set_at v
  | SecGate lease connection_id => (issued_gate lease connection_id v, v)
  | SecUnlock gate => ((), set_held (λ held, held ∖ {[gate]}) v)
  | SecAuthorize lease now at_ =>
      let '(r, t) := Leases.authorize lease now at_ (ns_leases v) in (r, set_leases (λ _, t) v)
  | SecRenew lease connection_id ttl_ms now checked_at set_at =>
      renew_section lease connection_id ttl_ms now checked_at set_at v
  | SecRelease lease now at_ =>
      let '(r, t) := Leases.release lease now at_ (ns_leases v) in (r, set_leases (λ _, t) v)
  | SecRevoke lease =>
      let '(r, t) := Leases.revoke lease (ns_leases v) in (r, set_leases (λ _, t) v)
  | SecForget lease_id => ((), set_issued (delete lease_id) v)
  | SecInvalidateAll => ((), set_leases Leases.invalidate_all v)
  | SecBinding lease_id => (ns_bindings v !! lease_id, v)
  | SecCells cell => (cells_of cell v, v)
  | SecPublishLease cell lease =>
      ((), set_cells cell (λ c, mkBindingCells (Some lease) (bc_session_started c)
              (bc_evidence_cursors c) (bc_cleanup c)) v)
  | SecSessionStarted cell =>
      ((), set_cells cell (λ c, mkBindingCells (bc_core_lease c) true
              (bc_evidence_cursors c) (bc_cleanup c)) v)
  | SecMark cell stage => ((), set_cells cell (set_cleanup stage) v)
  | SecReserve lease connection_id device_id start =>
      reserve_section lease connection_id device_id start v
  | SecBeginCleanup lease connection_id => begin_cleanup_section lease connection_id v
  | SecFinishCleanup lease connection_id cell => finish_cleanup_section lease connection_id cell v
  | SecRegister call_id fingerprint =>
      let '(d, calls) := ledger_register digest call_id fingerprint (ns_calls v) in
      (d, set_calls calls v)
  | SecTerminal call_id lease_id => (terminal_get call_id lease_id (ns_terminals v), v)
  | SecInFlight call_id => (bool_decide (call_id ∈ ns_in_flight_calls v), v)
  | SecSetInFlight call_id in_flight =>
      ((), set_in_flight (λ calls, if in_flight then {[call_id]} ∪ calls else calls ∖ {[call_id]}) v)
  | SecCacheTerminal call_id lease_id terminal =>
      ((), set_terminals (terminal_insert (terminal_bytes terminal) call_id lease_id terminal) v)
  | SecAllow lease_id ids =>
      match ns_bindings v !! lease_id with
      | Some b => (Ok (), set_bindings <[lease_id := allow_ids ids b]> v)
      | None => (Err (peer_error "lease_binding_missing" false false), v)
      end
  | SecTakeCursor cell evidence_id => on_cursors cell (cursor_take evidence_id) v
  | SecPutCursor cell evidence_id cursor =>
      on_cursors cell (λ s, ((), cursor_insert evidence_id cursor s)) v
  end.
End Node.
Arguments Service : clear implicits.
