(* ===== verification/PeerService.v ===== *)
(** * Serving peers

    [crates/distributed-router/src/service.rs], second part: the handler of
    every peer operation as a program over the critical sections of
    PeerNode.v, the gates of the leases, the clocks, and the calls into Core
    (Registry, Device Pool, Event Store, Evidence Store), which are awaited
    and answered by the caller of the program.

    Not modelled here: telemetry, the retry loop around [release_connection]
    and the permits of its background tasks. *)

From S2P Require Import Prelude Protocol Evidence EventStore DevicePool Async Control Runtime Registry.
From S2P Require Import PeerLease PeerModel PeerNode.

Local Open Scope N_scope.

(** ** Effects *)

(** [DriverHandle], with the id it was resolved for, and [DriverAccess] *)
Record Handle := mkHandle { hn_entry : EntryId; hn_id : DeviceId }.
Definition AccessId : Type := N.

Inductive CoreCall : Type → Type :=
| CResolve (id : DeviceId) : CoreCall (result RegistryError Handle)
| CHealthCheck (h : Handle) (c : ExecutionControl) : CoreCall (result RuntimeError ())
| CCapabilities (h : Handle) (c : ExecutionControl)
    : CoreCall (result RuntimeError (list ActionDefinition))
| CRecordHealth (h : Handle) (checked_at_ms now : N) : CoreCall (result DevicePoolError ())
| CAcquireLease (h : Handle) (owner : LeaseOwnerId) (now : N)
    : CoreCall (result DevicePoolError DeviceLease)
| CAccess (h : Handle) (lease : LeaseId) (owner : LeaseOwnerId) (now : N)
    : CoreCall (result DevicePoolError AccessId)
| CCleanupAccess (h : Handle) (lease : LeaseId) (owner : LeaseOwnerId) (now : N)
    : CoreCall (result DevicePoolError AccessId)
| CAccessAvailable (h : Handle) (owner : LeaseOwnerId) (now : N)
    : CoreCall (result DevicePoolError AccessId)
| CDropAccess (a : AccessId) : CoreCall ()
| CConnect (a : AccessId) (c : ExecutionControl) : CoreCall (result RuntimeError DeviceInfo)
| CDisconnect (a : AccessId) (c : ExecutionControl) : CoreCall (result RuntimeError ())
| CObserve (a : AccessId) (c : OperationContext) : CoreCall (result RuntimeError Observation)
| CExecute (a : AccessId) (c : OperationContext) (call : ActionCall)
    : CoreCall (result RuntimeError ActionResult)
| CActionProtection (id : DeviceId) (name : string)
    : CoreCall (result RegistryError (option ActionProtection))
| CScreenshotPolicy : CoreCall ScreenshotPolicy
| CReleaseOwner (owner : LeaseOwnerId) (now : N) : CoreCall ()
| CStartSession (start : StartSession) : CoreCall (result EventStoreError ())
| CEndSession (e : EndSession) : CoreCall (result EventStoreError ())
(** whether [cleanup_ended_session] succeeded *)
| CCleanupSession (id : SessionId) (now : N) : CoreCall bool
| CMetadata (d : Sha256Digest) : CoreCall (result EvidenceError EvidenceMetadata)
(** the bytes of the object *)
| COpen (d : Sha256Digest) : CoreCall (result EvidenceError (list N))
(** whether a read of an open object succeeds *)
| CReadWorks : CoreCall bool.

Inductive SE : Type → Type :=
| InSection (A : Type) (s : Sec A) : SE A
| OnCore (A : Type) (c : CoreCall A) : SE A
(** [gate.lock_owned()] against the cancellation and the deadline *)
| LockGate (gate : N) (c : ExecutionControl) : SE (Selected ())
(** whether a [select] over a future is still waiting for it *)
| StillWaiting (c : ExecutionControl) : SE (Selected ())
| NowMs : SE N
| ReadInstant : SE Instant
| ReadInstants : SE (Uuid → Instant)
| NewUuid : SE Uuid.

Abbreviation svc := (prog SE).
Abbreviation PeerM A := (svc (result PeerError A)).

Definition sec {A} (s : Sec A) : svc A := perform (InSection A s).
Definition core {A} (c : CoreCall A) : svc A := perform (OnCore A c).
(** A section or call that may fail, with its error mapped *)
Definition sec_try {E A} (f : E → PeerError) (s : Sec (result E A)) : PeerM A :=
  r ← sec s; mret (map_err f r).
Definition core_try {E A} (f : E → PeerError) (c : CoreCall (result E A)) : PeerM A :=
  r ← core c; mret (map_err f r).
Definition now_ms : svc N := perform NowMs.
Definition peer_fail {A} (code : string) (retryable outcome_unknown : bool) : PeerM A :=
  mret (Err (peer_error code retryable outcome_unknown)).
Definition require (b : bool) (code : string) (retryable : bool) : PeerM () :=
  if b then mret (Ok ()) else peer_fail code retryable false.
Definition require_some {A} (o : option A) (code : string) (retryable unknown : bool) : PeerM A :=
  match o with Some a => mret (Ok a) | None => peer_fail code retryable unknown end.

(** What the service is built with *)
Record NodeConfig := mkNodeConfig {
  nc_node_id : NodeId;
  nc_epoch : N;
  nc_revision : N;
  nc_inventory : list RemoteDeviceDescriptor;
  nc_devices : gmap string DeviceId;
}.

Definition core_owner (l : PeerLease) : LeaseOwnerId := pl_lease_id l.

(** [remote_info], [rewrite_observation] and [rewrite_action_result] *)
Definition remote_info (i : DeviceInfo) (key : string) : DeviceInfo :=
  mkDeviceInfo key (di_name i) (di_platform i) (di_os_version i) (di_connected i).
Definition rewrite_observation (key : string) (o : Observation) : Observation :=
  mkObservation (obs_id o) key (obs_captured_at_ms o) (obs_viewport o) (obs_screenshot o)
    (obs_screenshot_omission o) (obs_ui_snapshot o) (obs_ui_snapshot_omission o) (obs_metadata o).
Definition rewrite_action_result (key : string) (r : ActionResult) : ActionResult :=
  mkActionResult (res_call_id r) (res_started_at_ms r) (res_finished_at_ms r) (res_output r)
    (rewrite_observation key <$> res_before r) (rewrite_observation key <$> res_after r)
    (res_evidence r) (res_execution r).

(** The ids [allow_observation_evidence] and [allow_action_evidence] insert *)
Definition observation_ids (o : Observation) : list string :=
  (ar_id <$> option_list (obs_screenshot o)) ++
  ((λ s, ar_id (us_evidence s)) <$> option_list (obs_ui_snapshot o)).
Definition action_ids (r : ActionResult) : list string :=
  let screenshot o := ar_id <$> option_list (o ≫= obs_screenshot) in
  let snapshot o := (λ s, ar_id (us_evidence s)) <$> option_list (o ≫= obs_ui_snapshot) in
  (ar_id <$> res_evidence r) ++ screenshot (res_before r) ++ screenshot (res_after r) ++
  snapshot (res_before r) ++ snapshot (res_after r).

(** [require_lease_subject] *)
Definition require_lease_subject (l : PeerLease) (subject : string) : PeerM () :=
  require (String.eqb (pl_owner_id l) subject) "lease_owner_mismatch" false.

Definition policy_omission (p : ScreenshotPolicy) : option ScreenshotOmissionReason :=
  match p with Capture => None | Omit => Some Omission_Policy end.

Section Service.
Context (cfg : NodeConfig).
(** [serde_json::to_vec] of an operation, and the base64 alphabet *)
Context (encode_operation : PeerOperation → option (list N)) (base64 : list N → string).
(** The [Display] texts that [to_error_info] puts into messages *)
Context (registry_display : RegistryError → string) (display : EventStoreError → string).
Context (uuid_text : Uuid → string).

(** [registry_error], [pool_error], [event_error] and [evidence_error] *)
Definition public_error (info : ErrorInfo) : PeerError :=
  peer_error (ei_code info) (ei_retryable info) false.
Definition registry_error (e : RegistryError) : PeerError :=
  public_error (registry_error_info registry_display e).
Definition pool_error (_ : DevicePoolError) : PeerError := peer_error "device_pool_error" true false.
Definition event_error (e : EventStoreError) : PeerError :=
  public_error (to_error_info display uuid_text e).
Definition evidence_error (e : EvidenceError) : PeerError :=
  public_error (evidence_error_info uuid_text e).

(** [runtime_error] *)
Definition runtime_error (e : RuntimeError) : PeerError :=
  let public := runtime_error_info display uuid_text e in
  let outcome_unknown :=
    match e with
    | RtDriver (DriverPlatform code _) => is_some (String.index 0 "outcome_unknown" code)
    | _ => false
    end in
  peer_error (ei_code public) (ei_retryable public && negb outcome_unknown) outcome_unknown.

(** ** Leases and their gates *)

(** [self.leases.authorize(lease, now_ms())] *)
Definition authorize (lease : PeerLease) : PeerM () :=
  now ← now_ms;
  at_ ← perform ReadInstant;
  sec_try lease_error (SecAuthorize lease now at_).

(** [require_lease_connection] *)
Definition require_lease_connection (lease : PeerLease) (connection_id : Uuid) : PeerM () :=
  gate ← sec (SecGate lease connection_id);
  require (is_some gate) "lease_connection_mismatch" false.

(** [authorized_lease] *)
Definition authorized_lease (r : PeerRequest) (subject : string) (connection_id : Uuid)
    : PeerM PeerLease :=
  lease ←? require_some (pr_lease r) "lease_required" false false;
  try! require_lease_subject lease subject;
  try! require_lease_connection lease connection_id;
  try! authorize lease;
  mret (Ok lease).

(** [control.is_cancelled()] and [control.is_expired()], with their errors *)
Definition ensure_active (c : ExecutionControl) : PeerM () :=
  cancelled ← sec (SecIsCancelled c);
  if (cancelled : bool) then peer_fail "request_cancelled" false false else
  at_ ← perform ReadInstant;
  require (negb (is_expired c at_)) "request_timed_out" true.

Definition selected {A} (s : Selected A) : PeerM A :=
  match s with
  | Ready a => mret (Ok a)
  | Woken _ => peer_fail "request_cancelled" false false
  | Elapsed => peer_fail "request_timed_out" true false
  end.

(** [lock_issued_lease]; a check that fails after the lock drops the guard *)
Definition lock_issued_lease (lease : PeerLease) (connection_id : Uuid) (c : ExecutionControl)
    (require_active : bool) : PeerM N :=
  found ← sec (SecGate lease connection_id);
  gate ←? require_some found "lease_connection_mismatch" false false;
  try! ensure_active c;
  locked ← perform (LockGate gate c);
  try! selected locked;
  checked ← (try! require_lease_connection lease connection_id;
             if require_active then authorize lease else mret (Ok ()));
  match checked with
  | Ok _ => mret (Ok gate)
  | Err e => _ ← sec (SecUnlock gate); mret (Err e)
  end.

(** A body that runs while [_gate] is alive *)
Definition with_gate {A} (lease : PeerLease) (connection_id : Uuid) (c : ExecutionControl)
    (require_active : bool) (body : PeerM A) : PeerM A :=
  gate ←? lock_issued_lease lease connection_id c require_active;
  r ← body;
  _ ← sec (SecUnlock gate);
  mret r.

(** [resolve] *)
Definition resolve (key : string) : PeerM Handle :=
  id ←? require_some (nc_devices cfg !! key) "device_not_found" false false;
  core_try registry_error (CResolve id).

(** [health]; the probes, which run concurrently, are taken in turn *)
Fixpoint probe (ids : list DeviceId) (c : ExecutionControl) : svc bool :=
  match ids with
  | [] => mret false
  | id :: ids =>
      handle ← core (CResolve id);
      healthy ← (match handle with
                 | Ok h => r ← core (CHealthCheck h c); mret (is_ok r)
                 | Err _ => mret false
                 end);
      degraded ← probe ids c;
      mret (negb healthy || degraded)
  end.
Definition health (c : ExecutionControl) : PeerM PeerResult :=
  degraded ← probe (map_to_list (nc_devices cfg)).*2 c;
  now ← now_ms;
  mret (Ok (PR_Health (if (degraded : bool) then Degraded else Healthy) now)).

(** ** Cleanup *)

(** [release_core_owner_leases] *)
Definition release_core_owner_leases (lease : PeerLease) : svc () :=
  now ← now_ms; core (CReleaseOwner (core_owner lease) now).

(** The body of [if !progress().<stage>], followed by the write of the stage *)
Definition staged (b : Binding) (stage : CleanupStage) (is_done : CleanupProgress → bool)
    (body : PeerM ()) : PeerM () :=
  cells ← sec (SecCells (bd_cells b));
  if is_done (bc_cleanup cells) then mret (Ok ()) else
  try! body;
  _ ← sec (SecMark (bd_cells b) stage);
  mret (Ok ()).

(** The first stage of [cleanup_binding_locked] *)
Definition disconnect_binding (b : Binding) (c : ExecutionControl) : PeerM () :=
  cells ← sec (SecCells (bd_cells b));
  match bc_core_lease cells with
  | None => mret (Ok ())
  | Some lease =>
      resolved ← core (CResolve (bd_device_id b));
      match resolved with
      | Err (RegDeviceNotFound _) => mret (Ok ())
      | Err e => mret (Err (registry_error e))
      | Ok h =>
          now ← now_ms;
          granted ← core (CCleanupAccess h (dl_id lease) (dl_owner_id lease) now);
          access ←? (match granted with
                     | Ok access => mret (Ok access)
                     | Err PoolLeaseExpired | Err PoolLeaseNotFound =>
                         now ← now_ms;
                         core_try pool_error (CAccessAvailable h (dl_owner_id lease) now)
                     | Err e => mret (Err (pool_error e))
                     end);
          r ← core_try runtime_error (CDisconnect access c);
          _ ← core (CDropAccess access);
          mret r
      end
  end.

(** The second stage *)
Definition end_binding_session (b : Binding) : PeerM () :=
  now ← now_ms;
  ended ← core (CEndSession (mkEndSession (start_session_id (bd_session_start b)) None
    (Some (bd_device_id b)) now Outcome_Completed None));
  mret match ended with
       | Ok _ | Err (SessionEndedError _) | Err (SessionNotFound _) => Ok ()
       | Err e => Err (event_error e)
       end.

(** [cleanup_binding_locked] *)
Definition cleanup_binding_locked (lease : PeerLease) (connection_id : Uuid)
    (c : ExecutionControl) : PeerM () :=
  found ←? sec (SecBeginCleanup lease connection_id);
  match found with
  | None => _ ← release_core_owner_leases lease; mret (Ok ())
  | Some b =>
      try! staged b StageDisconnected cp_disconnected (disconnect_binding b c);
      try! staged b StageSessionEnded cp_session_ended (end_binding_session b);
      try! staged b StageEvidenceCleaned cp_evidence_cleaned
        (now ← now_ms;
         cleaned ← core (CCleanupSession (start_session_id (bd_session_start b)) now);
         require cleaned "session_cleanup_failed" true);
      try! staged b StageLeaseReleased cp_core_lease_released
        (_ ← release_core_owner_leases lease; mret (Ok ()));
      sec (SecFinishCleanup lease connection_id (bd_cells b))
  end.

(** [cleanup_binding] *)
Definition cleanup_binding (lease : PeerLease) (connection_id : Uuid) (c : ExecutionControl)
    : PeerM () :=
  with_gate lease connection_id c false (cleanup_binding_locked lease connection_id c).

(** [cleanup_and_revoke] *)
Definition cleanup_and_revoke (lease : PeerLease) (connection_id : Uuid) (c : ExecutionControl)
    : PeerM () :=
  with_gate lease connection_id c false
    (try! cleanup_binding_locked lease connection_id c;
     try! sec_try lease_error (SecRevoke lease);
     _ ← sec (SecForget (pl_lease_id lease));
     mret (Ok ())).

(** The loop of [reap_expired_device] *)
Fixpoint reap (expired : list IssuedLease) (c : ExecutionControl) : PeerM () :=
  match expired with
  | [] => mret (Ok ())
  | il :: expired =>
      try! cleanup_and_revoke (il_lease il) (il_connection_id il) c;
      reap expired c
  end.

(** [reap_expired_device] *)
Definition reap_expired_device (key : string) (now : N) (c : ExecutionControl) : PeerM () :=
  at_ ← perform ReadInstants;
  expired ← sec (SecExpired key now at_);
  started ← perform ReadInstant;
  reap expired (with_timeout c started CLEANUP_TIMEOUT_MS Scope_Request).

(** [ExecutionController::with_timeout] *)
Definition new_control (timeout_ms : N) : svc ExecutionControl :=
  started ← perform ReadInstant;
  sec (SecNewControl started timeout_ms).

(** The loops of [release_connection] and [shutdown] *)
Fixpoint release_all (leases : list IssuedLease) (c : ExecutionControl) : svc (list PeerError) :=
  match leases with
  | [] => mret []
  | il :: leases =>
      r ← cleanup_and_revoke (il_lease il) (il_connection_id il) c;
      errors ← release_all leases c;
      mret (match r with Ok _ => errors | Err e => e :: errors end)
  end.
Fixpoint cancel_requests (keys : list (Uuid * Uuid)) : svc () :=
  match keys with
  | [] => mret ()
  | key :: keys => _ ← sec (SecCancel key Shutdown); cancel_requests keys
  end.

(** [release_connection] *)
Definition release_connection (connection_id : Uuid) : svc (list PeerError) :=
  active ← sec (SecActive connection_id);
  _ ← cancel_requests active;
  leases ← sec (SecIssued (Some connection_id));
  c ← new_control CLEANUP_TIMEOUT_MS;
  release_all leases c.

(** [shutdown], after its barrier *)
Definition shutdown : svc (list PeerError) :=
  _ ← sec (SecSetReady false);
  _ ← sec (SecCancelAll Shutdown);
  leases ← sec (SecIssued None);
  c ← new_control CLEANUP_TIMEOUT_MS;
  errors ← release_all leases c;
  _ ← (if bool_decide (length errors = 0)%nat then sec SecInvalidateAll else mret ());
  mret errors.

(** ** Connecting *)

(** [rollback_connect_error], with [rollback_connect] *)
Definition rollback_connect_error (lease : PeerLease) (connection_id : Uuid) (original : PeerError)
    : svc PeerError :=
  c ← new_control CLEANUP_TIMEOUT_MS;
  r ← cleanup_binding_locked lease connection_id c;
  mret (match r with
        | Ok _ => original
        | Err _ => peer_error "connect_rollback_incomplete" true true
        end).

(** [registry.acquire_lease(&handle, core_owner(lease), now_ms())] *)
Definition acquire_core_lease (h : Handle) (lease : PeerLease)
    : svc (result DevicePoolError DeviceLease) :=
  now ← now_ms; core (CAcquireLease h (core_owner lease) now).

(** [registry.access_with_lease(handle, core_lease.id, core_lease.owner_id, now_ms())] *)
Definition access_with_lease (h : Handle) (core_lease : DeviceLease) : PeerM AccessId :=
  now ← now_ms; core_try pool_error (CAccess h (dl_id core_lease) (dl_owner_id core_lease) now).

(** [access.connect(control)], after which the access is dropped *)
Definition connect_device (access : AccessId) (c : ExecutionControl) : PeerM DeviceInfo :=
  r ← core_try runtime_error (CConnect access c);
  _ ← core (CDropAccess access);
  mret r.

(** The session of a connected device is started, or the connect rolled back *)
Definition start_binding_session (b : Binding) (lease : PeerLease) (connection_id : Uuid) : PeerM () :=
  started ← core_try event_error (CStartSession (bd_session_start b));
  match started with
  | Err original => e ← rollback_connect_error lease connection_id original; mret (Err e)
  | Ok _ => _ ← sec (SecSessionStarted (bd_cells b)); mret (Ok ())
  end.

(** [connect] for a lease that has a binding *)
Definition reconnect (b : Binding) (key : string) (lease : PeerLease) (connection_id : Uuid)
    (c : ExecutionControl) : PeerM DeviceInfo :=
  try! require (binds b lease connection_id) "lease_binding_mismatch" false;
  cells ← sec (SecCells (bd_cells b));
  try! require (negb (cp_started (bc_cleanup cells))) "lease_cleanup_pending" true;
  cells ← sec (SecCells (bd_cells b));
  let session_started := bc_session_started cells in
  h ←? core_try registry_error (CResolve (bd_device_id b));
  acquired ← acquire_core_lease h lease;
  core_lease ←? mret (map_err pool_error acquired);
  _ ← sec (SecPublishLease (bd_cells b) core_lease);
  access ←? access_with_lease h core_lease;
  connected ← connect_device access c;
  match connected with
  | Err original =>
      if session_started then mret (Err original)
      else e ← rollback_connect_error lease connection_id original; mret (Err e)
  | Ok info =>
      try! (if session_started then mret (Ok ()) else start_binding_session b lease connection_id);
      mret (Ok (remote_info info key))
  end.

(** [connect] for a lease without one *)
Definition first_connect (key : string) (lease : PeerLease) (connection_id : Uuid)
    (c : ExecutionControl) : PeerM DeviceInfo :=
  h ←? resolve key;
  try! core_try runtime_error (CHealthCheck h c);
  checked_at ← now_ms;
  now ← now_ms;
  try! core_try pool_error (CRecordHealth h checked_at now);
  session_id ← perform NewUuid;
  started_at ← now_ms;
  reserved ← sec (SecReserve lease connection_id (hn_id h)
    (mkStartSession session_id None (Some (hn_id h)) started_at));
  b ←? require_some reserved "lease_binding_conflict" false false;
  acquired ← acquire_core_lease h lease;
  match acquired with
  | Err error =>
      e ← rollback_connect_error lease connection_id (pool_error error); mret (Err e)
  | Ok core_lease =>
      _ ← sec (SecPublishLease (bd_cells b) core_lease);
      access ←? access_with_lease h core_lease;
      connected ← connect_device access c;
      match connected with
      | Err original => e ← rollback_connect_error lease connection_id original; mret (Err e)
      | Ok info =>
          try! start_binding_session b lease connection_id;
          mret (Ok (remote_info info key))
      end
  end.

(** [connect] *)
Definition connect (key : string) (lease : PeerLease) (connection_id : Uuid) (c : ExecutionControl)
    : PeerM DeviceInfo :=
  with_gate lease connection_id c true
    (existing ← sec (SecBinding (pl_lease_id lease));
     match existing with
     | Some b => reconnect b key lease connection_id c
     | None => first_connect key lease connection_id c
     end).

(** ** Observing and executing *)

(** [renewed_binding] *)
Definition renewed_binding (lease : PeerLease) (connection_id : Uuid) : PeerM Binding :=
  found ← sec (SecBinding (pl_lease_id lease));
  b ←? require_some found "device_not_connected" true false;
  try! require (binds b lease connection_id) "lease_binding_mismatch" false;
  cells ← sec (SecCells (bd_cells b));
  try! require (negb (cp_started (bc_cleanup cells))) "lease_cleanup_pending" true;
  h ←? core_try registry_error (CResolve (bd_device_id b));
  acquired ← acquire_core_lease h lease;
  core_lease ←? mret (map_err pool_error acquired);
  _ ← sec (SecPublishLease (bd_cells b) core_lease);
  mret (Ok b).

(** The binding of an operation and its access to the device *)
Definition operation_access (lease : PeerLease) (connection_id : Uuid)
    : PeerM (Binding * AccessId) :=
  b ←? renewed_binding lease connection_id;
  h ←? core_try registry_error (CResolve (bd_device_id b));
  cells ← sec (SecCells (bd_cells b));
  core_lease ←? require_some (bc_core_lease cells) "core_lease_missing" true true;
  access ←? access_with_lease h core_lease;
  mret (Ok (b, access)).

Definition operation_context (b : Binding) (c : ExecutionControl) (policy : ScreenshotPolicy)
    (ui_snapshots_enabled semantic_actions_enabled : bool) : OperationContext :=
  mkOperationContext (start_session_id (bd_session_start b)) None c None (Some policy)
    ui_snapshots_enabled semantic_actions_enabled.

(** [observe] *)
Definition observe (key : string) (lease : PeerLease) (connection_id : Uuid)
    (requested : option ScreenshotOmissionReason) (ui semantic : bool) (c : ExecutionControl)
    : PeerM Observation :=
  policy ← core CScreenshotPolicy;
  try! require (bool_decide (requested = policy_omission policy) ||
                bool_decide (requested = Some Omission_Policy)) "screenshot_policy_mismatch" false;
  with_gate lease connection_id c true
    (granted ←? operation_access lease connection_id;
     let '(b, access) := granted in
     let policy := if bool_decide (requested = Some Omission_Policy) then Omit else Capture in
     r ← (observation ←? core_try runtime_error
            (CObserve access (operation_context b c policy ui semantic));
          try! sec (SecAllow (pl_lease_id lease) (observation_ids observation));
          mret (Ok (rewrite_observation key observation)));
     _ ← core (CDropAccess access);
     mret r).

(** [execute_first] *)
Definition execute_first (key : string) (lease : PeerLease) (connection_id : Uuid)
    (requested : option ScreenshotOmissionReason) (ui semantic : bool) (call : ActionCall)
    (c : ExecutionControl) : PeerM PeerResult :=
  id ←? require_some (nc_devices cfg !! key) "device_not_found" false false;
  declared ←? core_try registry_error (CActionProtection id (call_name call));
  protection ←? require_some declared "unknown_action" false false;
  expected ← (match protection with
              | Protected => mret (Some Omission_ProtectedAction)
              | Standard => policy ← core CScreenshotPolicy; mret (policy_omission policy)
              end);
  try! require (bool_decide (requested = expected) ||
                bool_decide (protection = Standard) && bool_decide (requested = Some Omission_Policy))
         "screenshot_policy_mismatch" false;
  granted ←? operation_access lease connection_id;
  let '(b, access) := granted in
  let policy := if is_some requested then Omit else Capture in
  r ← (result ←? core_try runtime_error
         (CExecute access (operation_context b c policy ui semantic) call);
       let result := rewrite_action_result key result in
       try! sec (SecAllow (pl_lease_id lease) (action_ids result));
       mret (Ok (PR_Action result)));
  _ ← core (CDropAccess access);
  mret r.

Definition terminal_of (r : result PeerError PeerResult) : CachedTerminal :=
  match r with Ok res => TerminalSuccess res | Err e => TerminalFailure e end.
Definition terminal_result (t : CachedTerminal) : result PeerError PeerResult :=
  match t with TerminalSuccess res => Ok res | TerminalFailure e => Err e end.

(** [execute] *)
Definition execute (fingerprint : list N) (key : string) (lease : PeerLease) (connection_id : Uuid)
    (requested : option ScreenshotOmissionReason) (ui semantic : bool) (call : ActionCall)
    (c : ExecutionControl) : PeerM PeerResult :=
  with_gate lease connection_id c true
    (decision ← sec (SecRegister (call_id call) fingerprint);
     match decision with
     | Conflict => peer_fail "call_id_conflict" false false
     | Duplicate =>
         cached ← sec (SecTerminal (call_id call) (pl_lease_id lease));
         match cached with
         | Some terminal => mret (terminal_result terminal)
         | None =>
             in_flight ← sec (SecInFlight (call_id call));
             if (in_flight : bool) then peer_fail "call_in_flight" true false
             else peer_fail "call_terminal_unavailable" false true
         end
     | FirstSeen =>
         _ ← sec (SecSetInFlight (call_id call) true);
         terminal ← execute_first key lease connection_id requested ui semantic call c;
         _ ← sec (SecCacheTerminal (call_id call) (pl_lease_id lease) (terminal_of terminal));
         _ ← sec (SecSetInFlight (call_id call) false);
         mret terminal
     end).

(** ** Evidence *)

(** [open_evidence_cursor] *)
Definition open_evidence_cursor (digest : Sha256Digest) (offset : N) : PeerM EvidenceReadCursor :=
  metadata ←? core_try evidence_error (CMetadata digest);
  let total := em_byte_length metadata in
  try! require (negb ((total =? 0) || (MAX_SERVICE_EVIDENCE_BYTES <? total)))
         "evidence_size_invalid" false;
  try! require (offset <? total) "evidence_offset_invalid" false;
  body ←? core_try evidence_error (COpen digest);
  try! (if 0 <? offset then
          works ← core CReadWorks;
          try! require works "evidence_read_failed" true;
          require (offset <=? len body) "evidence_size_mismatch" false
        else mret (Ok ()));
  mret (Ok (mkEvidenceReadCursor digest (em_media_type metadata) total offset
    (drop (N.to_nat offset) body))).

(** The digest an evidence id names *)
Definition evidence_digest (evidence_id : string) : option Sha256Digest :=
  if String.prefix ASSET_ID_PREFIX evidence_id
  then let value := String.substring 7 (String.length evidence_id - 7) evidence_id in
       match parse_digest value with Ok d => Some d | Err _ => None end
  else None.

(** What an evidence store holds: the media type and the bytes of an object *)
Definition ObjectStore : Type := Sha256Digest → string * list N.

(** The cursor is on the object that an evidence id names. *)
Definition on_object (store : ObjectStore) (evidence_id : string) (cursor : EvidenceReadCursor) : Prop :=
  let '(media_type, body) := store (cu_digest cursor) in
  evidence_digest evidence_id = Some (cu_digest cursor) ∧ cu_media_type cursor = media_type ∧
  cu_total_size cursor = len body ∧ cu_offset cursor < len body ∧
  cu_body cursor = drop (N.to_nat (cu_offset cursor)) body.

(** The answer to an evidence request: a chunk of the object it names, from
    the offset it names, marked as the last one when it is. *)
Definition serves (store : ObjectStore) (evidence_id : string) (offset max_bytes : N)
    (res : PeerResult) : Prop :=
  ∃ d, evidence_digest evidence_id = Some d ∧
    let '(media_type, body) := store d in
    let chunk := take (N.to_nat max_bytes) (drop (N.to_nat offset) body) in
    offset < len body ∧
    res = PR_EvidenceChunk evidence_id media_type (len body) offset (base64 chunk) (Some d)
            (offset + len chunk =? len body).

(** The cursor a read goes on with: the one taken out of the set when it is at
    the offset, or else a new one *)
Definition resume_cursor (cell : N) (evidence_id : string) (digest : Sha256Digest) (offset : N)
    : PeerM EvidenceReadCursor :=
  existing ← sec (SecTakeCursor cell evidence_id);
  match existing with
  | Some cursor =>
      if (cu_offset cursor =? offset) && String.eqb (cu_digest cursor) digest
      then mret (Ok cursor) else open_evidence_cursor digest offset
  | None => open_evidence_cursor digest offset
  end.

(** One chunk off a cursor *)
Definition read_chunk (cell : N) (evidence_id : string) (offset max_bytes : N)
    (cursor : EvidenceReadCursor) : PeerM PeerResult :=
  let chunk_size := N.min max_bytes (cu_total_size cursor - offset) in
  works ← core CReadWorks;
  try! require ((works : bool) && (chunk_size <=? len (cu_body cursor))) "evidence_size_mismatch" false;
  let chunk := take (N.to_nat chunk_size) (cu_body cursor) in
  let body := drop (N.to_nat chunk_size) (cu_body cursor) in
  let end_ := offset + chunk_size in
  let done := end_ =? cu_total_size cursor in
  try! (if done then
          works ← core CReadWorks;
          try! require works "evidence_read_failed" true;
          require (len body =? 0) "evidence_size_mismatch" false
        else
          _ ← sec (SecPutCursor cell evidence_id (mkEvidenceReadCursor (cu_digest cursor)
            (cu_media_type cursor) (cu_total_size cursor) end_ body));
          mret (Ok ()));
  mret (Ok (PR_EvidenceChunk evidence_id (cu_media_type cursor) (cu_total_size cursor) offset
    (base64 chunk) (Some (cu_digest cursor)) done)).

(** [read_evidence_chunk] *)
Definition read_evidence_chunk (lease : PeerLease) (connection_id : Uuid) (evidence_id : string)
    (offset max_bytes : N) : PeerM PeerResult :=
  found ← sec (SecBinding (pl_lease_id lease));
  b ←? require_some found "device_not_connected" true false;
  try! require (binds b lease connection_id && bool_decide (evidence_id ∈ bd_allowed_evidence b))
         "evidence_not_authorized" false;
  cells ← sec (SecCells (bd_cells b));
  try! require (negb (cp_started (bc_cleanup cells))) "lease_cleanup_pending" true;
  digest ←? require_some (evidence_digest evidence_id) "evidence_reference_invalid" false false;
  cursor ←? resume_cursor (bd_cells b) evidence_id digest offset;
  read_chunk (bd_cells b) evidence_id offset max_bytes cursor.

(** A future in a [select] against the cancellation and the deadline, which
    may be dropped wherever it is suspended *)
Fixpoint abortable {A} (c : ExecutionControl) (p : PeerM A) : PeerM A :=
  match p with
  | Ret r => Ret r
  | Step R e k =>
      waiting ← perform (StillWaiting c);
      try! selected waiting;
      Step R e (λ r, abortable c (k r))
  end.

(** [evidence_chunk] *)
Definition evidence_chunk (lease : PeerLease) (connection_id : Uuid) (evidence_id : string)
    (offset max_bytes : N) (c : ExecutionControl) : PeerM PeerResult :=
  try! ensure_active c;
  with_gate lease connection_id c true
    (abortable c (read_evidence_chunk lease connection_id evidence_id offset max_bytes)).

(** ** Dispatch *)

(** [LeaseAcquire] of [dispatch] *)
Definition lease_acquire (key owner_id : string) (ttl_ms : N) (subject : string)
    (connection_id : Uuid) (c : ExecutionControl) : PeerM PeerResult :=
  try! require (String.eqb owner_id subject) "lease_owner_mismatch" false;
  now ← now_ms;
  try! reap_expired_device key now c;
  lease_id ← perform NewUuid;
  at_ ← perform ReadInstants;
  checked_at ← perform ReadInstant;
  set_at ← perform ReadInstant;
  lease ←? sec (SecAcquire key subject connection_id ttl_ms now lease_id at_ checked_at set_at);
  mret (Ok (PR_Lease lease)).

(** [LeaseRenew] of [dispatch] *)
Definition lease_renew (lease : PeerLease) (ttl_ms : N) (subject : string) (connection_id : Uuid)
    (c : ExecutionControl) : PeerM PeerResult :=
  try! require_lease_subject lease subject;
  with_gate lease connection_id c true
    (now ← now_ms;
     checked_at ← perform ReadInstant;
     set_at ← perform ReadInstant;
     renewed ←? sec (SecRenew lease connection_id ttl_ms now checked_at set_at);
     mret (Ok (PR_Lease renewed))).

(** [LeaseRelease] of [dispatch] *)
Definition lease_release (lease : PeerLease) (subject : string) (connection_id : Uuid)
    (c : ExecutionControl) : PeerM PeerResult :=
  try! require_lease_subject lease subject;
  with_gate lease connection_id c true
    (try! cleanup_binding_locked lease connection_id c;
     now ← now_ms;
     at_ ← perform ReadInstant;
     released ← sec (SecRelease lease now at_);
     try! (match released with
           | Ok _ => mret (Ok ())
           | Err LeaseStale => sec_try lease_error (SecRevoke lease)
           | Err e => mret (Err (lease_error e))
           end);
     _ ← sec (SecForget (pl_lease_id lease));
     mret (Ok PR_Ack)).

Definition allowed_while_starting (o : PeerOperation) : bool :=
  match o with
  | PO_Hello | PO_Inventory | PO_Health | PO_Capabilities _ => true
  | _ => false
  end.

(** [dispatch]; [handle_inner] has dealt with [Cancel] *)
Definition dispatch (r : PeerRequest) (subject : string) (connection_id : Uuid)
    (c : ExecutionControl) : PeerM PeerResult :=
  ready ← sec SecReady;
  try! require ((ready : bool) || allowed_while_starting (pr_operation r)) "node_starting" true;
  match pr_operation r with
  | PO_Hello =>
      mret (Ok (PR_Hello (nc_node_id cfg) (nc_epoch cfg) MAX_PEER_FRAME_BYTES
        (mkPeerProtocolCapabilities true true)))
  | PO_Inventory =>
      now ← now_ms;
      mret (Ok (PR_Inventory (mkInventorySnapshot (nc_node_id cfg) (nc_epoch cfg) (nc_revision cfg)
        now (nc_inventory cfg))))
  | PO_Health => health c
  | PO_Capabilities key =>
      h ←? resolve key;
      actions ←? core_try runtime_error (CCapabilities h c);
      mret (Ok (PR_Capabilities actions))
  | PO_LeaseAcquire key owner_id ttl_ms => lease_acquire key owner_id ttl_ms subject connection_id c
  | PO_LeaseRenew lease ttl_ms => lease_renew lease ttl_ms subject connection_id c
  | PO_LeaseRelease lease => lease_release lease subject connection_id c
  | PO_Connect key =>
      lease ←? authorized_lease r subject connection_id;
      info ←? connect key lease connection_id c;
      mret (Ok (PR_Device info))
  | PO_Disconnect _ =>
      lease ←? authorized_lease r subject connection_id;
      try! cleanup_binding lease connection_id c;
      mret (Ok PR_Ack)
  | PO_Observe key omission ui semantic =>
      lease ←? authorized_lease r subject connection_id;
      observation ←? observe key lease connection_id omission ui semantic c;
      mret (Ok (PR_Observation observation))
  | PO_Execute key call omission ui semantic =>
      lease ←? authorized_lease r subject connection_id;
      fingerprint ←? require_some (encode_operation (pr_operation r)) "call_fingerprint_failed"
        false false;
      execute fingerprint key lease connection_id omission ui semantic call c
  | PO_EvidenceRead _ evidence_id offset max_bytes =>
      lease ←? authorized_lease r subject connection_id;
      evidence_chunk lease connection_id evidence_id offset max_bytes c
  | PO_Cancel _ _ => mret (Ok PR_Ack)
  end.

Inductive PeerServiceError := InvalidConfiguration | InvalidInventory | ServiceProtocol.

Definition ignores_epoch (o : PeerOperation) : bool :=
  match o with PO_Hello | PO_Inventory => true | _ => false end.

(** The response to a request, [PeerResponse::success] or [failure] *)
Definition respond (r : PeerRequest) (answer : result PeerError PeerResult)
    : svc (result PeerServiceError PeerResponse) :=
  mret (Ok match answer with
           | Ok res => response_success r (nc_epoch cfg) res
           | Err e => response_failure r (nc_epoch cfg) e
           end).

(** The part of [handle_inner] after [Cancel]: the request is entered under a
    control of its own, dispatched and taken out again *)
Definition handle_admitted (r : PeerRequest) (subject : string) (connection_id : Uuid)
    : svc (result PeerServiceError PeerResponse) :=
  let timeout := default MAX_OPERATION_TIMEOUT_MS (pr_timeout_ms r) in
  if MAX_OPERATION_TIMEOUT_MS <? timeout
  then respond r (Err (peer_error "request_deadline_elapsed" false false))
  else
    c ← new_control timeout;
    entered ← sec (SecEnter (connection_id, pr_request_id r) c);
    if (entered : bool) then
      terminal ← dispatch r subject connection_id c;
      _ ← sec (SecLeave (connection_id, pr_request_id r));
      respond r terminal
    else respond r (Err (peer_error "duplicate_request_id" false false)).

(** [handle_inner]; [handle] adds telemetry *)
Definition handle_inner (r : PeerRequest) (subject : string) (connection_id : Uuid)
    : svc (result PeerServiceError PeerResponse) :=
  if is_err (request_validate r) || negb (pr_protocol_version r =? DISTRIBUTED_PROTOCOL_VERSION) ||
     negb (String.eqb (pr_node_id r) (nc_node_id cfg))
  then mret (Err ServiceProtocol)
  else if negb (ignores_epoch (pr_operation r)) &&
          negb (bool_decide (pr_node_epoch r = Some (nc_epoch cfg)))
  then respond r (Err (peer_error "node_epoch_stale" false false))
  else
    match pr_operation r with
    | PO_Cancel target_request_id _ =>
        cancelled ← sec (SecCancel (connection_id, target_request_id) Requested);
        respond r (if (cancelled : bool) then Ok PR_Ack
                   else Err (peer_error "cancel_target_not_found" false false))
    | _ => handle_admitted r subject connection_id
    end.
End Service.
