(* ===== verification/PeerServiceRuns.v ===== *)
(** * Requests of a node that run concurrently

    The requests, connection teardowns and the shutdown of a node as threads
    that interleave at every effect, with the trace of what they did; and the
    watch kept on a thread's trace, which says when a device may be operated,
    when evidence may be disclosed, and what a cell may hold. *)

From S2P Require Import Prelude Protocol Evidence EventStore DevicePool Async Control Runtime Registry.
From S2P Require Import PeerLease PeerModel PeerNode PeerService.

Local Open Scope N_scope.

(** ** Threads *)

Inductive Task :=
| HandleRequest (r : PeerRequest) (subject : string) (connection_id : Uuid)
| ReleaseConnection (connection_id : Uuid)
| ShutDown.

Inductive Outcome :=
| Responded (response : result PeerServiceError PeerResponse)
| Released (errors : list PeerError)
| Dropped.

(** One effect and its answer *)
Inductive Ev := mkEv (R : Type) (e : SE R) (r : R).

(** What a thread gives back when it is dropped: [OwnedMutexGuard],
    [ActiveRequestGuard] and [InFlightCallGuard] *)
Inductive Guard := GuardGate (gate : N) | GuardActive (key : Uuid * Uuid) | GuardCall (call_id : Uuid).

#[global] Instance Guard_eq_dec : EqDecision Guard.
Proof. solve_decision. Defined.

Definition guards_after (guards : list Guard) (ev : Ev) : list Guard :=
  let '(mkEv R e r) := ev in
  match e in SE R return R → list Guard with
  | LockGate gate _ => λ r, match r with Ready _ => GuardGate gate :: guards | _ => guards end
  | InSection A s =>
      match s in Sec A return A → list Guard with
      | SecUnlock gate => λ _, filter (λ g, g ≠ GuardGate gate) guards
      | SecEnter key _ => λ entered, if entered then GuardActive key :: guards else guards
      | SecLeave key => λ _, filter (λ g, g ≠ GuardActive key) guards
      | SecSetInFlight call_id in_flight => λ _,
          if in_flight then GuardCall call_id :: guards
          else filter (λ g, g ≠ GuardCall call_id) guards
      | _ => λ _, guards
      end
  | _ => λ _, guards
  end r.

Definition release_of (g : Guard) : Sec () :=
  match g with
  | GuardGate gate => SecUnlock gate
  | GuardActive key => SecLeave key
  | GuardCall call_id => SecSetInFlight call_id false
  end.

Record Thread := mkThread {
  th_task : Task;
  th_events : list Ev;
  th_guards : list Guard;
  th_prog : svc Outcome;
}.

(** What the service relies on in Core: a lease it is granted names the owner it
    was asked for, and the Evidence Store describes and opens the object it
    holds for a digest. *)
Section CoreContract.
Context (store : ObjectStore).

Definition core_answers {A} (c : CoreCall A) : A → Prop :=
  match c in CoreCall A return A → Prop with
  | CMetadata d => λ r,
      match r with
      | Ok m => em_media_type m = fst (store d) ∧ em_byte_length m = len (snd (store d))
      | Err _ => True
      end
  | COpen d => λ r, match r with Ok body => body = snd (store d) | Err _ => True end
  | CAcquireLease _ owner _ => λ r,
      match r with Ok lease => dl_owner_id lease = owner | Err _ => True end
  | _ => λ _, True
  end.
End CoreContract.

Section Runs.
Context {Fingerprint : Type} `{EqDecision Fingerprint}.
Context (digest : list N → Fingerprint) (terminal_bytes : CachedTerminal → N).
Context (cfg : NodeConfig).
Context (encode_operation : PeerOperation → option (list N)) (base64 : list N → string).
Context (registry_display : RegistryError → string) (display : EventStoreError → string).
Context (uuid_text : Uuid → string) (store : ObjectStore).

#[local] Abbreviation Service := (Service Fingerprint).
#[local] Abbreviation run_sec := (run_sec digest terminal_bytes).

Definition program (t : Task) : svc Outcome :=
  match t with
  | HandleRequest r subject connection_id =>
      response ← handle_inner cfg encode_operation base64 registry_display display uuid_text
        r subject connection_id;
      mret (Responded response)
  | ReleaseConnection connection_id =>
      errors ← release_connection registry_display display uuid_text connection_id;
      mret (Released errors)
  | ShutDown =>
      errors ← shutdown registry_display display uuid_text;
      mret (Released errors)
  end.

(** How an effect may be answered. Sections run on the tables of the service;
    a gate is locked when it is free; everything else, the clocks, the random
    ids and, within its contract, the answers of Core, is arbitrary. *)
Definition answers (R : Type) (e : SE R) (v : Service) : R → Service → Prop :=
  match e in SE R return R → Service → Prop with
  | InSection A s => λ r v', run_sec s v = (r, v')
  | LockGate gate _ => λ r v',
      match r with
      | Ready _ => (gate ∉ ns_held v) ∧ v' = set_held (λ held, {[gate]} ∪ held) v
      | _ => v' = v
      end
  | OnCore A c => λ r v', v' = v ∧ core_answers store c r
  | _ => λ _ v', v' = v
  end.

Record World := mkWorld {
  wd_service : Service;
  wd_threads : gmap N Thread;
  wd_trace : list (N * Ev);
}.

Definition drop_guards (guards : list Guard) (v : Service) : Service :=
  foldl (λ v g, snd (run_sec (release_of g) v)) v guards.

(** A task starts, performs its next effect, or is dropped where it is
    suspended *)
Inductive world_step : World → World → Prop :=
| step_start v ths tr id t :
    ths !! id = None →
    world_step (mkWorld v ths tr) (mkWorld v (<[id := mkThread t [] [] (program t)]> ths) tr)
| step_effect v ths tr id t evs guards R e k r v' :
    ths !! id = Some (mkThread t evs guards (Step R e k)) →
    answers R e v r v' →
    world_step (mkWorld v ths tr)
      (mkWorld v' (<[id := mkThread t (evs ++ [mkEv R e r]) (guards_after guards (mkEv R e r)) (k r)]> ths)
         (tr ++ [(id, mkEv R e r)]))
| step_drop v ths tr id t evs guards p :
    ths !! id = Some (mkThread t evs guards p) →
    world_step (mkWorld v ths tr)
      (mkWorld (drop_guards guards v) (<[id := mkThread t evs [] (Ret Dropped)]> ths) tr).

(** A node whose tables are empty, as [new_with_telemetry] makes it *)
Definition service0 (devices : gset string) : Service :=
  mkService true (mkLeaseTable (nc_epoch cfg) devices ∅) ∅ ∅ ∅ (mkLedgerState [] ∅) terminals0
    ∅ ∅ ∅ ∅ 0.

Definition reachable_world (w : World) : Prop :=
  ∃ devices, rtc world_step (mkWorld (service0 devices) ∅ []) w.
End Runs.

(** ** The watch on a thread *)

(** What a thread has established since it locked its gate: the lease that is
    issued to its connection and the lease that was authorized, the call that
    is registered and not yet executed, its access to a device with the owner
    it was granted to, the evidence of its last operation, and the bindings it
    saw with the lease they belong to. *)
Record Watch := mkWatch {
  wt_gate : option N;
  wt_confirmed : option PeerLease;
  wt_authorized : option PeerLease;
  wt_call : option Uuid;
  wt_access : option (AccessId * LeaseOwnerId);
  wt_ids : option (list string);
  wt_bindings : list (Binding * Uuid);
}.

Definition watch0 : Watch := mkWatch None None None None None None [].

Definition confirm (l : option PeerLease) (m : Watch) : Watch :=
  mkWatch (wt_gate m) l (wt_authorized m) (wt_call m) (wt_access m) (wt_ids m) (wt_bindings m).
Definition authorized (l : PeerLease) (m : Watch) : Watch :=
  if bool_decide (wt_confirmed m = Some l) && is_some (wt_gate m)
  then mkWatch (wt_gate m) (wt_confirmed m) (Some l) (wt_call m) (wt_access m) (wt_ids m) (wt_bindings m)
  else m.
Definition on_call (c : option Uuid) (m : Watch) : Watch :=
  mkWatch (wt_gate m) (wt_confirmed m) (wt_authorized m) c (wt_access m) (wt_ids m) (wt_bindings m).
Definition on_access (a : option (AccessId * LeaseOwnerId)) (m : Watch) : Watch :=
  mkWatch (wt_gate m) (wt_confirmed m) (wt_authorized m) (wt_call m) a (wt_ids m) (wt_bindings m).
Definition on_ids (ids : option (list string)) (m : Watch) : Watch :=
  mkWatch (wt_gate m) (wt_confirmed m) (wt_authorized m) (wt_call m) (wt_access m) ids (wt_bindings m).
Definition knows (b : option Binding) (lease_id : Uuid) (m : Watch) : Watch :=
  match b with
  | Some b => mkWatch (wt_gate m) (wt_confirmed m) (wt_authorized m) (wt_call m) (wt_access m)
                (wt_ids m) ((b, lease_id) :: wt_bindings m)
  | None => m
  end.

Definition knows_cell (m : Watch) (cell : N) (lease_id : Uuid) : Prop :=
  ∃ b, (b, lease_id) ∈ wt_bindings m ∧ bd_cells b = cell.

Definition task_connection (t : Task) : option Uuid :=
  match t with
  | HandleRequest _ _ connection_id | ReleaseConnection connection_id => Some connection_id
  | ShutDown => None
  end.

Definition watch_section (t : Task) (m : Watch) {A} (s : Sec A) : A → Watch :=
  match s in Sec A return A → Watch with
  | SecGate lease connection_id => λ found,
      confirm (if is_some found && bool_decide (task_connection t = Some connection_id)
               then Some lease else None) m
  | SecAuthorize lease _ _ => λ r, if is_ok r then authorized lease m else m
  | SecUnlock _ => λ _, mkWatch None None None None None None (wt_bindings m)
  | SecRegister call_id _ => λ decision,
      match decision with FirstSeen => on_call (Some call_id) m | _ => m end
  | SecBinding lease_id => λ b, knows b lease_id m
  | SecReserve lease _ _ _ => λ b, knows b (pl_lease_id lease) m
  | _ => λ _, m
  end.

Definition watch_core (m : Watch) {A} (c : CoreCall A) : A → Watch :=
  match c in CoreCall A return A → Watch with
  | CAccess _ _ owner _ => λ r,
      on_access (match r with Ok a => Some (a, owner) | Err _ => None end) m
  | CDropAccess _ => λ _, on_access None m
  | CObserve _ _ => λ r,
      on_ids (match r with Ok o => Some (observation_ids o) | Err _ => None end) m
  | CExecute _ _ _ => λ r,
      on_call None (on_ids (match r with Ok o => Some (action_ids o) | Err _ => None end) m)
  | _ => λ _, m
  end.

Definition watch (t : Task) (m : Watch) (ev : Ev) : Watch :=
  let '(mkEv R e r) := ev in
  match e in SE R return R → Watch with
  | InSection A s => watch_section t m s
  | OnCore A c => watch_core m c
  | LockGate gate _ => λ r,
      match r with
      | Ready _ => mkWatch (Some gate) None None None None None (wt_bindings m)
      | _ => m
      end
  | _ => λ _, m
  end r.

Definition watched (t : Task) (evs : list Ev) : Watch := foldl (watch t) watch0 evs.

(** The access [a] may operate its device: the request carries a lease of the
    authenticated subject, which was confirmed to be issued to this connection
    and authorized while its gate is held, and the access was granted to the
    owner that stands for this lease. *)
Definition operates (t : Task) (m : Watch) (a : AccessId) : Prop :=
  match t with
  | HandleRequest r subject _ =>
      match pr_lease r with
      | Some lease => pl_owner_id lease = subject ∧ wt_authorized m = Some lease ∧
          device_key (pr_operation r) = Some (pl_device_key lease) ∧
          wt_access m = Some (a, core_owner lease)
      | None => False
      end
  | _ => False
  end.

(** The lease of a request *)
Definition leases (t : Task) (lease_id : Uuid) : Prop :=
  match t with
  | HandleRequest r _ _ => pl_lease_id <$> pr_lease r = Some lease_id
  | _ => False
  end.

(** When a thread may perform an effect *)
Definition permitted (store : ObjectStore) (t : Task) (m : Watch) {R} (e : SE R) : Prop :=
  match e with
  | OnCore _ (CConnect a _) | OnCore _ (CObserve a _) => operates t m a
  | OnCore _ (CExecute a _ call) => operates t m a ∧ wt_call m = Some (call_id call)
  | InSection _ (SecAllow lease_id ids) => leases t lease_id ∧ wt_ids m = Some ids
  | InSection _ (SecPutCursor _ evidence_id cursor) => on_object store evidence_id cursor
  | InSection _ (SecPublishLease cell lease) => knows_cell m cell (dl_owner_id lease)
  | _ => True
  end.
