(* ===== verification/PeerServiceSafe.v ===== *)
(** * Every handler keeps to the watch

    A program logic for one thread among others: [safe t Q m p] says that the
    thread [p] of task [t], started with the watch [m], performs every effect
    only when it is permitted, whatever the answers, and ends in [Q]. The
    handlers of PeerService.v are shown safe one by one. *)

From S2P Require Import Prelude Protocol Evidence EventStore DevicePool Async Control Runtime Registry.
From S2P Require Import PeerLease PeerModel PeerNode PeerService PeerServiceRuns.

Local Open Scope N_scope.

Section Logic.
Context (store : ObjectStore).

(** What a thread may assume of an answer: a cell that belongs to a lease
    holds only Core leases of that lease's owner, and a cursor that was put
    back is on its object. *)
Definition plausible_section (m : Watch) {A} (s : Sec A) : A → Prop :=
  match s in Sec A return A → Prop with
  | SecTakeCursor _ evidence_id => λ r, from_option (on_object store evidence_id) True r
  | SecCells cell => λ cells, ∀ lease_id lease, knows_cell m cell lease_id →
      bc_core_lease cells = Some lease → dl_owner_id lease = lease_id
  | _ => λ _, True
  end.

Definition plausible (m : Watch) {R} (e : SE R) : R → Prop :=
  match e in SE R return R → Prop with
  | InSection A s => plausible_section m s
  | OnCore A c => core_answers store c
  | _ => λ _, True
  end.

Context (t : Task).

Fixpoint safe {A} (Q : Watch → A → Prop) (m : Watch) (p : svc A) : Prop :=
  match p with
  | Ret a => Q m a
  | Step R e k => permitted store t m e ∧
      (∀ r, plausible m e r → safe Q (watch t m (mkEv R e r)) (k r))
  end.

Lemma safe_mono {A} (Q Q' : Watch → A → Prop) m p :
  safe Q m p → (∀ m a, Q m a → Q' m a) → safe Q' m p.
Proof.
  intros Hp HQ. revert m Hp. induction p as [a|R e k IH]; cbn; [auto|].
  intros m [He Hk]. split; [done|]. intros r Hr. by apply IH, Hk.
Qed.

Lemma safe_bind {A B} (Q : Watch → B → Prop) m (p : svc A) f :
  safe (λ m a, safe Q m (f a)) m p → safe Q m (p ≫= f).
Proof.
  revert m. induction p as [a|R e k IH]; cbn; [done|].
  intros m [He Hk]. split; [done|]. intros r Hr. by apply IH, Hk.
Qed.

Lemma safe_try {E A B} (Q : Watch → result E B → Prop) m (p : svc (result E A)) f :
  safe (λ m r, match r with Ok a => safe Q m (f a) | Err e => Q m (Err e) end) m p →
  safe Q m (try_bind f p).
Proof. intros Hp. apply safe_bind. eapply safe_mono; [exact Hp|]. by intros ? []. Qed.

Lemma safe_perform {R} (Q : Watch → R → Prop) m (e : SE R) :
  permitted store t m e → (∀ r, plausible m e r → Q (watch t m (mkEv R e r)) r) → safe Q m (perform e).
Proof. done. Qed.

(** ** Programs that need no permission *)

(** Effects that are always permitted *)
Definition uncritical {R} (e : SE R) : bool :=
  match e with
  | OnCore _ (CConnect _ _) | OnCore _ (CObserve _ _) | OnCore _ (CExecute _ _ _)
  | InSection _ (SecAllow _ _) | InSection _ (SecPublishLease _ _)
  | InSection _ (SecPutCursor _ _ _) => false
  | _ => true
  end.

Fixpoint harmless {A} (p : svc A) : Prop :=
  match p with
  | Ret _ => True
  | Step R e k => uncritical e = true ∧ ∀ r, harmless (k r)
  end.

Lemma harmless_safe {A} m (p : svc A) : harmless p → safe (λ _ _, True) m p.
Proof.
  revert m. induction p as [a|R e k IH]; [done|]. intros m [He Hk]. split; [|auto].
  destruct e as [? []|? []| | | | | |]; done.
Qed.
End Logic.

Lemma harmless_bind {A B} (p : svc A) (f : A → svc B) :
  harmless p → (∀ a, harmless (f a)) → harmless (p ≫= f).
Proof. intros Hp Hf. induction p as [a|R e k IH]; [apply Hf|]. destruct Hp as [? Hk].
  split; [done|]. intros r. apply IH, Hk.
Qed.

Lemma harmless_try {E A B} (p : svc (result E A)) (f : A → svc (result E B)) :
  harmless p → (∀ a, harmless (f a)) → harmless (try_bind f p).
Proof. intros Hp Hf. apply harmless_bind; [done|]. intros []; [apply Hf|done]. Qed.

Lemma harmless_effect {R} (e : SE R) : uncritical e = true → harmless (perform e).
Proof. done. Qed.
Lemma harmless_sec {A} (s : Sec A) : uncritical (InSection A s) = true → harmless (sec s).
Proof. done. Qed.
Lemma harmless_core {A} (c : CoreCall A) : uncritical (OnCore A c) = true → harmless (core c).
Proof. done. Qed.
Lemma harmless_sec_try {E A} (f : E → PeerError) (s : Sec (result E A)) :
  uncritical (InSection _ s) = true → harmless (sec_try f s).
Proof. done. Qed.
Lemma harmless_core_try {E A} (f : E → PeerError) (c : CoreCall (result E A)) :
  uncritical (OnCore _ c) = true → harmless (core_try f c).
Proof. done. Qed.
Lemma harmless_require b code r : harmless (require b code r).
Proof. by destruct b. Qed.
Lemma harmless_require_some {A} (o : option A) code r u : harmless (require_some o code r u).
Proof. by destruct o. Qed.

Create HintDb harmless.
#[export] Hint Resolve harmless_effect harmless_sec harmless_core harmless_sec_try harmless_core_try
  harmless_require harmless_require_some : harmless.
#[export] Hint Extern 1 (uncritical _ = true) => reflexivity : harmless.

(** Walks through a program whose effects are all harmless. *)
Ltac harmless :=
  repeat (intros; first
    [ solve [auto with harmless nocore]
    | exact I
    | apply harmless_try | apply harmless_bind
    | match goal with |- harmless (match ?x with _ => _ end) => destruct x end ]).

Section Harmless.
Context (cfg : NodeConfig) (store : ObjectStore).
Context (registry_display : RegistryError → string) (display : EventStoreError → string).
Context (uuid_text : Uuid → string).

Lemma harmless_authorize lease : harmless (authorize lease).
Proof. unfold authorize, now_ms. harmless. Qed.
#[local] Hint Resolve harmless_authorize : harmless.

Lemma harmless_connection lease connection_id :
  harmless (require_lease_connection lease connection_id).
Proof. unfold require_lease_connection. harmless. Qed.
#[local] Hint Resolve harmless_connection : harmless.

Lemma harmless_ensure_active c : harmless (ensure_active c).
Proof. unfold ensure_active. harmless. Qed.
Lemma harmless_selected {A} (s : Selected A) : harmless (selected s).
Proof. by destruct s. Qed.
#[local] Hint Resolve harmless_ensure_active harmless_selected : harmless.

Lemma harmless_lock lease connection_id c active :
  harmless (lock_issued_lease lease connection_id c active).
Proof. unfold lock_issued_lease. harmless. Qed.
#[local] Hint Resolve harmless_lock : harmless.

Lemma harmless_with_gate {A} lease connection_id c active (body : PeerM A) :
  harmless body → harmless (with_gate lease connection_id c active body).
Proof. unfold with_gate. harmless. Qed.

Lemma harmless_release_owner lease : harmless (release_core_owner_leases lease).
Proof. unfold release_core_owner_leases, now_ms. harmless. Qed.
#[local] Hint Resolve harmless_release_owner : harmless.

Lemma harmless_staged b stage is_done body : harmless body → harmless (staged b stage is_done body).
Proof. unfold staged. harmless. Qed.

Lemma harmless_disconnect b c : harmless (disconnect_binding registry_display display uuid_text b c).
Proof. unfold disconnect_binding, now_ms. harmless. Qed.
Lemma harmless_end_session b : harmless (end_binding_session display uuid_text b).
Proof. unfold end_binding_session, now_ms. harmless. Qed.
#[local] Hint Resolve harmless_disconnect harmless_end_session : harmless.

Lemma harmless_cleanup_locked lease connection_id c :
  harmless (cleanup_binding_locked registry_display display uuid_text lease connection_id c).
Proof.
  unfold cleanup_binding_locked, now_ms.
  harmless; apply harmless_staged; harmless.
Qed.
#[local] Hint Resolve harmless_cleanup_locked : harmless.

Lemma harmless_cleanup_binding lease connection_id c :
  harmless (cleanup_binding registry_display display uuid_text lease connection_id c).
Proof. apply harmless_with_gate. harmless. Qed.
Lemma harmless_revoke lease connection_id c :
  harmless (cleanup_and_revoke registry_display display uuid_text lease connection_id c).
Proof. apply harmless_with_gate. harmless. Qed.
#[local] Hint Resolve harmless_cleanup_binding harmless_revoke : harmless.

Lemma harmless_reap expired c : harmless (reap registry_display display uuid_text expired c).
Proof. induction expired; cbn [reap]; harmless. Qed.
Lemma harmless_new_control timeout_ms : harmless (new_control timeout_ms).
Proof. unfold new_control. harmless. Qed.
#[local] Hint Resolve harmless_reap harmless_new_control : harmless.

Lemma harmless_release_all ls c : harmless (release_all registry_display display uuid_text ls c).
Proof. induction ls; cbn [release_all]; harmless. Qed.
Lemma harmless_cancel_requests keys : harmless (cancel_requests keys).
Proof. induction keys; cbn [cancel_requests]; harmless. Qed.
#[local] Hint Resolve harmless_release_all harmless_cancel_requests : harmless.

Lemma harmless_release_connection connection_id :
  harmless (release_connection registry_display display uuid_text connection_id).
Proof. unfold release_connection. harmless. Qed.
Lemma harmless_shutdown : harmless (shutdown registry_display display uuid_text).
Proof. unfold shutdown. harmless. Qed.

Lemma harmless_rollback lease connection_id e :
  harmless (rollback_connect_error registry_display display uuid_text lease connection_id e).
Proof. unfold rollback_connect_error. harmless. Qed.
#[local] Hint Resolve harmless_rollback : harmless.

Lemma harmless_resolve key : harmless (resolve cfg registry_display key).
Proof. unfold resolve. harmless. Qed.
#[local] Hint Resolve harmless_resolve : harmless.
Lemma harmless_probe ids c : harmless (probe ids c).
Proof. induction ids; cbn [probe]; harmless. Qed.
#[local] Hint Resolve harmless_probe : harmless.
Lemma harmless_health c : harmless (health cfg c).
Proof. unfold health, now_ms. harmless. Qed.

Lemma harmless_lease_acquire key owner_id ttl_ms subject connection_id c :
  harmless (lease_acquire registry_display display uuid_text key owner_id ttl_ms subject connection_id c).
Proof. unfold lease_acquire, reap_expired_device, now_ms. harmless. Qed.
Lemma harmless_lease_renew lease ttl_ms subject connection_id c :
  harmless (lease_renew lease ttl_ms subject connection_id c).
Proof. unfold lease_renew, require_lease_subject, with_gate, now_ms. harmless. Qed.
Lemma harmless_lease_release lease subject connection_id c :
  harmless (lease_release registry_display display uuid_text lease subject connection_id c).
Proof. unfold lease_release, require_lease_subject, with_gate, now_ms. harmless. Qed.
#[local] Hint Resolve harmless_health harmless_lease_acquire harmless_lease_renew
  harmless_lease_release harmless_cleanup_binding : harmless.

(** ** Holding the gate *)

Section Handlers.
Context (encode_operation : PeerOperation → option (list N)) (base64 : list N → string).
Context (r : PeerRequest) (subject : string) (connection_id : Uuid).
#[local] Abbreviation t := (HandleRequest r subject connection_id).
#[local] Abbreviation done := (λ _ _, True).

Lemma safe_harmless {A} m (p : svc A) : harmless p → safe store t done m p.
Proof. apply harmless_safe. Qed.

(** A postcondition that every watch satisfies *)
Lemma safe_any {A} (Q : Watch → A → Prop) m p :
  safe store t done m p → (∀ m a, Q m a) → safe store t Q m p.
Proof. intros Hp HQ. eapply safe_mono; [exact Hp|]. auto. Qed.

(** Once the gate of a lease is locked, the lease is confirmed and authorized. *)
Lemma safe_lock lease c m :
  safe store t (λ m a, match a with Ok _ => wt_authorized m = Some lease | Err _ => True end) m
    (lock_issued_lease lease connection_id c true).
Proof.
  unfold lock_issued_lease, sec. apply safe_bind, safe_perform; [done|]. intros [gate|] _; [|done].
  cbn [require_some try_bind]. apply safe_try. cbn [mret prog_ret safe].
  apply safe_try. eapply safe_mono; [apply harmless_safe, harmless_ensure_active|].
  intros m1 [[]|e] _; [|done]. apply safe_bind, safe_perform; [done|]. intros [[]| |] _; try done.
  apply safe_try. cbn [selected mret prog_ret safe]. apply safe_bind, safe_try.
  unfold require_lease_connection, sec. apply safe_bind, safe_perform; [done|].
  intros [gate'|] _; cbn; [|done]. split; [done|]. intros now _. split; [done|]. intros at_ _.
  split; [done|]. intros [[]|e] _; cbn; [|done]. rewrite bool_decide_true by done.
  unfold authorized. cbn. by rewrite bool_decide_true.
Qed.

Lemma safe_with_gate {A} lease c m (body : PeerM A) :
  (∀ m, wt_authorized m = Some lease → safe store t done m body) →
  safe store t done m (with_gate lease connection_id c true body).
Proof.
  intros Hbody. unfold with_gate. apply safe_try.
  eapply safe_mono; [apply safe_lock|]. intros m1 [gate|e] Hm; [|done].
  apply safe_bind. eapply safe_mono; [by apply Hbody|]. intros m2 a _. done.
Qed.

(** The lease of the request, as [authorized_lease] returns it *)
Definition carries (lease : PeerLease) : Prop :=
  pr_lease r = Some lease ∧ pl_owner_id lease = subject ∧
  device_key (pr_operation r) = Some (pl_device_key lease).

Lemma safe_authorized_lease (Q : Watch → result PeerError PeerLease → Prop) m :
  request_validate r = Ok () →
  (∀ m a, match a with Ok lease => carries lease | Err _ => True end → Q m a) →
  safe store t Q m (authorized_lease r subject connection_id).
Proof.
  intros Hv HQ. eapply safe_mono; [|exact HQ]. unfold authorized_lease, require_lease_subject.
  destruct (pr_lease r) as [lease|] eqn:Hl; [|done]. apply safe_try. cbn [require_some mret prog_ret safe].
  destruct (String.eqb_spec (pl_owner_id lease) subject) as [Ho|]; [|done].
  apply safe_try. cbn [require mret prog_ret safe]. apply safe_try.
  eapply safe_mono; [apply harmless_safe, harmless_connection|]. intros m1 [[]|] _; [|done].
  apply safe_try. eapply safe_mono; [apply harmless_safe, harmless_authorize|].
  intros m2 [[]|] _; [|done]. split; [done|]. split; [done|].
  unfold request_validate in Hv. rewrite Hl in Hv. inv_result. by inv_bools.
Qed.

Lemma operates_carried lease m a :
  carries lease → wt_authorized m = Some lease → wt_access m = Some (a, core_owner lease) →
  operates t m a.
Proof. intros (Hl & Ho & Hk). unfold operates. rewrite Hl. done. Qed.

(** What an operation keeps of the watch while it gets its access *)
Definition gated (lease : PeerLease) (call : option Uuid) (m : Watch) : Prop :=
  wt_authorized m = Some lease ∧ wt_call m = call.

(** [SecPublishLease] of a lease that Core granted to this lease's owner *)
Lemma safe_publish_lease b lease core_lease call m (Q : Watch → () → Prop) :
  gated lease call m → (b, pl_lease_id lease) ∈ wt_bindings m →
  dl_owner_id core_lease = core_owner lease → Q m () →
  safe store t Q m (sec (SecPublishLease (bd_cells b) core_lease)).
Proof.
  intros Hm Hb Ho HQ. apply safe_perform; [|by intros [] _]. exists b. by rewrite Ho.
Qed.

Lemma safe_access h core_lease lease call m (Q : Watch → result PeerError AccessId → Prop) :
  gated lease call m → dl_owner_id core_lease = core_owner lease →
  (∀ m a, gated lease call m → wt_access m = Some (a, core_owner lease) → Q m (Ok a)) →
  (∀ m e, Q m (Err e)) →
  safe store t Q m (access_with_lease h core_lease).
Proof.
  intros Hm Ho HQ HE. split; [done|]. intros now _. split; [done|]. intros [a|e] _; cbn; [|apply HE].
  apply HQ; [done|]. cbn. by rewrite Ho.
Qed.

(** The grant of Core, published in the cell of a binding the thread saw *)
Lemma safe_acquire_core h lease call m (Q : Watch → result DevicePoolError DeviceLease → Prop) :
  gated lease call m →
  (∀ l, dl_owner_id l = core_owner lease → Q m (Ok l)) → (∀ e, Q m (Err e)) →
  safe store t Q m (acquire_core_lease h lease).
Proof. intros Hm HQ HE. split; [done|]. intros now _. split; [done|]. intros [l|e] Hl; cbn; auto. Qed.

Lemma safe_renewed_binding lease call m :
  gated lease call m →
  safe store t (λ m a, match a with
    | Ok b => gated lease call m ∧ (b, pl_lease_id lease) ∈ wt_bindings m
    | Err _ => True end) m (renewed_binding registry_display lease connection_id).
Proof.
  intros Hm. unfold renewed_binding. apply safe_bind, safe_perform; [done|]. intros [b|] _; [|done].
  apply safe_try. cbn [require_some mret prog_ret safe]. apply safe_try.
  destruct (binds b lease connection_id); [|done]. cbn [require mret prog_ret safe].
  apply safe_bind, safe_perform; [done|]. intros cells _. apply safe_try.
  destruct (cp_started _); [done|]. cbn [require negb mret prog_ret safe].
  apply safe_try. split; [done|]. intros [h|] _; [|done]. cbn [map_err mret prog_ret safe].
  apply safe_bind. eapply safe_acquire_core; [done| |done]. intros l Ho.
  apply safe_try. cbn [map_err mret prog_ret safe]. apply safe_bind.
  eapply (safe_publish_lease b lease l call); [done|by left|done|]. split; [done|by left].
Qed.

Lemma safe_operation_access lease call m :
  gated lease call m →
  safe store t (λ m a, match a with
    | Ok (b, access) => gated lease call m ∧ wt_access m = Some (access, core_owner lease)
    | Err _ => True end) m (operation_access registry_display lease connection_id).
Proof.
  intros Hm. unfold operation_access. apply safe_try.
  eapply safe_mono; [by apply safe_renewed_binding|]. intros m1 [b|] Hb; [|done].
  destruct Hb as [Hm1 Hb]. apply safe_try. split; [done|]. intros [h|] _; [|done].
  cbn [map_err mret prog_ret safe]. apply safe_bind, safe_perform; [done|]. intros cells Hcells.
  apply safe_try. destruct (bc_core_lease cells) as [l|] eqn:Hl; [|done].
  cbn [require_some mret prog_ret safe]. apply safe_try.
  eapply (safe_access _ _ lease call); [done| | |done].
  - eapply Hcells; [|done]. by exists b.
  - intros m2 a Hm2 Ha. done.
Qed.

(** ** The handlers *)

Lemma leases_carried lease : carries lease → leases t (pl_lease_id lease).
Proof. intros (Hl & _ & _). unfold leases. by rewrite Hl. Qed.

Lemma action_ids_rewrite key a : action_ids (rewrite_action_result key a) = action_ids a.
Proof. unfold action_ids. by destruct a as [??? ? [] [] ? ?]. Qed.

(** An operation that may add evidence to what the lease may read *)
Lemma safe_allow {B} lease ids m (k : PeerM B) :
  carries lease → wt_ids m = Some ids → harmless k →
  safe store t done m (try! sec (SecAllow (pl_lease_id lease) ids); k).
Proof.
  intros Hl Hids Hk. apply safe_try, safe_perform; [by split; [apply leases_carried|]|].
  intros [[]|] _; [|done]. by apply harmless_safe.
Qed.

Lemma safe_observe key lease omission ui semantic c m :
  carries lease →
  safe store t done m (observe registry_display display uuid_text key lease connection_id omission ui semantic c).
Proof.
  intros Hl. unfold observe. apply safe_bind, safe_perform; [done|]. intros policy _.
  apply safe_try. destruct (_ || _); [|done]. cbn [require mret prog_ret safe].
  apply safe_with_gate. intros m1 Hm1. apply safe_try.
  eapply safe_mono; [by apply (safe_operation_access lease (wt_call m1))|].
  intros m2 [[b access]|] Hm2; [|done]. destruct Hm2 as [[Hm2 _] Ha].
  apply safe_bind. eapply safe_any; [|intros; apply harmless_safe; harmless].
  apply safe_try. split; [by apply (operates_carried lease)|]. intros [o|] _; [|done].
  cbn [map_err mret prog_ret safe]. by apply safe_allow.
Qed.

Lemma safe_execute_first key lease omission ui semantic call c m :
  carries lease → gated lease (Some (call_id call)) m →
  safe store t done m (execute_first cfg registry_display display uuid_text key lease connection_id
    omission ui semantic call c).
Proof.
  intros Hl Hm. unfold execute_first. apply safe_try. destruct (nc_devices cfg !! key); [|done].
  cbn [require_some mret prog_ret safe]. apply safe_try. split; [done|]. intros [declared|] _; [|done].
  cbn [map_err mret prog_ret safe]. apply safe_try. destruct declared as [protection|]; [|done].
  cbn [require_some mret prog_ret safe]. apply safe_bind.
  apply (safe_mono _ _ (λ m' _, m' = m)); [by destruct protection|]. intros m' expected ->.
  apply safe_try. destruct (_ || _); [|done]. cbn [require mret prog_ret safe]. apply safe_try.
  eapply safe_mono; [by apply safe_operation_access|].
  intros m2 [[b access]|] Hm2; [|done]. destruct Hm2 as [[Hm2 Hc] Ha].
  apply safe_bind. eapply safe_any; [|intros; apply harmless_safe; harmless].
  apply safe_try. split; [by split; [apply (operates_carried lease)|]|]. intros [o|] _; [|done].
  cbn [map_err mret prog_ret safe]. apply safe_allow; [done| |done]. by rewrite action_ids_rewrite.
Qed.

Lemma safe_execute fingerprint key lease omission ui semantic call c m :
  carries lease →
  safe store t done m (execute cfg registry_display display uuid_text fingerprint key lease connection_id
    omission ui semantic call c).
Proof.
  intros Hl. unfold execute. apply safe_with_gate. intros m1 Hm1.
  apply safe_bind, safe_perform; [done|]. intros [] _; [|apply harmless_safe; harmless..].
  apply safe_bind, safe_perform; [done|]. intros [] _. apply safe_bind.
  eapply safe_any; [by apply safe_execute_first|]. intros. apply harmless_safe. harmless.
Qed.

Lemma safe_connect_device access c lease m :
  carries lease → wt_authorized m = Some lease → wt_access m = Some (access, core_owner lease) →
  safe store t done m (connect_device display uuid_text access c).
Proof.
  intros Hl Hm Ha. apply safe_bind. split; [by apply (operates_carried lease)|]. intros [] _; done.
Qed.

Lemma harmless_start_session b lease :
  harmless (start_binding_session registry_display display uuid_text b lease connection_id).
Proof. unfold start_binding_session. harmless. Qed.
#[local] Hint Resolve harmless_start_session : harmless.

(** [reconnect] and [first_connect] from the grant of Core on *)
Lemma safe_granted {A} h l lease b call c m (k : result PeerError DeviceInfo → PeerM A) :
  carries lease → gated lease call m → (b, pl_lease_id lease) ∈ wt_bindings m →
  dl_owner_id l = core_owner lease → (∀ a, harmless (k a)) →
  safe store t done m (_ ← sec (SecPublishLease (bd_cells b) l);
                 access ←? access_with_lease h l;
                 connected ← connect_device display uuid_text access c; k connected).
Proof.
  intros Hl Hm Hb Ho Hk. apply safe_bind. eapply safe_publish_lease; [done..|]. apply safe_try.
  eapply (safe_access _ _ lease call); [done..| |done]. intros m1 a [Hm1 _] Ha.
  apply safe_bind. eapply safe_any; [by apply (safe_connect_device _ _ lease)|].
  intros. apply harmless_safe, Hk.
Qed.

Lemma safe_reconnect b key lease c m :
  carries lease → wt_authorized m = Some lease → (b, pl_lease_id lease) ∈ wt_bindings m →
  safe store t done m (reconnect registry_display display uuid_text b key lease connection_id c).
Proof.
  intros Hl Hm Hb. unfold reconnect. apply safe_try.
  destruct (binds b lease connection_id); [|done]. cbn [require mret prog_ret safe].
  apply safe_bind, safe_perform; [done|]. intros cells _.
  apply safe_try. destruct (cp_started _); [done|]. cbn [require negb mret prog_ret safe].
  apply safe_bind, safe_perform; [done|]. intros cells' _. apply safe_try. split; [done|].
  intros [h|] _; [|done]. cbn [map_err mret prog_ret safe]. apply safe_bind.
  eapply (safe_acquire_core _ _ (wt_call m)); [done| |done]. intros l Ho.
  apply safe_try. cbn [map_err mret prog_ret safe].
  by eapply (safe_granted h l lease b (wt_call m)); [..|harmless].
Qed.

Lemma safe_first_connect key lease c m :
  carries lease → wt_authorized m = Some lease →
  safe store t done m (first_connect cfg registry_display display uuid_text key lease connection_id c).
Proof.
  intros Hl Hm. unfold first_connect, resolve, now_ms. apply safe_try, safe_try.
  destruct (nc_devices cfg !! key); [|done]. cbn [require_some mret prog_ret safe].
  split; [done|]. intros [h|] _; [|done]. cbn [map_err mret prog_ret safe]. apply safe_try.
  split; [done|]. intros [[]|] _; [|done]. cbn [map_err mret prog_ret safe].
  apply safe_bind, safe_perform; [done|]. intros checked_at _.
  apply safe_bind, safe_perform; [done|]. intros now _. apply safe_try.
  split; [done|]. intros [[]|] _; [|done]. cbn [map_err mret prog_ret safe].
  apply safe_bind, safe_perform; [done|]. intros sid _.
  apply safe_bind, safe_perform; [done|]. intros started_at _.
  apply safe_bind, safe_perform; [done|]. intros [b|] _; [|done]. apply safe_try.
  cbn [require_some mret prog_ret safe]. apply safe_bind.
  eapply (safe_acquire_core _ _ (wt_call m)); [done| |intros; apply harmless_safe; harmless].
  intros l Ho. eapply (safe_granted h l lease b (wt_call m)); [done|done|by left|done|harmless].
Qed.

Lemma safe_connect key lease c m :
  carries lease →
  safe store t done m (connect cfg registry_display display uuid_text key lease connection_id c).
Proof.
  intros Hl. unfold connect. apply safe_with_gate. intros m1 Hm1.
  apply safe_bind, safe_perform; [done|]. intros [b|] _.
  - apply safe_reconnect; [done..|by left].
  - by apply safe_first_connect.
Qed.

(** ** Reading evidence *)

Lemma safe_open_cursor evidence_id digest offset m :
  evidence_digest evidence_id = Some digest →
  safe store t (λ m' a, m' = m ∧ match a with
    | Ok cursor => on_object store evidence_id cursor ∧ cu_offset cursor = offset
    | Err _ => True end) m (open_evidence_cursor uuid_text digest offset).
Proof.
  intros Hd. unfold open_evidence_cursor. apply safe_try. split; [done|]. intros [meta|] Hmeta; [|done].
  destruct Hmeta as [Hmedia Hlen]. cbn [map_err mret prog_ret safe]. apply safe_try.
  destruct (_ || _); [done|]. cbn [require negb mret prog_ret safe]. apply safe_try.
  destruct (N.ltb_spec offset (em_byte_length meta)) as [Hlt|]; [|done].
  cbn [require mret prog_ret safe]. apply safe_try. split; [done|]. intros [body|] Hbody; [|done].
  cbn in Hbody. subst body. cbn [map_err mret prog_ret safe].
  assert (on_object store evidence_id (mkEvidenceReadCursor digest (em_media_type meta)
    (em_byte_length meta) offset (drop (N.to_nat offset) (snd (store digest))))) as Hon.
  { unfold on_object. cbn. destruct (store digest). cbn in *. split_and!; done || lia. }
  apply safe_try. destruct (0 <? offset); [|done]. apply safe_bind, safe_perform; [done|].
  intros works _. apply safe_try. destruct works; [|done]. cbn [require mret prog_ret safe].
  by destruct (offset <=? _).
Qed.

Lemma safe_resume_cursor cell evidence_id digest offset m :
  evidence_digest evidence_id = Some digest →
  safe store t (λ m' a, m' = m ∧ match a with
    | Ok cursor => on_object store evidence_id cursor ∧ cu_offset cursor = offset
    | Err _ => True end) m (resume_cursor uuid_text cell evidence_id digest offset).
Proof.
  intros Hd. unfold resume_cursor. apply safe_bind, safe_perform; [done|].
  intros [cursor|] Hcursor; [|by apply safe_open_cursor].
  destruct (N.eqb_spec (cu_offset cursor) offset); cbn [andb]; [|by apply safe_open_cursor].
  destruct (String.eqb _ _); [done|by apply safe_open_cursor].
Qed.

(** The chunk a cursor gives off, in terms of the object *)
Lemma chunk_of_body max_bytes offset (body : list N) :
  let size := N.min max_bytes (len body - offset) in
  let chunk := take (N.to_nat max_bytes) (drop (N.to_nat offset) body) in
  take (N.to_nat size) (drop (N.to_nat offset) body) = chunk ∧ len chunk = size ∧
  drop (N.to_nat size) (drop (N.to_nat offset) body) = drop (N.to_nat (offset + size)) body.
Proof.
  cbn zeta. unfold len. rewrite length_take, length_drop, drop_drop. split_and!; [|lia|f_equal; lia].
  destruct (N.le_gt_cases max_bytes (N.of_nat (length body) - offset)).
  - by rewrite N.min_l by lia.
  - rewrite !take_ge by (rewrite length_drop; lia). done.
Qed.

Lemma safe_read_chunk cell evidence_id offset max_bytes cursor m :
  on_object store evidence_id cursor → cu_offset cursor = offset →
  safe store t (λ m' a, m' = m ∧ match a with
    | Ok res => serves base64 store evidence_id offset max_bytes res
    | Err _ => True end) m (read_chunk base64 cell evidence_id offset max_bytes cursor).
Proof.
  intros Hon <-. unfold read_chunk. apply safe_bind, safe_perform; [done|]. intros works _.
  apply safe_try. destruct (_ && _) eqn:Hsize; [|done]. cbn [require mret prog_ret safe].
  clear Hsize. unfold on_object, serves in *.
  destruct (store (cu_digest cursor)) as [media body] eqn:Hstore.
  destruct Hon as (Hd & Hmedia & Htotal & Hlt & Hbody). rewrite Hmedia, Htotal, Hbody.
  destruct (chunk_of_body max_bytes (cu_offset cursor) body) as (-> & Hchunk & ->).
  set (size := N.min max_bytes (len body - cu_offset cursor)) in *. apply safe_try.
  set (final := PR_EvidenceChunk _ _ _ _ _ _ _).
  assert (∃ d, evidence_digest evidence_id = Some d ∧ (let '(media_type, body) := store d in
    let chunk := take (N.to_nat max_bytes) (drop (N.to_nat (cu_offset cursor)) body) in
    cu_offset cursor < len body ∧ final = PR_EvidenceChunk evidence_id media_type (len body)
      (cu_offset cursor) (base64 chunk) (Some d) (cu_offset cursor + len chunk =? len body))) as Hfinal.
  { exists (cu_digest cursor). rewrite Hstore. split; [done|]. cbn zeta. by rewrite Hchunk. }
  destruct (N.eqb_spec (cu_offset cursor + size) (len body)) as [|Hne].
  - apply safe_bind, safe_perform; [done|]. intros [] _; [|done]. apply safe_try.
    cbn [require mret prog_ret safe]. by destruct (_ =? 0).
  - apply safe_bind, safe_perform; [|by intros [] _]. unfold permitted, on_object.
    cbn [cu_digest cu_media_type cu_total_size cu_offset cu_body]. rewrite Hstore.
    split_and!; [done..| |done]. lia.
Qed.

(** What a finished evidence request may have returned *)
Definition disclosed (lease_id : Uuid) (evidence_id : string) (offset max_bytes : N) (m : Watch)
    (a : result PeerError PeerResult) : Prop :=
  match a with
  | Ok res => serves base64 store evidence_id offset max_bytes res ∧
      ∃ b, (b, lease_id) ∈ wt_bindings m ∧ evidence_id ∈ bd_allowed_evidence b
  | Err _ => True
  end.

Lemma safe_read_evidence lease evidence_id offset max_bytes m :
  safe store t (disclosed (pl_lease_id lease) evidence_id offset max_bytes) m
    (read_evidence_chunk base64 uuid_text lease connection_id evidence_id offset max_bytes).
Proof.
  unfold read_evidence_chunk. apply safe_bind, safe_perform; [done|]. intros [b|] _; [|done].
  apply safe_try. cbn [require_some mret prog_ret safe]. apply safe_try.
  destruct (_ && _) eqn:Hallowed; [|done]. cbn [require mret prog_ret safe].
  apply andb_true_iff in Hallowed as [_ Hid%bool_decide_eq_true].
  apply safe_bind, safe_perform; [done|]. intros cells _. apply safe_try.
  destruct (cp_started _); [done|]. cbn [require negb mret prog_ret safe]. apply safe_try.
  destruct (evidence_digest evidence_id) as [digest|] eqn:Hd; [|done].
  cbn [require_some mret prog_ret safe]. apply safe_try.
  eapply safe_mono; [by apply safe_resume_cursor|]. intros m1 [cursor|] [-> Hcursor]; [|done].
  destruct Hcursor. eapply safe_mono; [by apply safe_read_chunk|].
  intros m2 [res|] [-> Hres]; [|done]. split; [done|]. exists b. split; [by left|done].
Qed.

Lemma safe_abortable {A} (Q : Watch → result PeerError A → Prop) c m (p : PeerM A) :
  safe store t Q m p → (∀ m e, Q m (Err e)) → safe store t Q m (abortable c p).
Proof.
  intros Hp HE. revert m Hp. induction p as [a|R e k IH]; intros m; [done|]. intros [He Hk].
  split; [done|]. intros [[]| |] _; [|apply HE..]. cbn. split; [done|]. intros a Ha. by apply IH, Hk.
Qed.

Lemma safe_evidence_chunk lease evidence_id offset max_bytes c m :
  safe store t (disclosed (pl_lease_id lease) evidence_id offset max_bytes) m
    (evidence_chunk base64 uuid_text lease connection_id evidence_id offset max_bytes c).
Proof.
  unfold evidence_chunk, with_gate. apply safe_try.
  eapply safe_mono; [apply harmless_safe, harmless_ensure_active|]. intros m1 [[]|] _; [|done].
  apply safe_try. eapply safe_mono; [apply harmless_safe, harmless_lock|]. intros m2 [gate|] _; [|done].
  apply safe_bind. eapply safe_mono; [apply safe_abortable; [apply safe_read_evidence|done]|].
  intros m3 a Ha. split; [done|]. by intros [] _.
Qed.

(** What an evidence request promises of its result *)
Definition justified (m : Watch) (res : PeerResult) : Prop :=
  match pr_operation r with
  | PO_EvidenceRead _ evidence_id offset max_bytes =>
      ∃ lease, carries lease ∧
        disclosed (pl_lease_id lease) evidence_id offset max_bytes m (Ok res)
  | _ => True
  end.
Definition reads_evidence : bool :=
  match pr_operation r with PO_EvidenceRead _ _ _ _ => true | _ => false end.
Definition answered (m : Watch) (a : result PeerError PeerResult) : Prop :=
  match a with Ok res => justified m res | Err _ => True end.

Lemma safe_unrelated m p : reads_evidence = false → safe store t done m p → safe store t answered m p.
Proof.
  intros Hr Hp. eapply safe_mono; [exact Hp|]. intros ? [] _; [|done].
  unfold answered, justified, reads_evidence in *. by destruct (pr_operation r).
Qed.

Lemma harmless_with_lease {A} (f : PeerLease → PeerM A) m :
  request_validate r = Ok () → (∀ lease m, carries lease → safe store t done m (f lease)) →
  safe store t done m (try_bind f (authorized_lease r subject connection_id)).
Proof.
  intros Hv Hf. apply safe_try, safe_authorized_lease; [done|]. intros m' [lease|] Hl; [|done]. auto.
Qed.

Lemma safe_dispatch c m :
  request_validate r = Ok () →
  safe store t answered m (dispatch cfg encode_operation base64 registry_display display uuid_text
    r subject connection_id c).
Proof.
  intros Hv. unfold dispatch. apply safe_bind, safe_perform; [done|]. intros ready _.
  cbn [watch watch_section]. apply safe_try. destruct (_ || _); [|done]. cbn [require mret prog_ret safe].
  assert (reads_evidence = true ∨ reads_evidence = false) as [Hr|Hr] by (destruct reads_evidence; auto).
  - revert Hr. unfold reads_evidence, answered, justified. destruct (pr_operation r); try done.
    intros _. apply safe_try. apply safe_authorized_lease; [done|]. intros m' [lease|] Hl; [|done].
    eapply safe_mono; [apply safe_evidence_chunk|]. intros m2 [res|] Ha; [|done]. by exists lease.
  - apply safe_unrelated; [done|]. revert Hr. unfold reads_evidence.
    destruct (pr_operation r) eqn:Ho; try done; intros _;
      try (apply harmless_safe; by (unfold now_ms; harmless));
      apply harmless_with_lease; try done; intros lease m' Hl.
    + apply safe_try. eapply safe_any; [by apply safe_connect|]. by intros ? [].
    + apply harmless_safe. harmless.
    + apply safe_try. eapply safe_any; [by apply safe_observe|]. by intros ? [].
    + apply safe_try. destruct (encode_operation _); [|done]. cbn [require_some mret prog_ret safe].
      by apply safe_execute.
Qed.

(** What a finished thread may have returned *)
Definition finished (m : Watch) (o : Outcome) : Prop :=
  match o with
  | Responded (Ok response) => from_option (justified m) True (ps_result response)
  | _ => True
  end.

Lemma safe_handle_admitted m :
  request_validate r = Ok () →
  safe store t (λ m a, finished m (Responded a)) m
    (handle_admitted cfg encode_operation base64 registry_display display uuid_text r subject
      connection_id).
Proof.
  intros Hv. unfold handle_admitted. destruct (_ <? _); [done|]. apply safe_bind.
  eapply safe_mono; [apply harmless_safe, harmless_new_control|]. intros m1 c _.
  apply safe_bind, safe_perform; [done|]. intros [] _; [|done]. apply safe_bind.
  eapply safe_mono; [by apply safe_dispatch|]. intros m2 a Ha. apply safe_bind, safe_perform; [done|].
  intros [] _. by destruct a.
Qed.

Lemma safe_handle m :
  safe store t (λ m a, finished m (Responded a)) m
    (handle_inner cfg encode_operation base64 registry_display display uuid_text r subject
      connection_id).
Proof.
  unfold handle_inner. destruct (is_err (request_validate r)) eqn:Hv; [done|].
  assert (request_validate r = Ok ()) as Hok by (by destruct (request_validate r) as [[]|]).
  destruct (_ || _); [done|]. destruct (_ && _); [done|].
  destruct (pr_operation r) eqn:Ho; try by apply safe_handle_admitted.
  apply safe_bind, safe_perform; [done|]. intros [] _; [|done]. cbn. unfold justified. by rewrite Ho.
Qed.
End Handlers.

(** Every thread of a node keeps to its watch. *)
Definition finished_task (base64 : list N → string) (t : Task) (m : Watch) (o : Outcome) : Prop :=
  match t with HandleRequest r subject _ => finished base64 r subject m o | _ => True end.

Lemma program_safe encode_operation base64 t m :
  safe store t (finished_task base64 t) m
    (program cfg encode_operation base64 registry_display display uuid_text t).
Proof.
  destruct t as [r subject connection_id|connection_id|]; cbn [program]; apply safe_bind.
  - eapply safe_mono; [apply safe_handle|]. done.
  - eapply safe_mono; [apply harmless_safe, harmless_release_connection|]. done.
  - eapply safe_mono; [apply harmless_safe, harmless_shutdown|]. done.
Qed.
End Harmless.
