(* ===== verification/PeerServiceInv.v ===== *)
(** * What the tables of a node hold while requests run

    How each critical section changes the bindings and their cells, and the
    invariant of all threads: each keeps to its watch, and a cell holds only
    Core leases of the peer lease it was reserved for. *)

From S2P Require Import Prelude Protocol Evidence EventStore DevicePool Async Control Runtime Registry.
From S2P Require Import PeerLease PeerModel PeerNode PeerService PeerServiceRuns PeerServiceSafe.

Local Open Scope N_scope.

(** ** Sections *)

(** The evidence a section allows a lease to read *)
Definition allows {A} (s : Sec A) (lease_id : Uuid) : gset string :=
  match s with
  | SecAllow id ids => if bool_decide (id = lease_id) then list_to_set ids else ∅
  | _ => ∅
  end.

(** The binding a section adds *)
Definition reserves {A} (s : Sec A) : A → option (Binding * Uuid) :=
  match s in Sec A return A → option (Binding * Uuid) with
  | SecReserve lease _ _ _ => λ r, (λ b, (b, pl_lease_id lease)) <$> r
  | _ => λ _, None
  end.

(** The Core lease a section writes *)
Definition publishes {A} (s : Sec A) : option (N * DeviceLease) :=
  match s with SecPublishLease cell lease => Some (cell, lease) | _ => None end.

(** The sections that write bindings or cells *)
Definition touches {A} (s : Sec A) : bool :=
  match s with
  | SecRenew _ _ _ _ _ _ | SecReserve _ _ _ _ | SecFinishCleanup _ _ _ | SecAllow _ _
  | SecPublishLease _ _ | SecSessionStarted _ | SecMark _ _ | SecBeginCleanup _ _
  | SecTakeCursor _ _ | SecPutCursor _ _ _ => true
  | _ => false
  end.

Section Sections.
Context {Fingerprint : Type} `{EqDecision Fingerprint}.
Context (digest : list N → Fingerprint) (terminal_bytes : CachedTerminal → N).
#[local] Abbreviation Service := (Service Fingerprint).
#[local] Abbreviation run_sec := (run_sec digest terminal_bytes).

(** What a section leaves alone *)
Definition same_tables (v v' : Service) : Prop :=
  ns_bindings v' = ns_bindings v ∧ ns_cells v' = ns_cells v ∧ ns_next v <= ns_next v'.

Lemma acquire_section_tables key subject connection_id ttl_ms now lease_id at_ c s v :
  same_tables v
    (snd (acquire_section key subject connection_id ttl_ms now lease_id at_ c s v)).
Proof.
  unfold acquire_section, same_tables. destruct (is_some_and _ _); [done|].
  destruct (_ && _); [done|]. destruct (Leases.acquire _ _ _ _ _ _ _ _) as [[]?]; [|done].
  cbn. destruct (ns_issued_leases v !! _); cbn; split_and!; done || lia.
Qed.

Lemma run_sec_untouched {A} (s : Sec A) (v : Service) r v' :
  run_sec s v = (r, v') → touches s = false → same_tables v v'.
Proof.
  intros Hrun Ht. unfold same_tables. destruct s; try done; cbn in Hrun;
    try (injection Hrun as <- <-; cbn; split_and!; done || lia).
  - destruct (ns_active v !! _); [|by injection Hrun as <- <-].
    destruct (cancel _ _ _). by injection Hrun as <- <-.
  - destruct (ns_active v !! _); by injection Hrun as <- <-.
  - pose proof (acquire_section_tables device_key subject connection_id ttl_ms now lease_id at_
      checked_at set_at v) as Hs. by rewrite Hrun in Hs.
  - destruct (Leases.authorize _ _ _ _). by injection Hrun as <- <-.
  - destruct (Leases.release _ _ _ _). by injection Hrun as <- <-.
  - destruct (Leases.revoke _ _). by injection Hrun as <- <-.
  - destruct (ledger_register _ _ _ _). by injection Hrun as <- <-.
Qed.

(** A binding that is there after a section *)
Definition comes_from {A} (s : Sec A) (r : A) (v : Service) (lease_id : Uuid) (b : Binding) : Prop :=
  (∃ b0, ns_bindings v !! lease_id = Some b0 ∧ bd_cells b = bd_cells b0 ∧
     bd_allowed_evidence b ⊆ allows s lease_id ∪ bd_allowed_evidence b0) ∨
  reserves s r = Some (b, lease_id).

Lemma comes_from_before {A} (s : Sec A) r v lease_id b :
  ns_bindings v !! lease_id = Some b → comes_from s r v lease_id b.
Proof. intros Hb. left. exists b. split_and!; [done..|set_solver]. Qed.

Lemma run_sec_bindings {A} (s : Sec A) (v : Service) r v' lease_id b :
  run_sec s v = (r, v') → ns_bindings v' !! lease_id = Some b → comes_from s r v lease_id b.
Proof.
  intros Hrun Hb. destruct (touches s) eqn:Ht; cycle 1.
  { destruct (run_sec_untouched _ _ _ _ Hrun Ht) as (Heq & _). rewrite Heq in Hb.
    by apply comes_from_before. }
  destruct s; try done; cbn in Hrun; try (injection Hrun as <- <-; by apply comes_from_before).
  - unfold renew_section in Hrun. repeat case_match; simplify_eq/=; try by apply comes_from_before.
    destruct (decide (lease_id = pl_lease_id lease)) as [->|].
    + rewrite lookup_alter_eq in Hb. destruct (ns_bindings v !! _) as [b0|] eqn:Hb0; [|done].
      injection Hb as <-. left. exists b0. split_and!; [done..|set_solver].
    + rewrite lookup_alter_ne in Hb by done. by apply comes_from_before.
  - unfold reserve_section, fresh in Hrun.
    case_match; simplify_eq/=; [by apply comes_from_before|].
    apply lookup_insert_Some in Hb as [[<- <-]|[? Hb]]; [by right|by apply comes_from_before].
  - unfold begin_cleanup_section in Hrun. repeat case_match; simplify_eq/=; by apply comes_from_before.
  - unfold finish_cleanup_section in Hrun. repeat case_match; simplify_eq/=; try by apply comes_from_before.
    apply lookup_delete_Some in Hb as [? Hb]. by apply comes_from_before.
  - case_match eqn:Hold; simplify_eq/=; [|by apply comes_from_before].
    apply lookup_insert_Some in Hb as [[<- <-]|[? Hb]]; [|by apply comes_from_before].
    left. eexists. split_and!; [done..|]. cbn. rewrite bool_decide_true by done. set_solver.
Qed.

Lemma run_sec_reserves {A} (s : Sec A) (v : Service) r v' b lease_id :
  run_sec s v = (r, v') → reserves s r = Some (b, lease_id) →
  bd_cells b = ns_next v ∧ ns_next v' = ns_next v + 1 ∧ bd_allowed_evidence b = ∅.
Proof.
  intros Hrun Hr. destruct s; try done. cbn in *. unfold reserve_section, fresh in Hrun.
  case_match; by simplify_eq/=.
Qed.

Lemma cells_of_set cell f (v : Service) cell' :
  cells_of cell' (set_cells cell f v) =
  if decide (cell' = cell) then f (cells_of cell v) else cells_of cell' v.
Proof.
  unfold cells_of, set_cells. cbn. case_decide as Hc.
  - subst. by rewrite lookup_insert_eq.
  - by rewrite lookup_insert_ne.
Qed.

Lemma run_sec_core_lease {A} (s : Sec A) (v : Service) r v' cell l :
  run_sec s v = (r, v') → bc_core_lease (cells_of cell v') = Some l →
  bc_core_lease (cells_of cell v) = Some l ∨ publishes s = Some (cell, l).
Proof.
  intros Hrun Hl. destruct (touches s) eqn:Ht; cycle 1.
  { destruct (run_sec_untouched _ _ _ _ Hrun Ht) as (_ & Heq & _). left.
    unfold cells_of in *. by rewrite Heq in Hl. }
  assert (∀ cell0 f (v0 : Service), cells_of cell v0 = cells_of cell v →
    (∀ c, bc_core_lease (f c) = Some l → bc_core_lease c = Some l) →
    bc_core_lease (cells_of cell (set_cells cell0 f v0)) = Some l →
    bc_core_lease (cells_of cell v) = Some l) as Hset.
  { intros cell0 f v0 Heq Hf. rewrite cells_of_set. case_decide; [subst; rewrite <-Heq; apply Hf|].
    by rewrite Heq. }
  destruct s; try done; cbn in Hrun.
  - left. unfold renew_section in Hrun. by repeat case_match; simplify_eq/=.
  - simplify_eq/=. rewrite cells_of_set in Hl. case_decide; [|by left]. subst. cbn in Hl.
    right. by injection Hl as ->.
  - simplify_eq/=. left. by eapply Hset, Hl.
  - simplify_eq/=. left. by eapply Hset, Hl.
  - left. unfold reserve_section, fresh in Hrun. case_match; simplify_eq/=; [done|].
    by eapply (Hset _ (λ _, cells0)), Hl.
  - left. unfold begin_cleanup_section in Hrun. repeat case_match; simplify_eq/=; try done.
    by eapply Hset, Hl.
  - left. unfold finish_cleanup_section in Hrun. by repeat case_match; simplify_eq/=.
  - left. by case_match; simplify_eq/=.
  - left. unfold on_cursors in Hrun. simplify_eq/=. by eapply Hset, Hl.
  - left. unfold on_cursors in Hrun. simplify_eq/=. by eapply Hset, Hl.
Qed.

(** The cursor a section puts into a set *)
Definition puts {A} (s : Sec A) : option (string * EvidenceReadCursor) :=
  match s with SecPutCursor _ evidence_id cursor => Some (evidence_id, cursor) | _ => None end.

Lemma evict_cursors_sub order values id cursor :
  cs_values (evict_cursors order values) !! id = Some cursor → values !! id = Some cursor.
Proof.
  revert values. induction order as [|x order IH]; intros values; cbn; destruct (_ <? _); try done.
  intros Hc. apply IH in Hc. by apply lookup_delete_Some in Hc as [_ ?].
Qed.

Lemma run_sec_cursors {A} (s : Sec A) (v : Service) r v' cell id cursor :
  let cursors v := cs_values (bc_evidence_cursors (cells_of cell v)) in
  run_sec s v = (r, v') → cursors v' !! id = Some cursor →
  cursors v !! id = Some cursor ∨ puts s = Some (id, cursor).
Proof.
  cbn zeta. intros Hrun Hc. destruct (touches s) eqn:Ht; cycle 1.
  { destruct (run_sec_untouched _ _ _ _ Hrun Ht) as (_ & Heq & _). left.
    unfold cells_of in *. by rewrite Heq in Hc. }
  assert (∀ cell0 f (v0 : Service), ns_cells v0 = ns_cells v →
    (∀ c, bc_evidence_cursors (f c) = bc_evidence_cursors c ∨ f c = cells0) →
    cs_values (bc_evidence_cursors (cells_of cell (set_cells cell0 f v0))) !! id = Some cursor →
    cs_values (bc_evidence_cursors (cells_of cell v)) !! id = Some cursor) as Hset.
  { intros cell0 f v0 Heq Hf. rewrite cells_of_set. case_decide; [subst|]; unfold cells_of; rewrite Heq; [|done].
    destruct (Hf (default cells0 (ns_cells v !! cell0))) as [-> | ->]; [done|]. cbn. by rewrite lookup_empty. }
  destruct s; try done; cbn in Hrun.
  - left. unfold renew_section in Hrun. by repeat case_match; simplify_eq/=.
  - simplify_eq/=. left. eapply Hset; [| |exact Hc]; auto.
  - simplify_eq/=. left. eapply Hset; [| |exact Hc]; auto.
  - simplify_eq/=. left. eapply Hset; [| |exact Hc]; auto.
  - left. unfold reserve_section, fresh in Hrun. case_match; simplify_eq/=; [done|].
    eapply (Hset _ (λ _, cells0)); [| |exact Hc]; auto.
  - left. unfold begin_cleanup_section in Hrun. repeat case_match; simplify_eq/=; try done.
    eapply Hset; [| |exact Hc]; auto.
  - left. unfold finish_cleanup_section in Hrun. by repeat case_match; simplify_eq/=.
  - left. by case_match; simplify_eq/=.
  - left. unfold on_cursors in Hrun. simplify_eq/=. rewrite cells_of_set in Hc.
    case_decide; [subst|done]. cbn in Hc. by apply lookup_delete_Some in Hc as [_ ?].
  - unfold on_cursors in Hrun. simplify_eq/=. rewrite cells_of_set in Hc.
    case_decide; [subst|by left]. cbn in Hc.
    apply lookup_insert_Some in Hc as [[<- <-]|[_ Hc]]; [by right|]. left.
    apply evict_cursors_sub in Hc. by apply lookup_delete_Some in Hc as [_ ?].
Qed.

Lemma run_sec_next {A} (s : Sec A) (v : Service) r v' :
  run_sec s v = (r, v') → ns_next v <= ns_next v'.
Proof.
  intros Hrun. destruct (touches s) eqn:Ht; [|by apply (run_sec_untouched _ _ _ _ Hrun)].
  destruct s; try done; cbn in Hrun;
    unfold renew_section, reserve_section, fresh, begin_cleanup_section, finish_cleanup_section,
      on_cursors in Hrun; repeat case_match; simplify_eq/=; lia.
Qed.
End Sections.

(** ** Threads *)

(** The binding an event shows to its thread *)
Definition sees (ev : Ev) : list (Binding * Uuid) :=
  let '(mkEv R e r) := ev in
  match e in SE R return R → list (Binding * Uuid) with
  | InSection A s =>
      match s in Sec A return A → list (Binding * Uuid) with
      | SecBinding lease_id => λ r, (λ b, (b, lease_id)) <$> option_list r
      | SecReserve lease _ _ _ => λ r, (λ b, (b, pl_lease_id lease)) <$> option_list r
      | _ => λ _, []
      end
  | _ => λ _, []
  end r.

Lemma watch_sees t m ev : wt_bindings (watch t m ev) = sees ev ++ wt_bindings m.
Proof.
  destruct ev as [R e a]. destruct e as [A s|A c|g c|c| | | |]; cbn; [|by destruct c|by destruct a|done..].
  destruct s; cbn; try done.
  - unfold authorized. by repeat case_match.
  - by destruct a.
  - by destruct a.
  - by destruct a.
Qed.

#[global] Arguments watched : simpl never.
#[global] Arguments watch : simpl never.

Lemma watched_snoc t evs ev : watched t (evs ++ [ev]) = watch t (watched t evs) ev.
Proof. unfold watched. by rewrite foldl_app. Qed.

(** Every event of a thread was permitted when it happened. *)
Definition permitted_event (store : ObjectStore) (t : Task) (m : Watch) (ev : Ev) : Prop :=
  let '(mkEv R e r) := ev in permitted store t m e.
Definition obeyed (store : ObjectStore) (t : Task) (evs : list Ev) : Prop :=
  ∀ before ev after, evs = before ++ ev :: after → permitted_event store t (watched t before) ev.

Lemma obeyed_snoc store t evs ev :
  obeyed store t evs → permitted_event store t (watched t evs) ev → obeyed store t (evs ++ [ev]).
Proof.
  intros Hevs He before ev' after Heq. destruct after as [|x after _] using rev_ind.
  - by apply app_inj_tail in Heq as [<- <-].
  - rewrite app_comm_cons, app_assoc in Heq. apply app_inj_tail in Heq as [-> _]. by eapply Hevs.
Qed.

(** The events of one thread in a trace *)
Definition events_of (id : N) (tr : list (N * Ev)) : list Ev :=
  (filter (λ x, x.1 = id) tr).*2.
#[global] Arguments events_of : simpl never.

Lemma events_of_snoc id tr id' ev :
  events_of id (tr ++ [(id', ev)]) = events_of id tr ++ (if decide (id' = id) then [ev] else []).
Proof.
  unfold events_of. rewrite filter_app, fmap_app. f_equal. rewrite filter_cons, filter_nil. cbn.
  by case_decide.
Qed.

Section Worlds.
Context {Fingerprint : Type} `{EqDecision Fingerprint}.
Context (digest : list N → Fingerprint) (terminal_bytes : CachedTerminal → N).
Context (cfg : NodeConfig).
Context (encode_operation : PeerOperation → option (list N)) (base64 : list N → string).
Context (registry_display : RegistryError → string) (display : EventStoreError → string).
Context (uuid_text : Uuid → string) (store : ObjectStore).

#[local] Abbreviation Service := (Service Fingerprint).
#[local] Abbreviation World := (@World Fingerprint).
#[local] Abbreviation run_sec := (run_sec digest terminal_bytes).
#[local] Abbreviation world_step := (world_step digest terminal_bytes cfg encode_operation base64
  registry_display display uuid_text store).
#[local] Abbreviation reachable_world := (reachable_world digest terminal_bytes cfg encode_operation
  base64 registry_display display uuid_text store).

(** [owners] says which peer lease each cell was reserved for. *)
Record cells_ok (owners : gmap N Uuid) (v : Service) : Prop := {
  co_fresh cell lease_id : owners !! cell = Some lease_id → cell < ns_next v;
  co_binding lease_id b : ns_bindings v !! lease_id = Some b → owners !! bd_cells b = Some lease_id;
  co_core_lease cell l :
    bc_core_lease (cells_of cell v) = Some l → owners !! cell = @Some Uuid (dl_owner_id l);
  co_cursor cell id cursor :
    cs_values (bc_evidence_cursors (cells_of cell v)) !! id = Some cursor → on_object store id cursor;
}.

Record thread_ok (owners : gmap N Uuid) (tr : list (N * Ev)) (id : N) (th : Thread) : Prop := {
  to_events : th_events th = events_of id tr;
  to_safe : safe store (th_task th) (finished_task store base64 (th_task th))
    (watched (th_task th) (th_events th)) (th_prog th);
  to_obeyed : obeyed store (th_task th) (th_events th);
  to_knows b lease_id : (b, lease_id) ∈ wt_bindings (watched (th_task th) (th_events th)) →
    owners !! bd_cells b = Some lease_id;
}.

Definition world_ok (w : World) : Prop :=
  ∃ owners, cells_ok owners (wd_service w) ∧
    (∀ id th, wd_threads w !! id = Some th → thread_ok owners (wd_trace w) id th) ∧
    (∀ id, wd_threads w !! id = None → events_of id (wd_trace w) = []).

(** Dropping a thread only releases its guards. *)
Lemma drop_guards_frame guards (v : Service) :
  let v' := drop_guards digest terminal_bytes guards v in
  ns_bindings v' = ns_bindings v ∧ ns_cells v' = ns_cells v ∧ ns_next v' = ns_next v ∧
  ns_calls v' = ns_calls v.
Proof.
  unfold drop_guards. revert v. induction guards as [|g guards IH]; intros v; [done|].
  cbn [foldl]. specialize (IH (snd (run_sec (release_of g) v))). cbn in IH |- *.
  destruct IH as (-> & -> & -> & ->). by destruct g.
Qed.

Lemma cells_ok_section {A} (s : Sec A) owners (v v' : Service) r :
  cells_ok owners v → run_sec s v = (r, v') →
  from_option (λ '(cell, l), owners !! cell = @Some Uuid (dl_owner_id l)) True (publishes s) →
  from_option (λ '(id, cursor), on_object store id cursor) True (puts s) →
  ∃ owners', cells_ok owners' v' ∧ owners ⊆ owners' ∧
    from_option (λ '(b, lease_id), owners' !! bd_cells b = Some lease_id) True (reserves s r).
Proof.
  intros [Hfresh Hbind Hcore Hcur] Hrun Hpub Hput.
  assert (∀ cell id cursor, cs_values (bc_evidence_cursors (cells_of cell v')) !! id = Some cursor →
    on_object store id cursor) as Hcur'.
  { intros cell id cursor Hc. destruct (run_sec_cursors _ _ _ _ _ _ _ _ _ Hrun Hc) as [?|Hp]; [by eapply Hcur|].
    by rewrite Hp in Hput. }
  pose proof (run_sec_next _ _ _ _ _ _ Hrun) as Hnext.
  destruct (reserves s r) as [[b lid]|] eqn:Hres.
  - destruct (run_sec_reserves _ _ _ _ _ _ _ _ Hrun Hres) as (Hcell & Hnext' & _).
    exists (<[bd_cells b := lid]> owners).
    assert (owners !! bd_cells b = None) as Hnew.
    { apply eq_None_not_Some. intros [? ?%Hfresh]. lia. }
    split; [|split; [by apply insert_subseteq|cbn; by rewrite lookup_insert_eq]]. split.
    + intros cell lid' [[<- _]|[_ ?%Hfresh]]%lookup_insert_Some; lia.
    + intros lid' b' Hb'. destruct (run_sec_bindings _ _ _ _ _ _ _ _ Hrun Hb') as [(b0 & Hb0 & -> & _)|Hr].
      * rewrite lookup_insert_ne; [by apply Hbind|]. intros Heq. rewrite Heq, (Hbind _ _ Hb0) in Hnew. done.
      * rewrite Hres in Hr. injection Hr as <- <-. by rewrite lookup_insert_eq.
    + intros cell l Hl. destruct (run_sec_core_lease _ _ _ _ _ _ _ _ Hrun Hl) as [Hl0|Hp].
      * rewrite lookup_insert_ne; [by apply Hcore|]. intros Heq. apply Hcore, Hfresh in Hl0. lia.
      * by destruct s.
    + exact Hcur'.
  - exists owners. split; [|done]. split.
    + intros cell lid ?%Hfresh. lia.
    + intros lid' b' Hb'. destruct (run_sec_bindings _ _ _ _ _ _ _ _ Hrun Hb') as [(b0 & Hb0 & -> & _)|Hr];
        [by apply Hbind|congruence].
    + intros cell l Hl. destruct (run_sec_core_lease _ _ _ _ _ _ _ _ Hrun Hl) as [Hl0|Hp]; [by apply Hcore|].
      by rewrite Hp in Hpub.
    + exact Hcur'.
Qed.

(** The answer to an effect is one the thread may count on, and the tables
    stay in order. *)
Lemma answer_ok owners (v v' : Service) t m R (e : SE R) r :
  cells_ok owners v → (∀ b lid, (b, lid) ∈ wt_bindings m → owners !! bd_cells b = Some lid) →
  permitted store t m e → answers digest terminal_bytes store R e v r v' →
  plausible store m e r ∧ ∃ owners', cells_ok owners' v' ∧ owners ⊆ owners' ∧
    ∀ b lid, (b, lid) ∈ sees (mkEv R e r) → owners' !! bd_cells b = Some lid.
Proof.
  intros Hc Hknows Hp Ha.
  destruct e as [A s|A c|g c|c| | | |]; cbn in Ha; try (subst; split; [done|]; exists owners; set_solver).
  - assert (from_option (λ '(cell, l), owners !! cell = @Some Uuid (dl_owner_id l)) True (publishes s)) as Hpub.
    { destruct s; try done. destruct Hp as (b & Hb & <-). by apply Hknows. }
    assert (from_option (λ '(id, cursor), on_object store id cursor) True (puts s)) as Hput by (by destruct s).
    destruct (cells_ok_section s owners v v' r Hc Ha Hpub Hput) as (owners' & Hc' & Hsub & Hres).
    split; [|exists owners'; split; [done|split; [done|]]].
    + destruct s; try done; cbn in Ha.
      * injection Ha as <- <-. intros lid l (b & Hb & <-) Hl.
        apply (co_core_lease _ _ Hc) in Hl. apply Hknows in Hb. congruence.
      * unfold on_cursors in Ha. injection Ha as <- <-.
        destruct (cs_values _ !! evidence_id) eqn:Hcur; [|done]. by eapply (co_cursor _ _ Hc).
    + intros b lid Hsees. destruct s; cbn in Hsees; try by apply elem_of_nil in Hsees.
      * cbn in Ha. injection Ha as <- <-. destruct (ns_bindings v !! lease_id) as [b0|] eqn:Hb0; cbn in Hsees;
          [|by apply elem_of_nil in Hsees].
        apply list_elem_of_singleton in Hsees as [= -> ->]. eapply lookup_weaken; [|done]. by apply (co_binding _ _ Hc).
      * destruct r as [b0|]; cbn in Hsees; [|by apply elem_of_nil in Hsees].
        by apply list_elem_of_singleton in Hsees as [= -> ->].
  - destruct Ha as [-> Ha]. split; [done|]. exists owners. set_solver.
  - assert (cells_ok owners v').
    { destruct r; [destruct Ha as [_ ->]|subst v'..]; destruct Hc as [H1 H2 H3 H4]; by split. }
    split; [done|]. exists owners. set_solver.
Qed.

Lemma thread_ok_mono owners owners' tr id th id' ev :
  owners ⊆ owners' → id' ≠ id → thread_ok owners tr id th → thread_ok owners' (tr ++ [(id', ev)]) id th.
Proof.
  intros Hsub Hne [He Hs Ho Hk]. split; [|done|done|].
  - rewrite events_of_snoc, decide_False by done. by rewrite app_nil_r.
  - intros b lid Hb. eapply lookup_weaken; [by apply Hk|done].
Qed.

Lemma world_step_ok w w' : world_ok w → world_step w w' → world_ok w'.
Proof.
  intros (owners & Hc & Hths & Hnone) Hstep.
  destruct Hstep as [v ths tr id t Hid|v ths tr id t evs guards R e k r v' Hid Ha|v ths tr id t evs guards p Hid];
    cbn in *.
  - exists owners. split; [done|]. split; cbn.
    + intros id' th [[<- <-]|[? Hth]]%lookup_insert_Some; [|by apply Hths].
      split; cbn; [by rewrite Hnone|apply program_safe| |set_solver].
      by intros [] ? ? ?.
    + intros id' [Hn ?]%lookup_insert_None. by apply Hnone.
  - destruct (Hths _ _ Hid) as [Hevs [Hp Hs] Ho Hk]. cbn in *.
    destruct (answer_ok owners v v' t (watched t evs) R e r Hc Hk Hp Ha)
      as (Hpl & owners' & Hc' & Hsub & Hsees).
    exists owners'. split; [done|]. split; cbn.
    + intros id' th [[<- <-]|[Hne Hth]]%lookup_insert_Some; [|by eapply thread_ok_mono; eauto].
      split; cbn.
      * by rewrite events_of_snoc, decide_True, Hevs.
      * rewrite watched_snoc. by apply Hs.
      * by apply obeyed_snoc.
      * intros b lid. rewrite watched_snoc, watch_sees, elem_of_app. intros [?|?]; [by apply Hsees|].
        eapply lookup_weaken; [by apply Hk|done].
    + intros id' [Hn Hne]%lookup_insert_None. rewrite events_of_snoc, decide_False, Hnone by done. done.
  - destruct (Hths _ _ Hid) as [Hevs Hs Ho Hk]. cbn in *. exists owners. split; [|split; cbn].
    + destruct (drop_guards_frame guards v) as (Hb & Hcl & Hn & _). destruct Hc as [H1 H2 H3 H4].
      unfold cells_of in *. split; cbn; unfold cells_of; rewrite ?Hb, ?Hn, ?Hcl; done.
    + intros id' th [[<- <-]|[? Hth]]%lookup_insert_Some; [|by apply Hths].
      split; cbn; [done| |done|done]. by destruct t.
    + intros id' [Hn Hne]%lookup_insert_None. by apply Hnone.
Qed.

Lemma reachable_world_ok w : reachable_world w → world_ok w.
Proof.
  intros [devices Hrun]. remember (mkWorld _ _ _) as w0 eqn:Hw0.
  assert (world_ok w0) as Hok.
  { subst w0. exists ∅. split; [split; cbn; set_solver|]. split; [set_solver|done]. }
  clear Hw0. induction Hrun; [done|]. eauto using world_step_ok.
Qed.
End Worlds.
