(* ===== verification/PeerServiceProps.v ===== *)
(** * Guarantees of a node that serves peers

    However requests, teardowns and the shutdown interleave, and whatever Core
    answers: a call id is executed at most once in a window of calls, a device
    is operated only under an authorized lease, and evidence is disclosed only
    to the lease whose operation produced it. *)

From S2P Require Import Prelude Protocol Evidence EventStore DevicePool Async Control Runtime Registry.
From S2P Require Import PeerLease PeerLeaseProps PeerModel PeerNode PeerService.
From S2P Require Import PeerServiceRuns PeerServiceSafe PeerServiceInv.

Local Open Scope N_scope.

(** ** Counting events *)

Definition count (f : Ev → bool) (evs : list Ev) : nat := length (List.filter f evs).

(** A call handed to a Driver *)
Definition executes (call : Uuid) (ev : Ev) : bool :=
  match ev with mkEv _ (OnCore _ (CExecute _ _ c)) _ => call_id c =? call | _ => false end.

(** A call id that the ledger had not seen *)
Definition registers (which : Uuid → bool) (ev : Ev) : bool :=
  let '(mkEv R e r) := ev in
  match e in SE R return R → bool with
  | InSection A s =>
      match s in Sec A return A → bool with
      | SecRegister id _ => λ d, match d with FirstSeen => which id | _ => false end
      | _ => λ _, false
      end
  | _ => λ _, false
  end r.

Lemma count_snoc f evs ev : count f (evs ++ [ev]) = (count f evs + if f ev then 1 else 0)%nat.
Proof. unfold count. rewrite List.filter_app, length_app. cbn. by destruct (f ev). Qed.

Definition pending (m : Watch) (call : Uuid) : nat := if bool_decide (wt_call m = Some call) then 1 else 0.

Lemma watch_call t m ev :
  wt_call (watch t m ev) = wt_call m ∨ wt_call (watch t m ev) = None ∨
  ∃ id, wt_call (watch t m ev) = Some id ∧ ∀ which, registers which ev = which id.
Proof.
  destruct ev as [R e r]. unfold watch.
  destruct e as [A s|A c|g c|c| | | |]; cbn; [|destruct c; cbn; auto|destruct r; auto|auto..].
  destruct s; cbn; auto.
  - destruct (is_ok r); [|auto]. unfold authorized. destruct (_ && _); auto.
  - destruct r; auto.
  - destruct r; auto.
  - destruct r; eauto.
Qed.

Lemma watch_executes store t m ev call :
  permitted_event store t m ev → executes call ev = true →
  wt_call m = Some call ∧ wt_call (watch t m ev) = None ∧ registers (N.eqb call) ev = false.
Proof.
  destruct ev as [R e r]. destruct e as [A s|A c| | | | | |]; cbn; try done. destruct c; try done.
  intros [_ ->] ->%N.eqb_eq. done.
Qed.

(** A thread executes what it registered. *)
Lemma executes_registered store t evs call :
  obeyed store t evs →
  (count (executes call) evs + pending (watched t evs) call <=
     count (registers (N.eqb call)) evs)%nat.
Proof.
  induction evs as [|ev evs IH] using rev_ind; intros Ho; [done|].
  assert (obeyed store t evs) as Ho1.
  { intros before ev' after ->. eapply Ho. by rewrite <- app_assoc. }
  specialize (Ho evs ev [] eq_refl). specialize (IH Ho1).
  rewrite !count_snoc, watched_snoc. set (m := watched t evs) in *. unfold pending in *.
  destruct (executes call ev) eqn:He.
  - destruct (watch_executes store t m ev call Ho He) as (Hm & -> & ->).
    rewrite bool_decide_true in IH by done. rewrite bool_decide_false by done. lia.
  - destruct (watch_call t m ev) as [-> | [-> | (id & -> & Hreg)]].
    + lia.
    + rewrite (bool_decide_false (None = _)) by done. lia.
    + rewrite Hreg. destruct (N.eqb_spec call id) as [<-|Hne].
      * rewrite (bool_decide_true (Some call = _)) by done. lia.
      * rewrite (bool_decide_false (Some id = _)) by congruence. lia.
Qed.

(** ** From threads to the trace *)

Definition trace_count (f : Ev → bool) (tr : list (N * Ev)) : nat := count f tr.*2.

Lemma trace_count_snoc f tr id ev :
  trace_count f (tr ++ [(id, ev)]) = (trace_count f tr + if f ev then 1 else 0)%nat.
Proof. unfold trace_count. rewrite fmap_app. apply count_snoc. Qed.

Lemma trace_count_split f id tr :
  trace_count f tr = (count f (events_of id tr) + trace_count f (filter (λ x, x.1 ≠ id) tr))%nat.
Proof.
  induction tr as [|[id' ev] tr IH] using rev_ind; [done|].
  rewrite trace_count_snoc, events_of_snoc, filter_app, filter_cons, filter_nil. cbn [fst].
  destruct (decide (id' = id)) as [->|Hne].
  - rewrite count_snoc, decide_False, app_nil_r by (intros Hn; by apply Hn). lia.
  - rewrite app_nil_r, decide_True by done. rewrite trace_count_snoc. lia.
Qed.

Lemma events_of_others id id' tr :
  events_of id' (filter (λ x, x.1 ≠ id) tr) = if decide (id' = id) then [] else events_of id' tr.
Proof.
  induction tr as [|[i ev] tr IH] using rev_ind; [by case_decide|].
  rewrite filter_app, filter_cons, filter_nil. cbn [fst]. destruct (decide (i = id)) as [->|Hne].
  - rewrite decide_False, app_nil_r, IH by (intros Hn; by apply Hn).
    case_decide; [done|]. rewrite events_of_snoc, decide_False, app_nil_r by congruence. done.
  - rewrite decide_True by done. rewrite !events_of_snoc, IH. case_decide; [subst|done].
    by rewrite decide_False.
Qed.

(** A bound that every thread keeps is kept by the trace. *)
Lemma trace_count_le f g tr :
  (∀ id, (count f (events_of id tr) <= count g (events_of id tr))%nat) →
  (trace_count f tr <= trace_count g tr)%nat.
Proof.
  remember (length tr) as n eqn:Hn. revert tr Hn.
  induction n as [n IH] using lt_wf_ind. intros [|[id ev] tr] Hn Hle; [done|].
  set (tr0 := (id, ev) :: tr) in *. rewrite (trace_count_split f id), (trace_count_split g id).
  specialize (Hle id) as Hid. enough (trace_count f (filter (λ x, x.1 ≠ id) tr0) <=
    trace_count g (filter (λ x, x.1 ≠ id) tr0))%nat by lia.
  eapply IH; [|done|].
  - subst tr0 n. rewrite filter_cons, decide_False by (cbn; intros Hne; by apply Hne). cbn.
    pose proof (length_filter (λ x : N * Ev, x.1 ≠ id) tr). lia.
  - intros id'. rewrite !events_of_others. case_decide; [done|]. apply Hle.
Qed.

(** ** The ledger *)

Section Ledger.
Context {Fingerprint : Type} `{EqDecision Fingerprint}.
Context (digest : list N → Fingerprint).

(** A call that was first seen [first] times among [total] first-seen calls:
    while it is in the window, as many calls as are younger than it, and
    otherwise a whole window, must come before it can be first seen again. *)
Definition spaced (call : Uuid) (first total : nat) (w : list (Uuid * Fingerprint)) : Prop :=
  (∃ old young, w.*1 = old ++ call :: young ∧
     MAX_LEDGER_CALLS * first + length young < total + MAX_LEDGER_CALLS)%nat ∨
  ((call ∉ w.*1) ∧ MAX_LEDGER_CALLS * first <= total)%nat.

Lemma spaced_push call id body first total w :
  NoDup w.*1 → (length w <= MAX_LEDGER_CALLS)%nat → id ∉ w.*1 → spaced call first total w →
  spaced call (first + if call =? id then 1 else 0) (total + 1) (window_push digest id body w).
Proof.
  intros Hnd Hl Hid Hs. unfold window_push, spaced. rewrite fmap_app, fmap_drop. cbn [fmap list_fmap fst].
  set (n := (S (length w) - MAX_LEDGER_CALLS)%nat). assert (n <= 1)%nat as Hn by lia.
  destruct (N.eqb_spec call id) as [<-|Hne].
  - destruct Hs as [(old & young & Hw & _)|[_ Hs]]; [rewrite Hw in Hid; set_solver|].
    left. exists (drop n w.*1), []. split; [done|]. rewrite Nat.mul_add_distr_l, Nat.mul_1_r. cbn [length]. lia.
  - rewrite Nat.add_0_r. destruct Hs as [(old & young & Hw & Hs)|[Hc Hs]]; cycle 1.
    { right. split; [|lia]. rewrite elem_of_app. intros [Hin|Hin]; [|set_solver].
      apply Hc. rewrite <- (take_drop n w.*1). apply elem_of_app. by right. }
    assert (length w = length old + S (length young))%nat as Hlen
      by (by rewrite <- (length_fmap fst w), Hw, length_app).
    rewrite Hw in Hnd |- *. destruct old as [|x old]; cbn [app].
    + destruct n as [|[|]] eqn:Hn'; [|right|lia].
      * left. exists [], (young ++ [id]). rewrite drop_0, length_app. split; [done|]. cbn [length]. lia.
      * cbn in Hnd. apply NoDup_cons in Hnd as [Hy _]. rewrite skipn_cons, drop_0. split; [set_solver|].
        cbn [length] in Hlen. lia.
    + left. exists (drop n (x :: old)), (young ++ [id]). rewrite length_app. split; [|cbn [length]; lia].
      rewrite app_comm_cons, drop_app_le by (cbn [length]; lia). by rewrite <- app_assoc.
Qed.

Lemma find_none_window (w : list (Uuid * Fingerprint)) id :
  List.find (λ p, fst p =? id) w = None → id ∉ w.*1.
Proof.
  induction w as [|[i f] w IH]; cbn; [set_solver|]. destruct (N.eqb_spec i id); [done|]. set_solver.
Qed.

(** Registering a call keeps the spacing of every call. *)
Lemma spaced_register call id body first total s w :
  window_of s w → spaced call first total w →
  let d := fst (ledger_register digest id body s) in
  let n which := match d with FirstSeen => if which : bool then 1%nat else 0%nat | _ => 0%nat end in
  ∃ w', window_of (snd (ledger_register digest id body s)) w' ∧
    spaced call (first + n (call =? id)) (total + n true) w'.
Proof.
  intros Hw Hs. cbn zeta. destruct (ledger_register_window digest s w id body Hw) as [-> Hw'].
  exists (snd (window_register digest id body w)). split; [done|]. unfold window_register in *.
  destruct (id =? 0); [by rewrite !Nat.add_0_r|].
  destruct (List.find (λ p, p.1 =? id) w) as [[i fp]|] eqn:Hf.
  - cbn. by case_bool_decide; rewrite !Nat.add_0_r.
  - destruct Hw as (_ & _ & Hnd & Hl). apply spaced_push; [done..| |done]. by apply find_none_window.
Qed.
End Ledger.

(** ** What the watch remembers *)

(** An event after which a lock that is held is still held *)
Definition quiet (ev : Ev) : bool :=
  let '(mkEv R e r) := ev in
  match e in SE R return R → bool with
  | LockGate _ _ => λ r, match r with Ready _ => false | _ => true end
  | InSection A s => λ _, match s with SecUnlock _ => false | _ => true end
  | _ => λ _, true
  end r.

(** The lease was found to be issued to the connection of the task. *)
Definition confirmed_in (t : Task) (lease : PeerLease) (evs : list Ev) : Prop :=
  ∃ connection_id gate, task_connection t = Some connection_id ∧
    mkEv _ (InSection _ (SecGate lease connection_id)) (Some gate) ∈ evs.

(** It was, and was authorized after that. *)
Definition authorized_in (t : Task) (lease : PeerLease) (evs : list Ev) : Prop :=
  ∃ before now at_ after,
    evs = before ++ mkEv _ (InSection _ (SecAuthorize lease now at_)) (Ok ()) :: after ∧
    confirmed_in t lease before.

(** The access was granted to the owner. *)
Definition granted_in (a : AccessId) (owner : LeaseOwnerId) (evs : list Ev) : Prop :=
  ∃ h l now, mkEv _ (OnCore _ (CAccess h l owner now)) (Ok a) ∈ evs.

(** Since a gate was locked, and is still held *)
Definition since_lock (evs : list Ev) (P : list Ev → Prop) : Prop :=
  ∃ gate c before locked, evs = before ++ mkEv _ (LockGate gate c) (Ready ()) :: locked ∧
    forallb quiet locked = true ∧ P locked.

Lemma confirmed_in_app t lease evs ev : confirmed_in t lease evs → confirmed_in t lease (evs ++ [ev]).
Proof. intros (conn & g & ? & ?). exists conn, g. split; [done|]. apply elem_of_app. by left. Qed.

Lemma authorized_in_app t lease evs ev : authorized_in t lease evs → authorized_in t lease (evs ++ [ev]).
Proof.
  intros (before & now & at_ & after & -> & ?). exists before, now, at_, (after ++ [ev]).
  by rewrite <- app_assoc.
Qed.

Lemma granted_in_app a o evs ev : granted_in a o evs → granted_in a o (evs ++ [ev]).
Proof. intros (h & l & now & ?). exists h, l, now. apply elem_of_app. by left. Qed.

(** What the fields of a watch stand for *)
Record watch_means (t : Task) (m : Watch) (locked : list Ev) : Prop := {
  wm_confirmed l : wt_confirmed m = Some l → confirmed_in t l locked;
  wm_authorized l : wt_authorized m = Some l → authorized_in t l locked;
  wm_access a o : wt_access m = Some (a, o) → granted_in a o locked;
}.

Lemma watch_means_app t m locked ev : watch_means t m locked → watch_means t m (locked ++ [ev]).
Proof.
  intros [H1 H2 H3]. split; intros; eauto using confirmed_in_app, authorized_in_app, granted_in_app.
Qed.

(** The fields of one watch that another one also has *)
Lemma watch_means_sub t m m' locked :
  (wt_confirmed m' = wt_confirmed m ∨ wt_confirmed m' = None) →
  (wt_authorized m' = wt_authorized m) → (wt_access m' = wt_access m ∨ wt_access m' = None) →
  watch_means t m locked → watch_means t m' locked.
Proof. intros H1 H2 H3 [Hc Ha Hg]. split; intros; rewrite ?H2 in *; destruct H1, H3; naive_solver congruence. Qed.

Lemma watch_means_quiet t m locked ev :
  quiet ev = true → is_Some (wt_gate m) → watch_means t m locked →
  wt_gate (watch t m ev) = wt_gate m ∧ watch_means t (watch t m ev) (locked ++ [ev]).
Proof.
  intros Hq Hgate Hm. pose proof (watch_means_app t m locked ev Hm) as Hm'.
  destruct ev as [R e r]. unfold watch.
  destruct e as [A s|A c|g c|c| | | |]; cbn in Hq |- *; try by split.
  - destruct s; cbn in *; try by split.
    + split; [done|]. destruct (is_some r && _) eqn:Hr; cycle 1.
      { by eapply watch_means_sub; [..|exact Hm']; auto. }
      apply andb_true_iff in Hr as [Hr Hconn%bool_decide_eq_true]. destruct r as [g|]; [|done].
      destruct Hm' as [H1 H2 H3]. split; cbn; [|done..]. intros l [= <-]. exists connection_id, g.
      split; [done|]. apply elem_of_app. right. by left.
    + destruct r as [[]|]; cbn; [|done]. unfold authorized. destruct (bool_decide _ && _) eqn:Hr; [|done].
      apply andb_true_iff in Hr as [Hc%bool_decide_eq_true _]. split; [done|].
      destruct Hm' as [H1 H2 H3]. split; cbn; [done| |done]. intros l [= <-].
      exists locked, now, at_, []. split; [done|]. by apply Hm.
    + split; [by destruct r|]. eapply watch_means_sub; [..|exact Hm']; destruct r; auto.
    + split; [by destruct r|]. eapply watch_means_sub; [..|exact Hm']; destruct r; auto.
    + split; [by destruct r|]. eapply watch_means_sub; [..|exact Hm']; destruct r; auto.
  - destruct c; cbn; try by split.
    + split; [done|]. destruct Hm' as [H1 H2 H3]. split; cbn; [done..|].
      destruct r as [a'|]; [|done]. intros a o [= <- <-]. exists h, lease, now.
      apply elem_of_app. right. by left.
    + split; [done|]. by eapply watch_means_sub; [..|exact Hm']; auto.
    + split; [done|]. by eapply watch_means_sub; [..|exact Hm']; auto.
    + split; [done|]. by eapply watch_means_sub; [..|exact Hm']; auto.
  - by destruct r.
Qed.

(** While a gate is held, the watch tells what happened since it was locked. *)
Lemma watched_since_lock t evs :
  let m := watched t evs in
  match wt_gate m with
  | Some _ => since_lock evs (watch_means t m)
  | None => wt_authorized m = None
  end.
Proof.
  cbn zeta. induction evs as [|ev evs IH] using rev_ind; [done|].
  rewrite watched_snoc. set (m := watched t evs) in *. destruct (quiet ev) eqn:Hq.
  - destruct (wt_gate m) as [gate|] eqn:Hg.
    + destruct IH as (gate' & c & before & locked & -> & Hl & Hm).
      destruct (watch_means_quiet t m locked ev Hq) as [-> Hm']; [by eexists|done|]. rewrite Hg.
      exists gate', c, before, (locked ++ [ev]). rewrite <- app_assoc. split; [done|].
      split; [|done]. rewrite forallb_app, Hl. cbn. by rewrite Hq.
    + assert (wt_gate (watch t m ev) = None ∧ wt_authorized (watch t m ev) = None) as [-> ?]; [|done].
      destruct ev as [R e r]. unfold watch.
      destruct e as [A s|A c|g c|c| | | |]; cbn in Hq |- *; try done; [|by destruct c|by destruct r].
      destruct s; cbn in *; try done; try by destruct r.
      unfold authorized. rewrite Hg, andb_false_r. by destruct (is_ok r).
  - destruct ev as [R e r]. unfold watch.
    destruct e as [A s|A c|g c|c| | | |]; cbn in Hq; try done.
    + by destruct s.
    + destruct r as [[]| |]; try done. cbn. exists g, c, evs, []. split; [done|]. split; [done|].
      by split.
Qed.

(** The evidence an operation returned *)
Definition produced (ev : Ev) : list string :=
  let '(mkEv R e r) := ev in
  match e in SE R return R → list string with
  | OnCore A c =>
      match c in CoreCall A return A → list string with
      | CObserve _ _ => λ r, match r with Ok o => observation_ids o | Err _ => [] end
      | CExecute _ _ _ => λ r, match r with Ok o => action_ids o | Err _ => [] end
      | _ => λ _, []
      end
  | _ => λ _, []
  end r.

Lemma watched_ids t evs ids :
  wt_ids (watched t evs) = Some ids → ∃ ev, ev ∈ evs ∧ produced ev = ids.
Proof.
  induction evs as [|ev evs IH] using rev_ind; [done|]. rewrite watched_snoc.
  set (m := watched t evs) in *. intros Hids.
  assert (wt_ids m = Some ids ∨ produced ev = ids) as [H|H].
  { destruct ev as [R e r]. unfold watch in Hids.
    destruct e as [A s|A c|g c|c| | | |]; cbn in *; try by left.
    - left. destruct s; cbn in *; try done; try by destruct r.
      unfold authorized in Hids. destruct (is_ok r); [|done]. by destruct (_ && _).
    - destruct c; cbn in *; try (by left); right; by destruct r; simplify_eq.
    - by destruct r; left. }
  - destruct (IH H) as (ev' & ? & ?). exists ev'. split; [|done]. apply elem_of_app. by left.
  - exists ev. split; [|done]. apply elem_of_app. right. by left.
Qed.
(** ** The theorems *)

Section Guarantees.
Context {Fingerprint : Type} `{EqDecision Fingerprint}.
Context (digest : list N → Fingerprint) (terminal_bytes : CachedTerminal → N).
Context (cfg : NodeConfig).
Context (encode_operation : PeerOperation → option (list N)) (base64 : list N → string).
Context (registry_display : RegistryError → string) (display : EventStoreError → string).
Context (uuid_text : Uuid → string) (store : ObjectStore).

#[local] Abbreviation Service := (Service Fingerprint).
#[local] Abbreviation World := (@World Fingerprint).
#[local] Abbreviation run_sec := (run_sec digest terminal_bytes).
#[local] Abbreviation world_step := (world_step digest terminal_bytes cfg encode_operation base64
  registry_display display uuid_text store).
#[local] Abbreviation reachable_world := (reachable_world digest terminal_bytes cfg encode_operation
  base64 registry_display display uuid_text store).

(** Only [SecRegister] changes the ledger. *)
Lemma run_sec_calls {A} (s : Sec A) (v : Service) r v' :
  run_sec s v = (r, v') →
  ns_calls v' = match s with
    | SecRegister id body => snd (ledger_register digest id body (ns_calls v))
    | _ => ns_calls v
    end ∧
  ∀ which, registers which (mkEv A (InSection A s) r) = match s with
    | SecRegister id body =>
        match fst (ledger_register digest id body (ns_calls v)) with
        | FirstSeen => which id | _ => false
        end
    | _ => false
    end.
Proof.
  intros Hrun. destruct s; cbn in Hrun; try by injection Hrun as <- <-.
  all: unfold acquire_section, renew_section, reserve_section, begin_cleanup_section,
    finish_cleanup_section, fresh, on_cursors in Hrun.
  all: repeat case_match; by simplify_eq/=.
Qed.

Definition ledger_ok (call : Uuid) (w : World) : Prop :=
  ∃ win, window_of (ns_calls (wd_service w)) win ∧
    spaced call (trace_count (registers (N.eqb call)) (wd_trace w))
      (trace_count (registers (λ _, true)) (wd_trace w)) win.

Lemma answers_calls R (e : SE R) (v v' : Service) r call first total win :
  answers digest terminal_bytes store R e v r v' → window_of (ns_calls v) win → spaced call first total win →
  let n which := if registers which (mkEv R e r) then 1%nat else 0%nat in
  ∃ win', window_of (ns_calls v') win' ∧ spaced call (first + n (N.eqb call)) (total + n (λ _, true)) win'.
Proof.
  intros Ha Hw Hs. cbn zeta.
  destruct e as [A s|A c|g c|c| | | |]; cbn [answers] in Ha; try (subst; exists win; by rewrite !Nat.add_0_r).
  - destruct (run_sec_calls _ _ _ _ Ha) as [-> Hreg]. rewrite !Hreg.
    destruct s; try (exists win; by rewrite !Nat.add_0_r).
    destruct (spaced_register digest call call_id fingerprint first total _ _ Hw Hs) as (win' & Hw' & Hs').
    exists win'. split; [done|].
    by destruct (fst (ledger_register _ _ _ _)); rewrite ?Nat.add_0_r in *.
  - destruct Ha as [-> _]. exists win. by rewrite !Nat.add_0_r.
  - exists win. rewrite !Nat.add_0_r. split; [|done]. by destruct r; [destruct Ha as [_ ->]|subst..].
Qed.

Lemma world_step_ledger call w w' : ledger_ok call w → world_step w w' → ledger_ok call w'.
Proof.
  intros (win & Hw & Hs) Hstep.
  destruct Hstep as [v ths tr id t Hid|v ths tr id t evs guards R e k r v' Hid Ha|
    v ths tr id t evs guards p Hid]; cbn [wd_service wd_trace] in *.
  - by exists win.
  - destruct (answers_calls _ _ _ _ _ call _ _ win Ha Hw Hs) as (win' & Hw' & Hs').
    exists win'. split; [done|]. cbn [wd_trace]. by rewrite !trace_count_snoc.
  - exists win. split; [|done]. cbn [wd_service].
    by destruct (drop_guards_frame digest terminal_bytes guards v) as (_ & _ & _ & ->).
Qed.

(** C6: a call id is executed at most once per window of calls. In every
    interleaving of requests, teardowns and shutdown, if a call id was handed
    to Drivers [n] times, then more than [1024 * (n - 1)] call ids were first
    seen by the ledger; as long as no more than 1,024 were, no call id is
    executed twice, however often its request is repeated, on whatever
    connection or lease, and also when requests are dropped half-way. *)
Theorem calls_execute_once w call :
  reachable_world w →
  (MAX_LEDGER_CALLS * trace_count (executes call) (wd_trace w) <
     trace_count (registers (λ _, true)) (wd_trace w) + MAX_LEDGER_CALLS)%nat.
Proof.
  intros Hw. assert (ledger_ok call w) as (win & _ & Hs).
  { destruct Hw as [devices Hrun]. remember (mkWorld _ _ _) as w0 eqn:Hw0.
    assert (ledger_ok call w0) as Hok.
    { subst w0. exists []. split; [by split_and!; [done..|constructor|cbn; lia]|].
      right. split; [set_solver|cbn; lia]. }
    clear Hw0. induction Hrun; eauto using world_step_ledger. }
  destruct (reachable_world_ok _ _ _ _ _ _ _ _ _ _ Hw) as (owners & _ & Hths & Hnone).
  assert (trace_count (executes call) (wd_trace w) <=
    trace_count (registers (N.eqb call)) (wd_trace w))%nat as Hle.
  { apply trace_count_le. intros id. destruct (wd_threads w !! id) as [th|] eqn:Hth.
    - destruct (Hths _ _ Hth) as [<- _ Ho _]. pose proof (executes_registered _ _ _ call Ho). lia.
    - by rewrite Hnone. }
  eapply Nat.le_lt_trans; [by apply Nat.mul_le_mono_l|].
  destruct Hs as [(? & ? & _ & Hs)|[_ Hs]]; [lia|]. unfold MAX_LEDGER_CALLS in *. lia.
Qed.

(** The access through which an event operates a device *)
Definition operated (ev : Ev) : option AccessId :=
  match ev with
  | mkEv _ (OnCore _ (CConnect a _)) _ | mkEv _ (OnCore _ (CObserve a _)) _
  | mkEv _ (OnCore _ (CExecute a _ _)) _ => Some a
  | _ => None
  end.

Lemma operated_permitted t m ev a :
  operated ev = Some a → permitted_event store t m ev → operates t m a.
Proof.
  destruct ev as [R e r]. destruct e as [A s|A c| | | | | |]; try done.
  destruct c; try done; intros [= ->]; [done|done|]. by intros [? _].
Qed.

(** C15: a node operates a device only under a lease. Whenever a request makes
    a Driver connect, observe or execute, in whatever interleaving, it carries
    a lease on the device it names whose owner is the authenticated subject;
    since it locked a gate that it still holds it found the lease issued to
    its own connection, then found it current in the lease table, and got its
    access from Core in the name of this very lease. *)
Theorem devices_are_operated_under_leases w id th before ev after a :
  reachable_world w → wd_threads w !! id = Some th → th_events th = before ++ ev :: after →
  operated ev = Some a →
  ∃ r subject connection_id lease,
    th_task th = HandleRequest r subject connection_id ∧ pr_lease r = Some lease ∧
    pl_owner_id lease = subject ∧ device_key (pr_operation r) = Some (pl_device_key lease) ∧
    since_lock before (λ locked,
      authorized_in (th_task th) lease locked ∧ granted_in a (pl_lease_id lease) locked).
Proof.
  intros Hw Hth Hevs Hop.
  destruct (reachable_world_ok _ _ _ _ _ _ _ _ _ _ Hw) as (owners & _ & Hths & _).
  destruct (Hths _ _ Hth) as [_ _ Ho _]. specialize (Ho _ _ _ Hevs).
  apply (operated_permitted _ _ _ a Hop) in Ho. pose proof (watched_since_lock (th_task th) before) as Hsince.
  unfold operates in Ho. destruct (th_task th) as [r subject conn| |]; [|done..].
  destruct (pr_lease r) as [lease|] eqn:Hl; [|done]. destruct Ho as (Hs & Ha & Hk & Hacc).
  exists r, subject, conn, lease. split_and!; [done..|]. cbn zeta in Hsince.
  destruct (wt_gate _); [|congruence]. destruct Hsince as (gate & c & b1 & locked & -> & Hq & [_ H2 H3]).
  exists gate, c, b1, locked. split_and!; [done..|by apply H2|by apply H3].
Qed.

(** ** Evidence *)

(** The evidence was allowed to the lease by some thread. *)
Definition allowed_in (tr : list (N * Ev)) (lease_id : Uuid) (evidence_id : string) : Prop :=
  ∃ id ids r, (id, mkEv _ (InSection _ (SecAllow lease_id ids)) r) ∈ tr ∧ evidence_id ∈ ids.

Lemma allowed_in_app tr x lease_id evidence_id :
  allowed_in tr lease_id evidence_id → allowed_in (tr ++ [x]) lease_id evidence_id.
Proof. intros (id & ids & r & ? & ?). exists id, ids, r. split; [|done]. apply elem_of_app. by left. Qed.

Definition evidence_ok (w : World) : Prop :=
  (∀ lease_id b e, ns_bindings (wd_service w) !! lease_id = Some b → e ∈ bd_allowed_evidence b →
     allowed_in (wd_trace w) lease_id e) ∧
  (∀ id th b lease_id e, wd_threads w !! id = Some th →
     (b, lease_id) ∈ wt_bindings (watched (th_task th) (th_events th)) →
     e ∈ bd_allowed_evidence b → allowed_in (wd_trace w) lease_id e).

Lemma allows_event {A} (s : Sec A) lease_id e id r tr :
  e ∈ allows s lease_id → allowed_in (tr ++ [(id, mkEv A (InSection A s) r)]) lease_id e.
Proof.
  destruct s; try set_solver. cbn. case_bool_decide; [|set_solver]. subst. intros He.
  exists id, ids, r. split; [apply elem_of_app; right; by left|]. set_solver.
Qed.

(** What an answered effect shows and leaves in the tables was allowed. *)
Lemma answers_allowed R (e : SE R) (v v' : Service) r id tr :
  answers digest terminal_bytes store R e v r v' →
  (∀ lid b x, ns_bindings v !! lid = Some b → x ∈ bd_allowed_evidence b → allowed_in tr lid x) →
  let tr' := tr ++ [(id, mkEv R e r)] in
  (∀ lid b x, ns_bindings v' !! lid = Some b → x ∈ bd_allowed_evidence b → allowed_in tr' lid x) ∧
  (∀ b lid x, (b, lid) ∈ sees (mkEv R e r) → x ∈ bd_allowed_evidence b → allowed_in tr' lid x).
Proof.
  intros Ha Hv. cbn zeta.
  assert (∀ ev lid b x, ns_bindings v !! lid = Some b → x ∈ bd_allowed_evidence b →
    allowed_in (tr ++ [ev]) lid x) as Happ by (intros; apply allowed_in_app; by eapply Hv).
  destruct e as [A s|A c|g c|c| | | |]; cbn [answers] in Ha;
    try (subst; split; [by apply Happ|set_solver]).
  - split.
    + intros lid b x Hb Hx.
      destruct (run_sec_bindings _ _ _ _ _ _ _ _ Ha Hb) as [(b0 & Hb0 & _ & Hsub)|Hres].
      * pose proof (Hsub _ Hx) as [Ha'|Hb']%elem_of_union; [by apply allows_event|].
        by eapply Happ.
      * destruct (run_sec_reserves _ _ _ _ _ _ _ _ Ha Hres) as (_ & _ & Hempty). set_solver.
    + intros b lid x Hs Hx. destruct s; cbn in Hs; try by apply elem_of_nil in Hs.
      * cbn in Ha. injection Ha as <- <-. destruct (ns_bindings v !! lease_id) as [b0|] eqn:Hb0; cbn in Hs;
          [|by apply elem_of_nil in Hs].
        apply list_elem_of_singleton in Hs as [= -> ->]. by eapply Happ.
      * destruct r as [b0|]; cbn in Hs; [|by apply elem_of_nil in Hs].
        apply list_elem_of_singleton in Hs as [= -> ->].
        destruct (run_sec_reserves _ _ _ _ _ _ b0 (pl_lease_id lease) Ha eq_refl) as (_ & _ & Hempty).
        set_solver.
  - destruct Ha as [-> _]. split; [by apply Happ|set_solver].
  - destruct r; [destruct Ha as [_ ->]|subst..]; (split; [by apply Happ|set_solver]).
Qed.

Lemma world_step_evidence w w' : evidence_ok w → world_step w w' → evidence_ok w'.
Proof.
  intros [Hv Hths] Hstep.
  destruct Hstep as [v ths tr id t Hid|v ths tr id t evs guards R e k r v' Hid Ha|
    v ths tr id t evs guards p Hid]; cbn [wd_service wd_threads wd_trace] in *.
  - split; [done|]. cbn. intros id' th b lid x [[<- <-]|[_ Hth]]%lookup_insert_Some; [set_solver|].
    by eapply Hths.
  - destruct (answers_allowed R e v v' r id tr Ha Hv) as [Hv' Hsees]. split; [done|].
    cbn. intros id' th b lid x [[<- <-]|[_ Hth]]%lookup_insert_Some; cbn.
    + rewrite watched_snoc, watch_sees, elem_of_app. intros [Hb|Hb] Hx; [by eapply Hsees|].
      apply allowed_in_app. by eapply (Hths _ _ _ _ _ Hid).
    + intros. apply allowed_in_app. by eapply Hths.
  - destruct (drop_guards_frame digest terminal_bytes guards v) as (Hb & _). split; cbn.
    + rewrite Hb. done.
    + intros id' th b lid x [[<- <-]|[_ Hth]]%lookup_insert_Some; [by apply (Hths _ _ _ _ _ Hid)|].
      by eapply Hths.
Qed.

Lemma reachable_evidence_ok w : reachable_world w → evidence_ok w.
Proof.
  intros [devices Hrun]. remember (mkWorld _ _ _) as w0 eqn:Hw0.
  assert (evidence_ok w0) as Hok by (subst w0; split; cbn; set_solver).
  clear Hw0. induction Hrun; eauto using world_step_evidence.
Qed.

Lemma events_of_trace id ev tr : (id, ev) ∈ tr → ev ∈ events_of id tr.
Proof.
  intros Hin. unfold events_of. apply list_elem_of_fmap. exists (id, ev). split; [done|].
  by apply list_elem_of_filter.
Qed.

(** An event that allows evidence was made by a request under the lease, after
    an operation of that request that returned the evidence. *)
Lemma allowed_produced w lease_id evidence_id :
  reachable_world w → allowed_in (wd_trace w) lease_id evidence_id →
  ∃ id th ev, wd_threads w !! id = Some th ∧ leases (th_task th) lease_id ∧
    ev ∈ th_events th ∧ evidence_id ∈ produced ev.
Proof.
  intros Hw (id & ids & r & Hin & He).
  destruct (reachable_world_ok _ _ _ _ _ _ _ _ _ _ Hw) as (owners & _ & Hths & Hnone).
  apply events_of_trace in Hin. destruct (wd_threads w !! id) as [th|] eqn:Hth;
    [|rewrite Hnone in Hin by done; by apply elem_of_nil in Hin].
  destruct (Hths _ _ Hth) as [Hevs _ Ho _]. rewrite <- Hevs in Hin.
  apply list_elem_of_split in Hin as (before & after & Hsplit).
  destruct (Ho _ _ _ Hsplit) as [Hl Hids]. destruct (watched_ids _ _ _ Hids) as (ev & Hev & <-).
  exists id, th, ev. split_and!; [done..| |done]. rewrite Hsplit. apply elem_of_app. by left.
Qed.

(** C17: evidence stays with the lease whose operation produced it, and
    arrives as it is stored. If a node answers an evidence request with
    success, then the request carries a lease of the authenticated subject, an
    observation or action that a request under the same lease id made on the
    node returned a reference to the object, and the answer is the chunk of
    the stored object that starts at the requested offset, with its media
    type, size, digest and the mark of the last chunk. *)
Theorem evidence_stays_with_its_lease w id th r subject connection_id response key evidence_id
    offset max_bytes res :
  reachable_world w → wd_threads w !! id = Some th →
  th_task th = HandleRequest r subject connection_id →
  th_prog th = Ret (Responded (Ok response)) →
  pr_operation r = PO_EvidenceRead key evidence_id offset max_bytes → ps_result response = Some res →
  serves base64 store evidence_id offset max_bytes res ∧
  ∃ lease, pr_lease r = Some lease ∧ pl_owner_id lease = subject ∧
    ∃ id' th' ev, wd_threads w !! id' = Some th' ∧ leases (th_task th') (pl_lease_id lease) ∧
      ev ∈ th_events th' ∧ evidence_id ∈ produced ev.
Proof.
  intros Hw Hth Ht Hp Hop Hres.
  destruct (reachable_world_ok _ _ _ _ _ _ _ _ _ _ Hw) as (owners & _ & Hths & _).
  destruct (Hths _ _ Hth) as [_ Hs _ _]. rewrite Hp, Ht in Hs. cbn in Hs.
  rewrite Hres in Hs. cbn in Hs. unfold justified in Hs. rewrite Hop in Hs.
  destruct Hs as (lease & (Hl & Ho & _) & Hserves & b & Hb & He). split; [done|].
  exists lease. split_and!; [done..|]. apply allowed_produced; [done|].
  eapply (proj2 (reachable_evidence_ok w Hw)); [exact Hth| |exact He]. by rewrite Ht.
Qed.
End Guarantees.
