(* ===== verification/PeerServiceExamples.v ===== *)
(** * A node at work

    Runs of one request after another, with the answers of Core given by a
    function, and the worlds they reach: a lease, a connection, an action that
    is sent twice, and the evidence it produced. *)

From S2P Require Import Prelude Protocol Evidence EventStore DevicePool Async Control Runtime Registry.
From S2P Require Import PeerLease PeerLeaseProps PeerModel PeerNode PeerService.
From S2P Require Import PeerServiceRuns PeerServiceSafe PeerServiceInv PeerServiceProps.

Local Open Scope N_scope.

(** ** Running tasks in turn *)

Section Driving.
Context {Fingerprint : Type} `{EqDecision Fingerprint}.
Context (digest : list N → Fingerprint) (terminal_bytes : CachedTerminal → N).
Context (cfg : NodeConfig).
Context (encode_operation : PeerOperation → option (list N)) (base64 : list N → string).
Context (registry_display : RegistryError → string) (display : EventStoreError → string).
Context (uuid_text : Uuid → string) (store : ObjectStore).

#[local] Abbreviation Service := (Service Fingerprint).
#[local] Abbreviation World := (@World Fingerprint).
#[local] Abbreviation answers := (answers digest terminal_bytes store).
#[local] Abbreviation program := (program cfg encode_operation base64 registry_display display uuid_text).
#[local] Abbreviation world_step := (world_step digest terminal_bytes cfg encode_operation base64
  registry_display display uuid_text store).

Fixpoint drive (h : ∀ R, SE R → Service → option (R * Service)) (p : svc Outcome) (v : Service)
    (evs : list Ev) (guards : list Guard) : option (Outcome * Service * list Ev * list Guard) :=
  match p with
  | Ret o => Some (o, v, evs, guards)
  | Step R e k =>
      '(r, v') ← h R e v;
      drive h (k r) v' (evs ++ [mkEv R e r]) (guards_after guards (mkEv R e r))
  end.

Definition run_task (h : ∀ R, SE R → Service → option (R * Service)) (id : N) (t : Task) (w : World)
    : option World :=
  '(o, v, evs, guards) ← drive h (program t) (wd_service w) [] [];
  Some (mkWorld v (<[id := mkThread t evs guards (Ret o)]> (wd_threads w))
    (wd_trace w ++ ((λ ev, (id, ev)) <$> evs))).

(** Tasks with the answers they get, each run to its end *)
Fixpoint run_tasks (id : N) (ts : list (Task * (∀ R, SE R → Service → option (R * Service))))
    (w : World) : option World :=
  match ts with
  | [] => Some w
  | (t, h) :: ts => w' ← run_task h id t w; run_tasks (id + 1) ts w'
  end.

Definition sound (h : ∀ R, SE R → Service → option (R * Service)) : Prop :=
  ∀ R e v r v', h R e v = Some (r, v') → answers R e v r v'.

Lemma drive_steps h id t p (v : Service) evs guards ths tr o v' evs' guards' :
  sound h → drive h p v evs guards = Some (o, v', evs', guards') →
  ths !! id = Some (mkThread t evs guards p) →
  ∃ more, evs' = evs ++ more ∧
    rtc world_step (mkWorld v ths tr)
      (mkWorld v' (<[id := mkThread t evs' guards' (Ret o)]> ths)
        (tr ++ ((λ ev, (id, ev)) <$> more))).
Proof.
  intros Hh. revert v evs guards ths tr.
  induction p as [a|R e k IH]; intros v evs guards ths tr; cbn [drive].
  - intros [= <- <- <- <-] Hid. exists []. rewrite app_nil_r. split; [done|].
    cbn. rewrite app_nil_r, insert_id by done. apply rtc_refl.
  - intros Hrun Hid. apply bind_Some in Hrun as ([r v1] & He & Hrun).
    set (th1 := mkThread t (evs ++ [mkEv R e r]) (guards_after guards (mkEv R e r)) (k r)).
    destruct (IH r v1 _ _ (<[id := th1]> ths) (tr ++ [(id, mkEv R e r)]) Hrun) as (more & -> & Hsteps).
    { by rewrite lookup_insert_eq. }
    exists (mkEv R e r :: more). rewrite <- app_assoc. split; [done|].
    eapply rtc_l; [by eapply step_effect; [|apply Hh]|]. rewrite insert_insert_eq in Hsteps.
    by rewrite <- !app_assoc in Hsteps.
Qed.

Lemma run_task_steps h id t w w' :
  sound h → wd_threads w !! id = None → run_task h id t w = Some w' → rtc world_step w w'.
Proof.
  intros Hh Hid Hrun. destruct w as [v ths tr].
  apply bind_Some in Hrun as ([[[o v'] evs] guards] & Hdrive & [= <-]).
  eapply rtc_l; [by apply step_start|].
  destruct (drive_steps h id t (program t) v [] [] (<[id := mkThread t [] [] (program t)]> ths) tr
    o v' evs guards Hh Hdrive) as (more & -> & Hsteps); [by rewrite lookup_insert_eq|].
  rewrite insert_insert_eq in Hsteps. exact Hsteps.
Qed.

Lemma run_tasks_steps id ts w w' :
  Forall (λ x, sound (snd x)) ts → (∀ id', id <= id' → wd_threads w !! id' = None) →
  run_tasks id ts w = Some w' → rtc world_step w w'.
Proof.
  revert id w. induction ts as [|[t h] ts IH]; intros id w Hts Hfree; cbn.
  - intros [= <-]. apply rtc_refl.
  - apply Forall_cons in Hts as [Hh Hts]. intros (w1 & Hw1 & Hrun)%bind_Some.
    etrans; [eapply (run_task_steps h id); [done| |done]; apply Hfree; lia|].
    eapply IH; [done| |done]. intros id' Hle.
    apply bind_Some in Hw1 as ([[[o v'] evs] guards] & _ & [= <-]). cbn.
    rewrite lookup_insert_ne by lia. apply Hfree. lia.
Qed.

(** A handler made of a function that answers Core, given the time, the
    instants and the random ids; locks that are free succeed. *)
Definition handler (core_answer : ∀ A, CoreCall A → A) (now : N) (at_ : Instant)
    (set_at : Uuid → Instant) (id : Uuid) : ∀ R, SE R → Service → option (R * Service) :=
  λ R e v,
    match e in SE R return option (R * Service) with
    | InSection A s => Some (run_sec digest terminal_bytes s v)
    | OnCore A c => Some (core_answer A c, v)
    | LockGate gate _ =>
        if bool_decide (gate ∈ ns_held v) then None
        else Some (Ready (), set_held (λ held, {[gate]} ∪ held) v)
    | StillWaiting _ => Some (Ready (), v)
    | NowMs => Some (now, v)
    | ReadInstant => Some (at_, v)
    | ReadInstants => Some (set_at, v)
    | NewUuid => Some (id, v)
    end.

Lemma handler_sound core_answer now at_ set_at id :
  (∀ A (c : CoreCall A), core_answers store c (core_answer A c)) →
  sound (handler core_answer now at_ set_at id).
Proof.
  intros Hc R e v r v'. destruct e; cbn; try (by intros [= <- <-]).
  - by intros [= ->].
  - case_bool_decide; [done|]. by intros [= <- <-].
Qed.
End Driving.

(** ** A lease, a connection, an action and its evidence *)

Module NodeExamples.

Definition device : DeviceId := "pixel-8".
Definition node : NodeConfig :=
  mkNodeConfig "node-b" 3 1 [mkRemoteDeviceDescriptor "d-1" "Pixel 8" Platform_Android None]
    {["d-1" := device]}.
Definition sha : string := "00000000000000000000000000000000000000000000000000000000000000ff".
Definition shot : AssetRef := mkAssetRef (asset_id sha) "image/png" (asset_uri sha) (Some sha).
Definition lease : PeerLease := mkPeerLease 501 "d-1" "router" 3 31000.

(** Every digest names the same three bytes. *)
Definition demo_store : ObjectStore := λ _, ("image/png"%string, [1; 2; 3]).

(** Core: one healthy device, whose actions produce the same screenshot *)
Definition action_result (call : ActionCall) : ActionResult :=
  mkActionResult (call_id call) 1000 1001 (JObject []) None None [shot] None.
Definition demo_core (A : Type) (c : CoreCall A) : A :=
  match c in CoreCall A return A with
  | CResolve id => Ok (mkHandle 0 id)
  | CHealthCheck _ _ => Ok ()
  | CCapabilities _ _ => Ok []
  | CRecordHealth _ _ _ => Ok ()
  | CAcquireLease h owner now => Ok (mkDeviceLease 9 (hn_id h) owner now (now + 30000))
  | CAccess _ _ _ _ | CCleanupAccess _ _ _ _ | CAccessAvailable _ _ _ => Ok 4
  | CDropAccess _ => ()
  | CConnect _ _ => Ok (mkDeviceInfo device "Pixel 8" Platform_Android None true)
  | CDisconnect _ _ => Ok ()
  | CObserve _ _ => Err (RtDriver DriverTimedOut)
  | CExecute _ _ call => Ok (action_result call)
  | CActionProtection _ _ => Ok (Some Standard)
  | CScreenshotPolicy => Capture
  | CReleaseOwner _ _ => ()
  | CStartSession _ | CEndSession _ => Ok ()
  | CCleanupSession _ _ => true
  | CMetadata d => Ok (mkEvidenceMetadata d "image/png" 3 1000 1)
  | COpen _ => Ok [1; 2; 3]
  | CReadWorks => true
  end.

Definition tap : ActionCall := {| call_id := 77; call_name := "tap"; call_arguments := JObject [] |}.
(** A request with its lease *)
Definition leased (id : Uuid) (o : PeerOperation) : PeerRequest :=
  mkPeerRequest DISTRIBUTED_PROTOCOL_VERSION id id "node-b" (Some 3) None
    (match o with PO_Execute _ call _ _ _ => Some (call_id call) | _ => None end) (Some lease) o.
Definition acquire_request : PeerRequest :=
  request_new 1 1 "node-b" (Some 3) (PO_LeaseAcquire "d-1" "router" 30000).

#[local] Abbreviation digest := (foldr N.add 0).
#[local] Abbreviation bytes_of := (λ _ : CachedTerminal, 100).
#[local] Abbreviation encode := (λ _ : PeerOperation, Some [1; 2; 3]).
#[local] Abbreviation base64 := (λ _ : list N, "AQID"%string).
#[local] Abbreviation no_text := (λ _, EmptyString).

Definition answer : ∀ R, SE R → Service N → option (R * Service N) :=
  handler digest bytes_of demo_core 1000 5 (λ _, 5) 501.
Definition request (r : PeerRequest) := (HandleRequest r "router" 42, answer).

(** The tap is sent twice, under different request ids. *)
Definition demo_tasks :=
  [request acquire_request;
   request (leased 2 (PO_Connect "d-1"));
   request (leased 3 (PO_Execute "d-1" tap None false false));
   request (leased 4 (PO_Execute "d-1" tap None false false));
   request (leased 5 (PO_EvidenceRead "d-1" (ar_id shot) 0 1000))].

Definition demo_start : World (Fingerprint := N) := mkWorld (service0 node {["d-1"]}) ∅ [].
Definition demo_world : World (Fingerprint := N) :=
  default demo_start
    (run_tasks node encode base64 no_text no_text no_text 0 demo_tasks demo_start).

#[local] Abbreviation reachable :=
  (reachable_world digest bytes_of node encode base64 no_text no_text no_text demo_store).

Lemma demo_core_ok A (c : CoreCall A) : core_answers demo_store c (demo_core A c).
Proof. by destruct c. Qed.

Lemma answer_sound : sound digest bytes_of demo_store answer.
Proof. apply handler_sound, demo_core_ok. Qed.

Lemma demo_reachable : reachable demo_world.
Proof.
  exists {["d-1"]}. unfold demo_world.
  destruct (run_tasks _ _ _ _ _ _ _ _ _) as [w|] eqn:Hrun; [|apply rtc_refl].
  eapply run_tasks_steps; [|done|exact Hrun]. repeat constructor; apply answer_sound.
Qed.

Definition ended (id : N) : option (Task * Outcome) :=
  th ← wd_threads demo_world !! id;
  match th_prog th with Ret o => Some (th_task th, o) | Step _ _ _ => None end.
Definition outcome (id : N) : option Outcome := snd <$> ended id.

(** The second tap gets the result of the first; the device is tapped once. *)
Lemma demo_outcomes :
  outcome 0 = Some (Responded (Ok (response_success acquire_request 3 (PR_Lease lease)))) ∧
  outcome 2 = Some (Responded (Ok (response_success
    (leased 3 (PO_Execute "d-1" tap None false false)) 3 (PR_Action (action_result tap))))) ∧
  outcome 3 = Some (Responded (Ok (response_success
    (leased 4 (PO_Execute "d-1" tap None false false)) 3 (PR_Action (action_result tap))))) ∧
  outcome 4 = Some (Responded (Ok (response_success
    (leased 5 (PO_EvidenceRead "d-1" (ar_id shot) 0 1000)) 3
    (PR_EvidenceChunk (ar_id shot) "image/png" 3 0 "AQID" (Some sha) true)))) ∧
  trace_count (executes 77) (wd_trace demo_world) = 1%nat.
Proof. vm_compute. split_and!; reflexivity. Qed.

Lemma calls_execute_once_witness :
  trace_count (executes 77%N) (wd_trace demo_world) = 1%nat ∧
  (MAX_LEDGER_CALLS * trace_count (executes 77%N) (wd_trace demo_world) <
     trace_count (registers (λ _, true)) (wd_trace demo_world) + MAX_LEDGER_CALLS)%nat.
Proof.
  split; [vm_compute; reflexivity|]. eapply calls_execute_once. exact demo_reachable.
Defined.

(** The first event of a thread that operates a device *)
Fixpoint first_operated (evs : list Ev) : option (list Ev * Ev * list Ev * AccessId) :=
  match evs with
  | [] => None
  | ev :: evs =>
      match operated ev with
      | Some a => Some ([], ev, evs, a)
      | None => '(before, x, after, a) ← first_operated evs; Some (ev :: before, x, after, a)
      end
  end.

Lemma first_operated_spec evs before ev after a :
  first_operated evs = Some (before, ev, after, a) → evs = before ++ ev :: after ∧ operated ev = Some a.
Proof.
  revert before. induction evs as [|x evs IH]; intros before; cbn; [done|].
  destruct (operated x) eqn:Hx; [by intros [= <- <- <- <-]|].
  intros ([[[b y] c] d] & Hf & [= <- <- <- <-])%bind_Some. by destruct (IH _ Hf) as [-> ?].
Qed.

Definition operated_by (id : N) : option (Task * AccessId) :=
  th ← wd_threads demo_world !! id;
  '(_, _, _, a) ← first_operated (th_events th);
  Some (th_task th, a).

Definition tap_task : Task :=
  HandleRequest (leased 3 (PO_Execute "d-1" tap None false false)) "router" 42.

Lemma devices_are_operated_under_leases_witness :
  ∃ before, since_lock before (λ locked, authorized_in tap_task lease locked ∧ granted_in 4 501 locked).
Proof.
  assert (operated_by 2 = Some (tap_task, 4)) as Hop by (vm_compute; reflexivity).
  apply bind_Some in Hop as (th & Hth & Hop).
  apply bind_Some in Hop as ([[[before ev] after] a] & Hf & [= Htask ->]).
  apply first_operated_spec in Hf as [Hevs Hop].
  destruct (devices_are_operated_under_leases _ _ _ _ _ _ _ _ demo_store demo_world 2 th before ev after 4
    demo_reachable Hth Hevs Hop) as (r & subject & conn & l & Ht & Hl & _ & _ & Hsince).
  rewrite Htask in Ht, Hsince. injection Ht as <- <- <-. injection Hl as <-. exists before. exact Hsince.
Defined.

Lemma evidence_stays_with_its_lease_witness :
  serves base64 demo_store (ar_id shot) 0 1000
    (PR_EvidenceChunk (ar_id shot) "image/png" 3 0 "AQID" (Some sha) true) ∧
  ∃ id th ev, wd_threads demo_world !! id = Some th ∧ leases (th_task th) 501 ∧
    ev ∈ th_events th ∧ ar_id shot ∈ produced ev.
Proof.
  set (r := leased 5 (PO_EvidenceRead "d-1" (ar_id shot) 0 1000)).
  set (res := PR_EvidenceChunk (ar_id shot) "image/png" 3 0 "AQID" (Some sha) true).
  assert (ended 4 = Some (HandleRequest r "router" 42, Responded (Ok (response_success r 3 res)))) as He
    by (vm_compute; reflexivity).
  apply bind_Some in He as (th & Hth & He). destruct (th_prog th) as [o|] eqn:Hp; [|discriminate].
  injection He as Ht Ho. subst o.
  destruct (evidence_stays_with_its_lease _ _ _ _ _ _ _ _ _ demo_world 4 th r "router" 42
    (response_success r 3 res) "d-1" (ar_id shot) 0 1000 res demo_reachable Hth Ht Hp
    eq_refl eq_refl) as (Hserves & l & Hl & _ & H).
  injection Hl as <-. split; [exact Hserves|exact H].
Defined.

(** ** A lease that expires between two reads of the clock

    The second acquire of a connection finds its lease 501 current when it
    looks for expired leases and for an existing one, and expired when the
    lease table looks again, so the table hands out lease 502 while 501 stays
    among the issued leases. From then on revoking 501 fails, and with it every
    teardown of the connection and every later acquire of the device. *)

Definition late : Instant := 5 + from_millis 30000.
Definition again (id : Uuid) : PeerRequest :=
  request_new id id "node-b" (Some 3) (PO_LeaseAcquire "d-1" "router" 30000).
Definition acquire_as (id connection_id : Uuid) (now : N) (at_ : Instant) (set_at : Uuid → Instant)
    (lease_id : Uuid) :=
  (HandleRequest (again id) "router" connection_id,
   handler digest bytes_of demo_core now at_ set_at lease_id).

Definition raced_world : World (Fingerprint := N) :=
  default demo_start
    (run_tasks node encode base64 no_text no_text no_text 0
      [acquire_as 1 42 1000 5 (λ _, 5) 501;
       acquire_as 2 42 1000 late (λ _, 5) 502;
       (ReleaseConnection 42, handler digest bytes_of demo_core 2000 late (λ _, late) 0);
       acquire_as 3 43 9000000 (2 * late) (λ _, 2 * late) 503] demo_start).

Definition raced_outcome (id : N) : option Outcome :=
  th ← wd_threads raced_world !! id;
  match th_prog th with Ret o => Some o | Step _ _ _ => None end.

Lemma expired_between_checks_blocks_device :
  reachable raced_world ∧
  raced_outcome 2 = Some (Released [peer_error "lease_stale" false false]) ∧
  raced_outcome 3 =
    Some (Responded (Ok (response_failure (again 3) 3 (peer_error "lease_stale" false false)))).
Proof.
  split; [|vm_compute; split; reflexivity].
  exists {["d-1"]}. unfold raced_world.
  destruct (run_tasks _ _ _ _ _ _ _ _ _) as [w|] eqn:Hrun; [|apply rtc_refl].
  eapply run_tasks_steps; [|done|exact Hrun].
  repeat apply Forall_cons_2; try apply Forall_nil_2; apply handler_sound, demo_core_ok.
Qed.
End NodeExamples.
