(* ===== verification/RemoteAuth.v ===== *)
(** * Remote authentication

    [crates/remote-auth/src]: the permissions of a principal and of an RPC
    method ([permission.rs]), the credential store ([credentials.rs]), and the
    challenge and response by which a client proves that it has the secret of
    a credential ([auth.rs]).

    HMAC-SHA256 and base64url are parameters, random bytes and instants
    arguments: [None] is randomness that is not available. Secrets are wiped
    from memory in the code, which is not modelled; neither are the checks on
    the credential file before it is parsed. *)

From S2P Require Import Prelude Protocol Control PeerLease.

Local Open Scope N_scope.

(** ** Permissions ([permission.rs]) *)

Inductive Permission := Read | Control | Admin.

#[global] Instance Permission_eq_dec : EqDecision Permission.
Proof. solve_decision. Defined.

#[global] Instance Permission_countable : Countable Permission.
Proof.
  refine (inj_countable' (λ p, match p with Read => 0 | Control => 1 | Admin => 2 end)
    (λ n, match n with 0 => Read | 1 => Control | _ => Admin end) _).
  by intros [].
Defined.

Record AuthenticatedPrincipal := mkAuthenticatedPrincipal {
  ap_id : string;
  ap_permissions : gset Permission;
}.

(** [AuthenticatedPrincipal::allows] *)
Definition allows (p : AuthenticatedPrincipal) (required : Permission) : bool :=
  existsb (λ granted,
    match granted with
    | Admin => true
    | Control => negb (bool_decide (required = Admin))
    | Read => bool_decide (required = Read)
    end) (elements (ap_permissions p)).

(** [required_permission] *)
Definition READ_METHODS : list string :=
  ["system.hello"; "system.describe"; "devices.list"; "device.capabilities"; "session.current";
   "sessions.list"; "session.export"; "events.list"; "events.stream.open"; "ui.snapshot.get"]%string.
Definition CONTROL_METHODS : list string :=
  ["device.select"; "device.connect"; "device.disconnect"; "device.observe"; "device.execute";
   "media.stream.start"; "media.stream.capture"; "media.stream.end"; "request.cancel";
   "session.start"; "session.end"; "verdict.record"]%string.
Definition required_permission (method : string) : option Permission :=
  if bool_decide (method ∈ READ_METHODS) then Some Read
  else if bool_decide (method ∈ CONTROL_METHODS) then Some Control
  else if String.eqb method "events.clear" then Some Admin
  else None.

(** ** Credentials ([credentials.rs]) *)

(** [valid_identifier] of this crate: at most 64 bytes *)
Definition auth_identifier (value : string) : bool := valid_identifier value 64.

Record CredentialEntry := mkCredentialEntry {
  cn_principal_id : string;
  cn_key_id : string;
  cn_secret_base64 : string;
  cn_permissions : list Permission;
}.

Record Credential := mkCredential {
  cr_principal_id : string;
  cr_secret : list N;
  cr_permissions : gset Permission;
}.

Abbreviation CredentialStore := (gmap (string * string) Credential).

Section Auth.
(** base64url without padding, and HMAC-SHA256 *)
Context (encode_url : list N → string) (decode_url : string → option (list N)).
Context (hmac : list N → list N → list N).

(** The checks of [CredentialStore::decode] on one entry: its credential *)
Definition decode_entry (known : gmap string (gset Permission)) (entry : CredentialEntry)
    : option Credential :=
  let permissions := list_to_set (cn_permissions entry) : gset Permission in
  if negb (auth_identifier (cn_principal_id entry)) || negb (auth_identifier (cn_key_id entry)) ||
     (len (cn_permissions entry) =? 0) || (3 <? len (cn_permissions entry)) then None
  else if negb (N.of_nat (size permissions) =? len (cn_permissions entry)) ||
          is_some_and (λ k, negb (bool_decide (k = permissions))) (known !! cn_principal_id entry) then None
  else
    decoded ← decode_url (cn_secret_base64 entry);
    if (len decoded <? 32) || (64 <? len decoded) ||
       negb (String.eqb (encode_url decoded) (cn_secret_base64 entry)) then None
    else Some (mkCredential (cn_principal_id entry) decoded permissions).

(** The loop of [CredentialStore::decode] *)
Fixpoint decode_entries (entries : list CredentialEntry) (known : gmap string (gset Permission))
    (credentials : CredentialStore) : option CredentialStore :=
  match entries with
  | [] => Some credentials
  | entry :: entries =>
      credential ← decode_entry known entry;
      let key := (cn_principal_id entry, cn_key_id entry) in
      if is_some (credentials !! key) then None
      else decode_entries entries (<[cn_principal_id entry := cr_permissions credential]> known)
             (<[key := credential]> credentials)
  end.

(** [CredentialStore::decode] of a parsed file; [None] is [CredentialError::Invalid] *)
Definition decode (schema_version : N) (principals : list CredentialEntry) : option CredentialStore :=
  if negb (schema_version =? 1) || (len principals =? 0) || (64 <? len principals) then None
  else decode_entries principals ∅ ∅.

(** ** The challenge ([auth.rs]) *)

Definition AUTH_PROTOCOL_VERSION : string := "1".
Definition CLIENT_NONCE_BYTES : N := 32.
Definition SERVER_NONCE_BYTES : N := 32.
Definition CHALLENGE_ID_BYTES : N := 16.
Definition PROOF_BYTES : N := 32.

Inductive AuthError :=
| InvalidConfiguration
| RandomUnavailable
| InvalidRequest
| ChallengePending
| AttemptsExceeded
| AuthenticationFailed.

Record ChallengeConfig := mkChallengeConfig {
  cc_ttl : N;
  cc_max_attempts : N;
}.

(** [ChallengeConfig::new] *)
Definition challenge_config_new (ttl max_attempts : N) : result AuthError ChallengeConfig :=
  check! reject_if ((ttl <? from_millis 100) || (from_millis 30000 <? ttl) ||
                    negb ((1 <=? max_attempts) && (max_attempts <=? 5))) InvalidConfiguration;
  Ok (mkChallengeConfig ttl max_attempts).

Record AuthChallengeRequest := mkAuthChallengeRequest {
  aq_version : string;
  aq_principal_id : string;
  aq_key_id : string;
  aq_client_nonce : string;
}.

Record AuthChallenge := mkAuthChallenge {
  ac_version : string;
  ac_algorithm : string;
  ac_challenge_id : string;
  ac_server_nonce : string;
  ac_expires_in_ms : N;
}.

Record AuthProofRequest := mkAuthProofRequest {
  ar_version : string;
  ar_challenge_id : string;
  ar_proof : string;
}.

Record PendingChallenge := mkPendingChallenge {
  pg_principal_id : string;
  pg_key_id : string;
  pg_client_nonce : list N;
  pg_server_nonce : list N;
  pg_challenge_id : list N;
  pg_created_at : Instant;
}.

(** [Authenticator] *)
Record Authenticator := mkAuthenticator {
  at_credentials : CredentialStore;
  at_dummy_secret : list N;
  at_config : ChallengeConfig;
}.

(** [AuthSession] *)
Record AuthSession := mkAuthSession {
  as_attempts : N;
  as_pending : option PendingChallenge;
}.

Definition auth_session : AuthSession := mkAuthSession 0 None.

(** [decode_canonical] *)
Definition decode_canonical (n : N) (value : string) : option (list N) :=
  bytes ← decode_url value;
  if negb (len bytes =? n) || negb (String.eqb (encode_url bytes) value) then None else Some bytes.

(** [constant_time_eq] *)
Definition constant_time_eq (left right : list N) : bool :=
  if negb (len left =? len right) then false
  else foldl (λ difference '(l, r), N.lor difference (N.lxor l r)) 0 (zip left right) =? 0.

(** A field with its length before it, as [u16] in network order *)
Definition length_prefixed (field : list N) : list N :=
  let n := len field mod 65536 in (n / 256) :: (n mod 256) :: field.

(** [proof_input] *)
Definition PROOF_DOMAIN : list N := bytes "devicerail.remote-auth.hmac-sha256.v1" ++ [0].
Definition proof_input (principal_id key_id : string) (client_nonce server_nonce challenge_id : list N)
    : list N :=
  PROOF_DOMAIN ++
  concat (length_prefixed <$> [bytes AUTH_PROTOCOL_VERSION; bytes principal_id; bytes key_id;
    client_nonce; server_nonce; challenge_id]).

Definition pending_input (p : PendingChallenge) : list N :=
  proof_input (pg_principal_id p) (pg_key_id p) (pg_client_nonce p) (pg_server_nonce p) (pg_challenge_id p).

(** [AuthSession::begin], with the random server nonce and challenge id *)
Definition begin (a : Authenticator) (request : AuthChallengeRequest) (now : Instant)
    (server_nonce challenge_id : option (list N)) : M AuthSession AuthError AuthChallenge :=
  s ← get;
  fail_if! is_some (as_pending s) with ChallengePending;
  fail_if! cc_max_attempts (at_config a) <=? as_attempts s with AttemptsExceeded;
  fail_if! negb (String.eqb (aq_version request) AUTH_PROTOCOL_VERSION) ||
           negb (auth_identifier (aq_principal_id request)) ||
           negb (auth_identifier (aq_key_id request)) with InvalidRequest;
  client_nonce ← lift (ok_or (decode_canonical CLIENT_NONCE_BYTES (aq_client_nonce request))
    InvalidRequest);
  check! modify (λ s, mkAuthSession (as_attempts s + 1) (as_pending s));
  server_nonce ← lift (ok_or server_nonce RandomUnavailable);
  challenge_id ← lift (ok_or challenge_id RandomUnavailable);
  check! modify (λ s, mkAuthSession (as_attempts s) (Some (mkPendingChallenge
    (aq_principal_id request) (aq_key_id request) client_nonce server_nonce challenge_id now)));
  mret (mkAuthChallenge AUTH_PROTOCOL_VERSION "HMAC-SHA256" (encode_url challenge_id)
    (encode_url server_nonce) (cc_ttl (at_config a) / 10 ^ 6)).

(** [AuthSession::finish] *)
Definition finish (a : Authenticator) (request : AuthProofRequest) (now : Instant)
    : M AuthSession AuthError AuthenticatedPrincipal :=
  s ← get;
  check! modify (λ s, mkAuthSession (as_attempts s) None);
  pending ← lift (ok_or (as_pending s) AuthenticationFailed);
  let supplied_challenge := default (replicate 16 0)
    (decode_canonical CHALLENGE_ID_BYTES (ar_challenge_id request)) in
  let supplied_proof := default (replicate 32 0) (decode_canonical PROOF_BYTES (ar_proof request)) in
  let credential := at_credentials a !! (pg_principal_id pending, pg_key_id pending) in
  let secret := match credential with None => at_dummy_secret a | Some value => cr_secret value end in
  let proof_matches := bool_decide (hmac secret (pending_input pending) = supplied_proof) in
  let challenge_matches := constant_time_eq supplied_challenge (pg_challenge_id pending) in
  let valid := String.eqb (ar_version request) AUTH_PROTOCOL_VERSION &&
    (now - pg_created_at pending <=? cc_ttl (at_config a)) && proof_matches && challenge_matches in
  lift (match valid, credential with
        | true, Some credential =>
            Ok (mkAuthenticatedPrincipal (cr_principal_id credential) (cr_permissions credential))
        | _, _ => Err AuthenticationFailed
        end).

(** [compute_proof], on the side of the client *)
Definition compute_proof (secret : list N) (principal_id key_id client_nonce : string)
    (challenge : AuthChallenge) : result AuthError string :=
  check! reject_if ((len secret <? 32) || (64 <? len secret) || negb (auth_identifier principal_id) ||
      negb (auth_identifier key_id) || negb (String.eqb (ac_version challenge) AUTH_PROTOCOL_VERSION) ||
      negb (String.eqb (ac_algorithm challenge) "HMAC-SHA256")) InvalidRequest;
  client_nonce ← ok_or (decode_canonical CLIENT_NONCE_BYTES client_nonce) InvalidRequest;
  server_nonce ← ok_or (decode_canonical SERVER_NONCE_BYTES (ac_server_nonce challenge)) InvalidRequest;
  challenge_id ← ok_or (decode_canonical CHALLENGE_ID_BYTES (ac_challenge_id challenge)) InvalidRequest;
  Ok (encode_url (hmac secret (proof_input principal_id key_id client_nonce server_nonce challenge_id))).
End Auth.
