(* ===== verification/AuditLog.v ===== *)
(** * The audit log

    [crates/remote-auth/src/audit.rs]: an append-only file of records, each on
    a line of its own, numbered and chained by hashes. The file is its bytes;
    its locking, ownership and identity checks are not modelled. JSON and
    SHA-256 are parameters. *)

From S2P Require Import Prelude Protocol Evidence Control PeerLease RemoteAuth.

Local Open Scope N_scope.

Definition MAX_AUDIT_BYTES : N := 64 * 1024 * 1024.
Definition MAX_RECORD_BYTES : N := 16 * 1024.
Definition LF : N := 0x0A.
Definition ZERO_HASH : string := "0000000000000000000000000000000000000000000000000000000000000000".

Inductive AuditDecision := Allowed | Denied.
Inductive AuditOutcome := AuditSucceeded | AuditFailed.

#[global] Instance AuditDecision_eq_dec : EqDecision AuditDecision.
Proof. solve_decision. Defined.
#[global] Instance AuditOutcome_eq_dec : EqDecision AuditOutcome.
Proof. solve_decision. Defined.

Record AuditEvent := mkAuditEvent {
  ae_at_ms : N;
  ae_connection_id : string;
  ae_principal_id : option string;
  ae_method : string;
  ae_required_permission : option Permission;
  ae_decision : AuditDecision;
  ae_outcome : AuditOutcome;
  ae_error_code : option string;
}.

(** [UnsignedRecord]; the version and the stage are constants *)
Record UnsignedRecord := mkUnsignedRecord {
  ur_sequence : N;
  ur_event : AuditEvent;
  ur_previous_hash : string;
}.

(** [AuditRecord]: the event with its place in the chain *)
Record AuditRecord := mkAuditRecord {
  rc_schema_version : N;
  rc_sequence : N;
  rc_event : AuditEvent;
  rc_previous_hash : string;
  rc_entry_hash : string;
}.

Inductive AuditError :=
| AE_UnsafeFile
| AE_PermissionsUnsupported
| AE_Busy
| AE_TooLarge
| AE_Corrupt
| AE_InvalidEvent
| AE_Io.

(** ** Events *)

(** The bytes of a name: lower case first, and then also others *)
Definition valid_name (value : string) (max : N) (tail : N → bool) : bool :=
  negb (str_len value =? 0) && (str_len value <=? max) &&
  match bytes value with
  | [] => true
  | first :: rest =>
      is_ascii_lowercase first &&
      forallb (λ b, is_ascii_lowercase b || is_ascii_digit b || tail b) rest
  end.

(** [valid_connection_id] *)
Definition valid_connection_id (value : string) : bool :=
  negb (str_len value =? 0) && (str_len value <=? 64) &&
  forallb (λ b, is_ascii_alphanumeric b || (b =? 0x2D) || (b =? 0x5F)) (bytes value).
(** [valid_method] *)
Definition valid_method (value : string) : bool :=
  valid_name value 96 (λ b, (b =? 0x2E) || (b =? 0x5F)).
(** [valid_error_code] *)
Definition valid_error_code (value : string) : bool := valid_name value 64 (λ b, b =? 0x5F).

(** [validate_event] *)
Definition validate_event (e : AuditEvent) : result AuditError () :=
  reject_if ((MAX_SAFE_INTEGER <? ae_at_ms e) || negb (valid_connection_id (ae_connection_id e)) ||
    is_some_and (λ value, negb (auth_identifier value)) (ae_principal_id e) ||
    negb (valid_method (ae_method e)) ||
    is_some_and (λ value, negb (valid_error_code value)) (ae_error_code e) ||
    (bool_decide (ae_decision e = Denied) && negb (bool_decide (ae_outcome e = AuditFailed))))
    AE_InvalidEvent.

(** [is_hash] *)
Definition is_hash (value : string) : bool :=
  (str_len value =? 64) && forallb is_lower_hex (bytes value).

(** ** The log *)

Section Log.
(** The JSON of a record, with and without its hash, its parser, and the
    hexadecimal SHA-256 *)
Context (unsigned_json : UnsignedRecord → option (list N)).
Context (record_json : AuditRecord → option (list N)) (parse_record : list N → option AuditRecord).
Context (sha256_hex : list N → string).

Record AuditState := mkAuditState {
  au_file : list N;
  au_next_sequence : N;
  au_previous_hash : string;
  au_bytes : N;
  au_poisoned : bool;
}.

(** What became of a write: all of it on the disk, or an error after the first
    bytes *)
Inductive WriteResult := Written | WriteFailed (written : nat).

(** [hash_unsigned] *)
Definition HASH_DOMAIN : list N := bytes "devicerail.audit.v1" ++ [0].
Definition hash_unsigned (sequence : N) (e : AuditEvent) (previous_hash : string)
    : result AuditError string :=
  json ← ok_or (unsigned_json (mkUnsignedRecord sequence e previous_hash)) AE_Io;
  Ok (sha256_hex (HASH_DOMAIN ++ json)).

(** [AuditLog::append] *)
Definition append (e : AuditEvent) (w : WriteResult) : M AuditState AuditError AuditRecord :=
  check! lift (validate_event e);
  s ← get;
  fail_if! au_poisoned s with AE_Io;
  let sequence := au_next_sequence s in
  fail_if! MAX_SAFE_INTEGER <? sequence with AE_TooLarge;
  entry_hash ← lift (hash_unsigned sequence e (au_previous_hash s));
  let record := mkAuditRecord 1 sequence e (au_previous_hash s) entry_hash in
  json ← lift (ok_or (record_json record) AE_Io);
  let bytes := json ++ [LF] in
  fail_if! (MAX_RECORD_BYTES <? len bytes) ||
           (MAX_AUDIT_BYTES <? u64_saturating_add (au_bytes s) (len bytes)) with AE_TooLarge;
  match w with
  | WriteFailed written =>
      check! modify (λ s, mkAuditState (au_file s ++ take written bytes) (au_next_sequence s)
        (au_previous_hash s) (au_bytes s) true);
      throw AE_Io
  | Written =>
      check! modify (λ s, mkAuditState (au_file s ++ bytes) (au_next_sequence s + 1) entry_hash
        (au_bytes s + len bytes) (au_poisoned s));
      mret record
  end.

(** [read_until] of a newline, of at most [limit] bytes *)
Fixpoint read_line (limit : nat) (input : list N) : list N * list N :=
  match limit, input with
  | S limit, b :: input =>
      if b =? LF then ([b], input)
      else let '(line, rest) := read_line limit input in (b :: line, rest)
  | _, _ => ([], input)
  end.

Definition LINE_LIMIT : nat := N.to_nat (MAX_RECORD_BYTES + 1).

(** The checks of [verify_reader_collect] on one line *)
Definition verify_line (sequence : N) (previous_hash : string) (line : list N)
    : result AuditError AuditRecord :=
  check! reject_if ((MAX_RECORD_BYTES <? len line) || negb (bool_decide (last line = Some LF)))
    AE_Corrupt;
  record ← ok_or (parse_record (removelast line)) AE_Corrupt;
  check! reject_if (negb (rc_schema_version record =? 1) || negb (rc_sequence record =? sequence) ||
      negb (String.eqb (rc_previous_hash record) previous_hash) || negb (is_hash (rc_entry_hash record)))
    AE_Corrupt;
  check! map_err (λ _, AE_Corrupt) (validate_event (rc_event record));
  hash ← hash_unsigned (rc_sequence record) (rc_event record) (rc_previous_hash record);
  check! reject_if (negb (String.eqb hash (rc_entry_hash record))) AE_Corrupt;
  Ok record.

(** The loop of [verify_reader_collect]; every line takes at least one byte *)
Fixpoint verify_lines (fuel : nat) (input : list N) (sequence : N) (previous_hash : string)
    : result AuditError (N * string * list AuditRecord) :=
  match fuel, input with
  | _, [] => Ok (sequence, previous_hash, [])
  | O, _ => Err AE_Io
  | S fuel, _ =>
      let '(line, rest) := read_line LINE_LIMIT input in
      record ← verify_line sequence previous_hash line;
      rest ← verify_lines fuel rest (sequence + 1) (rc_entry_hash record);
      let '(sequence, hash, records) := rest in
      Ok (sequence, hash, record :: records)
  end.

(** [verify_reader_collect], for a file whose metadata has this length *)
Definition verify_reader_collect (file : list N) (bytes : N)
    : result AuditError (N * string * list AuditRecord) :=
  r ← verify_lines (length file) file 1 ZERO_HASH;
  check! reject_if (negb (len file =? bytes)) AE_Corrupt;
  Ok r.

(** [AuditLog::open] of an existing or a new file *)
Definition audit_open (file : list N) : result AuditError AuditState :=
  check! reject_if (MAX_AUDIT_BYTES <? len file) AE_TooLarge;
  r ← verify_reader_collect file (len file);
  let '(sequence, hash, _) := r in
  Ok (mkAuditState file sequence hash (len file) false).

(** [AuditLog::verify] *)
Definition audit_verify (file : list N) : result AuditError (list AuditRecord) :=
  check! reject_if (MAX_AUDIT_BYTES <? len file) AE_TooLarge;
  r ← verify_reader_collect file (len file);
  Ok (snd r).
End Log.
