(* ===== verification/RemoteAuthProps.v ===== *)
(** * Guarantees of remote authentication and of the audit log

    A proof authenticates the challenge it was made for and no other one, once
    and in time, and an honest client's proof does; the log holds every record
    that was appended, and its last hash stands for all of it. *)

From S2P Require Import Prelude Protocol Evidence Control PeerLease RemoteAuth AuditLog.

Local Open Scope N_scope.

(** ** The audit log *)

Section Audit.
Context (unsigned_json : UnsignedRecord → option (list N)).
Context (parse_record : list N → option AuditRecord) (sha256_hex : list N → string).

#[local] Abbreviation hash_unsigned := (hash_unsigned unsigned_json sha256_hex).
#[local] Abbreviation verify_line := (verify_line unsigned_json parse_record sha256_hex).
#[local] Abbreviation verify_lines := (verify_lines unsigned_json parse_record sha256_hex).
#[local] Abbreviation verify_reader_collect := (verify_reader_collect unsigned_json parse_record sha256_hex).
#[local] Abbreviation audit_open := (audit_open unsigned_json parse_record sha256_hex).
#[local] Abbreviation audit_verify := (audit_verify unsigned_json parse_record sha256_hex).

#[local] Opaque LINE_LIMIT HASH_DOMAIN.

(** *** The last hash *)

(** Records that are numbered and chained from one hash to another *)
Fixpoint chain (n : N) (hash : string) (records : list AuditRecord) (n' : N) (hash' : string) : Prop :=
  match records with
  | [] => n' = n ∧ hash' = hash
  | r :: records =>
      rc_schema_version r = 1 ∧ rc_sequence r = n ∧ rc_previous_hash r = hash ∧
      hash_unsigned n (rc_event r) hash = Ok (rc_entry_hash r) ∧
      chain (n + 1) (rc_entry_hash r) records n' hash'
  end.

Lemma chain_snoc n hash records r n' hash' :
  chain n hash (records ++ [r]) n' hash' ↔
  ∃ m h, chain n hash records m h ∧ rc_schema_version r = 1 ∧ rc_sequence r = m ∧
    rc_previous_hash r = h ∧ hash_unsigned m (rc_event r) h = Ok (rc_entry_hash r) ∧
    n' = m + 1 ∧ hash' = rc_entry_hash r.
Proof.
  revert n hash. induction records as [|x records IH]; intros n hash; cbn.
  - naive_solver.
  - setoid_rewrite IH. naive_solver.
Qed.

Lemma chain_length n hash records n' hash' : chain n hash records n' hash' → n' = n + len records.
Proof.
  revert n hash. induction records as [|r records IH]; intros n hash; cbn [chain].
  - intros [-> _]. unfold len. cbn. lia.
  - intros (_ & _ & _ & _ & H). apply IH in H. unfold len in *. cbn [length]. lia.
Qed.

Lemma verify_line_ok n hash line r :
  verify_line n hash line = Ok r →
  rc_schema_version r = 1 ∧ rc_sequence r = n ∧ rc_previous_hash r = hash ∧
  hash_unsigned n (rc_event r) hash = Ok (rc_entry_hash r) ∧ last line = Some LF.
Proof.
  unfold AuditLog.verify_line. intros H. inv_result. inv_bools.
  repeat match goal with
  | H : (_ =? _) = true |- _ => apply N.eqb_eq in H
  | H : String.eqb _ _ = true |- _ => apply String.eqb_eq in H
  end. subst. done.
Qed.

Lemma verify_lines_chain fuel input n hash n' hash' records :
  verify_lines fuel input n hash = Ok (n', hash', records) → chain n hash records n' hash'.
Proof.
  revert input n hash records. induction fuel as [|fuel IH]; intros [|b input] n hash records;
    cbn [AuditLog.verify_lines]; try (by intros [= <- <- <-]).
  destruct (read_line _ _) as [line rest]. intros H. inv_result. destruct x0 as [[n1 h1] rs]. inv_result.
  match goal with H : _ = Ok x |- _ => apply verify_line_ok in H as (? & ? & ? & ? & _) end.
  split_and!; try done. by eapply IH.
Qed.

(** The text whose hash is the hash of a record *)
Definition hashed_text (r : AuditRecord) : option (list N) :=
  json ← unsigned_json (mkUnsignedRecord (rc_sequence r) (rc_event r) (rc_previous_hash r));
  Some (HASH_DOMAIN ++ json).

(** Two records that stand at the same place of two logs and have the same
    hash, of different texts *)
Definition collision (records records' : list AuditRecord) : Prop :=
  ∃ i r r' x y, records !! i = Some r ∧ records' !! i = Some r' ∧
    hashed_text r = Some x ∧ hashed_text r' = Some y ∧ x ≠ y ∧
    rc_entry_hash r = sha256_hex x ∧ rc_entry_hash r' = sha256_hex y ∧
    rc_entry_hash r = rc_entry_hash r'.

Lemma collision_app records records' more more' :
  collision records records' → collision (records ++ more) (records' ++ more').
Proof.
  intros (i & r & r' & x & y & Hr & Hr' & Hrest). exists i, r, r', x, y.
  by split; [apply lookup_app_l_Some|split; [apply lookup_app_l_Some|]].
Qed.

Lemma hash_unsigned_text r :
  hash_unsigned (rc_sequence r) (rc_event r) (rc_previous_hash r) = Ok (rc_entry_hash r) →
  ∃ x, hashed_text r = Some x ∧ rc_entry_hash r = sha256_hex x.
Proof.
  unfold AuditLog.hash_unsigned, hashed_text. intros H. inv_result.
  match goal with H : unsigned_json _ = Some _ |- _ => rewrite H end. by eexists.
Qed.

(** Two records with the same hash at the end of two logs *)
Lemma last_record_commits records records' r r' :
  (∀ u v b, unsigned_json u = Some b → unsigned_json v = Some b → u = v) →
  length records = length records' →
  hash_unsigned (rc_sequence r) (rc_event r) (rc_previous_hash r) = Ok (rc_entry_hash r) →
  hash_unsigned (rc_sequence r') (rc_event r') (rc_previous_hash r') = Ok (rc_entry_hash r') →
  rc_entry_hash r = rc_entry_hash r' →
  (rc_sequence r = rc_sequence r' ∧ rc_event r = rc_event r' ∧ rc_previous_hash r = rc_previous_hash r') ∨
  collision (records ++ [r]) (records' ++ [r']).
Proof.
  intros Hinj Hlen (x & Hx & Hh)%hash_unsigned_text (y & Hy & Hh')%hash_unsigned_text Heq.
  destruct (decide (x = y)) as [->|Hne]; [left|right].
  - unfold hashed_text in Hx, Hy. apply bind_Some in Hx as (a & Ha & [= Hxa]), Hy as (b & Hb & [= Hyb]).
    rewrite <- Hyb in Hxa. apply app_inv_head in Hxa as ->. injection (Hinj _ _ _ Ha Hb). auto.
  - exists (length records), r, r', x, y. rewrite list_lookup_middle by done.
    by rewrite list_lookup_middle by done.
Qed.

Lemma chain_commits records records' n hash n' hash' :
  (∀ u v b, unsigned_json u = Some b → unsigned_json v = Some b → u = v) →
  chain n hash records n' hash' → chain n hash records' n' hash' →
  records = records' ∨ collision records records'.
Proof.
  intros Hinj. revert records' n' hash'. induction records as [|r records IH] using rev_ind;
    intros records' n' hash' Hc Hc'.
  all: pose proof (chain_length _ _ _ _ _ Hc) as Hl; pose proof (chain_length _ _ _ _ _ Hc') as Hl'.
  all: destruct records' as [|r' records' _] using rev_ind; rewrite ?len_snoc in *; unfold len in *;
    cbn [length] in *; try lia.
  { by left. }
  apply chain_snoc in Hc as (m & h & Hc & Hv & <- & <- & Hh & _ & ->).
  apply chain_snoc in Hc' as (m' & h' & Hc' & Hv' & <- & <- & Hh' & _ & He).
  destruct (last_record_commits records records' r r' Hinj) as [(Hseq & Hevent & Hprev)|]; try done;
    [lia| |by right].
  rewrite <- Hseq, <- Hprev in Hc'.
  destruct (IH _ _ _ Hc Hc') as [->|]; [left|right; by apply collision_app].
  f_equal. f_equal. destruct r, r'; cbn in *. by subst.
Qed.

(** C35: the last hash of an audit log stands for the whole log.  Two logs that
    verify, and that end in the same number and the same hash, have the same
    records; or at some place the two logs have records with the same hash
    whose hashed texts differ, a collision of SHA-256 in the logs themselves. *)
Theorem last_hash_commits file file' bytes bytes' n hash records records' :
  (∀ u v b, unsigned_json u = Some b → unsigned_json v = Some b → u = v) →
  verify_reader_collect file bytes = Ok (n, hash, records) →
  verify_reader_collect file' bytes' = Ok (n, hash, records') →
  records = records' ∨ collision records records'.
Proof.
  intros Hinj H H'. unfold AuditLog.verify_reader_collect in *. inv_result.
  eapply chain_commits; [done|by eapply verify_lines_chain..].
Qed.

(** *** Appending *)

Context (record_json : AuditRecord → option (list N)).
#[local] Abbreviation append := (append unsigned_json record_json sha256_hex).

Lemma read_line_extends limit input line rest more :
  read_line limit input = (line, rest) → last line = Some LF →
  read_line limit (input ++ more) = (line, rest ++ more).
Proof.
  revert input line. induction limit as [|limit IH]; intros [|b input] line; cbn;
    try (by intros [= <- <-]).
  destruct (N.eqb_spec b LF) as [->|Hb]; [by intros [= <- <-]|].
  destruct (read_line limit input) as [l r] eqn:Hr. intros [= <- <-] Hlast.
  destruct l as [|x l]; [cbn in Hlast; by injection Hlast|].
  by rewrite (IH _ _ Hr Hlast).
Qed.

Lemma read_line_length limit input line rest :
  read_line limit input = (line, rest) → length input = (length line + length rest)%nat.
Proof.
  revert input line. induction limit as [|limit IH]; intros [|b input] line; cbn;
    try (by intros [= <- <-]).
  destruct (b =? LF); [by intros [= <- <-]|].
  destruct (read_line limit input) as [l r] eqn:Hr. intros [= <- <-]. cbn. by rewrite (IH _ _ Hr).
Qed.

Lemma read_line_whole json :
  (length json < LINE_LIMIT)%nat → LF ∉ json → read_line LINE_LIMIT (json ++ [LF]) = (json ++ [LF], []).
Proof.
  generalize LINE_LIMIT. induction json as [|b json IH]; intros [|limit]; cbn; try lia; [done|].
  intros Hl [Hb Hin]%not_elem_of_cons. destruct (N.eqb_spec b LF); [by subst|].
  by rewrite IH by (done || lia).
Qed.

Lemma verify_lines_nil fuel n hash : verify_lines fuel [] n hash = Ok (n, hash, []).
Proof. by destruct fuel. Qed.

Lemma verify_lines_step fuel input line rest n hash :
  input ≠ [] → read_line LINE_LIMIT input = (line, rest) →
  verify_lines (S fuel) input n hash =
  r ← verify_line n hash line;
  rest ← verify_lines fuel rest (n + 1) (rc_entry_hash r);
  let '(n, hash, records) := rest in Ok (n, hash, r :: records).
Proof. destruct input; [done|]. intros _ Hr. cbn [AuditLog.verify_lines]. by rewrite Hr. Qed.

(** A line after a file that verifies *)
Lemma verify_lines_snoc fuel file line n hash n' hash' records r :
  verify_lines fuel file n hash = Ok (n', hash', records) →
  read_line LINE_LIMIT line = (line, []) → line ≠ [] → verify_line n' hash' line = Ok r →
  verify_lines (S fuel) (file ++ line) n hash = Ok (n' + 1, rc_entry_hash r, records ++ [r]).
Proof.
  intros H Hline Hne Hr. revert file n hash records H.
  induction fuel as [|fuel IH]; intros [|b file] n hash records; rewrite ?verify_lines_nil;
    [| |intros [= <- <- <-]|].
  - intros [= <- <- <-]. rewrite (verify_lines_step _ _ line []) by done. by rewrite Hr.
  - discriminate.
  - rewrite (verify_lines_step _ _ line []) by done. by rewrite Hr.
  - destruct (read_line LINE_LIMIT (b :: file)) as [l rest] eqn:Hl.
    rewrite (verify_lines_step _ _ l rest) by done. intros H. inv_result. destruct x0 as [[n1 h1] rs].
    inv_result. match goal with H : _ = Ok x |- _ => apply verify_line_ok in H as Hx end.
    rewrite (verify_lines_step _ _ l (rest ++ line)); [|done|by apply read_line_extends; [|apply Hx]].
    match goal with H : _ = Ok x |- _ => rewrite H end.
    match goal with H : _ = Ok (_, _, _) |- _ => apply IH in H end.
    cbn -[AuditLog.verify_lines]. match goal with H : _ = Ok (_, _, _) |- _ => by rewrite H end.
Qed.

Lemma verify_lines_fuel fuel fuel' input n hash r :
  verify_lines fuel input n hash = Ok r → (fuel ≤ fuel')%nat → verify_lines fuel' input n hash = Ok r.
Proof.
  revert fuel' input n hash r. induction fuel as [|fuel IH]; intros fuel' [|b input] n hash r;
    rewrite ?verify_lines_nil; [done|discriminate|done|]. intros H Hle. destruct fuel' as [|fuel']; [lia|].
  destruct (read_line LINE_LIMIT (b :: input)) as [l rest] eqn:Hl.
  rewrite (verify_lines_step fuel _ l rest) in H by done.
  rewrite (verify_lines_step fuel' _ l rest) by done.
  apply result_bind_ok in H as (x & Hx & H). apply result_bind_ok in H as (y & Hy & H).
  rewrite Hx. cbn -[AuditLog.verify_lines]. by rewrite (IH fuel' _ _ _ _ Hy) by lia.
Qed.

(** What the log relies on: its JSON can be read back and has no newline in it,
    and a hash looks like one. *)
Hypothesis json_read_back : ∀ r json, record_json r = Some json → parse_record json = Some r ∧ LF ∉ json.
Hypothesis hash_is_hex : ∀ x, is_hash (sha256_hex x) = true.

Record log_ok (s : AuditState) (records : list AuditRecord) : Prop := mkLogOk {
  log_verifies : verify_lines (length (au_file s)) (au_file s) 1 ZERO_HASH =
    Ok (au_next_sequence s, au_previous_hash s, records);
  log_bytes : au_bytes s = len (au_file s);
  log_bounded : len (au_file s) ≤ MAX_AUDIT_BYTES;
}.

(** The line that [append] writes verifies. *)
Lemma appended_line e n hash entry_hash json :
  validate_event e = Ok () → hash_unsigned n e hash = Ok entry_hash →
  record_json (mkAuditRecord 1 n e hash entry_hash) = Some json →
  len (json ++ [LF]) ≤ MAX_RECORD_BYTES →
  read_line LINE_LIMIT (json ++ [LF]) = (json ++ [LF], []) ∧
  verify_line n hash (json ++ [LF]) = Ok (mkAuditRecord 1 n e hash entry_hash).
Proof.
  intros Hv Hh Hj Hlen. destruct (json_read_back _ _ Hj) as [Hparse Hlf]. split.
  - apply read_line_whole; [|done]. rewrite len_snoc in Hlen. unfold len in Hlen.
    Transparent LINE_LIMIT. unfold LINE_LIMIT. Opaque LINE_LIMIT. lia.
  - unfold AuditLog.verify_line. rewrite last_snoc, bool_decide_true by done.
    replace (MAX_RECORD_BYTES <? len (json ++ [LF])) with false by (symmetry; by apply N.ltb_ge).
    rewrite removelast_last, Hparse. cbn -[validate_event AuditLog.hash_unsigned].
    assert (is_hash entry_hash = true) as ->.
    { unfold AuditLog.hash_unsigned in Hh. inv_result. apply hash_is_hex. }
    rewrite N.eqb_refl, String.eqb_refl, Hv. cbn -[AuditLog.hash_unsigned].
    rewrite Hh. cbn. by rewrite String.eqb_refl.
Qed.

(** The log with that line *)
Lemma log_grows s records e entry_hash json :
  log_ok s records → validate_event e = Ok () →
  hash_unsigned (au_next_sequence s) e (au_previous_hash s) = Ok entry_hash →
  let record := mkAuditRecord 1 (au_next_sequence s) e (au_previous_hash s) entry_hash in
  record_json record = Some json → len (json ++ [LF]) ≤ MAX_RECORD_BYTES →
  u64_saturating_add (au_bytes s) (len (json ++ [LF])) ≤ MAX_AUDIT_BYTES →
  log_ok (mkAuditState (au_file s ++ json ++ [LF]) (au_next_sequence s + 1) entry_hash
    (au_bytes s + len (json ++ [LF])) (au_poisoned s)) (records ++ [record]).
Proof.
  intros [Hf Hb Hbound] Hv Hh record Hj Hlen Htotal.
  destruct (appended_line _ _ _ _ _ Hv Hh Hj Hlen) as [Hread Hline].
  constructor; cbn [au_file au_next_sequence au_previous_hash au_bytes].
  - eapply verify_lines_fuel.
    + eapply (verify_lines_snoc _ _ _ _ _ _ _ _ record Hf Hread); [by destruct json|done].
    + rewrite !length_app. cbn. lia.
  - by rewrite Hb, !len_app.
  - rewrite len_app. apply N.min_le_iff in Htotal as [Htotal|Htotal]; [by rewrite <- Hb|].
    by apply N.leb_le in Htotal.
Qed.

Lemma append_spec e w s records r s' :
  log_ok s records → append e w s = (r, s') →
  match r with
  | Ok record => au_poisoned s = false ∧ au_poisoned s' = false ∧ log_ok s' (records ++ [record])
  | Err _ => s' = s ∨
      (au_poisoned s = false ∧ au_poisoned s' = true ∧ ∃ extra, au_file s' = au_file s ++ extra)
  end.
Proof.
  intros Hs. unfold AuditLog.append. destruct (validate_event e) as [[]|] eqn:Hv; [|by intros [= <- <-]; left].
  unfold mbind, M_bind, get, lift, modify, throw, mret, M_ret. cbn -[AuditLog.hash_unsigned].
  destruct (au_poisoned s) eqn:Hp; [by intros [= <- <-]; left|]. cbn -[AuditLog.hash_unsigned].
  destruct (MAX_SAFE_INTEGER <? _); [by intros [= <- <-]; left|]. cbn -[AuditLog.hash_unsigned].
  destruct (hash_unsigned _ _ _) as [entry_hash|] eqn:Hh; [|by intros [= <- <-]; left].
  destruct (record_json _) as [json|] eqn:Hj; cbn; [|by intros [= <- <-]; left].
  destruct (_ || _) eqn:Hbig; cbn; [by intros [= <- <-]; left|].
  destruct w as [|written]; intros [= <- <-].
  2: { right. split; [done|]. split; [done|]. by eexists. }
  apply orb_false_iff in Hbig as [H1%N.ltb_ge H2%N.ltb_ge]. split; [done|]. split; [done|].
  by apply log_grows.
Qed.

(** What is done with a log: events are appended, some of them in vain. *)
Inductive appends : AuditState → list AuditRecord → AuditState → Prop :=
| appends_nil s : appends s [] s
| appends_ok s e w record s1 records s' :
    append e w s = (Ok record, s1) → appends s1 records s' → appends s (record :: records) s'
| appends_err s e w error s1 records s' :
    append e w s = (Err error, s1) → appends s1 records s' → appends s records s'.

Lemma append_poisoned e w s r s' :
  au_poisoned s = true → append e w s = (r, s') → s' = s ∧ is_err r = true.
Proof.
  intros Hp. unfold AuditLog.append, mbind, M_bind, get, lift.
  destruct (validate_event e) as [[]|]; [|by intros [= <- <-]]. rewrite Hp. by intros [= <- <-].
Qed.

(** A log, and what is left of it when a write failed *)
Definition holds (s : AuditState) (records : list AuditRecord) : Prop :=
  ∃ s1 extra, log_ok s1 records ∧ au_file s = au_file s1 ++ extra ∧
    (au_poisoned s = false → s1 = s ∧ extra = []).

Lemma append_holds e w s records r s' :
  holds s records → append e w s = (r, s') →
  holds s' (records ++ match r with Ok record => [record] | Err _ => [] end).
Proof.
  intros (s1 & extra & Hs1 & Hfile & Hp) Hrun. destruct (au_poisoned s) eqn:Hpoisoned.
  - destruct (append_poisoned _ _ _ _ _ Hpoisoned Hrun) as [-> Hr]. destruct r; [done|].
    rewrite app_nil_r. exists s1, extra. split; [done|]. split; [done|]. by rewrite Hpoisoned.
  - destruct Hp as [-> ->]; [done|]. pose proof (append_spec _ _ _ _ _ _ Hs1 Hrun) as Hspec.
    destruct r as [record|e']; [destruct Hspec as (_ & Hp' & Hs')|destruct Hspec as [->|(_ & Hp' & more & Hmore)]].
    + exists s', []. by rewrite app_nil_r.
    + rewrite app_nil_r. exists s, []. by rewrite app_nil_r.
    + rewrite app_nil_r. exists s, more. split; [done|]. split; [done|]. by rewrite Hp'.
Qed.

Lemma appends_holds s records0 records s' :
  holds s records0 → appends s records s' → holds s' (records0 ++ records).
Proof.
  intros Hs Hruns. revert records0 Hs.
  induction Hruns as [s|s e w record s1 records s' Hrun _ IH|s e w error s1 records s' Hrun _ IH];
    intros records0 Hs.
  - by rewrite app_nil_r.
  - apply (append_holds _ _ _ _ _ _ Hs) in Hrun. apply IH in Hrun. by rewrite <- app_assoc in Hrun.
  - apply (append_holds _ _ _ _ _ _ Hs) in Hrun. rewrite app_nil_r in Hrun. by apply IH.
Qed.

(** Opening and verifying, of a log that holds its records *)
Lemma verify_log_ok s records :
  log_ok s records → audit_verify (au_file s) = Ok records ∧
  audit_open (au_file s) =
    Ok (mkAuditState (au_file s) (au_next_sequence s) (au_previous_hash s) (au_bytes s) false).
Proof.
  intros [Hf Hb Hbound]. unfold AuditLog.audit_verify, AuditLog.audit_open, AuditLog.verify_reader_collect.
  replace (MAX_AUDIT_BYTES <? len (au_file s)) with false by (symmetry; by apply N.ltb_ge).
  rewrite Hf, N.eqb_refl, Hb. done.
Qed.

Lemma audit_open_ok file s :
  audit_open file = Ok s → ∃ records, audit_verify file = Ok records ∧ log_ok s records ∧
    au_poisoned s = false.
Proof.
  unfold AuditLog.audit_verify, AuditLog.audit_open, AuditLog.verify_reader_collect. intros H.
  apply result_bind_ok in H as ([] & Hb & H). rewrite Hb.
  apply result_bind_ok in H as ([[n hash] records] & Hr & [= <-]). rewrite Hr.
  apply result_bind_ok in Hr as (r & Hr & Hlen). apply result_bind_ok in Hlen as ([] & _ & [= ->]).
  exists records. split; [done|]. split; [|done]. constructor; [done|done|]. inv_result. by apply N.ltb_ge.
Qed.

(** C32: the audit log holds what was appended.  Whatever events are appended
    to a log that was opened, and whichever of these attempts fail: the file
    starts with a log that verifies, and whose records are those of before and
    those that the appends returned, in this order; and as long as no write
    has failed that is the whole file, and opening it again gives back the
    state of the log. *)
Theorem audit_log_holds_its_records file s records s' :
  audit_open file = Ok s → appends s records s' →
  ∃ before whole extra, audit_verify file = Ok before ∧ au_file s' = whole ++ extra ∧
    audit_verify whole = Ok (before ++ records) ∧
    (au_poisoned s' = false → extra = [] ∧ audit_open (au_file s') = Ok s').
Proof.
  intros (before & Hbefore & Hs & Hp)%audit_open_ok Hruns.
  destruct (appends_holds s before records s') as (s1 & extra & Hs1 & Hfile & Hp1); [|done|].
  { exists s, []. by rewrite app_nil_r. }
  destruct (verify_log_ok _ _ Hs1) as [Hverify Hopen]. exists before, (au_file s1), extra.
  split; [done|]. split; [done|]. split; [done|]. intros Hp'. destruct (Hp1 Hp') as [-> ->].
  split; [done|]. rewrite Hopen. destruct s'; cbn in *. by rewrite Hp'.
Qed.
End Audit.

(** ** Authentication *)

(** *** The input of a proof *)

Lemma bytes_inj s s' : bytes s = bytes s' → s = s'.
Proof.
  unfold bytes. intros H%(f_equal (map Ascii.ascii_of_N)). rewrite !map_map in H.
  assert (∀ l, map (λ x, Ascii.ascii_of_N (Ascii.N_of_ascii x)) l = l) as Hid.
  { intros l. rewrite <- map_id. apply map_ext, Ascii.ascii_N_embedding. }
  rewrite !Hid in H. apply (f_equal String.string_of_list_ascii) in H.
  by rewrite !String.string_of_list_ascii_of_string in H.
Qed.

(** A field can be read off before anything that follows it. *)
Lemma length_prefixed_inj f f' rest rest' :
  len f < 65536 → len f' < 65536 → length_prefixed f ++ rest = length_prefixed f' ++ rest' →
  f = f' ∧ rest = rest'.
Proof.
  intros Hf Hf'. unfold length_prefixed. rewrite (N.mod_small (len f)), (N.mod_small (len f')) by done. cbn.
  intros [=Hhi Hlo Happ].
  apply app_inj_1 in Happ; [done|].
  assert (len f = len f') as Hlen.
  { etrans; [apply (N.div_mod' (len f) 256)|]. rewrite Hhi, Hlo. symmetry. apply N.div_mod'. }
  unfold len in Hlen. lia.
Qed.

(** What the fields of a challenge are bounded by *)
Definition small (p : PendingChallenge) : Prop :=
  len (bytes (pg_principal_id p)) < 65536 ∧ len (bytes (pg_key_id p)) < 65536 ∧
  len (pg_client_nonce p) < 65536 ∧ len (pg_server_nonce p) < 65536 ∧ len (pg_challenge_id p) < 65536.

Definition same_challenge (p p' : PendingChallenge) : Prop :=
  pg_principal_id p = pg_principal_id p' ∧ pg_key_id p = pg_key_id p' ∧
  pg_client_nonce p = pg_client_nonce p' ∧ pg_server_nonce p = pg_server_nonce p' ∧
  pg_challenge_id p = pg_challenge_id p'.

Lemma pending_input_inj p p' :
  small p → small p' → pending_input p = pending_input p' → same_challenge p p'.
Proof.
  intros (H1 & H2 & H3 & H4 & H5) (H1' & H2' & H3' & H4' & H5').
  unfold pending_input, proof_input. intros H%app_inv_head. revert H. cbn [fmap list_fmap concat].
  intros H. apply length_prefixed_inj in H as [_ H]; [|done..].
  apply length_prefixed_inj in H as [Hp H]; [|done..]. apply length_prefixed_inj in H as [Hk H]; [|done..].
  apply length_prefixed_inj in H as [Hc H]; [|done..]. apply length_prefixed_inj in H as [Hs H]; [|done..].
  apply length_prefixed_inj in H as [Hi _]; [|done..].
  split_and!; try done; by apply bytes_inj.
Qed.

(** *** Sessions *)

Section Sessions.
Context (encode_url : list N → string) (decode_url : string → option (list N)).
Context (hmac : list N → list N → list N).

#[local] Abbreviation begin := (begin encode_url decode_url).
#[local] Abbreviation finish := (finish encode_url decode_url hmac).
#[local] Abbreviation compute_proof := (compute_proof encode_url decode_url hmac).
#[local] Abbreviation decode_canonical := (decode_canonical encode_url decode_url).

Lemma constant_time_eq_refl l : constant_time_eq l l = true.
Proof.
  unfold constant_time_eq. rewrite N.eqb_refl. cbn.
  assert (∀ l : list N, foldl (λ d '(x, y), N.lor d (N.lxor x y)) 0 (zip l l) = 0) as ->; [|done].
  clear l. induction l as [|x l IH]; [done|]. cbn. by rewrite N.lxor_nilpotent.
Qed.

Lemma constant_time_eq_true l l' : constant_time_eq l l' = true → l = l'.
Proof.
  unfold constant_time_eq. destruct (N.eqb_spec (len l) (len l')) as [Hlen|]; [|done]. cbn.
  intros H%N.eqb_eq. assert (length l = length l') as Hl by (unfold len in Hlen; lia). clear Hlen.
  revert H. generalize 0 at 1. revert l' Hl. induction l as [|x l IH]; intros [|y l'] Hl d; try done.
  cbn. intros H. injection Hl as Hl. f_equal; [|by eapply IH].
  assert (∀ (z : list (N * N)) d, foldl (λ d '(x, y), N.lor d (N.lxor x y)) d z = 0 → d = 0) as Hzero.
  { clear. induction z as [|[a b] z IH]; intros d; cbn; [done|]. intros [Hd _]%IH%N.lor_eq_0_iff. done. }
  apply Hzero, N.lor_eq_0_iff in H as [_ H]. by apply N.lxor_eq.
Qed.

(** What is done with a session; random bytes fill their arrays *)
Definition fills (n : N) (random : option (list N)) : Prop := ∀ l, random = Some l → len l = n.

Inductive session_step (a : Authenticator) : AuthSession → AuthSession → Prop :=
| step_begin request now server_nonce challenge_id s r s' :
    fills SERVER_NONCE_BYTES server_nonce → fills CHALLENGE_ID_BYTES challenge_id →
    begin a request now server_nonce challenge_id s = (r, s') → session_step a s s'
| step_finish request now s r s' :
    finish a request now s = (r, s') → session_step a s s'.

Record session_ok (a : Authenticator) (s : AuthSession) : Prop := mkSessionOk {
  ok_attempts : as_attempts s ≤ cc_max_attempts (at_config a);
  ok_pending p : as_pending s = Some p → small p;
}.

Lemma len_bytes value : len (bytes value) = str_len value.
Proof.
  unfold len, bytes, str_len. rewrite length_map. f_equal.
  induction value as [|a value IH]; [done|]. cbn. by rewrite IH.
Qed.

Lemma identifier_small value : auth_identifier value = true → len (bytes value) < 65536.
Proof.
  unfold auth_identifier, valid_identifier. intros H. apply andb_true_iff in H as [H _].
  apply andb_true_iff in H as [_ H]. apply N.leb_le in H. rewrite len_bytes. lia.
Qed.

Lemma decode_canonical_len n value l : decode_canonical n value = Some l → len l = n.
Proof.
  unfold RemoteAuth.decode_canonical. intros (l' & _ & H)%bind_Some.
  destruct (negb (len l' =? n) || _) eqn:Hb; [done|]. injection H as <-. inv_bools. by apply N.eqb_eq.
Qed.

Lemma begin_ok a request now server_nonce challenge_id s r s' :
  fills SERVER_NONCE_BYTES server_nonce → fills CHALLENGE_ID_BYTES challenge_id → session_ok a s →
  begin a request now server_nonce challenge_id s = (r, s') → session_ok a s'.
Proof.
  intros Hn Hi Hok. pose proof (ok_attempts _ _ Hok) as Hs. unfold RemoteAuth.begin, mbind, M_bind, get, lift, modify. cbn.
  destruct (as_pending s) as [p|] eqn:Hpending; cbn; [by intros [= <- <-]|].
  destruct (N.leb_spec (cc_max_attempts (at_config a)) (as_attempts s)); cbn; [by intros [= <- <-]|].
  destruct (negb _ || _ || _) eqn:Hids; cbn; [by intros [= <- <-]|].
  destruct (decode_canonical _ _) as [client_nonce|] eqn:Hc; cbn; [|by intros [= <- <-]].
  assert (session_ok a (mkAuthSession (as_attempts s + 1) None)) as Hmid by (constructor; cbn; [lia|done]).
  destruct server_nonce as [server_nonce|]; cbn; [|by intros [= <- <-]].
  destruct challenge_id as [challenge_id|]; cbn; [|by intros [= <- <-]].
  intros [= <- <-]. constructor; cbn; [lia|]. intros p [= <-]. inv_bools.
  apply decode_canonical_len in Hc. specialize (Hn _ eq_refl). specialize (Hi _ eq_refl).
  unfold CLIENT_NONCE_BYTES, SERVER_NONCE_BYTES, CHALLENGE_ID_BYTES in *.
  split_and!; cbn; try (by apply identifier_small); lia.
Qed.

Lemma finish_pending a request now s r s' :
  finish a request now s = (r, s') → s' = mkAuthSession (as_attempts s) None.
Proof.
  unfold RemoteAuth.finish, mbind, M_bind, get, lift, modify. cbn.
  destruct (as_pending s); cbn; by intros [= _ <-].
Qed.

Lemma session_reachable_ok a s : rtc (session_step a) auth_session s → session_ok a s.
Proof.
  apply (rtc_ind_r (session_ok a)); [constructor; cbn; [lia|done]|].
  intros s1 s2 _ Hstep Hs. destruct Hstep as [request now sn ci s1 r s2 Hn Hi Hrun|request now s1 r s2 Hrun].
  - by eapply begin_ok.
  - apply finish_pending in Hrun as ->. constructor; [apply Hs|done].
Qed.

(** What a successful [finish] saw *)
Lemma finish_ok a request now s principal s' :
  finish a request now s = (Ok principal, s') →
  ∃ p c, as_pending s = Some p ∧ at_credentials a !! (pg_principal_id p, pg_key_id p) = Some c ∧
    principal = mkAuthenticatedPrincipal (cr_principal_id c) (cr_permissions c) ∧
    now - pg_created_at p ≤ cc_ttl (at_config a) ∧
    hmac (cr_secret c) (pending_input p) =
      default (replicate 32 0) (decode_canonical PROOF_BYTES (ar_proof request)) ∧
    ar_version request = AUTH_PROTOCOL_VERSION ∧
    default (replicate 16 0) (decode_canonical CHALLENGE_ID_BYTES (ar_challenge_id request)) =
      pg_challenge_id p ∧
    as_pending s' = None.
Proof.
  intros H. pose proof (finish_pending _ _ _ _ _ _ H) as ->. revert H.
  unfold RemoteAuth.finish, mbind, M_bind, get, lift, modify. cbn.
  destruct (as_pending s) as [p|]; cbn; [|done].
  destruct (at_credentials a !! _) as [c|] eqn:Hc; [|by destruct (_ && _ && _ && _)].
  destruct (_ && _ && _ && _) eqn:Hvalid; [|done]. intros [= <-]. inv_bools. exists p, c.
  split_and!; try done; [by apply N.leb_le|by apply String.eqb_eq|by apply constant_time_eq_true].
Qed.

(** C27: a proof authenticates one challenge.  A session answers at most as
    many challenges as it is configured for, and [finish] ends the one that is
    pending.  A session that [finish] authenticates was in time, with a request
    of this version of the protocol that names the challenge that is pending,
    and a proof made with the secret of the credential that it was asked for,
    and it gets the permissions of that credential. If the same proof authenticates a session of any authenticator
    again, with the same secret, then for the same principal, key, nonces and
    challenge id, or HMAC gives one result for two different inputs. *)
Theorem proofs_are_not_replayed a a' s s' request request' now now' principal principal' t t' :
  rtc (session_step a) auth_session s → rtc (session_step a') auth_session s' →
  finish a request now s = (Ok principal, t) → finish a' request' now' s' = (Ok principal', t') →
  as_attempts s ≤ cc_max_attempts (at_config a) ∧ as_pending t = None ∧
  ∃ p p' c c', as_pending s = Some p ∧ as_pending s' = Some p' ∧
    at_credentials a !! (pg_principal_id p, pg_key_id p) = Some c ∧
    at_credentials a' !! (pg_principal_id p', pg_key_id p') = Some c' ∧
    principal = mkAuthenticatedPrincipal (cr_principal_id c) (cr_permissions c) ∧
    now - pg_created_at p ≤ cc_ttl (at_config a) ∧
    ar_version request = AUTH_PROTOCOL_VERSION ∧
    default (replicate 16 0) (decode_canonical CHALLENGE_ID_BYTES (ar_challenge_id request)) =
      pg_challenge_id p ∧
    default (replicate 32 0) (decode_canonical PROOF_BYTES (ar_proof request)) =
      hmac (cr_secret c) (pending_input p) ∧
    (ar_proof request = ar_proof request' → cr_secret c = cr_secret c' →
      same_challenge p p' ∨
      (pending_input p ≠ pending_input p' ∧
       hmac (cr_secret c) (pending_input p) = hmac (cr_secret c) (pending_input p'))).
Proof.
  intros Hs%session_reachable_ok Hs'%session_reachable_ok H H'.
  apply finish_ok in H as (p & c & Hp & Hc & -> & Htime & Hproof & Hversion & Hid & Ht).
  apply finish_ok in H' as (p' & c' & Hp' & Hc' & _ & _ & Hproof' & _ & _ & _).
  split; [apply Hs|]. split; [done|]. exists p, p', c, c'. split_and!; try done.
  intros Heq Hsecret. rewrite Heq, <- Hproof', <- Hsecret in Hproof.
  destruct (decide (pending_input p = pending_input p')) as [Hin|Hne]; [left|by right].
  apply pending_input_inj; [exact (ok_pending _ _ Hs _ Hp)|exact (ok_pending _ _ Hs' _ Hp')|done].
Qed.

(** *** Honest clients *)

Hypothesis url_inverts : ∀ l, decode_url (encode_url l) = Some l.
Hypothesis hmac_length : ∀ secret input, len (hmac secret input) = PROOF_BYTES.

Lemma decode_canonical_encode n l : len l = n → decode_canonical n (encode_url l) = Some l.
Proof.
  intros <-. unfold RemoteAuth.decode_canonical. rewrite url_inverts. cbn.
  by rewrite N.eqb_refl, String.eqb_refl.
Qed.

(** C28: an honest client authenticates.  A client that has the secret of a
    credential, asks for a challenge in a session that has none pending and
    attempts left, and sends the proof that it computes for the challenge
    before it expires, is authenticated as the principal of the credential
    with its permissions. *)
Theorem honest_client_authenticates a s principal_id key_id c nonce server_nonce challenge_id now now' :
  at_credentials a !! (principal_id, key_id) = Some c →
  auth_identifier principal_id = true → auth_identifier key_id = true →
  32 ≤ len (cr_secret c) → len (cr_secret c) ≤ 64 →
  len nonce = CLIENT_NONCE_BYTES → len server_nonce = SERVER_NONCE_BYTES →
  len challenge_id = CHALLENGE_ID_BYTES →
  as_pending s = None → as_attempts s < cc_max_attempts (at_config a) →
  now' - now ≤ cc_ttl (at_config a) →
  ∃ challenge proof s1 s2,
    begin a (mkAuthChallengeRequest AUTH_PROTOCOL_VERSION principal_id key_id (encode_url nonce)) now
      (Some server_nonce) (Some challenge_id) s = (Ok challenge, s1) ∧
    compute_proof (cr_secret c) principal_id key_id (encode_url nonce) challenge = Ok proof ∧
    finish a (mkAuthProofRequest AUTH_PROTOCOL_VERSION (ac_challenge_id challenge) proof) now' s1 =
      (Ok (mkAuthenticatedPrincipal (cr_principal_id c) (cr_permissions c)), s2).
Proof.
  intros Hc Hpid Hkid Hmin Hmax Hnonce Hsn Hci Hpending Hattempts Htime.
  apply N.ltb_ge in Hmin, Hmax. eexists _, _, _, _. split_and!.
  - unfold RemoteAuth.begin, mbind, M_bind, get, lift, modify. cbn. rewrite Hpending. cbn.
    replace (_ <=? _) with false by (symmetry; by apply N.leb_gt). cbn.
    rewrite Hpid, Hkid, decode_canonical_encode by done. reflexivity.
  - unfold RemoteAuth.compute_proof. cbn -[N.ltb]. rewrite Hmin, Hmax, Hpid, Hkid. cbn.
    rewrite !decode_canonical_encode by done. reflexivity.
  - unfold RemoteAuth.finish, mbind, M_bind, get, lift, modify. cbn.
    rewrite Hc, !decode_canonical_encode by done. cbn.
    rewrite bool_decide_true by done. rewrite constant_time_eq_refl.
    replace (now' - now <=? _) with true by (symmetry; by apply N.leb_le). reflexivity.
Qed.
End Sessions.

(** ** Examples *)

Module AuthExamples.

(** An encoding of events as data that can be read back *)
Abbreviation Code :=
  (N * string * option string * string * option Permission * bool * bool * option string)%type.
Definition event_code (e : AuditEvent) : Code :=
  (ae_at_ms e, ae_connection_id e, ae_principal_id e, ae_method e, ae_required_permission e,
   bool_decide (ae_decision e = Allowed), bool_decide (ae_outcome e = AuditSucceeded), ae_error_code e).
Definition event_of (c : Code) : AuditEvent :=
  let '(at_ms, connection_id, principal_id, method, permission, allowed, succeeded, error_code) := c in
  mkAuditEvent at_ms connection_id principal_id method permission (if (allowed : bool) then Allowed else Denied)
    (if (succeeded : bool) then AuditSucceeded else AuditFailed) error_code.

Lemma event_of_code e : event_of (event_code e) = e.
Proof. by destruct e as [?????[] []?]. Qed.

Definition unsigned_json (u : UnsignedRecord) : option (list N) :=
  Some [Npos (encode (ur_sequence u, event_code (ur_event u), ur_previous_hash u))].
Definition record_json (r : AuditRecord) : option (list N) :=
  Some [Npos (xI (xI (xI (xI (encode (rc_schema_version r, rc_sequence r, event_code (rc_event r),
    rc_previous_hash r, rc_entry_hash r))))))].
Definition parse_record (json : list N) : option AuditRecord :=
  match json with
  | [Npos (xI (xI (xI (xI p))))] =>
      '(version, sequence, code, previous_hash, entry_hash) ← countable.decode p;
      Some (mkAuditRecord version sequence (event_of code) previous_hash entry_hash)
  | _ => None
  end.
Definition sha256_hex (x : list N) : string :=
  "00000000000000000000000000000000000000000000000000000000000000ff".

Lemma unsigned_json_inj u v b : unsigned_json u = Some b → unsigned_json v = Some b → u = v.
Proof.
  unfold unsigned_json. intros [= <-] [= Heq%(inj encode)]. destruct u as [n e h], v as [n' e' h'].
  symmetry in Heq. assert (event_code e = event_code e') as He by exact (f_equal (λ x, x.1.2) Heq).
  apply (f_equal event_of) in He. rewrite !event_of_code in He.
  f_equal; [exact (f_equal (λ x, x.1.1) Heq)|done|exact (f_equal snd Heq)].
Qed.

Lemma json_read_back r json : record_json r = Some json → parse_record json = Some r ∧ LF ∉ json.
Proof.
  unfold record_json. intros [= <-]. split.
  - unfold parse_record. rewrite decode_encode. cbn -[event_of event_code]. rewrite event_of_code. by destruct r.
  - intros Hin%list_elem_of_singleton. discriminate.
Qed.

(** A log with one record *)
Definition event : AuditEvent :=
  mkAuditEvent 9 "c" None "m" (Some RemoteAuth.Control) Allowed AuditSucceeded None.
Definition log0 : AuditState := mkAuditState [] 1 ZERO_HASH 0 false.
Definition record1 : AuditRecord := mkAuditRecord 1 1 event ZERO_HASH (sha256_hex []).
Definition log1 : AuditState := snd (append unsigned_json record_json sha256_hex event Written log0).

Lemma log1_appended :
  append unsigned_json record_json sha256_hex event Written log0 = (Ok record1, log1).
Proof. vm_compute. reflexivity. Qed.

Lemma audit_log_holds_its_records_witness :
  ∃ whole extra, au_file log1 = whole ++ extra ∧
    audit_verify unsigned_json parse_record sha256_hex whole = Ok [record1].
Proof.
  destruct (audit_log_holds_its_records unsigned_json parse_record sha256_hex record_json json_read_back
    (λ _, eq_refl) [] log0 [record1] log1) as (before & whole & extra & Hb & Hf & Hv & _).
  - vm_compute. reflexivity.
  - eapply appends_ok; [exact log1_appended|apply appends_nil].
  - exists whole, extra. split; [exact Hf|]. vm_compute in Hb. injection Hb as <-. exact Hv.
Defined.

Lemma last_hash_commits_witness :
  [record1] = [record1] ∨ collision unsigned_json sha256_hex [record1] [record1].
Proof.
  apply (last_hash_commits unsigned_json parse_record sha256_hex (au_file log1) (au_file log1)
    (au_bytes log1) (au_bytes log1) 2 (sha256_hex [])).
  - exact unsigned_json_inj.
  - vm_compute. reflexivity.
  - vm_compute. reflexivity.
Defined.

(** A client, its credential, and a session *)
Definition hmac (secret input : list N) : list N := replicate 32 (len input mod 256).
Definition credential : Credential :=
  mkCredential "controller" (replicate 32 9) {[RemoteAuth.Control]}.
Definition authenticator : Authenticator :=
  mkAuthenticator {[("controller"%string, "key-1"%string) := credential]} (replicate 32 1)
    (mkChallengeConfig (from_millis 10000) 3).

Lemma honest_client_authenticates_witness :
  ∃ challenge proof s1 s2,
    begin text_of text_to authenticator (mkAuthChallengeRequest AUTH_PROTOCOL_VERSION "controller" "key-1"
      (text_of (replicate 32 3))) 0 (Some (replicate 32 4)) (Some (replicate 16 5)) auth_session =
      (Ok challenge, s1) ∧
    compute_proof text_of text_to hmac (cr_secret credential) "controller" "key-1"
      (text_of (replicate 32 3)) challenge = Ok proof ∧
    finish text_of text_to hmac authenticator
      (mkAuthProofRequest AUTH_PROTOCOL_VERSION (ac_challenge_id challenge) proof) 5 s1 =
      (Ok (mkAuthenticatedPrincipal "controller" {[RemoteAuth.Control]}), s2).
Proof.
  apply (honest_client_authenticates text_of text_to hmac text_to_of (λ _ _, eq_refl) authenticator
    auth_session "controller" "key-1" credential); vm_compute; done.
Defined.

(** The session after [begin], and the proof that ends it *)
Definition begun : AuthSession :=
  snd (begin text_of text_to authenticator (mkAuthChallengeRequest AUTH_PROTOCOL_VERSION "controller" "key-1"
    (text_of (replicate 32 3))) 0 (Some (replicate 32 4)) (Some (replicate 16 5)) auth_session).
Definition pending : PendingChallenge :=
  mkPendingChallenge "controller" "key-1" (replicate 32 3) (replicate 32 4) (replicate 16 5) 0.
Definition proof : AuthProofRequest :=
  mkAuthProofRequest AUTH_PROTOCOL_VERSION (text_of (replicate 16 5))
    (text_of (hmac (cr_secret credential) (pending_input pending))).

Lemma proofs_are_not_replayed_witness :
  as_attempts begun ≤ 3 ∧
  ∃ p, as_pending begun = Some p ∧
    default (replicate 16 0) (decode_canonical text_of text_to CHALLENGE_ID_BYTES (ar_challenge_id proof)) =
      pg_challenge_id p.
Proof.
  assert (rtc (session_step text_of text_to hmac authenticator) auth_session begun) as Hreach.
  { apply rtc_once. eapply (step_begin _ _ _ _ (mkAuthChallengeRequest AUTH_PROTOCOL_VERSION "controller" "key-1"
      (text_of (replicate 32 3))) 0 (Some (replicate 32 4)) (Some (replicate 16 5))).
    - intros l [= <-]. reflexivity.
    - intros l [= <-]. reflexivity.
    - vm_compute. reflexivity. }
  assert (finish text_of text_to hmac authenticator proof 5 begun =
    (Ok (mkAuthenticatedPrincipal "controller" {[RemoteAuth.Control]}), mkAuthSession 1 None)) as Hrun
    by (vm_compute; reflexivity).
  destruct (proofs_are_not_replayed _ _ _ _ _ _ _ _ _ _ _ _ _ _ _ Hreach Hreach Hrun Hrun)
    as (Hattempts & _ & p & _ & _ & _ & Hp & _ & _ & _ & _ & _ & _ & Hid & _).
  split; [exact Hattempts|]. exists p. split; [exact Hp|exact Hid].
Defined.
End AuthExamples.
