(* ===== verification/RemoteDriver.v ===== *)
(** * Driving a device on another node

    [crates/distributed-router/src/driver.rs]: the Driver that forwards every
    operation to a peer under a lease it acquires and renews, and that imports
    the evidence of the peer's answers into the local Evidence Store, so that
    no reference to the peer's store leaves it.

    A method holds the lock of [DriverState] over its awaits ([AM]). An
    exchange with the peer ([exchange_raw] of PeerTransport.v), the clocks, the
    control and the local Evidence Store are effects. JSON, base64 and the
    JSON-schema validators are parameters. *)

From S2P Require Import Prelude Protocol Evidence UiContract Async Control Runtime PeerLease.
From S2P Require Import PeerModel PeerTransport.

Local Open Scope N_scope.

Definition MAX_ACTION_OUTPUT_BYTES : N := 256 * 1024.
Definition MAX_METADATA_BYTES : N := 64 * 1024.
Definition MAX_IMPORT_BYTES : N := 16 * 1024 * 1024.
Definition MAX_EVIDENCE_CHUNKS : nat := 64.
Definition EVIDENCE_CHUNK_BYTES : N := 256 * 1024.
Definition HEALTH_TIMESTAMP_MAX_AGE_MS : N := 60000.
Definition HEALTH_TIMESTAMP_MAX_SKEW_MS : N := 5000.

Record RemoteDriverConfig := mkRemoteDriverConfig {
  rc_lease_ttl_ms : N;
  rc_renew_before_ms : N;
}.

(** [RemoteDriverConfig::new] *)
Definition remote_driver_config_new (lease_ttl_ms renew_before_ms : N)
    : DriverResult RemoteDriverConfig :=
  check! reject_if (negb ((1000 <=? lease_ttl_ms) && (lease_ttl_ms <=? 5 * 60000)) ||
                    (lease_ttl_ms <=? renew_before_ms) || (60000 <? renew_before_ms))
    (platform "remote_driver_config_invalid" false);
  Ok (mkRemoteDriverConfig lease_ttl_ms renew_before_ms).

(** [DriverState] *)
Record DriverState := mkDriverState {
  ds_lease : option PeerLease;
  ds_lease_received_at : option Instant;
  ds_connected : bool;
}.

Record ImportedAsset := mkImportedAsset {
  ia_reference : AssetRef;
  ia_byte_length : N;
  ia_ui_snapshot : option UiSnapshot;
}.

Abbreviation ImportedAssets := (gmap string ImportedAsset).

(** What a [RemoteDeviceDriver] is built with *)
Record RemoteDeviceDriver := mkRemoteDeviceDriver {
  dr_node_id : NodeId;
  dr_node_epoch : N;
  dr_descriptor : RemoteDeviceDescriptor;
  dr_owner_id : string;
  dr_config : RemoteDriverConfig;
  dr_capabilities : list ActionDefinition;
}.

Inductive RE : Type → Type :=
| Exchange (r : PeerRequest) (execute mutation : bool) : RE (DriverResult PeerResult)
| NewIds : RE (Uuid * Uuid)
| ReadPulse : RE Pulse
| DriverInstant : RE Instant
| DriverNowMs : RE N
(** [put_with_declared_size] of the operation's evidence writer *)
| PutLocal (media_type : string) (declared : N) (body : list N)
    : RE (result EvidenceError StoredEvidence).

(** A method that reports Driver errors, and one that may also report errors of
    the Evidence Store *)
Abbreviation drv A := (AM RE DriverState DriverError A).
Abbreviation dop A := (AM RE DriverState DeviceOperationError A).

(** [?] from the first to the second *)
Definition driver_op {A} (m : drv A) : dop A :=
  λ s, m s ≫= λ '(r, s'), Ret (map_err OperationDriver r, s').
Definition op_lift {A} (r : DriverResult A) : dop A := am_lift (map_err OperationDriver r).
Definition protocol (message : string) : DriverError := DriverProtocol message.
Definition protocol_if (bad : bool) (message : string) : dop () :=
  op_lift (reject_if bad (protocol message)).

(** [ensure_active] *)
Definition driver_active : drv () :=
  p ← am_effect ReadPulse;
  am_lift (if pu_cancelled p then Err DriverCancelled
           else if pu_expired p then Err DriverTimedOut else Ok ()).

(** What the chunks of one asset must agree on: size, media type and digest *)
Record ChunkHeader := mkChunkHeader {
  ch_total : N;
  ch_media_type : string;
  ch_sha256 : option string;
}.

#[global] Instance ChunkHeader_eq_dec : EqDecision ChunkHeader.
Proof. solve_decision. Defined.

(** The UI Snapshot an asset is imported for: its observation and reference *)
Abbreviation Expected := (option (Uuid * UiSnapshotRef)).

Section Driver.
Context (d : RemoteDeviceDriver).
(** The lengths of the JSON of metadata and of an output, a UI Snapshot and the
    output of a semantic action from JSON, and base64 *)
Context (metadata_bytes : list (string * Json) → option N) (json_bytes : Json → option N).
Context (parse_snapshot : list N → option UiSnapshot).
Context (parse_element : string → Json → option UiNodeRef).
Context (parse_wait : Json → option WaitForElementResult).
Context (encode64 : list N → string) (decode64 : string → option (list N)).
(** The advertised schema of an action, and the arguments of the semantic ones *)
Context (schema_valid : ActionDefinition → Json → bool).
Context (semantic_arguments_valid : string → Json → bool).

Definition raw_id : DeviceId := rd_device_key (dr_descriptor d).
Definition self_id : DeviceId := "remote:" +:+ dr_node_id d +:+ ":" +:+ raw_id.

(** [info] *)
Definition info (connected : bool) : DeviceInfo :=
  mkDeviceInfo self_id (rd_name (dr_descriptor d)) (rd_platform (dr_descriptor d))
    (rd_os_version (dr_descriptor d)) connected.

(** [PeerRequest::new] for this node, with the lease of [request_with_lease] *)
Definition peer_request (o : PeerOperation) (lease : option PeerLease) : drv PeerRequest :=
  ids ← am_effect NewIds;
  let r := request_new (fst ids) (snd ids) (dr_node_id d) (Some (dr_node_epoch d)) o in
  mret (mkPeerRequest (pr_protocol_version r) (pr_request_id r) (pr_trace_id r) (pr_node_id r)
    (pr_node_epoch r) (pr_timeout_ms r) (pr_call_id r) lease (pr_operation r)).

(** [exchange] *)
Definition exchange (o : PeerOperation) (lease : option PeerLease) (execute mutation : bool)
    : drv PeerResult :=
  r ← peer_request o lease;
  am_try id (Exchange r execute mutation).

(** ** Leases *)

(** [received.elapsed()] *)
Definition lease_age (received : option Instant) : drv (option N) :=
  match received with
  | None => mret None
  | Some at_ => now ← am_effect DriverInstant; mret (Some (now - at_))
  end.

(** The operation [ensure_lease] sends when the lease is not fresh *)
Definition lease_operation (lease : option PeerLease) (age : option N) : PeerOperation :=
  let ttl := rc_lease_ttl_ms (dr_config d) in
  match lease with
  | Some lease =>
      if is_some_and (λ age, age <? from_millis ttl) age then PO_LeaseRenew lease ttl
      else PO_LeaseAcquire raw_id (dr_owner_id d) ttl
  | None => PO_LeaseAcquire raw_id (dr_owner_id d) ttl
  end.

(** [ensure_lease] *)
Definition ensure_lease : drv PeerLease :=
  s ← am_get;
  age ← lease_age (ds_lease_received_at s);
  let fresh := is_some_and (λ age, age <? from_millis
    (rc_lease_ttl_ms (dr_config d) - rc_renew_before_ms (dr_config d))) age in
  match ds_lease s, fresh with
  | Some current, true => mret current
  | old, _ =>
      let operation := lease_operation old age in
      res ← exchange operation
        (match operation with PO_LeaseRenew lease _ => Some lease | _ => None end) false false;
      match res with
      | PR_Lease lease =>
          check! am_lift (reject_if (negb (peer_lease_valid lease)) (protocol "peer lease is invalid"));
          check! am_lift (reject_if (negb (String.eqb (pl_device_key lease) raw_id) ||
                            negb (String.eqb (pl_owner_id lease) (dr_owner_id d)) ||
                            negb (pl_node_epoch lease =? dr_node_epoch d))
                  (protocol "peer lease does not match the route"));
          now ← am_effect DriverInstant;
          check! am_modify (λ s, mkDriverState (Some lease) (Some now) (ds_connected s));
          mret lease
      | _ => am_lift (Err (protocol "peer returned the wrong lease result"))
      end
  end.

(** [connect] *)
Definition connect : drv DeviceInfo :=
  check! driver_active;
  s ← am_get;
  lease ← ensure_lease;
  if ds_connected s then mret (info true) else
  res ← exchange (PO_Connect raw_id) (Some lease) false true;
  match res with
  | PR_Device device =>
      check! am_lift (reject_if (negb (String.eqb (di_id device) raw_id) &&
                                 negb (String.eqb (di_id device) self_id))
              (protocol "peer connected another device"));
      check! am_lift (reject_if (negb (di_connected device))
              (protocol "peer connect result is disconnected"));
      check! am_modify (λ s, mkDriverState (ds_lease s) (ds_lease_received_at s) true);
      mret (info true)
  | _ => am_lift (Err (protocol "peer returned the wrong connect result"))
  end.

(** [expect_ack] *)
Definition expect_ack (res : PeerResult) : DriverResult () :=
  match res with PR_Ack => Ok () | _ => Err (protocol "peer returned the wrong acknowledgement") end.

(** [disconnect]; the lease is dropped whether its release succeeds or not *)
Definition disconnect : drv () :=
  check! driver_active;
  s ← am_get;
  match ds_lease s with
  | None => am_modify (λ s, mkDriverState (ds_lease s) (ds_lease_received_at s) false)
  | Some lease =>
      check! (if ds_connected s then
                res ← exchange (PO_Disconnect raw_id) (Some lease) false true;
                check! am_lift (expect_ack res);
                am_modify (λ s, mkDriverState (ds_lease s) (ds_lease_received_at s) false)
              else mret ());
      r ← peer_request (PO_LeaseRelease lease) (Some lease);
      res ← am_effect (Exchange r false false);
      check! am_modify (λ s, mkDriverState None None (ds_connected s));
      res ← am_lift res;
      am_lift (expect_ack res)
  end.

(** [health_check] *)
Definition health_check : drv () :=
  check! driver_active;
  res ← exchange PO_Health None false false;
  match res with
  | PR_Health state checked_at_ms =>
      now ← am_effect DriverNowMs;
      now' ← am_effect DriverNowMs;
      let usable := match state with Unavailable => false | _ => true end in
      am_lift (reject_if (negb (usable && (0 <? checked_at_ms) && (checked_at_ms <=? MAX_SAFE_INTEGER) &&
                  (now - checked_at_ms <=? HEALTH_TIMESTAMP_MAX_AGE_MS) &&
                  (checked_at_ms <=? u64_saturating_add now' HEALTH_TIMESTAMP_MAX_SKEW_MS)))
               (platform "remote_node_unhealthy" true))
  | _ => am_lift (Err (protocol "peer returned the wrong health result"))
  end.

(** ** Importing evidence *)

Definition of_contract {A} (message : string) (r : result UiContractError A) : DriverResult A :=
  map_err (λ _, protocol message) r.

(** [import_asset] for an id that was imported before *)
Definition reuse_asset (remote : AssetRef) (expected : Expected) (existing : ImportedAsset)
    : dop AssetRef :=
  let reference := ia_reference existing in
  check! protocol_if (negb (String.eqb (ar_media_type reference) (ar_media_type remote)))
           "peer reused an evidence id with a different media type";
  check! protocol_if (is_some_and (λ sha, negb (bool_decide (ar_sha256 reference = Some sha)))
             (ar_sha256 remote))
           "peer reused an evidence id with a different digest";
  check! (match expected with
          | None => mret ()
          | Some (observation_id, us) =>
              check! protocol_if (negb (us_byte_length us =? ia_byte_length existing))
                       "peer UI Snapshot byte length does not match its evidence";
              snapshot ← op_lift (ok_or (ia_ui_snapshot existing)
                (protocol "peer reused evidence as a UI Snapshot without a validated body"));
              op_lift (of_contract "peer UI Snapshot body does not match its reference"
                (snapshot_validate_against snapshot observation_id us))
          end);
  mret reference.

(** The checks of [import_asset] on a chunk's metadata *)
Definition chunk_drifts (remote : AssetRef) (expected : Expected) (offset : N)
    (seen : option ChunkHeader) (evidence_id : string) (chunk_offset : N) (h : ChunkHeader) : bool :=
  negb (String.eqb evidence_id (ar_id remote)) || negb (chunk_offset =? offset) ||
  (ch_total h =? 0) || (MAX_IMPORT_BYTES <? ch_total h) ||
  negb (String.eqb (ch_media_type h) (ar_media_type remote)) ||
  is_some_and (λ remote_sha, is_some_and (λ sha, negb (String.eqb sha remote_sha)) (ch_sha256 h))
    (ar_sha256 remote) ||
  is_some_and (λ e, negb (us_byte_length (snd e) =? ch_total h)) expected ||
  is_some_and (λ h', negb (bool_decide (h' = h))) seen.

(** The loop of [import_asset], for at most [n] more chunks: the header and the
    bytes of a whole asset, or nothing when the chunks ran out *)
Fixpoint fetch (remote : AssetRef) (expected : Expected) (lease : PeerLease) (n : nat) (offset : N)
    (bytes : list N) (seen : option ChunkHeader) : dop (option (ChunkHeader * list N)) :=
  match n with
  | O => mret None
  | S n =>
      res ← driver_op (exchange (PO_EvidenceRead raw_id (ar_id remote) offset EVIDENCE_CHUNK_BYTES)
        (Some lease) false false);
      match res with
      | PR_EvidenceChunk evidence_id media_type total_size chunk_offset data_base64 sha256 chunk_done =>
          let h := mkChunkHeader total_size media_type sha256 in
          check! protocol_if (chunk_drifts remote expected offset seen evidence_id chunk_offset h)
                   "peer evidence chunk metadata drifted";
          decoded ← op_lift (ok_or (decode64 data_base64)
            (protocol "peer evidence chunk is not canonical base64"));
          check! protocol_if (negb (String.eqb (encode64 decoded) data_base64) || (len decoded =? 0) ||
                     (EVIDENCE_CHUNK_BYTES <? len decoded) ||
                     (total_size <? usize_saturating_add (len bytes) (len decoded)))
                   "peer evidence chunk exceeds its bounds";
          let offset := u64_saturating_add offset (len decoded) in
          let bytes := bytes ++ decoded in
          if (chunk_done : bool) then
            check! protocol_if (negb (offset =? total_size)) "peer evidence ended at the wrong offset";
            mret (Some (h, bytes))
          else fetch remote expected lease n offset bytes (Some h)
      | _ => op_lift (Err (protocol "peer returned the wrong evidence result"))
      end
  end.

(** [import_asset] *)
Definition import_asset (remote : AssetRef) (expected : Expected) (imported : ImportedAssets)
    : dop (AssetRef * ImportedAssets) :=
  match imported !! ar_id remote with
  | Some existing => reference ← reuse_asset remote expected existing; mret (reference, imported)
  | None =>
      check! protocol_if (negb (valid_evidence_id (ar_id remote)) || trim_is_empty (ar_media_type remote) ||
                 (128 <? str_len (ar_media_type remote))) "peer evidence reference is invalid";
      lease ← driver_op ensure_lease;
      fetched ← fetch remote expected lease MAX_EVIDENCE_CHUNKS 0 [] None;
      fetched ← op_lift (ok_or fetched (platform "remote_evidence_chunk_limit" false));
      let '(h, bytes) := fetched in
      snapshot ← op_lift (match expected with
        | None => Ok None
        | Some (observation_id, us) =>
            snapshot ← ok_or (parse_snapshot bytes)
              (protocol "peer UI Snapshot body is not a canonical UI Tree");
            check! of_contract "peer UI Snapshot body does not match its reference"
              (snapshot_validate_against snapshot observation_id us);
            Ok (Some snapshot)
        end);
      stored ← am_try OperationEvidence (PutLocal (ar_media_type remote) (ch_total h) bytes);
      let local := asset_ref stored in
      check! protocol_if (existsb (λ claimed, negb (bool_decide (ar_sha256 local = Some claimed)))
                 (option_list (ar_sha256 remote) ++ option_list (ch_sha256 h)))
               "peer evidence digest does not match its bytes";
      mret (local, <[ar_id remote := mkImportedAsset local (ch_total h) snapshot]> imported)
  end.

(** The checks of [import_observation] before it imports anything *)
Definition observation_checks (ui_enabled : bool) (o : Observation)
    (expected : option ScreenshotOmissionReason) : DriverResult () :=
  let expected_ui :=
    (λ e, match e with Omission_Policy => UiOmission_Policy
          | Omission_ProtectedAction => UiOmission_ProtectedAction end) <$> expected in
  check! reject_if (negb ui_enabled && (is_some (obs_ui_snapshot o) || is_some (obs_ui_snapshot_omission o)))
    (protocol "peer returned UI Snapshot fields for a disabled operation");
  check! reject_if (negb (String.eqb (obs_device_id o) raw_id) && negb (String.eqb (obs_device_id o) self_id))
    (protocol "peer observation identifies another device");
  check! reject_if ((obs_id o =? 0) || (obs_captured_at_ms o =? 0) ||
      (MAX_SAFE_INTEGER <? obs_captured_at_ms o) ||
      (vp_width (obs_viewport o) =? 0) || (vp_height (obs_viewport o) =? 0) ||
      negb (f64_is_finite (vp_scale_factor (obs_viewport o))) ||
      f64_le_zero (vp_scale_factor (obs_viewport o)) ||
      negb (bool_decide (obs_screenshot_omission o = expected)) ||
      match metadata_bytes (obs_metadata o) with Some n => MAX_METADATA_BYTES <? n | None => true end)
    (protocol "peer observation is invalid");
  check! reject_if (is_some expected && is_some (obs_screenshot o))
    (protocol "peer returned screenshot evidence despite omission");
  check! reject_if (is_some (obs_ui_snapshot o) && is_some (obs_ui_snapshot_omission o))
    (protocol "peer observation returned both a UI Snapshot and an omission");
  check! reject_if (is_some_and (λ us, is_err (snapshot_ref_validate us)) (obs_ui_snapshot o))
    (protocol "peer observation returned an invalid UI Snapshot reference");
  match expected_ui with
  | Some reason =>
      reject_if (is_some (obs_ui_snapshot o) ||
                 is_some_and (λ r, negb (bool_decide (r = reason))) (obs_ui_snapshot_omission o))
        (protocol "peer observation violated the UI Snapshot omission contract")
  | None =>
      reject_if (bool_decide (obs_ui_snapshot_omission o = Some UiOmission_ProtectedAction))
        (protocol "standard peer observation used a protected UI Snapshot omission")
  end.

(** [import_observation] *)
Definition import_observation (ui_enabled : bool) (o : Observation)
    (expected : option ScreenshotOmissionReason) (imported : ImportedAssets)
    : dop (Observation * ImportedAssets) :=
  check! op_lift (observation_checks ui_enabled o expected);
  shot ← (match obs_screenshot o with
          | None => mret (None, imported)
          | Some remote =>
              r ← import_asset remote None imported; mret (Some (fst r), snd r)
          end);
  tree ← (match obs_ui_snapshot o with
          | None => mret (None, snd shot)
          | Some us =>
              r ← import_asset (us_evidence us) (Some (obs_id o, us)) (snd shot);
              mret (Some (mkUiSnapshotRef (us_format_version us) (us_context us) (us_node_count us)
                (us_byte_length us) (fst r)), snd r)
          end);
  let metadata := if bool_decide (expected = Some Omission_ProtectedAction) then [] else obs_metadata o in
  mret (mkObservation (obs_id o) self_id (obs_captured_at_ms o) (obs_viewport o) (fst shot)
          (obs_screenshot_omission o) (fst tree) (obs_ui_snapshot_omission o) metadata, snd tree).

(** ** Operations *)

Definition connected_only : dop () :=
  s ← am_get;
  op_lift (reject_if (negb (ds_connected s)) (DriverNotConnected self_id)).

Definition policy_omits (policy : ScreenshotPolicy) : option ScreenshotOmissionReason :=
  match policy with Capture => None | Omit => Some Omission_Policy end.

(** [observe] *)
Definition observe (c : DriverOperationContext) : dop Observation :=
  let ui := dc_ui_snapshots_enabled c in
  check! driver_op driver_active;
  check! connected_only;
  lease ← driver_op ensure_lease;
  let omission := policy_omits (dc_screenshot_policy c) in
  res ← driver_op (exchange (PO_Observe raw_id omission ui (dc_semantic_actions_enabled c))
    (Some lease) false false);
  match res with
  | PR_Observation o => r ← import_observation ui o omission ∅; mret (fst r)
  | _ => op_lift (Err (protocol "peer returned the wrong observation result"))
  end.

(** [execution_context] *)
Definition execution_context (e : ActionExecution) : UiContextRef :=
  match e with
  | NativeSemantic context | WebSemantic context | CoordinateFallback context _ => context
  end.

(** [semantic_result_node] *)
Definition semantic_result_node (definition : ActionDefinition) (result : ActionResult)
    : DriverResult (option UiNodeRef) :=
  let output := res_output result in
  let failed := protocol "semantic peer action returned a non-canonical output DTO" in
  if String.eqb (def_name definition) WAIT_FOR_ELEMENT_ACTION then
    wait ← ok_or (parse_wait output) failed;
    check! of_contract "semantic peer action returned an invalid wait result"
      (wait_result_validate wait);
    Ok (wr_element wait)
  else
    node ← ok_or (parse_element (def_name definition) output) failed;
    Ok (Some node).

Definition observations (result : ActionResult) : list Observation :=
  option_list (res_before result) ++ option_list (res_after result).

(** [validate_semantic_node_ref] *)
Definition validate_semantic_node_ref (node : UiNodeRef) (context : UiContextRef)
    (result : ActionResult) (omitted : bool) (imported : ImportedAssets) : DriverResult () :=
  check! of_contract "semantic peer action returned an invalid node reference" (node_ref_validate node);
  check! reject_if (negb (bool_decide (nr_context node = context)))
    (protocol "semantic peer action returned a node from another execution context");
  source ← ok_or (List.find (λ o, obs_id o =? nr_observation_id node) (observations result))
    (protocol "semantic peer action returned a node from an absent observation");
  if omitted then Ok () else
  reference ← ok_or (obs_ui_snapshot source)
    (protocol "semantic peer action returned a node without UI Snapshot evidence");
  check! reject_if (negb (bool_decide (us_context reference = nr_context node)))
    (protocol "semantic peer action linked a node to a different snapshot context");
  let matching (a : ImportedAsset) : option UiSnapshot :=
    snapshot ← ia_ui_snapshot a;
    if String.eqb (ar_id (ia_reference a)) (ar_id (us_evidence reference)) &&
       (snap_observation_id snapshot =? obs_id source) &&
       bool_decide (snap_context snapshot = us_context reference)
    then Some snapshot else None in
  snapshot ← ok_or (head (omap matching (map_to_list imported).*2))
    (protocol "semantic peer action linked a node to an unvalidated UI Snapshot");
  reject_if (negb (existsb (λ n, String.eqb (un_stable_node_id n) (nr_stable_node_id node))
               (snap_nodes snapshot)))
    (protocol "semantic peer action returned a node absent from its UI Snapshot").

(** [validate_semantic_action_result] *)
Definition validate_semantic_action_result (definition : ActionDefinition) (result : ActionResult)
    (omission : option ScreenshotOmissionReason) (imported : ImportedAssets) : DriverResult () :=
  if negb (is_semantic_action_name (def_name definition)) then
    reject_if (is_some (res_execution result))
      (protocol "non-semantic peer action returned execution metadata")
  else
    execution ← ok_or (res_execution result)
      (protocol "semantic peer action omitted execution metadata");
    check! of_contract "semantic peer action returned invalid execution metadata"
      (execution_validate execution);
    let context := execution_context execution in
    node ← semantic_result_node definition result;
    let here o :=
      is_some_and (λ us, bool_decide (us_context us = context)) (obs_ui_snapshot o) ||
      is_some omission &&
        match node with Some n => nr_observation_id n =? obs_id o | None => true end in
    check! reject_if (negb (existsb here (observations result)))
      (protocol "semantic peer action returned no observation for its execution context");
    match node with
    | Some node => validate_semantic_node_ref node context result (is_some omission) imported
    | None => Ok ()
    end.

(** The loop of [execute] over the evidence of a result, one reference for
    each local id *)
Fixpoint import_evidence (refs : list AssetRef) (ids : gset string) (imported : ImportedAssets)
    : dop (list AssetRef) :=
  match refs with
  | [] => mret []
  | remote :: refs =>
      r ← import_asset remote None imported;
      let new := negb (bool_decide (ar_id (fst r) ∈ ids)) in
      rest ← import_evidence refs ({[ar_id (fst r)]} ∪ ids) (snd r);
      mret (if new then fst r :: rest else rest)
  end.

(** [execute] up to the request: the definition and the omission *)
Definition admit_call (c : DriverOperationContext) (call : ActionCall)
    : DriverResult (ActionDefinition * option ScreenshotOmissionReason) :=
  definition ← ok_or (List.find (λ definition, String.eqb (def_name definition) (call_name call))
    (dr_capabilities d)) (DriverUnknownAction (call_name call));
  check! reject_if (negb (schema_valid definition (call_arguments call)))
    (invalid_arguments (call_name call) "arguments do not satisfy the advertised schema");
  check! reject_if (is_semantic_action_name (call_name call) &&
                    negb (semantic_arguments_valid (call_name call) (call_arguments call)))
    (invalid_arguments (call_name call) "arguments violate the canonical semantic contract");
  Ok (definition,
      if bool_decide (def_protection definition = Protected) then Some Omission_ProtectedAction
      else policy_omits (dc_screenshot_policy c)).

(** The checks of [execute] on the peer's result *)
Definition result_checks (definition : ActionDefinition) (call : Uuid)
    (omission : option ScreenshotOmissionReason) (result : ActionResult) : DriverResult () :=
  check! reject_if (negb (res_call_id result =? call) || (res_started_at_ms result =? 0) ||
      (res_finished_at_ms result <? res_started_at_ms result) || is_none (res_after result) ||
      match json_bytes (res_output result) with Some n => MAX_ACTION_OUTPUT_BYTES <? n | None => true end)
    (protocol "peer action result is invalid");
  check! reject_if (bool_decide (def_protection definition = Protected) && is_none (res_before result))
    (protocol "protected peer action omitted its before observation");
  reject_if (is_some omission && negb (bool_decide (res_evidence result = [])))
    (protocol "peer action returned evidence despite omission").

(** [execute] *)
Definition execute (c : DriverOperationContext) (call : ActionCall) : dop ActionResult :=
  let ui := dc_ui_snapshots_enabled c in
  check! driver_op driver_active;
  check! connected_only;
  admitted ← op_lift (admit_call c call);
  let '(definition, omission) := admitted in
  lease ← driver_op ensure_lease;
  res ← driver_op (exchange (PO_Execute raw_id call omission ui (dc_semantic_actions_enabled c))
    (Some lease) true true);
  match res with
  | PR_Action result =>
      check! op_lift (result_checks definition (call_id call) omission result);
      before ← (match res_before result with
                | None => mret (None, ∅)
                | Some o => r ← import_observation ui o omission ∅; mret (Some (fst r), snd r)
                end);
      after ← (match res_after result with
               | None => mret (None, snd before)
               | Some o => r ← import_observation ui o omission (snd before); mret (Some (fst r), snd r)
               end);
      let local := mkActionResult (res_call_id result) (res_started_at_ms result)
        (res_finished_at_ms result) (res_output result) (fst before) (fst after)
        (res_evidence result) (res_execution result) in
      check! op_lift (validate_semantic_action_result definition local omission (snd after));
      evidence ← import_evidence (res_evidence result) ∅ (snd after);
      check! protocol_if (is_none omission && bool_decide (evidence = []))
               "peer action result omitted required evidence";
      check! protocol_if (is_some omission && negb (bool_decide (evidence = [])))
               "peer action returned evidence despite omission";
      let output := if bool_decide (def_protection definition = Protected)
        then JObject [("accepted"%string, JBool true)] else res_output result in
      check! driver_op driver_active;
      mret (mkActionResult (res_call_id result) (res_started_at_ms result) (res_finished_at_ms result)
        output (fst before) (fst after) evidence (res_execution result))
  | _ => op_lift (Err (protocol "peer returned the wrong action result"))
  end.
End Driver.
