(* ===== verification/RemoteDriverProps.v ===== *)
(** * Guarantees of the remote Driver

    Evidence crosses from the store of a node to the local one unchanged, the
    composition of [import_asset] with the chunks a node serves; and every
    reference in the result of an operation was issued by the local store. *)

From S2P Require Import Prelude Protocol Evidence UiContract Async Control Runtime PeerLease.
From S2P Require Import PeerModel PeerTransport PeerService RemoteDriver.

Local Open Scope N_scope.

(** ** The local side of an operation *)

(** What was put into the local store, the references it issued, and the errors
    that effects returned *)
Record Local := mkLocal {
  lo_puts : list (string * N * list N);
  lo_issued : list AssetRef;
  lo_errors : list DeviceOperationError;
}.

Definition record_error (e : DeviceOperationError) (w : Local) : Local :=
  mkLocal (lo_puts w) (lo_issued w) (lo_errors w ++ [e]).
Definition record_put (put : string * N * list N) (stored : StoredEvidence) (w : Local) : Local :=
  mkLocal (lo_puts w ++ [put]) (lo_issued w ++ [asset_ref stored]) (lo_errors w).

Section Steps.
(** What the peer answers to a request, and what the local store makes of bytes *)
Context (answers : PeerRequest → PeerResult → Prop).
Context (stores : string → N → list N → StoredEvidence → Prop).

Definition driver_step (R : Type) (e : RE R) (w : Local) : R → Local → Prop :=
  match e in RE R return R → Local → Prop with
  | Exchange r _ _ => λ a w',
      match a with
      | Ok res => answers r res ∧ w' = w
      | Err error => w' = record_error (OperationDriver error) w
      end
  | PutLocal media_type declared body => λ a w',
      match a with
      | Ok stored => stores media_type declared body stored ∧
          w' = record_put (media_type, declared, body) stored w
      | Err error => w' = record_error (OperationEvidence error) w
      end
  | _ => λ _ w', w' = w
  end.

(** The lock of the Driver keeps other operations out. *)
Definition alone (w w' : Local) : Prop := False.

Definition dwp {A} (p : prog RE A) (Q : A → Local → Prop) (w : Local) : Prop :=
  wp driver_step alone p Q w.

Lemma alone_refl w w' : rtc alone w w' → w' = w.
Proof. intros H. by inversion H. Qed.

Lemma dwp_step {A} R (e : RE R) (k : R → prog RE A) Q w :
  (∀ a w', driver_step R e w a w' → dwp (k a) Q w') → dwp (Step R e k) Q w.
Proof. intros Hk w1 a w2 ->%alone_refl Hs. by apply Hk. Qed.

(** ** Rules *)

(** A method that ends well in [P], or with an error in [F] *)
Definition ends {Er A} (F : Er → Local → Prop) (P : A → DriverState → Local → Prop)
    (rs : result Er A * DriverState) (w : Local) : Prop :=
  match rs.1 with Ok a => P a rs.2 w | Err e => F e w end.

Lemma dwp_bind {Er A B} F P (m : AM RE DriverState Er A) (f : A → AM RE DriverState Er B) s w :
  dwp (m s) (ends F (λ a s w, dwp (f a s) (ends F P) w)) w → dwp ((m ≫= f) s) (ends F P) w.
Proof.
  intros Hm. apply wp_am_bind. eapply wp_mono; [exact Hm|]. by intros [[] s'] w'.
Qed.

Lemma dwp_mono {A} (p : prog RE A) (Q Q' : A → Local → Prop) w :
  dwp p Q w → (∀ a w', Q a w' → Q' a w') → dwp p Q' w.
Proof. apply wp_mono. Qed.

Lemma dwp_driver_op {A} (F : DeviceOperationError → Local → Prop) P (m : drv A) s w :
  dwp (m s) (ends (λ e, F (OperationDriver e)) P) w → dwp (driver_op m s) (ends F P) w.
Proof.
  intros Hm. apply wp_bind. eapply wp_mono; [exact Hm|]. by intros [[] s'] w'.
Qed.

Lemma dwp_lift {Er A} F P (r : result Er A) s w :
  ends F P (r, s) w → dwp (am_lift r s) (ends F P) w.
Proof. done. Qed.

Lemma dwp_and {A} (p : prog RE A) (Q Q' : A → Local → Prop) w :
  dwp p Q w → dwp p Q' w → dwp p (λ a w, Q a w ∧ Q' a w) w.
Proof.
  revert w. induction p as [a|R e k IH]; intros w; [done|]. intros H1 H2.
  apply dwp_step. intros a w' Hs. apply IH; [eapply H1|eapply H2]; eauto using rtc_refl.
Qed.

(** Issued references stay issued. *)
Lemma dwp_issued {A} (p : prog RE A) w : dwp p (λ _ w', lo_issued w ⊆ lo_issued w') w.
Proof.
  revert w. induction p as [a|R e k IH]; intros w; [by unfold dwp; cbn|]. apply dwp_step. intros a w' Hs.
  eapply dwp_mono; [apply IH|]. cbn. intros _ w2 H2. etrans; [|exact H2].
  destruct e; cbn in Hs; try by subst.
  - destruct a; [by destruct Hs as [_ ->]|by subst].
  - destruct a; [destruct Hs as [_ ->]|subst]; cbn; [set_solver|done].
Qed.
End Steps.

(** ** Results refer to the local store *)

Section LocalResults.
Context (answers : PeerRequest → PeerResult → Prop).
Context (stores : string → N → list N → StoredEvidence → Prop).
Context (d : RemoteDeviceDriver).
Context (metadata_bytes : list (string * Json) → option N) (json_bytes : Json → option N).
Context (parse_snapshot : list N → option UiSnapshot).
Context (parse_element : string → Json → option UiNodeRef).
Context (parse_wait : Json → option WaitForElementResult).
Context (encode64 : list N → string) (decode64 : string → option (list N)).
Context (schema_valid : ActionDefinition → Json → bool).
Context (semantic_arguments_valid : string → Json → bool).

#[local] Abbreviation dwp := (dwp answers stores).
#[local] Abbreviation import_asset := (import_asset d parse_snapshot encode64 decode64).
#[local] Abbreviation import_observation :=
  (import_observation d metadata_bytes parse_snapshot encode64 decode64).
#[local] Abbreviation any := (λ _ _, True).

Definition all_local (imported : ImportedAssets) (w : Local) : Prop :=
  ∀ id a, imported !! id = Some a → ia_reference a ∈ lo_issued w.

Lemma all_local_mono imported w w' :
  lo_issued w ⊆ lo_issued w' → all_local imported w → all_local imported w'.
Proof. intros Hsub Hl id a Ha. apply Hsub. by eapply Hl. Qed.

(** A step of which only the issued references matter *)
Lemma dwp_skip {Er A B} (m : AM RE DriverState Er A) (f : A → AM RE DriverState Er B) P s w :
  (∀ a s' w', lo_issued w ⊆ lo_issued w' → dwp (f a s') (ends any P) w') →
  dwp ((m ≫= f) s) (ends any P) w.
Proof.
  intros Hf. apply dwp_bind. eapply dwp_mono; [apply dwp_issued|]. intros [[a|e] s'] w' Hsub; [|done].
  by apply Hf.
Qed.

Lemma local_reuse remote expected existing s w :
  dwp (reuse_asset remote expected existing s)
    (ends any (λ reference _ w', reference = ia_reference existing ∧ lo_issued w ⊆ lo_issued w')) w.
Proof.
  unfold reuse_asset. apply dwp_skip. intros [] s1 w1 H1. apply dwp_skip. intros [] s2 w2 H2.
  apply dwp_skip. intros [] s3 w3 H3. split; [done|]. set_solver.
Qed.

Lemma local_import_asset remote expected imported s w :
  all_local imported w →
  dwp (import_asset remote expected imported s)
    (ends any (λ r _ w', r.1 ∈ lo_issued w' ∧ all_local r.2 w')) w.
Proof.
  intros Hl. unfold RemoteDriver.import_asset. destruct (imported !! ar_id remote) as [existing|] eqn:He.
  - apply dwp_bind. eapply dwp_mono; [apply local_reuse|]. intros [[a|] s'] w'; [|done].
    intros [-> Hsub]. split; [apply Hsub; by eapply Hl|by eapply all_local_mono].
  - apply dwp_skip. intros [] s1 w1 H1. apply dwp_skip. intros lease s2 w2 H2.
    apply dwp_skip. intros fetched s3 w3 H3. apply dwp_skip. intros [h bytes] s4 w4 H4.
    apply dwp_skip. intros snapshot s5 w5 H5. apply dwp_bind, dwp_step. intros [stored|] w6; [|done].
    intros [_ ->]. apply dwp_skip. intros [] s7 w7 H7.
    assert (asset_ref stored ∈ lo_issued w7) as Hin.
    { apply H7. cbn. apply elem_of_app. right. by left. }
    assert (lo_issued w ⊆ lo_issued w7) as Hsub by (cbn in H7; set_solver).
    split; [done|]. intros id a. cbn. intros [[_ <-]|[_ Ha]]%lookup_insert_Some; [done|].
    eapply all_local_mono; done.
Qed.

Lemma local_import_observation ui o omission imported s w :
  all_local imported w →
  dwp (import_observation ui o omission imported s)
    (ends any (λ r _ w', (∀ ref, ref ∈ observation_asset_refs r.1 → ref ∈ lo_issued w') ∧
       all_local r.2 w')) w.
Proof.
  intros Hl. unfold RemoteDriver.import_observation. apply dwp_skip. intros [] s1 w1 H1.
  apply dwp_bind.
  apply (dwp_mono _ _ _ (ends any (λ shot _ w', (∀ ref, shot.1 = Some ref → ref ∈ lo_issued w') ∧
    all_local shot.2 w'))).
  { destruct (obs_screenshot o) as [remote|]; [|split; [done|by eapply all_local_mono]].
    apply dwp_bind. eapply dwp_mono; [by apply local_import_asset; eapply all_local_mono|].
    intros [[r|] s2] w2; [|done]. intros [Hr Hl2]. split; [by intros ref [= <-]|done]. }
  intros [[shot|] s2] w2; [|done]. intros [Hshot Hl2]. apply dwp_bind.
  apply (dwp_mono _ _ _ (ends any (λ tree _ w', (∀ us, tree.1 = Some us → us_evidence us ∈ lo_issued w') ∧
    all_local tree.2 w' ∧ lo_issued w2 ⊆ lo_issued w'))).
  { destruct (obs_ui_snapshot o) as [us|]; [|done].
    apply dwp_bind. eapply dwp_mono; [apply dwp_and; [by apply local_import_asset|apply dwp_issued]|].
    intros [[r|] s3] w3; [|done]. intros [[Hr Hl3] Hsub]. split; [by intros us' [= <-]|done]. }
  intros [[tree|] s3] w3; [|done]. intros (Htree & Hl3 & Hsub). split; [|done].
  intros ref. unfold observation_asset_refs. cbn. rewrite elem_of_app. intros [Hr|Hr].
  - destruct shot as [[ref'|] ?]; cbn in Hr; [|by apply elem_of_nil in Hr].
    apply list_elem_of_singleton in Hr as ->. apply Hsub. by apply Hshot.
  - destruct tree as [[us|] ?]; cbn in Hr; [|by apply elem_of_nil in Hr].
    apply list_elem_of_singleton in Hr as ->. by apply Htree.
Qed.

Lemma local_import_evidence refs ids imported s w :
  all_local imported w →
  dwp (import_evidence d parse_snapshot encode64 decode64 refs ids imported s)
    (ends any (λ l _ w', ∀ ref, ref ∈ l → ref ∈ lo_issued w')) w.
Proof.
  revert ids imported s w. induction refs as [|remote refs IH]; intros ids imported s w Hl.
  { intros ref Hr. by apply elem_of_nil in Hr. }
  cbn [import_evidence]. apply dwp_bind. eapply dwp_mono; [by apply local_import_asset|].
  intros [[r|] s1] w1; [|done]. intros [Hr Hl1]. apply dwp_bind.
  eapply dwp_mono; [apply dwp_and; [by apply IH|apply dwp_issued]|].
  intros [[rest|] s2] w2; [|done]. intros [Hrest Hsub] ref. destruct (negb _).
  - intros [->|Hin]%elem_of_cons; [by apply Hsub|by apply Hrest].
  - apply Hrest.
Qed.

(** An optional observation of an action result *)
Lemma local_optional_observation ui (o : option Observation) omission imported s w :
  all_local imported w →
  dwp ((match o with
        | None => mret (None, imported)
        | Some o => r ← import_observation ui o omission imported; mret (Some (fst r), snd r)
        end : dop (option Observation * ImportedAssets)) s)
    (ends any (λ r _ w', (∀ ref, ref ∈ option_list r.1 ≫= observation_asset_refs → ref ∈ lo_issued w') ∧
       all_local r.2 w' ∧ lo_issued w ⊆ lo_issued w')) w.
Proof.
  intros Hl. destruct o as [o|]; [|split; [intros ref Hr; by apply elem_of_nil in Hr|done]].
  apply dwp_bind. eapply dwp_mono; [apply dwp_and; [by apply local_import_observation|apply dwp_issued]|].
  intros [[r|] s1] w1; [|done]. intros [[Hr Hl1] Hsub]. split; [|done].
  cbn. rewrite app_nil_r. apply Hr.
Qed.

Lemma observe_refers_locally c s w :
  dwp (observe d metadata_bytes parse_snapshot encode64 decode64 c s)
    (ends any (λ o _ w', ∀ ref, ref ∈ observation_asset_refs o → ref ∈ lo_issued w')) w.
Proof.
  unfold observe. apply dwp_skip. intros [] s1 w1 _. apply dwp_skip. intros [] s2 w2 _.
  apply dwp_skip. intros lease s3 w3 _. apply dwp_skip. intros res s4 w4 _.
  destruct res; try done. apply dwp_bind.
  eapply dwp_mono; [apply local_import_observation; intros ??; by rewrite lookup_empty|].
  intros [[r|] s5] w5; [|done]. intros [Hr _]. exact Hr.
Qed.

Lemma execute_refers_locally c call s w :
  dwp (execute d metadata_bytes json_bytes parse_snapshot parse_element parse_wait encode64 decode64
         schema_valid semantic_arguments_valid c call s)
    (ends any (λ r _ w', ∀ ref, ref ∈ result_asset_refs r → ref ∈ lo_issued w')) w.
Proof.
  unfold execute. apply dwp_skip. intros [] s1 w1 _. apply dwp_skip. intros [] s2 w2 _.
  apply dwp_skip. intros [definition omission] s3 w3 _. apply dwp_skip. intros lease s4 w4 _.
  apply dwp_skip. intros res s5 w5 _. destruct res as [| | | | | | |result| |]; try done.
  apply dwp_skip. intros [] s6 w6 _. apply dwp_bind.
  eapply dwp_mono; [apply (local_optional_observation _ _ _ ∅); intros ??; by rewrite lookup_empty|].
  intros [[before|] s7] w7; [|done]. intros (Hbefore & Hl7 & _). apply dwp_bind.
  eapply dwp_mono; [by apply local_optional_observation|].
  intros [[after|] s8] w8; [|done]. intros (Hafter & Hl8 & H78).
  apply dwp_skip. intros [] s9 w9 H9. apply dwp_bind.
  eapply dwp_mono; [apply dwp_and; [apply local_import_evidence; by eapply all_local_mono|apply dwp_issued]|].
  intros [[evidence|] s10] w10; [|done]. intros [Hev H10].
  apply dwp_skip. intros [] s11 w11 H11. apply dwp_skip. intros [] s12 w12 H12.
  apply dwp_skip. intros [] s13 w13 H13. intros ref. unfold result_asset_refs. cbn.
  set_solver.
Qed.

(** No reference to the store of a node leaves the Driver.  Every asset
    reference in an observation, or in the result of an action with its
    evidence and both its observations, was issued by the local Evidence Store
    for an asset that this very operation put there, whatever the peer
    answers. *)
Theorem remote_results_are_local c call s :
  (∀ o s' w',
    runs (driver_step answers stores) alone
      (observe d metadata_bytes parse_snapshot encode64 decode64 c s)
      (mkLocal [] [] []) (Ok o, s') w' →
    ∀ ref, ref ∈ observation_asset_refs o → ref ∈ lo_issued w') ∧
  (∀ r s' w',
    runs (driver_step answers stores) alone
      (execute d metadata_bytes json_bytes parse_snapshot parse_element parse_wait encode64 decode64
         schema_valid semantic_arguments_valid c call s)
      (mkLocal [] [] []) (Ok r, s') w' →
    ∀ ref, ref ∈ result_asset_refs r → ref ∈ lo_issued w').
Proof.
  split; intros r s' w' Hruns.
  - exact (wp_sound _ _ _ _ _ _ _ (observe_refers_locally c s _) Hruns).
  - exact (wp_sound _ _ _ _ _ _ _ (execute_refers_locally c call s _) Hruns).
Qed.
End LocalResults.

(** ** Evidence crosses unchanged *)

Section Importing.
Context (d : RemoteDeviceDriver).
Context (parse_snapshot : list N → option UiSnapshot).
Context (encode64 : list N → string) (decode64 : string → option (list N)).
(** The digest of the stores *)
Context (sha256 : list N → Sha256Digest).
(** The objects of the node *)
Context (store : ObjectStore).
Hypothesis base64_inverts : ∀ body, decode64 (encode64 body) = Some body.

(** A response of the node: one that fits its request, and for evidence the
    chunk that a node serves *)
Definition node_answers (r : PeerRequest) (res : PeerResult) : Prop :=
  matches_request res r (dr_node_epoch d) = true ∧
  match pr_operation r with
  | PO_EvidenceRead _ evidence_id offset max_bytes =>
      serves encode64 store evidence_id offset max_bytes res
  | _ => True
  end.

(** The local store addresses what it is given by its digest. *)
Definition content_addressed (media_type : string) (declared : N) (body : list N)
    (stored : StoredEvidence) : Prop :=
  asset_ref stored = stored_asset_ref (sha256 body) media_type.

(** The lease of the Driver is for its route. *)
Definition on_route (s : DriverState) : Prop :=
  ∀ lease, ds_lease s = Some lease →
    pl_device_key lease = raw_id d ∧ pl_owner_id lease = dr_owner_id d ∧
    pl_node_epoch lease = dr_node_epoch d.

#[local] Abbreviation dwp := (dwp node_answers content_addressed).
#[local] Abbreviation reported := (λ e w, e ∈ lo_errors w).
#[local] Abbreviation reported_by_peer := (λ e w, OperationDriver e ∈ lo_errors w).

Lemma dwp_guard {A} F P (bad : bool) message (k : () → dop A) s w :
  bad = false → dwp (k tt s) (ends F P) w → dwp ((protocol_if bad message ≫= k) s) (ends F P) w.
Proof. by intros ->. Qed.

Lemma exchange_spec o lease execute mutation s w :
  dwp (exchange d o lease execute mutation s)
    (ends reported_by_peer (λ res s' w', s' = s ∧ w' = w ∧
       ∃ r, pr_operation r = o ∧ node_answers r res)) w.
Proof.
  unfold exchange. apply dwp_bind. unfold peer_request.
  apply dwp_bind, dwp_step. intros ids w' ->. apply dwp_step. intros [res|e] w'.
  - intros [Hres ->]. do 2 (split; [done|]). by eexists; split; [|exact Hres].
  - intros ->. cbn. apply elem_of_app. right. by left.
Qed.

Lemma exchange_then {A} o lease execute mutation (k : PeerResult → drv A) P s w :
  (∀ r res, pr_operation r = o → node_answers r res →
     dwp (k res s) (ends reported_by_peer P) w) →
  dwp ((exchange d o lease execute mutation ≫= k) s) (ends reported_by_peer P) w.
Proof.
  intros Hk. apply dwp_bind. eapply dwp_mono; [apply exchange_spec|].
  intros [[res|e] s'] w'; [|done]. intros (Hs & -> & r & Hop & Hres).
  cbn in Hs. subst s'. by eapply Hk.
Qed.

(** A lease that the node grants or renews is for the route. *)
Lemma lease_answer s age r res :
  on_route s → pr_operation r = lease_operation d (ds_lease s) age → node_answers r res →
  ∃ lease, res = PR_Lease lease ∧ peer_lease_valid lease = true ∧
    String.eqb (pl_device_key lease) (raw_id d) = true ∧
    String.eqb (pl_owner_id lease) (dr_owner_id d) = true ∧
    (pl_node_epoch lease =? dr_node_epoch d) = true.
Proof.
  intros Hroute Hop [Hm _]. unfold matches_request in Hm. rewrite Hop in Hm. unfold lease_operation in Hm.
  destruct (ds_lease s) as [old|] eqn:Hold; [destruct (is_some_and _ age)|];
    destruct res; try done; inv_bools; eexists; (split; [done|]); repeat split; try done.
  all: destruct (Hroute old Hold) as (Hk & Ho & He); by rewrite <- ?Hk, <- ?Ho, <- ?He.
Qed.

Lemma ensure_lease_spec s w :
  on_route s →
  dwp (ensure_lease d s) (ends reported_by_peer (λ _ _ w', w' = w)) w.
Proof.
  intros Hroute. unfold ensure_lease. apply dwp_bind. cbn -[lease_operation]. apply dwp_bind.
  apply (dwp_mono _ _ _ (ends reported_by_peer (λ _ s' w', s' = s ∧ w' = w))).
  { unfold lease_age. destruct (ds_lease_received_at s); [|done].
    apply dwp_bind, dwp_step. by intros now w' ->. }
  intros [[age|] s'] w'; [|done]. intros [Hs Hw]. cbn in Hs, Hw. subst s' w'. unfold ends at 1.
  cbn [fst snd]. destruct (ds_lease s) as [old|] eqn:Hold; [destruct (is_some_and _ age); [done|]|];
    rewrite <- Hold; apply exchange_then; intros r res Hop Hres;
    destruct (lease_answer s age r res Hroute Hop Hres) as (lease & -> & Hvalid & Hkey & Howner & Hepoch);
    apply dwp_bind; rewrite Hvalid, Hkey, Howner, Hepoch; apply dwp_bind; cbn;
    apply dwp_bind, dwp_step; by intros now w' ->.
Qed.

(** *** One object *)

Section Object.
Context (remote : AssetRef) (dg : Sha256Digest) (media_type : string) (body : list N).
Hypothesis stored_remotely : store dg = (media_type, body).
Hypothesis reference_names : evidence_digest (ar_id remote) = Some dg.
Hypothesis reference_media : ar_media_type remote = media_type.
Hypothesis reference_digest : ∀ sha, ar_sha256 remote = Some sha → sha = dg.
Hypothesis nonempty : 0 < len body.
Hypothesis importable : len body ≤ MAX_IMPORT_BYTES.

#[local] Abbreviation header := (mkChunkHeader (len body) media_type (Some dg)).

Lemma chunk_answer r res key offset max_bytes :
  pr_operation r = PO_EvidenceRead key (ar_id remote) offset max_bytes → node_answers r res →
  let chunk := take (N.to_nat max_bytes) (drop (N.to_nat offset) body) in
  res = PR_EvidenceChunk (ar_id remote) media_type (len body) offset (encode64 chunk) (Some dg)
          (offset + len chunk =? len body).
Proof.
  intros Hop [_ Hs]. rewrite Hop in Hs. destruct Hs as (dg' & Hdg & Hs).
  rewrite reference_names in Hdg. injection Hdg as <-. rewrite stored_remotely in Hs. by destruct Hs.
Qed.

Lemma chunk_fits offset seen :
  seen = None ∨ seen = Some header →
  chunk_drifts remote None offset seen (ar_id remote) offset header = false.
Proof.
  intros Hseen. unfold chunk_drifts. cbn [ch_total ch_media_type ch_sha256 is_some_and].
  rewrite !String.eqb_refl, N.eqb_refl, reference_media, String.eqb_refl. cbn.
  replace (len body =? 0) with false by (symmetry; apply N.eqb_neq; lia).
  replace (MAX_IMPORT_BYTES <? len body) with false by (symmetry; apply N.ltb_ge; lia). cbn.
  destruct (ar_sha256 remote) as [sha|] eqn:Hsha; cbn;
    [rewrite (reference_digest sha eq_refl), String.eqb_refl; cbn|];
    destruct Hseen as [-> | ->]; cbn; rewrite ?bool_decide_true; done.
Qed.

(** The chunk at an offset, its length and what it extends *)
#[local] Abbreviation chunk_at offset :=
  (take (N.to_nat EVIDENCE_CHUNK_BYTES) (drop (N.to_nat offset) body)).

Lemma len_chunk_at offset : len (chunk_at offset) = N.min EVIDENCE_CHUNK_BYTES (len body - offset).
Proof. unfold len. rewrite length_take, length_drop. lia. Qed.

Lemma len_received offset : offset ≤ len body → len (take (N.to_nat offset) body) = offset.
Proof. unfold len. rewrite length_take. lia. Qed.

Lemma chunk_extends offset :
  offset ≤ len body →
  take (N.to_nat offset) body ++ chunk_at offset = take (N.to_nat (offset + len (chunk_at offset))) body.
Proof.
  intros Hle. rewrite take_take_drop, len_chunk_at. unfold len in *.
  destruct (decide (EVIDENCE_CHUNK_BYTES ≤ N.of_nat (length body) - offset)); [f_equal; lia|].
  rewrite !take_ge by lia. done.
Qed.

(** [n] chunks are enough for what is missing. *)
Lemma fetch_spec lease n offset seen s w :
  offset < len body → seen = None ∨ seen = Some header →
  len body - offset ≤ N.of_nat n * EVIDENCE_CHUNK_BYTES →
  dwp (fetch d encode64 decode64 remote None lease n offset (take (N.to_nat offset) body) seen s)
    (ends reported (λ r _ w', r = Some (header, body) ∧ w' = w)) w.
Proof.
  revert offset seen s w. induction n as [|n IH]; intros offset seen s w Hlt Hseen Hn; [lia|].
  cbn [fetch]. apply dwp_bind, dwp_driver_op. eapply dwp_mono; [apply exchange_spec|].
  intros [[res|e] s'] w'; [|done]. intros (Hs & -> & r & Hop & Hres). cbn in Hs. subst s'.
  rewrite (chunk_answer _ _ _ _ _ Hop Hres).
  apply dwp_guard; [by apply chunk_fits|]. apply dwp_bind. rewrite base64_inverts. cbn -[N.mul fetch].
  rewrite chunk_extends by lia. pose proof (len_chunk_at offset) as Hlen.
  set (chunk := chunk_at offset) in *. unfold MAX_IMPORT_BYTES in importable.
  assert (0 < EVIDENCE_CHUNK_BYTES ∧ offset + len chunk ≤ U64_MAX) as [Hchunk Hu64].
  { unfold EVIDENCE_CHUNK_BYTES, U64_MAX. lia. }
  unfold usize_saturating_add, u64_saturating_add.
  rewrite len_received, N.min_l, N.min_l by (try done; lia).
  apply dwp_guard.
  { rewrite String.eqb_refl. cbn. rewrite !orb_false_iff, N.eqb_neq, !N.ltb_ge. lia. }
  destruct (N.eqb_spec (offset + len chunk) (len body)) as [Hend|Hend].
  - apply dwp_guard; [done|]. rewrite Hend. unfold len.
    by rewrite Nat2N.id, take_ge.
  - apply IH; [lia|by right|]. rewrite Nat2N.inj_succ in Hn. lia.
Qed.

#[local] Abbreviation local_ref := (stored_asset_ref dg media_type).
#[local] Abbreviation imports imported :=
  (<[ar_id remote := mkImportedAsset local_ref (len body) None]> imported).

Lemma import_asset_spec imported s w :
  imported !! ar_id remote = None → on_route s → sha256 body = dg →
  valid_evidence_id (ar_id remote) = true → trim_is_empty media_type = false →
  str_len media_type ≤ 128 →
  dwp (import_asset d parse_snapshot encode64 decode64 remote None imported s)
    (ends reported (λ r _ w', r = (local_ref, imports imported) ∧
       lo_puts w' = lo_puts w ++ [(media_type, len body, body)])) w.
Proof.
  intros Hnew Hroute Hsha Hid Htrim Hmedia. unfold import_asset. rewrite Hnew.
  apply dwp_guard.
  { rewrite Hid, reference_media, Htrim. cbn. by apply N.ltb_ge. }
  apply dwp_bind, dwp_driver_op. eapply dwp_mono; [by apply ensure_lease_spec|].
  intros [[lease|] s1] w1; [|done]. intros ->. apply dwp_bind.
  eapply dwp_mono; [apply (fetch_spec lease MAX_EVIDENCE_CHUNKS 0 None); [done|by left|]|].
  { unfold MAX_IMPORT_BYTES in importable. unfold MAX_EVIDENCE_CHUNKS, EVIDENCE_CHUNK_BYTES. lia. }
  intros [[fetched|] s2] w2; [|done]. intros [Hf ->]. cbn in Hf. subst fetched.
  apply dwp_bind, dwp_lift. cbn. apply dwp_bind, dwp_lift. cbn. apply dwp_bind, dwp_step.
  rewrite reference_media. intros [stored|e] w3; [|intros ->; cbn; apply elem_of_app; right; by left].
  intros [Hst ->]. unfold content_addressed in Hst. rewrite Hsha in Hst.
  assert (em_digest (sv_metadata stored) = dg) as Hdg by (by injection Hst).
  apply (dwp_guard _ _ _ _ (λ _, mret _)); [|by rewrite Hst].
  rewrite Hdg. destruct (ar_sha256 remote) as [sha|]; cbn;
    [rewrite (reference_digest sha eq_refl)|]; by rewrite bool_decide_true.
Qed.

(** C18: evidence crosses from a node to the local store unchanged.  When the
    Driver imports a reference to an object of the node, of at most 16 MiB,
    then it either puts exactly the bytes of the object, with their length and
    media type, into the local store and returns a local reference with the
    digest of the object, or reports an error that the peer or the local store
    gave it: chunks of 256 KiB, at most 64 of them, with the leases renewed on
    the way, lose, repeat or reorder nothing, and no check on them rejects an
    honest answer. *)
Theorem evidence_is_imported_intact imported s r s' w' :
  imported !! ar_id remote = None → on_route s → sha256 body = dg →
  valid_evidence_id (ar_id remote) = true → trim_is_empty media_type = false →
  str_len media_type ≤ 128 →
  runs (driver_step node_answers content_addressed) alone
    (import_asset d parse_snapshot encode64 decode64 remote None imported s)
    (mkLocal [] [] []) (r, s') w' →
  (r = Ok (local_ref, imports imported) ∧ lo_puts w' = [(media_type, len body, body)]) ∨
  (∃ e, r = Err e ∧ e ∈ lo_errors w').
Proof.
  intros Hnew Hroute Hsha Hid Htrim Hmedia Hruns.
  pose proof (wp_sound _ _ _ _ _ _ _
    (import_asset_spec imported s (mkLocal [] [] []) Hnew Hroute Hsha Hid Htrim Hmedia) Hruns) as Hends.
  destruct r as [a|e]; [|right; by exists e].
  left. destruct Hends as [Ha Hputs]. cbn in Ha. by rewrite Ha.
Qed.
End Object.
End Importing.

(** ** A Driver at work *)

Module DriverExamples.

(** A device of a node, and the one object of the node's store *)
Definition remote : RemoteDeviceDriver :=
  mkRemoteDeviceDriver "node-b" 3 (mkRemoteDeviceDescriptor "d-1" "Pixel 8" Platform_Android None)
    "router" (mkRemoteDriverConfig 30000 5000) [mkActionDefinition "tap" "taps" JNull Standard].
Definition sha : Sha256Digest := "00000000000000000000000000000000000000000000000000000000000000ff".
Definition shot : AssetRef := mkAssetRef (asset_id sha) "image/png" "node-b/shot" (Some sha).
Definition pixels : list N := [1; 2; 3].
Definition store : ObjectStore := λ _, ("image/png"%string, pixels).
Definition sha256 (body : list N) : Sha256Digest := sha.

(** An observation with that object, and the result of a tap *)
Definition screen : Observation :=
  mkObservation 21 "d-1" 1000 (mkViewport 1080 2400 (S754_finite false 4503599627370496 (-52)))
    (Some shot) None None None [].
Definition tapped : ActionResult := mkActionResult 9 1000 1001 (JObject []) None (Some screen) [shot] None.
Definition lease : PeerLease := mkPeerLease 501 "d-1" "router" 3 31000.

Definition respond (r : PeerRequest) : option PeerResult :=
  match pr_operation r with
  | PO_LeaseAcquire _ _ _ | PO_LeaseRenew _ _ => Some (PR_Lease lease)
  | PO_Observe _ _ _ _ => Some (PR_Observation screen)
  | PO_Execute _ _ _ _ _ => Some (PR_Action tapped)
  | PO_EvidenceRead _ evidence_id offset max_bytes =>
      if String.eqb evidence_id (ar_id shot) && (offset =? 0) && (max_bytes =? EVIDENCE_CHUNK_BYTES)
      then Some (PR_EvidenceChunk (ar_id shot) "image/png" 3 0 (text_of pixels) (Some sha) true)
      else None
  | _ => None
  end.
Definition answer (r : PeerRequest) : option PeerResult :=
  res ← respond r; if matches_request res r 3 then Some res else None.
Definition stored (media_type : string) (body : list N) : StoredEvidence :=
  mkStoredEvidence (mkEvidenceMetadata (sha256 body) media_type (len body) 1000 1) false.

(** The node answers, the clock stands still and the local store stores. *)
Definition demo (R : Type) (e : RE R) (w : Local) : option (R * Local) :=
  match e in RE R return option (R * Local) with
  | Exchange r _ _ => (λ res, (Ok res, w)) <$> answer r
  | NewIds => Some ((7, 8), w)
  | ReadPulse => Some (mkPulse false false, w)
  | DriverInstant => Some (0, w)
  | DriverNowMs => Some (1000, w)
  | PutLocal media_type declared body =>
      Some (Ok (stored media_type body), record_put (media_type, declared, body) (stored media_type body) w)
  end.

Definition fresh : DriverState := mkDriverState (Some lease) None true.
Definition context : DriverOperationContext :=
  mkDriverOperationContext (mkExecutionControl 1 None) (mkSessionEvidenceWriter 5 ConfiguredStore) Capture
    false false.
Definition tap : ActionCall := mkActionCall 9 "tap" (JObject []).

Lemma answer_honest r res : answer r = Some res → node_answers remote text_of store r res.
Proof.
  unfold answer. intros (res' & Hres & Hm)%bind_Some. unfold node_answers.
  destruct (matches_request res' r 3) eqn:Hmatch; [injection Hm as <-|done]. split; [done|].
  unfold respond in Hres. destruct (pr_operation r) eqn:Hop; try done.
  destruct (String.eqb evidence_id (ar_id shot) && _ && _) eqn:Hr; [injection Hres as <-|done].
  inv_bools. repeat match goal with H : (_ =? _)%N = true |- _ => apply N.eqb_eq in H; subst end.
  apply String.eqb_eq in H as ->. exists sha. split; [reflexivity|]. split; [reflexivity|].
  vm_compute. reflexivity.
Qed.

Lemma demo_honest R (e : RE R) w r w' :
  demo R e w = Some (r, w') →
  driver_step (node_answers remote text_of store) (content_addressed sha256) R e w r w'.
Proof.
  destruct e; cbn; try (by intros [= <- <-]).
  intros (res & Hres & [= -> ->])%fmap_Some. split; [by apply answer_honest|done].
Qed.

(** What the local store was given in each run *)
Definition local_shot : AssetRef := stored_asset_ref sha "image/png".
Definition local0 : Local := mkLocal [] [] [].
Definition local1 : Local := mkLocal [("image/png"%string, 3, pixels)] [local_shot] [].

(** A tap: its screenshot and its evidence are one local asset. *)
Definition local_screen : Observation :=
  mkObservation 21 "remote:node-b:d-1" 1000 (obs_viewport screen) (Some local_shot) None None None [].
Definition local_tapped : ActionResult :=
  mkActionResult 9 1000 1001 (JObject []) None (Some local_screen) [local_shot] None.
Definition renewed : DriverState := mkDriverState (Some lease) (Some 0) true.

Lemma remote_results_are_local_witness :
  ∀ ref, ref ∈ result_asset_refs local_tapped → ref ∈ lo_issued local1.
Proof.
  apply (proj2 (remote_results_are_local (node_answers remote text_of store)
    (content_addressed sha256) remote (λ _, Some 2) (λ _, Some 2) (λ _, None) (λ _ _, None) (λ _, None)
    text_of text_to (λ _ _, true) (λ _ _, true) context tap fresh) local_tapped renewed local1).
  apply (exec_runs _ _ demo); [exact demo_honest|]. vm_compute. reflexivity.
Defined.

Lemma evidence_is_imported_intact_witness :
  lo_puts local1 = [("image/png"%string, len pixels, pixels)].
Proof.
  destruct (evidence_is_imported_intact remote (λ _, None) text_of text_to sha256 store
    text_to_of shot sha "image/png" pixels eq_refl eq_refl eq_refl
    ltac:(intros ? [= <-]; reflexivity) eq_refl ltac:(vm_compute; discriminate) ∅ fresh
    (Ok (local_shot, <[ar_id shot := mkImportedAsset local_shot 3 None]> ∅)) renewed local1
    (lookup_empty _) ltac:(intros ? [= <-]; repeat split) eq_refl eq_refl eq_refl ltac:(vm_compute; discriminate))
    as [[_ Hputs]|(e & He & _)].
  - apply (exec_runs _ _ demo); [exact demo_honest|]. vm_compute. reflexivity.
  - exact Hputs.
  - discriminate.
Defined.
End DriverExamples.
