(* ===== verification/NodeRouter.v ===== *)
(** * Routing to other nodes

    [crates/distributed-router/src/router.rs] and [connector.rs], with the
    parts of [driver.rs], [transport.rs] and [security.rs] that build a route:
    the discovery of a node over an authenticated transport, the sharding of
    its transports, the Drivers of its devices, the table of nodes and routes,
    and the connection to every configured peer.

    Requests, connection attempts, clocks and the control are effects. The
    futures of a [join_all] run in turn: they share nothing. JSON lengths,
    the JSON-schema compiler and the canonical schemas are parameters.
    Telemetry is not modelled. *)

From S2P Require Import Prelude Protocol Evidence UiContract Async Control Runtime PeerLease.
From S2P Require Import PeerModel PeerTransport RemoteDriver RemoteAuth.

Local Open Scope N_scope.

(** ** Security ([security.rs]) *)

Inductive SecurityKind := SK_RemoteAuth | ExternalSshOrMtlsTunnel.

#[global] Instance SecurityKind_eq_dec : EqDecision SecurityKind.
Proof. solve_decision. Defined.

Record PeerSecurity := mkPeerSecurity {
  sc_kind : SecurityKind;
  sc_subject : string;
}.

#[global] Instance PeerSecurity_eq_dec : EqDecision PeerSecurity.
Proof. solve_decision. Defined.

Inductive SecurityError :=
| AuthenticationRequired
| ControlPermissionRequired
| InvalidTunnelAttestation.

(** [PeerSecurity::remote_auth] *)
Definition remote_auth (principal : AuthenticatedPrincipal) : result SecurityError PeerSecurity :=
  required ← ok_or (required_permission "device.execute") AuthenticationRequired;
  check! reject_if (negb (allows principal required)) ControlPermissionRequired;
  Ok (mkPeerSecurity SK_RemoteAuth (ap_id principal)).

(** [PeerSecurity::external_tunnel] *)
Definition external_tunnel (tunnel_id : string) : result SecurityError PeerSecurity :=
  check! reject_if (negb (valid_identifier tunnel_id 64)) InvalidTunnelAttestation;
  Ok (mkPeerSecurity ExternalSshOrMtlsTunnel tunnel_id).

(** ** Transports *)

Definition MAX_PEER_TRANSPORT_SHARDS : N := 4.

(** A transport: one stream, or several with the shard of each device *)
Inductive Link :=
| Ndjson (stream : N) (expected_node_id : NodeId) (security : PeerSecurity)
| Sharded (expected_node_id : NodeId) (security : PeerSecurity) (routes : gmap string nat)
    (shards : list Link).

Definition expected_node_id (t : Link) : NodeId :=
  match t with Ndjson _ node_id _ | Sharded node_id _ _ _ => node_id end.
Definition security (t : Link) : PeerSecurity :=
  match t with Ndjson _ _ security | Sharded _ security _ _ => security end.

(** The loop of [ShardedPeerTransport::new] over the device keys *)
Fixpoint shard_routes (n : nat) (index : nat) (device_keys : list string) (routes : gmap string nat)
    : result TransportError (gmap string nat) :=
  match device_keys with
  | [] => Ok routes
  | key :: device_keys =>
      check! reject_if ((MAX_INVENTORY_DEVICES <=? N.of_nat index) ||
                        negb (valid_identifier key MAX_DEVICE_KEY_BYTES) || is_some (routes !! key))
        TE_InvalidRequest;
      shard_routes n (S index) device_keys (<[key := (index mod n)%nat]> routes)
  end.

(** [ShardedPeerTransport::new] *)
Definition sharded_new (shards : list Link) (device_keys : list string) : result TransportError Link :=
  match shards with
  | [] => Err TE_InvalidRequest
  | first :: _ =>
      check! reject_if (MAX_PEER_TRANSPORT_SHARDS <? len shards) TE_InvalidRequest;
      check! reject_if (existsb (λ shard,
          negb (String.eqb (expected_node_id shard) (expected_node_id first)) ||
          negb (bool_decide (security shard = security first))) shards) TE_InvalidRequest;
      routes ← shard_routes (length shards) 0 device_keys ∅;
      check! reject_if (bool_decide (routes = ∅)) TE_InvalidRequest;
      Ok (Sharded (expected_node_id first) (security first) routes shards)
  end.

(** [ShardedPeerTransport::shard]: the stream that a request takes *)
Fixpoint stream_of (t : Link) (o : PeerOperation) : option N :=
  match t with
  | Ndjson stream _ _ => Some stream
  | Sharded _ _ routes shards =>
      (fix pick (shards : list Link) (index : nat) : option N :=
         match shards, index with
         | shard :: _, O => stream_of shard o
         | _ :: shards, S index => pick shards index
         | [], _ => None
         end) shards (default 0%nat (key ← device_key o; routes !! key))
  end.

(** ** Errors *)

Inductive RouteError :=
| RE_InvalidConfiguration
| RE_Unauthenticated
| RE_Protocol
| RE_UnsupportedVersion
| RE_UnsupportedCapabilities
| RE_Transport (error : TransportError)
| RE_Remote (code : string) (outcome_unknown : bool)
| RE_Duplicate
| RE_NodeLimit
| RE_StaleEpoch
| RE_StaleInventory
| RE_IdentityDrift
| RE_Unhealthy
| RE_NotFound.

(** [RouteError: From<ModelError>] *)
Definition route_of_model (e : ModelError) : RouteError :=
  match e with UnsupportedVersion => RE_UnsupportedVersion | _ => RE_Protocol end.
(** The error mapping of [exchange] *)
Definition route_of_transport (e : TransportError) : RouteError :=
  match e with TE_UnsupportedVersion => RE_UnsupportedVersion | other => RE_Transport other end.

Record RouterConfig := mkRouterConfig {
  rt_max_nodes : N;
  rt_max_inventory_age_ms : N;
  rt_max_health_age_ms : N;
}.

(** [RouterConfig::new] *)
Definition router_config_new (max_nodes max_inventory_age_ms max_health_age_ms max_clock_skew_ms : N)
    : result RouteError RouterConfig :=
  let age_valid age := (1000 <=? age) && (age <=? 5 * 60000) in
  check! reject_if ((max_nodes =? 0) || (64 <? max_nodes) || negb (age_valid max_inventory_age_ms) ||
                    negb (age_valid max_health_age_ms) || (60000 <? max_clock_skew_ms))
    RE_InvalidConfiguration;
  Ok (mkRouterConfig max_nodes max_inventory_age_ms max_health_age_ms).

(** ** Nodes *)

Record RemoteNode := mkRemoteNode {
  rn_node_id : NodeId;
  rn_epoch : N;
  rn_inventory : InventorySnapshot;
  rn_inventory_received_at : Instant;
  rn_health : HealthState;
  rn_health_received_at : Instant;
  rn_capabilities : PeerProtocolCapabilities;
  rn_transport : Link;
}.

#[global] Instance PeerProtocolCapabilities_eq_dec : EqDecision PeerProtocolCapabilities.
Proof. solve_decision. Defined.

(** [RemoteNode::with_transport_shards] *)
Definition with_transport_shards (nodes : list RemoteNode) : result RouteError RemoteNode :=
  match nodes with
  | [] => Err RE_InvalidConfiguration
  | [primary] => Ok primary
  | primary :: others =>
      let devices n := iv_devices (rn_inventory n) in
      check! reject_if (existsb (λ node,
          negb (String.eqb (rn_node_id node) (rn_node_id primary)) ||
          negb (rn_epoch node =? rn_epoch primary) ||
          negb (iv_revision (rn_inventory node) =? iv_revision (rn_inventory primary)) ||
          negb (bool_decide (devices node = devices primary)) ||
          negb (bool_decide (rn_health node = rn_health primary)) ||
          negb (bool_decide (rn_capabilities node = rn_capabilities primary)) ||
          negb (bool_decide (security (rn_transport node) = security (rn_transport primary)))) others)
        RE_IdentityDrift;
      transport ← map_err RE_Transport
        (sharded_new (rn_transport <$> nodes) (rd_device_key <$> devices primary));
      Ok (mkRemoteNode (rn_node_id primary) (rn_epoch primary) (rn_inventory primary)
            (rn_inventory_received_at primary) (rn_health primary) (rn_health_received_at primary)
            (rn_capabilities primary) transport)
  end.

(** [RemoteNode::descriptor] *)
Definition descriptor (node : RemoteNode) (key : string) : option RemoteDeviceDescriptor :=
  List.find (λ device, String.eqb (rd_device_key device) key) (iv_devices (rn_inventory node)).

Definition namespaced_id (node_id : NodeId) (key : string) : DeviceId :=
  "remote:" +:+ node_id +:+ ":" +:+ key.

(** [RemoteNode::local_device_id] *)
Definition local_device_id (node : RemoteNode) (key : string) : result RouteError DeviceId :=
  check! reject_if (negb (existsb (λ device, String.eqb (rd_device_key device) key)
                      (iv_devices (rn_inventory node)))) RE_NotFound;
  Ok (namespaced_id (rn_node_id node) key).

(** [RemoteNode::is_fresh], with the instants of the two [elapsed] *)
Definition is_fresh (config : RouterConfig) (now now' : Instant) (node : RemoteNode) : bool :=
  negb (bool_decide (rn_health node = Unavailable)) &&
  (now - rn_inventory_received_at node <=? from_millis (rt_max_inventory_age_ms config)) &&
  (now' - rn_health_received_at node <=? from_millis (rt_max_health_age_ms config)).

(** ** Effects *)

Inductive RO : Type → Type :=
| RouterRequest (t : Link) (r : PeerRequest) : RO (result TransportError PeerResponse)
(** [exchange_raw] without mutation *)
| RouterExchange (t : Link) (r : PeerRequest) : RO (DriverResult PeerResult)
| RouterIds : RO (Uuid * Uuid)
| RouterInstant : RO Instant
| RouterPulse : RO Pulse
(** The time the control has left *)
| RouterRemaining : RO (option N)
(** [TcpStream::connect] against the control and a deadline; [None] is refusal *)
| ConnectRace (endpoint : N) (deadline : Instant) : RO (Waited (option N))
(** A sleep against the control: whether it was cancelled *)
| SleepRace (duration : N) : RO bool
| SetNodelay (stream : N) : RO bool.

Abbreviation RouterM A := (prog RO (result RouteError A)).

(** [exchange] *)
Definition router_exchange (t : Link) (node_epoch : option N) (o : PeerOperation)
    : RouterM PeerResponse :=
  ids ← perform RouterIds;
  res ← perform (RouterRequest t (request_new (fst ids) (snd ids) (expected_node_id t) node_epoch o));
  mret (map_err route_of_transport res).

(** [success] *)
Definition success (response : PeerResponse) : result RouteError PeerResult :=
  if ps_ok response then ok_or (ps_result response) RE_Protocol
  else
    error ← ok_or (ps_error response) RE_Protocol;
    Err (RE_Remote (pe_code error) (pe_outcome_unknown error)).

(** ** Discovery *)

(** The checks of [discover] on the answer to [hello] *)
Definition hello_facts (node_id : NodeId) (res : PeerResult)
    : result RouteError (N * PeerProtocolCapabilities) :=
  match res with
  | PR_Hello hello_id epoch max_frame_bytes capabilities =>
      check! reject_if (negb (String.eqb hello_id node_id) || out_of_range epoch ||
                        (max_frame_bytes =? 0) || (MAX_PEER_FRAME_BYTES <? max_frame_bytes)) RE_Protocol;
      check! reject_if (negb (supports_required capabilities)) RE_UnsupportedCapabilities;
      Ok (epoch, capabilities)
  | _ => Err RE_Protocol
  end.

(** The checks on the answer to [inventory] *)
Definition inventory_facts (node_id : NodeId) (epoch : N) (response : PeerResponse)
    : result RouteError InventorySnapshot :=
  check! reject_if (negb (ps_node_epoch response =? epoch)) RE_StaleEpoch;
  res ← success response;
  match res with
  | PR_Inventory inventory =>
      check! map_err route_of_model (inventory_validate inventory);
      check! reject_if (negb (String.eqb (iv_node_id inventory) node_id) ||
                        negb (iv_epoch inventory =? epoch)) RE_Protocol;
      Ok inventory
  | _ => Err RE_Protocol
  end.

(** The checks on the answer to [health] *)
Definition health_facts (res : PeerResult) : result RouteError HealthState :=
  match res with
  | PR_Health state checked_at_ms =>
      check! reject_if (out_of_range checked_at_ms) RE_Protocol;
      check! reject_if (bool_decide (state = Unavailable)) RE_Unhealthy;
      Ok state
  | _ => Err RE_Protocol
  end.

(** [RemoteNode::discover] *)
Definition discover (t : Link) : RouterM RemoteNode :=
  try! Ret (reject_if (String.eqb (sc_subject (security t)) EmptyString) RE_Unauthenticated);
  let node_id := expected_node_id t in
  hello ←? router_exchange t None PO_Hello;
  facts ←? Ret (res ← success hello; hello_facts node_id res);
  let '(epoch, capabilities) := facts in
  response ←? router_exchange t None PO_Inventory;
  inventory ←? Ret (inventory_facts node_id epoch response);
  inventory_received_at ← perform RouterInstant;
  response ←? router_exchange t (Some epoch) PO_Health;
  state ←? Ret (res ← success response; health_facts res);
  received_at ← perform RouterInstant;
  mret (Ok (mkRemoteNode node_id epoch inventory inventory_received_at state received_at capabilities t)).

(** ** Drivers *)

Section Drivers.
(** The length of JSON, whether a schema compiles, and the canonical schemas of
    the semantic actions *)
Context (json_bytes : Json → option N) (schema_compiles : Json → bool).
Context (canonical_schema : string → option Json).

(** [Value::get] with a key *)
Definition json_get (key : string) (v : Json) : option Json :=
  match v with JObject entries => snd <$> List.find (λ e, String.eqb (fst e) key) entries | _ => None end.

(** The checks of [validate_capabilities] on one action *)
Definition capability_checks (action : ActionDefinition) (protection : gmap string ActionProtection)
    : DriverResult () :=
  let invalid := DriverProtocol "peer capability declaration is invalid" in
  schema_bytes ← ok_or (json_bytes (def_input_schema action)) invalid;
  check! reject_if (trim_is_empty (def_name action) || (128 <? str_len (def_name action)) ||
      trim_is_empty (def_description action) || (1024 <? str_len (def_description action)) ||
      negb (is_some_and (Json_eqb (JString "object")) (json_get "type" (def_input_schema action))) ||
      (64 * 1024 <? schema_bytes) || is_some (protection !! def_name action)) invalid;
  check! reject_if (is_some_and (λ canonical, negb (Json_eqb (def_input_schema action) canonical))
             (canonical_schema (def_name action)))
    (DriverProtocol ("peer semantic capability `" +:+ def_name action +:+
       "` does not advertise the canonical input schema"));
  reject_if (negb (schema_compiles (def_input_schema action))) invalid.

(** [validate_capabilities]: the protection of each action *)
Fixpoint validate_actions (actions : list ActionDefinition) (protection : gmap string ActionProtection)
    : DriverResult (gmap string ActionProtection) :=
  match actions with
  | [] => Ok protection
  | action :: actions =>
      check! capability_checks action protection;
      validate_actions actions (<[def_name action := def_protection action]> protection)
  end.
Definition validate_capabilities (actions : list ActionDefinition)
    : DriverResult (gmap string ActionProtection) :=
  check! reject_if ((len actions =? 0) || (MAX_CAPABILITIES <? len actions))
    (platform "remote_capability_limit" false);
  validate_actions actions ∅.

(** [RemoteDeviceDriver::from_contract] *)
Definition from_contract (node_id : NodeId) (node_epoch : N) (device : RemoteDeviceDescriptor)
    (owner_id : string) (config : RemoteDriverConfig) (t : Link) (actions : list ActionDefinition)
    : DriverResult RemoteDeviceDriver :=
  check! reject_if (out_of_range node_epoch || negb (valid_identifier owner_id 64) ||
                    negb (String.eqb (expected_node_id t) node_id) ||
                    String.eqb (sc_subject (security t)) EmptyString)
    (platform "remote_driver_config_invalid" false);
  check! map_err (λ _, platform "remote_device_descriptor_invalid" false) (descriptor_validate device);
  _ ← validate_capabilities actions;
  Ok (mkRemoteDeviceDriver node_id node_epoch device owner_id config actions).

(** [RemoteDeviceDriver::load] *)
Definition load (node_id : NodeId) (node_epoch : N) (device : RemoteDeviceDescriptor)
    (owner_id : string) (config : RemoteDriverConfig) (t : Link)
    : prog RO (DriverResult RemoteDeviceDriver) :=
  ids ← perform RouterIds;
  res ←? perform (RouterExchange t (request_new (fst ids) (snd ids) node_id (Some node_epoch)
    (PO_Capabilities (rd_device_key device))));
  mret (match res with
        | PR_Capabilities actions => from_contract node_id node_epoch device owner_id config t actions
        | _ => Err (DriverProtocol "peer returned the wrong capabilities result")
        end).

(** [RemoteNode::driver] *)
Definition driver (node : RemoteNode) (key owner_id : string) (config : RemoteDriverConfig)
    : RouterM RemoteDeviceDriver :=
  device ←? Ret (ok_or (descriptor node key) RE_NotFound);
  r ← load (rn_node_id node) (rn_epoch node) device owner_id config (rn_transport node);
  mret (map_err (λ _, RE_InvalidConfiguration) r).

(** The results of a [join_all]: the futures all run to their end, and the first
    error in their order is the one reported. *)
Fixpoint join_all {Er A} (futures : list (prog RO (result Er A))) : prog RO (list (result Er A)) :=
  match futures with
  | [] => mret []
  | future :: futures => r ← future; rs ← join_all futures; mret (r :: rs)
  end.
Fixpoint collect {Er A} (rs : list (result Er A)) : result Er (list A) :=
  match rs with
  | [] => Ok []
  | r :: rs => a ← r; l ← collect rs; Ok (a :: l)
  end.

(** [sort_by] on the ids of Drivers, which is stable *)
Definition driver_le (a b : RemoteDeviceDriver) : Prop := string_le (self_id a) (self_id b).
#[global] Instance driver_le_dec : RelDecision driver_le.
Proof. intros a b. unfold driver_le. apply _. Defined.

(** [RemoteNode::drivers] *)
Definition drivers (node : RemoteNode) (owner_id : string) (config : RemoteDriverConfig)
    : RouterM (list RemoteDeviceDriver) :=
  rs ← join_all ((λ device, driver node (rd_device_key device) owner_id config) <$>
    iv_devices (rn_inventory node));
  mret (l ← collect rs; Ok (merge_sort driver_le l)).

(** ** The router *)

Record RouteEntry := mkRouteEntry {
  re_node : RemoteNode;
  re_device_key : string;
}.

Record RouterState := mkRouterState {
  rs_nodes : gmap NodeId RemoteNode;
  rs_routes : gmap DeviceId RouteEntry;
}.

(** [validate_successor] *)
Definition validate_successor (old new : RemoteNode) : result RouteError () :=
  check! reject_if (rn_epoch new <? rn_epoch old) RE_StaleEpoch;
  let old_devices := iv_devices (rn_inventory old) in
  check! (if rn_epoch new =? rn_epoch old then
            check! reject_if (iv_revision (rn_inventory new) <? iv_revision (rn_inventory old))
              RE_StaleInventory;
            reject_if ((iv_revision (rn_inventory new) =? iv_revision (rn_inventory old)) &&
                       negb (bool_decide (iv_devices (rn_inventory new) = old_devices)))
              RE_IdentityDrift
          else Ok ());
  reject_if (existsb (λ previous,
      is_some_and (λ current, negb (bool_decide (rd_platform current = rd_platform previous)))
        (descriptor new (rd_device_key previous))) old_devices) RE_IdentityDrift.

(** The routes without those of a node *)
Definition without_node (node_id : NodeId) (routes : gmap DeviceId RouteEntry)
    : gmap DeviceId RouteEntry :=
  filter (λ r, rn_node_id (re_node r.2) ≠ node_id) routes.

(** The loop of [upsert], which stops at a route that was there already, with
    the routes so far changed *)
Fixpoint insert_routes (node : RemoteNode) (devices : list RemoteDeviceDescriptor)
    : M RouterState RouteError () :=
  match devices with
  | [] => mret ()
  | device :: devices =>
      let id := namespaced_id (rn_node_id node) (rd_device_key device) in
      st ← get;
      check! modify (λ st, mkRouterState (rs_nodes st)
        (<[id := mkRouteEntry node (rd_device_key device)]> (rs_routes st)));
      check! lift (reject_if (is_some (rs_routes st !! id)) RE_Duplicate);
      insert_routes node devices
  end.

(** [NodeRouter::upsert] *)
Definition upsert (config : RouterConfig) (now now' : Instant) (node : RemoteNode)
    : M RouterState RouteError () :=
  check! lift (reject_if (negb (is_fresh config now now' node)) RE_Unhealthy);
  st ← get;
  let id := rn_node_id node in
  check! lift (reject_if (is_none (rs_nodes st !! id) &&
                          (N.of_nat (size (rs_nodes st)) =? rt_max_nodes config)) RE_NodeLimit);
  check! lift (match rs_nodes st !! id with
               | Some existing => validate_successor existing node
               | None => Ok ()
               end);
  check! modify (λ st, mkRouterState (rs_nodes st) (without_node id (rs_routes st)));
  check! insert_routes node (iv_devices (rn_inventory node));
  modify (λ st, mkRouterState (<[id := node]> (rs_nodes st)) (rs_routes st)).

(** [NodeRouter::remove_node] *)
Definition remove_node (node_id : NodeId) : M RouterState RouteError () :=
  st ← get;
  check! modify (λ st, mkRouterState (delete node_id (rs_nodes st)) (rs_routes st));
  check! lift (reject_if (is_none (rs_nodes st !! node_id)) RE_NotFound);
  modify (λ st, mkRouterState (rs_nodes st) (without_node node_id (rs_routes st))).

(** The loop of [NodeRouter::inventory]; each route reads the clock on its own *)
Fixpoint list_routes (config : RouterConfig) (clock : DeviceId → Instant * Instant)
    (routes : gmap DeviceId RouteEntry) (ids : list DeviceId) : result RouteError (list DeviceInfo) :=
  match ids with
  | [] => Ok []
  | id :: ids =>
      match routes !! id with
      | Some route =>
          if is_fresh config (fst (clock id)) (snd (clock id)) (re_node route) then
            device ← ok_or (descriptor (re_node route) (re_device_key route)) RE_IdentityDrift;
            devices ← list_routes config clock routes ids;
            Ok (mkDeviceInfo id (rd_name device) (rd_platform device) (rd_os_version device) false
                  :: devices)
          else list_routes config clock routes ids
      | None => list_routes config clock routes ids
      end
  end.

(** [NodeRouter::inventory] *)
Definition router_inventory (config : RouterConfig) (clock : DeviceId → Instant * Instant)
    (st : RouterState) : result RouteError (list DeviceInfo) :=
  devices ← list_routes config clock (rs_routes st) (btree_keys (rs_routes st));
  check! reject_if (bool_decide (devices = []) && negb (bool_decide (rs_routes st = ∅))) RE_Unhealthy;
  Ok devices.

(** [NodeRouter::route_driver], with the state it reads first *)
Definition route_driver (config : RouterConfig) (st : RouterState) (id : DeviceId) (owner_id : string)
    (driver_config : RemoteDriverConfig) : RouterM RemoteDeviceDriver :=
  route ←? Ret (ok_or (rs_routes st !! id) RE_NotFound);
  now ← perform RouterInstant;
  now' ← perform RouterInstant;
  try! Ret (reject_if (negb (is_fresh config now now' (re_node route))) RE_Unhealthy);
  driver (re_node route) (re_device_key route) owner_id driver_config.

(** ** Configured peers ([connector.rs]) *)

(** [ConfiguredPeer] *)
Record ConfiguredPeer := mkConfiguredPeer {
  cp_node_id : NodeId;
  cp_endpoint : N;
  cp_tunnel_id : string;
  cp_owner_id : string;
  cp_driver : RemoteDriverConfig;
}.

Inductive ConnectorError := CE_Connect | CE_Security | CE_Discovery | CE_Cancelled | CE_TimedOut.

Abbreviation ConnectorM A := (prog RO (result ConnectorError A)).

Definition CONNECT_TIMEOUT : N := from_millis 10000.
Definition CONNECT_RETRY_BACKOFF : N := from_millis 25.

(** [map_route] *)
Definition map_route (e : RouteError) : ConnectorError :=
  match e with
  | RE_Transport (TE_Cancelled | TE_CancelledAfterSend) => CE_Cancelled
  | RE_Transport (TE_TimedOut | TE_TimedOutAfterSend) => CE_TimedOut
  | _ => CE_Discovery
  end.

Definition control_check (p : Pulse) : result ConnectorError () :=
  if pu_cancelled p then Err CE_Cancelled else if pu_expired p then Err CE_TimedOut else Ok ().

(** The loop of [connect_loopback_with_retry], for at most [fuel] attempts *)
Fixpoint connect_loop (fuel : nat) (endpoint : N) (deadline : Instant) (deadline_error : ConnectorError)
    : prog RO (option (result ConnectorError N)) :=
  match fuel with
  | O => mret None
  | S fuel =>
      connected ← perform (ConnectRace endpoint deadline);
      match connected with
      | WaitCancelled => mret (Some (Err CE_Cancelled))
      | WaitTimedOut => mret (Some (Err deadline_error))
      | WaitDone (Some stream) => mret (Some (Ok stream))
      | WaitDone None =>
          now ← perform RouterInstant;
          let remaining := deadline - now in
          if remaining =? 0 then mret (Some (Err deadline_error)) else
          cancelled ← perform (SleepRace (N.min CONNECT_RETRY_BACKOFF remaining));
          if (cancelled : bool) then mret (Some (Err CE_Cancelled))
          else connect_loop fuel endpoint deadline deadline_error
      end
  end.

(** [connect_loopback_with_retry]; [None] when [fuel] attempts were not enough *)
Definition connect_loopback_with_retry (fuel : nat) (endpoint connect_timeout : N)
    : prog RO (option (result ConnectorError N)) :=
  p ← perform RouterPulse;
  match control_check p with
  | Err e => mret (Some (Err e))
  | Ok _ =>
      remaining ← perform RouterRemaining;
      let control_is_deadline := is_some_and (λ r, r <=? connect_timeout) remaining in
      let budget := match remaining with None => connect_timeout | Some r => N.min r connect_timeout end in
      now ← perform RouterInstant;
      connect_loop fuel endpoint (now + budget) (if control_is_deadline then CE_TimedOut else CE_Connect)
  end.

(** Enough attempts for the ten seconds of [CONNECT_TIMEOUT], 25 ms apart *)
Definition MAX_CONNECT_ATTEMPTS : nat := 401.

(** [connect_peer_transport] *)
Definition connect_peer_transport (peer : ConfiguredPeer) (s : PeerSecurity) : ConnectorM Link :=
  connected ← connect_loopback_with_retry MAX_CONNECT_ATTEMPTS (cp_endpoint peer) CONNECT_TIMEOUT;
  stream ←? Ret (match connected with Some r => r | None => Err CE_Connect end);
  set ← perform (SetNodelay stream);
  if (set : bool) then mret (Ok (Ndjson stream (cp_node_id peer) s)) else mret (Err CE_Connect).

(** One transport to a peer, and the node discovered over it *)
Definition discover_shard (peer : ConfiguredPeer) (s : PeerSecurity) : ConnectorM RemoteNode :=
  t ←? connect_peer_transport peer s;
  r ← discover t;
  mret (map_err map_route r).

(** [discover_configured_peer] *)
Definition discover_configured_peer (peer : ConfiguredPeer) : ConnectorM (list RemoteDeviceDriver) :=
  p ← perform RouterPulse;
  try! Ret (control_check p);
  s ←? Ret (map_err (λ _, CE_Security) (external_tunnel (cp_tunnel_id peer)));
  primary ←? discover_shard peer s;
  let shard_count := N.min (len (iv_devices (rn_inventory primary))) MAX_PEER_TRANSPORT_SHARDS in
  rs ← join_all (replicate (N.to_nat shard_count - 1) (discover_shard peer s));
  shards ←? Ret (collect rs);
  node ←? Ret (map_err map_route (with_transport_shards (primary :: shards)));
  r ← drivers node (cp_owner_id peer) (cp_driver peer);
  mret (map_err map_route r).

(** [connect_configured_peers] *)
Definition connect_configured_peers (peers : list ConfiguredPeer)
    : ConnectorM (list RemoteDeviceDriver) :=
  rs ← join_all (discover_configured_peer <$> peers);
  mret (discovered ← collect rs; Ok (merge_sort driver_le (concat discovered))).
End Drivers.
