(* ===== verification/NodeRouterProps.v ===== *)
(** * Guarantees of the router

    The routes of a router are the devices of the inventories of its nodes, one
    id for each; a node that is replaced only moves forward; connecting to the
    configured peers gives every device of every peer one Driver; and the
    retries of a connection end. *)

From S2P Require Import Prelude Protocol Evidence UiContract Async Control Runtime PeerLease.
From S2P Require Import PeerModel PeerTransport RemoteDriver NodeRouter.

Local Open Scope N_scope.

(** ** Names *)

Definition colon : Ascii.ascii := Ascii.ascii_of_N 0x3A.

Fixpoint no_colon (s : string) : bool :=
  match s with EmptyString => true | String a s => negb (Ascii.eqb a colon) && no_colon s end.

Lemma identifier_no_colon value max : valid_identifier value max = true → no_colon value = true.
Proof.
  unfold valid_identifier, bytes. intros H. apply andb_true_iff in H as [_ H].
  assert (Forall (λ a, Ascii.eqb a colon = false) (String.list_ascii_of_string value)) as Hall.
  { destruct (String.list_ascii_of_string value) as [|a l]; [done|]. cbn in H.
    assert (∀ a, is_ascii_alphanumeric (Ascii.N_of_ascii a) ||
      ((Ascii.N_of_ascii a =? 0x2E) || (Ascii.N_of_ascii a =? 0x5F) || (Ascii.N_of_ascii a =? 0x2D)) =
      true → Ascii.eqb a colon = false) as Hchar.
    { intros b Hb. apply Ascii.eqb_neq. by intros ->. }
    apply andb_true_iff in H as [Ha Hl]. constructor.
    - apply Hchar. by rewrite Ha.
    - apply List.Forall_forall. intros b Hb. apply Hchar.
      by apply (proj1 (forallb_forall _ _) Hl), in_map. }
  clear H. induction value as [|a s IH]; [done|]. cbn in *. inversion Hall as [|?? Ha Hs]; subst.
  rewrite Ha. by apply IH.
Qed.

Lemma split_at_colon n n' k k' :
  no_colon n = true → no_colon n' = true →
  n +:+ String colon k = n' +:+ String colon k' → n = n' ∧ k = k'.
Proof.
  revert n'. induction n as [|a n IH]; intros [|a' n']; cbn; intros Hn Hn' [=]; subst; try done.
  apply andb_true_iff in Hn as [_ Hn], Hn' as [_ Hn'].
  destruct (IH n') as [-> ->]; try done.
Qed.

Lemma namespaced_id_inj n n' k k' :
  no_colon n = true → no_colon n' = true →
  namespaced_id n k = namespaced_id n' k' → n = n' ∧ k = k'.
Proof. intros Hn Hn' [=]. by apply split_at_colon. Qed.

(** ** Discovered nodes *)

Definition keys (node : RemoteNode) : list string := rd_device_key <$> iv_devices (rn_inventory node).

(** What discovery checks *)
Record node_ok (node : RemoteNode) : Prop := mkNodeOk {
  ok_id : no_colon (rn_node_id node) = true;
  ok_inventory : inventory_validate (rn_inventory node) = Ok ();
  ok_inventory_id : iv_node_id (rn_inventory node) = rn_node_id node;
  ok_inventory_epoch : iv_epoch (rn_inventory node) = rn_epoch node;
}.

Lemma validate_devices_keys devices known :
  validate_devices devices known = Ok () →
  NoDup (rd_device_key <$> devices) ∧ ∀ key, key ∈ rd_device_key <$> devices → key ∉ known.
Proof.
  revert known. induction devices as [|device devices IH]; intros known; cbn.
  { intros _. split; [constructor|]. intros key Hk. by apply elem_of_nil in Hk. }
  intros H. inv_result. inv_bools.
  destruct (IH _ ltac:(eassumption)) as [Hnd Hnew]. split.
  - constructor; [|done]. intros Hin. apply (Hnew _ Hin). set_solver.
  - intros key [->|Hin]%elem_of_cons; [done|]. specialize (Hnew _ Hin). set_solver.
Qed.

Lemma node_ok_keys node : node_ok node → NoDup (keys node) ∧ keys node ≠ [].
Proof.
  intros [_ Hv _ _]. unfold inventory_validate in Hv. inv_result. inv_bools.
  split; [by eapply validate_devices_keys|]. unfold keys.
  destruct (iv_devices (rn_inventory node)); [done|]. done.
Qed.

(** Effects that may answer anything; the world is the inventories that peers
    have sent *)
Definition sent (R : Type) (e : RO R) : R → list InventorySnapshot :=
  match e in RO R return R → list InventorySnapshot with
  | RouterRequest _ _ => λ res,
      match res with
      | Ok response => match ps_result response with Some (PR_Inventory i) => [i] | _ => [] end
      | Err _ => []
      end
  | _ => λ _, []
  end.
Definition peer_step (R : Type) (e : RO R) (w : list InventorySnapshot) (r : R)
    (w' : list InventorySnapshot) : Prop := w' = w ++ sent R e r.
Definition none (w w' : list InventorySnapshot) : Prop := False.
Abbreviation rwp := (wp peer_step none).

(** A program whose result, if it has one, is in [P] *)
Definition gives {Er A} (P : A → list InventorySnapshot → Prop) (r : result Er A)
    (w : list InventorySnapshot) : Prop := ∀ a, r = Ok a → P a w.

Lemma rwp_step {A} R (e : RO R) (k : R → prog RO A) Q w :
  (∀ r, rwp (k r) Q (w ++ sent R e r)) → rwp (Step R e k) Q w.
Proof. intros Hk w1 r w2 Hw ->. inversion Hw; subst; [apply Hk|done]. Qed.

Lemma rwp_grows {A} (p : prog RO A) w : rwp p (λ _ w', w ⊆ w') w.
Proof.
  revert w. induction p as [a|R e k IH]; intros w; [by cbn|]. apply rwp_step. intros r.
  eapply wp_mono; [apply IH|]. cbn. set_solver.
Qed.

Lemma rwp_and {A} (p : prog RO A) (Q Q' : A → list InventorySnapshot → Prop) w :
  rwp p Q w → rwp p Q' w → rwp p (λ a w, Q a w ∧ Q' a w) w.
Proof.
  revert w. induction p as [a|R e k IH]; intros w; [done|]. intros H1 H2.
  apply rwp_step. intros r. apply IH; [eapply H1|eapply H2]; done || apply rtc_refl.
Qed.

Lemma rwp_exchange {A} t epoch o (k : PeerResponse → RouterM A) P w :
  (∀ response w', w ⊆ w' → (∀ i, ps_result response = Some (PR_Inventory i) → i ∈ w') →
     rwp (k response) (gives P) w') →
  rwp (try_bind k (router_exchange t epoch o)) (gives P) w.
Proof.
  intros Hk. apply rwp_step. intros ids. apply rwp_step. intros [response|e]; [|done].
  apply Hk; cbn; [set_solver|]. intros i ->. set_solver.
Qed.

Lemma rwp_try_ret {Er A B} (r : result Er A) (k : A → prog RO (result Er B)) P w :
  (∀ a, r = Ok a → rwp (k a) (gives P) w) → rwp (try_bind k (Ret r)) (gives P) w.
Proof. destruct r; cbn; [by intros Hk; apply Hk|done]. Qed.

Lemma inventory_facts_ok node_id epoch response inventory :
  inventory_facts node_id epoch response = Ok inventory →
  ps_result response = Some (PR_Inventory inventory) ∧ inventory_validate inventory = Ok () ∧
  iv_node_id inventory = node_id ∧ iv_epoch inventory = epoch.
Proof.
  unfold inventory_facts. intros H. apply result_bind_ok in H as (_ & _ & H).
  apply result_bind_ok in H as (res & Hres & H). destruct res; try discriminate. inv_result. inv_bools.
  repeat match goal with u : () |- _ => destruct u end. unfold success in Hres.
  destruct (ps_ok response); inv_result.
  split; [done|]. split; [done|]. by split; [apply String.eqb_eq|apply N.eqb_eq].
Qed.

Lemma discover_ok t w :
  valid_identifier (expected_node_id t) 64 = true →
  rwp (discover t) (gives (λ node w',
    node_ok node ∧ rn_node_id node = expected_node_id t ∧ rn_inventory node ∈ w')) w.
Proof.
  intros Hid. unfold discover. apply rwp_try_ret. intros _ _. apply rwp_exchange. intros hello w1 _ _.
  apply rwp_try_ret. intros [epoch capabilities] _. apply rwp_exchange. intros response w2 _ Hsent.
  apply rwp_try_ret. intros inventory (Hres & Hvalid & Hnode & Hepoch)%inventory_facts_ok.
  apply rwp_step. intros at_. apply rwp_exchange. intros health w3 Hsub _. apply rwp_try_ret.
  intros state _. apply rwp_step. intros at' node [= <-].
  split; [|split; [done|cbn; apply Hsent in Hres; set_solver]].
  constructor; [by eapply identifier_no_colon|done..].
Qed.

Lemma with_transport_shards_ok nodes node :
  with_transport_shards nodes = Ok node →
  ∃ primary, primary ∈ nodes ∧ rn_node_id node = rn_node_id primary ∧
    rn_epoch node = rn_epoch primary ∧ rn_inventory node = rn_inventory primary.
Proof.
  destruct nodes as [|primary [|second others]]; [done| |].
  - intros [= ->]. exists node. split; [by left|done].
  - cbn [with_transport_shards]. intros H. inv_result. exists primary. split; [by left|done].
Qed.

(** A node that discovery found, over one transport or several *)
Inductive found : RemoteNode → Prop :=
| found_discover t w node w' :
    valid_identifier (expected_node_id t) 64 = true →
    runs peer_step none (discover t) w (Ok node) w' → found node
| found_sharded nodes node :
    (∀ n, n ∈ nodes → found n) → with_transport_shards nodes = Ok node → found node.

Lemma found_ok node : found node → node_ok node.
Proof.
  induction 1 as [t w node w' Hid Hruns|nodes node _ IH Hs].
  - by apply (wp_sound _ _ _ _ _ _ _ (discover_ok t w Hid) Hruns).
  - apply with_transport_shards_ok in Hs as (primary & Hin & Hid & He & Hinv).
    destruct (IH primary Hin) as [H1 H2 H3 H4]. constructor; congruence.
Qed.

(** ** The router *)

Record routes_ok (config : RouterConfig) (st : RouterState) : Prop := mkRoutesOk {
  ok_nodes n node : rs_nodes st !! n = Some node → rn_node_id node = n ∧ node_ok node;
  ok_routes id e : rs_routes st !! id = Some e ↔
    rs_nodes st !! rn_node_id (re_node e) = Some (re_node e) ∧ re_device_key e ∈ keys (re_node e) ∧
    id = namespaced_id (rn_node_id (re_node e)) (re_device_key e);
  ok_size : N.of_nat (size (rs_nodes st)) ≤ rt_max_nodes config;
}.

#[local] Arguments namespaced_id : simpl never.

Lemma insert_routes_cons node device devices st :
  let id := namespaced_id (rn_node_id node) (rd_device_key device) in
  rs_routes st !! id = None →
  insert_routes node (device :: devices) st =
  insert_routes node devices (mkRouterState (rs_nodes st)
    (<[id := mkRouteEntry node (rd_device_key device)]> (rs_routes st))).
Proof.
  intros id Hid. cbn [insert_routes]. unfold mbind, M_bind. cbn. fold id. by rewrite Hid.
Qed.

Lemma insert_routes_spec node devices st :
  NoDup (rd_device_key <$> devices) →
  no_colon (rn_node_id node) = true →
  (∀ d, d ∈ devices → rs_routes st !! namespaced_id (rn_node_id node) (rd_device_key d) = None) →
  ∃ routes, insert_routes node devices st = (Ok (), mkRouterState (rs_nodes st) routes) ∧
    ∀ id e, routes !! id = Some e ↔ rs_routes st !! id = Some e ∨
      (re_node e = node ∧ re_device_key e ∈ rd_device_key <$> devices ∧
       id = namespaced_id (rn_node_id node) (re_device_key e)).
Proof.
  intros Hnd Hid. revert st. induction devices as [|device devices IH]; intros st Hfree.
  { exists (rs_routes st). destruct st. split; [done|]. intros id e. cbn. set_solver. }
  inversion Hnd as [|?? Hnew Hnd']; subst. rewrite insert_routes_cons by (apply Hfree; by left).
  set (st1 := mkRouterState _ _).
  destruct (IH Hnd' st1) as (routes & Hrun & Hroutes).
  { intros d Hd. cbn. rewrite lookup_insert_ne; [by apply Hfree; right|].
    intros [_ Heq]%namespaced_id_inj; try done. apply Hnew. rewrite Heq. by apply list_elem_of_fmap_2. }
  exists routes. split; [exact Hrun|]. intros id e. rewrite Hroutes. cbn.
  rewrite lookup_insert_Some, elem_of_cons. pose proof (Hfree device ltac:(by left)) as Hf.
  split.
  - intros [[[<- <-]|[Hne Hl]]|(<- & Hin & ->)]; [right|left|right]; cbn; auto.
  - intros [Hl|(<- & [Hkey|Hin] & ->)].
    + left. right. split; [by intros <-; rewrite Hf in Hl|done].
    + left. left. rewrite Hkey. split; [done|]. destruct e. by f_equal.
    + right. auto.
Qed.

Lemma without_node_lookup n routes id e :
  without_node n routes !! id = Some e ↔ routes !! id = Some e ∧ rn_node_id (re_node e) ≠ n.
Proof. unfold without_node. by rewrite map_lookup_filter_Some. Qed.

(** A node only moves forward. *)
Definition advances (old new : RemoteNode) : Prop :=
  (rn_epoch old < rn_epoch new ∨ rn_epoch old = rn_epoch new ∧
    (iv_revision (rn_inventory old) < iv_revision (rn_inventory new) ∨
     iv_revision (rn_inventory old) = iv_revision (rn_inventory new) ∧
     iv_devices (rn_inventory old) = iv_devices (rn_inventory new))) ∧
  ∀ device device', device ∈ iv_devices (rn_inventory old) →
    descriptor new (rd_device_key device) = Some device' → rd_platform device' = rd_platform device.

Lemma validate_successor_ok old new : validate_successor old new = Ok () → advances old new.
Proof.
  unfold validate_successor. intros H. apply result_bind_ok in H as ([] & H1 & H).
  apply result_bind_ok in H as ([] & H2 & H). apply reject_if_ok in H1, H. apply N.ltb_ge in H1.
  split.
  - destruct (N.eqb_spec (rn_epoch new) (rn_epoch old)) as [He|He]; [right|left; lia]. split; [done|].
    inv_result. match goal with H : (_ <? _) = false |- _ => apply N.ltb_ge in H as Hrev end.
    destruct (N.eqb_spec (iv_revision (rn_inventory new)) (iv_revision (rn_inventory old)));
      [right|left; lia]. cbn in *. inv_bools. done.
  - intros device device' Hin Hd. apply Bool.not_true_iff_false in H. apply dec_stable. intros Hne.
    apply H, existsb_exists. exists device. split; [by apply list_elem_of_In|].
    rewrite Hd. cbn. by rewrite bool_decide_false.
Qed.

Lemma validate_successor_err old new e : validate_successor old new = Err e → e ≠ RE_Duplicate.
Proof. unfold validate_successor. intros H ->. inv_result; destruct (_ =? _); by inv_result. Qed.

(** The state after [upsert] *)
Lemma replaced_ok config node st routes :
  routes_ok config st → node_ok node →
  (is_none (rs_nodes st !! rn_node_id node) && (N.of_nat (size (rs_nodes st)) =? rt_max_nodes config)) =
    false →
  (∀ id e, routes !! id = Some e ↔
    without_node (rn_node_id node) (rs_routes st) !! id = Some e ∨
    (re_node e = node ∧ re_device_key e ∈ keys node ∧
     id = namespaced_id (rn_node_id node) (re_device_key e))) →
  routes_ok config (mkRouterState (<[rn_node_id node := node]> (rs_nodes st)) routes).
Proof.
  intros [Hn Hr Hsize] Hnode Hfull Hroutes. constructor; cbn.
  - intros n node'. rewrite lookup_insert_Some. intros [[<- <-]|[_ Hl]]; auto.
  - intros id e. rewrite Hroutes, without_node_lookup, Hr, lookup_insert_Some. split.
    + intros [[(Hl & Hk & ->) Hne]|(<- & Hk & ->)]; naive_solver.
    + intros ([[_ <-]|[Hne Hl]] & Hk & ->); [right; auto|left; auto].
  - destruct (rs_nodes st !! rn_node_id node) as [old|] eqn:Hl.
    + by rewrite map_size_insert_Some.
    + rewrite map_size_insert_None by done. cbn in Hfull. apply N.eqb_neq in Hfull. lia.
Qed.

(** [upsert] either replaces the node and its routes, or changes nothing. *)
Lemma upsert_spec config now now' node st r st' :
  routes_ok config st → node_ok node → upsert config now now' node st = (r, st') →
  match r with
  | Ok _ => routes_ok config st' ∧ rs_nodes st' = <[rn_node_id node := node]> (rs_nodes st) ∧
      ∀ old, rs_nodes st !! rn_node_id node = Some old → advances old node
  | Err e => st' = st ∧ e ≠ RE_Duplicate
  end.
Proof.
  intros Hst Hnode. unfold upsert. destruct (is_fresh config now now' node); [|by intros [= <- <-]].
  unfold mbind, M_bind, get, lift, modify. cbn -[insert_routes validate_successor].
  destruct (is_none _ && _) eqn:Hfull; [by intros [= <- <-]|]. cbn -[insert_routes validate_successor].
  destruct (match rs_nodes st !! _ with Some _ => _ | None => _ end) as [[]|e] eqn:Hsucc.
  2: { intros [= <- <-]. split; [done|]. case_match; [|done]. by eapply validate_successor_err. }
  destruct (insert_routes_spec node (iv_devices (rn_inventory node))
    (mkRouterState (rs_nodes st) (without_node (rn_node_id node) (rs_routes st))))
    as (routes & -> & Hroutes).
  - by apply node_ok_keys.
  - apply Hnode.
  - intros d Hd. cbn. apply eq_None_not_Some. intros [e He].
    apply without_node_lookup in He as [He Hne]. apply (ok_routes _ _ Hst) in He as (Hl & _ & Hid).
    apply namespaced_id_inj in Hid as [Hid _]; [by rewrite Hid in Hne|apply Hnode|].
    by apply (ok_nodes _ _ Hst) in Hl as [_ []].
  - intros [= <- <-]. cbn in *. split; [by apply replaced_ok|]. split; [done|].
    intros old Hold. rewrite Hold in Hsucc. by apply validate_successor_ok.
Qed.

Lemma remove_node_spec config id st r st' :
  routes_ok config st → remove_node id st = (r, st') → routes_ok config st'.
Proof.
  intros Hst. unfold remove_node, mbind, M_bind, get, lift, modify. cbn.
  destruct (rs_nodes st !! id) as [node|] eqn:Hid; cbn; intros [= <- <-].
  2: { rewrite delete_id by done. by destruct st. }
  destruct Hst as [Hn Hr Hsize]. constructor; cbn.
  - intros n node'. rewrite lookup_delete_Some. naive_solver.
  - intros i e. rewrite without_node_lookup, Hr, lookup_delete_Some. naive_solver.
  - rewrite map_size_delete_Some by done. lia.
Qed.

(** What happens to a router: nodes that discovery found are put into it, and
    nodes are removed *)
Inductive router_step (config : RouterConfig) : RouterState → RouterState → Prop :=
| router_upserts now now' node st r st' :
    found node → upsert config now now' node st = (r, st') → router_step config st st'
| router_removes id st r st' :
    remove_node id st = (r, st') → router_step config st st'.

Definition router0 : RouterState := mkRouterState ∅ ∅.

Lemma router_reachable_ok config st : rtc (router_step config) router0 st → routes_ok config st.
Proof.
  apply (rtc_ind_r (routes_ok config)).
  - constructor; cbn; [done| |rewrite map_size_empty; lia].
    intros id e. split; [done|]. intros [Hl _]. by rewrite lookup_empty in Hl.
  - intros st1 st2 _ Hstep Hst. destruct Hstep as [now now' node st1 r st2 Hf Hrun|id st1 r st2 Hrun].
    + apply upsert_spec in Hrun; [|done|by apply found_ok].
      destruct r; [by destruct Hrun|by destruct Hrun as [-> _]].
    + by eapply remove_node_spec.
Qed.

(** C30: the routes of a router are the inventories of its nodes.  Whatever
    nodes are put into a router and removed from it: an id is routed exactly
    when it is the name of a device of a node the router has, to that node and
    that device, so that two devices never share an id; the nodes stay within
    the limit; and putting a node in either replaces the node and all of its
    routes, moving its epoch and revision forward and changing no platform, or
    leaves the router as it was, and never because an id was taken. *)
Theorem routes_follow_inventories config st :
  rtc (router_step config) router0 st →
  (∀ id e, rs_routes st !! id = Some e ↔
    ∃ node device, rs_nodes st !! rn_node_id node = Some node ∧
      device ∈ iv_devices (rn_inventory node) ∧ e = mkRouteEntry node (rd_device_key device) ∧
      id = namespaced_id (rn_node_id node) (rd_device_key device)) ∧
  N.of_nat (size (rs_nodes st)) ≤ rt_max_nodes config ∧
  ∀ now now' node r st', found node → upsert config now now' node st = (r, st') →
    match r with
    | Ok _ => rs_nodes st' = <[rn_node_id node := node]> (rs_nodes st) ∧
        ∀ old, rs_nodes st !! rn_node_id node = Some old → advances old node
    | Err e => st' = st ∧ e ≠ RE_Duplicate
    end.
Proof.
  intros Hst%router_reachable_ok. split; [|split; [apply Hst|]].
  - intros id [node key]. rewrite (ok_routes _ _ Hst). cbn. unfold keys. split.
    + intros (Hl & (device & -> & Hd)%list_elem_of_fmap_1 & ->). by exists node, device.
    + intros (node' & device & Hl & Hd & [= -> ->] & ->). split; [done|].
      split; [by apply list_elem_of_fmap_2|done].
  - intros now now' node r st' Hf Hrun. apply upsert_spec in Hrun; [|done|by apply found_ok].
    destruct r; [by destruct Hrun as [_ Hrun]|done].
Qed.

(** ** Connecting to the configured peers *)

Section Connect.
Context (json_bytes : Json → option N) (schema_compiles : Json → bool).
Context (canonical_schema : string → option Json).

#[local] Abbreviation driver := (driver json_bytes schema_compiles canonical_schema).
#[local] Abbreviation drivers := (drivers json_bytes schema_compiles canonical_schema).
#[local] Abbreviation discover_configured_peer :=
  (discover_configured_peer json_bytes schema_compiles canonical_schema).
#[local] Abbreviation connect_configured_peers :=
  (connect_configured_peers json_bytes schema_compiles canonical_schema).

(** A program that goes on when another one gave a result *)
Lemma rwp_bind_gives {Er A B} (p : prog RO (result Er A)) (k : A → prog RO (result Er B)) P Q w :
  rwp p (gives P) w → (∀ a w', P a w' → w ⊆ w' → rwp (k a) (gives Q) w') →
  rwp (try_bind k p) (gives Q) w.
Proof.
  intros Hp Hk. apply wp_try. eapply wp_mono; [apply rwp_and; [exact Hp|apply rwp_grows]|].
  intros [a|e] w' [Hg Hsub]; [|done]. by apply Hk; [apply Hg|].
Qed.

(** A step of which the result is kept up to its error *)
Lemma rwp_map_err {Er Er' A} (f : Er → Er') (p : prog RO (result Er A)) P w :
  rwp p (gives P) w → rwp (p ≫= λ r, mret (map_err f r)) (gives P) w.
Proof.
  intros Hp. apply wp_bind. eapply wp_mono; [exact Hp|]. intros [a|e] w' Hg; [|done].
  intros a' [= <-]. by apply Hg.
Qed.

(** The results of a [join_all], each with what it was for *)
Lemma rwp_join_all {X Er A} (f : X → prog RO (result Er A)) (P : X → A → list InventorySnapshot → Prop)
    (xs : list X) w :
  (∀ x a w w', w ⊆ w' → P x a w → P x a w') →
  (∀ x w, x ∈ xs → rwp (f x) (gives (P x)) w) →
  rwp (join_all (f <$> xs)) (λ rs w', ∀ l, collect rs = Ok l → Forall2 (λ x a, P x a w') xs l) w.
Proof.
  intros Hmono. revert w. induction xs as [|x xs IH]; intros w Hf.
  { intros l [= <-]. constructor. }
  cbn. apply wp_bind. eapply wp_mono; [apply Hf; by left|]. intros r w1 Hr. apply wp_bind.
  eapply wp_mono; [apply rwp_and; [apply IH|apply rwp_grows]; intros; apply Hf; by right|].
  intros rs w2 [Hrs Hsub] l Hl. cbn in Hl. inv_result. constructor; [|by apply Hrs].
  by eapply Hmono, Hr.
Qed.

(** *** The Drivers of a node *)

(** A Driver for a device of a node, as it was asked for *)
Definition drives (node : RemoteNode) (owner_id : string) (config : RemoteDriverConfig) (key : string)
    (d : RemoteDeviceDriver) : Prop :=
  self_id d = namespaced_id (rn_node_id node) key ∧ dr_node_epoch d = rn_epoch node ∧
  dr_owner_id d = owner_id ∧ dr_config d = config ∧ descriptor node key = Some (dr_descriptor d).

Lemma driver_ok node key owner_id config w :
  rwp (driver node key owner_id config) (gives (λ d _, drives node owner_id config key d)) w.
Proof.
  unfold NodeRouter.driver. apply rwp_try_ret. intros device Hd. inv_result. apply rwp_map_err.
  unfold load. apply rwp_step. intros ids. apply rwp_step. intros [res|e]; [|done].
  intros d Hres. destruct res; try discriminate. cbn in Hres. unfold from_contract in Hres. inv_result.
  apply find_some in Hd as Hk. destruct Hk as [_ Hk]. apply String.eqb_eq in Hk.
  split; [|done]. unfold self_id, raw_id, namespaced_id. cbn. by rewrite Hk.
Qed.

Lemma drivers_ok node owner_id config w :
  rwp (drivers node owner_id config) (gives (λ ds _,
    (self_id <$> ds) ≡ₚ namespaced_id (rn_node_id node) <$> keys node ∧
    ∀ d, d ∈ ds → ∃ key, drives node owner_id config key d)) w.
Proof.
  unfold NodeRouter.drivers. apply wp_bind. eapply wp_mono.
  { apply (rwp_join_all _ (λ device d _, drives node owner_id config (rd_device_key device) d)); [done|].
    intros device w' _. apply driver_ok. }
  cbn. intros rs w' Hrs ds Hds. inv_result. specialize (Hrs _ ltac:(eassumption)). split.
  - rewrite merge_sort_Permutation. unfold keys. rewrite <- list_fmap_compose.
    apply reflexive_eq. clear -Hrs. induction Hrs as [|device d devices ds [Hd _] _ IH]; [done|].
    cbn. by rewrite Hd, IH.
  - intros d. rewrite merge_sort_Permutation. intros Hd.
    apply list_elem_of_lookup in Hd as [i Hd]. apply (Forall2_lookup_r _ _ _ _ _ Hrs) in Hd as (device & _ & Hd).
    by exists (rd_device_key device).
Qed.

(** *** A peer *)

Lemma connect_peer_transport_ok peer sec w :
  rwp (connect_peer_transport peer sec) (gives (λ t _, expected_node_id t = cp_node_id peer)) w.
Proof.
  unfold connect_peer_transport. apply wp_bind. eapply wp_mono; [apply rwp_grows|].
  intros connected w1 _. apply rwp_try_ret. intros stream _. apply rwp_step.
  intros [] t Ht; [by injection Ht as <-|done].
Qed.

Definition node_of (peer : ConfiguredPeer) (node : RemoteNode) (w : list InventorySnapshot) : Prop :=
  node_ok node ∧ rn_node_id node = cp_node_id peer ∧ rn_inventory node ∈ w.

Lemma discover_shard_ok peer sec w :
  valid_identifier (cp_node_id peer) 64 = true →
  rwp (discover_shard peer sec) (gives (node_of peer)) w.
Proof.
  intros Hid. unfold discover_shard. eapply rwp_bind_gives; [apply connect_peer_transport_ok|].
  intros t w1 Ht _. apply rwp_map_err. eapply wp_mono; [apply discover_ok; by rewrite Ht|].
  intros r w2 Hg node Hr. destruct (Hg node Hr) as (Hok & Hn & Hi). split; [done|]. by rewrite Hn.
Qed.

(** The Drivers of one peer: those of one inventory that the peer sent *)
Definition drivers_of (peer : ConfiguredPeer) (ds : list RemoteDeviceDriver)
    (w : list InventorySnapshot) : Prop :=
  ∃ i, i ∈ w ∧ iv_node_id i = cp_node_id peer ∧ inventory_validate i = Ok () ∧
    (self_id <$> ds) ≡ₚ (λ device, namespaced_id (cp_node_id peer) (rd_device_key device)) <$> iv_devices i ∧
    ∀ d, d ∈ ds → dr_owner_id d = cp_owner_id peer ∧ dr_config d = cp_driver peer ∧
      dr_node_epoch d = iv_epoch i ∧ dr_descriptor d ∈ iv_devices i.

Lemma descriptor_in node key device : descriptor node key = Some device → device ∈ iv_devices (rn_inventory node).
Proof. intros [Hin _]%find_some. by apply list_elem_of_In. Qed.

Lemma discover_configured_peer_ok peer w :
  valid_identifier (cp_node_id peer) 64 = true →
  rwp (discover_configured_peer peer) (gives (drivers_of peer)) w.
Proof.
  intros Hid. unfold NodeRouter.discover_configured_peer. apply rwp_step. intros p.
  apply rwp_try_ret. intros _ _. apply rwp_try_ret. intros sec _.
  eapply rwp_bind_gives; [by apply discover_shard_ok|]. intros primary w1 Hprimary _. apply wp_bind.
  rewrite <- (fmap_replicate (λ peer, discover_shard peer sec)).
  eapply wp_mono; [apply rwp_and; [apply (rwp_join_all _ node_of)|apply rwp_grows]|].
  { intros x node w2 w3 Hsub (H1 & H2 & H3). by split_and!; [..|apply Hsub]. }
  { intros x w2 [-> _]%elem_of_replicate. by apply discover_shard_ok. }
  intros rs w2 [Hrs Hsub]. apply rwp_try_ret. intros shards Hshards. apply rwp_try_ret.
  intros node Hnode. inv_result. specialize (Hrs _ Hshards).
  assert (∃ origin, node_of peer origin w2 ∧ rn_node_id node = rn_node_id origin ∧
    rn_epoch node = rn_epoch origin ∧ rn_inventory node = rn_inventory origin)
    as (origin & (Ho & Hoid & Hin) & Hnid & Hepoch & Hinv).
  { apply with_transport_shards_ok in Hnode as (origin & [->|Ho]%elem_of_cons & Heqs).
    - exists primary. split; [|done]. destruct Hprimary as (H1 & H2 & H3). by split_and!; [..|apply Hsub].
    - apply list_elem_of_lookup in Ho as [i Ho].
      apply (Forall2_lookup_r _ _ _ _ _ Hrs) in Ho as (x & [-> _]%lookup_replicate & Ho). by exists origin. }
  apply rwp_map_err. eapply wp_mono; [apply rwp_and; [apply drivers_ok|apply rwp_grows]|].
  intros r w3 [Hg Hsub3] ds ->. destruct (Hg ds eq_refl) as [Hids Hds]. exists (rn_inventory node).
  rewrite Hinv in *. split; [by apply Hsub3|]. split; [by rewrite (ok_inventory_id _ Ho)|].
  split; [apply Ho|]. split.
  - rewrite Hids, <- Hoid, Hnid. unfold keys. by rewrite Hinv, <- list_fmap_compose.
  - intros d Hd. destruct (Hds d Hd) as (key & _ & He & -> & -> & Hdesc).
    split; [done|]. split; [done|]. split; [by rewrite He, Hepoch, (ok_inventory_epoch _ Ho)|].
    rewrite <- Hinv. by eapply descriptor_in.
Qed.

(** *** All peers *)

#[local] Instance driver_le_total : Total driver_le.
Proof. intros a b. unfold driver_le, string_le. apply String.leb_total. Qed.

(** The names of the devices of a peer's inventory *)
Definition names (peer : ConfiguredPeer) (i : InventorySnapshot) : list DeviceId :=
  (λ device, namespaced_id (cp_node_id peer) (rd_device_key device)) <$> iv_devices i.

Lemma names_nodup peer i :
  no_colon (cp_node_id peer) = true → inventory_validate i = Ok () → NoDup (names peer i).
Proof.
  intros Hid Hi. unfold inventory_validate in Hi. inv_result. unfold names.
  rewrite (list_fmap_compose rd_device_key (namespaced_id (cp_node_id peer))).
  apply NoDup_fmap_2_strong; [|by eapply validate_devices_keys].
  intros k k' _ _ [_ Heq]%namespaced_id_inj; done.
Qed.

Lemma elem_of_names id peers inventories :
  id ∈ concat (zip_with names peers inventories) →
  ∃ peer key, peer ∈ peers ∧ id = namespaced_id (cp_node_id peer) key.
Proof.
  revert inventories. induction peers as [|peer peers IH]; intros [|i js]; cbn; try (by intros ?%elem_of_nil).
  intros [(d & -> & _)%list_elem_of_fmap_1|(p & key & Hp & ->)%IH]%elem_of_app.
  - exists peer, (rd_device_key d). split; [by left|done].
  - exists p, key. split; [by right|done].
Qed.

Lemma names_unique peers inventories :
  NoDup (cp_node_id <$> peers) → Forall (λ p, valid_identifier (cp_node_id p) 64 = true) peers →
  Forall2 (λ _ i, inventory_validate i = Ok ()) peers inventories →
  NoDup (concat (zip_with names peers inventories)).
Proof.
  intros Hnd Hvalid H2. induction H2 as [|peer i peers js Hi H2 IH]; [constructor|].
  inversion Hnd as [|?? Hnew Hnd']; inversion Hvalid as [|?? Hid Hvalid']; subst. cbn.
  apply NoDup_app. split; [by apply names_nodup; [eapply identifier_no_colon|]|].
  split; [|by apply IH]. intros id (d & -> & _)%list_elem_of_fmap_1 (p & key & Hp & Heq)%elem_of_names.
  apply namespaced_id_inj in Heq as [Heq _]; [|by eapply identifier_no_colon|].
  - apply Hnew. rewrite Heq. by apply list_elem_of_fmap_2.
  - rewrite Forall_forall in Hvalid'. by eapply identifier_no_colon, Hvalid'.
Qed.

(** The Drivers of all peers, put together *)
Lemma concat_drivers peers dss w :
  Forall2 (λ peer ds, drivers_of peer ds w) peers dss →
  ∃ inventories,
    Forall2 (λ peer i, i ∈ w ∧ iv_node_id i = cp_node_id peer ∧ inventory_validate i = Ok ())
      peers inventories ∧
    (self_id <$> concat dss) ≡ₚ concat (zip_with names peers inventories) ∧
    ∀ d, d ∈ concat dss → ∃ peer i, peer ∈ peers ∧ i ∈ inventories ∧
      dr_owner_id d = cp_owner_id peer ∧ dr_config d = cp_driver peer ∧
      dr_node_epoch d = iv_epoch i ∧ dr_descriptor d ∈ iv_devices i.
Proof.
  induction 1 as [|peer ds peers dss (i & Hi & Hid & Hv & Hids & Hds) _ (js & H2 & Hperm & Hall)].
  { exists []. split; [constructor|]. split; [done|]. intros d Hd. by apply elem_of_nil in Hd. }
  exists (i :: js). split; [by constructor|]. split.
  { cbn. rewrite fmap_app, Hids. by apply Permutation_app. }
  cbn. intros d [Hd|Hd]%elem_of_app.
  - exists peer, i. split; [by left|]. split; [by left|]. by apply Hds.
  - destruct (Hall d Hd) as (p & j & Hp & Hj & Hrest). exists p, j. split; [by right|]. by split; [right|].
Qed.

(** Connecting gives every device of every configured peer one Driver.
    When the connection to the configured peers, which have distinct node ids,
    succeeds, then its Drivers are those of one valid inventory of each peer,
    and of no other device: sorted by id, no id twice, each with the owner and
    the configuration of its peer, and the epoch and the descriptor of the
    inventory.  A peer that is missing makes the whole connection fail. *)
Theorem every_peer_device_has_one_driver peers ds w' :
  NoDup (cp_node_id <$> peers) → Forall (λ p, valid_identifier (cp_node_id p) 64 = true) peers →
  runs peer_step none (connect_configured_peers peers) [] (Ok ds) w' →
  Sorted driver_le ds ∧ NoDup (self_id <$> ds) ∧
  ∃ inventories,
    Forall2 (λ peer i, i ∈ w' ∧ iv_node_id i = cp_node_id peer ∧ inventory_validate i = Ok ())
      peers inventories ∧
    (self_id <$> ds) ≡ₚ concat (zip_with names peers inventories) ∧
    ∀ d, d ∈ ds → ∃ peer i, peer ∈ peers ∧ i ∈ inventories ∧
      dr_owner_id d = cp_owner_id peer ∧ dr_config d = cp_driver peer ∧
      dr_node_epoch d = iv_epoch i ∧ dr_descriptor d ∈ iv_devices i.
Proof.
  intros Hnd Hvalid Hruns.
  assert (rwp (connect_configured_peers peers) (gives (λ ds w, Sorted driver_le ds ∧
    ∃ dss, Forall2 (λ peer ds, drivers_of peer ds w) peers dss ∧ ds ≡ₚ concat dss)) []) as Hwp.
  { unfold NodeRouter.connect_configured_peers. apply wp_bind. eapply wp_mono.
    { apply (rwp_join_all _ drivers_of).
      - intros peer l w1 w2 Hsub (i & Hi & Hrest). exists i. by split; [apply Hsub|].
      - intros peer w1 Hp. rewrite Forall_forall in Hvalid. by apply discover_configured_peer_ok, Hvalid. }
    cbn. intros rs w1 Hrs l Hl. inv_result. split; [apply Sorted_merge_sort; apply _|].
    eexists. split; [by apply Hrs|apply merge_sort_Permutation]. }
  destruct (wp_sound _ _ _ _ _ _ _ Hwp Hruns ds eq_refl) as (Hsorted & dss & H2 & Hperm).
  destruct (concat_drivers _ _ _ H2) as (inventories & Hi & Hids & Hall). split; [done|].
  rewrite <- Hperm in Hids. split.
  - rewrite Hids. apply names_unique; [done..|]. eapply Forall2_impl; [exact Hi|]. by intros ?? (_ & _ & ?).
  - exists inventories. split; [done|]. split; [done|]. intros d. rewrite Hperm. apply Hall.
Qed.
End Connect.

(** ** Retries *)

(** Time passes; a sleep that is not cancelled takes as long as it says. *)
Definition time_step (R : Type) (e : RO R) (w : N) (r : R) (w' : N) : Prop :=
  w ≤ w' ∧
  match e in RO R return R → Prop with
  | RouterInstant => λ now, now = w'
  | SleepRace duration => λ cancelled, cancelled = false → w + duration ≤ w'
  | _ => λ _, True
  end r.
Definition passes (w w' : N) : Prop := w ≤ w'.

Lemma passes_rtc w w' : rtc passes w w' → w ≤ w'.
Proof. induction 1; [lia|]. unfold passes in *. lia. Qed.

Lemma connect_attempt fuel endpoint deadline e w :
  (∀ now w', w ≤ now → now < deadline → now + N.min CONNECT_RETRY_BACKOFF (deadline - now) ≤ w' →
     wp time_step passes (connect_loop fuel endpoint deadline e) (λ r _, r ≠ None) w') →
  wp time_step passes (connect_loop (S fuel) endpoint deadline e) (λ r _, r ≠ None) w.
Proof.
  intros Hnext w1 connected w2 Hw1%passes_rtc [Hw2 _].
  destruct connected as [[stream|]| |]; [done| |done..].
  intros w3 now w4 Hw3%passes_rtc [Hw4 Hnow]. cbn in Hnow. subst now. cbn -[connect_loop N.min].
  destruct (N.eqb_spec (deadline - w4) 0) as [Hz|Hz]; [done|].
  intros w5 cancelled w6 Hw5%passes_rtc [Hw6 Hslept]. cbn in Hslept. destruct cancelled; [done|].
  specialize (Hslept eq_refl). apply (Hnext w4); lia.
Qed.

(** One attempt more than the backoffs that fit before the deadline is enough. *)
Lemma connect_loop_ends n endpoint deadline e w :
  deadline - w ≤ N.of_nat n * CONNECT_RETRY_BACKOFF →
  wp time_step passes (connect_loop (S n) endpoint deadline e) (λ r _, r ≠ None) w.
Proof.
  assert (0 < CONNECT_RETRY_BACKOFF) as Hb by (vm_compute; done).
  revert w. induction n as [|n IH]; intros w Hn; apply connect_attempt; intros now w' Hw Hlt Hw'; [lia|].
  apply IH. rewrite Nat2N.inj_succ in Hn. lia.
Qed.

(** The retries of a connection end.  Within 401 attempts, 25 ms apart, the
    connection to a peer has either succeeded, or was refused until the ten
    seconds or the time of the control were over, or was cancelled; with a
    clock that does not go back and sleeps that are not cut short. *)
Theorem connect_retries_end endpoint w r w' :
  runs time_step passes (connect_loopback_with_retry MAX_CONNECT_ATTEMPTS endpoint CONNECT_TIMEOUT) w r w' →
  r ≠ None.
Proof.
  apply (wp_sound _ _ _ (λ r _, r ≠ None)). unfold connect_loopback_with_retry.
  intros w1 p w2 _ _. cbn -[connect_loop MAX_CONNECT_ATTEMPTS]. destruct (control_check p); [|done].
  intros w3 remaining w4 _ _ w5 now w6 _ [_ Hnow]. cbn in Hnow. subst now.
  apply connect_loop_ends. unfold CONNECT_TIMEOUT, CONNECT_RETRY_BACKOFF, from_millis.
  destruct remaining; lia.
Qed.

(** ** A router at work *)

Module RouterExamples.

Definition phone (key name : string) : RemoteDeviceDescriptor :=
  mkRemoteDeviceDescriptor key name Platform_Android None.
Definition stock (node : NodeId) : InventorySnapshot :=
  mkInventorySnapshot node 3 1 1000
    (if String.eqb node "node-a" then [phone "d-1" "Pixel 8"]
     else [phone "d-2" "Pixel 9"; phone "d-1" "Pixel 7"]).
Definition tap : ActionDefinition :=
  mkActionDefinition "tap" "taps" (JObject [("type"%string, JString "object")]) Standard.

Definition answer (r : PeerRequest) : PeerResponse :=
  response_success r 3
    (match pr_operation r with
     | PO_Hello => PR_Hello (pr_node_id r) 3 1024 (mkPeerProtocolCapabilities true true)
     | PO_Inventory => PR_Inventory (stock (pr_node_id r))
     | PO_Health => PR_Health Healthy 1000
     | _ => PR_Ack
     end).

(** Peers that answer, and a clock that stands still *)
Definition demo (R : Type) (e : RO R) : R :=
  match e in RO R return R with
  | RouterRequest _ r => Ok (answer r)
  | RouterExchange _ _ => Ok (PR_Capabilities [tap])
  | RouterIds => (7, 8)
  | RouterInstant => 0
  | RouterPulse => mkPulse false false
  | RouterRemaining => None
  | ConnectRace endpoint _ => WaitDone (Some endpoint)
  | SleepRace _ => false
  | SetNodelay _ => true
  end.
Definition handler (R : Type) (e : RO R) (w : list InventorySnapshot) : option (R * list InventorySnapshot) :=
  Some (demo R e, w ++ sent R e (demo R e)).

Lemma handler_honest R (e : RO R) w r w' : handler R e w = Some (r, w') → peer_step R e w r w'.
Proof. by intros [= <- <-]. Qed.

(** Two peers, three devices *)
Definition peer (node : NodeId) (endpoint : N) : ConfiguredPeer :=
  mkConfiguredPeer node endpoint "tunnel" "tunnel" (mkRemoteDriverConfig 30000 5000).
Definition peers : list ConfiguredPeer := [peer "node-b" 9002; peer "node-a" 9001].

Definition connected : option (result ConnectorError (list RemoteDeviceDriver) * list InventorySnapshot) :=
  exec handler (connect_configured_peers (λ _, Some 20) (λ _, true) (λ _, None) peers) [].

Definition remote (node : NodeId) (device : RemoteDeviceDescriptor) : RemoteDeviceDriver :=
  mkRemoteDeviceDriver node 3 device "tunnel" (mkRemoteDriverConfig 30000 5000) [tap].

Lemma every_peer_device_has_one_driver_witness :
  NoDup (self_id <$> [remote "node-a" (phone "d-1" "Pixel 8"); remote "node-b" (phone "d-1" "Pixel 7");
    remote "node-b" (phone "d-2" "Pixel 9")]).
Proof.
  assert (connected = Some (Ok [remote "node-a" (phone "d-1" "Pixel 8");
    remote "node-b" (phone "d-1" "Pixel 7"); remote "node-b" (phone "d-2" "Pixel 9")],
    [stock "node-b"; stock "node-b"; stock "node-a"])) as Hrun by (vm_compute; reflexivity).
  apply (exec_runs peer_step none handler) in Hrun; [|exact handler_honest].
  apply (every_peer_device_has_one_driver (λ _, Some 20) (λ _, true) (λ _, None) peers) in Hrun.
  - apply Hrun.
  - by apply (bool_decide_unpack _); vm_compute.
  - by repeat constructor.
Defined.

(** A node, found over one transport and put into an empty router *)
Definition config : RouterConfig := mkRouterConfig 2 30000 10000.
Definition tunnel : PeerSecurity := mkPeerSecurity ExternalSshOrMtlsTunnel "tunnel".
Definition link : Link := Ndjson 1 "node-b" tunnel.
Definition node : RemoteNode :=
  mkRemoteNode "node-b" 3 (stock "node-b") 0 Healthy 0 (mkPeerProtocolCapabilities true true) link.
Definition router1 : RouterState := snd (upsert config 0 0 node router0).

Lemma node_found : found node.
Proof.
  apply (found_discover link [] node [stock "node-b"]); [reflexivity|].
  apply (exec_runs peer_step none handler); [exact handler_honest|]. vm_compute. reflexivity.
Qed.

Lemma routes_follow_inventories_witness :
  rs_routes router1 !! "remote:node-b:d-2"%string = Some (mkRouteEntry node "d-2").
Proof.
  assert (rtc (router_step config) router0 router1) as Hreach.
  { apply rtc_once, (router_upserts config 0 0 node router0 (Ok ())); [exact node_found|].
    vm_compute. reflexivity. }
  destruct (routes_follow_inventories config router1 Hreach) as [Hroutes _]. apply Hroutes.
  exists node, (phone "d-2" "Pixel 9"). split; [vm_compute; reflexivity|]. split; [by left|done].
Defined.

(** A peer that is ready at the second attempt *)
Definition late (R : Type) (e : RO R) (w : N) : option (R * N) :=
  match e in RO R return option (R * N) with
  | ConnectRace endpoint _ => Some (WaitDone (if w <? 25000000 then None else Some endpoint), w)
  | RouterInstant => Some (w, w)
  | SleepRace duration => Some (false, w + duration)
  | RouterPulse => Some (mkPulse false false, w)
  | RouterRemaining => Some (None, w)
  | _ => None
  end.

Lemma connect_retries_end_witness : (Some (Ok 9001) : option (result ConnectorError N)) ≠ None.
Proof.
  apply (connect_retries_end 9001 0 _ 25000000). apply (exec_runs _ _ late).
  - intros R e w r w'. unfold time_step. destruct e; cbn; intros [= <- <-]; split; try done; lia.
  - vm_compute. reflexivity.
Defined.
End RouterExamples.
