(* ===== verification/PeerServer.v ===== *)
(** * Serving a peer's stream

    [crates/distributed-router/src/server.rs]: one authenticated stream of
    request frames, the tasks that handle them concurrently, and the bounded
    queue of the writer.

    The server is a machine driven by what its [select] and its tasks see: the
    bytes that the reader gets, the end of a task, the main loop joining it,
    the writer. A frame that is being read is in the future of [read_frame],
    and is lost with it when another branch of the [select] wins. What
    [RegistryPeerService::handle] answers (PeerService.v), the codec and the
    schema are parameters. *)

From S2P Require Import Prelude Protocol PeerLease PeerModel PeerTransport.

Local Open Scope N_scope.

Definition MAX_IN_FLIGHT_PEER_REQUESTS : N := 64.

Inductive PeerServerError :=
| PSE_Security
| PSE_Protocol
| PSE_UnsupportedVersion
| PSE_TimedOut
| PSE_Io
| PSE_Task
| PSE_Cleanup.

(** ** Frames *)

(** What [read_frame] makes of the bytes it has read *)
Definition finish_frame (bytes : list N) : result PeerServerError (list N) :=
  check! reject_if ((MAX_PEER_FRAME_BYTES <? len bytes) || negb (bool_decide (last bytes = Some 10)))
    PSE_Protocol;
  let bytes := removelast bytes in
  check! reject_if ((len bytes =? 0) || bool_decide (last bytes = Some 13)) PSE_Protocol;
  Ok bytes.

(** [read_frame], one byte at a time: after the first byte it takes at most
    [MAX_PEER_FRAME_BYTES] more, up to a newline *)
Inductive Progress :=
| Pending (partial : list N)
| Complete (frame : result PeerServerError (list N)).

Definition read_byte (partial : list N) (b : N) : Progress :=
  let bytes := partial ++ [b] in
  if (b =? 10) || (len bytes =? MAX_PEER_FRAME_BYTES + 1) then Complete (finish_frame bytes)
  else Pending bytes.

(** The end of the stream, before or inside a frame *)
Definition read_eof (partial : list N) : option (result PeerServerError (list N)) :=
  match partial with [] => None | _ => Some (finish_frame partial) end.

Section Server.
Context (node_id : NodeId) (epoch : N).
Context (decode_request : list N → option PeerRequest).
Context (encode_json : PeerResponse → option (list N)).
Context (schema_accepts : list N → bool) (wire_version : list N → option N).

(** [encode_response] *)
Definition encode_response (r : PeerRequest) (response : PeerResponse)
    : result PeerServerError (list N) :=
  bytes ← ok_or (encode_json response) PSE_Protocol;
  bytes ← (if MAX_PEER_FRAME_BYTES <=? len bytes then
             let outcome_unknown := match pr_operation r with PO_Execute _ _ _ _ _ => true | _ => false end in
             ok_or (encode_json (response_failure r epoch
               (mkPeerError "peer_response_too_large" false outcome_unknown))) PSE_Protocol
           else Ok bytes);
  check! reject_if ((len bytes =? 0) || (MAX_PEER_FRAME_BYTES <=? len bytes)) PSE_Protocol;
  check! reject_if (negb (schema_accepts bytes)) PSE_Protocol;
  Ok (bytes ++ [10]).

(** [service_failure] *)
Definition service_failure (r : PeerRequest) : PeerResponse :=
  response_failure r epoch (mkPeerError "peer_service_error" false false).

(** The checks of the loop on a line: a request for this node *)
Definition accept_line (line : list N) : result PeerServerError PeerRequest :=
  check! reject_if (negb (schema_accepts line))
    (if is_some_and (λ version, negb (version =? DISTRIBUTED_PROTOCOL_VERSION)) (wire_version line)
     then PSE_UnsupportedVersion else PSE_Protocol);
  r ← ok_or (decode_request line) PSE_Protocol;
  check! reject_if (is_err (request_validate r) || negb (String.eqb (pr_node_id r) node_id)) PSE_Protocol;
  Ok r.

(** ** State *)

(** The loop is running, has ended with an error or without, or was left by a
    [?] that skips all that follows it. *)
Inductive Phase :=
| Serving
| Ended (error : option PeerServerError)
| Left (error : PeerServerError).

Record Server := mkServer {
  (** the frame that is being read *)
  sv_partial : list N;
  (** the tasks that have not answered; those that have, with the request id
      they still have to remove, and with their permit; and for those that
      ended and are not joined whether they panicked *)
  sv_tasks : list PeerRequest;
  sv_ending : list (option Uuid);
  sv_unjoined : list bool;
  sv_admitted : gset Uuid;
  (** the channel of the writer, and whether the writer still reads it *)
  sv_queue : list (list N);
  sv_writing : bool;
  sv_failed : bool;
  sv_phase : Phase;
}.

Definition server0 : Server := mkServer [] [] [] [] ∅ [] true false Serving.

(** What a step does for a request *)
Inductive ServerEvent :=
| Received (r : PeerRequest)
| Answered (r : PeerRequest) (frame : list N).

Definition set_partial (partial : list N) (st : Server) : Server :=
  mkServer partial (sv_tasks st) (sv_ending st) (sv_unjoined st) (sv_admitted st) (sv_queue st) (sv_writing st)
    (sv_failed st) (sv_phase st).
Definition set_phase (phase : Phase) (st : Server) : Server :=
  mkServer [] (sv_tasks st) (sv_ending st) (sv_unjoined st) (sv_admitted st) (sv_queue st) (sv_writing st)
    (sv_failed st) phase.

(** [try_send] of the response channel *)
Definition try_send (frame : list N) (st : Server) : option Server :=
  if sv_writing st && (len (sv_queue st) <? MAX_IN_FLIGHT_PEER_REQUESTS) then
    Some (mkServer (sv_partial st) (sv_tasks st) (sv_ending st) (sv_unjoined st) (sv_admitted st)
      (sv_queue st ++ [frame]) (sv_writing st) (sv_failed st) (sv_phase st))
  else None.

(** An answer that the loop itself gives *)
Definition answer (r : PeerRequest) (response : PeerResponse) (st : Server) : Server * list ServerEvent :=
  match encode_response r response with
  | Err e => (set_phase (Left e) st, [Received r])
  | Ok frame =>
      match try_send frame st with
      | Some st => (st, [Received r; Answered r frame])
      | None => (set_phase (Ended (Some PSE_Io)) st, [Received r])
      end
  end.

(** The loop on a line; [handled] is what the service answers to a cancel *)
Definition on_line (line : list N) (handled : option PeerResponse) (st : Server)
    : Server * list ServerEvent :=
  match accept_line line with
  | Err e => (set_phase (Ended (Some e)) st, [])
  | Ok r =>
      match pr_operation r with
      | PO_Cancel _ _ => answer r (default (service_failure r) handled) st
      | _ =>
          if len (sv_tasks st) + len (sv_ending st) =? MAX_IN_FLIGHT_PEER_REQUESTS then
            answer r (response_failure r epoch (mkPeerError "too_many_peer_requests" true false)) st
          else if bool_decide (pr_request_id r ∈ sv_admitted st) then
            answer r (response_failure r epoch (mkPeerError "duplicate_request_id" false false)) st
          else
            (mkServer (sv_partial st) (sv_tasks st ++ [r]) (sv_ending st) (sv_unjoined st)
               ({[pr_request_id r]} ∪ sv_admitted st) (sv_queue st) (sv_writing st) (sv_failed st)
               (sv_phase st), [Received r])
      end
  end.

(** ** Steps *)

(** A task on the answer of the service: the response is queued, or the
    connection fails *)
Definition task_answers (r : PeerRequest) (rest : list PeerRequest) (handled : option PeerResponse)
    (st : Server) : Server * list ServerEvent :=
  let delivered :=
    match encode_response r (default (service_failure r) handled) with
    | Ok frame => (λ st, (st, frame)) <$> try_send frame st
    | Err _ => None
    end in
  let sent st failed :=
    mkServer (sv_partial st) rest (sv_ending st ++ [Some (pr_request_id r)]) (sv_unjoined st)
      (sv_admitted st) (sv_queue st) (sv_writing st) failed (sv_phase st) in
  match delivered with
  | Some (st, frame) => (sent st (sv_failed st), [Answered r frame])
  | None => (sent st true, [])
  end.

(** The rest of a task that has answered: it removes its request id, then it
    ends and gives its permit back. *)
Definition task_goes_on (n : nat) (st : Server) : Server :=
  match sv_ending st !! n with
  | Some (Some id) =>
      mkServer (sv_partial st) (sv_tasks st) (<[n := None]> (sv_ending st)) (sv_unjoined st)
        (sv_admitted st ∖ {[id]}) (sv_queue st) (sv_writing st) (sv_failed st) (sv_phase st)
  | Some None =>
      mkServer (sv_partial st) (sv_tasks st) (delete n (sv_ending st)) (sv_unjoined st ++ [false])
        (sv_admitted st) (sv_queue st) (sv_writing st) (sv_failed st) (sv_phase st)
  | None => st
  end.

Inductive Input :=
(** [read_frame] gets a byte, the end of the stream, an error, or is too late;
    [handled] is the answer of the service to a cancel *)
| Byte (b : N) (handled : option PeerResponse)
| EndOfStream
| ReadFailed
| FrameTimedOut
(** a task answers, goes on after it, or panics, and the loop joins it *)
| TaskAnswers (task : nat) (handled : option PeerResponse)
| TaskGoesOn (ending : nat)
| TaskPanics (task : nat)
| TaskJoined (unjoined : nat)
(** the writer takes a frame, or fails, which the loop sees *)
| WriterTakes
| WriterFails
| FailureSeen
| Shutdown.

(** What the loop does, while it runs *)
Definition loop_step (i : Input) (st : Server) : Server * list ServerEvent :=
  match i with
  | Byte b handled =>
      match read_byte (sv_partial st) b with
      | Pending partial => (set_partial partial st, [])
      | Complete (Ok line) => on_line line handled (set_partial [] st)
      | Complete (Err e) => (set_phase (Ended (Some e)) st, [])
      end
  | EndOfStream =>
      match read_eof (sv_partial st) with
      | None => (set_phase (Ended None) st, [])
      | Some (Ok line) => on_line line None (set_partial [] st)
      | Some (Err e) => (set_phase (Ended (Some e)) st, [])
      end
  | ReadFailed => (set_phase (Ended (Some PSE_Io)) st, [])
  | FrameTimedOut =>
      match sv_partial st with
      | [] => (st, [])
      | _ => (set_phase (Ended (Some PSE_TimedOut)) st, [])
      end
  | TaskJoined n =>
      match sv_unjoined st !! n with
      | None => (st, [])
      | Some true => (set_phase (Ended (Some PSE_Task)) st, [])
      | Some false =>
          (mkServer [] (sv_tasks st) (sv_ending st) (delete n (sv_unjoined st)) (sv_admitted st) (sv_queue st)
             (sv_writing st) (sv_failed st) (sv_phase st), [])
      end
  | FailureSeen => if sv_failed st then (set_phase (Ended (Some PSE_Io)) st, []) else (st, [])
  | Shutdown => (set_phase (Ended None) st, [])
  | _ => (st, [])
  end.

(** What the tasks and the writer do *)
Definition task_step (i : Input) (st : Server) : Server * list ServerEvent :=
  match i with
  | TaskAnswers n handled =>
      match sv_tasks st !! n with
      | Some r => task_answers r (delete n (sv_tasks st)) handled st
      | None => (st, [])
      end
  | TaskGoesOn n => (task_goes_on n st, [])
  | TaskPanics n =>
      if is_some (sv_tasks st !! n) then
        (mkServer (sv_partial st) (delete n (sv_tasks st)) (sv_ending st) (sv_unjoined st ++ [true]) (sv_admitted st)
           (sv_queue st) (sv_writing st) (sv_failed st) (sv_phase st), [])
      else (st, [])
  | WriterTakes =>
      (mkServer (sv_partial st) (sv_tasks st) (sv_ending st) (sv_unjoined st) (sv_admitted st) (tail (sv_queue st))
         (sv_writing st) (sv_failed st) (sv_phase st), [])
  | WriterFails =>
      (mkServer (sv_partial st) (sv_tasks st) (sv_ending st) (sv_unjoined st) (sv_admitted st) (sv_queue st)
         false true (sv_phase st), [])
  | _ => (st, [])
  end.

(** The tasks of a loop that was left are aborted. *)
Definition server_step (i : Input) (st : Server) : Server * list ServerEvent :=
  match i with
  | TaskAnswers _ _ | TaskGoesOn _ | TaskPanics _ | WriterTakes | WriterFails =>
      match sv_phase st with Left _ => (st, []) | _ => task_step i st end
  | _ => match sv_phase st with Serving => loop_step i st | _ => (st, []) end
  end.

(** ** The end of a stream *)

(** The writer's result: its own, a panic, or none in time *)
Inductive WriterOutcome := WriterDone (ok : bool) | WriterPanicked | WriterStuck.

(** The result after the loop: [error] of the loop, whether the tasks ended in
    time and whether one of them panicked, and whether the cleanup of the
    connection succeeded in time *)
Definition close_result (error : option PeerServerError) (drained panicked cleaned : bool)
    (writer : WriterOutcome) : result PeerServerError () :=
  let or_insert e error := match error with Some first => Some first | None => Some e end in
  let error := if drained then error else or_insert PSE_Io error in
  let error := if panicked then or_insert PSE_Task error else error in
  match writer with
  | WriterPanicked => Err PSE_Io
  | WriterDone _ | WriterStuck =>
      match error with
      | Some e => Err e
      | None =>
          if negb cleaned then Err PSE_Cleanup
          else match writer with WriterDone true => Ok () | _ => Err PSE_Io end
      end
  end.
End Server.
