(* ===== verification/PeerServerProps.v ===== *)
(** * Guarantees of the server of a stream

    Every request is answered once, its tasks and its queue are bounded, and
    no two tasks have the same request id; a frame that arrives while no task
    is joined is read as it was sent. *)

From S2P Require Import Prelude Protocol PeerLease PeerModel PeerTransport PeerServer.

Local Open Scope N_scope.

Section Server.
Context (node_id : NodeId) (epoch : N).
Context (decode_request : list N → option PeerRequest).
Context (encode_json : PeerResponse → option (list N)).
Context (schema_accepts : list N → bool) (wire_version : list N → option N).

#[local] Abbreviation server_step :=
  (server_step node_id epoch decode_request encode_json schema_accepts wire_version).
#[local] Abbreviation loop_step :=
  (loop_step node_id epoch decode_request encode_json schema_accepts wire_version).
#[local] Abbreviation task_step := (task_step epoch encode_json schema_accepts).
#[local] Abbreviation on_line :=
  (on_line node_id epoch decode_request encode_json schema_accepts wire_version).
#[local] Abbreviation answer := (answer epoch encode_json schema_accepts).

Definition received (e : ServerEvent) : option PeerRequest :=
  match e with Received r => Some r | Answered _ _ => None end.
Definition answered (e : ServerEvent) : option PeerRequest :=
  match e with Received _ => None | Answered r _ => Some r end.

(** A stream and what has happened on it *)
Inductive served : Server → list ServerEvent → Prop :=
| served_start : served server0 []
| served_step st events i st' new :
    served st events → server_step i st = (st', new) → served st' (events ++ new).

(** While nothing has gone wrong every request is answered or in a task. *)
Definition undisturbed (st : Server) : Prop :=
  sv_phase st = Serving ∧ sv_failed st = false ∧ true ∉ sv_unjoined st.

(** The request ids of the tasks that have not removed theirs *)
Definition task_ids (st : Server) : list Uuid :=
  (pr_request_id <$> sv_tasks st) ++ omap id (sv_ending st).

Record server_ok (st : Server) (events : list ServerEvent) : Prop := mkServerOk {
  so_tasks : len (sv_tasks st) + len (sv_ending st) ≤ MAX_IN_FLIGHT_PEER_REQUESTS;
  so_queue : len (sv_queue st) ≤ MAX_IN_FLIGHT_PEER_REQUESTS;
  so_ids : NoDup (task_ids st);
  so_admitted id : id ∈ task_ids st → id ∈ sv_admitted st;
  so_account : ∃ lost, omap received events ≡ₚ omap answered events ++ sv_tasks st ++ lost ∧
    (undisturbed st → lost = []);
}.

(** A step that leaves the tasks and the queue as they are *)
Lemma ok_same st st' events :
  sv_tasks st' = sv_tasks st → sv_ending st' = sv_ending st → sv_queue st' = sv_queue st →
  sv_admitted st' = sv_admitted st →
  (undisturbed st' → undisturbed st) → server_ok st events → server_ok st' (events ++ []).
Proof.
  intros Ht He Hq Ha Hu [H1 H2 H3 H4 (lost & H5 & H6)]. rewrite app_nil_r.
  constructor; unfold task_ids in *; rewrite ?Ht, ?He, ?Hq, ?Ha; try done. exists lost. auto.
Qed.

(** A request that the loop answers, or the end of the stream *)
Lemma ok_answer r response st events st' new :
  server_ok st events → answer r response st = (st', new) → server_ok st' (events ++ new).
Proof.
  intros [H1 H2 H3 H4 (lost & H5 & H6)]. unfold PeerServer.answer, try_send.
  destruct (encode_response _ _ _ _ _) as [frame|e];
    [destruct (sv_writing st && _) eqn:Hsend|]; intros [= <- <-].
  - apply andb_true_iff in Hsend as [_ Hlen]. apply N.ltb_lt in Hlen.
    constructor; cbn; try done; [rewrite len_snoc; lia|].
    exists lost. rewrite !omap_app. cbn. rewrite H5. split; [|done]. solve_Permutation.
  - constructor; cbn; try done. exists (r :: lost). rewrite !omap_app. cbn. rewrite app_nil_r, H5.
    split; [solve_Permutation|]. by intros [].
  - constructor; cbn; try done. exists (r :: lost). rewrite !omap_app. cbn. rewrite app_nil_r, H5.
    split; [solve_Permutation|]. by intros [].
Qed.

(** A request that goes to a task *)
Lemma ok_spawn r st events :
  server_ok st events → len (sv_tasks st) + len (sv_ending st) ≠ MAX_IN_FLIGHT_PEER_REQUESTS →
  pr_request_id r ∉ sv_admitted st →
  server_ok (mkServer (sv_partial st) (sv_tasks st ++ [r]) (sv_ending st) (sv_unjoined st)
    ({[pr_request_id r]} ∪ sv_admitted st) (sv_queue st) (sv_writing st) (sv_failed st) (sv_phase st))
    (events ++ [Received r]).
Proof.
  intros [H1 H2 H3 H4 (lost & H5 & H6)] Hfull Hnew.
  assert (task_ids (mkServer (sv_partial st) (sv_tasks st ++ [r]) (sv_ending st) (sv_unjoined st)
    ({[pr_request_id r]} ∪ sv_admitted st) (sv_queue st) (sv_writing st) (sv_failed st) (sv_phase st))
    ≡ₚ pr_request_id r :: task_ids st) as Hids.
  { unfold task_ids. cbn. rewrite fmap_app. cbn. solve_Permutation. }
  constructor; cbn [sv_tasks sv_ending sv_queue sv_admitted]; try done.
  - rewrite len_snoc. lia.
  - rewrite Hids. constructor; [|done]. intros Hin. by apply Hnew, H4.
  - intros id. rewrite Hids, elem_of_cons. intros [->|Hid%H4]; set_solver.
  - exists lost. rewrite !omap_app. cbn. rewrite app_nil_r, H5. split; [solve_Permutation|done].
Qed.

Lemma ok_on_line line handled st events st' new :
  server_ok st events → on_line line handled st = (st', new) → server_ok st' (events ++ new).
Proof.
  intros Hst. unfold PeerServer.on_line. destruct (accept_line _ _ _ _ _) as [r|e].
  2: { intros [= <- <-]. eapply ok_same; [..|exact Hst]; try done. by intros []. }
  destruct (pr_operation r); try (by apply ok_answer).
  all: destruct (N.eqb_spec (len (sv_tasks st) + len (sv_ending st)) MAX_IN_FLIGHT_PEER_REQUESTS); [by apply ok_answer|].
  all: case_bool_decide; [by apply ok_answer|]; intros [= <- <-]; by apply ok_spawn.
Qed.

(** The end of the loop *)
Lemma ok_stop phase st events : phase ≠ Serving → server_ok st events → server_ok (set_phase phase st) (events ++ []).
Proof. intros Hp. apply ok_same; try done. by intros []. Qed.

Lemma ok_partial partial st events : server_ok st events → server_ok (set_partial partial st) events.
Proof. intros Hst. rewrite <- (app_nil_r events). by eapply ok_same; [..|exact Hst]. Qed.

Lemma ok_loop i st events st' new :
  server_ok st events → loop_step i st = (st', new) → server_ok st' (events ++ new).
Proof.
  intros Hst. destruct i; cbn.
  - destruct (read_byte _ _) as [partial|[line|e]].
    + intros [= <- <-]. rewrite app_nil_r. by apply ok_partial.
    + by apply ok_on_line, ok_partial.
    + intros [= <- <-]. by apply ok_stop.
  - destruct (read_eof _) as [[line|e]|].
    + by apply ok_on_line, ok_partial.
    + intros [= <- <-]. by apply ok_stop.
    + intros [= <- <-]. by apply ok_stop.
  - intros [= <- <-]. by apply ok_stop.
  - destruct (sv_partial st); intros [= <- <-]; [by rewrite app_nil_r|by apply ok_stop].
  - intros [= <- <-]. by rewrite app_nil_r.
  - intros [= <- <-]. by rewrite app_nil_r.
  - intros [= <- <-]. by rewrite app_nil_r.
  - destruct (sv_unjoined st !! _) as [[]|] eqn:Hn; intros [= <- <-]; [by apply ok_stop| |by rewrite app_nil_r].
    eapply ok_same; [..|exact Hst]; try done. intros (Hp & Hf & Hu). split; [done|]. split; [done|].
    intros Hin. apply Hu. cbn. rewrite (delete_Permutation _ _ _ Hn), elem_of_cons in Hin.
    by destruct Hin.
  - intros [= <- <-]. by rewrite app_nil_r.
  - intros [= <- <-]. by rewrite app_nil_r.
  - destruct (sv_failed st); intros [= <- <-]; [by apply ok_stop|by rewrite app_nil_r].
  - intros [= <- <-]. by apply ok_stop.
Qed.

(** A task that has answered *)
Lemma ok_task_answers n r handled st events st' new :
  sv_tasks st !! n = Some r → server_ok st events →
  task_answers epoch encode_json schema_accepts r (delete n (sv_tasks st)) handled st = (st', new) →
  server_ok st' (events ++ new).
Proof.
  intros Hn [H1 H2 H3 H4 (lost & H5 & H6)]. pose proof (delete_Permutation _ _ _ Hn) as Hperm.
  assert (len (delete n (sv_tasks st)) + len (sv_ending st ++ [Some (pr_request_id r)]) ≤
    MAX_IN_FLIGHT_PEER_REQUESTS) as Hlen.
  { rewrite len_snoc. unfold len in *. rewrite Hperm in H1. cbn in H1. lia. }
  assert ((pr_request_id <$> delete n (sv_tasks st)) ++ omap id (sv_ending st ++ [Some (pr_request_id r)])
    ≡ₚ task_ids st) as Hids.
  { unfold task_ids. rewrite Hperm at 2. rewrite omap_app. cbn. solve_Permutation. }
  assert (∀ st', sv_tasks st' = delete n (sv_tasks st) →
    sv_ending st' = sv_ending st ++ [Some (pr_request_id r)] → task_ids st' ≡ₚ task_ids st) as Hids'.
  { intros st1 Ht He. unfold task_ids at 1. by rewrite Ht, He. }
  unfold task_answers, try_send. destruct (encode_response _ _ _ _ _) as [frame|e];
    [destruct (sv_writing st && _) eqn:Hsend|]; intros [= <- <-].
  all: constructor; [done| |by rewrite Hids'|intros i; rewrite Hids' by done; apply H4|]; cbn; try done.
  - apply andb_true_iff in Hsend as [_ Hq]. apply N.ltb_lt in Hq. rewrite len_snoc. lia.
  - exists lost. rewrite !omap_app. cbn. rewrite app_nil_r, H5. rewrite Hperm at 1. by split; [solve_Permutation|].
  - exists (r :: lost). rewrite app_nil_r, H5. rewrite Hperm at 1.
    split; [solve_Permutation|]. by intros (_ & Hf & _).
  - exists (r :: lost). rewrite app_nil_r, H5. rewrite Hperm at 1.
    split; [solve_Permutation|]. by intros (_ & Hf & _).
Qed.

(** A task that has answered and removes its id, or ends *)
Lemma ok_task_goes_on n st events : server_ok st events → server_ok (task_goes_on n st) (events ++ []).
Proof.
  intros Hst. rewrite app_nil_r. unfold task_goes_on.
  destruct (sv_ending st !! n) as [[i|]|] eqn:Hn; [..|done];
    destruct Hst as [H1 H2 H3 H4 (lost & H5 & H6)]; pose proof (delete_Permutation _ _ _ Hn) as Hperm.
  - assert (task_ids st ≡ₚ i :: (pr_request_id <$> sv_tasks st) ++ omap id (<[n := None]> (sv_ending st))) as Hids.
    { unfold task_ids. rewrite insert_take_drop by (by eapply lookup_lt_Some).
      rewrite <- (take_drop_middle _ _ _ Hn) at 1. rewrite !omap_app. cbn. solve_Permutation. }
    rewrite Hids in H3. inversion H3 as [|?? Hi Hnd]; subst. constructor; cbn; try done.
    + unfold len in *. by rewrite length_insert.
    + intros j Hj. apply elem_of_difference. split; [apply H4; rewrite Hids; by right|].
      intros ->%elem_of_singleton. done.
    + by exists lost.
  - assert (task_ids st ≡ₚ (pr_request_id <$> sv_tasks st) ++ omap id (delete n (sv_ending st))) as Hids.
    { unfold task_ids. by rewrite Hperm at 1. }
    constructor; cbn; try done.
    + unfold len in *. rewrite Hperm in H1. cbn in H1. lia.
    + by rewrite <- Hids.
    + intros j. rewrite <- Hids. apply H4.
    + exists lost. split; [done|]. intros (Hp & Hf & Hu). apply H6. split; [done|]. split; [done|].
      cbn in Hu. set_solver.
Qed.

Lemma ok_task_panics n r st events :
  sv_tasks st !! n = Some r → server_ok st events →
  server_ok (mkServer (sv_partial st) (delete n (sv_tasks st)) (sv_ending st) (sv_unjoined st ++ [true])
    (sv_admitted st) (sv_queue st) (sv_writing st) (sv_failed st) (sv_phase st)) (events ++ []).
Proof.
  intros Hn [H1 H2 H3 H4 (lost & H5 & H6)]. pose proof (delete_Permutation _ _ _ Hn) as Hperm.
  assert (task_ids st ≡ₚ pr_request_id r ::
    (pr_request_id <$> delete n (sv_tasks st)) ++ omap id (sv_ending st)) as Hids.
  { unfold task_ids. by rewrite Hperm at 1. }
  rewrite app_nil_r. constructor; cbn; try done.
  - unfold len in *. rewrite Hperm in H1. cbn in H1. lia.
  - rewrite Hids in H3. by inversion H3.
  - intros j Hj. apply H4. rewrite Hids. by right.
  - exists (r :: lost). rewrite H5. rewrite Hperm at 1. split; [solve_Permutation|].
    intros (_ & _ & Hu). cbn in Hu. set_solver.
Qed.

Lemma ok_task i st events st' new :
  server_ok st events → task_step i st = (st', new) → server_ok st' (events ++ new).
Proof.
  intros Hst. destruct i; cbn; try (intros [= <- <-]; by rewrite app_nil_r).
  - destruct (sv_tasks st !! _) as [r|] eqn:Hn; [by apply ok_task_answers|].
    intros [= <- <-]. by rewrite app_nil_r.
  - intros [= <- <-]. by apply ok_task_goes_on.
  - destruct (sv_tasks st !! _) as [r|] eqn:Hn; intros [= <- <-]; [by eapply ok_task_panics|by rewrite app_nil_r].
  - intros [= <- <-]. rewrite app_nil_r. destruct Hst as [H1 H2 H3 H4 H5]. constructor; cbn; try done.
    unfold len in *. rewrite length_tl. lia.
  - intros [= <- <-]. eapply ok_same; [..|exact Hst]; try done. by intros (_ & Hf & _).
Qed.

Lemma served_ok st events : served st events → server_ok st events.
Proof.
  induction 1 as [|st events i st' new _ IH Hstep].
  - constructor; cbn; try (by vm_compute); [constructor|set_solver|]. by exists [].
  - revert Hstep. unfold PeerServer.server_step.
    destruct i, (sv_phase st); try (by apply ok_loop); try (by apply ok_task);
      intros [= <- <-]; by rewrite app_nil_r.
Qed.

(** C23: every request on a stream is answered once.  Whatever bytes arrive and
    in whatever order tasks answer, end, are joined or panic and the writer
    works or fails: there are at most 64 tasks, those that have answered and not
    ended included, and at most 64 responses in the queue, no two tasks have the
    same request id until they remove it, and no request has more
    answers than it was received; and as long as the stream is served, the
    writer works and no task has panicked, every request that was received was
    answered exactly once, or its task is running. *)
Theorem requests_are_answered_once st events :
  served st events →
  len (sv_tasks st) + len (sv_ending st) ≤ MAX_IN_FLIGHT_PEER_REQUESTS ∧
  len (sv_queue st) ≤ MAX_IN_FLIGHT_PEER_REQUESTS ∧
  NoDup ((pr_request_id <$> sv_tasks st) ++ omap id (sv_ending st)) ∧
  (omap answered events ++ sv_tasks st) ⊆+ omap received events ∧
  (undisturbed st → omap received events ≡ₚ omap answered events ++ sv_tasks st).
Proof.
  intros [H1 H2 H3 _ (lost & H5 & H6)]%served_ok. split_and!; try done.
  - rewrite H5, app_assoc. by apply submseteq_inserts_r.
  - intros Hu. by rewrite H5, (H6 Hu), app_nil_r.
Qed.
End Server.

(** ** Framing *)

(** The frames in a run of bytes that no other branch interrupts, and the
    beginning of the next one *)
Fixpoint read_bytes (partial : list N) (input : list N)
    : list (result PeerServerError (list N)) * list N :=
  match input with
  | [] => ([], partial)
  | b :: input =>
      match read_byte partial b with
      | Pending partial => read_bytes partial input
      | Complete frame => let '(frames, rest) := read_bytes [] input in (frame :: frames, rest)
      end
  end.

(** A line as [encode_frame] of a client or [encode_response] writes it *)
Definition line_ok (line : list N) : Prop :=
  line ≠ [] ∧ len line < MAX_PEER_FRAME_BYTES ∧ Forall (λ b, b ≠ 10 ∧ b ≠ 13) line.

Lemma finish_line line : line_ok line → finish_frame (line ++ [10]) = Ok line.
Proof.
  intros (Hne & Hlen & Hall). unfold finish_frame. rewrite last_snoc, removelast_last, len_snoc.
  replace (MAX_PEER_FRAME_BYTES <? len line + 1) with false by (symmetry; apply N.ltb_ge; lia).
  rewrite (bool_decide_true (Some 10 = Some 10)) by done. cbn.
  replace (len line =? 0) with false by (symmetry; apply N.eqb_neq; destruct line; done). cbn.
  rewrite bool_decide_false; [done|]. intros (l & ->)%last_Some.
  apply Forall_app in Hall as [_ [[_ H] _]%Forall_cons]. done.
Qed.

Lemma read_bytes_line partial line rest :
  line_ok (partial ++ line) →
  read_bytes partial (line ++ 10 :: rest) =
  let '(frames, last) := read_bytes [] rest in (Ok (partial ++ line) :: frames, last).
Proof.
  revert partial. induction line as [|b line IH]; intros partial Hok; cbn [app read_bytes]; unfold read_byte.
  - rewrite app_nil_r in *. cbn. by rewrite finish_line.
  - assert (partial ++ b :: line = (partial ++ [b]) ++ line) as Heq by (by rewrite <- app_assoc).
    rewrite Heq in *. pose proof Hok as (_ & Hlen & Hall).
    assert (b ≠ 10) as Hb by (rewrite !Forall_app, Forall_singleton in Hall; tauto).
    rewrite len_app in Hlen.
    replace (b =? 10) with false by (symmetry; by apply N.eqb_neq).
    replace (len (partial ++ [b]) =? MAX_PEER_FRAME_BYTES + 1) with false
      by (symmetry; apply N.eqb_neq; lia).
    by apply IH.
Qed.

(** Frames that arrive one after the other are read as they were sent. *)
Lemma frames_are_read_back lines :
  Forall line_ok lines → read_bytes [] (concat ((λ line, line ++ [10]) <$> lines)) = (Ok <$> lines, []).
Proof.
  induction 1 as [|line lines Hl _ IH]; [done|]. cbn. rewrite <- app_assoc. cbn.
  rewrite read_bytes_line by done. by rewrite IH.
Qed.

(** ** A stream at work *)

Module ServerExamples.

Definition first : PeerRequest := request_new 7 17 "node-b" (Some 3) PO_Health.
Definition second : PeerRequest := request_new 8 18 "node-b" (Some 3) PO_Health.
Definition decode_request (line : list N) : option PeerRequest :=
  if bool_decide (line = [65; 65]) then Some first
  else if bool_decide (line = [66; 66; 66]) then Some second else None.
Definition respond (r : PeerRequest) : PeerResponse := response_success r 3 (PR_Health Healthy 1000).

Definition step : Input → Server → Server * list ServerEvent :=
  server_step "node-b" 3 decode_request (λ _, Some [123]) (λ _, true) (λ _, None).
Fixpoint run (inputs : list Input) (st : Server) : Server * list ServerEvent :=
  match inputs with
  | [] => (st, [])
  | i :: inputs =>
      let '(st, new) := step i st in
      let '(st, events) := run inputs st in (st, new ++ events)
  end.
Definition read (bytes : list N) : list Input := (λ b, Byte b None) <$> bytes.

Lemma run_served inputs st events st' new :
  served "node-b" 3 decode_request (λ _, Some [123]) (λ _, true) (λ _, None) st events →
  run inputs st = (st', new) →
  served "node-b" 3 decode_request (λ _, Some [123]) (λ _, true) (λ _, None) st' (events ++ new).
Proof.
  revert st events new. induction inputs as [|i inputs IH]; intros st events new Hs; cbn.
  - intros [= <- <-]. by rewrite app_nil_r.
  - destruct (step i st) as [st1 new1] eqn:Hstep. destruct (run inputs st1) as [st2 new2] eqn:Hrun.
    intros [= <- <-]. rewrite app_assoc. eapply IH; [|exact Hrun]. by eapply served_step.
Qed.

(** Two requests, one after the other *)
Definition in_turn : list Input :=
  read [65; 65; 10] ++ [TaskAnswers 0 (Some (respond first)); TaskGoesOn 0; TaskGoesOn 0; TaskJoined 0; WriterTakes] ++ read [66; 66; 66; 10].

Lemma requests_are_answered_once_witness :
  omap received (snd (run in_turn server0)) ≡ₚ [first; second].
Proof.
  destruct (run in_turn server0) as [st events] eqn:Hrun.
  assert (served "node-b" 3 decode_request (λ _, Some [123]) (λ _, true) (λ _, None) st events) as Hserved.
  { apply (run_served in_turn server0 [] st events); [apply served_start|exact Hrun]. }
  apply requests_are_answered_once in Hserved as (_ & _ & _ & _ & Hall).
  vm_compute in Hrun. injection Hrun as <- <-. cbn in *. apply Hall.
  split; [reflexivity|]. split; [reflexivity|]. intros H. by apply elem_of_nil in H.
Defined.

(** The first request ends while the second one is being read. The bytes of the
    second frame that were read are lost, and the rest of it is not a request:
    the stream is closed, and the second request is never received. *)
Definition interleaved : list Input :=
  read [65; 65; 10] ++ read [66; 66] ++ [TaskAnswers 0 (Some (respond first)); TaskGoesOn 0; TaskGoesOn 0; TaskJoined 0] ++ read [66; 10].

Lemma join_inside_a_frame_ends_the_stream :
  sv_phase (fst (run interleaved server0)) = Ended (Some PSE_Protocol) ∧
  omap received (snd (run interleaved server0)) = [first].
Proof. by vm_compute. Qed.
End ServerExamples.
