(* ===== verification/Framing.v ===== *)
(** * NDJSON framing

    The wire between client and daemon: one JSON text per line.
    [crates/client/src/framing.rs] is the client's incremental decoder;
    [crates/daemon/src/main.rs] writes bounded response frames and reads
    bounded request lines; [crates/client/src/client.rs] writes request
    frames. Bytes are numbers below 256. *)

From S2P Require Import Prelude Protocol.
From stdpp Require Import pretty.

Local Open Scope N_scope.

Definition NEWLINE : N := 0x0A.
Definition CARRIAGE_RETURN : N := 0x0D.

(** [std::str::from_utf8] succeeds: the well-formed byte sequences of the
    Unicode standard. *)
Definition byte_in (lo hi b : N) : bool := (lo <=? b) && (b <=? hi).

Fixpoint from_utf8 (l : list N) : bool :=
  match l with
  | [] => true
  | a :: rest =>
      if a <? 0x80 then from_utf8 rest
      else if byte_in 0xC2 0xDF a then
        match rest with
        | b :: rest => byte_in 0x80 0xBF b && from_utf8 rest
        | _ => false
        end
      else if byte_in 0xE0 0xEF a then
        match rest with
        | b :: c :: rest =>
            byte_in (if a =? 0xE0 then 0xA0 else 0x80) (if a =? 0xED then 0x9F else 0xBF) b &&
            byte_in 0x80 0xBF c && from_utf8 rest
        | _ => false
        end
      else if byte_in 0xF0 0xF4 a then
        match rest with
        | b :: c :: d :: rest =>
            byte_in (if a =? 0xF0 then 0x90 else 0x80) (if a =? 0xF4 then 0x8F else 0xBF) b &&
            byte_in 0x80 0xBF c && byte_in 0x80 0xBF d && from_utf8 rest
        | _ => false
        end
      else false
  end.

(** ** The client's decoder ([framing.rs]) *)

Inductive FramingError :=
| FrameTooLarge (limit : N)
| InvalidUtf8
| IncompleteFrame
| AlreadyEnded.

Definition DEFAULT_MAX_FRAME_BYTES : N := 1024 * 1024.

Record NdjsonDecoder := mkNdjsonDecoder {
  nd_buffer : list N;
  nd_max_frame_bytes : N;
  nd_scan_from : N;
  nd_ended : bool;
  nd_failure : option FramingError;
}.

(** [NdjsonDecoder::new] *)
Definition decoder_new (max_frame_bytes : N) : result FramingError NdjsonDecoder :=
  check! reject_if (max_frame_bytes =? 0) (FrameTooLarge 0);
  Ok (mkNdjsonDecoder [] max_frame_bytes 0 false None).

(** [slice.last() == Some(&b)] *)
Definition last_is (b : N) (l : list N) : bool := bool_decide (last l = Some b).

(** A line without the carriage return before its newline. *)
Definition strip_carriage_return (line : list N) : list N :=
  if last_is CARRIAGE_RETURN line then removelast line else line.

(** The loop of [push] and the drain after it. [pending] is
    [buffer[frame_start..index]] and [rest] is [buffer[index..]]; the result is
    the frames and what stays in the buffer. *)
Fixpoint scan_frames (max_frame_bytes : N) (pending rest : list N)
    : result FramingError (list (list N) * list N) :=
  match rest with
  | [] => Ok ([], pending)
  | byte :: rest =>
      if negb (byte =? NEWLINE) then
        let pending_bytes := usize_saturating_add (len pending) 1 in
        let split_crlf_candidate :=
          (pending_bytes =? usize_saturating_add max_frame_bytes 1) &&
          (byte =? CARRIAGE_RETURN) &&
          match rest with [] => true | next :: _ => next =? NEWLINE end in
        check! reject_if ((max_frame_bytes <? pending_bytes) && negb split_crlf_candidate)
          (FrameTooLarge max_frame_bytes);
        scan_frames max_frame_bytes (pending ++ [byte]) rest
      else
        let frame_bytes := strip_carriage_return pending in
        check! reject_if (max_frame_bytes <? len frame_bytes) (FrameTooLarge max_frame_bytes);
        check! reject_if (negb (from_utf8 frame_bytes)) InvalidUtf8;
        '(frames, pending) ← scan_frames max_frame_bytes [] rest;
        Ok (frame_bytes :: frames, pending)
  end.

(** [NdjsonDecoder::fail] *)
Definition decoder_fail {A} (buffer : list N) (d : NdjsonDecoder) (e : FramingError)
    : result FramingError A * NdjsonDecoder :=
  (Err e, mkNdjsonDecoder buffer (nd_max_frame_bytes d) (nd_scan_from d) (nd_ended d) (Some e)).

(** [NdjsonDecoder::push] *)
Definition push (chunk : list N) (d : NdjsonDecoder)
    : result FramingError (list (list N)) * NdjsonDecoder :=
  match nd_failure d with
  | Some error => (Err error, d)
  | None =>
      if nd_ended d then (Err AlreadyEnded, d) else
      let buffer := nd_buffer d ++ chunk in
      let max := nd_max_frame_bytes d in
      let scan_from := N.to_nat (nd_scan_from d) in
      match scan_frames max (take scan_from buffer) (drop scan_from buffer) with
      | Err error => decoder_fail buffer d error
      | Ok (frames, rest) =>
          let split_crlf_candidate :=
            (len rest =? usize_saturating_add max 1) && last_is CARRIAGE_RETURN rest in
          if (max <? len rest) && negb split_crlf_candidate
          then decoder_fail rest d (FrameTooLarge max)
          else (Ok frames, mkNdjsonDecoder rest max (len rest) false None)
      end
  end.

(** [NdjsonDecoder::finish] *)
Definition finish (d : NdjsonDecoder) : result FramingError () * NdjsonDecoder :=
  match nd_failure d with
  | Some error => (Err error, d)
  | None =>
      if nd_ended d then (Err AlreadyEnded, d) else
      (if bool_decide (nd_buffer d = []) then Ok () else Err IncompleteFrame,
       mkNdjsonDecoder (nd_buffer d) (nd_max_frame_bytes d) (nd_scan_from d) true None)
  end.

(** The decoder part of [read_loop]: the chunks that were read are pushed, and
    the end of the stream finishes the decoder. *)
Fixpoint push_all (chunks : list (list N)) (d : NdjsonDecoder)
    : result FramingError (list (list N)) * NdjsonDecoder :=
  match chunks with
  | [] => (Ok [], d)
  | chunk :: chunks =>
      match push chunk d with
      | (Err error, d) => (Err error, d)
      | (Ok frames, d) =>
          match push_all chunks d with
          | (Err error, d) => (Err error, d)
          | (Ok frames', d) => (Ok (frames ++ frames'), d)
          end
      end
  end.

(** ** The daemon's line reader ([main.rs]) *)

Inductive LineError :=
| LineTooLong (max_bytes : N)
| LineNotUtf8.

(** [reader.take(limit).read_until(b'\n', ..)] on what the reader still has:
    the bytes read, and what it has left. *)
Fixpoint read_until (limit : N) (stream : list N) : list N * list N :=
  match stream with
  | [] => ([], [])
  | byte :: rest =>
      if limit =? 0 then ([], stream)
      else if byte =? NEWLINE then ([byte], rest)
      else let '(bytes, rest) := read_until (limit - 1) rest in (byte :: bytes, rest)
  end.

(** [read_bounded_line] and [read_bounded_async_line] *)
Definition read_bounded_line (max_bytes : N) (stream : list N)
    : result LineError (option (list N)) * list N :=
  let '(bytes, rest) := read_until (u64_saturating_add max_bytes 2) stream in
  (match bytes with
   | [] => Ok None
   | _ :: _ =>
       let bytes :=
         if last_is NEWLINE bytes then strip_carriage_return (removelast bytes) else bytes in
       check! reject_if (max_bytes <? len bytes) (LineTooLong max_bytes);
       check! reject_if (negb (from_utf8 bytes)) LineNotUtf8;
       Ok (Some bytes)
   end, rest).

(** The reader thread of [stdin_lines]: what it sends, and the result of the
    call that ended it; [None] if [fuel] was used up. *)
Fixpoint stdin_lines (fuel : nat) (max_bytes : N) (stream : list N)
    : list (list N) * option (result LineError ()) :=
  match fuel with
  | O => ([], None)
  | S fuel =>
      match read_bounded_line max_bytes stream with
      | (Ok (Some line), rest) =>
          let '(lines, outcome) := stdin_lines fuel max_bytes rest in (line :: lines, outcome)
      | (Ok None, _) => ([], Some (Ok ()))
      | (Err error, _) => ([], Some (Err error))
      end
  end.

(** ** Writing frames *)

(** [rpc.rs]: [RpcError] and [RpcResponse] *)
Record RpcError := mkRpcError {
  re_code : Z;
  re_message : string;
  re_data : ErrorInfo;
}.

Inductive RpcResponse :=
| RpcSuccess (id : RpcId) (value : Json)
| RpcFailure (id : option RpcId) (error : RpcError).

(** [rpc_error] *)
Definition rpc_error (numeric_code : Z) (code message : string) (retryable : bool)
    (details : option Json) : RpcError :=
  mkRpcError numeric_code message (mkErrorInfo code message retryable details).

Definition RESPONSE_FRAME_TOO_LARGE : Z := -32012.

(** [response_frame_too_large] *)
Definition response_frame_too_large (actual_bytes limit_bytes : N) : RpcError :=
  rpc_error RESPONSE_FRAME_TOO_LARGE "response_frame_too_large"
    ("response frame exceeds the " ++ pretty limit_bytes ++ "-byte limit") false
    (Some (JObject [("actualBytes"%string, JNumber (PosInt actual_bytes));
                    ("limitBytes"%string, JNumber (PosInt limit_bytes))])).

Inductive FrameIoError :=
| ResponseLengthOverflow
| ResponseSerializationFailed
| ReplacementTooLarge (replacement_bytes max_bytes : N).

Record BoundedResponseWriter := mkBoundedResponseWriter {
  bw_bytes : list N;
  bw_limit : N;
  bw_total : N;
}.

(** [BoundedResponseWriter::new] and [write] *)
Definition bounded_writer_new (limit : N) : BoundedResponseWriter :=
  mkBoundedResponseWriter [] limit 0.
Definition bounded_write (input : list N) (w : BoundedResponseWriter)
    : result FrameIoError BoundedResponseWriter :=
  total ← ok_or (usize_checked_add (bw_total w) (len input)) ResponseLengthOverflow;
  let retained := N.min (bw_limit w - len (bw_bytes w)) (len input) in
  Ok (mkBoundedResponseWriter (bw_bytes w ++ take (N.to_nat retained) input)
        (bw_limit w) total).

Fixpoint write_pieces (pieces : list (list N)) (w : BoundedResponseWriter)
    : result FrameIoError BoundedResponseWriter :=
  match pieces with
  | [] => Ok w
  | piece :: pieces => w ← bounded_write piece w; write_pieces pieces w
  end.

Section Writing.

(** [serde_json::to_writer]: the pieces it writes for a response, or its
    failure *)
Context (to_writer : RpcResponse → result () (list (list N))).

(** [serialize_response_bounded] *)
Definition serialize_response_bounded (response : RpcResponse) (max_bytes : N)
    : result FrameIoError (list N * N) :=
  pieces ← map_err (λ _, ResponseSerializationFailed) (to_writer response);
  writer ← map_err (λ _, ResponseSerializationFailed)
    (write_pieces pieces (bounded_writer_new max_bytes));
  Ok (bw_bytes writer, bw_total writer).

(** [append_ndjson_delimiter] *)
Definition append_ndjson_delimiter (encoded : list N) : list N := encoded ++ [NEWLINE].

Definition response_id (response : RpcResponse) : option RpcId :=
  match response with RpcSuccess id _ => Some id | RpcFailure id _ => id end.

(** [bounded_response_frame] *)
Definition bounded_response_frame (response : RpcResponse) (max_bytes : N)
    : result FrameIoError (list N) :=
  '(encoded, actual_bytes) ← serialize_response_bounded response max_bytes;
  if actual_bytes <=? max_bytes then Ok (append_ndjson_delimiter encoded) else
  let replacement :=
    RpcFailure (response_id response) (response_frame_too_large actual_bytes max_bytes) in
  '(encoded, replacement_bytes) ← serialize_response_bounded replacement max_bytes;
  check! reject_if (max_bytes <? replacement_bytes)
    (ReplacementTooLarge replacement_bytes max_bytes);
  Ok (append_ndjson_delimiter encoded).
End Writing.

(** The frame of a request that the client has serialized, or the refused
    length *)
Definition request_frame (encoded : list N) (max_frame_bytes : N) : result N (list N) :=
  check! reject_if (max_frame_bytes <? len encoded) (len encoded);
  Ok (encoded ++ [NEWLINE]).
