(* ===== verification/FramingProps.v ===== *)
(** * NDJSON framing: chunk independence and round trip

    The client's decoder against a reference that looks at the whole stream,
    and the texts that cross the wire in both directions. *)

From S2P Require Import Prelude Protocol Framing.

Local Open Scope N_scope.

(** ** The reference *)

(** The complete lines of a stream, and what follows the last newline. *)
Fixpoint lines_of (stream : list N) : list (list N) * list N :=
  match stream with
  | [] => ([], [])
  | byte :: stream =>
      let '(lines, rest) := lines_of stream in
      if byte =? NEWLINE then ([] :: lines, rest)
      else match lines with
           | [] => ([], byte :: rest)
           | line :: lines => ((byte :: line) :: lines, rest)
           end
  end.

Section Reference.
Context (max : N).

Definition accept_line (line : list N) : result FramingError (list N) :=
  let frame := strip_carriage_return line in
  check! reject_if (max <? len frame) (FrameTooLarge max);
  check! reject_if (negb (from_utf8 frame)) InvalidUtf8;
  Ok frame.

Fixpoint accept_lines (lines : list (list N)) : result FramingError (list (list N)) :=
  match lines with
  | [] => Ok []
  | line :: lines =>
      frame ← accept_line line; frames ← accept_lines lines; Ok (frame :: frames)
  end.

(** An unfinished line that no continuation makes acceptable. *)
Definition too_long (line : list N) : bool :=
  (max <? len line) && negb ((len line =? max + 1) && last_is CARRIAGE_RETURN line).

Definition decode_reference (stream : list N) : result FramingError (list (list N) * list N) :=
  let '(lines, rest) := lines_of stream in
  frames ← accept_lines lines;
  check! reject_if (too_long rest) (FrameTooLarge max);
  Ok (frames, rest).
End Reference.

(** ** The reference, line by line *)

Definition no_newline (l : list N) : Prop := Forall (λ b, b ≠ NEWLINE) l.

Lemma lines_of_tail l : no_newline l → lines_of l = ([], l).
Proof.
  induction 1 as [|b l Hb _ IH]; [done|]. cbn. rewrite IH. by destruct (N.eqb_spec b NEWLINE).
Qed.

Lemma lines_of_line l stream :
  no_newline l →
  lines_of (l ++ NEWLINE :: stream) = (l :: (lines_of stream).1, (lines_of stream).2).
Proof.
  induction 1 as [|b l Hb _ IH]; cbn.
  - by destruct (lines_of stream).
  - rewrite IH. by destruct (N.eqb_spec b NEWLINE).
Qed.

Lemma newline_view stream :
  no_newline stream ∨ ∃ l rest, stream = l ++ NEWLINE :: rest ∧ no_newline l.
Proof.
  induction stream as [|b stream IH]; [by left; constructor|].
  destruct (decide (b = NEWLINE)) as [->|Hb].
  - right. exists [], stream. by split; [|constructor].
  - destruct IH as [?|(l & rest & -> & ?)]; [left; by constructor|].
    right. exists (b :: l), rest. by split; [|constructor].
Qed.

Section ReferenceLemmas.
Context (max : N).

Lemma reference_tail l :
  no_newline l → too_long max l = false → decode_reference max l = Ok ([], l).
Proof. intros Hl Ht. unfold decode_reference. rewrite lines_of_tail by done. cbn. by rewrite Ht. Qed.

Lemma reference_line l stream :
  no_newline l →
  decode_reference max (l ++ NEWLINE :: stream) =
    (frame ← accept_line max l;
     '(frames, rest) ← decode_reference max stream;
     Ok (frame :: frames, rest)).
Proof.
  intros Hl. unfold decode_reference. rewrite lines_of_line by done.
  destruct (lines_of stream) as [lines rest]. cbn.
  destruct (accept_line max l) as [frame|]; [|done]. cbn.
  destruct (accept_lines max lines) as [frames|]; [|done]. cbn.
  by destruct (too_long max rest).
Qed.

Lemma len_strip l : len l <= len (strip_carriage_return l) + 1.
Proof.
  unfold strip_carriage_return. case_match; [|lia].
  destruct l as [|x l _] using rev_ind; [done|].
  rewrite removelast_last, len_snoc. lia.
Qed.

Lemma strip_other l : last_is CARRIAGE_RETURN l = false → strip_carriage_return l = l.
Proof. unfold strip_carriage_return. by intros ->. Qed.

Lemma too_long_app l k : too_long max l = true → too_long max (l ++ k) = true.
Proof.
  destruct k as [|x k]; [by rewrite app_nil_r|]. unfold too_long.
  rewrite !andb_true_iff, negb_true_iff, N.ltb_lt, N.ltb_lt, len_app. intros [Hl _].
  assert (1 <= len (x :: k)) by (unfold len; cbn; lia). split; [lia|].
  destruct (N.eqb_spec (len l + len (x :: k)) (max + 1)); [lia|done].
Qed.

Lemma accept_too_long l : too_long max l = true → accept_line max l = Err (FrameTooLarge max).
Proof.
  unfold too_long, accept_line. rewrite andb_true_iff, negb_true_iff, N.ltb_lt.
  intros [Hl Hc]. destruct (N.ltb_spec max (len (strip_carriage_return l))) as [|Hs]; [done|].
  pose proof (len_strip l). apply andb_false_iff in Hc as [Hc|Hc].
  - apply N.eqb_neq in Hc. lia.
  - rewrite strip_other in Hs by done. lia.
Qed.

Lemma reference_too_long l stream :
  no_newline l → too_long max l = true →
  decode_reference max (l ++ stream) = Err (FrameTooLarge max).
Proof.
  intros Hl Ht. destruct (newline_view stream) as [Hn|(k & rest & -> & Hk)].
  - unfold decode_reference. rewrite lines_of_tail by by apply Forall_app. cbn.
    by rewrite too_long_app.
  - rewrite app_assoc, reference_line by by apply Forall_app.
    by rewrite accept_too_long by by apply too_long_app.
Qed.

(** Reading on after a prefix. *)
Lemma reference_app s1 s2 :
  decode_reference max (s1 ++ s2) =
    ('(frames, rest) ← decode_reference max s1;
     '(frames', rest') ← decode_reference max (rest ++ s2);
     Ok (frames ++ frames', rest')).
Proof.
  remember (length s1) as n eqn:Hs. revert s1 Hs.
  induction n as [n IH] using lt_wf_ind. intros s1 ->. destruct (newline_view s1) as [Hn|(l & rest & -> & Hl)].
  - destruct (too_long max s1) eqn:Ht.
    + rewrite reference_too_long by done.
      pose proof (reference_too_long s1 [] Hn Ht) as H. rewrite app_nil_r in H. by rewrite H.
    + rewrite (reference_tail s1) by done. cbn.
      by destruct (decode_reference max (s1 ++ s2)) as [[]|].
  - rewrite <-app_assoc. cbn. rewrite !reference_line by done.
    destruct (accept_line max l) as [frame|]; [|done]. cbn.
    rewrite (IH (length rest)) by (rewrite ?length_app; cbn; lia).
    destruct (decode_reference max rest) as [[frames t]|]; [|done]. cbn.
    by destruct (decode_reference max (t ++ s2)) as [[]|].
Qed.
End ReferenceLemmas.

(** ** The decoder *)

Section Decoder.
Context (max : N).

Lemma len_cons {A} (x : A) l : len (x :: l) = len l + 1.
Proof. unfold len. cbn. lia. Qed.

Lemma last_is_snoc b l x : last_is b (l ++ [x]) = (x =? b).
Proof.
  unfold last_is. rewrite last_snoc. destruct (N.eqb_spec x b); case_bool_decide; congruence.
Qed.

(** Below the address space the saturating sums are exact. *)
Lemma split_candidate n c :
  n + 1 <= USIZE_MAX →
  (max <? usize_saturating_add n 1) &&
    negb ((usize_saturating_add n 1 =? usize_saturating_add max 1) && c) =
  (max <? n + 1) && negb ((n + 1 =? max + 1) && c).
Proof.
  intros Hn. unfold usize_saturating_add. rewrite (N.min_l (n + 1)) by done.
  destruct (N.ltb_spec max (n + 1)); [|done]. by rewrite N.min_l by lia.
Qed.

(** A byte that [scan_frames] refuses makes the line too long. *)
Lemma refused_byte pending byte rest :
  no_newline (pending ++ [byte]) →
  (max <? len pending + 1) &&
    negb ((len pending + 1 =? max + 1) && ((byte =? CARRIAGE_RETURN) &&
      match rest with [] => true | next :: _ => next =? NEWLINE end)) = true →
  decode_reference max ((pending ++ [byte]) ++ rest) = Err (FrameTooLarge max).
Proof.
  intros Hn [Hm Hc]%andb_true_iff. destruct (too_long max (pending ++ [byte])) eqn:Ht.
  { by apply reference_too_long. }
  unfold too_long in Ht. rewrite len_snoc, Hm, last_is_snoc in Ht. cbn in Ht.
  apply negb_false_iff in Ht as [He%N.eqb_eq Hb]%andb_true_iff.
  rewrite Hb, He, N.eqb_refl in Hc. destruct rest as [|next rest]; [done|].
  cbn in Hc. apply negb_true_iff, N.eqb_neq in Hc.
  replace (_ ++ next :: rest) with (((pending ++ [byte]) ++ [next]) ++ rest)
    by by rewrite <-app_assoc.
  apply reference_too_long; [by apply Forall_app; split; [|by constructor]|].
  unfold too_long. rewrite !len_snoc. apply andb_true_iff. split; [apply N.ltb_lt; lia|].
  destruct (N.eqb_spec (len pending + 1 + 1) (max + 1)); [lia|done].
Qed.

Lemma accepted_byte pending byte rest :
  (max <? len pending + 1) &&
    negb ((len pending + 1 =? max + 1) && ((byte =? CARRIAGE_RETURN) && rest)) = false →
  too_long max (pending ++ [byte]) = false.
Proof.
  unfold too_long. rewrite len_snoc, last_is_snoc.
  destruct (max <? _), (_ =? max + 1), (byte =? _); cbn; done.
Qed.

Lemma scan_frames_reference pending rest :
  no_newline pending → too_long max pending = false → len (pending ++ rest) < USIZE_MAX →
  scan_frames max pending rest = decode_reference max (pending ++ rest).
Proof.
  revert pending. induction rest as [|byte rest IH]; intros pending Hn Ht Hlen.
  { by rewrite app_nil_r, reference_tail. }
  rewrite len_app, len_cons in Hlen. cbn [scan_frames].
  destruct (N.eqb_spec byte NEWLINE) as [->|Hb]; cbn [negb].
  - rewrite reference_line by done. unfold accept_line.
    destruct (max <? _); [done|]. destruct (from_utf8 _); [|done]. cbn.
    rewrite IH; [done|by constructor|by destruct max|]. cbn. lia.
  - rewrite <-andb_assoc, split_candidate by lia.
    replace (pending ++ byte :: rest) with ((pending ++ [byte]) ++ rest)
      by by rewrite <-app_assoc.
    assert (no_newline (pending ++ [byte])) by (apply Forall_app; by split; [|constructor]).
    destruct (_ && negb _) eqn:Hc; cbn.
    + by rewrite refused_byte.
    + apply IH; [done|by eapply accepted_byte|]. rewrite len_app, len_snoc. lia.
Qed.

(** What stays in the buffer. *)
Lemma reference_rest stream frames rest :
  decode_reference max stream = Ok (frames, rest) →
  no_newline rest ∧ too_long max rest = false ∧ len rest <= len stream.
Proof.
  remember (length stream) as n eqn:Hs. revert stream Hs frames.
  induction n as [n IH] using lt_wf_ind. intros stream -> frames.
  destruct (newline_view stream) as [Hn|(l & s & -> & Hl)].
  - unfold decode_reference. rewrite lines_of_tail by done. cbn.
    destruct (too_long max stream) eqn:Ht; [done|]. by intros [= <- <-].
  - rewrite reference_line by done. destruct (accept_line max l); [|done]. cbn.
    destruct (decode_reference max s) as [[fs t]|] eqn:Hr; [|done]. cbn. intros [= <- <-].
    eapply (IH (length s)) in Hr as (? & ? & ?); [|rewrite length_app; cbn; lia|done].
    split_and!; try done. rewrite len_app, len_cons. lia.
Qed.

(** A decoder between two chunks. *)
Definition ready (buffer : list N) : NdjsonDecoder :=
  mkNdjsonDecoder buffer max (len buffer) false None.

Lemma push_reference buffer chunk :
  no_newline buffer → too_long max buffer = false → len (buffer ++ chunk) < USIZE_MAX →
  match decode_reference max (buffer ++ chunk) with
  | Ok (frames, rest) => push chunk (ready buffer) = (Ok frames, ready rest)
  | Err error => ∃ d, push chunk (ready buffer) = (Err error, d) ∧ nd_failure d = Some error
  end.
Proof.
  intros Hn Ht Hlen. unfold push. cbn.
  assert (N.to_nat (len buffer) = length buffer) as -> by apply Nat2N.id.
  rewrite take_app_length, drop_app_length, scan_frames_reference by done.
  destruct (decode_reference _ _) as [[frames rest]|] eqn:Hr; [|by eexists].
  apply reference_rest in Hr as (_ & Hrt & Hrl).
  destruct (_ && negb _) eqn:Hc; [|done]. exfalso. unfold too_long in Hrt.
  apply andb_true_iff in Hc as [Hm Hc]. rewrite Hm in Hrt. apply N.ltb_lt in Hm.
  unfold usize_saturating_add in Hc. rewrite N.min_l in Hc by lia. cbn in Hrt. congruence.
Qed.

#[local] Arguments push : simpl never.

(** Pushing chunk by chunk is decoding the whole stream. *)
Lemma push_all_reference buffer chunks :
  no_newline buffer → too_long max buffer = false →
  len (buffer ++ concat chunks) < USIZE_MAX →
  match decode_reference max (buffer ++ concat chunks) with
  | Ok (frames, rest) => push_all chunks (ready buffer) = (Ok frames, ready rest)
  | Err error =>
      ∃ d, push_all chunks (ready buffer) = (Err error, d) ∧ nd_failure d = Some error
  end.
Proof.
  revert buffer. induction chunks as [|chunk chunks IH]; intros buffer Hn Ht Hlen.
  { cbn. by rewrite app_nil_r, reference_tail. }
  cbn [concat push_all] in *. rewrite app_assoc in Hlen |- *.
  pose proof (push_reference buffer chunk Hn Ht) as Hp.
  rewrite len_app in Hlen. specialize (Hp ltac:(lia)).
  rewrite reference_app.
  destruct (decode_reference max (buffer ++ chunk)) as [[frames rest]|] eqn:Hr; cbn.
  - rewrite Hp. apply reference_rest in Hr as (Hrn & Hrt & Hrl).
    specialize (IH rest Hrn Hrt). rewrite len_app in IH. specialize (IH ltac:(lia)).
    destruct (decode_reference max (rest ++ concat chunks)) as [[frames' rest']|]; cbn.
    + by rewrite IH.
    + destruct IH as (d & -> & ?). by eexists.
  - destruct Hp as (d & -> & ?). by eexists.
Qed.
End Decoder.

(** ** Lines on the wire *)

(** A text that is a line of its own: serialized JSON has no raw control
    characters. *)
Definition line_safe (l : list N) : Prop :=
  no_newline l ∧ last_is CARRIAGE_RETURN l = false ∧ from_utf8 l = true.

Lemma accept_line_safe max l :
  line_safe l → len l <= max → accept_line max l = Ok l.
Proof.
  intros (_ & Hc & Hu) Hl. unfold accept_line. rewrite strip_other, Hu by done.
  by destruct (N.ltb_spec max (len l)); [lia|].
Qed.

Definition wire (texts : list (list N)) : list N := concat (append_ndjson_delimiter <$> texts).

Lemma wire_cons text texts : wire (text :: texts) = text ++ NEWLINE :: wire texts.
Proof. unfold wire, append_ndjson_delimiter. cbn. by rewrite <-app_assoc. Qed.

Lemma reference_wire max texts :
  Forall (λ t, line_safe t ∧ len t <= max) texts →
  decode_reference max (wire texts) = Ok (texts, []).
Proof.
  induction 1 as [|text texts [Hs Hl] _ IH]; [by destruct max|].
  by rewrite wire_cons, reference_line, accept_line_safe, IH by apply Hs || done.
Qed.

Lemma read_until_line limit l rest :
  no_newline l → len l < limit → read_until limit (l ++ NEWLINE :: rest) = (l ++ [NEWLINE], rest).
Proof.
  intros Hl. revert limit. induction Hl as [|b l Hb _ IH]; intros limit Hlim; cbn.
  - destruct (N.eqb_spec limit 0); [unfold len in Hlim; cbn in Hlim; lia|done].
  - rewrite len_cons in Hlim. destruct (N.eqb_spec limit 0); [lia|].
    destruct (N.eqb_spec b NEWLINE); [done|]. by rewrite IH by lia.
Qed.

Lemma read_bounded_line_text max text rest :
  line_safe text → len text <= max → len text < USIZE_MAX - 1 →
  read_bounded_line max (text ++ NEWLINE :: rest) = (Ok (Some text), rest).
Proof.
  intros (Hn & Hc & Hu) Hl Hlen. unfold read_bounded_line.
  rewrite read_until_line; [|done|].
  2: { unfold u64_saturating_add, U64_MAX. unfold USIZE_MAX in Hlen. lia. }
  rewrite last_is_snoc, removelast_last, strip_other by done. cbn.
  destruct (N.ltb_spec max (len text)); [lia|]. rewrite Hu. by destruct text.
Qed.

Lemma stdin_lines_wire fuel max texts :
  Forall (λ t, line_safe t ∧ len t <= max) texts → len (wire texts) < USIZE_MAX →
  (length texts < fuel)%nat →
  stdin_lines fuel max (wire texts) = (texts, Some (Ok ())).
Proof.
  intros Ht. revert fuel. induction Ht as [|text texts [Hs Hl] _ IH]; intros fuel Hlen Hf.
  - destruct fuel; [lia|done].
  - rewrite wire_cons in *. rewrite len_app, len_cons in Hlen.
    destruct fuel as [|fuel]; [lia|]. cbn [stdin_lines length] in *.
    rewrite read_bounded_line_text by (done || lia). rewrite IH by lia. done.
Qed.

Lemma read_until_progress limit stream bytes rest :
  read_until limit stream = (bytes, rest) → stream = bytes ++ rest.
Proof.
  revert limit bytes. induction stream as [|b stream IH]; intros limit bytes; cbn.
  - by intros [= <- <-].
  - destruct (limit =? 0); [by intros [= <- <-]|]. destruct (b =? NEWLINE).
    + by intros [= <- <-].
    + destruct (read_until (limit - 1) stream) as [bs r] eqn:Hr. intros [= <- <-].
      cbn. f_equal. by eapply IH.
Qed.

(** Every line takes at least one byte off the stream. *)
Lemma stdin_lines_end fuel max stream :
  (length stream < fuel)%nat → snd (stdin_lines fuel max stream) ≠ None.
Proof.
  revert stream. induction fuel as [|fuel IH]; intros stream Hf; [lia|]. cbn.
  unfold read_bounded_line. destruct (read_until _ stream) as [bytes rest] eqn:Hr.
  apply read_until_progress in Hr as ->. rewrite length_app in Hf.
  destruct bytes as [|b bytes]; [done|]. cbn in Hf.
  destruct (reject_if (_ <? _) _); [|done]. cbn.
  destruct (reject_if (negb _) _); [|done]. cbn.
  specialize (IH rest ltac:(lia)). by destruct (stdin_lines fuel max rest).
Qed.

(** ** What the daemon sends *)

Section Sent.
Context (to_writer : RpcResponse → result () (list (list N))) (max : N).

Definition json (r : RpcResponse) (text : list N) : Prop :=
  ∃ pieces, to_writer r = Ok pieces ∧ text = concat pieces.

(** The response's own text if it fits, or else that of the error that
    reports its size. *)
Definition sent_text (r : RpcResponse) (text : list N) : Prop :=
  len text <= max ∧
  (json r text ∨
   ∃ full, json r full ∧ max < len full ∧
     json (RpcFailure (response_id r) (response_frame_too_large (len full) max)) text).

(** The writer after the bytes [all]. *)
Definition written (all : list N) : BoundedResponseWriter :=
  mkBoundedResponseWriter (take (N.to_nat max) all) max (len all).

Lemma bounded_write_written all input w :
  bounded_write input (written all) = Ok w → w = written (all ++ input).
Proof.
  unfold bounded_write. intros (total & Ht & [= <-])%result_bind_ok. cbn in *.
  apply ok_or_ok in Ht. unfold usize_checked_add in Ht. case_match; [|done].
  injection Ht as <-. unfold written. rewrite len_app, take_app. f_equal. f_equal.
  unfold len. rewrite length_take.
  replace (N.to_nat (N.min _ _)) with
    (Nat.min (N.to_nat max - Nat.min (N.to_nat max) (length all)) (length input)) by lia.
  destruct (decide (length input ≤ N.to_nat max - length all)%nat).
  - rewrite !take_ge by lia. done.
  - f_equal. lia.
Qed.

Lemma write_pieces_written pieces all w :
  write_pieces pieces (written all) = Ok w → w = written (all ++ concat pieces).
Proof.
  revert all. induction pieces as [|piece pieces IH]; intros all; cbn.
  - intros [= <-]. by rewrite app_nil_r.
  - intros (w1 & ->%bounded_write_written & ->%IH)%result_bind_ok. by rewrite app_assoc.
Qed.

Lemma serialize_ok r encoded n :
  serialize_response_bounded to_writer r max = Ok (encoded, n) →
  ∃ text, json r text ∧ encoded = take (N.to_nat max) text ∧ n = len text.
Proof.
  unfold serialize_response_bounded.
  intros (pieces & Hp & (w & Hw & [= <- <-])%result_bind_ok)%result_bind_ok.
  destruct (to_writer r) as [ps|] eqn:Hr; [|done]. injection Hp as <-.
  destruct (write_pieces _ _) as [w'|] eqn:Hw'; [|done]. injection Hw as <-.
  assert (bounded_writer_new max = written []) as Hn by (unfold written; by rewrite take_nil).
  rewrite Hn in Hw'. apply write_pieces_written in Hw' as ->. exists (concat ps). split; [by exists ps|done].
Qed.

Lemma take_all {A} (l : list A) : len l <= max → take (N.to_nat max) l = l.
Proof. intros H. apply take_ge. unfold len in H. lia. Qed.

Lemma bounded_response_frame_ok r frame :
  bounded_response_frame to_writer r max = Ok frame →
  ∃ text, frame = append_ndjson_delimiter text ∧ sent_text r text.
Proof.
  unfold bounded_response_frame.
  intros ([enc n] & (text & Hj & -> & ->)%serialize_ok & Hk)%result_bind_ok.
  destruct (N.leb_spec (len text) max) as [Hle|Hgt].
  { injection Hk as <-. exists text. rewrite take_all by done. split; [done|]. by split; [|left]. }
  apply result_bind_ok in Hk as ([enc n] & (text' & Hj' & -> & ->)%serialize_ok & Hk).
  destruct (N.ltb_spec max (len text')); [done|]. injection Hk as <-.
  exists text'. rewrite take_all by done. split; [done|]. split; [done|]. right. eauto.
Qed.

Lemma response_frames_wire responses frames :
  Forall2 (λ r f, bounded_response_frame to_writer r max = Ok f) responses frames →
  ∃ texts, concat frames = wire texts ∧ Forall2 sent_text responses texts.
Proof.
  induction 1 as [|r f rs fs Hf _ (texts & Hc & Ht)]; [by exists []|].
  apply bounded_response_frame_ok in Hf as (text & -> & Hs).
  exists (text :: texts). split; [|by constructor]. unfold wire. cbn. by rewrite Hc.
Qed.
End Sent.

(** ** The theorems *)

(** C14: However the bytes of a stream are cut into chunks, the client's
    decoder returns the frames of the whole stream: the lines, each without one
    trailing carriage return, valid UTF-8 and within the limit. It fails exactly
    when a line or the unfinished rest of the stream is refused, with the error
    of the first such line, and then for good (the frames that the pushes
    before the failing one returned are those of the stream up to there: the
    statement for the chunks before it); and at the end of the stream it
    reports an incomplete frame exactly when bytes are left over. The stream is
    shorter than the address space. *)
Theorem ndjson_decoder_refines_reference max chunks d :
  decoder_new max = Ok d → len (concat chunks) < USIZE_MAX →
  match push_all chunks d, decode_reference max (concat chunks) with
  | (Ok frames, d'), Ok (frames', rest) =>
      frames = frames' ∧
      fst (finish d') = if bool_decide (rest = []) then Ok () else Err IncompleteFrame
  | (Err error, d'), Err error' =>
      error = error' ∧ finish d' = (Err error, d') ∧
      ∀ chunk, push chunk d' = (Err error, d')
  | _, _ => False
  end.
Proof.
  unfold decoder_new. intros Hd Hlen. inv_result. simplify_eq.
  pose proof (push_all_reference max [] chunks) as Hp. cbn in Hp.
  specialize (Hp ltac:(constructor) ltac:(by destruct max) Hlen).
  change (mkNdjsonDecoder [] max 0 false None) with (ready max []).
  destruct (decode_reference max (concat chunks)) as [[frames rest]|error].
  - by rewrite Hp.
  - destruct Hp as (d & -> & Hf). unfold finish, push. by rewrite Hf.
Qed.

(** C20: Texts cross the wire unchanged in both directions. The client, with
    any chunking of the frames the daemon wrote for some responses, decodes one
    text per response and then a clean end: the serialized response, or the
    error that reports its size where it exceeds the limit. The daemon's reader
    returns the serialized requests whose frames the client wrote, and then
    stops at the end of the stream. Serialized JSON has no raw line break and is
    valid UTF-8, and the streams are shorter than the address space. *)
Theorem ndjson_round_trip to_writer max d responses frames chunks requests request_frames :
  (∀ r pieces, to_writer r = Ok pieces → line_safe (concat pieces)) →
  decoder_new max = Ok d →
  Forall2 (λ r f, bounded_response_frame to_writer r max = Ok f) responses frames →
  concat chunks = concat frames → len (concat frames) < USIZE_MAX →
  Forall line_safe requests →
  Forall2 (λ r f, request_frame r max = Ok f) requests request_frames →
  len (concat request_frames) < USIZE_MAX →
  (∃ texts d', push_all chunks d = (Ok texts, d') ∧ fst (finish d') = Ok () ∧
     Forall2 (sent_text to_writer max) responses texts) ∧
  stdin_lines (S (length (concat request_frames))) max (concat request_frames) =
    (requests, Some (Ok ())).
Proof.
  intros Hjson Hd Hresp Hchunks Hlen Hsafe Hreq Hrlen. split.
  - apply response_frames_wire in Hresp as (texts & Hw & Hsent).
    unfold decoder_new in Hd. inv_result. simplify_eq.
    pose proof (push_all_reference max [] chunks) as Hp. cbn in Hp.
    rewrite Hchunks, Hw in *. specialize (Hp ltac:(constructor) ltac:(by destruct max) Hlen).
    rewrite reference_wire in Hp.
    + exists texts, (ready max []). by split.
    + apply (Forall2_Forall_r _ _ _ _ Hsent), Forall_true. intros r text [Hl Hs].
      split; [|done]. destruct Hs as [(ps & Hps & ->)|(full & _ & _ & ps & Hps & ->)]; eauto.
  - assert (concat request_frames = wire requests ∧ Forall (λ t, len t <= max) requests)
      as [Hw Hl].
    { clear -Hreq. induction Hreq as [|r f rs fs Hf _ [Hw Hl]]; [done|].
      unfold request_frame in Hf. inv_result. simplify_eq. inv_bools.
      unfold wire in *. cbn. rewrite Hw. split; [done|]. by constructor; [lia|]. }
    rewrite Hw in *. apply stdin_lines_wire; [by apply Forall_and|done|].
    clear. induction requests as [|r rs IH]; [cbn; lia|].
    rewrite wire_cons, length_app. cbn. lia.
Qed.

(** ** Examples *)

Lemma ndjson_decoder_refines_reference_witness :
  ∃ d, decoder_new 3 = Ok d ∧
    fst (push_all [[0x61; 0x62; 0x63; CARRIAGE_RETURN]; [NEWLINE; 0x64]] d) =
      Ok [[0x61; 0x62; 0x63]].
Proof.
  eexists. split; [reflexivity|].
  pose proof (ndjson_decoder_refines_reference 3
    [[0x61; 0x62; 0x63; CARRIAGE_RETURN]; [NEWLINE; 0x64]] _ eq_refl eq_refl) as H.
  destruct (push_all _ _) as [[frames|] d'], (decode_reference _ _) as [[frames' rest]|] eqn:Hr;
    try contradiction; vm_compute in Hr; [|discriminate Hr].
  injection Hr as <- <-. destruct H as [-> _]. reflexivity.
Defined.

(** A serializer that writes a null result in two pieces and any other result
    in more bytes than fit. *)
Definition sample_to_writer (r : RpcResponse) : result () (list (list N)) :=
  match r with
  | RpcSuccess _ JNull => Ok [[0x7B]; [0x7D]]
  | RpcSuccess _ _ => Ok [[0x22; 0x61; 0x62]; [0x63; 0x22]]
  | RpcFailure _ _ => Ok [[0x7B; 0x30; 0x7D]]
  end.

Lemma sample_to_writer_safe r pieces :
  sample_to_writer r = Ok pieces → line_safe (concat pieces).
Proof.
  destruct r as [id []|id e]; intros [= <-];
    (split; [repeat constructor; discriminate|split; reflexivity]).
Qed.

Lemma ndjson_round_trip_witness :
  ∃ d texts d', decoder_new 4 = Ok d ∧
    push_all [[0x7B]; [0x7D; NEWLINE; 0x7B; 0x30]; [0x7D; NEWLINE]] d = (Ok texts, d') ∧
    fst (finish d') = Ok () ∧ length texts = 2%nat.
Proof.
  set (one := RpcSuccess (RpcString "1") JNull).
  set (two := RpcSuccess (RpcString "2") (JBool true)).
  destruct (ndjson_round_trip sample_to_writer 4 _ [one; two]
    [[0x7B; 0x7D; NEWLINE]; [0x7B; 0x30; 0x7D; NEWLINE]]
    [[0x7B]; [0x7D; NEWLINE; 0x7B; 0x30]; [0x7D; NEWLINE]]
    [[0x7B; 0x7D]] [[0x7B; 0x7D; NEWLINE]]
    sample_to_writer_safe eq_refl) as [(texts & d' & Hp & Hf & Ht) _].
  - repeat constructor.
  - reflexivity.
  - reflexivity.
  - repeat constructor; discriminate.
  - repeat constructor.
  - reflexivity.
  - eexists _, texts, d'. split; [reflexivity|]. split; [exact Hp|]. split; [exact Hf|].
    apply Forall2_length in Ht. symmetry. exact Ht.
Defined.
