(* ===== verification/EventClient.v ===== *)
(** * The client's event stream

    [crates/client/src/event_stream.rs] and the notifications of
    [crates/protocol/src/stream.rs]. A stream is the state its socket actor and
    its owner share, the bounded queue between them, and the progress of both:
    the actor handles one WebSocket item at a time, and [next] takes an item
    from the queue and accounts for it under the lock in a second step.

    The text of a message is opaque: its type, its length and its strict
    decoding are parameters. *)

From stdpp Require Import pretty.
From S2P Require Import Prelude Protocol Handshake EventStream.

Local Open Scope N_scope.

(** ** Stream notifications *)

Record EventStreamCursor := mkEventStreamCursor {
  ec_stream_epoch : Uuid;
  ec_session_id : SessionId;
  ec_sequence : EventSequence;
}.

#[global] Instance EventStreamCursor_eq_dec : EqDecision EventStreamCursor.
Proof. solve_decision. Defined.

Record EventsSubscribeParams := mkEventsSubscribeParams {
  su_session_id : SessionId;
  su_after_cursor : option EventStreamCursor;
}.

Record EventsSubscribeResult := mkEventsSubscribeResult {
  sr_subscription_id : Uuid;
  sr_session_id : SessionId;
  sr_replay_through : EventStreamCursor;
  sr_session_state : SessionState;
}.

Record EventsStreamEventParams := mkEventsStreamEventParams {
  ep_subscription_id : Uuid;
  ep_cursor : EventStreamCursor;
  ep_event : TestEvent;
}.

Inductive EventsStreamTermination :=
| ST_SessionEnded
| ST_Cancelled
| ST_SlowConsumer (error : ErrorInfo)
| ST_SessionDeleted (error : ErrorInfo)
| ST_ServerShutdown (error : ErrorInfo)
| ST_SequenceGap (error : ErrorInfo)
| ST_EventTooLarge (error : ErrorInfo)
| ST_InternalError (error : ErrorInfo).

Record EventsStreamTerminalParams := mkEventsStreamTerminalParams {
  tp_subscription_id : Uuid;
  tp_session_id : SessionId;
  tp_last_emitted_cursor : option EventStreamCursor;
  tp_termination : EventsStreamTermination;
}.

(** [RpcServerMessage] with [RpcServerNotification] *)
Inductive RpcServerMessage :=
| Response
| EventNotification (params : EventsStreamEventParams)
| TerminalNotification (params : EventsStreamTerminalParams).

Module Client.

(** ** Data *)

(** [EventStreamError]; the error of a failed call, its payload aside *)
Inductive EventStreamError :=
| ClientFailed (code message : string)
| InvalidEndpoint (reason : string)
| Transport (reason : string)
| Timeout (phase : string)
| ProtocolViolation (reason : string)
| Cursor (reason : string)
| QueueOverflow (max_events max_bytes : N)
| RemoteTermination (termination : EventsStreamTermination)
| WasCancelled
| StillActive
| NotDrained.

Definition MAX_MESSAGE_BYTES : N := 1024 * 1024.
Definition MAX_QUEUED_EVENTS : N := 64.
Definition MAX_QUEUED_BYTES : N := 4 * 1024 * 1024.

(** Durations in nanoseconds *)
Definition seconds (n : N) : N := n * 1000000000.

(** [EventStreamOptions], the origin policy aside *)
Record EventStreamOptions := mkEventStreamOptions {
  op_max_message_bytes : N;
  op_max_queued_events : N;
  op_max_queued_bytes : N;
  op_setup_timeout : N;
  op_write_timeout : N;
  op_close_grace : N;
}.

Record EventStreamItem := mkEventStreamItem {
  it_cursor : EventStreamCursor;
  it_event : TestEvent;
}.

Record QueuedEvent := mkQueuedEvent {
  qe_bytes : N;
  qe_item : EventStreamItem;
}.

Inductive Completion :=
| Active
| Remote
| FailedWith (error : EventStreamError)
| Cancelled.

Definition is_active (c : Completion) : bool :=
  match c with Active => true | _ => false end.

Record StreamState := mkStreamState {
  ss_completion : Completion;
  ss_received_cursor : option EventStreamCursor;
  ss_last_received_was_session_end : bool;
  ss_delivered_cursor : option EventStreamCursor;
  ss_confirmed_cursor : option EventStreamCursor;
  ss_terminal : option EventsStreamTerminalParams;
  ss_queued_bytes : N;
}.

(** [StreamState::new] *)
Definition stream_state_new (after_cursor : option EventStreamCursor) : StreamState :=
  mkStreamState Active None false after_cursor after_cursor None 0.

(** The socket actor: in its loop, past it and still holding the sender, or
    gone *)
Inductive Actor := Running | Closing | Gone.

#[global] Instance Actor_eq_dec : EqDecision Actor.
Proof. solve_decision. Defined.

(** [DeviceRailEventStream] with what its actor was started with, the channel
    between them, and the item [next] has received and not yet accounted for *)
Record DeviceRailEventStream := mkDeviceRailEventStream {
  st_session_id : SessionId;
  st_stream_epoch : Uuid;
  st_selected_protocol : ProtocolVersion;
  st_subscription : EventsSubscribeResult;
  st_after_cursor : option EventStreamCursor;
  st_options : EventStreamOptions;
  st_state : StreamState;
  st_queue : list QueuedEvent;
  st_taken : option QueuedEvent;
  st_actor : Actor;
}.

Definition set_state (f : StreamState → StreamState) (s : DeviceRailEventStream)
    : DeviceRailEventStream :=
  mkDeviceRailEventStream (st_session_id s) (st_stream_epoch s) (st_selected_protocol s)
    (st_subscription s) (st_after_cursor s) (st_options s) (f (st_state s)) (st_queue s)
    (st_taken s) (st_actor s).
Definition set_queue (queue : list QueuedEvent) (taken : option QueuedEvent)
    (s : DeviceRailEventStream) : DeviceRailEventStream :=
  mkDeviceRailEventStream (st_session_id s) (st_stream_epoch s) (st_selected_protocol s)
    (st_subscription s) (st_after_cursor s) (st_options s) (st_state s) queue taken (st_actor s).
Definition set_actor (actor : Actor) (s : DeviceRailEventStream) : DeviceRailEventStream :=
  mkDeviceRailEventStream (st_session_id s) (st_stream_epoch s) (st_selected_protocol s)
    (st_subscription s) (st_after_cursor s) (st_options s) (st_state s) (st_queue s)
    (st_taken s) actor.

Definition set_completion_to (c : Completion) (s : StreamState) : StreamState :=
  mkStreamState c (ss_received_cursor s) (ss_last_received_was_session_end s)
    (ss_delivered_cursor s) (ss_confirmed_cursor s) (ss_terminal s) (ss_queued_bytes s).
Definition set_received (cursor : EventStreamCursor) (session_end : bool) (s : StreamState)
    : StreamState :=
  mkStreamState (ss_completion s) (Some cursor) session_end
    (ss_delivered_cursor s) (ss_confirmed_cursor s) (ss_terminal s) (ss_queued_bytes s).
Definition set_delivered (cursor : EventStreamCursor) (s : StreamState) : StreamState :=
  mkStreamState (ss_completion s) (ss_received_cursor s) (ss_last_received_was_session_end s)
    (Some cursor) (ss_confirmed_cursor s) (ss_terminal s) (ss_queued_bytes s).
Definition set_confirmed (cursor : EventStreamCursor) (s : StreamState) : StreamState :=
  mkStreamState (ss_completion s) (ss_received_cursor s) (ss_last_received_was_session_end s)
    (ss_delivered_cursor s) (Some cursor) (ss_terminal s) (ss_queued_bytes s).
Definition set_queued_bytes (bytes : N) (s : StreamState) : StreamState :=
  mkStreamState (ss_completion s) (ss_received_cursor s) (ss_last_received_was_session_end s)
    (ss_delivered_cursor s) (ss_confirmed_cursor s) (ss_terminal s) bytes.
Definition set_terminal (terminal : EventsStreamTerminalParams) (s : StreamState)
    : StreamState :=
  mkStreamState Remote (ss_received_cursor s) (ss_last_received_was_session_end s)
    (ss_delivered_cursor s) (ss_confirmed_cursor s) (Some terminal) (ss_queued_bytes s).

Abbreviation CM := (M DeviceRailEventStream EventStreamError).

(** ** Opening *)

(** [validate_duration] *)
Definition validate_duration (value maximum : N) (name : string)
    : result EventStreamError () :=
  reject_if ((value =? 0) || (maximum <? value))
    (ProtocolViolation (name +:+ " must be between 1ns and " +:+
       pretty (maximum / 1000000) +:+ "ms")).

(** [EventStreamOptions::validate]; [origin] is the check of the origin policy *)
Definition options_validate (origin : result EventStreamError ()) (o : EventStreamOptions)
    : result EventStreamError () :=
  check! reject_if ((op_max_message_bytes o =? 0) || (MAX_MESSAGE_BYTES <? op_max_message_bytes o))
    (ProtocolViolation ("max_message_bytes must be between 1 and " +:+ pretty MAX_MESSAGE_BYTES));
  check! reject_if ((op_max_queued_events o =? 0) || (MAX_QUEUED_EVENTS <? op_max_queued_events o))
    (ProtocolViolation ("max_queued_events must be between 1 and " +:+ pretty MAX_QUEUED_EVENTS));
  check! reject_if ((op_max_queued_bytes o =? 0) || (MAX_QUEUED_BYTES <? op_max_queued_bytes o))
    (ProtocolViolation ("max_queued_bytes must be between 1 and " +:+ pretty MAX_QUEUED_BYTES));
  check! validate_duration (op_setup_timeout o) (seconds 30) "setup_timeout";
  check! validate_duration (op_write_timeout o) (seconds 30) "write_timeout";
  check! validate_duration (op_close_grace o) (seconds 30) "close_grace";
  origin.

(** [validate_after_cursor] *)
Definition validate_after_cursor (params : EventsSubscribeParams) : result EventStreamError () :=
  reject_if (match su_after_cursor params with
             | Some cursor => negb (ec_session_id cursor =? su_session_id params)
             | None => false
             end) (Cursor "after_cursor belongs to another Session").

(** [validate_subscription] *)
Definition validate_subscription (subscription : EventsSubscribeResult)
    (session_id : SessionId) (stream_epoch : Uuid) (after_cursor : option EventStreamCursor)
    : result EventStreamError () :=
  check! reject_if (negb (sr_session_id subscription =? session_id) ||
      negb (ec_session_id (sr_replay_through subscription) =? session_id) ||
      negb (ec_stream_epoch (sr_replay_through subscription) =? stream_epoch))
    (Cursor "events.subscribe returned a cursor for another Session or epoch");
  reject_if (match after_cursor with
             | Some cursor => ec_sequence (sr_replay_through subscription) <? ec_sequence cursor
             | None => false
             end) (Cursor "events.subscribe replay boundary precedes after_cursor").

(** [normalize_subscribe_error] *)
Definition normalize_subscribe_error (e : EventStreamError) : EventStreamError :=
  match e with
  | ClientFailed code message =>
      if String.eqb code "stream_cursor_epoch_mismatch" then Cursor message else e
  | _ => e
  end.

(** [open_socket], from the answers of the daemon on: the epoch of the
    capability, the checked hello, and the answer to [events.subscribe] *)
Definition open_socket (params : EventsSubscribeParams) (stream_epoch : Uuid)
    (hello : result EventStreamError ())
    (subscribed : result EventStreamError EventsSubscribeResult)
    : result EventStreamError EventsSubscribeResult :=
  check! hello;
  subscription ← map_err normalize_subscribe_error subscribed;
  check! validate_subscription subscription (su_session_id params) stream_epoch
    (su_after_cursor params);
  Ok subscription.

(** [DeviceRailClient::open_event_stream]; [opened] is what [open_socket]
    returned in time, with the epoch of the capability *)
Definition open_event_stream (origin : result EventStreamError ())
    (selected_protocol : ProtocolVersion) (params : EventsSubscribeParams)
    (options : EventStreamOptions)
    (opened : result EventStreamError (Uuid * EventsSubscribeResult))
    : result EventStreamError DeviceRailEventStream :=
  check! options_validate origin options;
  check! validate_after_cursor params;
  check! reject_if (negb (pv_major selected_protocol =? 1) || (pv_minor selected_protocol <? 3))
    (ProtocolViolation "event streams require a negotiated protocol of at least 1.3");
  '(stream_epoch, subscription) ← opened;
  Ok (mkDeviceRailEventStream (su_session_id params) stream_epoch selected_protocol subscription
    (su_after_cursor params) options (stream_state_new (su_after_cursor params)) [] None Running).

(** ** The socket actor *)

(** [next_sequence] *)
Definition next_sequence (previous : option EventSequence) : result EventStreamError EventSequence :=
  match previous with
  | Some sequence =>
      ok_or (EventSequence.checked_next sequence)
        (Cursor "event sequence cannot advance past its wire limit")
  | None => Ok EventSequence.FIRST
  end.

(** [set_completion] *)
Definition set_completion (c : Completion) (s : StreamState) : StreamState :=
  if is_active (ss_completion s) then set_completion_to c s else s.

(** The sequence number the stream is continuous up to *)
Definition received_through (s : DeviceRailEventStream) : option EventSequence :=
  match ss_received_cursor (st_state s) with
  | Some cursor => Some (ec_sequence cursor)
  | None => ec_sequence <$> st_after_cursor s
  end.

(** [accept_event]; the receiver of the queue lives as long as the stream *)
Definition accept_event (params : EventsStreamEventParams) (bytes : N) : CM bool :=
  s ← get;
  let cursor := ep_cursor params in
  let event := ep_event params in
  let options := st_options s in
  let overflow := QueueOverflow (op_max_queued_events options) (op_max_queued_bytes options) in
  fail_if! negb (ep_subscription_id params =? sr_subscription_id (st_subscription s))
    with ProtocolViolation "event notification identifies another subscription";
  fail_if! negb (ec_session_id cursor =? st_session_id s) ||
      negb (ec_stream_epoch cursor =? st_stream_epoch s) ||
      negb (ev_session_id event =? st_session_id s) ||
      negb (ev_sequence event =? ec_sequence cursor)
    with Cursor "event notification cursor, event, Session, or epoch do not agree";
  fail_if! pv_minor (st_selected_protocol s) <? required_protocol_minor (ev_payload event)
    with ProtocolViolation ("event sequence " +:+ pretty (EventSequence.get (ec_sequence cursor)) +:+
      " requires protocol 1." +:+ pretty (required_protocol_minor (ev_payload event)) +:+
      ", but the stream selected " +:+ pretty (pv_major (st_selected_protocol s)) +:+ "." +:+
      pretty (pv_minor (st_selected_protocol s)));
  expected ← lift (next_sequence (received_through s));
  fail_if! negb (ec_sequence cursor =? expected)
    with Cursor ("received sequence " +:+ pretty (EventSequence.get (ec_sequence cursor)) +:+
      " does not follow " +:+ pretty (EventSequence.get expected - 1));
  check! modify (set_state (set_received cursor (is_session_ended (ev_payload event))));
  next_bytes ← lift (ok_or (usize_checked_add (ss_queued_bytes (st_state s)) bytes) overflow);
  fail_if! op_max_queued_bytes options <? next_bytes with overflow;
  fail_if! op_max_queued_events options <=? len (st_queue s) with overflow;
  check! modify (λ s, set_state (set_queued_bytes next_bytes)
    (set_queue (st_queue s ++ [mkQueuedEvent bytes (mkEventStreamItem cursor event)]) (st_taken s) s));
  mret false.

Definition is_session_end (t : EventsStreamTermination) : bool :=
  match t with ST_SessionEnded => true | _ => false end.

(** [accept_terminal] *)
Definition accept_terminal (terminal : EventsStreamTerminalParams) : CM () :=
  s ← get;
  let subscription := st_subscription s in
  let shared := st_state s in
  fail_if! negb (tp_subscription_id terminal =? sr_subscription_id subscription) ||
      negb (tp_session_id terminal =? st_session_id s)
    with ProtocolViolation "terminal notification identifies another subscription";
  fail_if! (match tp_last_emitted_cursor terminal with
            | Some cursor => negb (ec_session_id cursor =? st_session_id s) ||
                             negb (ec_stream_epoch cursor =? st_stream_epoch s)
            | None => false
            end)
    with Cursor "terminal cursor belongs to another Session or epoch";
  fail_if! negb (bool_decide (tp_last_emitted_cursor terminal = ss_received_cursor shared))
    with Cursor "terminal cursor does not equal the continuous received prefix";
  check! (if is_session_end (tp_termination terminal) then
    fail_if! (match received_through s with
              | Some sequence => sequence <? ec_sequence (sr_replay_through subscription)
              | None => true
              end)
      with Cursor "normal terminal stopped before the subscription replay boundary";
    let replay_was_already_confirmed :=
      bool_decide (sr_session_state subscription = Ended) &&
      bool_decide (ss_received_cursor shared = None) &&
      bool_decide (st_after_cursor s = Some (sr_replay_through subscription)) in
    fail_if! negb replay_was_already_confirmed && negb (ss_last_received_was_session_end shared)
      with ProtocolViolation "normal Session termination did not follow a sessionEnded event";
    mret ()
  else mret ());
  modify (set_state (set_terminal terminal)).

(** [break] out of the actor's loop *)
Definition stop (c : Completion) (s : DeviceRailEventStream) : DeviceRailEventStream :=
  set_actor Closing (set_state (set_completion c) s).

Section Actor.
Context {Text : Type} (text_len : Text → N) (decode : Text → result string RpcServerMessage).

(** What the [select] of the actor yields: the cancellation, or an item of the
    socket. A ping comes with the outcome of writing the pong. *)
Inductive SocketItem :=
| SocketCancelled
| SocketText (text : Text)
| SocketPing (pong : result EventStreamError ())
| SocketPong
| SocketClose
| SocketBinary
| SocketError (error : EventStreamError)
| SocketEnd.

(** The handling of one text message *)
Definition handle_text (text : Text) : CM bool :=
  s ← get;
  let bytes := text_len text in
  fail_if! op_max_message_bytes (st_options s) <? bytes
    with ProtocolViolation ("event WebSocket message is " +:+ pretty bytes +:+
      " bytes; the limit is " +:+ pretty (op_max_message_bytes (st_options s)));
  message ← lift (map_err (λ reason,
    ProtocolViolation ("event WebSocket message is invalid: " +:+ reason)) (decode text));
  match message with
  | Response => throw (ProtocolViolation "event WebSocket sent a response after subscription")
  | EventNotification params => accept_event params bytes
  | TerminalNotification params => check! accept_terminal params; mret true
  end.

(** [stream_actor]: one turn of its loop *)
Definition stream_actor (item : SocketItem) (s : DeviceRailEventStream)
    : DeviceRailEventStream :=
  match item with
  | SocketCancelled => stop Cancelled s
  | SocketText text =>
      match handle_text text s with
      | (Ok true, s') => set_actor Closing s'
      | (Ok false, s') => s'
      | (Err e, s') => stop (FailedWith e) s'
      end
  | SocketPing (Err e) => stop (FailedWith e) s
  | SocketPing (Ok _) | SocketPong => s
  | SocketClose => stop (FailedWith (Transport "event WebSocket closed before a typed terminal")) s
  | SocketBinary => stop (FailedWith
      (ProtocolViolation "event WebSocket application messages must be UTF-8 text")) s
  | SocketError e => stop (FailedWith e) s
  | SocketEnd => stop (FailedWith (Transport "event WebSocket ended before a typed terminal")) s
  end.
End Actor.

(** ** The owner's operations *)

(** What [receiver.recv] yields: an item, or the end of a queue whose sender is
    gone; nothing while it waits *)
Definition next_receive (s : DeviceRailEventStream)
    : option (option QueuedEvent * DeviceRailEventStream) :=
  match st_queue s with
  | queued :: queue => Some (Some queued, set_queue queue (Some queued) s)
  | [] => if bool_decide (st_actor s = Gone) then Some (None, s) else None
  end.

(** The rest of [DeviceRailEventStream::next], under the lock *)
Definition next_account (received : option QueuedEvent) : CM (option EventStreamItem) :=
  match received with
  | Some queued =>
      check! modify (λ s, set_queue (st_queue s) None
        (set_state (λ shared, set_queued_bytes (ss_queued_bytes shared - qe_bytes queued) shared) s));
      s ← get;
      let sequence := ec_sequence (it_cursor (qe_item queued)) in
      expected ← lift (next_sequence (ec_sequence <$> ss_delivered_cursor (st_state s)));
      if negb (sequence =? expected) then
        let error := Cursor ("delivered sequence " +:+ pretty (EventSequence.get sequence) +:+
          " does not follow " +:+ pretty (EventSequence.get expected - 1)) in
        check! modify (set_state (set_completion_to (FailedWith error)));
        throw error
      else
        check! modify (set_state (set_delivered (it_cursor (qe_item queued))));
        mret (Some (qe_item queued))
  | None =>
      s ← get;
      match ss_completion (st_state s) with
      | Active =>
          let error := ProtocolViolation
            "event stream queue closed without an explicit terminal" in
          check! modify (set_state (set_completion_to (FailedWith error)));
          throw error
      | Remote =>
          terminal ← lift (ok_or (ss_terminal (st_state s))
            (ProtocolViolation "remote event stream completion omitted its terminal"));
          match tp_termination terminal with
          | ST_SessionEnded => mret None
          | termination => throw (RemoteTermination termination)
          end
      | FailedWith error => throw error
      | Cancelled => throw WasCancelled
      end
  end.

(** [DeviceRailEventStream::confirm] *)
Definition confirm (cursor : EventStreamCursor) : CM EventStreamCursor :=
  s ← get;
  fail_if! negb (ec_session_id cursor =? st_session_id s) ||
      negb (ec_stream_epoch cursor =? st_stream_epoch s)
    with Cursor "confirmed cursor belongs to another event stream";
  expected ← lift (next_sequence (ec_sequence <$> ss_confirmed_cursor (st_state s)));
  fail_if! negb (ec_sequence cursor =? expected)
    with Cursor ("confirmed sequence " +:+ pretty (EventSequence.get (ec_sequence cursor)) +:+
      " is not the contiguous next sequence " +:+ pretty (EventSequence.get expected));
  fail_if! (match ss_delivered_cursor (st_state s) with
            | Some delivered => ec_sequence delivered <? ec_sequence cursor
            | None => true
            end)
    with Cursor "an event must be delivered before it can be confirmed";
  check! modify (set_state (set_confirmed cursor));
  mret cursor.

(** [DeviceRailEventStream::cancel], once the actor has stopped or was aborted *)
Definition cancel (s : DeviceRailEventStream) : DeviceRailEventStream :=
  set_actor Gone (set_queue [] (st_taken s)
    (set_state (λ shared, set_completion Cancelled (set_queued_bytes 0 shared)) s)).

(** [DeviceRailEventStream::resume]: what it opens the next stream with *)
Definition resume : CM EventsSubscribeParams :=
  s ← get;
  fail_if! is_active (ss_completion (st_state s)) with StillActive;
  fail_if! negb (len (st_queue s) =? 0) with NotDrained;
  check! modify (set_actor Gone);
  mret (mkEventsSubscribeParams (st_session_id s) (ss_confirmed_cursor (st_state s))).

End Client.
