(* ===== verification/EventClientProps.v ===== *)
(** * The client's event stream is continuous

    Whatever the daemon sends, the items [next] returns continue the cursor the
    stream was opened with, confirmations follow deliveries one by one, the
    queue respects its limits, and a clean end is reported only after the whole
    Session. *)

From S2P Require Import Prelude Protocol Handshake EventStream EventClient.
Import Client.

Local Open Scope N_scope.

(** ** Positions *)

Definition number (after : option EventStreamCursor) : N := cursor (ec_sequence <$> after).

Definition cursor_after (after : option EventStreamCursor) (l : list EventStreamItem)
    : option EventStreamCursor :=
  match last l with Some item => Some (it_cursor item) | None => after end.

Definition cursor_of (epoch : Uuid) (event : TestEvent) : EventStreamCursor :=
  mkEventStreamCursor epoch (ev_session_id event) (ev_sequence event).

Definition item_ok (epoch : Uuid) (item : EventStreamItem) : Prop :=
  it_cursor item = cursor_of epoch (it_event item) ∧
  ev_sequence (it_event item) <= MAX_SAFE_INTEGER.

(** Items that follow a cursor *)
Definition follow (sid : SessionId) (epoch : Uuid) (after : option EventStreamCursor)
    (l : list EventStreamItem) : Prop :=
  continues sid (number after) (it_event <$> l) ∧ Forall (item_ok epoch) l.

Lemma cursor_after_snoc after l item : cursor_after after (l ++ [item]) = Some (it_cursor item).
Proof. unfold cursor_after. by rewrite last_snoc. Qed.

Lemma follow_number sid epoch after l :
  follow sid epoch after l → number (cursor_after after l) = number after + len l.
Proof.
  intros [Hc Ho]. destruct l as [|item l _] using rev_ind; [unfold cursor_after, len; cbn; lia|].
  rewrite cursor_after_snoc. apply Forall_app in Ho as [_ [[-> _] _]%Forall_cons].
  rewrite fmap_app in Hc. apply continues_app in Hc as [_ (_ & Hq & _)].
  change (number (Some (cursor_of epoch (it_event item)))) with (ev_sequence (it_event item)).
  rewrite Hq. unfold len. rewrite length_fmap, length_app. cbn [length]. lia.
Qed.

Lemma follow_snoc sid epoch after l item :
  follow sid epoch after (l ++ [item]) ↔
  follow sid epoch after l ∧ ev_session_id (it_event item) = sid ∧
  ev_sequence (it_event item) = number after + len l + 1 ∧ item_ok epoch item.
Proof.
  unfold follow. rewrite fmap_app, continues_app, Forall_app, Forall_singleton. unfold len.
  rewrite length_fmap. cbn. naive_solver.
Qed.

Lemma follow_app sid epoch after l k : follow sid epoch after (l ++ k) → follow sid epoch after l.
Proof. intros [Hc Ho]. rewrite fmap_app, continues_app in Hc. apply Forall_app in Ho as [? _]. by split; [apply Hc|]. Qed.

Lemma follow_take sid epoch after l k : follow sid epoch after l → follow sid epoch after (take k l).
Proof. intros H. rewrite <-(take_drop k l) in H. by apply follow_app in H. Qed.

Lemma next_sequence_ok previous expected :
  next_sequence previous = Ok expected ↔
  expected = cursor previous + 1 ∧ expected <= MAX_SAFE_INTEGER.
Proof.
  unfold next_sequence, cursor. destruct previous as [p|].
  - destruct (EventSequence.checked_next p) as [n|] eqn:Hn; cbn.
    + apply checked_next_some in Hn as [-> Hn]. naive_solver.
    + split; [done|]. intros [-> H]. assert (EventSequence.checked_next p = Some (p + 1))
        by by apply checked_next_some. congruence.
  - unfold EventSequence.FIRST, MAX_SAFE_INTEGER. split; [intros [= <-]; lia|]. intros [-> _]. done.
Qed.

(** ** The invariant *)

Definition pending (s : DeviceRailEventStream) : list QueuedEvent :=
  option_list (st_taken s) ++ st_queue s.

Definition items (delivered : list EventStreamItem) (s : DeviceRailEventStream)
    : list EventStreamItem :=
  delivered ++ (qe_item <$> pending s).

Definition queued_bytes (l : list QueuedEvent) : N := foldr (λ q n, qe_bytes q + n) 0 l.

Definition ends_session (l : list EventStreamItem) : bool :=
  match last l with Some item => is_session_ended (ev_payload (it_event item)) | None => false end.

(** All of an ended Session: past the replay boundary, up to its last event *)
Definition complete (s : DeviceRailEventStream) (l : list EventStreamItem) : Prop :=
  ec_sequence (sr_replay_through (st_subscription s)) <= number (st_after_cursor s) + len l ∧
  (ends_session l = true ∨
   l = [] ∧ sr_session_state (st_subscription s) = Ended ∧
   st_after_cursor s = Some (sr_replay_through (st_subscription s))).

Record stream_ok (delivered : list EventStreamItem) (cancelled : bool)
    (s : DeviceRailEventStream) : Prop := {
  so_items : follow (st_session_id s) (st_stream_epoch s) (st_after_cursor s) (items delivered s);
  so_delivered : ss_delivered_cursor (st_state s) = cursor_after (st_after_cursor s) delivered;
  so_confirmed : ∃ k, (k <= length delivered)%nat ∧
    ss_confirmed_cursor (st_state s) = cursor_after (st_after_cursor s) (take k delivered);
  so_bytes : ss_queued_bytes (st_state s) = queued_bytes (pending s);
  so_max_bytes : ss_queued_bytes (st_state s) <= op_max_queued_bytes (st_options s);
  so_max_events : len (st_queue s) <= op_max_queued_events (st_options s);
  so_running : st_actor s = Running ↔ ss_completion (st_state s) = Active;
  so_received : st_actor s = Running →
    ss_received_cursor (st_state s) = it_cursor <$> last (items delivered s) ∧
    ss_last_received_was_session_end (st_state s) = ends_session (items delivered s);
  so_remote : ss_completion (st_state s) = Remote → ∃ terminal,
    ss_terminal (st_state s) = Some terminal ∧
    (is_session_end (tp_termination terminal) = true → cancelled = false →
     complete s (items delivered s));
}.

Lemma stream_state_new_ok sid epoch protocol subscription after options :
  stream_ok [] false (mkDeviceRailEventStream sid epoch protocol subscription after options
    (stream_state_new after) [] None Running).
Proof.
  split; cbn; try done.
  - by exists 0%nat.
  - apply N.le_0_l.
  - apply N.le_0_l.
Qed.

Lemma queued_bytes_app l k : queued_bytes (l ++ k) = queued_bytes l + queued_bytes k.
Proof. unfold queued_bytes. induction l as [|q l IH]; cbn; [lia|]. rewrite IH. lia. Qed.

(** ** The actor *)

Lemma received_through_number delivered cancelled s :
  stream_ok delivered cancelled s → st_actor s = Running →
  cursor (received_through s) = number (st_after_cursor s) + len (items delivered s).
Proof.
  intros Hok Hrun. destruct (so_received _ _ _ Hok Hrun) as [Hr _].
  rewrite <-(follow_number _ _ _ _ (so_items _ _ _ Hok)). unfold received_through, cursor_after, number.
  rewrite Hr. by destruct (last (items delivered s)).
Qed.

(** What [accept_event] checked of an event it took as the next one *)
Definition next_item (s : DeviceRailEventStream) (params : EventsStreamEventParams) : Prop :=
  ep_cursor params = cursor_of (st_stream_epoch s) (ep_event params) ∧
  ev_session_id (ep_event params) = st_session_id s ∧
  ev_sequence (ep_event params) = cursor (received_through s) + 1 ∧
  ev_sequence (ep_event params) <= MAX_SAFE_INTEGER.

Definition mark_received (params : EventsStreamEventParams) : DeviceRailEventStream → DeviceRailEventStream :=
  set_state (set_received (ep_cursor params) (is_session_ended (ev_payload (ep_event params)))).

Definition enqueue (params : EventsStreamEventParams) (bytes : N) (s : DeviceRailEventStream)
    : DeviceRailEventStream :=
  set_state (set_queued_bytes (ss_queued_bytes (st_state s) + bytes))
    (set_queue (st_queue s ++ [mkQueuedEvent bytes (mkEventStreamItem (ep_cursor params) (ep_event params))])
      (st_taken s) s).

Lemma accept_event_cases params bytes s r s' :
  accept_event params bytes s = (r, s') →
  match r with
  | Ok b => b = false ∧ next_item s params ∧ s' = enqueue params bytes (mark_received params s) ∧
      ss_queued_bytes (st_state s) + bytes <= op_max_queued_bytes (st_options s) ∧
      len (st_queue s) < op_max_queued_events (st_options s)
  | Err e => s' = s ∨ s' = mark_received params s
  end.
Proof.
  intros H. unfold accept_event in H. cbv zeta in H.
  destruct r as [b|e]; inv_run; auto.
  inv_bools. repeat match goal with H : (_ =? _) = true |- _ => apply N.eqb_eq in H end.
  match goal with H : next_sequence _ = Ok _ |- _ => apply next_sequence_ok in H as [-> Hmax] end.
  match goal with H : usize_checked_add _ _ = Some _ |- _ =>
    unfold usize_checked_add in H; case_match; simplify_eq end.
  split; [done|]. split.
  - destruct params as [? [epoch sid seq] event]. unfold next_item, cursor_of. cbn in *.
    split_and!; congruence || lia.
  - split; [done|]. lia.
Qed.

Lemma items_enqueue delivered params bytes s :
  items delivered (enqueue params bytes (mark_received params s)) =
  items delivered s ++ [mkEventStreamItem (ep_cursor params) (ep_event params)].
Proof. unfold items, pending. cbn. by rewrite !fmap_app, !app_assoc. Qed.

Lemma follow_next delivered cancelled s params :
  stream_ok delivered cancelled s → st_actor s = Running → next_item s params →
  follow (st_session_id s) (st_stream_epoch s) (st_after_cursor s)
    (items delivered s ++ [mkEventStreamItem (ep_cursor params) (ep_event params)]).
Proof.
  intros Hok Hrun (Hc & Hs & Hq & Hm). apply follow_snoc. split; [apply Hok|]. cbn.
  rewrite (received_through_number _ _ _ Hok Hrun) in Hq. done.
Qed.

Lemma enqueue_ok delivered cancelled s params bytes :
  stream_ok delivered cancelled s → st_actor s = Running → next_item s params →
  ss_queued_bytes (st_state s) + bytes <= op_max_queued_bytes (st_options s) →
  len (st_queue s) < op_max_queued_events (st_options s) →
  stream_ok delivered cancelled (enqueue params bytes (mark_received params s)).
Proof.
  intros Hok Hrun Hn Hb He. pose proof (follow_next _ _ _ _ Hok Hrun Hn) as Hf.
  pose proof (items_enqueue delivered params bytes s) as Hi. destruct Hok as [_ Hd Hcf Hby _ _ Ha _ Hrem].
  split; try done.
  - by rewrite Hi.
  - cbn. rewrite Hby. unfold pending. cbn. rewrite !queued_bytes_app. cbn. lia.
  - cbn. rewrite len_snoc. lia.
  - intros _. rewrite Hi. unfold ends_session. by rewrite last_snoc.
  - intros Hrm. cbn in Hrm. apply Ha in Hrun. congruence.
Qed.

(** Leaving the loop keeps everything but the received position. *)
Lemma stopped_ok delivered cancelled s s' c :
  stream_ok delivered cancelled s → st_actor s = Running →
  (s' = s ∨ ∃ params, s' = mark_received params s) → c ≠ Active → c ≠ Remote →
  stream_ok delivered cancelled (stop c s').
Proof.
  intros [Hi Hd Hcf Hby Hmb Hme Ha _ _] Hrun Hs Hc Hc'. pose proof (proj1 Ha Hrun) as Hact.
  destruct Hs as [->|[params ->]]; (split; try done; cbn; unfold set_completion; cbn; rewrite Hact; cbn;
    try done).
Qed.

(** What [accept_terminal] checked of a clean end *)
Definition clean_end (s : DeviceRailEventStream) : Prop :=
  (∃ sequence, received_through s = Some sequence ∧
    ec_sequence (sr_replay_through (st_subscription s)) <= sequence) ∧
  (ss_last_received_was_session_end (st_state s) = true ∨
   sr_session_state (st_subscription s) = Ended ∧ ss_received_cursor (st_state s) = None ∧
   st_after_cursor s = Some (sr_replay_through (st_subscription s))).

Lemma accept_terminal_cases terminal s r s' :
  accept_terminal terminal s = (r, s') →
  match r with
  | Ok _ => s' = set_state (set_terminal terminal) s ∧
      tp_last_emitted_cursor terminal = ss_received_cursor (st_state s) ∧
      (is_session_end (tp_termination terminal) = true → clean_end s)
  | Err e => s' = s
  end.
Proof.
  intros H. unfold accept_terminal in H. cbv zeta in H.
  destruct (is_session_end (tp_termination terminal)) eqn:Hend; destruct r as [u|e]; inv_run; try done;
    inv_bools. all: try match goal with H : bool_decide _ = true |- _ => apply bool_decide_eq_true in H end.
  all: split; [done|]. all: split; [done|]. 2: done.
  intros _. split.
  - destruct (received_through _) as [sequence|]; [|done]. exists sequence. split; [done|]. lia.
  - match goal with H : _ && _ = false |- _ => apply andb_false_iff in H as [H|H]; inv_bools end; [|by left].
    right. repeat match goal with H : bool_decide _ = true |- _ => apply bool_decide_eq_true in H end. done.
Qed.

Lemma terminal_ok delivered cancelled s terminal :
  stream_ok delivered cancelled s → st_actor s = Running →
  (is_session_end (tp_termination terminal) = true → clean_end s) →
  stream_ok delivered cancelled (set_actor Closing (set_state (set_terminal terminal) s)).
Proof.
  intros Hok Hrun Hend. pose proof (received_through_number _ _ _ Hok Hrun) as Hn.
  destruct Hok as [Hi Hd Hcf Hby Hmb Hme Ha Hr _]. split; try done.
  intros _. exists terminal. split; [done|]. intros He _. destruct (Hend He) as [(q & Hq & Hle) Hlast].
  rewrite Hq in Hn. change (cursor (Some q)) with q in Hn. destruct (Hr Hrun) as [Hrc Hse].
  split; [rewrite Hn in Hle; exact Hle|].
  destruct Hlast as [Hlast|(Hst & Hnone & Haft)]; [left; by rewrite <-Hlast, Hse|].
  right. split; [|done]. rewrite Hnone in Hrc.
  change (items delivered (set_actor Closing (set_state (set_terminal terminal) s))) with (items delivered s).
  destruct (items delivered s) as [|item l _] using rev_ind; [done|]. by rewrite last_snoc in Hrc.
Qed.

Section Actor.
Context {Text : Type} (text_len : Text → N) (decode : Text → result string RpcServerMessage).

Lemma handle_text_ok delivered cancelled s text :
  stream_ok delivered cancelled s → st_actor s = Running →
  match handle_text text_len decode text s with
  | (Ok true, s') => stream_ok delivered cancelled (set_actor Closing s')
  | (Ok false, s') => stream_ok delivered cancelled s' ∧ st_actor s' = Running
  | (Err e, s') => s' = s ∨ ∃ params, s' = mark_received params s
  end.
Proof.
  intros Hok Hrun. destruct (handle_text text_len decode text s) as [r s'] eqn:H.
  unfold handle_text in H. destruct (decode text) as [[|params|params]|reason]; cbn [map_err] in H;
    destruct r as [b|e]; inv_run; inv_run; auto.
  - match goal with H : accept_event _ _ _ = _ |- _ =>
      apply accept_event_cases in H as (-> & Hn & -> & Hb & He) end.
    split; [by apply enqueue_ok|done].
  - match goal with H : accept_event _ _ _ = _ |- _ =>
      apply accept_event_cases in H as [->| ->]; eauto end.
  - match goal with H : accept_terminal _ _ = _ |- _ =>
      apply accept_terminal_cases in H as (-> & _ & Hend) end.
    by apply terminal_ok.
  - match goal with H : accept_terminal _ _ = _ |- _ => apply accept_terminal_cases in H as -> end. auto.
Qed.

Lemma stream_actor_ok delivered cancelled s item :
  stream_ok delivered cancelled s → st_actor s = Running →
  stream_ok delivered cancelled (stream_actor text_len decode item s).
Proof.
  intros Hok Hrun. destruct item as [|text|[|]| | | | |]; cbn [stream_actor]; try done;
    try (by apply (stopped_ok _ _ s); auto).
  pose proof (handle_text_ok _ _ _ text Hok Hrun) as H.
  destruct (handle_text text_len decode text s) as [[[]|e] s']; [done|by destruct H|].
  by apply (stopped_ok _ _ s).
Qed.
End Actor.

(** ** The owner *)

Lemma next_receive_ok delivered cancelled s q s' :
  stream_ok delivered cancelled s → st_taken s = None →
  next_receive s = Some (Some q, s') → stream_ok delivered cancelled s' ∧ st_taken s' = Some q.
Proof.
  intros [Hi Hd Hcf Hby Hmb Hme Ha Hr Hrem] Ht H. unfold next_receive in H.
  destruct (st_queue s) as [|q' queue] eqn:Hq; [by case_bool_decide|]. simplify_eq.
  assert (pending (set_queue queue (Some q) s) = pending s) as Hp.
  { unfold pending. cbn. by rewrite Ht, Hq. }
  assert (items delivered (set_queue queue (Some q) s) = items delivered s) as Hit
    by (unfold items; by rewrite Hp).
  split; [|done]. split; rewrite ?Hit, ?Hp; try done.
  cbn. unfold len in *. cbn in Hme. lia.
Qed.

Definition account (q : QueuedEvent) (s : DeviceRailEventStream) : DeviceRailEventStream :=
  set_state (set_delivered (it_cursor (qe_item q)))
    (set_queue (st_queue s) None
      (set_state (λ shared, set_queued_bytes (ss_queued_bytes shared - qe_bytes q) shared) s)).

Lemma items_account delivered q s :
  st_taken s = Some q → items (delivered ++ [qe_item q]) (account q s) = items delivered s.
Proof. intros Ht. unfold items, pending, account. cbn. rewrite Ht. cbn. by rewrite <-app_assoc. Qed.

Lemma next_account_some delivered cancelled s q :
  stream_ok delivered cancelled s → st_taken s = Some q →
  next_account (Some q) s = (Ok (Some (qe_item q)), account q s) ∧
  stream_ok (delivered ++ [qe_item q]) cancelled (account q s).
Proof.
  intros [Hi Hd Hcf Hby Hmb Hme Ha Hr Hrem] Ht. pose proof (items_account delivered q s Ht) as Hit.
  assert (queued_bytes (pending s) = qe_bytes q + queued_bytes (st_queue s)) as Hb
    by (unfold pending; by rewrite Ht).
  assert (follow (st_session_id s) (st_stream_epoch s) (st_after_cursor s) (delivered ++ [qe_item q])) as Hf.
  { rewrite <-Hit in Hi. by apply follow_app in Hi. }
  pose proof Hf as (Hf0 & _ & Hq & [Hc Hmax])%follow_snoc. split.
  - unfold next_account, mbind, M_bind, modify, get, lift. cbn. rewrite Hd.
    assert (next_sequence (ec_sequence <$> cursor_after (st_after_cursor s) delivered) =
      Ok (ev_sequence (it_event (qe_item q)))) as ->.
    { apply next_sequence_ok. rewrite Hq in *. split; [|done].
      pose proof (follow_number _ _ _ _ Hf0) as Hn. unfold number in Hn at 1. by rewrite Hn. }
    unfold account. rewrite Hc. cbn [ec_sequence cursor_of]. rewrite N.eqb_refl. done.
  - split; rewrite ?Hit; try done.
    + cbn. by rewrite cursor_after_snoc.
    + destruct Hcf as (k & Hk & Hcf). exists k. rewrite length_app. split; [cbn; lia|].
      by rewrite take_app_le.
    + change (ss_queued_bytes (st_state s) - qe_bytes q = queued_bytes (st_queue s)). rewrite Hby, Hb. lia.
    + change (ss_queued_bytes (st_state s) - qe_bytes q <= op_max_queued_bytes (st_options s)). lia.
Qed.

(** [next] on a closed queue changes nothing, and reports a clean end only
    after the whole Session. *)
Lemma next_account_none delivered cancelled s r s' :
  stream_ok delivered cancelled s → st_actor s = Gone → pending s = [] →
  next_account None s = (r, s') →
  s' = s ∧ (r = Ok None → cancelled = false → complete s delivered).
Proof.
  intros Hok Hg Hp H. unfold next_account, mbind, M_bind, get in H. cbn in H.
  assert (items delivered s = delivered) as Hi by (unfold items; by rewrite Hp, app_nil_r).
  destruct (ss_completion (st_state s)) as [| |e|] eqn:Hc.
  - apply (so_running _ _ _ Hok) in Hc. congruence.
  - destruct (so_remote _ _ _ Hok Hc) as (t & Ht & Hend). rewrite Ht, Hi in *. cbn in H.
    destruct (tp_termination t) eqn:Htt; unfold throw, mret, M_ret in H; simplify_eq; (split; [done|]);
      intros ??; try done; by apply Hend.
  - unfold throw in H. by simplify_eq.
  - unfold throw in H. by simplify_eq.
Qed.

Lemma confirm_ok delivered cancelled s cursor r s' :
  stream_ok delivered cancelled s → confirm cursor s = (r, s') →
  match r with
  | Ok c => c = cursor ∧ s' = set_state (set_confirmed cursor) s ∧ stream_ok delivered cancelled s'
  | Err _ => s' = s
  end.
Proof.
  intros Hok H. unfold confirm in H. destruct r as [c|e]; inv_run; try done. inv_bools.
  match type of Hok with stream_ok _ _ ?x => rename x into s end.
  repeat match goal with H : (_ =? _) = true |- _ => apply N.eqb_eq in H end.
  match goal with H : next_sequence _ = Ok _ |- _ => apply next_sequence_ok in H as [Hseq _] end.
  destruct Hok as [Hi Hd (k & Hk & Hcf) Hby Hmb Hme Ha Hr Hrem]. split; [done|]. split; [done|].
  split; try done. cbn [ss_confirmed_cursor st_state set_state set_confirmed].
  pose proof (follow_app _ _ _ _ _ Hi) as Hfd.
  pose proof (follow_number _ _ _ _ (follow_take _ _ _ _ k Hfd)) as Hnk.
  pose proof (follow_number _ _ _ _ Hfd) as Hnd. unfold number in Hnk at 1, Hnd at 1. rewrite <-Hcf in Hnk.
  rewrite <-Hd in Hnd. rewrite Hnk in Hseq. unfold len in Hseq, Hnd. rewrite length_take_le in Hseq by done.
  assert (ec_sequence c <= cursor (ec_sequence <$> ss_delivered_cursor (st_state s))) as Hle.
  { destruct (ss_delivered_cursor (st_state s)); [cbn; lia|done]. }
  rewrite Hnd in Hle. assert (S k <= length delivered)%nat as Hk' by lia.
  exists (S k). split; [done|]. destruct (lookup_lt_is_Some_2 delivered k Hk') as [item Hit].
  rewrite (take_S_r _ _ _ Hit), cursor_after_snoc. destruct Hfd as [Hcont Hall].
  apply (Forall_lookup_1 _ _ _ _ Hall) in Hit as Hitem. destruct Hitem as [-> _].
  destruct (continues_lookup _ _ _ k (it_event item) Hcont) as [Hs Hq]; [by rewrite list_lookup_fmap, Hit|].
  destruct c as [epoch sid seq]. unfold cursor_of. cbn in *. f_equal. f_equal; [done|congruence|].
  congruence.
Qed.

Lemma cancel_ok delivered cancelled s :
  stream_ok delivered cancelled s → st_taken s = None → stream_ok delivered true (cancel s).
Proof.
  intros [Hi Hd Hcf _ _ _ Ha _ Hrem] Ht.
  assert (pending (cancel s) = []) as Hp by (unfold pending, cancel; cbn; by rewrite Ht).
  assert (items delivered (cancel s) = delivered) as Hit by (unfold items; by rewrite Hp, app_nil_r).
  assert (∀ {B} (f : StreamState → B), (∀ c sh, f (set_completion_to c sh) = f sh) →
    f (st_state (cancel s)) = f (set_queued_bytes 0 (st_state s))) as Hf.
  { intros B f Hf. unfold cancel, set_completion. cbn. case_match; [apply Hf|done]. }
  split; rewrite ?Hit, ?Hp.
  - by apply follow_app in Hi.
  - by rewrite (Hf _ ss_delivered_cursor).
  - by rewrite (Hf _ ss_confirmed_cursor).
  - by rewrite (Hf _ ss_queued_bytes).
  - rewrite (Hf _ ss_queued_bytes) by done. apply N.le_0_l.
  - apply N.le_0_l.
  - split; [done|]. unfold cancel, set_completion. cbn. destruct (ss_completion (st_state s)) eqn:Hc; cbn;
    rewrite ?Hc; done.
  - done.
  - unfold cancel, set_completion. cbn. destruct (ss_completion (st_state s)) eqn:Hc; cbn;
    rewrite ?Hc; try done.
    intros _. destruct (Hrem eq_refl) as (t & Htm & _). exists t. by split.
Qed.

Lemma resume_ok delivered cancelled s r s' :
  stream_ok delivered cancelled s → resume s = (r, s') →
  stream_ok delivered cancelled s' ∧
  ∀ params, r = Ok params → su_session_id params = st_session_id s ∧
    su_after_cursor params = ss_confirmed_cursor (st_state s).
Proof.
  intros Hok H. unfold resume in H. destruct r as [params|e]; inv_run; try done.
  split; [|by intros ? [= <-]]. destruct Hok as [Hi Hd Hcf Hby Hmb Hme Ha _ Hrem]. split; try done.
  split; [done|]. intros Hc. cbn in Hc.
  match goal with H : is_active _ = false |- _ => by rewrite Hc in H end.
Qed.

(** ** The stream as a system *)

Definition binding (s : DeviceRailEventStream) :=
  (st_session_id s, st_stream_epoch s, st_selected_protocol s, st_subscription s,
   st_after_cursor s, st_options s).

(** The stream, what [next] has returned, and whether [cancel] was called *)
Record Run := mkRun {
  run_stream : DeviceRailEventStream;
  run_delivered : list EventStreamItem;
  run_cancelled : bool;
}.

(** One operation of the owner at a time; [next] is two steps. *)
Inductive owner_step : Run → Run → Prop :=
| cs_receive s d c q s' :
    st_taken s = None → next_receive s = Some (Some q, s') →
    owner_step (mkRun s d c) (mkRun s' d c)
| cs_account s d c q r s' :
    st_taken s = Some q → next_account (Some q) s = (r, s') →
    owner_step (mkRun s d c)
      (mkRun s' (match r with Ok (Some item) => d ++ [item] | _ => d end) c)
| cs_end s d c s1 r s' :
    st_taken s = None → next_receive s = Some (None, s1) → next_account None s1 = (r, s') →
    owner_step (mkRun s d c) (mkRun s' d c)
| cs_confirm s d c cursor :
    st_taken s = None → owner_step (mkRun s d c) (mkRun (snd (confirm cursor s)) d c)
| cs_cancel s d c :
    st_taken s = None → owner_step (mkRun s d c) (mkRun (cancel s) d true)
| cs_resume s d c :
    st_taken s = None → owner_step (mkRun s d c) (mkRun (snd (resume s)) d c)
| cs_gone s d c :
    st_actor s = Closing → owner_step (mkRun s d c) (mkRun (set_actor Gone s) d c).

Definition run_ok (r : Run) : Prop := stream_ok (run_delivered r) (run_cancelled r) (run_stream r).

Lemma gone_ok delivered cancelled s :
  stream_ok delivered cancelled s → st_actor s = Closing → stream_ok delivered cancelled (set_actor Gone s).
Proof.
  intros [Hi Hd Hcf Hby Hmb Hme Ha _ Hrem] Hc. split; try done. split; [done|]. intros Hact.
  apply Ha in Hact. congruence.
Qed.

Lemma closed_queue s s1 :
  next_receive s = Some (None, s1) → s1 = s ∧ st_queue s = [] ∧ st_actor s = Gone.
Proof. unfold next_receive. destruct (st_queue s); [|done]. case_bool_decide; naive_solver. Qed.

Lemma owner_step_ok r r' : run_ok r → owner_step r r' → run_ok r'.
Proof.
  intros Hok Hstep. destruct Hstep as [s d c q s' Ht Hr|s d c q r s' Ht Hr|
    s d c s1 r s' Ht Hr Ha|s d c cursor Ht|s d c Ht|s d c Ht|s d c Hcl]; unfold run_ok in *; cbn [run_stream run_delivered run_cancelled] in *.
  - by eapply next_receive_ok.
  - destruct (next_account_some _ _ _ _ Hok Ht) as [He Hok']. rewrite He in Hr. by simplify_eq.
  - apply closed_queue in Hr as (-> & Hq & Hg).
    assert (pending s = []) as Hp by (unfold pending; by rewrite Ht, Hq).
    destruct (next_account_none _ _ _ _ _ Hok Hg Hp Ha) as [-> _]. done.
  - destruct (confirm cursor s) as [r s'] eqn:Hr. apply (confirm_ok _ _ _ _ _ _ Hok) in Hr.
    cbn. destruct r; [by destruct Hr as (_ & _ & ?)|by subst].
  - by eapply cancel_ok.
  - destruct (resume s) as [r s'] eqn:Hr. by apply (resume_ok _ _ _ _ _ Hok) in Hr as [? _].
  - by apply gone_ok.
Qed.

Section System.
Context {Text : Type} (text_len : Text → N) (decode : Text → result string RpcServerMessage).

(** The actor runs concurrently with the owner. *)
Inductive client_step : Run → Run → Prop :=
| cs_actor s d c item :
    st_actor s = Running →
    client_step (mkRun s d c) (mkRun (stream_actor text_len decode item s) d c)
| cs_owner r r' : owner_step r r' → client_step r r'.

Lemma client_step_ok r r' : run_ok r → client_step r r' → run_ok r'.
Proof.
  intros Hok Hstep. destruct Hstep as [s d c item Hrun|r r' Hs]; [|by eapply owner_step_ok].
  by apply (stream_actor_ok text_len decode).
Qed.

Lemma stream_actor_binding item s : binding (stream_actor text_len decode item s) = binding s.
Proof.
  destruct item as [|text|[|]| | | | |]; cbn [stream_actor]; try done.
  destruct (handle_text text_len decode text s) as [r s'] eqn:H.
  assert (binding s' = binding s) as Hb; [|by destruct r as [[]|]].
  unfold handle_text in H. destruct (decode text) as [[|params|params]|reason]; cbn [map_err] in H;
    destruct r as [b|e]; inv_run; inv_run; auto.
  - match goal with H : accept_event _ _ _ = _ |- _ => by apply accept_event_cases in H as (_ & _ & -> & _) end.
  - match goal with H : accept_event _ _ _ = _ |- _ => by apply accept_event_cases in H as [->| ->] end.
  - match goal with H : accept_terminal _ _ = _ |- _ => by apply accept_terminal_cases in H as (-> & _) end.
  - match goal with H : accept_terminal _ _ = _ |- _ => by apply accept_terminal_cases in H as -> end.
Qed.

Lemma owner_step_binding r r' :
  run_ok r → owner_step r r' → binding (run_stream r') = binding (run_stream r).
Proof.
  intros Hok Hstep. destruct Hstep as [s d c q s' Ht Hr|s d c q r s' Ht Hr|
    s d c s1 r s' Ht Hr Ha|s d c cursor Ht|s d c Ht|s d c Ht|s d c Hcl]; unfold run_ok in *; cbn [run_stream run_delivered run_cancelled] in *; try done.
  - unfold next_receive in Hr. destruct (st_queue s); [by case_bool_decide|]. by simplify_eq.
  - destruct (next_account_some _ _ _ _ Hok Ht) as [He _]. rewrite He in Hr. by simplify_eq.
  - apply closed_queue in Hr as (-> & Hq & Hg).
    assert (pending s = []) as Hp by (unfold pending; by rewrite Ht, Hq).
    by destruct (next_account_none _ _ _ _ _ Hok Hg Hp Ha) as [-> _].
  - destruct (confirm cursor s) as [r s'] eqn:Hr. apply (confirm_ok _ _ _ _ _ _ Hok) in Hr.
    cbn. destruct r; [by destruct Hr as (_ & -> & _)|by subst].
  - unfold resume, mbind, M_bind, get, lift, reject_if. cbn. by repeat (case_match; cbn).
Qed.

Lemma client_step_binding r r' :
  run_ok r → client_step r r' → binding (run_stream r') = binding (run_stream r).
Proof.
  intros Hok Hstep. destruct Hstep as [s d c item Hrun|r r' Hs]; [apply stream_actor_binding|by apply owner_step_binding].
Qed.

Lemma client_steps_keep r r' :
  run_ok r → rtc client_step r r' → run_ok r' ∧ binding (run_stream r') = binding (run_stream r).
Proof.
  intros Hok Hs. revert Hok. induction Hs as [|r r1 r2 Hs _ IH]; [done|]. intros Hok.
  destruct (IH (client_step_ok _ _ Hok Hs)) as [? ->]. by rewrite (client_step_binding _ _ Hok Hs).
Qed.
End System.

(** C34: the client's event stream, whatever the peer sends and however the
    actor and the owner interleave. The items [next] returns belong to the
    Session and epoch of the stream and continue, one by one, the cursor it was
    opened with; an item taken from the queue is always delivered. The
    confirmed cursor is that of a delivered item, or the one the stream was
    opened with, so that [resume] neither skips nor precedes what was confirmed.
    The queue respects both of its limits. As long as [cancel] was not called,
    [next] reports a clean end only after everything up to the last event of the
    ended Session; after [cancel] it may report a clean end earlier (see
    [cancelled_stream_ends_cleanly] in EventStreamExamples.v). *)
Theorem event_stream_is_continuous {Text : Type} (text_len : Text → N)
    (decode : Text → result string RpcServerMessage) origin protocol params options opened s0 s d c :
  open_event_stream origin protocol params options opened = Ok s0 →
  rtc (client_step text_len decode) (mkRun s0 [] false) (mkRun s d c) →
  let after := su_after_cursor params in
  follow (su_session_id params) (st_stream_epoch s0) after d ∧
  (∀ q, st_taken s = Some q → fst (next_account (Some q) s) = Ok (Some (qe_item q))) ∧
  (∃ k, (k <= length d)%nat ∧ ss_confirmed_cursor (st_state s) = cursor_after after (take k d) ∧
    ∀ again s', resume s = (Ok again, s') →
      again = mkEventsSubscribeParams (su_session_id params) (cursor_after after (take k d))) ∧
  len (st_queue s) <= op_max_queued_events options ∧
  queued_bytes (pending s) <= op_max_queued_bytes options ∧
  (∀ s', st_taken s = None → next_receive s = Some (None, s') →
    fst (next_account None s') = Ok None → c = false → complete s0 d).
Proof.
  intros Hopen Hrun. unfold open_event_stream in Hopen. inv_result.
  match goal with H : (let '(_, _) := ?x in _) = Ok _ |- _ => destruct x as [epoch sub] end. inv_result.
  destruct (client_steps_keep text_len decode (mkRun _ [] false) _
    (stream_state_new_ok _ _ _ _ _ _) Hrun) as [Hok Hb].
  cbn in Hb. unfold binding in Hb. cbn in Hb. injection Hb as Hsid Hep _ Hsub Haft Hopt.
  unfold run_ok in Hok. cbn [run_stream run_delivered run_cancelled] in Hok. cbn [st_stream_epoch su_after_cursor].
  pose proof (so_items _ _ _ Hok) as Hi. rewrite Hsid, Hep, Haft in Hi.
  split; [by apply follow_app in Hi|]. split.
  { intros q Ht. by destruct (next_account_some _ _ _ _ Hok Ht) as [-> _]. }
  split.
  { destruct (so_confirmed _ _ _ Hok) as (k & Hk & Hc). rewrite Haft in Hc. exists k. split; [done|]. split; [done|].
    intros again s' Hres. pose proof (proj2 (resume_ok _ _ _ _ _ Hok Hres) again eq_refl) as [Hs1 Hs2].
    destruct again. cbn in *. congruence. }
  rewrite <-(so_bytes _ _ _ Hok), <-Hopt. split; [apply Hok|]. split; [apply Hok|].
  intros s' Ht Hr Hend Hcan. apply closed_queue in Hr as (-> & Hq & Hg).
  assert (pending s = []) as Hp by (unfold pending; by rewrite Ht, Hq).
  destruct (next_account None s) as [r s'] eqn:Hacc.
  destruct (next_account_none _ _ _ _ _ Hok Hg Hp Hacc) as [_ Hcomp]. cbn in Hend.
  specialize (Hcomp Hend Hcan). unfold complete in *. cbn. by rewrite <-Hsub, <-Haft.
Qed.
