(* ===== verification/EventServer.v ===== *)
(** * The daemon's event stream

    [crates/websocket-transport/src/connection.rs] and [queue.rs] from the
    subscription on: a feeder task that serializes the events of a core
    subscription into a bounded queue, and the socket loop that writes the
    queue and then one terminal notification.

    A text is the list of the pieces serde writes; their type and length, and
    the pieces of a message, are parameters. What the receiver of the
    subscription polls, time-outs and the outcomes of socket writes are
    arguments. *)

From S2P Require Import Prelude Protocol Handshake Framing EventStream EventStore EventClient.

Local Open Scope N_scope.

Module Server.

Definition MAX_MESSAGE_BYTES : N := 1024 * 1024.
Definition U32_MAX : N := 4294967295.

(** ** Terminations *)

(** [error_termination] *)
Definition error_termination (reason code message : string) (retryable : bool)
    (details : option Json) : EventsStreamTermination :=
  let error := mkErrorInfo code message retryable details in
  if String.eqb reason "slowConsumer" then ST_SlowConsumer error
  else if String.eqb reason "sessionDeleted" then ST_SessionDeleted error
  else if String.eqb reason "serverShutdown" then ST_ServerShutdown error
  else if String.eqb reason "sequenceGap" then ST_SequenceGap error
  else if String.eqb reason "eventTooLarge" then ST_EventTooLarge error
  else ST_InternalError error.

Definition json_number (n : N) : Json := JNumber (PosInt n).
Definition json_version (major minor : N) : Json :=
  JObject [("major", json_number major); ("minor", json_number minor)].

(** [map_core_terminal] *)
Definition map_core_terminal (terminal : EventStreamTerminal) : EventsStreamTermination :=
  match terminal with
  | TermSessionEnded _ => ST_SessionEnded
  | TermSessionDeleted last_sequence =>
      error_termination "sessionDeleted" "stream_session_deleted"
        "the streamed Session was deleted" false
        (Some (JObject [("lastSequence", json_number last_sequence)]))
  | TermTailLagged last_delivered missed_events =>
      error_termination "slowConsumer" "stream_slow_consumer"
        "subscriber fell behind the bounded Core tail" true
        (Some (JObject
          [("lastDelivered", match last_delivered with
                             | Some sequence => json_number sequence | None => JNull end);
           ("missedEvents", json_number missed_events)]))
  | TermStoreShutdown =>
      error_termination "serverShutdown" "stream_server_shutdown"
        "event stream server is shutting down" true None
  | TermSessionMismatch _ _ | TermSequenceGap _ _ =>
      error_termination "sequenceGap" "stream_sequence_gap"
        "Core event stream lost its continuous sequence invariant" false None
  end.

Definition internal_error (message : string) : EventsStreamTermination :=
  error_termination "internalError" "stream_internal_error" message false None.

(** ** Subscribing *)

Definition SESSION_ERROR : Z := -32006.
Definition STREAM_ERROR : Z := -32013.

(** [stream_rpc_error] *)
Definition stream_rpc_error (code message : string) (retryable : bool) (details : option Json)
    : RpcError :=
  rpc_error STREAM_ERROR code message retryable details.

(** [core_stream_error] *)
Definition core_stream_error (uuid_text : Uuid → string) (error : EventStreamError) : RpcError :=
  match error with
  | StreamSessionNotFound session_id =>
      rpc_error SESSION_ERROR "session_not_found" "event stream Session was not found" false
        (Some (JObject [("sessionId", JString (uuid_text session_id))]))
  | StreamSessionDeleted session_id =>
      stream_rpc_error "stream_session_deleted" "event stream Session was already deleted" false
        (Some (JObject [("sessionId", JString (uuid_text session_id))]))
  | StreamCursorAhead _ after last_sequence =>
      stream_rpc_error "stream_cursor_ahead" "event cursor is ahead of the Session head" false
        (Some (JObject [("afterSequence", json_number after);
                        ("lastSequence", json_number last_sequence)]))
  | ReplayLimitExceeded _ requested maximum =>
      stream_rpc_error "stream_cursor_too_old"
        "event replay suffix exceeds the bounded replay limit" true
        (Some (JObject [("maximumEvents", json_number maximum);
                        ("requestedEvents", json_number requested)]))
  | TooManySubscribers _ maximum =>
      stream_rpc_error "stream_subscription_limit" "Session reached its event subscriber limit" true
        (Some (JObject [("maximumSubscribers", json_number maximum)]))
  | StreamStoreShutdown =>
      stream_rpc_error "stream_server_shutdown" "event stream server is shutting down" true None
  | InvalidConfig _ _ _ | StreamInternal _ =>
      stream_rpc_error "stream_internal_error" "event stream Core failed" false None
  end.

(** [subscribe], from the decoded parameters on; [receiver_count] and
    [reserve_error] are those of [subscribe_after] *)
Definition subscribe (uuid_text : Uuid → string) (receiver_count : N)
    (reserve_error : option string) (events : MemoryEventStore) (stream_epoch : Uuid)
    (granted_session : SessionId) (params : EventsSubscribeParams)
    : result RpcError EventSubscription :=
  check! reject_if (negb (su_session_id params =? granted_session))
    (stream_rpc_error "stream_cursor_session_mismatch"
      "stream capability and subscription identify different Sessions" false None);
  after ← match su_after_cursor params with
    | None => Ok None
    | Some cursor =>
        if (ec_session_id cursor =? granted_session) && (ec_stream_epoch cursor =? stream_epoch)
        then Ok (Some (ec_sequence cursor))
        else if negb (ec_session_id cursor =? granted_session)
        then Err (stream_rpc_error "stream_cursor_session_mismatch"
          "event cursor belongs to another Session" false None)
        else Err (stream_rpc_error "stream_cursor_epoch_mismatch"
          "event cursor belongs to another daemon lifetime" true None)
    end;
  map_err (core_stream_error uuid_text)
    (subscribe_after uuid_text receiver_count reserve_error events granted_session after).

(** The answer to [events.subscribe] *)
Definition subscribe_result (stream_epoch subscription_id : Uuid) (session_id : SessionId)
    (subscription : EventSubscription) : EventsSubscribeResult :=
  mkEventsSubscribeResult subscription_id session_id
    (mkEventStreamCursor stream_epoch session_id (sub_replay_through subscription))
    (sub_session_state subscription).

Section Server.
Context {Chunk : Type} (chunk_len : Chunk → N) (chunks : RpcServerMessage → list Chunk).

Definition Text : Type := list Chunk.
Definition text_len (text : Text) : N := foldr (λ c n, chunk_len c + n) 0 text.

(** ** Serialization *)

Inductive EventSerializationError :=
| TooLarge (observed_bytes_at_least : N)
| SerializationFailed.

Record CappedWriter := mkCappedWriter {
  cw_bytes : Text;
  cw_limit : N;
  cw_overflow_at : option N;
}.

(** [CappedWriter::write]: [false] is an error *)
Definition capped_write (buffer : Chunk) (w : CappedWriter) : bool * CappedWriter :=
  let next_len := usize_saturating_add (text_len (cw_bytes w)) (chunk_len buffer) in
  if cw_limit w <? next_len
  then (false, mkCappedWriter (cw_bytes w) (cw_limit w) (Some next_len))
  else (true, mkCappedWriter (cw_bytes w ++ [buffer]) (cw_limit w) (cw_overflow_at w)).

(** [serde_json::to_writer]: the pieces in order, up to the first error *)
Fixpoint to_writer (pieces : list Chunk) (w : CappedWriter) : bool * CappedWriter :=
  match pieces with
  | [] => (true, w)
  | piece :: pieces =>
      let '(ok, w) := capped_write piece w in
      if ok then to_writer pieces w else (false, w)
  end.

(** [CappedWriter::finish] *)
Definition capped_finish (w : CappedWriter) : result EventSerializationError Text :=
  match cw_overflow_at w with
  | Some observed_bytes_at_least => Err (TooLarge observed_bytes_at_least)
  | None => Ok (cw_bytes w)
  end.

(** [serialize_event_notification] *)
Definition serialize_event_notification (params : EventsStreamEventParams) (limit : N)
    : result EventSerializationError Text :=
  let '(ok, writer) := to_writer (chunks (EventNotification params)) (mkCappedWriter [] limit None) in
  if ok then capped_finish writer
  else match capped_finish writer with
       | Err error => Err error
       | Ok _ => Err SerializationFailed
       end.

(** ** State *)

(** The feeder task: in its loop, waiting for room in the queue, past the loop
    with its termination, past [terminal.send], or gone *)
Inductive Feeder :=
| Feeding
| Offering (bytes : Text) (cursor : EventStreamCursor)
| Terminating (termination : EventsStreamTermination)
| Published
| FeederGone.

(** The oneshot channel of the termination *)
Inductive Slot := SlotEmpty | SlotSent (termination : EventsStreamTermination) | SlotDropped.

(** The loop of [stream_events]: at its head, between the first two branches of
    its [select], or left *)
Inductive SocketLoop := AtHead | TerminalPending | Left.

Record EventServer := mkEventServer {
  es_stream_epoch : Uuid;
  es_session_id : SessionId;
  es_subscription_id : Uuid;
  es_selected_protocol : ProtocolVersion;
  es_max_queued_events : N;
  es_max_queued_bytes : N;
  es_subscription : EventSubscription;
  es_feeder : Feeder;
  es_slot : Slot;
  es_queue : list (Text * EventStreamCursor);
  es_receiver_closed : bool;
  es_loop : SocketLoop;
  es_terminal : option EventsStreamTermination;
  es_last_emitted : option EventStreamCursor;
}.

Definition set_feeder (feeder : Feeder) (slot : Slot) (sub : EventSubscription) (s : EventServer)
    : EventServer :=
  mkEventServer (es_stream_epoch s) (es_session_id s) (es_subscription_id s)
    (es_selected_protocol s) (es_max_queued_events s) (es_max_queued_bytes s) sub feeder slot
    (es_queue s) (es_receiver_closed s) (es_loop s) (es_terminal s) (es_last_emitted s).
Definition set_queue (queue : list (Text * EventStreamCursor)) (s : EventServer) : EventServer :=
  mkEventServer (es_stream_epoch s) (es_session_id s) (es_subscription_id s)
    (es_selected_protocol s) (es_max_queued_events s) (es_max_queued_bytes s) (es_subscription s)
    (es_feeder s) (es_slot s) queue (es_receiver_closed s) (es_loop s) (es_terminal s)
    (es_last_emitted s).
Definition set_loop (closed : bool) (loop : SocketLoop) (terminal : option EventsStreamTermination)
    (last_emitted : option EventStreamCursor) (s : EventServer) : EventServer :=
  mkEventServer (es_stream_epoch s) (es_session_id s) (es_subscription_id s)
    (es_selected_protocol s) (es_max_queued_events s) (es_max_queued_bytes s) (es_subscription s)
    (es_feeder s) (es_slot s) (es_queue s) closed loop terminal last_emitted.

(** ** The feeder *)

(** The event arm of [spawn_feeder] up to the queue *)
Definition feed_event (event : TestEvent) (s : EventServer) : Feeder :=
  let protocol := es_selected_protocol s in
  let required_minor := required_protocol_minor (ev_payload event) in
  if negb (pv_major protocol =? 1) || (pv_minor protocol <? required_minor) then
    Terminating (error_termination "internalError" "stream_event_protocol_incompatible"
      "an event requires a newer negotiated protocol version" false
      (Some (JObject
        [("requiredProtocol", json_version 1 required_minor);
         ("selectedProtocol", json_version (pv_major protocol) (pv_minor protocol));
         ("sequence", json_number (ev_sequence event))])))
  else
    let cursor := mkEventStreamCursor (es_stream_epoch s) (es_session_id s) (ev_sequence event) in
    match serialize_event_notification
            (mkEventsStreamEventParams (es_subscription_id s) cursor event) MAX_MESSAGE_BYTES with
    | Ok bytes => Offering bytes cursor
    | Err (TooLarge observed_bytes_at_least) =>
        Terminating (error_termination "eventTooLarge" "stream_event_too_large"
          "one event exceeds the WebSocket message limit" false
          (Some (JObject [("limitBytes", json_number MAX_MESSAGE_BYTES);
                          ("observedBytesAtLeast", json_number observed_bytes_at_least)])))
    | Err SerializationFailed => Terminating (internal_error "event serialization failed")
    end.

(** [spawn_feeder]: one call of [EventSubscription::next] *)
Definition spawn_feeder (poll : TryRecv) (wait : option Recv) (s : EventServer) : EventServer :=
  match next poll wait (es_subscription s) with
  | (NextReturns (Some (ItemEvent event)), sub) => set_feeder (feed_event event s) (es_slot s) sub s
  | (NextReturns (Some (ItemTerminal terminal)), sub) =>
      set_feeder (Terminating (map_core_terminal terminal)) (es_slot s) sub s
  | (NextReturns None, sub) =>
      set_feeder (Terminating (internal_error "Core event subscription ended without a terminal"))
        (es_slot s) sub s
  | (NextPending, sub) => s
  | (NextPanics, sub) => set_feeder FeederGone SlotDropped sub s
  end.

Inductive QueueError := QueueClosed | QueueSlowConsumer.

(** [EventQueueSender::send]; [stalled] says that one of its waits timed out,
    and [None] that it is still waiting. A turn of the socket loop takes an
    event and writes it; the permit for its bytes is kept until the write has
    ended, and so is given back by the turn. A send during the write comes
    after the turn, and [stalled] when it does not get its permit in time. *)
Definition queue_send (stalled : bool) (bytes : Text) (cursor : EventStreamCursor) (s : EventServer)
    : option (result QueueError (list (Text * EventStreamCursor))) :=
  if U32_MAX <? text_len bytes then Some (Err QueueSlowConsumer)
  else if stalled then Some (Err QueueSlowConsumer)
  else if es_receiver_closed s then Some (Err QueueClosed)
  else if (es_max_queued_bytes s <?
             foldr (λ e n, text_len e.1 + n) 0 (es_queue s) + text_len bytes) ||
          (es_max_queued_events s <=? len (es_queue s)) then None
  else Some (Ok (es_queue s ++ [(bytes, cursor)])).

(** The arm of [spawn_feeder] for the outcome of [send] *)
Definition feed_sent (stalled : bool) (bytes : Text) (cursor : EventStreamCursor) (s : EventServer)
    : option EventServer :=
  match queue_send stalled bytes cursor s with
  | None => None
  | Some (Ok queue) => Some (set_feeder Feeding (es_slot s) (es_subscription s) (set_queue queue s))
  | Some (Err QueueSlowConsumer) =>
      Some (set_feeder (Terminating (error_termination "slowConsumer" "stream_slow_consumer"
        "subscriber exceeded its bounded queue" true None)) (es_slot s) (es_subscription s) s)
  | Some (Err QueueClosed) => Some (set_feeder FeederGone SlotDropped (es_subscription s) s)
  end.

(** The last two statements of [spawn_feeder] *)
Definition feed_publish (termination : EventsStreamTermination) (s : EventServer) : EventServer :=
  set_feeder Published (SlotSent termination) (es_subscription s) s.
Definition feed_drop (s : EventServer) : EventServer :=
  set_feeder FeederGone (es_slot s) (es_subscription s) s.

(** ** The socket loop *)

Definition sender_gone (s : EventServer) : bool :=
  match es_feeder s with FeederGone => true | _ => false end.

(** The channel is closed once its sender is gone or its receiver was closed *)
Definition queue_closed (s : EventServer) : bool := sender_gone s || es_receiver_closed s.

(** What wakes the loop when neither a termination nor an event is ready *)
Inductive Wake :=
| WakeShutdown
| WakePing (pong : bool)
| WakePong
| WakeGone
| WakeUnexpected.

(** The outcome of writing a text within the write timeout; the text may still
    reach the peer when the write is reported as failed *)
Inductive Write := Written | WriteFailed (arrives : bool).

Definition arrived (write : Write) (text : Text) : list Text :=
  match write with WriteFailed false => [] | _ => [text] end.

(** Writing an event and remembering it; a failed write leaves the loop *)
Definition emit (write : Write) (event : Text * EventStreamCursor)
    (queue : list (Text * EventStreamCursor)) (s : EventServer) : list Text * EventServer :=
  (arrived write event.1,
   match write with
   | Written => set_loop (es_receiver_closed s) AtHead (es_terminal s) (Some event.2)
                  (set_queue queue s)
   | WriteFailed _ => set_loop (es_receiver_closed s) Left (es_terminal s) (es_last_emitted s)
                        (set_queue queue s)
   end).

(** [send_terminal_and_close] *)
Definition send_terminal_and_close (write : Write) (termination : EventsStreamTermination)
    (s : EventServer) : list Text * EventServer :=
  (arrived write (chunks (TerminalNotification (mkEventsStreamTerminalParams (es_subscription_id s)
     (es_session_id s) (es_last_emitted s) termination))),
   set_loop (es_receiver_closed s) Left (es_terminal s) (es_last_emitted s) s).

Definition with_terminal (closed : bool) (termination : EventsStreamTermination) (s : EventServer)
    : EventServer :=
  set_loop closed AtHead (Some termination) (es_last_emitted s) s.

(** [stream_events], one turn of its loop, with what it wrote; [None] while it
    waits. [write] is the outcome of a write. The [select] is biased: it polls
    the termination, and in a later moment the queue, before anything else. *)
Definition stream_events (write : Write) (wake : option Wake) (s : EventServer)
    : option (list Text * EventServer) :=
  match es_loop s with
  | Left => None
  | AtHead =>
      match es_terminal s with
      | Some termination =>
          match es_queue s with
          | event :: queue => Some (emit write event queue s)
          | [] => if queue_closed s then Some (send_terminal_and_close write termination s) else None
          end
      | None =>
          match es_slot s with
          | SlotSent termination => Some ([], with_terminal (es_receiver_closed s) termination s)
          | SlotDropped => Some ([], with_terminal (es_receiver_closed s)
              (internal_error "event stream feeder stopped unexpectedly") s)
          | SlotEmpty =>
              Some ([], set_loop (es_receiver_closed s) TerminalPending None (es_last_emitted s) s)
          end
      end
  | TerminalPending =>
      match es_queue s with
      | event :: queue => Some (emit write event queue s)
      | [] =>
          if queue_closed s then Some ([], with_terminal (es_receiver_closed s)
            (internal_error "event stream queue closed without a terminal") s)
          else
            match wake with
            | Some WakeShutdown => Some ([], with_terminal true
                (error_termination "serverShutdown" "stream_server_shutdown"
                   "event stream server is shutting down" true None) s)
            | Some (WakePing true) | Some WakePong | None =>
                Some ([], set_loop (es_receiver_closed s) AtHead None (es_last_emitted s) s)
            | Some (WakePing false) | Some WakeGone | Some WakeUnexpected =>
                Some ([], set_loop (es_receiver_closed s) Left None (es_last_emitted s) s)
            end
      end
  end.

(** [stream_events] and [spawn_feeder] when they start *)
Definition server_new (stream_epoch subscription_id : Uuid) (session_id : SessionId)
    (selected_protocol : ProtocolVersion) (max_queued_events max_queued_bytes : N)
    (subscription : EventSubscription) : EventServer :=
  mkEventServer stream_epoch session_id subscription_id selected_protocol max_queued_events
    max_queued_bytes subscription Feeding SlotEmpty [] false AtHead None None.
End Server.
End Server.
