(* ===== verification/EventServerProps.v ===== *)
(** * What the daemon writes

    The feeder and the socket loop of one stream, as they interleave: the
    events written, queued and still to come make up what the core subscription
    yields, in order, and a clean terminal follows all of it. *)

From S2P Require Import Prelude Protocol Handshake Framing EventStream EventStore Subscription.
From S2P Require Import EventClient EventClientProps EventServer.
Import Server.

Local Open Scope N_scope.

Section Props.
Context {Chunk : Type} (chunk_len : Chunk → N) (chunks : RpcServerMessage → list Chunk).

(** ** Serialization *)

Lemma text_len_app l k : text_len chunk_len (l ++ k) = text_len chunk_len l + text_len chunk_len k.
Proof. unfold text_len. induction l as [|c l IH]; cbn; [lia|]. rewrite IH. lia. Qed.

(** The capped writer takes a text exactly when it fits, and otherwise reports
    a length between the limit and that of the text. *)
Lemma to_writer_spec pieces w :
  cw_limit w < USIZE_MAX → cw_overflow_at w = None →
  if text_len chunk_len (cw_bytes w ++ pieces) <=? cw_limit w
  then to_writer chunk_len pieces w = (true, mkCappedWriter (cw_bytes w ++ pieces) (cw_limit w) None)
  else text_len chunk_len (cw_bytes w) <= cw_limit w →
    ∃ observed w', to_writer chunk_len pieces w = (false, w') ∧ cw_overflow_at w' = Some observed ∧
    cw_limit w < observed <= text_len chunk_len (cw_bytes w ++ pieces).
Proof.
  revert w. induction pieces as [|piece pieces IH]; intros w Hlim Hno.
  { rewrite app_nil_r. case_match; [|lia]. by destruct w; cbn in *; subst. }
  cbn [to_writer]. unfold capped_write, usize_saturating_add. rewrite text_len_app.
  assert (text_len chunk_len (piece :: pieces) = chunk_len piece + text_len chunk_len pieces) as Hc by done.
  destruct (N.ltb_spec (cw_limit w)
    (N.min (text_len chunk_len (cw_bytes w) + chunk_len piece) USIZE_MAX)) as [Hgt|Hle].
  - case_match; [lia|]. intros Hfit. eexists _, _. split; [done|]. split; [done|]. cbn. lia.
  - specialize (IH (mkCappedWriter (cw_bytes w ++ [piece]) (cw_limit w) (cw_overflow_at w)) Hlim Hno).
    cbn [cw_bytes cw_limit cw_overflow_at] in IH. rewrite <-app_assoc, !text_len_app in IH. cbn [app] in IH.
    rewrite Hc. change (text_len chunk_len [piece]) with (chunk_len piece + 0) in IH. rewrite N.add_0_r in IH.
    case_match; [done|]. intros _. apply IH. lia.
Qed.

Lemma serialize_event_notification_ok params limit bytes :
  limit < USIZE_MAX →
  serialize_event_notification chunk_len chunks params limit = Ok bytes ↔
  bytes = chunks (EventNotification params) ∧ text_len chunk_len bytes <= limit.
Proof.
  intros Hlim. unfold serialize_event_notification.
  pose proof (to_writer_spec (chunks (EventNotification params)) (mkCappedWriter [] limit None) Hlim eq_refl) as H.
  cbn [cw_bytes cw_limit app] in H.
  destruct (N.leb_spec (text_len chunk_len (chunks (EventNotification params))) limit).
  - rewrite H. cbn. naive_solver.
  - destruct H as (n & w' & -> & Hn & _); [apply N.le_0_l|]. unfold capped_finish. rewrite Hn. naive_solver lia.
Qed.

(** ** The invariant *)

Context (log : list TestEvent) (final : NextResult).
Context (epoch subscription : Uuid) (sid : SessionId) (protocol : ProtocolVersion).
Context (log_session : Forall (λ e, ev_session_id e = sid) log).

(** An event as it is written *)
Definition notification (e : TestEvent) : RpcServerMessage :=
  EventNotification (mkEventsStreamEventParams subscription (cursor_of epoch e) e).
Definition queued (e : TestEvent) : Text * EventStreamCursor :=
  (chunks (notification e), cursor_of epoch e).
Definition sendable (e : TestEvent) : Prop :=
  required_protocol_minor (ev_payload e) <= pv_minor protocol ∧
  text_len chunk_len (chunks (notification e)) <= MAX_MESSAGE_BYTES.

(** What the core subscription still yields under the polls to come *)
Definition core (polls : list (TryRecv * option Recv)) (sub : EventSubscription)
    (rest : list TestEvent) : Prop :=
  fst (consume polls sub) = (event_item <$> rest) ++ [final] ∨ polls = [] ∧ rest = [].

Definition session_end : Prop := ∃ last, final = NextReturns (Some (ItemTerminal (TermSessionEnded last))).

(** A clean end leaves nothing to come. *)
Definition clean (rest : list TestEvent) (t : EventsStreamTermination) : Prop :=
  t = ST_SessionEnded → rest = [] ∧ session_end.

Definition feeder_ok (polls : list (TryRecv * option Recv)) (rest : list TestEvent) (s : EventServer)
    : Prop :=
  match es_feeder s with
  | Feeding => core polls (es_subscription s) rest
  | Offering bytes cursor => ∃ e rest', rest = e :: rest' ∧ (bytes, cursor) = queued e ∧ sendable e ∧
      core polls (es_subscription s) rest'
  | Terminating t => clean rest t
  | Published | FeederGone => True
  end.

Record server_ok (written : list TestEvent) (polls : list (TryRecv * option Recv))
    (waiting rest : list TestEvent) (s : EventServer) : Prop := {
  sv_epoch : es_stream_epoch s = epoch;
  sv_session : es_session_id s = sid;
  sv_subscription : es_subscription_id s = subscription;
  sv_protocol : es_selected_protocol s = protocol;
  sv_log : log = written ++ waiting ++ rest;
  sv_queue : es_loop s ≠ Left → es_queue s = queued <$> waiting;
  sv_sendable : Forall sendable (written ++ waiting);
  sv_feeder : feeder_ok polls rest s;
  sv_slot : ∀ t, es_slot s = SlotSent t → clean rest t;
  sv_terminal : ∀ t, es_terminal s = Some t → clean rest t;
  sv_last : es_loop s ≠ Left → es_last_emitted s = cursor_of epoch <$> last written;
}.

Context (final_ok : final = NextPending ∨ session_end).

Lemma server_new_ok polls sub max_events max_bytes :
  core polls sub log →
  server_ok [] polls [] log
    (server_new epoch subscription sid protocol max_events max_bytes sub).
Proof. intros Hcore. by split. Qed.

(** ** The feeder *)

Lemma core_cons poll wait polls sub e rest :
  core ((poll, wait) :: polls) sub (e :: rest) →
  ∃ sub', next poll wait sub = (event_item e, sub') ∧ core polls sub' rest.
Proof.
  intros [H|[? _]]; [|done]. cbn in H. destruct (next poll wait sub) as [r sub'].
  destruct (consume polls sub') as [rs sub''] eqn:Hc. cbn in H. simplify_eq.
  exists sub'. split; [done|]. left. by rewrite Hc.
Qed.

Lemma core_nil poll wait polls sub :
  core ((poll, wait) :: polls) sub [] →
  polls = [] ∧ fst (next poll wait sub) = final.
Proof.
  intros [H|[? _]]; [|done]. cbn in H. destruct (next poll wait sub) as [r sub'].
  destruct polls as [|[p w] polls]; cbn in H; [by simplify_eq|].
  destruct (next p w sub') as [r2 sub2], (consume polls sub2) as [rs sub3]. done.
Qed.

Lemma feed_event_ok polls rest s e sub :
  es_stream_epoch s = epoch → es_session_id s = sid → es_subscription_id s = subscription →
  es_selected_protocol s = protocol → ev_session_id e = sid → core polls sub rest →
  feeder_ok polls (e :: rest)
    (set_feeder (feed_event chunk_len chunks e s) (es_slot s) sub s).
Proof.
  intros He Hs Hb Hp Hsid Hcore. unfold feed_event, feeder_ok. rewrite He, Hs, Hb, Hp. rewrite <-Hsid.
  change (mkEventStreamCursor epoch (ev_session_id e) (ev_sequence e)) with (cursor_of epoch e).
  destruct (negb (pv_major protocol =? 1) || _) eqn:Hv; [done|]. inv_bools.
  destruct (serialize_event_notification _ _ _ _) as [bytes|[]] eqn:Hser; [|done..].
  apply serialize_event_notification_ok in Hser as [-> Hlen]; [|done].
  exists e, rest. split; [done|]. split; [done|]. split; [split; [lia|done]|done].
Qed.

Lemma spawn_feeder_ok written poll wait polls waiting rest s :
  server_ok written ((poll, wait) :: polls) waiting rest s → es_feeder s = Feeding →
  server_ok written polls waiting rest (spawn_feeder chunk_len chunks poll wait s).
Proof.
  intros [He Hs Hb Hp Hlog Hq Hsend Hf Hslot Hterm Hlast] Hfeed. unfold feeder_ok in Hf. rewrite Hfeed in Hf.
  unfold spawn_feeder. destruct rest as [|e rest].
  - apply core_nil in Hf as [-> Hn]. destruct (next poll wait (es_subscription s)) as [r sub]. cbn in Hn. subst r.
    destruct final_ok as [->|[l Hend]].
    + split; try done. unfold feeder_ok. rewrite Hfeed. by right.
    + rewrite Hend. split; try done. intros _. split; [done|by exists l].
  - apply core_cons in Hf as (sub & -> & Hcore). split; try done.
    apply feed_event_ok; try done.
    rewrite Hlog in log_session. by apply Forall_app in log_session as [_ [_ [? _]%Forall_cons]%Forall_app].
Qed.

Lemma feed_sent_ok written polls waiting rest s s' stalled bytes cursor :
  server_ok written polls waiting rest s → es_feeder s = Offering bytes cursor →
  feed_sent chunk_len stalled bytes cursor s = Some s' →
  ∃ waiting' rest', server_ok written polls waiting' rest' s'.
Proof.
  intros [He Hs Hb Hp Hlog Hq Hsend Hf Hslot Hterm Hlast] Hfeed H. unfold feeder_ok in Hf. rewrite Hfeed in Hf.
  destruct Hf as (e & rest' & -> & Heq & He1 & Hcore). unfold feed_sent in H.
  destruct (queue_send chunk_len stalled bytes cursor s) as [[queue|[]]|] eqn:Hqs; simplify_eq.
  - exists (waiting ++ [e]), rest'. unfold queue_send in Hqs. repeat case_match; simplify_eq.
    split; try done; cbn; unfold clean in *.
    + by rewrite <-app_assoc.
    + intros Hin. rewrite Hq, fmap_app by done. cbn. congruence.
    + rewrite app_assoc, Forall_app. by split; [|constructor].
    + intros t Ht ->. by destruct (Hslot _ Ht).
    + intros t Ht ->. by destruct (Hterm _ Ht).
  - exists waiting, (e :: rest'). by split.
  - exists waiting, (e :: rest'). by split.
Qed.

Lemma feed_publish_ok written polls waiting rest s t :
  server_ok written polls waiting rest s → es_feeder s = Terminating t →
  server_ok written polls waiting rest (feed_publish t s).
Proof.
  intros [He Hs Hb Hp Hlog Hq Hsend Hf Hslot Hterm Hlast] Hfeed. unfold feeder_ok in Hf. rewrite Hfeed in Hf.
  split; try done. by intros t' [= <-].
Qed.

Lemma feed_drop_ok written polls waiting rest s :
  server_ok written polls waiting rest s → server_ok written polls waiting rest (feed_drop s).
Proof. by intros []. Qed.

(** ** The socket loop *)

Definition terminal (written : list TestEvent) (t : EventsStreamTermination) : RpcServerMessage :=
  TerminalNotification (mkEventsStreamTerminalParams subscription sid (cursor_of epoch <$> last written) t).

Lemma set_loop_ok written polls waiting rest s closed loop t :
  server_ok written polls waiting rest s → es_loop s ≠ Left →
  (∀ t', t = Some t' → clean rest t') →
  server_ok written polls waiting rest (set_loop closed loop t (es_last_emitted s) s).
Proof. intros [He Hs Hb Hp Hlog Hq Hsend Hf Hslot Hterm Hlast] Hin Hc. by split; auto. Qed.

(** What a turn of the loop writes: nothing, the next event, or the terminal
    that ends it *)
Inductive turn (written : list TestEvent) (polls : list (TryRecv * option Recv)) (s' : EventServer)
    : list Text → Prop :=
| turn_silent waiting rest : server_ok written polls waiting rest s' → turn written polls s' []
| turn_event e waiting rest : server_ok (written ++ [e]) polls waiting rest s' →
    turn written polls s' [chunks (notification e)]
| turn_terminal t waiting rest : server_ok written polls waiting rest s' → es_loop s' = Left →
    (t = ST_SessionEnded → written = log ∧ session_end) →
    turn written polls s' [chunks (terminal written t)].

Lemma emit_ok written polls waiting rest s write event queue :
  server_ok written polls waiting rest s → es_loop s ≠ Left → es_queue s = event :: queue →
  turn written polls (snd (emit write event queue s)) (fst (emit write event queue s)).
Proof.
  intros [He Hs Hb Hp Hlog Hq Hsend Hf Hslot Hterm Hlast] Hin Hev. specialize (Hq Hin).
  rewrite Hev in Hq. destruct waiting as [|e waiting]; [done|]. cbn in Hq. injection Hq as -> ->.
  assert (log = (written ++ [e]) ++ waiting ++ rest) as Hlog' by by rewrite <-app_assoc.
  assert (Forall sendable ((written ++ [e]) ++ waiting)) as Hsend' by by rewrite <-app_assoc.
  destruct write as [|[]].
  - apply (turn_event _ _ _ e waiting rest). split; try done. intros _. cbn. by rewrite last_snoc.
  - apply (turn_event _ _ _ e waiting rest). by split.
  - apply (turn_silent _ _ _ (e :: waiting) rest). by split.
Qed.

Lemma send_terminal_ok written polls waiting rest s write t :
  server_ok written polls waiting rest s → es_loop s ≠ Left → es_queue s = [] → clean rest t →
  turn written polls (snd (send_terminal_and_close chunks write t s))
    (fst (send_terminal_and_close chunks write t s)).
Proof.
  intros Hok Hin Hq Hc. pose proof Hok as [_ Hs Hb _ Hlog Hw _ _ _ Hterm Hlast].
  assert (server_ok written polls waiting rest (snd (send_terminal_and_close chunks write t s))) as Hok'
    by by apply set_loop_ok.
  rewrite Hw in Hq by done. apply fmap_nil_inv in Hq as ->. unfold send_terminal_and_close in *. cbn in *.
  rewrite Hlast in * by done. rewrite Hs, Hb. fold (terminal written t).
  destruct write as [|[]]; cbn; [| |by eapply turn_silent]; (eapply turn_terminal; [done..|]);
    intros Ht; destruct (Hc Ht) as [-> ?]; by rewrite app_nil_r in Hlog.
Qed.

Lemma stream_events_ok written polls waiting rest s write wake texts s' :
  server_ok written polls waiting rest s → stream_events chunks write wake s = Some (texts, s') →
  turn written polls s' texts.
Proof.
  intros Hok H. unfold stream_events in H. pose proof (sv_terminal _ _ _ _ _ Hok) as Hterm.
  pose proof (sv_slot _ _ _ _ _ Hok) as Hslot.
  destruct (es_loop s) eqn:Hl; [| |done]; assert (es_loop s ≠ Left) as Hin by congruence.
  - destruct (es_terminal s) as [t|] eqn:Ht.
    + destruct (es_queue s) as [|event queue] eqn:Hq.
      * case_match; [|done]. injection H as <- <-.
        eapply (send_terminal_ok _ _ _ _ _ write t); eauto.
      * injection H as <- <-. by eapply (emit_ok _ _ _ _ _ write).
    + destruct (es_slot s) as [|t|] eqn:Hsl; simplify_eq; (eapply turn_silent, set_loop_ok; [done..|]);
        intros t' Ht'; simplify_eq; eauto; done.
  - destruct (es_queue s) as [|event queue] eqn:Hq.
    + repeat case_match; simplify_eq; (eapply turn_silent, set_loop_ok; [done..|]);
        intros t' Ht'; by simplify_eq.
    + injection H as <- <-. by eapply (emit_ok _ _ _ _ _ write).
Qed.
End Props.
