(* ===== verification/EventDelivery.v ===== *)
(** * From the log of a Session to the owner of a client stream

    The daemon's feeder and socket loop, the connection, and the client's actor
    and owner as one system: what [next] returns is the log after the cursor,
    in order, and a clean end means all of it. *)

From S2P Require Import Prelude Protocol Evidence EventStream EventStore EventLog EventStoreInv.
From S2P Require Import Scenario Subscription Handshake Framing.
From S2P Require Import EventClient EventClientProps EventServer EventServerProps.
From stdpp Require Import pretty.
Import Client.

Local Open Scope N_scope.

(** ** The owner's steps and what was received *)


(** ** The next message of a conforming daemon *)





(** ** The system *)

Section Delivery.
Context {Chunk : Type} (chunk_len : Chunk → N) (chunks : RpcServerMessage → list Chunk).
Context (decode : list Chunk → result string RpcServerMessage).

(** The server and the polls of its receiver to come, the texts on their way,
    and the client *)
Record System := mkSystem {
  sy_server : @Server.EventServer Chunk;
  sy_polls : list (TryRecv * option Recv);
  sy_wire : list (list Chunk);
  sy_run : Run;
}.

(** What the connection itself can tell the client's actor; texts aside *)
Definition network (item : SocketItem (Text := list Chunk)) : Prop :=
  match item with
  | SocketText _ | SocketBinary => False
  | SocketPing (Err error) | SocketError error =>
      (∃ reason, error = Transport reason) ∨ (∃ phase, error = Timeout phase)
  | _ => True
  end.

Abbreviation actor := (stream_actor (Server.text_len chunk_len) decode).

Inductive system_step : System → System → Prop :=
| sys_feed server poll wait polls wire run :
    Server.es_feeder server = Server.Feeding →
    system_step (mkSystem server ((poll, wait) :: polls) wire run)
      (mkSystem (Server.spawn_feeder chunk_len chunks poll wait server) polls wire run)
| sys_sent server stalled bytes cursor server' polls wire run :
    Server.es_feeder server = Server.Offering bytes cursor →
    Server.feed_sent chunk_len stalled bytes cursor server = Some server' →
    system_step (mkSystem server polls wire run) (mkSystem server' polls wire run)
| sys_publish server t polls wire run :
    Server.es_feeder server = Server.Terminating t →
    system_step (mkSystem server polls wire run) (mkSystem (Server.feed_publish t server) polls wire run)
| sys_drop server polls wire run :
    Server.es_feeder server = Server.Published →
    system_step (mkSystem server polls wire run) (mkSystem (Server.feed_drop server) polls wire run)
| sys_socket server write wake texts server' polls wire run :
    Server.stream_events chunks write wake server = Some (texts, server') →
    system_step (mkSystem server polls wire run) (mkSystem server' polls (wire ++ texts) run)
| sys_receive server polls text wire s d c :
    st_actor s = Running →
    system_step (mkSystem server polls (text :: wire) (mkRun s d c))
      (mkSystem server polls wire (mkRun (actor (SocketText text) s) d c))
| sys_network server polls wire item s d c :
    st_actor s = Running → network item →
    system_step (mkSystem server polls wire (mkRun s d c))
      (mkSystem server polls wire (mkRun (actor item s) d c))
| sys_owner server polls wire run run' :
    owner_step run run' →
    system_step (mkSystem server polls wire run) (mkSystem server polls wire run').

(** The client of the system runs as any client does. *)
Lemma system_client_steps y y' :
  rtc system_step y y' →
  rtc (client_step (Server.text_len chunk_len) decode) (sy_run y) (sy_run y').
Proof.
  induction 1 as [y|y y1 y2 Hstep _ IH]; [done|]. etrans; [|exact IH].
  destruct Hstep; try done; apply rtc_once; by constructor.
Qed.

(** ** What the client makes of the daemon's texts *)

Context (decode_chunks : ∀ message, decode (chunks message) = Ok message).
Context (log : list TestEvent) (final : NextResult).
Context (sid : SessionId) (epoch : Uuid) (protocol : ProtocolVersion).
Context (subscription : EventsSubscribeResult) (after : option EventStreamCursor).
Context (options : EventStreamOptions).

Abbreviation subscription_id := (sr_subscription_id subscription).
Abbreviation bound := (sid, epoch, protocol, subscription, after, options).
Abbreviation notification := (notification epoch subscription_id).
Abbreviation server_ok :=
  (server_ok chunk_len chunks log final epoch subscription_id sid protocol).
Abbreviation terminal := (terminal epoch subscription_id sid).

(** The log after the cursor, and what its end means to the client *)
Context (log_continues : continues sid (number after) log).
Context (log_bound : number after + len log <= MAX_SAFE_INTEGER).
Context (log_end : session_end final →
  ec_sequence (sr_replay_through subscription) <= number after + len log ∧
  (match last log with Some e => is_session_ended (ev_payload e) | None => false end = true ∨
   log = [] ∧ sr_session_state subscription = Ended ∧ after = Some (sr_replay_through subscription))).
Context (final_ok : final = NextPending ∨ session_end final).









(** ** The invariant of the system *)


















End Delivery.

(** ** The log of a reachable store *)




