(* ===== verification/EventStreamExamples.v ===== *)
(** * Event streams of the sample Session

    The system of [EventDelivery] run on the sample Session: an ordinary
    stream, what cancelling does to the end of a stream, and the moment at which
    the daemon misses the end of a Session. *)

From S2P Require Import Prelude Protocol Evidence EventStream EventStore EventLog EventStoreInv.
From S2P Require Import Scenario Subscription Handshake Framing.
From S2P Require Import EventClient EventClientProps EventServer EventServerProps EventDelivery.
Import Client.

Local Open Scope N_scope.

(** A message is one piece of a hundred bytes. *)
Definition sample_len (_ : RpcServerMessage) : N := 100.
Definition sample_chunks (message : RpcServerMessage) : list RpcServerMessage := [message].
Definition sample_decode (text : list RpcServerMessage) : result string RpcServerMessage :=
  match text with [message] => Ok message | _ => Err "not one message" end.

Definition sample_epoch : Uuid := 600.
Definition sample_subscription_id : Uuid := 601.
Definition sample_protocol : ProtocolVersion := mkProtocolVersion 1 5.
Definition sample_options : EventStreamOptions :=
  mkEventStreamOptions MAX_MESSAGE_BYTES MAX_QUEUED_EVENTS MAX_QUEUED_BYTES
    (seconds 10) (seconds 5) (seconds 3).
Definition sample_params : EventsSubscribeParams :=
  mkEventsSubscribeParams sample_session (Some (mkEventStreamCursor sample_epoch sample_session 2)).

(** The Session is subscribed to while its action runs, and then ended. *)
Definition ending_ops : list StoreOp :=
  closing_ops ++ [OpAppend 107 sample_verdict; OpEnd 108 sample_end].
Definition ended_log : SessionLog :=
  default (mkSessionLog (mkSessionInfo 0 Protocol.Active 0 None 0 0) [] [] ∅ ∅ ∅ ∅ ∅)
    (st_sessions (run_ops ending_ops opening_store) !! sample_session).
Definition sample_subscription : EventSubscription :=
  EventSubscription_new sample_session (drop 2 (log_events
    (default ended_log (st_sessions opening_store !! sample_session)))) 3%nat (Some 2) 4 Protocol.Active.
Definition snapshot_polls : list (TryRecv * option Recv) := replicate 2 (TryEmpty, None).
Definition tail_polls : list (TryRecv * option Recv) :=
  (λ sig, (TryOk sig, None)) <$> drop 3 (log_stream_tail ended_log).

Definition sample_subscribed : EventsSubscribeResult :=
  Server.subscribe_result sample_epoch sample_subscription_id sample_session sample_subscription.
Definition sample_client : DeviceRailEventStream :=
  mkDeviceRailEventStream sample_session sample_epoch sample_protocol sample_subscribed
    (su_after_cursor sample_params) sample_options (stream_state_new (su_after_cursor sample_params))
    [] None Running.
Abbreviation SampleSystem := (System (Chunk := RpcServerMessage)).

Definition sample_system : SampleSystem :=
  mkSystem (Server.server_new sample_epoch sample_subscription_id sample_session sample_protocol 2 4096
      sample_subscription)
    (snapshot_polls ++ tail_polls ++ [(TryEmpty, None)]) [] (mkRun sample_client [] false).

(** ** Runs by labels *)

Inductive Label :=
| LFeed | LSent | LPublish | LDrop | LSocket | LReceive | LTake | LAccount | LGone | LCancel.

Definition perform (label : Label) (y : SampleSystem) : option SampleSystem :=
  let '(mkSystem server polls wire (mkRun s d c)) := y in
  match label with
  | LFeed =>
      match Server.es_feeder server, polls with
      | Server.Feeding, (poll, wait) :: polls => Some (mkSystem
          (Server.spawn_feeder sample_len sample_chunks poll wait server) polls wire (mkRun s d c))
      | _, _ => None
      end
  | LSent =>
      match Server.es_feeder server with
      | Server.Offering bytes cursor =>
          server' ← Server.feed_sent sample_len false bytes cursor server;
          Some (mkSystem server' polls wire (mkRun s d c))
      | _ => None
      end
  | LPublish =>
      match Server.es_feeder server with
      | Server.Terminating t =>
          Some (mkSystem (Server.feed_publish t server) polls wire (mkRun s d c))
      | _ => None
      end
  | LDrop =>
      match Server.es_feeder server with
      | Server.Published => Some (mkSystem (Server.feed_drop server) polls wire (mkRun s d c))
      | _ => None
      end
  | LSocket =>
      '(texts, server') ← Server.stream_events sample_chunks Server.Written None server;
      Some (mkSystem server' polls (wire ++ texts) (mkRun s d c))
  | LReceive =>
      match st_actor s, wire with
      | Running, text :: wire => Some (mkSystem server polls wire
          (mkRun (stream_actor (Server.text_len sample_len) sample_decode (SocketText text) s) d c))
      | _, _ => None
      end
  | LTake =>
      match st_taken s, next_receive s with
      | None, Some (Some _, s') => Some (mkSystem server polls wire (mkRun s' d c))
      | _, _ => None
      end
  | LAccount =>
      match st_taken s with
      | Some q => let '(r, s') := next_account (Some q) s in Some (mkSystem server polls wire
          (mkRun s' (match r with Ok (Some item) => d ++ [item] | _ => d end) c))
      | None => None
      end
  | LGone =>
      match st_actor s with
      | Closing => Some (mkSystem server polls wire (mkRun (set_actor Gone s) d c))
      | _ => None
      end
  | LCancel =>
      match st_taken s with
      | None => Some (mkSystem server polls wire (mkRun (cancel s) d true))
      | Some _ => None
      end
  end.

Fixpoint perform_all (labels : list Label) (y : SampleSystem) : option SampleSystem :=
  match labels with
  | [] => Some y
  | label :: labels => y' ← perform label y; perform_all labels y'
  end.

Abbreviation sample_step := (system_step sample_len sample_chunks sample_decode).

Lemma perform_step label y y' : perform label y = Some y' → sample_step y y'.
Proof.
  destruct y as [server polls wire [s d c]]. destruct label; cbn [perform]; intros H.
  - destruct (Server.es_feeder server) eqn:?; try done. destruct polls as [|[]]; simplify_eq. by constructor.
  - destruct (Server.es_feeder server) eqn:?; try done. simplify_option_eq. by eapply sys_sent.
  - destruct (Server.es_feeder server) eqn:?; simplify_eq. by constructor.
  - destruct (Server.es_feeder server) eqn:?; simplify_eq. by constructor.
  - destruct (Server.stream_events _ _ _ _) as [[texts server']|] eqn:?; cbn in H; simplify_eq. by econstructor.
  - destruct (st_actor s) eqn:?; try done. destruct wire; simplify_eq. by constructor.
  - destruct (st_taken s) eqn:?; try done. destruct (next_receive s) as [[[]]|] eqn:?; simplify_eq.
    apply sys_owner. by econstructor.
  - destruct (st_taken s) eqn:?; try done. destruct (next_account _ s) eqn:?; simplify_eq.
    apply sys_owner. by econstructor.
  - destruct (st_actor s) eqn:?; simplify_eq. apply sys_owner. by constructor.
  - destruct (st_taken s) eqn:?; simplify_eq. apply sys_owner. by constructor.
Qed.

Lemma perform_all_steps labels y y' : perform_all labels y = Some y' → rtc sample_step y y'.
Proof.
  revert y. induction labels as [|label labels IH]; intros y; cbn; [by intros [= ->]|].
  destruct (perform label y) as [y1|] eqn:H; cbn; [|done]. intros Hr. eapply rtc_l; [|by apply IH].
  by apply perform_step in H.
Qed.

(** One event from the core to the client's queue, and on to the owner *)
Definition relay : list Label := [LFeed; LSent; LSocket; LSocket; LReceive].
Definition deliver : list Label := [LTake; LAccount].
(** The end of the Session *)
Definition wind_up : list Label := [LFeed; LPublish; LDrop; LSocket; LSocket; LReceive; LGone].

Definition whole_run : list Label := mjoin (replicate 7 (relay ++ deliver)) ++ wind_up.
(** The owner cancels with one event left in its queue. *)
Definition cancelled_run : list Label :=
  mjoin (replicate 6 (relay ++ deliver)) ++ relay ++ wind_up ++ [LCancel].
(** The feeder publishes its termination and drops the queue after the socket
    loop has polled the former and before it polls the latter. *)
Definition missed_run : list Label :=
  mjoin (replicate 7 (relay ++ deliver)) ++ [LFeed; LSocket; LPublish; LDrop; LSocket; LSocket; LReceive; LGone].

Definition after_run (labels : list Label) : SampleSystem :=
  default sample_system (perform_all labels sample_system).


(** The same run, seen by the client alone *)
Lemma event_stream_is_continuous_witness :
  complete sample_client (run_delivered (sy_run (after_run whole_run))).
Proof.
  assert (rtc (client_step (Server.text_len sample_len) sample_decode)
    (mkRun sample_client [] false) (sy_run (after_run whole_run))) as Hrun.
  { apply (system_client_steps sample_len sample_chunks sample_decode sample_system (after_run whole_run)).
    apply (perform_all_steps whole_run). vm_compute. reflexivity. }
  assert (sy_run (after_run whole_run) = mkRun (run_stream (sy_run (after_run whole_run)))
    (run_delivered (sy_run (after_run whole_run))) false) as Heq by (vm_compute; reflexivity).
  rewrite Heq in Hrun.
  destruct (event_stream_is_continuous (Server.text_len sample_len) sample_decode (Ok ()) sample_protocol
    sample_params sample_options (Ok (sample_epoch, sample_subscribed)) sample_client
    (run_stream (sy_run (after_run whole_run))) (run_delivered (sy_run (after_run whole_run))) false)
    as (_ & _ & _ & _ & _ & Hend); [vm_compute; reflexivity|exact Hrun|].
  apply (Hend (run_stream (sy_run (after_run whole_run)))); vm_compute; reflexivity.
Defined.

(** After [cancel], [next] can report a clean end although an event of the
    Session was discarded: the doc comment of [next] promises the contrary. *)
Lemma cancelled_stream_ends_cleanly :
  rtc sample_step sample_system (after_run cancelled_run) ∧
  length (run_delivered (sy_run (after_run cancelled_run))) = 6%nat ∧
  next_receive (run_stream (sy_run (after_run cancelled_run))) =
    Some (None, run_stream (sy_run (after_run cancelled_run))) ∧
  fst (next_account None (run_stream (sy_run (after_run cancelled_run)))) = Ok None.
Proof.
  split; [|vm_compute; split_and!; reflexivity].
  apply (perform_all_steps cancelled_run). vm_compute. reflexivity.
Qed.

(** The socket loop can miss an ordinary Session end: the termination is
    published, and the queue closed, between its polls of the two, and it
    reports an internal error after the last event. *)
Lemma missed_end_is_internal_error :
  rtc sample_step sample_system (after_run missed_run) ∧
  it_event <$> run_delivered (sy_run (after_run missed_run)) = drop 2 (log_events ended_log) ∧
  fst (next_account None (run_stream (sy_run (after_run missed_run)))) =
    Err (RemoteTermination (Server.internal_error "event stream queue closed without a terminal")).
Proof.
  split; [|vm_compute; split_and!; reflexivity].
  apply (perform_all_steps missed_run). vm_compute. reflexivity.
Qed.
