(* ===== verification/Cleanup.v ===== *)
(** * Session cleanup

    [crates/core/src/cleanup.rs]: deleting an ended Session and releasing the
    evidence it pinned. The two stores are separate, and other tasks run
    between the calls. What cleanup needs of an evidence store is the class
    [EvidenceStore] with its laws, the documented contract of the trait in
    [crates/core/src/evidence.rs]. *)

From S2P Require Import Prelude Protocol Evidence EventStream EventStore EventLog.
From S2P Require Import EventStoreInv EventStoreProps EventStoreReads StoreFrame Async Scenario.

Local Open Scope N_scope.

(** ** The evidence store *)

Class EvidenceStore (V : Type) := {
  release_session : SessionId → N → V → result EvidenceError ReleaseReport * V;
  referenced_sessions : V → result EvidenceError (list SessionId);
  (** the references a Session owns *)
  retained : V → SessionId → gset AssetRef;
}.

(** A release drops the references of its Session and no others, even when it
    fails half way, and the listing is complete. *)
Class EvidenceStoreLaws (V : Type) `{EvidenceStore V} := {
  release_elsewhere sid at_ms v s :
    s ≠ sid → retained (snd (release_session sid at_ms v)) s = retained v s;
  release_drops sid at_ms v report v' :
    release_session sid at_ms v = (Ok report, v') → retained v' sid = ∅;
  release_reports sid at_ms v report v' :
    release_session sid at_ms v = (Ok report, v') → rr_session_id report = sid;
  referenced_complete v sids s :
    referenced_sessions v = Ok sids → s ∈ sids ↔ retained v s ≠ ∅;
}.

(** ** The programs *)

Inductive SessionCleanupError :=
| CleanupEvents (e : EventStoreError)
| CleanupEvidence (e : EvidenceError).

Record SessionCleanupReport := mkSessionCleanupReport {
  cr_session_id : SessionId;
  cr_event_log_deleted_now : bool;
  cr_evidence : ReleaseReport;
}.

Inductive CleanupE : Type → Type :=
| CDeleteEnded (sid : SessionId) : CleanupE (result EventStoreError ())
| CListSessions : CleanupE (list SessionInfo)
| CReferencedSessions : CleanupE (result EvidenceError (list SessionId))
| CReleaseSession (sid : SessionId) (at_ms : N) : CleanupE (result EvidenceError ReleaseReport).

Abbreviation cleanup := (prog CleanupE).

Definition release_evidence (sid : SessionId) (released_at_ms : N)
    : cleanup (result SessionCleanupError ReleaseReport) :=
  r ← perform (CReleaseSession sid released_at_ms);
  mret (map_err CleanupEvidence r).

(** [cleanup_ended_session] *)
Definition cleanup_ended_session (session_id : SessionId) (released_at_ms : N)
    : cleanup (result SessionCleanupError SessionCleanupReport) :=
  deleted ← perform (CDeleteEnded session_id);
  event_log_deleted_now ←? mret match deleted with
    | Ok _ => Ok true
    | Err (SessionNotFound _) => Ok false
    | Err error => Err (CleanupEvents error)
    end;
  evidence ←? release_evidence session_id released_at_ms;
  mret (Ok (mkSessionCleanupReport session_id event_log_deleted_now evidence)).

(** The loop of [reconcile_missing_session_evidence] *)
Fixpoint release_missing (live : gset SessionId) (sids : list SessionId) (released_at_ms : N)
    : cleanup (result SessionCleanupError (list ReleaseReport)) :=
  match sids with
  | [] => mret (Ok [])
  | sid :: sids =>
      if bool_decide (sid ∈ live) then release_missing live sids released_at_ms
      else
        report ←? release_evidence sid released_at_ms;
        reports ←? release_missing live sids released_at_ms;
        mret (Ok (report :: reports))
  end.

(** [reconcile_missing_session_evidence]; listing the in-memory store does
    not fail *)
Definition reconcile_missing_session_evidence (released_at_ms : N)
    : cleanup (result SessionCleanupError (list ReleaseReport)) :=
  sessions ← perform CListSessions;
  let live := list_to_set (si_id <$> sessions) in
  referenced ← perform CReferencedSessions;
  sids ←? mret (map_err CleanupEvidence referenced);
  release_missing live sids released_at_ms.

(** ** The two stores among other tasks *)

Section Cleanup.
Context {V : Type} `{ES : EvidenceStore V, EL : !EvidenceStoreLaws V}
  (config : EventStreamConfig).

Record Stores := mkStores { w_events : MemoryEventStore; w_evidence : V }.

Definition cleanup_step (R : Type) (e : CleanupE R) (w : Stores) : R → Stores → Prop :=
  match e in CleanupE R return R → Stores → Prop with
  | CDeleteEnded sid => λ r w',
      delete_ended sid (w_events w) = (r, w_events w') ∧ w_evidence w' = w_evidence w
  | CListSessions => λ r w', r = list_sessions (w_events w) ∧ w' = w
  | CReferencedSessions => λ r w', r = referenced_sessions (w_evidence w) ∧ w' = w
  | CReleaseSession sid at_ms => λ r w',
      release_session sid at_ms (w_evidence w) = (r, w_evidence w') ∧
      w_events w' = w_events w
  end.

(** A task appends an event only with references its Session owns: the
    receipts its evidence writer issued. *)
Definition owns_references (op : StoreOp) (v : V) : Prop :=
  ∀ eid p, op = OpAppend eid p →
    list_to_set (event_asset_refs (pe_payload p)) ⊆ retained v (pe_session_id p).

Definition deleted (sid : SessionId) (st : MemoryEventStore) : Prop :=
  sid ∈ st_used_session_ids st ∧ st_sessions st !! sid = None.

(** What other tasks do: use the event store, add references, and release the
    references of deleted Sessions. [starts] says whether they start Sessions. *)
Inductive cleanup_env (starts : bool) (w : Stores) : Stores → Prop :=
| env_events op :
    owns_references op (w_evidence w) →
    (starts = false → ∀ eid c, op ≠ OpStart eid c) →
    cleanup_env starts w (mkStores (apply_op op (w_events w)) (w_evidence w))
| env_retain v :
    (∀ s, retained (w_evidence w) s ⊆ retained v s) →
    cleanup_env starts w (mkStores (w_events w) v)
| env_release sid at_ms :
    deleted sid (w_events w) →
    cleanup_env starts w
      (mkStores (w_events w) (snd (release_session sid at_ms (w_evidence w)))).

(** Every reference in a retained log is owned by its Session. *)
Definition evidence_kept (w : Stores) : Prop :=
  reachable config (w_events w) ∧
  ∀ sid log, st_sessions (w_events w) !! sid = Some log →
    list_to_set (log_asset_refs log) ⊆ retained (w_evidence w) sid.

Abbreviation cleanup_wp starts := (wp cleanup_step (cleanup_env starts)).
Abbreviation cleanup_runs starts := (runs cleanup_step (cleanup_env starts)).

(** ** Other tasks keep the evidence *)

Lemma log_step_references sid op log log' (v : V) :
  log_step sid op log log' → owns_references op v →
  list_to_set (log_asset_refs log) ⊆ retained v sid →
  list_to_set (log_asset_refs log') ⊆ retained v sid.
Proof.
  intros Hs Ho Hl. unfold log_asset_refs in *.
  destruct Hs as [|f| |eid p q t -> <- _ _ _|eid c q _ _ _ _]; try done.
  - specialize (Ho eid p eq_refl).
    rewrite (proj1 (proj2 (appended_info _ t log))), bind_app, list_to_set_app_L. cbn. rewrite app_nil_r. set_solver.
  - cbn. rewrite bind_app, list_to_set_app_L. cbn. set_solver.
Qed.

(** Only a start adds a log. *)
Lemma apply_op_new op st sid log' :
  st_sessions st !! sid = None → st_sessions (apply_op op st) !! sid = Some log' →
  ∃ eid c, op = OpStart eid c ∧ log' = started eid c.
Proof.
  intros Hn Hl.
  destruct op as [eid c|draws k|k lease|eid p|eid c|k|]; cbn in Hl.
  - destruct (start_session eid c st) eqn:H; cbn in Hl.
    apply start_cases in H as [[-> _]|(? & ? & _ & _ & ->)]; [congruence|].
    cbn in Hl. apply lookup_insert_Some in Hl as [[_ <-]|[_ ?]]; [eauto|congruence].
  - destruct (reserve_observation draws k st) eqn:H; cbn in Hl.
    apply reserve_cases in H as [[-> _]|(l & ? & _ & _ & Hk & _ & _ & ->)]; [congruence|].
    cbn in Hl. by rewrite lookup_insert_ne in Hl by congruence; congruence.
  - destruct (release_observation k lease st) eqn:H; cbn in Hl.
    apply release_cases in H as [[-> _]|(l & _ & Hk & _ & _ & ->)]; [congruence|].
    cbn in Hl. by rewrite lookup_insert_ne in Hl by congruence; congruence.
  - destruct (append eid p st) eqn:H; cbn in Hl.
    apply append_cases in H as [[-> _]|(l & ? & ? & Ho & ? & _ & _ & _ & ->)]; [congruence|].
    destruct Ho as (_ & _ & _ & Ho). cbn in Hl. rewrite lookup_insert_ne in Hl; congruence.
  - destruct (end_session eid c st) eqn:H; cbn in Hl.
    apply end_cases in H
      as [[-> _]|(l & ? & _ & _ & Hk & _ & _ & _ & _ & _ & _ & ->)]; [congruence|].
    cbn in Hl. by rewrite lookup_insert_ne in Hl by congruence; congruence.
  - destruct (delete_ended k st) eqn:H; cbn in Hl.
    apply delete_cases in H as [[-> _]|(l & _ & _ & _ & ->)]; [congruence|].
    cbn in Hl. by apply lookup_delete_Some in Hl as [_ ?]; congruence.
  - unfold begin_stream_shutdown, mbind, M_bind, get in Hl. cbn in Hl.
    destruct (st_stream_shutdown st); cbn in Hl; [congruence|].
    by rewrite lookup_fmap, Hn in Hl.
Qed.

Lemma apply_op_kept op st (v : V) :
  owns_references op v →
  evidence_kept (mkStores st v) → evidence_kept (mkStores (apply_op op st) v).
Proof.
  intros Ho [Hr Hk]. split; [by apply reach_op|]. cbn in *. intros sid log' Hl'.
  pose proof (reachable_wf _ _ Hr) as Hwf.
  destruct (st_sessions st !! sid) as [log|] eqn:Hl.
  - destruct (apply_op_log op st sid log Hwf Hl) as [(l & Hl2 & Hs)|[-> He]].
    + simplify_eq. eapply log_step_references; eauto.
    + cbn in Hl'. destruct (delete_ended sid st) as [r st'] eqn:Hd.
      apply delete_cases in Hd as [[-> _]|(l & _ & _ & _ & ->)]; cbn in Hl'; [eauto|].
      by rewrite lookup_delete_eq in Hl'.
  - destruct (apply_op_new op st sid log' Hl Hl') as (eid & c & -> & ->). cbn. set_solver.
Qed.
Lemma release_kept sid at_ms w v r :
  evidence_kept w → st_sessions (w_events w) !! sid = None →
  release_session sid at_ms (w_evidence w) = (r, v) →
  evidence_kept (mkStores (w_events w) v).
Proof.
  intros [Hr Hk] Hn Hv. split; [done|]. cbn. intros s log Hl.
  replace v with (snd (release_session sid at_ms (w_evidence w))) by by rewrite Hv.
  rewrite release_elsewhere by congruence. eauto.
Qed.

Lemma env_kept starts w w' : evidence_kept w → cleanup_env starts w w' → evidence_kept w'.
Proof.
  intros Hk Hs. destruct w as [st v]. destruct Hs as [op Ho _|v' Hv|sid at_ms [_ Hn]]; cbn in *.
  - by apply apply_op_kept.
  - destruct Hk as [Hr Hk]. split; [done|]. cbn in *. intros sid log Hl. set_solver.
  - destruct (release_session sid at_ms v) as [r v'] eqn:Hv.
    by apply (release_kept sid at_ms (mkStores st v) v' r).
Qed.

Lemma env_deleted starts sid w w' :
  deleted sid (w_events w) → cleanup_env starts w w' → deleted sid (w_events w').
Proof. intros [Hu Hn] [op _ _|v _|s t _]; cbn; [by apply apply_op_tombstone|done..]. Qed.

Lemma env_used starts sid w w' :
  sid ∈ st_used_session_ids (w_events w) → cleanup_env starts w w' →
  sid ∈ st_used_session_ids (w_events w').
Proof.
  intros Hu [op _ _|v _|s t _]; cbn; try done.
  destruct op as [eid c|draws k|k lease|eid p|eid c|k|]; cbn.
  - destruct (start_session eid c _) eqn:Hs; cbn.
    apply start_cases in Hs as [[-> _]|(_ & _ & _ & _ & ->)]; set_solver.
  - destruct (reserve_observation draws k _) eqn:Hs; cbn.
    by apply reserve_cases in Hs as [[-> _]|(? & ? & _ & _ & _ & _ & _ & ->)].
  - destruct (release_observation k lease _) eqn:Hs; cbn.
    by apply release_cases in Hs as [[-> _]|(? & _ & _ & _ & _ & ->)].
  - destruct (append eid p _) eqn:Hs; cbn.
    by apply append_cases in Hs as [[-> _]|(? & ? & ? & _ & _ & _ & _ & _ & ->)].
  - destruct (end_session eid c _) eqn:Hs; cbn.
    by apply end_cases in Hs as [[-> _]|(? & ? & _ & _ & _ & _ & _ & _ & _ & _ & _ & ->)].
  - destruct (delete_ended k _) eqn:Hs; cbn.
    by apply delete_cases in Hs as [[-> _]|(? & _ & _ & _ & ->)].
  - unfold begin_stream_shutdown, mbind, M_bind, get. cbn. by case_match.
Qed.

(** Without starts, a Session that is not live stays so. *)
Lemma env_not_live sid w w' :
  st_sessions (w_events w) !! sid = None → cleanup_env false w w' →
  st_sessions (w_events w') !! sid = None.
Proof.
  intros Hn [op _ Hns|v _|s t _]; cbn; try done.
  destruct (st_sessions (apply_op op (w_events w)) !! sid) eqn:Hl; [|done].
  destruct (apply_op_new _ _ _ _ Hn Hl) as (eid & c & -> & _). by destruct (Hns eq_refl eid c).
Qed.

(** ** The programs *)

Lemma delete_deleted sid st r st' :
  delete_ended sid st = (r, st') → sid ∈ st_used_session_ids st →
  match r with Ok _ | Err (SessionNotFound _) => deleted sid st' | Err _ => True end.
Proof.
  unfold delete_ended, mbind, M_bind, get, lift, get_log, modify.
  destruct (st_sessions st !! sid) as [log|] eqn:Hl; cbn.
  - case_bool_decide; intros [= <- <-] Hu; [done|]. split; [done|]. cbn. apply lookup_delete_eq.
  - by intros [= <- <-].
Qed.

(** Releasing the evidence of a Session that stays not live. *)
Lemma wp_release_evidence starts (P : Stores → Prop) sid at_ms w :
  (∀ x y, P x → cleanup_env starts x y → P y) →
  (∀ x v, P x → P (mkStores (w_events x) v)) →
  (∀ x, P x → st_sessions (w_events x) !! sid = None) →
  evidence_kept w → P w →
  cleanup_wp starts (release_evidence sid at_ms) (λ r w', evidence_kept w' ∧ P w' ∧
    match r with
    | Ok report => rr_session_id report = sid ∧ retained (w_evidence w') sid = ∅
    | Err _ => True
    end) w.
Proof.
  intros HP Hv Hn Hk Hw w1 r [st2 v2] Henv [Hr Hst]. cbn in Hr, Hst. subst st2.
  apply (env_invariant _ _ _ _ (env_kept starts)) in Henv as Hk1; [|done].
  apply (env_invariant _ _ _ _ HP) in Henv as HP1; [|done]. cbn.
  split; [by eapply release_kept; eauto|]. split; [by apply Hv|].
  destruct r as [report|]; [|done]. cbn.
  split; [by eapply release_reports|by eapply release_drops].
Qed.

Lemma wp_cleanup sid at_ms w :
  evidence_kept w → sid ∈ st_used_session_ids (w_events w) →
  cleanup_wp true (cleanup_ended_session sid at_ms) (λ r w', evidence_kept w' ∧
    match r with
    | Ok report => deleted sid (w_events w') ∧ retained (w_evidence w') sid = ∅
    | Err _ => True
    end) w.
Proof.
  intros Hk Hu w1 r w2 Henv [Hd Hv].
  apply (env_invariant _ _ _ _ (env_kept true)) in Henv as Hk1; [|done].
  apply (env_invariant _ (λ w, sid ∈ st_used_session_ids (w_events w)) _ _
    (env_used true sid)) in Henv as Hu1; [|done].
  assert (evidence_kept w2) as Hk2.
  { destruct w1 as [st1 v1], w2 as [st2 v2]. cbn in *. subst v2.
    replace st2 with (apply_op (OpDelete sid) st1) by (cbn; by rewrite Hd).
    by apply apply_op_kept. }
  apply delete_deleted in Hd; [|done].
  assert (∀ now, deleted sid (w_events w2) → cleanup_wp true
    (try_bind (λ evidence, mret (Ok (mkSessionCleanupReport sid now evidence)))
      (release_evidence sid at_ms)) (λ r w', evidence_kept w' ∧
    match r with
    | Ok report => deleted sid (w_events w') ∧ retained (w_evidence w') sid = ∅
    | Err _ => True
    end) w2) as Hrel.
  { intros now Hdel. apply wp_try. eapply wp_mono.
    - apply (wp_release_evidence true (λ w, deleted sid (w_events w)));
        [apply env_deleted|done|by intros ? [_ ?]|done..].
    - intros [report|] w3 (Hk3 & Hd3 & Hr); [|done]. by destruct Hr. }
  destruct r as [[]|[]]; first [by apply Hrel|done].
Qed.

Lemma wp_release_missing live sids at_ms w :
  evidence_kept w → (∀ s, s ∉ live → st_sessions (w_events w) !! s = None) →
  cleanup_wp false (release_missing live sids at_ms) (λ r w', evidence_kept w' ∧
    match r with
    | Ok reports => Forall (λ report,
        st_sessions (w_events w') !! rr_session_id report = None) reports ∧
        ∀ s, s ∉ live → st_sessions (w_events w') !! s = None
    | Err _ => True
    end) w.
Proof.
  revert w. induction sids as [|sid sids IH]; intros w Hk Hlive; cbn [release_missing].
  { by split. }
  case_bool_decide as Hs; [by apply IH|].
  apply wp_try. eapply wp_mono.
  { apply (wp_release_evidence false (λ w, ∀ s, s ∉ live → st_sessions (w_events w) !! s = None));
      eauto using env_not_live. }
  intros [report|] w1 (Hk1 & HP1 & Hr); [|done]. destruct Hr as [Hid _].
  apply wp_try. eapply wp_mono; [by apply IH|].
  intros [reports|] w2 [Hk2 Hr2]; [|done]. destruct Hr2 as [Hf HP2].
  split; [done|]. split; [|done]. constructor; [rewrite Hid; eauto|done].
Qed.

Lemma elem_of_live st sid :
  store_wf st →
  sid ∈ (list_to_set (si_id <$> list_sessions st) : gset SessionId) ↔
  is_Some (st_sessions st !! sid).
Proof.
  intros Hwf. rewrite elem_of_list_to_set, list_elem_of_fmap. unfold list_sessions.
  setoid_rewrite list_elem_of_omap. split.
  - intros (info & -> & k & _ & Hk). apply fmap_Some in Hk as (log & Hl & ->).
    apply (sw_logs _ Hwf) in Hl as Hw. rewrite (lw_id _ _ _ Hw). eauto.
  - intros [log Hl]. exists (log_info log). apply (sw_logs _ Hwf) in Hl as Hw.
    split; [by rewrite (lw_id _ _ _ Hw)|]. exists sid. split; [|apply fmap_Some; eauto].
    rewrite merge_sort_Permutation. apply elem_of_elements. by apply elem_of_dom.
Qed.

Lemma wp_reconcile at_ms w :
  evidence_kept w →
  cleanup_wp false (reconcile_missing_session_evidence at_ms) (λ r w', evidence_kept w' ∧
    match r with
    | Ok reports => Forall (λ report,
        st_sessions (w_events w') !! rr_session_id report = None) reports
    | Err _ => True
    end) w.
Proof.
  intros Hk w1 sessions w1' Henv [-> ->].
  apply (env_invariant _ _ _ _ (env_kept false)) in Henv as Hk1; [|done].
  pose proof (reachable_wf _ _ (proj1 Hk1)) as Hwf. clear Henv.
  intros w2 referenced w2' Henv [-> ->].
  apply (env_invariant _ _ _ _ (env_kept false)) in Henv as Hk2; [|done].
  set (live := list_to_set (si_id <$> list_sessions (w_events w1)) : gset SessionId).
  assert (∀ s, s ∉ live → st_sessions (w_events w2) !! s = None) as Hlive.
  { intros s Hs. apply (env_invariant _ (λ w, st_sessions (w_events w) !! s = None) _ _
      (env_not_live s)) in Henv; [done|].
    apply eq_None_not_Some. by rewrite <-(elem_of_live _ s Hwf). }
  destruct (referenced_sessions (w_evidence w2)) as [sids|]; [|done].
  refine (wp_mono _ _ _ _ _ _ (wp_release_missing live sids at_ms w2 Hk2 Hlive) _).
  intros [reports|] w3 [Hk3 Hr]; [|done]. by destruct Hr.
Qed.
(** Reconciliation on its own releases everything that is not live. *)
Definition undisturbed (w w' : Stores) : Prop := False.

Lemma wp_release_missing_alone live sids at_ms w :
  wp cleanup_step undisturbed (release_missing live sids at_ms) (λ r w',
    match r with
    | Ok _ => w_events w' = w_events w ∧ ∀ s, retained (w_evidence w') s ≠ ∅ →
        retained (w_evidence w) s ≠ ∅ ∧ (s ∈ live ∨ s ∉ sids)
    | Err _ => True
    end) w.
Proof.
  revert w. induction sids as [|sid sids IH]; intros w; cbn [release_missing].
  { split; [done|]. intros s Hs. split; [done|]. right. apply not_elem_of_nil. }
  assert (∀ s, (s = sid → s ∈ live) → s ∈ live ∨ s ∉ sids → s ∈ live ∨ s ∉ sid :: sids) as Hc.
  { intros s Hl [?|?]; [by left|]. destruct (decide (s = sid)); [by left; apply Hl|].
    right. by apply not_elem_of_cons. }
  case_bool_decide as Hs.
  - eapply wp_mono; [apply IH|]. intros [reports|] w' Hr; [|done].
    destruct Hr as [Hst Hr]. split; [done|]. intros s [Hne Hin]%Hr.
    split; [done|]. apply Hc; [by intros ->|done].
  - apply wp_try. intros w1 r w2 Henv [Hr Hst]. apply rtc_inv in Henv as [<-|(? & [] & _)].
    destruct r as [report|]; [|done]. cbn. apply wp_try. eapply wp_mono; [apply IH|].
    intros [reports|] w3 Hr3; [|done]. destruct Hr3 as [Hst3 Hr3]. cbn.
    split; [congruence|]. intros s [Hne Hin]%Hr3. apply release_drops in Hr as Hd.
    assert (s ≠ sid) as Hsid by congruence.
    split; [|by apply Hc].
    by rewrite <-(release_elsewhere sid at_ms (w_evidence w) s), Hr by done.
Qed.

Lemma wp_reconcile_alone at_ms w :
  evidence_kept w →
  wp cleanup_step undisturbed (reconcile_missing_session_evidence at_ms) (λ r w',
    match r with
    | Ok _ => ∀ s, retained (w_evidence w') s ≠ ∅ → is_Some (st_sessions (w_events w') !! s)
    | Err _ => True
    end) w.
Proof.
  intros [Hreach _] w1 sessions w1' Henv [-> ->].
  apply rtc_inv in Henv as [<-|(? & [] & _)].
  intros w2 referenced w2' Henv [-> ->]. apply rtc_inv in Henv as [<-|(? & [] & _)].
  destruct (referenced_sessions (w_evidence w)) as [sids|] eqn:Href; [|done].
  refine (wp_mono _ _ _ _ _ _ (wp_release_missing_alone _ sids at_ms w) _).
  intros [reports|] w' Hr; [|done]. destruct Hr as [Hst Hr]. intros s [Hne Hin]%Hr.
  rewrite Hst. apply (elem_of_live _ s (reachable_wf _ _ Hreach)).
  destruct Hin as [?|Hnot]; [done|]. destruct Hnot. by apply (referenced_complete _ _ s Href).
Qed.

(** C19: Deleting and reconciling Sessions never takes evidence from a Session
    that is retained. With other tasks appending events whose references their
    Session owns, adding references and cleaning up other Sessions: after
    [cleanup_ended_session] of an id that was in use, every reference in every
    retained log is still owned by its Session, and if it succeeded the Session
    has no log and owns nothing. [reconcile_missing_session_evidence], during
    which no Session is started, keeps the same, and reports only Sessions that
    are not live; undisturbed, it leaves no evidence owned by a Session that is
    not live. *)
Theorem cleanup_keeps_live_evidence sid at_ms w :
  evidence_kept w →
  (∀ r w', sid ∈ st_used_session_ids (w_events w) →
     cleanup_runs true (cleanup_ended_session sid at_ms) w r w' →
     evidence_kept w' ∧
     match r with
     | Ok _ => deleted sid (w_events w') ∧ retained (w_evidence w') sid = ∅
     | Err _ => True
     end) ∧
  (∀ r w', cleanup_runs false (reconcile_missing_session_evidence at_ms) w r w' →
     evidence_kept w' ∧
     match r with
     | Ok reports => Forall (λ report,
         st_sessions (w_events w') !! rr_session_id report = None) reports
     | Err _ => True
     end) ∧
  (∀ reports w',
     runs cleanup_step undisturbed (reconcile_missing_session_evidence at_ms) w
       (Ok reports) w' →
     ∀ s, retained (w_evidence w') s ≠ ∅ → is_Some (st_sessions (w_events w') !! s)).
Proof.
  intros Hk. split_and!.
  - intros r w' Hu Hrun. exact (wp_sound _ _ _ _ _ _ _ (wp_cleanup sid at_ms w Hk Hu) Hrun).
  - intros r w' Hrun. exact (wp_sound _ _ _ _ _ _ _ (wp_reconcile at_ms w Hk) Hrun).
  - intros reports w' Hrun.
    exact (wp_sound _ _ _ _ _ _ _ (wp_reconcile_alone at_ms w Hk) Hrun).
Qed.

(** Running a cleanup alone. *)
Definition cleanup_answer (R : Type) (e : CleanupE R) (w : Stores) : option (R * Stores) :=
  match e in CleanupE R return option (R * Stores) with
  | CDeleteEnded sid =>
      let '(r, st) := delete_ended sid (w_events w) in Some (r, mkStores st (w_evidence w))
  | CListSessions => Some (list_sessions (w_events w), w)
  | CReferencedSessions => Some (referenced_sessions (w_evidence w), w)
  | CReleaseSession sid at_ms =>
      let '(r, v) := release_session sid at_ms (w_evidence w) in
      Some (r, mkStores (w_events w) v)
  end.

Lemma cleanup_answer_step R (e : CleanupE R) w r w' :
  cleanup_answer R e w = Some (r, w') → cleanup_step R e w r w'.
Proof. destruct e; cbn; repeat case_match; by intros [= <- <-]. Qed.
End Cleanup.

(** ** Examples *)

(** An evidence store as a map from Sessions to what they own. *)
#[global] Instance map_evidence_store : EvidenceStore (gmap SessionId (gset AssetRef)) := {
  release_session sid at_ms v :=
    (Ok (mkReleaseReport sid (N.of_nat (size (default ∅ (v !! sid)))) 0 0), delete sid v);
  referenced_sessions v :=
    Ok (List.filter (λ sid, negb (bool_decide (default ∅ (v !! sid) = ∅))) (elements (dom v)));
  retained v sid := default ∅ (v !! sid);
}.

#[global] Instance map_evidence_laws : EvidenceStoreLaws (gmap SessionId (gset AssetRef)).
Proof.
  split.
  - intros sid at_ms v s Hs. cbn. by rewrite lookup_delete_ne.
  - intros sid at_ms v report v' [= _ <-]. cbn. by rewrite lookup_delete_eq.
  - by intros sid at_ms v report v' [= <- _].
  - intros v sids s [= <-]. cbn.
    rewrite list_elem_of_In, filter_In, <-list_elem_of_In, elem_of_elements, elem_of_dom.
    rewrite negb_true_iff, bool_decide_eq_false. split; [by intros [_ ?]|].
    intros Hn. split; [|done]. by destruct (v !! s).
Qed.

(** The ended Session of the scenario with its evidence, and another Session's
    evidence whose log is gone. *)
Definition cleanup_stores : Stores (V := gmap SessionId (gset AssetRef)) :=
  mkStores ended_store (<[9 := {[sample_asset]}]> {[sample_session := {[sample_asset]}]}).

Lemma cleanup_stores_kept : evidence_kept EventStreamConfig_default cleanup_stores.
Proof.
  split; [exact ended_reachable|].
  assert (map_Forall (λ sid log,
    list_to_set (log_asset_refs log) ⊆ retained (w_evidence cleanup_stores) sid)
    (st_sessions ended_store)) as Hf by (refine (bool_decide_unpack _ _); vm_compute; exact I).
  exact Hf.
Qed.

(** The outcome of a run that ended without an error. *)
Definition succeeded {A} (o : option (result SessionCleanupError A *
    Stores (V := gmap SessionId (gset AssetRef)))) : bool :=
  match o with Some (Ok _, _) => true | _ => false end.

Lemma cleanup_keeps_live_evidence_witness :
  (∃ reports w,
     exec cleanup_answer (reconcile_missing_session_evidence 5) cleanup_stores =
       Some (Ok reports, w) ∧
     ∀ s, retained (w_evidence w) s ≠ ∅ → is_Some (st_sessions (w_events w) !! s)) ∧
  (∃ report w,
     exec cleanup_answer (cleanup_ended_session sample_session 6) cleanup_stores =
       Some (Ok report, w) ∧
     retained (w_evidence w) sample_session = ∅).
Proof.
  destruct (cleanup_keeps_live_evidence EventStreamConfig_default sample_session 6
    cleanup_stores cleanup_stores_kept) as (Hc & _ & _).
  destruct (cleanup_keeps_live_evidence EventStreamConfig_default sample_session 5
    cleanup_stores cleanup_stores_kept) as (_ & _ & Hr).
  split.
  - assert (succeeded (exec cleanup_answer (reconcile_missing_session_evidence 5)
      cleanup_stores) = true) as Hs by (vm_compute; reflexivity).
    destruct (exec cleanup_answer (reconcile_missing_session_evidence 5) cleanup_stores)
      as [[[reports|] w]|] eqn:H1; [|discriminate Hs|discriminate Hs].
    exists reports, w. split; [reflexivity|].
    exact (Hr _ _ (exec_runs _ undisturbed _ _ _ _ _ cleanup_answer_step H1)).
  - assert (succeeded (exec cleanup_answer (cleanup_ended_session sample_session 6)
      cleanup_stores) = true) as Hs by (vm_compute; reflexivity).
    destruct (exec cleanup_answer (cleanup_ended_session sample_session 6) cleanup_stores)
      as [[[report|] w]|] eqn:H1; [|discriminate Hs|discriminate Hs].
    exists report, w. split; [reflexivity|].
    pose proof (exec_runs _ (cleanup_env true) _ _ _ _ _ cleanup_answer_step H1) as Hrun.
    refine (proj2 (proj2 (Hc (Ok report) w _ Hrun))).
    refine (bool_decide_unpack _ _). vm_compute. exact I.
Defined.
