(* ===== verification/EvidenceFs.v ===== *)
(** * The filesystem evidence store

    [crates/evidence-fs/src/lib.rs]: the content-addressed store of evidence
    objects. The directories under the version root are finite maps from
    names to contents, and the in-memory reference index is part of the state.

    Every call to the file system can fail, or be the last thing the process
    does: a list of outcomes says what happens to the calls in order. A run
    whose outcomes are failures from some call on leaves the disk as a process
    that stops at that call does. Calls made after the list is exhausted
    succeed. A call that reads fails as a whole; a removal of a directory tree
    that fails may have removed some of its entries. Symbolic links, file
    types, permissions and the process lock are not modelled, and the bytes of
    a metadata file are what they decode to, or nothing when they are not the
    JSON of its type. *)

From S2P Require Import Prelude Protocol Evidence.

Local Open Scope N_scope.

Definition STORE_VERSION : N := 1.
Definition HASH_ALGORITHM : string := "sha256".

(** ** The files *)

Abbreviation json_file A := (option A).

Record StoreHeader := mkStoreHeader {
  sh_schema_version : N;
  sh_hash_algorithm : string;
}.

Record ObjectMetadata := mkObjectMetadata {
  om_schema_version : N;
  om_algorithm : string;
  om_digest : string;
  om_media_type : string;
  om_byte_length : N;
  om_created_at_ms : N;
}.

#[global] Instance ObjectMetadata_eq_dec : EqDecision ObjectMetadata.
Proof. solve_decision. Defined.

Record ReferenceMarker := mkReferenceMarker {
  rm_schema_version : N;
  rm_session_id : SessionId;
  rm_digest : string;
  rm_media_type : string;
  rm_created_at_ms : N;
}.

#[global] Instance ReferenceMarker_eq_dec : EqDecision ReferenceMarker.
Proof. solve_decision. Defined.

Record UnreferencedMarker := mkUnreferencedMarker {
  um_schema_version : N;
  um_digest : string;
  um_byte_length : N;
  um_released_at_ms : N;
}.

Record ReleasedSessionMarker := mkReleasedSessionMarker {
  sm_schema_version : N;
  sm_session_id : SessionId;
  sm_released_at_ms : N;
}.

(** An object directory: its [meta.json] and its [data] *)
Record ObjectDirectory := mkObjectDirectory {
  od_meta : option (json_file ObjectMetadata);
  od_data : option (list N);
}.

(** The directories written with [atomic_write_json] *)
Inductive MetadataDirectory :=
| VersionRoot
| SessionReferences (session_id : SessionId)
| UnreferencedMarkers
| ReleasedSessions.

#[global] Instance MetadataDirectory_eq_dec : EqDecision MetadataDirectory.
Proof. solve_decision. Defined.

(** What survives the process. [dk_temporaries] are the metadata directories
    in which a temporary file of an interrupted write was left behind. *)
Record Disk := mkDisk {
  dk_header : option (json_file StoreHeader);
  dk_objects : gmap Sha256Digest ObjectDirectory;
  dk_references : gmap SessionId (gmap Sha256Digest (json_file ReferenceMarker));
  dk_released_sessions : gmap SessionId (json_file ReleasedSessionMarker);
  dk_unreferenced : gmap Sha256Digest (json_file UnreferencedMarker);
  dk_staging : gmap Uuid ObjectDirectory;
  dk_trash : gmap Sha256Digest ObjectDirectory;
  dk_temporaries : list MetadataDirectory;
}.

Definition empty_disk : Disk := mkDisk None ∅ ∅ ∅ ∅ ∅ ∅ [].

Record ReferenceIndex := mkReferenceIndex {
  ix_by_digest : gmap Sha256Digest N;
  ix_by_session : gmap SessionId N;
}.

(** The outcome of one call to the file system. A failing removal of a
    directory tree has removed the entries with the given names. *)
Inductive Outcome := Works | Breaks (removed : list string).

Record FileEvidenceStoreConfig := mkFileEvidenceStoreConfig {
  cf_max_asset_bytes : N;
  cf_max_references_per_session : N;
  cf_max_concurrent_writes : N;
}.

Record FileEvidenceStore := mkFileEvidenceStore {
  fs_disk : Disk;
  fs_index : option ReferenceIndex;
  fs_outcomes : list Outcome;
}.

Abbreviation FS := (M FileEvidenceStore EvidenceError).

(** Field updates *)

Definition set_disk (f : Disk → Disk) (s : FileEvidenceStore) : FileEvidenceStore :=
  mkFileEvidenceStore (f (fs_disk s)) (fs_index s) (fs_outcomes s).
Definition set_index (f : option ReferenceIndex → option ReferenceIndex)
    (s : FileEvidenceStore) : FileEvidenceStore :=
  mkFileEvidenceStore (fs_disk s) (f (fs_index s)) (fs_outcomes s).

Definition set_header h (d : Disk) : Disk :=
  mkDisk h (dk_objects d) (dk_references d) (dk_released_sessions d)
    (dk_unreferenced d) (dk_staging d) (dk_trash d) (dk_temporaries d).
Definition set_objects f (d : Disk) : Disk :=
  mkDisk (dk_header d) (f (dk_objects d)) (dk_references d) (dk_released_sessions d)
    (dk_unreferenced d) (dk_staging d) (dk_trash d) (dk_temporaries d).
Definition set_references f (d : Disk) : Disk :=
  mkDisk (dk_header d) (dk_objects d) (f (dk_references d)) (dk_released_sessions d)
    (dk_unreferenced d) (dk_staging d) (dk_trash d) (dk_temporaries d).
Definition set_released f (d : Disk) : Disk :=
  mkDisk (dk_header d) (dk_objects d) (dk_references d) (f (dk_released_sessions d))
    (dk_unreferenced d) (dk_staging d) (dk_trash d) (dk_temporaries d).
Definition set_unreferenced f (d : Disk) : Disk :=
  mkDisk (dk_header d) (dk_objects d) (dk_references d) (dk_released_sessions d)
    (f (dk_unreferenced d)) (dk_staging d) (dk_trash d) (dk_temporaries d).
Definition set_staging f (d : Disk) : Disk :=
  mkDisk (dk_header d) (dk_objects d) (dk_references d) (dk_released_sessions d)
    (dk_unreferenced d) (f (dk_staging d)) (dk_trash d) (dk_temporaries d).
Definition set_trash f (d : Disk) : Disk :=
  mkDisk (dk_header d) (dk_objects d) (dk_references d) (dk_released_sessions d)
    (dk_unreferenced d) (dk_staging d) (f (dk_trash d)) (dk_temporaries d).
Definition set_temporaries f (d : Disk) : Disk :=
  mkDisk (dk_header d) (dk_objects d) (dk_references d) (dk_released_sessions d)
    (dk_unreferenced d) (dk_staging d) (dk_trash d) (f (dk_temporaries d)).

(** ** Calls to the file system *)

Definition next_outcome : FS Outcome := λ s,
  match fs_outcomes s with
  | [] => (Ok Works, s)
  | o :: rest => (Ok o, mkFileEvidenceStore (fs_disk s) (fs_index s) rest)
  end.

Definition io_error {A} (operation : string) : FS A := throw (Io operation "os error").

(** A call that changes the disk or, failing, leaves it as it is *)
Definition io (operation : string) (effect : Disk → Disk) : FS () :=
  outcome ← next_outcome;
  match outcome with
  | Works => modify (set_disk effect)
  | Breaks _ => io_error operation
  end.

(** Calls that only read *)
Definition read {A} (operation : string) (f : Disk → result EvidenceError A) : FS A :=
  check! io operation id;
  disk ← gets fs_disk;
  lift (f disk).

(** [sync_directory] *)
Definition sync_directory : FS () := io "sync directory" id.

(** [fs::remove_dir_all] *)
Definition remove_dir_all (operation : string) (whole : Disk → Disk)
    (part : list string → Disk → Disk) : FS () :=
  outcome ← next_outcome;
  match outcome with
  | Works => modify (set_disk whole)
  | Breaks names => check! modify (set_disk (part names)); io_error operation
  end.

(** [let _ = m] *)
Definition ignore_result {A} (m : FS A) : FS () := λ s, (Ok (), snd (m s)).

(** [m], then [cleanup] when it fails: a drop guard *)
Definition on_error {A} (cleanup : FS ()) (m : FS A) : FS A := λ s,
  match m s with
  | (Err e, s') => (Err e, snd (cleanup s'))
  | ok => ok
  end.

Fixpoint for_each {A} (f : A → FS ()) (l : list A) : FS () :=
  match l with
  | [] => mret ()
  | x :: l => check! f x; for_each f l
  end.

(** A loop that stops at the first error, and its results *)
Fixpoint collect {A B} (f : A → result EvidenceError B) (l : list A)
    : result EvidenceError (list B) :=
  match l with
  | [] => Ok []
  | x :: l => y ← f x; ys ← collect f l; Ok (y :: ys)
  end.

(** [read_directory_sorted] of a directory of [<digest>.json] files. The name
    of a temporary file starts with a dot, so it sorts first, and
    [digest_from_json_file_name] refuses it. *)
Definition list_markers (dir : MetadataDirectory) {A} (entries : gmap Sha256Digest A)
    (disk : Disk) : result EvidenceError (list Sha256Digest) :=
  check! reject_if (bool_decide (dir ∈ dk_temporaries disk))
    (UnsafePath "digest marker must end in .json");
  Ok (btree_keys entries).

Definition session_names {A} (m : gmap SessionId A) : list SessionId :=
  merge_sort N.le (elements (dom m)).

(** [TemporaryFileGuard::drop] *)
Definition drop_temporary (dir : MetadataDirectory) : FS () :=
  outcome ← next_outcome;
  match outcome with
  | Works => mret ()
  | Breaks _ => modify (set_disk (set_temporaries (cons dir)))
  end.

(** [atomic_write_json]: [present] says whether the target exists and [write]
    is the rename of the temporary file to it *)
Definition atomic_write_json (dir : MetadataDirectory) (operation : string)
    (present : Disk → bool) (write : Disk → Disk) : FS () :=
  disk ← gets fs_disk;
  if present disk then mret ()
  else
    check! io "open private store file" id;
    check! on_error (drop_temporary dir) (check! io operation id; io operation write);
    sync_directory.

(** [read_digest_json] and [read_store_json] *)
Definition read_digest_json {A} (digest : Sha256Digest) (kind : string) (f : json_file A)
    : result EvidenceError A :=
  ok_or f (CorruptMetadata digest (kind +:+ " is not valid JSON")).
Definition read_store_json {A} (operation : string) (f : json_file A)
    : result EvidenceError A :=
  ok_or f (CorruptStore (operation +:+ " is not valid JSON")).

(** ** Validation *)

(** [validate_object_metadata] *)
Definition validate_object_metadata (metadata : ObjectMetadata) (digest : Sha256Digest)
    : result EvidenceError () :=
  check! reject_if (negb (om_schema_version metadata =? STORE_VERSION))
    (UnsupportedStoreVersion (om_schema_version metadata));
  check! reject_if (negb (String.eqb (om_algorithm metadata) HASH_ALGORITHM) ||
                    negb (String.eqb (om_digest metadata) digest))
    (CorruptMetadata digest "algorithm or digest mismatch");
  check! reject_if (om_byte_length metadata =? 0)
    (CorruptMetadata digest "stored object has zero length");
  _ ← map_err (λ _, CorruptMetadata digest "stored object metadata is invalid")
    (evidence_metadata_new digest (om_media_type metadata) (om_byte_length metadata)
       (om_created_at_ms metadata) 0);
  Ok ().

(** [validate_reference_marker] *)
Definition validate_reference_marker (marker : ReferenceMarker) (session_id : SessionId)
    (digest : Sha256Digest) (media_type : string) : result EvidenceError () :=
  check! reject_if (negb (rm_schema_version marker =? STORE_VERSION))
    (UnsupportedStoreVersion (rm_schema_version marker));
  reject_if (negb (rm_session_id marker =? session_id) ||
             negb (String.eqb (rm_digest marker) digest) ||
             negb (String.eqb (rm_media_type marker) media_type))
    (CorruptMetadata digest "session reference fields do not match its path").

(** [validate_unreferenced_marker] *)
Definition validate_unreferenced_marker (marker : UnreferencedMarker) (digest : Sha256Digest)
    : result EvidenceError () :=
  check! reject_if (negb (um_schema_version marker =? STORE_VERSION))
    (UnsupportedStoreVersion (um_schema_version marker));
  reject_if (negb (String.eqb (um_digest marker) digest))
    (CorruptMetadata digest "GC marker digest does not match its path").

(** [validate_released_session_marker] *)
Definition validate_released_session_marker (marker : ReleasedSessionMarker)
    (session_id : SessionId) : result EvidenceError () :=
  check! reject_if (negb (sm_schema_version marker =? STORE_VERSION))
    (UnsupportedStoreVersion (sm_schema_version marker));
  reject_if (negb (sm_session_id marker =? session_id))
    (UnsafePath "released Session marker does not match its path").

(** [validate_object_directory]: both entries, here with their contents *)
Definition validate_object_directory (dir : ObjectDirectory) (digest : Sha256Digest)
    : result EvidenceError (json_file ObjectMetadata * list N) :=
  match od_meta dir, od_data dir with
  | Some meta, Some data => Ok (meta, data)
  | _, _ =>
      Err (CorruptMetadata digest "object directory has unknown or missing entries")
  end.

(** ** Digests *)

Definition hex_digit (n : N) : Ascii.ascii :=
  Ascii.ascii_of_N (if n <? 10 then 0x30 + n else 0x57 + n).

(** [write!(value, "{byte:02x}")] for every byte *)
Fixpoint hex_encode (l : list N) : string :=
  match l with
  | [] => ""
  | b :: l => String (hex_digit (b / 16)) (String (hex_digit (b mod 16)) (hex_encode l))
  end.

(** [digest_from_hash] *)
Definition digest_from_hash (hash : list N) : result EvidenceError Sha256Digest :=
  parse_digest (hex_encode hash).

(** [Sha256], of the crate [sha2], is a parameter. *)
Section FileEvidenceStore.
Context (sha256 : list N → list N).

(** ** Reading *)

(** [verify_object_directory_sync] *)
Definition verify_object_directory_sync (dir : ObjectDirectory) (digest : Sha256Digest)
    : result EvidenceError ObjectMetadata :=
  '(meta, data) ← validate_object_directory dir digest;
  metadata ← read_digest_json digest "object metadata" meta;
  check! validate_object_metadata metadata digest;
  check! reject_if (negb (len data =? om_byte_length metadata))
    (CorruptMetadata digest "recovery object byte length differs from metadata");
  actual ← digest_from_hash (sha256 data);
  check! reject_if (negb (String.eqb actual digest)) (Corrupt digest actual);
  Ok metadata.

(** [FileEvidenceStore::read_object_metadata] *)
Definition read_object_metadata (digest : Sha256Digest) (disk : Disk)
    : result EvidenceError ObjectMetadata :=
  dir ← ok_or (dk_objects disk !! digest) (EvidenceNotFound digest);
  '(meta, _) ← validate_object_directory dir digest;
  metadata ← read_digest_json digest "object metadata" meta;
  check! validate_object_metadata metadata digest;
  Ok metadata.

(** [FileEvidenceStore::verify_object]: the metadata and the content of the
    opened file *)
Definition verify_object (digest : Sha256Digest) (disk : Disk)
    : result EvidenceError (ObjectMetadata * list N) :=
  metadata ← read_object_metadata digest disk;
  dir ← ok_or (dk_objects disk !! digest) (EvidenceNotFound digest);
  data ← ok_or (od_data dir) (EvidenceNotFound digest);
  check! reject_if (negb (len data =? om_byte_length metadata))
    (CorruptMetadata digest "stored byte length does not match data");
  actual ← digest_from_hash (sha256 data);
  check! reject_if (negb (String.eqb actual digest)) (Corrupt digest actual);
  Ok (metadata, data).

(** One entry of the loops over the references of a Session: its marker *)
Definition reference_marker (session_id : SessionId)
    (entries : gmap Sha256Digest (json_file ReferenceMarker)) (name : Sha256Digest)
    : result EvidenceError ReferenceMarker :=
  digest ← parse_digest name;
  file ← ok_or (entries !! name) (Io "inspect store file" "not found");
  marker ← read_digest_json digest "session reference" file;
  check! validate_reference_marker marker session_id digest (rm_media_type marker);
  Ok marker.

(** The same with the check of the object it refers to *)
Definition reference_object (session_id : SessionId) (disk : Disk)
    (entries : gmap Sha256Digest (json_file ReferenceMarker)) (name : Sha256Digest)
    : result EvidenceError (Sha256Digest * ObjectMetadata) :=
  marker ← reference_marker session_id entries name;
  object ← read_object_metadata name disk;
  check! reject_if (negb (String.eqb (rm_media_type marker) (om_media_type object)))
    (CorruptMetadata name "session reference media type differs from object");
  Ok (name, object).

(** The loop over one Session's references *)
Definition session_objects (session_id : SessionId) (disk : Disk)
    (entries : gmap Sha256Digest (json_file ReferenceMarker))
    : result EvidenceError (list (Sha256Digest * ObjectMetadata)) :=
  names ← list_markers (SessionReferences session_id) entries disk;
  collect (reference_object session_id disk entries) names.

Definition saturating_count {A} (l : list A) : N :=
  foldl (λ count _, u64_saturating_add count 1) 0 l.

(** [session_reference_count] *)
Definition session_reference_count (session_id : SessionId) (disk : Disk)
    : result EvidenceError N :=
  match dk_references disk !! session_id with
  | None => Ok 0
  | Some entries =>
      objects ← session_objects session_id disk entries;
      Ok (saturating_count objects)
  end.

(** The outer loop over the directories of [references] *)
Definition over_sessions {A}
    (f : SessionId → gmap Sha256Digest (json_file ReferenceMarker) → result EvidenceError A)
    (disk : Disk) : result EvidenceError (list A) :=
  collect (λ session_id,
    entries ← ok_or (dk_references disk !! session_id) (Io "inspect store directory" "not found");
    f session_id entries) (session_names (dk_references disk)).

Definition count_entry {K} `{Countable K} (m : gmap K N) (k : K) : gmap K N :=
  <[k := u64_saturating_add (default 0 (m !! k)) 1]> m.

(** [scan_reference_index] *)
Definition scan_reference_index (disk : Disk) : result EvidenceError ReferenceIndex :=
  sessions ← over_sessions (λ session_id entries,
    objects ← session_objects session_id disk entries;
    Ok (session_id, objects.*1)) disk;
  Ok (foldl (λ index '(session_id, digests),
    let session_count := saturating_count digests in
    mkReferenceIndex
      (foldl count_entry (ix_by_digest index) digests)
      (if 0 <? session_count then <[session_id := session_count]> (ix_by_session index)
       else ix_by_session index)) (mkReferenceIndex ∅ ∅) sessions).

(** [referenced_digests] *)
Definition referenced_digests (disk : Disk) : result EvidenceError (gset Sha256Digest) :=
  sessions ← over_sessions (λ session_id entries,
    objects ← session_objects session_id disk entries;
    Ok (objects.*1)) disk;
  Ok (list_to_set (concat sessions)).

(** [raw_referenced_digests]: without looking at the objects *)
Definition raw_referenced_digests (disk : Disk) : result EvidenceError (gset Sha256Digest) :=
  sessions ← over_sessions (λ session_id entries,
    names ← list_markers (SessionReferences session_id) entries disk;
    _ ← collect (reference_marker session_id entries) names;
    Ok names) disk;
  Ok (list_to_set (concat sessions)).

(** [referenced_session_ids] *)
Definition referenced_session_ids (disk : Disk) : result EvidenceError (list SessionId) :=
  sessions ← over_sessions (λ session_id _,
    count ← session_reference_count session_id disk;
    Ok (session_id, count)) disk;
  Ok (merge_sort N.le ((filter (λ p, 0 < p.2) sessions).*1)).

(** [count_references] *)
Definition count_references (target : Sha256Digest) (disk : Disk) : result EvidenceError N :=
  sessions ← over_sessions (λ session_id entries,
    objects ← session_objects session_id disk entries;
    Ok (objects.*1)) disk;
  Ok (saturating_count (filter (λ digest, digest = target) (concat sessions))).

(** [object_digests]; the shard of an object is a function of its digest *)
Definition object_digests (disk : Disk) : result EvidenceError (list Sha256Digest) :=
  collect (λ name,
    digest ← parse_digest name;
    dir ← ok_or (dk_objects disk !! name) (EvidenceNotFound name);
    _ ← validate_object_directory dir digest;
    Ok digest) (btree_keys (dk_objects disk)).

(** ** The reference index *)

(** [rebuild_reference_index] *)
Definition rebuild_reference_index : FS () :=
  rebuilt ← read "list session references" scan_reference_index;
  modify (set_index (λ _, Some rebuilt)).

(** [indexed_reference_count] *)
Definition indexed_reference_count (digest : Sha256Digest) : FS N :=
  index ← gets fs_index;
  match index with
  | Some index => mret (default 0 (ix_by_digest index !! digest))
  | None => read "list session references" (count_references digest)
  end.

(** [indexed_session_reference_count] *)
Definition indexed_session_reference_count (session_id : SessionId) : FS N :=
  index ← gets fs_index;
  match index with
  | Some index => mret (default 0 (ix_by_session index !! session_id))
  | None => read "list session references" (session_reference_count session_id)
  end.

(** [indexed_referenced_digests] *)
Definition indexed_referenced_digests : FS (gset Sha256Digest) :=
  index ← gets fs_index;
  match index with
  | Some index => mret (dom (ix_by_digest index))
  | None => read "list session references" referenced_digests
  end.

(** [index_reference_added] *)
Definition index_reference_added (session_id : SessionId) (digest : Sha256Digest)
    : option ReferenceIndex → option ReferenceIndex :=
  fmap (λ index, mkReferenceIndex (count_entry (ix_by_digest index) digest)
                   (count_entry (ix_by_session index) session_id)).

Definition remove_one (m : gmap Sha256Digest N) (digest : Sha256Digest) : gmap Sha256Digest N :=
  match m !! digest with
  | Some count => if 1 <? count then <[digest := count - 1]> m else delete digest m
  | None => m
  end.

(** [index_session_removed] *)
Definition index_session_removed (session_id : SessionId) (digests : list Sha256Digest)
    : option ReferenceIndex → option ReferenceIndex :=
  fmap (λ index, mkReferenceIndex (foldl remove_one (ix_by_digest index) digests)
                   (delete session_id (ix_by_session index))).

(** ** Markers *)

Definition exists_at {K A} `{Countable K} (m : gmap K A) (k : K) : bool :=
  bool_decide (is_Some (m !! k)).

(** [remove_unreferenced_marker_if_present] *)
Definition remove_unreferenced_marker_if_present (digest : Sha256Digest) : FS () :=
  disk ← gets fs_disk;
  if exists_at (dk_unreferenced disk) digest then
    check! io "remove GC marker" (set_unreferenced (delete digest));
    sync_directory
  else mret ().

(** [ensure_unreferenced_marker] *)
Definition ensure_unreferenced_marker (digest : Sha256Digest) (byte_length released_at_ms : N)
    : FS bool :=
  disk ← gets fs_disk;
  match dk_unreferenced disk !! digest with
  | Some file =>
      marker ← read "read GC marker" (λ _, read_digest_json digest "GC marker" file);
      check! lift (validate_unreferenced_marker marker digest);
      fail_if! negb (um_byte_length marker =? byte_length)
        with CorruptMetadata digest "GC marker byte length differs";
      mret false
  | None =>
      check! atomic_write_json UnreferencedMarkers "write orphan recovery marker"
        (λ disk, exists_at (dk_unreferenced disk) digest)
        (set_unreferenced <[digest :=
           Some (mkUnreferencedMarker STORE_VERSION digest byte_length released_at_ms)]>);
      mret true
  end.

(** [mark_unreferenced_if_unowned] *)
Definition mark_unreferenced_if_unowned (digest : Sha256Digest)
    (byte_length released_at_ms : N) : FS () :=
  count ← indexed_reference_count digest;
  if negb (count =? 0) then mret ()
  else _ ← ensure_unreferenced_marker digest byte_length released_at_ms; mret ().

(** [ensure_session_open] *)
Definition ensure_session_open (session_id : SessionId) : FS () :=
  disk ← gets fs_disk;
  match dk_released_sessions disk !! session_id with
  | None => mret ()
  | Some file =>
      marker ← read "read released Session marker"
        (λ _, read_store_json "read released Session marker" file);
      check! lift (validate_released_session_marker marker session_id);
      throw (SessionClosed session_id)
  end.

(** [persist_session_release] *)
Definition persist_session_release (session_id : SessionId) (released_at_ms : N) : FS N :=
  disk ← gets fs_disk;
  match dk_released_sessions disk !! session_id with
  | Some file =>
      marker ← read "read released Session marker"
        (λ _, read_store_json "read released Session marker" file);
      check! lift (validate_released_session_marker marker session_id);
      mret (sm_released_at_ms marker)
  | None =>
      check! atomic_write_json ReleasedSessions "write released Session marker"
        (λ disk, exists_at (dk_released_sessions disk) session_id)
        (set_released <[session_id :=
           Some (mkReleasedSessionMarker STORE_VERSION session_id released_at_ms)]>);
      mret released_at_ms
  end.

(** ** Recovery *)

Definition remove_entries (names : list string) (dir : ObjectDirectory) : ObjectDirectory :=
  mkObjectDirectory
    (if bool_decide ("meta.json" ∈ names) then None else od_meta dir)
    (if bool_decide ("data" ∈ names) then None else od_data dir).

(** [fs::remove_dir_all] of a directory in the trash *)
Definition remove_trash (operation : string) (digest : Sha256Digest) : FS () :=
  remove_dir_all operation (set_trash (delete digest))
    (λ names, set_trash (alter (remove_entries names) digest)).

(** [recover_gc_trash_entry] *)
Definition recover_gc_trash_entry (digest : Sha256Digest) (referenced : bool) : FS () :=
  disk ← gets fs_disk;
  match dk_trash disk !! digest with
  | None => mret ()
  | Some trash =>
      match dk_objects disk !! digest with
      | Some normal =>
          live_metadata ← read "hash object data during recovery"
            (λ _, verify_object_directory_sync normal digest);
          trash_metadata ← read "hash object data during recovery"
            (λ _, verify_object_directory_sync trash digest);
          fail_if! negb (bool_decide (live_metadata = trash_metadata))
            with CorruptMetadata digest "live object and GC trash copy differ";
          check! remove_trash "remove duplicate GC trash" digest;
          check! sync_directory;
          if referenced then remove_unreferenced_marker_if_present digest else mret ()
      | None =>
          if referenced then
            _ ← read "hash object data during recovery"
              (λ _, verify_object_directory_sync trash digest);
            check! io "create store directory" id;
            check! io "restore referenced GC object"
              (λ disk, set_trash (delete digest) (set_objects <[digest := trash]> disk));
            check! sync_directory;
            check! sync_directory;
            remove_unreferenced_marker_if_present digest
          else
            check! remove_unreferenced_marker_if_present digest;
            check! remove_trash "finish GC trash deletion" digest;
            sync_directory
      end
  end.

(** [recover_gc_trash] *)
Definition recover_gc_trash : FS () :=
  referenced ← read "list session references" raw_referenced_digests;
  disk ← gets fs_disk;
  check! io "list GC trash" id;
  for_each (λ name,
    digest ← lift (parse_digest name);
    recover_gc_trash_entry digest (bool_decide (digest ∈ referenced)))
    (btree_keys (dk_trash disk)).

(** The first loop of [recover_reference_state] *)
Definition recover_referenced (digest : Sha256Digest) : FS () :=
  disk ← gets fs_disk;
  fail_if! negb (exists_at (dk_objects disk) digest)
    with CorruptMetadata digest "session reference points to a missing object";
  _ ← read "read object metadata" (read_object_metadata digest);
  if exists_at (dk_unreferenced disk) digest then
    io "remove stale GC marker" (set_unreferenced (delete digest))
  else mret ().

(** Its second loop *)
Definition recover_orphan (now_ms : N) (references : gset Sha256Digest)
    (digest : Sha256Digest) : FS () :=
  if bool_decide (digest ∈ references) then mret ()
  else
    metadata ← read "read object metadata" (read_object_metadata digest);
    disk ← gets fs_disk;
    if exists_at (dk_unreferenced disk) digest then mret ()
    else atomic_write_json UnreferencedMarkers "recover orphan marker"
      (λ disk, exists_at (dk_unreferenced disk) digest)
      (set_unreferenced <[digest :=
         Some (mkUnreferencedMarker STORE_VERSION digest (om_byte_length metadata) now_ms)]>).

(** [parse_digest], [read_digest_json] and [validate_unreferenced_marker] of
    one entry of the directory of markers *)
Definition unreferenced_marker (name : Sha256Digest) (disk : Disk)
    : result EvidenceError (Sha256Digest * UnreferencedMarker) :=
  digest ← parse_digest name;
  file ← ok_or (dk_unreferenced disk !! name) (Io "inspect store file" "not found");
  marker ← read_digest_json digest "GC marker" file;
  check! validate_unreferenced_marker marker digest;
  Ok (digest, marker).

(** Its third loop *)
Definition recover_marker (name : Sha256Digest) : FS () :=
  _ ← read "read GC marker" (unreferenced_marker name);
  disk ← gets fs_disk;
  if negb (exists_at (dk_objects disk) name) then
    io "finish missing-object GC marker deletion" (set_unreferenced (delete name))
  else mret ().

(** [recover_reference_state] *)
Definition recover_reference_state (now_ms : N) : FS () :=
  references ← read "list session references" raw_referenced_digests;
  check! for_each recover_referenced (merge_sort string_le (elements references));
  objects ← read "list objects" object_digests;
  check! for_each (recover_orphan now_ms references) objects;
  names ← read "list GC markers"
    (λ disk, list_markers UnreferencedMarkers (dk_unreferenced disk) disk);
  check! for_each recover_marker names;
  sync_directory.

(** ** References *)

Definition markers_of (session_id : SessionId) (disk : Disk)
    : gmap Sha256Digest (json_file ReferenceMarker) :=
  default ∅ (dk_references disk !! session_id).

Definition clear_session_temporaries (session_id : SessionId) (disk : Disk) : Disk :=
  set_temporaries (filter (λ dir, dir ≠ SessionReferences session_id)) disk.

(** [fs::remove_dir_all] of the references of a Session; the names of a
    partial removal are digests *)
Definition remove_session_references (session_id : SessionId) : FS () :=
  remove_dir_all "remove session references"
    (λ disk, clear_session_temporaries session_id
       (set_references (delete session_id) disk))
    (λ names, set_references (alter (filter (λ '(digest, _), digest ∉ names)) session_id)).

(** The loop of [release_references_locked] over the released digests *)
Fixpoint mark_released (released : list (Sha256Digest * ObjectMetadata))
    (released_at_ms newly_unreferenced_assets newly_unreferenced_bytes : N) : FS (N * N) :=
  match released with
  | [] => mret (newly_unreferenced_assets, newly_unreferenced_bytes)
  | (digest, metadata) :: released =>
      count ← indexed_reference_count digest;
      created ← (if count =? 0
                 then ensure_unreferenced_marker digest (om_byte_length metadata) released_at_ms
                 else mret false);
      if created : bool then
        mark_released released released_at_ms
          (u64_saturating_add newly_unreferenced_assets 1)
          (u64_saturating_add newly_unreferenced_bytes (om_byte_length metadata))
      else
        mark_released released released_at_ms newly_unreferenced_assets newly_unreferenced_bytes
  end.

(** [release_references_locked] *)
Definition release_references_locked (now_ms : N) (session_id : SessionId)
    (released_at_ms : N) : FS ReleaseReport :=
  disk ← gets fs_disk;
  match dk_references disk !! session_id with
  | None =>
      check! recover_reference_state now_ms;
      check! rebuild_reference_index;
      mret (mkReleaseReport session_id 0 0 0)
  | Some entries =>
      released ← read "list session references"
        (λ disk, session_objects session_id disk entries);
      check! remove_session_references session_id;
      check! modify (set_index (index_session_removed session_id released.*1));
      check! sync_directory;
      '(assets, unreferenced_bytes) ← mark_released released released_at_ms 0 0;
      mret (mkReleaseReport session_id (len released) assets unreferenced_bytes)
  end.

(** One marker of [recover_released_sessions] *)
Definition recover_released_session (now_ms : N) (session_id : SessionId) : FS () :=
  marker ← read "read released Session marker" (λ disk,
    file ← ok_or (dk_released_sessions disk !! session_id) (Io "inspect store file" "not found");
    marker ← read_store_json "read released Session marker" file;
    check! validate_released_session_marker marker session_id;
    Ok marker);
  disk ← gets fs_disk;
  if exists_at (dk_references disk) session_id then
    _ ← release_references_locked now_ms session_id (sm_released_at_ms marker); mret ()
  else mret ().

(** [recover_released_sessions] *)
Definition recover_released_sessions (now_ms : N) : FS () :=
  names ← read "list released Sessions" (λ disk,
    check! reject_if (bool_decide (ReleasedSessions ∈ dk_temporaries disk))
      (UnsafePath "released Session marker must end in .json");
    Ok (session_names (dk_released_sessions disk)));
  for_each (recover_released_session now_ms) names.

(** [add_reference] *)
Definition add_reference (config : FileEvidenceStoreConfig) (session_id : SessionId)
    (digest : Sha256Digest) (media_type : string) (created_at_ms : N) : FS bool :=
  check! ensure_session_open session_id;
  disk ← gets fs_disk;
  match markers_of session_id disk !! digest with
  | Some file =>
      marker ← read "read session reference"
        (λ _, read_digest_json digest "session reference" file);
      check! lift (validate_reference_marker marker session_id digest media_type);
      mret false
  | None =>
      existing ← (if exists_at (dk_references disk) session_id
                  then indexed_session_reference_count session_id else mret 0);
      fail_if! cf_max_references_per_session config <=? existing
        with ReferenceLimit (cf_max_references_per_session config);
      check! remove_unreferenced_marker_if_present digest;
      check! (if exists_at (dk_references disk) session_id then mret ()
              else
                check! io "create store directory" (set_references <[session_id := ∅]>);
                sync_directory);
      check! atomic_write_json (SessionReferences session_id) "write session reference"
        (λ disk, exists_at (markers_of session_id disk) digest)
        (λ disk, set_references <[session_id := <[digest :=
           Some (mkReferenceMarker STORE_VERSION session_id digest media_type created_at_ms)]>
           (markers_of session_id disk)]> disk);
      check! modify (set_index (index_reference_added session_id digest));
      mret true
  end.

(** ** The operations of the [EvidenceStore] trait *)

(** What [put] holds between staging the content and publishing it *)
Record StagedPut := mkStagedPut {
  sp_path : Uuid;
  sp_session_id : SessionId;
  sp_digest : Sha256Digest;
  sp_metadata : ObjectMetadata;
}.

(** [StagingGuard::drop] *)
Definition drop_staging (path : Uuid) : FS () :=
  ignore_result (remove_dir_all "remove staging" (set_staging (delete path))
    (λ names, set_staging (alter (remove_entries names) path))).

(** The read loop of [put]: an empty read is the end of the input *)
Fixpoint stage_content (config : FileEvidenceStoreConfig) (path : Uuid)
    (chunks : list (list N)) (actual_size : N) (hashed : list N) : FS (N * list N) :=
  check! io "read evidence input" id;
  match chunks with
  | [] | [] :: _ => mret (actual_size, hashed)
  | chunk :: chunks =>
      actual_size ← lift (ok_or (u64_checked_add actual_size (len chunk))
        (TooLarge U64_MAX (cf_max_asset_bytes config)));
      fail_if! cf_max_asset_bytes config <? actual_size
        with TooLarge actual_size (cf_max_asset_bytes config);
      check! io "write staged evidence" (set_staging (alter (λ dir,
        mkObjectDirectory (od_meta dir) (Some (default [] (od_data dir) ++ chunk))) path));
      stage_content config path chunks actual_size (hashed ++ chunk)
  end.

(** [put], up to the staged object *)
Definition put_stage (config : FileEvidenceStoreConfig) (path : Uuid) (created_at_ms : N)
    (request : PutEvidence) (input : list (list N)) : FS StagedPut :=
  check! ensure_session_open (put_session_id request);
  fail_if! (match put_declared_size_bytes request with
            | Some declared => cf_max_asset_bytes config <? declared
            | None => false
            end) with
    TooLarge (default 0 (put_declared_size_bytes request)) (cf_max_asset_bytes config);
  disk ← gets fs_disk;
  fail_if! exists_at (dk_staging disk) path with Io "create staging directory" "exists";
  check! io "create staging directory" (set_staging <[path := mkObjectDirectory None None]>);
  on_error (drop_staging path) (
    check! io "open private store file"
      (set_staging <[path := mkObjectDirectory None (Some [])]>);
    '(actual_size, hashed) ← stage_content config path input 0 [];
    fail_if! actual_size =? 0 with EmptyContent;
    fail_if! (match put_declared_size_bytes request with
              | Some declared => negb (declared =? actual_size)
              | None => false
              end) with
      DeclaredSizeMismatch (default 0 (put_declared_size_bytes request)) actual_size;
    check! io "sync staged evidence" id;
    digest ← lift (digest_from_hash (sha256 hashed));
    fail_if! (match put_expected_sha256 request with
              | Some expected => negb (String.eqb expected digest)
              | None => false
              end) with
      DigestMismatch (default digest (put_expected_sha256 request)) digest;
    let metadata := mkObjectMetadata STORE_VERSION HASH_ALGORITHM digest
      (put_media_type request) actual_size created_at_ms in
    check! io "write staged object metadata" (set_staging (alter (λ dir,
      mkObjectDirectory (Some (Some metadata)) (od_data dir)) path));
    check! sync_directory;
    mret (mkStagedPut path (put_session_id request) digest metadata)).

(** The object of a staged put: the published one, or the staged one renamed *)
Definition publish_object (staged : StagedPut) : FS (ObjectMetadata * bool) :=
  let digest := sp_digest staged in
  count ← indexed_reference_count digest;
  check! recover_gc_trash_entry digest (0 <? count);
  check! io "create store directory" id;
  disk ← gets fs_disk;
  match dk_objects disk !! digest with
  | Some _ =>
      '(existing, _) ← read "read evidence data" (verify_object digest);
      fail_if! negb (String.eqb (om_media_type existing) (om_media_type (sp_metadata staged)))
        with MediaTypeConflict digest (om_media_type existing)
               (om_media_type (sp_metadata staged));
      fail_if! negb (om_byte_length existing =? om_byte_length (sp_metadata staged))
        with CorruptMetadata digest "deduplicated object size differs";
      mret (existing, true)
  | None =>
      dir ← lift (ok_or (dk_staging disk !! sp_path staged)
        (Io "publish evidence object" "not found"));
      check! io "publish evidence object" (λ disk,
        set_staging (delete (sp_path staged)) (set_objects <[digest := dir]> disk));
      mret (sp_metadata staged, false)
  end.

(** [put], from the gates on *)
Definition put_publish (config : FileEvidenceStoreConfig) (staged : StagedPut)
    : FS StoredEvidence :=
  let digest := sp_digest staged in
  '(metadata, deduplicated) ←
    on_error (drop_staging (sp_path staged)) (publish_object staged);
  check! (if deduplicated : bool then drop_staging (sp_path staged)
          else check! sync_directory; sync_directory);
  let orphaned := mark_unreferenced_if_unowned digest (om_byte_length metadata)
    (om_created_at_ms (sp_metadata staged)) in
  reference_count_before ← on_error orphaned (indexed_reference_count digest);
  added ← on_error orphaned (add_reference config (sp_session_id staged) digest
    (om_media_type metadata) (om_created_at_ms (sp_metadata staged)));
  metadata ← lift (evidence_metadata_new digest (om_media_type metadata)
    (om_byte_length metadata) (om_created_at_ms metadata)
    (u64_saturating_add reference_count_before (if added : bool then 1 else 0)));
  mret (mkStoredEvidence metadata deduplicated).

(** [EvidenceStore::put], undisturbed between its two parts *)
Definition put (config : FileEvidenceStoreConfig) (path : Uuid) (created_at_ms : N)
    (request : PutEvidence) (input : list (list N)) : FS StoredEvidence :=
  staged ← put_stage config path created_at_ms request input;
  put_publish config staged.

(** [EvidenceStore::attach] *)
Definition attach (config : FileEvidenceStoreConfig) (now_ms : N) (session_id : SessionId)
    (asset : AssetRef) : FS StoredEvidence :=
  digest ← lift (from_asset_ref asset);
  check! ensure_session_open session_id;
  '(metadata, _) ← read "read evidence data" (verify_object digest);
  fail_if! negb (String.eqb (om_media_type metadata) (ar_media_type asset))
    with InvalidReference "mediaType does not match stored metadata";
  reference_count_before ← indexed_reference_count digest;
  added ← add_reference config session_id digest (om_media_type metadata) now_ms;
  metadata ← lift (evidence_metadata_new digest (om_media_type metadata)
    (om_byte_length metadata) (om_created_at_ms metadata)
    (u64_saturating_add reference_count_before (if added : bool then 1 else 0)));
  mret (mkStoredEvidence metadata true).

(** [EvidenceStore::verify_session_reference] *)
Definition verify_session_reference (session_id : SessionId) (asset : AssetRef)
    : FS EvidenceMetadata :=
  digest ← lift (from_asset_ref asset);
  check! ensure_session_open session_id;
  disk ← gets fs_disk;
  file ← lift (ok_or (markers_of session_id disk !! digest) (NotAttached session_id digest));
  marker ← read "read session reference"
    (λ _, read_digest_json digest "session reference" file);
  check! lift (validate_reference_marker marker session_id digest (rm_media_type marker));
  fail_if! negb (String.eqb (rm_media_type marker) (ar_media_type asset))
    with InvalidReference "mediaType does not match session reference";
  '(metadata, _) ← read "read evidence data" (verify_object digest);
  fail_if! negb (String.eqb (om_media_type metadata) (rm_media_type marker))
    with CorruptMetadata digest "session reference media type differs from object";
  reference_count ← indexed_reference_count digest;
  lift (evidence_metadata_new digest (om_media_type metadata) (om_byte_length metadata)
    (om_created_at_ms metadata) reference_count).

(** [EvidenceStore::open]: the content of the stream *)
Definition open (digest : Sha256Digest) : FS (list N) :=
  '(_, data) ← read "read evidence data" (verify_object digest);
  mret data.

(** [FileEvidenceStore::open_asset] *)
Definition open_asset (asset : AssetRef) : FS (list N) :=
  digest ← lift (from_asset_ref asset);
  '(metadata, data) ← read "read evidence data" (verify_object digest);
  fail_if! negb (String.eqb (om_media_type metadata) (ar_media_type asset))
    with InvalidReference "mediaType does not match stored metadata";
  mret data.

(** [EvidenceStore::metadata] *)
Definition metadata (digest : Sha256Digest) : FS EvidenceMetadata :=
  '(metadata, _) ← read "read evidence data" (verify_object digest);
  reference_count ← read "list session references" (count_references digest);
  lift (evidence_metadata_new digest (om_media_type metadata) (om_byte_length metadata)
    (om_created_at_ms metadata) reference_count).

(** [EvidenceStore::referenced_sessions] *)
Definition referenced_sessions : FS (list SessionId) :=
  read "list session references" referenced_session_ids.

(** [EvidenceStore::release_session] *)
Definition release_session (now_ms : N) (session_id : SessionId) (released_at_ms : N)
    : FS ReleaseReport :=
  released_at_ms ← persist_session_release session_id released_at_ms;
  release_references_locked now_ms session_id released_at_ms.

(** The deletion of one candidate of [gc] *)
Definition gc_delete (digest : Sha256Digest) : FS () :=
  disk ← gets fs_disk;
  dir ← lift (ok_or (dk_objects disk !! digest) (Io "inspect store directory" "not found"));
  _ ← lift (validate_object_directory dir digest);
  fail_if! exists_at (dk_trash disk) digest
    with CorruptMetadata digest "GC trash target already exists";
  check! io "move evidence object to GC trash" (λ disk,
    set_trash <[digest := dir]> (set_objects (delete digest) disk));
  check! sync_directory;
  check! sync_directory;
  check! io "delete GC marker" (set_unreferenced (delete digest));
  check! sync_directory;
  check! remove_trash "delete GC trash" digest;
  sync_directory.

(** The loop of [gc] over the markers *)
Fixpoint gc_loop (policy : GcPolicy) (markers : list (Sha256Digest * UnreferencedMarker))
    (report : GcReport) : FS GcReport :=
  match markers with
  | [] => mret report
  | (digest, marker) :: markers =>
      if gp_unreferenced_before_ms policy <? um_released_at_ms marker
      then gc_loop policy markers report
      else
        '(metadata, _) ← read "read evidence data" (verify_object digest);
        fail_if! negb (om_byte_length metadata =? um_byte_length marker)
          with CorruptMetadata digest "GC marker byte length differs";
        if (match gp_max_assets policy with
            | Some maximum => maximum <=? gr_candidate_assets report
            | None => false
            end) then mret report
        else if (match gp_max_bytes policy with
            | Some maximum =>
                maximum <? u64_saturating_add (gr_candidate_bytes report) (om_byte_length metadata)
            | None => false
            end) then gc_loop policy markers report
        else
          let candidate := mkGcReport (gr_examined_assets report)
            (u64_saturating_add (gr_candidate_assets report) 1)
            (u64_saturating_add (gr_candidate_bytes report) (om_byte_length metadata))
            (gr_deleted_assets report) (gr_deleted_bytes report) (gr_dry_run report) in
          if gp_dry_run policy then gc_loop policy markers candidate
          else
            check! gc_delete digest;
            gc_loop policy markers (mkGcReport (gr_examined_assets candidate)
              (gr_candidate_assets candidate) (gr_candidate_bytes candidate)
              (u64_saturating_add (gr_deleted_assets report) 1)
              (u64_saturating_add (gr_deleted_bytes report) (om_byte_length metadata))
              (gr_dry_run report))
  end.

(** The markers [gc] examines *)
Definition gc_markers (referenced : gset Sha256Digest) (disk : Disk)
    : result EvidenceError (list (Sha256Digest * UnreferencedMarker)) :=
  names ← list_markers UnreferencedMarkers (dk_unreferenced disk) disk;
  collect (λ name,
    '(digest, marker) ← unreferenced_marker name disk;
    check! reject_if (bool_decide (digest ∈ referenced))
      (EvidenceInternal "GC marker exists for a referenced object");
    Ok (digest, marker)) names.

(** [EvidenceStore::gc] *)
Definition gc (now_ms : N) (policy : GcPolicy) : FS GcReport :=
  check! recover_gc_trash;
  check! recover_reference_state now_ms;
  check! rebuild_reference_index;
  referenced ← indexed_referenced_digests;
  markers ← read "list GC markers" (gc_markers referenced);
  gc_loop policy markers (mkGcReport (len markers) 0 0 0 0 (gp_dry_run policy)).

(** ** Opening a store *)

(** [cleanup_atomic_files_in] *)
Definition cleanup_atomic_files_in (dir : MetadataDirectory) : FS () :=
  disk ← gets fs_disk;
  if bool_decide (dir ∈ dk_temporaries disk) then
    check! io "remove atomic temporary" (set_temporaries (filter (λ dir', dir' ≠ dir)));
    sync_directory
  else mret ().

(** The loop of [cleanup_atomic_temporaries] over the Session directories *)
Definition cleanup_session_directory (session_id : SessionId) : FS () :=
  check! cleanup_atomic_files_in (SessionReferences session_id);
  disk ← gets fs_disk;
  if bool_decide (dk_references disk !! session_id = Some ∅) then
    io "remove empty session references" (set_references (delete session_id))
  else mret ().

(** [cleanup_atomic_temporaries] *)
Definition cleanup_atomic_temporaries : FS () :=
  check! cleanup_atomic_files_in VersionRoot;
  disk ← gets fs_disk;
  check! for_each cleanup_session_directory (session_names (dk_references disk));
  cleaned ← gets fs_disk;
  check! (if bool_decide (size (dk_references cleaned) = size (dk_references disk))
          then mret () else sync_directory);
  check! cleanup_atomic_files_in UnreferencedMarkers;
  cleanup_atomic_files_in ReleasedSessions.

Definition check_header (operation : string) (file : json_file StoreHeader)
    : result EvidenceError () :=
  header ← read_store_json operation file;
  check! reject_if (negb (sh_schema_version header =? STORE_VERSION))
    (UnsupportedStoreVersion (sh_schema_version header));
  reject_if (negb (String.eqb (sh_hash_algorithm header) HASH_ALGORITHM))
    (CorruptStore "unsupported Evidence Store hash algorithm").

(** [preflight_existing_store], its part under [v1] *)
Definition preflight_existing_store : FS () :=
  disk ← gets fs_disk;
  match dk_header disk with
  | Some file => read "preflight store header" (λ _, check_header "preflight store header" file)
  | None => mret ()
  end.

(** [initialize_header] *)
Definition initialize_header : FS () :=
  disk ← gets fs_disk;
  match dk_header disk with
  | Some file => read "store header" (λ _, check_header "store header" file)
  | None =>
      atomic_write_json VersionRoot "write store header"
        (λ disk, bool_decide (is_Some (dk_header disk)))
        (set_header (Some (Some (mkStoreHeader STORE_VERSION HASH_ALGORITHM))))
  end.

(** [cleanup_abandoned_staging] *)
Definition cleanup_abandoned_staging : FS () :=
  disk ← gets fs_disk;
  check! for_each (λ path, remove_dir_all "remove abandoned staging"
    (set_staging (delete path)) (λ names, set_staging (alter (remove_entries names) path)))
    (session_names (dk_staging disk));
  sync_directory.

(** [FileEvidenceStore::new], from the limits and from the store header on;
    the tokio limit on permits is the last bound *)
Definition SEMAPHORE_MAX_PERMITS : N := USIZE_MAX / 8.

Definition open_store (config : FileEvidenceStoreConfig) (now_ms : N) : FS () :=
  fail_if! (cf_max_asset_bytes config =? 0) || (cf_max_references_per_session config =? 0) ||
    (cf_max_concurrent_writes config =? 0) ||
    (SEMAPHORE_MAX_PERMITS <? cf_max_concurrent_writes config) with InvalidConfiguration
    "filesystem Evidence Store limits are zero or exceed the runtime maximum";
  check! preflight_existing_store;
  check! modify (set_index (λ _, None));
  check! cleanup_atomic_temporaries;
  check! initialize_header;
  check! cleanup_abandoned_staging;
  check! recover_gc_trash;
  check! rebuild_reference_index;
  check! recover_released_sessions now_ms;
  check! recover_reference_state now_ms;
  rebuild_reference_index.

End FileEvidenceStore.
