(* ===== verification/EvidenceFsInv.v ===== *)
(** * What the filesystem evidence store keeps on disk

    A program logic for the operations of [EvidenceFs], whose judgement covers
    at once every way the calls to the file system can fail and the runs in
    which none does, and the invariant of the disk that every operation keeps
    wherever it stops. *)

From S2P Require Import Prelude Protocol Evidence EvidenceFs.

Local Open Scope N_scope.

(** ** The logic *)

(** Nothing fails, and no interrupted write has left a temporary file. *)
Definition quiet (s : FileEvidenceStore) : Prop :=
  fs_outcomes s = [] ∧ dk_temporaries (fs_disk s) = [].

(** From a disk with [P], [m] returns on a disk with [Q], or fails on a disk
    with [R]; from a quiet state it returns in one, or fails with an error in
    [E]. *)
Definition spec {A} (P : Disk → Prop) (m : FS A) (Q : A → Disk → Prop)
    (R : Disk → Prop) (E : EvidenceError → Prop) : Prop :=
  ∀ s, P (fs_disk s) →
  match m s with
  | (Ok a, s') => Q a (fs_disk s') ∧ (quiet s → quiet s')
  | (Err e, s') => R (fs_disk s') ∧ (quiet s → E e)
  end.

Section Logic.
Context {A : Type}.
Implicit Types (P R : Disk → Prop) (E : EvidenceError → Prop).

Lemma spec_mono (P P' : Disk → Prop) (m : FS A) (Q Q' : A → Disk → Prop) R R' E E' :
  spec P m Q R E → (∀ d, P' d → P d) → (∀ a d, Q a d → Q' a d) →
  (∀ d, R d → R' d) → (∀ e, E e → E' e) → spec P' m Q' R' E'.
Proof.
  intros Hm HP HQ HR HE s Hs. specialize (Hm s (HP _ Hs)).
  destruct (m s) as [[a|e] s']; naive_solver.
Qed.

Lemma spec_conseq (P P' : Disk → Prop) (m : FS A) (Q Q' : A → Disk → Prop) R E :
  spec P m Q R E → (∀ d, P' d → P d) → (∀ a d, Q a d → Q' a d) → spec P' m Q' R E.
Proof. intros. by eapply spec_mono. Qed.

Lemma spec_pre (P P' : Disk → Prop) (m : FS A) (Q : A → Disk → Prop) R E :
  spec P m Q R E → (∀ d, P' d → P d) → spec P' m Q R E.
Proof. intros. by eapply spec_conseq. Qed.

Lemma spec_ret P (a : A) (Q : A → Disk → Prop) R E :
  (∀ d, P d → Q a d) → spec P (mret a) Q R E.
Proof. intros H s Hs. cbn. eauto. Qed.

Lemma spec_throw P (Q : A → Disk → Prop) R E e :
  (∀ d, P d → R d) → E e → spec P (throw e) Q R E.
Proof. intros H He s Hs. cbn. eauto. Qed.

Lemma spec_bind {B} P (m : FS B) (f : B → FS A) Q (Q' : A → Disk → Prop) R E :
  spec P m Q R E → (∀ b, spec (Q b) (f b) Q' R E) → spec P (m ≫= f) Q' R E.
Proof.
  intros Hm Hf s Hs. specialize (Hm s Hs). unfold mbind, M_bind.
  destruct (m s) as [[b|e] s1]; [|done]. destruct Hm as [HQ Hq].
  specialize (Hf b s1 HQ). destruct (f b s1) as [[a|e] s2]; naive_solver.
Qed.

Lemma spec_pure (φ : Prop) P (m : FS A) Q R E :
  (φ → spec P m Q R E) → spec (λ d, φ ∧ P d) m Q R E.
Proof. intros H s [? ?]. by apply H. Qed.

Lemma spec_named P (m : FS A) Q R E :
  (∀ x, P x → spec (λ d, d = x ∧ P d) m Q R E) → spec P m Q R E.
Proof. intros H s Hs. exact (H (fs_disk s) Hs s (conj eq_refl Hs)). Qed.

Lemma spec_assoc {B C} P (m : FS B) (f : B → FS C) (g : C → FS A) Q R E :
  spec P (m ≫= λ b, f b ≫= g) Q R E → spec P ((m ≫= f) ≫= g) Q R E.
Proof.
  intros H s Hs. specialize (H s Hs). unfold mbind, M_bind in *. by destruct (m s) as [[] ?].
Qed.

(** Reading the state *)
Lemma spec_disk P (f : Disk → FS A) Q R E :
  (∀ x, P x → spec (λ d, d = x ∧ P d) (f x) Q R E) → spec P (gets fs_disk ≫= f) Q R E.
Proof. intros Hf s Hs. exact (Hf (fs_disk s) Hs s (conj eq_refl Hs)). Qed.

Lemma spec_index P (f : option ReferenceIndex → FS A) Q R E :
  (∀ x, spec P (f x) Q R E) → spec P (gets fs_index ≫= f) Q R E.
Proof. intros Hf s Hs. exact (Hf (fs_index s) s Hs). Qed.

Lemma spec_lift P (r : result EvidenceError A) (Q : A → Disk → Prop) R E :
  (∀ d, P d → match r with Ok a => Q a d | Err e => R d ∧ E e end) → spec P (lift r) Q R E.
Proof. intros H s Hs. specialize (H _ Hs). unfold lift. destruct r; naive_solver. Qed.

Lemma spec_fail_if P b e (k : FS A) (Q : A → Disk → Prop) R E :
  (∀ d, P d → b = true → R d ∧ E e) → (b = false → spec P k Q R E) →
  spec P (mbind (λ _ : (), k) (lift (reject_if b e))) Q R E.
Proof.
  intros Ht Hf s Hs. destruct b; [|by apply Hf]. destruct (Ht _ Hs eq_refl) as [HR He]. by split.
Qed.

Lemma spec_modify_index P f (Q : () → Disk → Prop) R E :
  (∀ d, P d → Q () d) → spec P (modify (set_index f)) Q R E.
Proof. intros H s Hs. cbn. eauto. Qed.

Lemma spec_on_error P (m : FS A) cleanup (Q : A → Disk → Prop) R R' E E' :
  spec P m Q R' E → spec R' cleanup (λ _, R) R E' → spec P (on_error cleanup m) Q R E.
Proof.
  intros Hm Hc s Hs. specialize (Hm s Hs). unfold on_error.
  destruct (m s) as [[a|e] s']; [done|]. destruct Hm as [HR He]. split; [|done].
  specialize (Hc s' HR). destruct (cleanup s') as [[]]; naive_solver.
Qed.

Lemma spec_ignore P (m : FS A) (Q : () → Disk → Prop) R E :
  spec P m (λ _, Q ()) (Q ()) (λ _, False) → spec P (ignore_result m) Q R E.
Proof.
  intros Hm s Hs. specialize (Hm s Hs). unfold ignore_result.
  destruct (m s) as [[a|e] s']; cbn; naive_solver.
Qed.
End Logic.

Lemma spec_for_each {A} (I : list A → Disk → Prop) f l (Q : () → Disk → Prop) (R : Disk → Prop) E :
  (∀ x l', x ∈ l → spec (I (x :: l')) (f x) (λ _, I l') R E) →
  (∀ d, I [] d → Q () d) → spec (I l) (for_each f l) Q R E.
Proof.
  intros Hf HQ. assert (∀ l', (∀ x, x ∈ l' → x ∈ l) → spec (I l') (for_each f l') Q R E) as H;
    [|by apply H].
  induction l' as [|x l' IH]; intros Hl'; cbn [for_each]; [by apply spec_ret|].
  eapply spec_bind; [apply Hf; set_solver|]. intros []. apply IH. set_solver.
Qed.

Lemma spec_loop {A} (I : list A → Disk → Prop) f l (R : Disk → Prop) E :
  (∀ x l', x ∈ l → spec (I (x :: l')) (f x) (λ _, I l') R E) →
  spec (I l) (for_each f l) (λ _, I []) R E.
Proof. intros Hf. by apply spec_for_each. Qed.

(** Calls to the file system. The disk reached at every failure has [R]. *)
Section Calls.
Implicit Types (P R : Disk → Prop) (E : EvidenceError → Prop).

Definition no_new_temporaries (f : Disk → Disk) : Prop :=
  ∀ d, dk_temporaries d = [] → dk_temporaries (f d) = [].

Lemma spec_next_outcome {A} P (f : Outcome → FS A) Q R E :
  spec P (f Works) Q R E →
  (∀ removed s, P (fs_disk s) → match f (Breaks removed) s with
    | (Ok a, s') => Q a (fs_disk s')
    | (Err _, s') => R (fs_disk s')
    end) →
  spec P (next_outcome ≫= f) Q R E.
Proof.
  intros Hw Hb s Hs. unfold mbind, M_bind, next_outcome, quiet.
  destruct (fs_outcomes s) as [|o os] eqn:Ho; [specialize (Hw s Hs)|].
  { unfold quiet in Hw. rewrite Ho in Hw. exact Hw. }
  destruct o as [|removed].
  - specialize (Hw (mkFileEvidenceStore (fs_disk s) (fs_index s) os) Hs).
    destruct (f Works _) as [[]]; naive_solver.
  - specialize (Hb removed (mkFileEvidenceStore (fs_disk s) (fs_index s) os) Hs).
    destruct (f (Breaks removed) _) as [[]]; naive_solver.
Qed.

Lemma spec_set_disk P f (Q : () → Disk → Prop) R E :
  (∀ d, P d → Q () (f d)) → no_new_temporaries f → spec P (modify (set_disk f)) Q R E.
Proof. intros HQ Ht s Hs. cbn. split; [by apply HQ|]. intros [? ?]. split; [done|]. by apply Ht. Qed.

Lemma spec_io P op f (Q : () → Disk → Prop) R E :
  (∀ d, P d → R d) → (∀ d, P d → Q () (f d)) → no_new_temporaries f → spec P (io op f) Q R E.
Proof.
  intros HR HQ Ht. apply spec_next_outcome; [by apply spec_set_disk|]. intros _ s Hs. by apply HR.
Qed.

Lemma spec_sync P (Q : () → Disk → Prop) R E :
  (∀ d, P d → R d) → (∀ d, P d → Q () d) → spec P sync_directory Q R E.
Proof. intros HR HQ. by apply spec_io; [..|intros ?]. Qed.

Lemma spec_read {A} P op f (Q : A → Disk → Prop) R E :
  (∀ d, P d → R d) →
  (∀ d, P d → match f d with Ok a => Q a d | Err e => dk_temporaries d = [] → E e end) →
  spec P (read op f) Q R E.
Proof.
  intros HR Hf. eapply spec_bind; [apply (spec_io P op id (λ _, P)); [done..|by intros ?]|].
  intros [] s Hs. unfold mbind, M_bind, gets, lift. cbn. specialize (Hf _ Hs).
  destruct (f (fs_disk s)); [done|]. split; [by apply HR|]. intros [_ ?]. by apply Hf.
Qed.

Lemma spec_remove_dir_all P op whole part (Q : () → Disk → Prop) R E :
  (∀ d names, P d → R (part names d)) → (∀ d, P d → Q () (whole d)) →
  no_new_temporaries whole → spec P (remove_dir_all op whole part) Q R E.
Proof.
  intros HR HQ Ht. apply spec_next_outcome; [by apply spec_set_disk|]. intros names s Hs.
  by apply HR.
Qed.


Lemma spec_atomic_write_json dir op present write P (Q : () → Disk → Prop) R E :
  (∀ d, P d → R d) →
  (∀ d, P d → R (set_temporaries (cons dir) d)) →
  (∀ d, P d → present d = true → Q () d) →
  (∀ d, P d → present d = false → Q () (write d) ∧ R (write d)) →
  no_new_temporaries write →
  spec P (atomic_write_json dir op present write) Q R E.
Proof.
  intros HR Ht Hp Hw Hn. apply spec_disk. intros x Hx.
  destruct (present x) eqn:Hpx.
  { apply spec_ret. intros d [-> ?]. by apply Hp. }
  assert (∀ d, d = x ∧ P d → R d) as HR' by (intros d [_ ?]; by apply HR).
  eapply (spec_bind _ _ _ (λ _ d, d = x ∧ P d)); [by apply spec_io; [..|intros ?]|].
  intros []. eapply (spec_bind _ _ _ (λ _ d, Q () d ∧ R d)).
  - eapply (spec_on_error _ _ _ _ _ (λ d, d = x ∧ P d) _ (λ _, True)).
    + eapply (spec_bind _ _ _ (λ _ d, d = x ∧ P d)); [by apply spec_io; [..|intros ?]|].
      intros []. apply spec_io; [done| |done]. intros d [-> Hd]. by apply Hw.
    + apply spec_next_outcome; [by apply spec_ret|]. intros ? s [_ Hs].
      by apply Ht.
  - intros []. apply spec_sync; by intros d [??].
Qed.
End Calls.

(** ** Framing: parts of the disk an operation never changes *)

Definition frames {A B} (f : Disk → B) (m : FS A) : Prop :=
  ∀ s, f (fs_disk (snd (m s))) = f (fs_disk s).

Section Frames.
Context {B : Type} (f : Disk → B).

Lemma frames_ret {A} (a : A) : frames f (mret a).
Proof. by intros s. Qed.

Lemma frames_throw {A} e : frames f (throw e : FS A).
Proof. by intros s. Qed.

Lemma frames_lift {A} (r : result EvidenceError A) : frames f (lift r).
Proof. by intros s. Qed.

Lemma frames_gets {A} (g : FileEvidenceStore → A) : frames f (gets g).
Proof. by intros s. Qed.

Lemma frames_set_disk g : (∀ d, f (g d) = f d) → frames f (modify (set_disk g)).
Proof. intros Hg s. apply Hg. Qed.

Lemma frames_set_index g : frames f (modify (set_index g)).
Proof. by intros s. Qed.

Lemma frames_bind {A C} (m : FS A) (k : A → FS C) :
  frames f m → (∀ a, frames f (k a)) → frames f (m ≫= k).
Proof.
  intros Hm Hk s. specialize (Hm s). unfold mbind, M_bind.
  destruct (m s) as [[a|e] s']; cbn in *; [|done]. by rewrite Hk.
Qed.

Lemma frames_next_outcome : frames f next_outcome.
Proof. intros s. unfold next_outcome. by destruct (fs_outcomes s). Qed.

Lemma frames_on_error {A} (m : FS A) cleanup :
  frames f m → frames f cleanup → frames f (on_error cleanup m).
Proof.
  intros Hm Hc s. specialize (Hm s). unfold on_error.
  destruct (m s) as [[a|e] s']; cbn in *; [done|]. by rewrite Hc.
Qed.

Lemma frames_if {A} (b : bool) (m n : FS A) :
  frames f m → frames f n → frames f (if b then m else n).
Proof. by destruct b. Qed.

Lemma frames_io op g : (∀ d, f (g d) = f d) → frames f (io op g).
Proof.
  intros Hg. apply frames_bind; [apply frames_next_outcome|].
  intros []; [by apply frames_set_disk|apply frames_throw].
Qed.

Lemma frames_read {A} op (g : Disk → result EvidenceError A) : frames f (read op g).
Proof.
  apply frames_bind; [by apply frames_io|]. intros []. apply frames_bind; [apply frames_gets|].
  intros. apply frames_lift.
Qed.

Lemma frames_atomic_write_json dir op present write :
  (∀ d, f (write d) = f d) → (∀ d, f (set_temporaries (cons dir) d) = f d) →
  frames f (atomic_write_json dir op present write).
Proof.
  intros Hw Ht. apply frames_bind; [apply frames_gets|]. intros d. apply frames_if; [apply frames_ret|].
  repeat (apply frames_bind; [|intros _]); [by apply frames_io| |by apply frames_io].
  apply frames_on_error.
  - apply frames_bind; [by apply frames_io|]. intros _. by apply frames_io.
  - apply frames_bind; [apply frames_next_outcome|].
    intros []; [apply frames_ret|by apply frames_set_disk].
Qed.

Lemma spec_frame {A} P (m : FS A) Q R E v :
  spec P m Q R E → frames f m →
  spec (λ d, P d ∧ f d = v) m (λ a d, Q a d ∧ f d = v) (λ d, R d ∧ f d = v) E.
Proof.
  intros Hm Hf s [Hs <-]. specialize (Hm s Hs). specialize (Hf s).
  destruct (m s) as [[a|e] s']; cbn in *; naive_solver.
Qed.
End Frames.

Create HintDb frames.
#[export] Hint Resolve frames_ret frames_throw frames_lift frames_gets frames_set_disk
  frames_set_index frames_bind frames_next_outcome frames_on_error frames_if frames_io
  frames_read frames_atomic_write_json : frames.

(** ** The invariant of the disk *)

Section Invariant.
Context (sha256 : list N → list N).

(** A complete object directory whose content has its digest *)
Definition intact (digest : Sha256Digest) (dir : ObjectDirectory) : Prop :=
  ∃ meta data, dir = mkObjectDirectory (Some (Some meta)) (Some data) ∧
    validate_object_metadata meta digest = Ok () ∧ len data = om_byte_length meta ∧
    digest_from_hash (sha256 data) = Ok digest.

Definition object_meta (dir : ObjectDirectory) : option ObjectMetadata :=
  mjoin (od_meta dir).

Record disk_ok (d : Disk) : Prop := {
  do_header f : dk_header d = Some f → f = Some (mkStoreHeader STORE_VERSION HASH_ALGORITHM);
  do_objects x o : dk_objects d !! x = Some o → intact x o;
  (** a reference is valid and its object is in place *)
  do_references sid x f : markers_of sid d !! x = Some f → ∃ marker o meta,
    f = Some marker ∧ dk_objects d !! x = Some o ∧ object_meta o = Some meta ∧
    validate_reference_marker marker sid x (om_media_type meta) = Ok ();
  (** an unreferenced marker is valid and describes the object, which may be
      on its way out *)
  do_unreferenced x f : dk_unreferenced d !! x = Some f → ∃ marker o meta,
    f = Some marker ∧ validate_unreferenced_marker marker x = Ok () ∧
    (dk_objects d !! x = Some o ∨ dk_trash d !! x = Some o) ∧ intact x o ∧
    object_meta o = Some meta ∧ um_byte_length marker = om_byte_length meta;
  do_released sid f : dk_released_sessions d !! sid = Some f → ∃ marker,
    f = Some marker ∧ validate_released_session_marker marker sid = Ok ();
  (** the trash holds no object that is in place *)
  do_trash x o : dk_trash d !! x = Some o → dk_objects d !! x = None ∧ parse_digest x = Ok x;
  do_temporaries sid :
    SessionReferences sid ∈ dk_temporaries d → is_Some (dk_references d !! sid);
}.

(** Nothing a Session owns is lost unless the Session was released, and only
    [touched] staging directories change. *)
Record keeps (touched : Uuid → Prop) (d0 d : Disk) : Prop := {
  ke_references sid x f : dk_released_sessions d !! sid = None →
    markers_of sid d0 !! x = Some f → markers_of sid d !! x = Some f;
  ke_objects sid x o : dk_released_sessions d !! sid = None →
    is_Some (markers_of sid d0 !! x) → dk_objects d0 !! x = Some o → dk_objects d !! x = Some o;
  ke_released sid f : dk_released_sessions d0 !! sid = Some f →
    dk_released_sessions d !! sid = Some f;
  ke_staging path : ¬ touched path → dk_staging d !! path = dk_staging d0 !! path;
}.

Definition safe (touched : Uuid → Prop) (d0 d : Disk) : Prop := disk_ok d ∧ keeps touched d0 d.

Lemma keeps_refl touched d : keeps touched d d.
Proof. by split. Qed.

Lemma keeps_trans touched d0 d1 d2 :
  keeps touched d0 d1 → keeps touched d1 d2 → keeps touched d0 d2.
Proof.
  intros [Hr1 Ho1 Hs1 Ht1] [Hr2 Ho2 Hs2 Ht2].
  assert (∀ sid, dk_released_sessions d2 !! sid = None → dk_released_sessions d1 !! sid = None)
    as Hback.
  { intros sid Hn. destruct (dk_released_sessions d1 !! sid) eqn:H; [|done].
    apply Hs2 in H. congruence. }
  split; [by eauto| |by eauto|].
  - intros sid x o Hn [f Hf] Ho. eapply Ho2; [done| |eapply Ho1; eauto].
    exists f. eauto.
  - intros path Hp. rewrite Ht2, Ht1; done.
Qed.

(** ** Changes of the disk that are safe *)

Section Changes.
Context (touched : Uuid → Prop) (d0 : Disk).

Lemma safe_step d d' : safe touched d0 d → disk_ok d' → keeps touched d d' → safe touched d0 d'.
Proof. intros [_ Hk] Hok Hk'. split; [done|]. by eapply keeps_trans. Qed.

Lemma safe_remove_marker d x :
  safe touched d0 d → safe touched d0 (set_unreferenced (delete x) d).
Proof.
  intros Hs. destruct Hs as [Hok Hk] eqn:?. apply (safe_step d); [done| |by split].
  destruct Hok as [Hh Ho Hr Hu Hrel Ht Htm]. split; try assumption; cbn.
  intros y f [_ Hf]%lookup_delete_Some. eauto.
Qed.

Lemma safe_add_marker d x o meta released_at_ms :
  safe touched d0 d → dk_objects d !! x = Some o → object_meta o = Some meta →
  safe touched d0 (set_unreferenced <[x :=
    Some (mkUnreferencedMarker STORE_VERSION x (om_byte_length meta) released_at_ms)]> d).
Proof.
  intros Hs Hx Hm. destruct Hs as [Hok Hk] eqn:?. apply (safe_step d); [done| |by split].
  destruct Hok as [Hh Ho Hr Hu Hrel Ht Htm]. split; try assumption; cbn.
  intros y f [[-> <-]|[_ Hf]]%lookup_insert_Some; [|by eauto].
  eexists _, o, meta. split_and!; [done| |by left|by apply Ho|done|done].
  unfold validate_unreferenced_marker. cbn. by rewrite String.eqb_refl.
Qed.

Lemma safe_add_temporary d dir :
  safe touched d0 d →
  (∀ sid, dir = SessionReferences sid → is_Some (dk_references d !! sid)) →
  safe touched d0 (set_temporaries (cons dir) d).
Proof.
  intros Hs Hd. destruct Hs as [Hok Hk] eqn:?. apply (safe_step d); [done| |by split].
  destruct Hok as [Hh Ho Hr Hu Hrel Ht Htm]. split; try assumption; cbn.
  intros sid [Hsid|Hsid]%elem_of_cons; eauto.
Qed.

Lemma safe_filter_temporaries d dir :
  safe touched d0 d → safe touched d0 (set_temporaries (filter (λ dir', dir' ≠ dir)) d).
Proof.
  intros Hs. destruct Hs as [Hok Hk] eqn:?. apply (safe_step d); [done| |by split].
  destruct Hok as [Hh Ho Hr Hu Hrel Ht Htm]. split; try assumption; cbn.
  intros sid [_ Hsid]%list_elem_of_filter. eauto.
Qed.

(** The trash of an object without a marker may be emptied in any order. *)
Lemma safe_trash d x f :
  safe touched d0 d → dk_unreferenced d !! x = None → f None = None →
  safe touched d0 (set_trash (partial_alter f x) d).
Proof.
  intros Hs Hn Hf. destruct Hs as [Hok Hk] eqn:?. apply (safe_step d); [done| |by split].
  destruct Hok as [Hh Ho Hr Hu Hrel Ht Htm]. split; try assumption; cbn.
  - intros y g Hy. assert (y ≠ x) as Hne by congruence.
    rewrite lookup_partial_alter_ne by done. by eauto.
  - intros y o' Hy. destruct (decide (y = x)) as [->|Hne].
    + rewrite lookup_partial_alter_eq in Hy. destruct (dk_trash d !! x) eqn:Hx; [by eauto|congruence].
    + rewrite lookup_partial_alter_ne in Hy by done. by eauto.
Qed.

Lemma safe_to_trash d x o :
  safe touched d0 d → dk_objects d !! x = Some o → (∀ sid, markers_of sid d !! x = None) →
  safe touched d0 (set_trash <[x := o]> (set_objects (delete x) d)).
Proof.
  intros Hs Hx Hn. destruct Hs as [Hok Hk] eqn:?. pose proof Hok as Hok'.
  destruct Hok as [Hh Ho Hr Hu Hrel Ht Htm]. apply (safe_step d); [done|split|split]; try assumption; try done; cbn.
  - intros y o' [_ Hy]%lookup_delete_Some. eauto.
  - intros sid y f Hf. change (markers_of sid d !! y = Some f) in Hf.
    assert (y ≠ x) by (intros ->; specialize (Hn sid); congruence).
    rewrite lookup_delete_ne by done. by eapply Hr.
  - intros y f (m & o' & meta & -> & Hv & Hor & Hi & Hm & Hl)%Hu.
    exists m, o', meta. split_and!; [done..| |done|done|done].
    destruct (decide (y = x)) as [->|Hne].
    + right. rewrite lookup_insert_eq. destruct Hor as [Hor|Hor]; [congruence|].
      apply Ht in Hor as [Hor _]. congruence.
    + rewrite lookup_delete_ne, lookup_insert_ne by done. done.
  - intros y o' [[-> <-]|[Hne Hy]]%lookup_insert_Some.
    + split; [by rewrite lookup_delete_eq|]. apply Ho in Hx as (meta & data & _ & _ & _ & Hd).
      by apply parse_digest_ok in Hd as Hd'; destruct Hd' as (-> & ?); apply parse_digest_ok.
    + rewrite lookup_delete_ne by done. by eapply Ht.
  - intros sid y o' _ [f Hf] Hy.
    assert (y ≠ x) by (intros ->; specialize (Hn sid); congruence).
    by rewrite lookup_delete_ne.
Qed.

(** A trashed object that is complete may come back. *)
Lemma safe_restore d x o :
  safe touched d0 d → dk_trash d !! x = Some o → intact x o →
  safe touched d0 (set_trash (delete x) (set_objects <[x := o]> d)).
Proof.
  intros Hs Hx Hi. destruct Hs as [Hok Hk] eqn:?.
  destruct Hok as [Hh Ho Hr Hu Hrel Ht Htm]. destruct (Ht _ _ Hx) as [Hnone _].
  assert (∀ y o', dk_objects d !! y = Some o' → <[x:=o]> (dk_objects d) !! y = Some o') as Hmono.
  { intros y o' Hy. rewrite lookup_insert_ne; [done|congruence]. }
  apply (safe_step d); [done|split|split]; try assumption; try done; cbn.
  - intros y o' [[-> <-]|[_ Hy]]%lookup_insert_Some; [done|by apply Ho].
  - intros sid y f (m & o' & meta & -> & ? & ? & ?)%Hr. exists m, o', meta. eauto.
  - intros y f (m & o' & meta & -> & Hv & Hor & Hi' & Hm & Hl)%Hu.
    exists m, o', meta. split_and!; [done..| |done|done|done].
    destruct Hor as [Hor|Hor]; [by left; apply Hmono|].
    destruct (decide (y = x)) as [->|Hne].
    + left. rewrite lookup_insert_eq. congruence.
    + right. by rewrite lookup_delete_ne.
  - intros y o' [Hne Hy]%lookup_delete_Some. rewrite lookup_insert_ne by done. by eapply Ht.
  - intros sid y o' _ _ Hy. by apply Hmono.
Qed.

Lemma safe_publish d path x o :
  safe touched d0 d → touched path → dk_objects d !! x = None → dk_trash d !! x = None →
  intact x o →
  safe touched d0 (set_staging (delete path) (set_objects <[x := o]> d)).
Proof.
  intros Hs Hp Hx Htx Hi. destruct Hs as [Hok Hk] eqn:?.
  destruct Hok as [Hh Ho Hr Hu Hrel Ht Htm].
  assert (∀ y o', dk_objects d !! y = Some o' → <[x:=o]> (dk_objects d) !! y = Some o') as Hmono.
  { intros y o' Hy. rewrite lookup_insert_ne; [done|congruence]. }
  apply (safe_step d); [done|split|split]; try assumption; try done; cbn.
  - intros y o' [[-> <-]|[_ Hy]]%lookup_insert_Some; [done|by apply Ho].
  - intros sid y f (m & o' & meta & -> & ? & ? & ?)%Hr. exists m, o', meta. eauto.
  - intros y f (m & o' & meta & -> & Hv & Hor & Hi' & Hm & Hl)%Hu.
    exists m, o', meta. split_and!; [done..| |done|done|done].
    destruct Hor as [Hor|Hor]; [left; by apply Hmono|by right].
  - intros y o' Hy. rewrite lookup_insert_ne by congruence. by eapply Ht.
  - intros sid y o' _ _ Hy. by apply Hmono.
  - intros path' Hp'. rewrite lookup_delete_ne; [done|congruence].
Qed.

Lemma safe_staging d path f :
  safe touched d0 d → touched path → safe touched d0 (set_staging (partial_alter f path) d).
Proof.
  intros Hs Hp. destruct Hs as [Hok Hk] eqn:?. apply (safe_step d); [done| |].
  { destruct Hok as [Hh Ho Hr Hu Hrel Ht Htm]. by split. }
  split; try done. cbn. intros path' Hp'. rewrite lookup_partial_alter_ne; [done|congruence].
Qed.

Lemma markers_of_insert d sid sid' m :
  markers_of sid' (set_references <[sid := m]> d) =
  if bool_decide (sid = sid') then m else markers_of sid' d.
Proof.
  unfold markers_of. cbn. case_bool_decide as Hs.
  - subst. by rewrite lookup_insert_eq.
  - by rewrite lookup_insert_ne.
Qed.

(** A new reference to an object in place, or an empty directory *)
Lemma safe_add_reference d sid x o meta created_at_ms :
  safe touched d0 d → dk_objects d !! x = Some o → object_meta o = Some meta →
  markers_of sid d !! x = None →
  safe touched d0 (set_references <[sid := <[x := Some (mkReferenceMarker STORE_VERSION sid x
    (om_media_type meta) created_at_ms)]> (markers_of sid d)]> d).
Proof.
  intros Hs Hx Hm Hn. destruct Hs as [Hok Hk] eqn:?.
  destruct Hok as [Hh Ho Hr Hu Hrel Ht Htm].
  apply (safe_step d); [done|split|split]; try assumption; try done.
  - intros sid' y f Hf. rewrite markers_of_insert in Hf. case_bool_decide; [subst sid'|by eauto].
    apply lookup_insert_Some in Hf as [[<- <-]|[_ Hf]]; [|by eapply Hr].
    eexists _, o, meta. split_and!; [done..|]. unfold validate_reference_marker. cbn.
    by rewrite N.eqb_refl, !String.eqb_refl.
  - intros sid'. cbn. intros Hin%Htm. by apply lookup_insert_is_Some'; right.
  - intros sid' y f _ Hf. rewrite markers_of_insert. case_bool_decide; [subst sid'|done].
    rewrite lookup_insert_ne; [done|congruence].
Qed.

Lemma safe_create_session_directory d sid :
  safe touched d0 d → dk_references d !! sid = None →
  safe touched d0 (set_references <[sid := ∅]> d).
Proof.
  intros Hs Hn. destruct Hs as [Hok Hk] eqn:?.
  destruct Hok as [Hh Ho Hr Hu Hrel Ht Htm].
  assert (∀ sid', markers_of sid' (set_references <[sid:=∅]> d) = markers_of sid' d) as Hm.
  { intros sid'. rewrite markers_of_insert. case_bool_decide; [subst|done].
    unfold markers_of. by rewrite Hn. }
  apply (safe_step d); [done|split|split]; try assumption; try done.
  - intros sid' y f. rewrite Hm. apply Hr.
  - intros sid'. cbn. intros Hin%Htm. by apply lookup_insert_is_Some'; right.
  - intros sid' y f _. by rewrite Hm.
Qed.

(** References of a Session may go once its release is on disk, or when there
    are none. *)
Lemma safe_shrink_session d sid refs temporaries :
  safe touched d0 d →
  (is_Some (dk_released_sessions d !! sid) ∨ markers_of sid d = ∅) →
  default ∅ (refs !! sid) ⊆ markers_of sid d →
  (∀ sid', sid' ≠ sid → refs !! sid' = dk_references d !! sid') →
  (∀ sid', SessionReferences sid' ∈ temporaries → is_Some (refs !! sid')) →
  safe touched d0 (set_temporaries (λ _, temporaries) (set_references (λ _, refs) d)).
Proof.
  intros Hs Hrel' Hsub Hne Htmp. destruct Hs as [Hok Hk] eqn:?.
  destruct Hok as [Hh Ho Hr Hu Hrel Ht Htm].
  set (d' := set_temporaries _ _).
  assert (∀ sid' y f, markers_of sid' d' !! y = Some f → markers_of sid' d !! y = Some f) as Hm.
  { intros sid' y f. unfold markers_of at 1. cbn. destruct (decide (sid' = sid)) as [->|H].
    - intros Hf. by eapply lookup_weaken.
    - by rewrite Hne. }
  apply (safe_step d); [done|split|split]; try assumption; try done.
  - intros sid' y f Hf%Hm. by apply Hr in Hf.
  - intros sid' y f Hn Hf. unfold markers_of. cbn. destruct (decide (sid' = sid)) as [->|H].
    + destruct Hrel' as [[g Hg]|He]; [cbn in Hn; congruence|]. by rewrite He in Hf.
    + by rewrite Hne.
Qed.

Lemma safe_add_released d sid released_at_ms :
  safe touched d0 d → dk_released_sessions d !! sid = None →
  safe touched d0 (set_released
    <[sid := Some (mkReleasedSessionMarker STORE_VERSION sid released_at_ms)]> d).
Proof.
  intros Hs Hn. destruct Hs as [Hok Hk] eqn:?.
  destruct Hok as [Hh Ho Hr Hu Hrel Ht Htm].
  apply (safe_step d); [done|split|split]; try assumption; try done; cbn.
  - intros sid' f [[<- <-]|[_ Hf]]%lookup_insert_Some; [|by eauto].
    eexists. split; [done|]. unfold validate_released_session_marker. cbn. by rewrite N.eqb_refl.
  - intros sid' f Hf. rewrite lookup_insert_ne; [done|congruence].
Qed.

Lemma safe_write_header d :
  safe touched d0 d →
  safe touched d0 (set_header (Some (Some (mkStoreHeader STORE_VERSION HASH_ALGORITHM))) d).
Proof.
  intros Hs. destruct Hs as [Hok Hk] eqn:?. apply (safe_step d); [done| |by split].
  destruct Hok as [Hh Ho Hr Hu Hrel Ht Htm]. split; try assumption; cbn. congruence.
Qed.

End Changes.

(** ** What reading a good disk gives *)

Definition referenced (d : Disk) (x : Sha256Digest) : Prop :=
  ∃ sid, is_Some (markers_of sid d !! x).

Lemma intact_digest x o : intact x o → parse_digest x = Ok x.
Proof.
  intros (meta & data & _ & _ & _ & Hd). apply parse_digest_ok in Hd as Hd'.
  destruct Hd' as (-> & ?). by apply parse_digest_ok.
Qed.

Lemma verify_intact x o :
  intact x o ↔ ∃ meta, object_meta o = Some meta ∧ verify_object_directory_sync sha256 o x = Ok meta.
Proof.
  unfold verify_object_directory_sync. split.
  - intros (meta & data & -> & Hv & Hl & Hd). exists meta. split; [done|]. cbn.
    rewrite Hv. cbn. rewrite Hl, N.eqb_refl. cbn. rewrite Hd. cbn. by rewrite String.eqb_refl.
  - intros (meta & Hm & H). destruct o as [[[m|]|] [data|]]; cbn in *; simplify_eq; try done.
    inv_result. inv_bools. exists meta, data. rewrite N.eqb_eq, String.eqb_eq in *. subst.
    match goal with H : validate_object_metadata _ _ = Ok ?u |- _ => by destruct u end.
Qed.

Lemma verify_sync_intact x o meta :
  verify_object_directory_sync sha256 o x = Ok meta → intact x o.
Proof.
  intros H. apply verify_intact. exists meta. split; [|done].
  destruct o as [[[m|]|] [data|]]; unfold verify_object_directory_sync in H; cbn in *;
    inv_result; done.
Qed.

Section Reading.
Context (d : Disk) (Hok : disk_ok d).

Lemma object_present x o :
  dk_objects d !! x = Some o → ∃ meta data,
    o = mkObjectDirectory (Some (Some meta)) (Some data) ∧
    read_object_metadata x d = Ok meta ∧ verify_object sha256 x d = Ok (meta, data).
Proof.
  intros Hx. destruct (do_objects _ Hok _ _ Hx) as (meta & data & -> & Hv & Hl & Hd).
  exists meta, data. split; [done|].
  assert (read_object_metadata x d = Ok meta) as Hr.
  { unfold read_object_metadata. rewrite Hx. cbn. by rewrite Hv. }
  split; [done|]. unfold verify_object. rewrite Hr. cbn. rewrite Hx. cbn.
  rewrite Hl, N.eqb_refl. cbn. rewrite Hd. cbn. by rewrite String.eqb_refl.
Qed.

Lemma reference_present sid x f :
  markers_of sid d !! x = Some f → ∃ marker o meta,
    f = Some marker ∧ dk_objects d !! x = Some o ∧ object_meta o = Some meta ∧
    parse_digest x = Ok x ∧ rm_media_type marker = om_media_type meta ∧
    validate_reference_marker marker sid x (om_media_type meta) = Ok ().
Proof.
  intros Hf. destruct (do_references _ Hok _ _ _ Hf) as (m & o & meta & -> & Hx & Hm & Hv).
  exists m, o, meta. split_and!; try done.
  - by eapply intact_digest, (do_objects _ Hok).
  - unfold validate_reference_marker in Hv. inv_result. inv_bools. by apply String.eqb_eq.
Qed.

Lemma reference_marker_present sid entries x f :
  markers_of sid d = entries → entries !! x = Some f → ∃ marker,
    f = Some marker ∧ reference_marker sid entries x = Ok marker.
Proof.
  intros <- Hf. destruct (reference_present _ _ _ Hf) as (m & o & meta & -> & _ & _ & Hp & Hmt & Hv).
  exists m. split; [done|]. unfold reference_marker. rewrite Hp. cbn. rewrite Hf. cbn.
  by rewrite Hmt, Hv.
Qed.

Lemma reference_object_present sid entries x f :
  markers_of sid d = entries → entries !! x = Some f → ∃ o meta,
    dk_objects d !! x = Some o ∧ object_meta o = Some meta ∧
    reference_object sid d entries x = Ok (x, meta).
Proof.
  intros He Hf. destruct (reference_marker_present _ _ _ _ He Hf) as (m & -> & Hr). subst entries.
  destruct (reference_present _ _ _ Hf) as (m' & o & meta & ? & Hx & Hm & _ & Hmt & _). simplify_eq.
  exists o, meta. split_and!; [done..|]. unfold reference_object. rewrite Hr. cbn.
  destruct (object_present _ _ Hx) as (meta' & data & -> & Hrd & _). cbn in Hm. simplify_eq.
  rewrite Hrd. cbn. by rewrite Hmt, String.eqb_refl.
Qed.
End Reading.

End Invariant.
