(* ===== verification/EvidenceFsIndex.v ===== *)
(** * The reference index of the filesystem evidence store

    The scans of the reference directories, what they return on a good disk,
    and the in-memory index as a function of the disk. *)

From S2P Require Import Prelude Protocol Evidence EvidenceFs EvidenceFsInv.

Local Open Scope N_scope.

(** ** Loops that collect *)

Lemma collect_ok {A B} (f : A → result EvidenceError B) l ys :
  collect f l = Ok ys ↔ Forall2 (λ x y, f x = Ok y) l ys.
Proof.
  revert ys. induction l as [|x l IH]; intros ys; cbn.
  { split; [intros [= <-]; constructor|by intros ->%Forall2_nil_inv_l]. }
  split.
  - intros H. inv_result. constructor; [done|]. by apply IH.
  - intros (y & ys' & Hy & Hl & ->)%Forall2_cons_inv_l. rewrite Hy. cbn.
    apply IH in Hl. by rewrite Hl.
Qed.

Lemma collect_err {A B} (f : A → result EvidenceError B) l e :
  collect f l = Err e → ∃ x, x ∈ l ∧ f x = Err e.
Proof.
  induction l as [|x l IH]; cbn; [done|]. intros H. inv_result.
  - exists x. set_solver.
  - destruct IH as (y & ? & ?); [done|]. exists y. set_solver.
Qed.

(** A loop none of whose steps fails *)
Lemma collect_total {A B} (f : A → result EvidenceError B) (R : A → B → Prop) l :
  (∀ x, x ∈ l → ∃ y, f x = Ok y ∧ R x y) → ∃ ys, collect f l = Ok ys ∧ Forall2 R l ys.
Proof.
  induction l as [|x l IH]; intros Hl; cbn; [by exists []|].
  destruct (Hl x) as (y & Hy & HR); [set_solver|]. destruct IH as (ys & Hys & Hall); [set_solver|].
  exists (y :: ys). rewrite Hy. cbn. rewrite Hys. auto.
Qed.

Lemma list_filter_id {A} (P : A → Prop) `{∀ x, Decision (P x)} (l : list A) :
  (∀ x, x ∈ l → P x) → filter P l = l.
Proof.
  induction l as [|x l IH]; intros Hl; [done|]. rewrite filter_cons_True by set_solver.
  f_equal. apply IH. set_solver.
Qed.

Lemma Forall2_elem_l {A B} (R : A → B → Prop) l k x :
  Forall2 R l k → x ∈ l → ∃ y, y ∈ k ∧ R x y.
Proof.
  intros H [i Hi]%list_elem_of_lookup. destruct (Forall2_lookup_l _ _ _ _ _ H Hi) as (y & Hy & HR).
  exists y. split; [by eapply list_elem_of_lookup_2|done].
Qed.

Lemma Forall2_elem_r {A B} (R : A → B → Prop) l k y :
  Forall2 R l k → y ∈ k → ∃ x, x ∈ l ∧ R x y.
Proof. intros H%Forall2_flip Hy. exact (Forall2_elem_l _ _ _ _ H Hy). Qed.

Lemma session_names_elem {A} (m : gmap SessionId A) sid :
  sid ∈ session_names m ↔ is_Some (m !! sid).
Proof. unfold session_names. by rewrite merge_sort_Permutation, elem_of_elements, elem_of_dom. Qed.

Lemma session_names_NoDup {A} (m : gmap SessionId A) : NoDup (session_names m).
Proof. unfold session_names. rewrite merge_sort_Permutation. apply NoDup_elements. Qed.

Lemma btree_keys_elem {A} (m : gmap Sha256Digest A) x : x ∈ btree_keys m ↔ is_Some (m !! x).
Proof. by rewrite (proj2 (btree_keys_dom m)), elem_of_dom. Qed.

Lemma btree_keys_NoDup {A} (m : gmap Sha256Digest A) : NoDup (btree_keys m).
Proof. unfold btree_keys. rewrite merge_sort_Permutation. apply NoDup_elements. Qed.

(** ** Counters *)

Definition positive (n : N) : option N := if n =? 0 then None else Some n.
Definition clip (n : N) : N := N.min n U64_MAX.

Definition occurrences {K} `{EqDecision K} (x : K) (l : list K) : N :=
  len (filter (λ y, y = x) l).

Lemma saturating_count_clip {A} (l : list A) : saturating_count l = clip (len l).
Proof.
  unfold saturating_count, clip.
  assert (∀ n, n <= U64_MAX → foldl (λ c (_ : A), u64_saturating_add c 1) n l =
    N.min (n + len l) U64_MAX) as H.
  { induction l as [|x l IH]; intros n Hn; cbn.
    - unfold len. cbn. lia.
    - rewrite IH by (unfold u64_saturating_add; lia).
      unfold u64_saturating_add, len in *. cbn. lia. }
  rewrite H by (unfold U64_MAX; lia). done.
Qed.

Lemma positive_default n : default 0 (positive n) = n.
Proof. unfold positive. destruct (N.eqb_spec n 0); cbn; lia. Qed.

(** Counting the entries of a list in a map of clipped counters *)
Lemma foldl_count_entry {K} `{Countable K} (l : list K) (m : gmap K N) (c : K → N) :
  (∀ x, m !! x = positive (clip (c x))) →
  ∀ x, foldl count_entry m l !! x = positive (clip (c x + occurrences x l)).
Proof.
  revert m c. induction l as [|y l IH]; intros m c Hm x; cbn.
  { rewrite Hm. unfold occurrences, len. cbn. do 2 f_equal. lia. }
  rewrite (IH _ (λ x, c x + (if bool_decide (y = x) then 1 else 0))).
  - do 2 f_equal. unfold occurrences, len. rewrite filter_cons.
    case_bool_decide; case_decide; try done; cbn; lia.
  - intros z. unfold count_entry. case_bool_decide as Hz.
    + subst z. rewrite lookup_insert_eq, Hm, positive_default.
      unfold positive, clip, u64_saturating_add.
      case_match eqn:Hc; [apply N.eqb_eq in Hc; unfold U64_MAX in *; lia|]. f_equal. lia.
    + rewrite lookup_insert_ne, Hm by done. do 2 f_equal. lia.
Qed.

Lemma occurrences_app {K} `{EqDecision K} (x : K) l k :
  occurrences x (l ++ k) = occurrences x l + occurrences x k.
Proof. unfold occurrences. by rewrite filter_app, len_app. Qed.

Lemma occurrences_NoDup {K} `{EqDecision K} (x : K) l :
  NoDup l → occurrences x l = if bool_decide (x ∈ l) then 1 else 0.
Proof.
  unfold occurrences, len. induction 1 as [|y l Hy _ IH]; [done|]. rewrite filter_cons.
  destruct (decide (y = x)) as [->|Hx].
  - rewrite bool_decide_true by set_solver. rewrite bool_decide_false in IH by done. cbn. lia.
  - rewrite IH. case_bool_decide as H1; case_bool_decide as H2; try done; set_solver.
Qed.

(** ** Scans *)

Lemma list_markers_result dir {A} (entries : gmap Sha256Digest A) d :
  list_markers dir entries d =
  if bool_decide (dir ∈ dk_temporaries d)
  then Err (UnsafePath "digest marker must end in .json") else Ok (btree_keys entries).
Proof. unfold list_markers. by case_bool_decide. Qed.

Lemma over_sessions_result {A}
    (f : SessionId → gmap Sha256Digest (json_file ReferenceMarker) → result EvidenceError A)
    (R : SessionId → A → Prop) (E : EvidenceError → Prop) d :
  (∀ sid, match f sid (markers_of sid d) with Ok y => R sid y | Err e => E e end) →
  match over_sessions f d with
  | Ok l => Forall2 R (session_names (dk_references d)) l
  | Err e => E e
  end.
Proof.
  intros Hf. unfold over_sessions. set (g := λ sid, _).
  assert (∀ sid, sid ∈ session_names (dk_references d) → g sid = f sid (markers_of sid d)) as Hg.
  { intros sid [m Hm]%session_names_elem. unfold g, markers_of. by rewrite Hm. }
  destruct (collect g _) as [l|e] eqn:Hl.
  - apply collect_ok in Hl. apply Forall2_same_length_lookup in Hl as [Hlen Hl].
    apply Forall2_same_length_lookup. split; [done|]. intros i sid y Hi Hy.
    specialize (Hl i sid y Hi Hy). rewrite Hg in Hl by (by eapply list_elem_of_lookup_2).
    specialize (Hf sid). by rewrite Hl in Hf.
  - apply collect_err in Hl as (sid & Hin & He). rewrite Hg in He by done.
    specialize (Hf sid). by rewrite He in Hf.
Qed.

Section Scans.
Context (sha256 : list N → list N) (d : Disk) (Hok : disk_ok sha256 d).

Lemma session_objects_result sid :
  match session_objects sid d (markers_of sid d) with
  | Ok objects => objects.*1 = btree_keys (markers_of sid d) ∧
      ∀ x meta, (x, meta) ∈ objects → ∃ o, dk_objects d !! x = Some o ∧ object_meta o = Some meta
  | Err _ => dk_temporaries d ≠ []
  end.
Proof.
  unfold session_objects. rewrite list_markers_result. case_bool_decide as Ht.
  { cbn. intros Hn. rewrite Hn in Ht. by apply not_elem_of_nil in Ht. }
  cbn. edestruct (collect_total (reference_object sid d (markers_of sid d))
    (λ x y, y.1 = x ∧ ∃ o, dk_objects d !! x = Some o ∧ object_meta o = Some y.2)) as (l & -> & Hl).
  - intros x [f Hf]%btree_keys_elem.
    destruct (reference_object_present sha256 d Hok sid _ x f eq_refl Hf) as (o & meta & ? & ? & ->).
    eexists. split; [done|]. cbn. eauto.
  - split.
    + clear Ht. induction Hl as [|x y l' k [<- _] _ IH]; cbn; congruence.
    + intros x meta Hin. destruct (Forall2_elem_r _ _ _ _ Hl Hin) as (x' & _ & Hx & o & ? & ?).
      cbn in *. subst. eauto.
Qed.

Lemma session_reference_count_result sid :
  match session_reference_count sid d with
  | Ok n => n = clip (N.of_nat (size (markers_of sid d)))
  | Err _ => dk_temporaries d ≠ []
  end.
Proof.
  unfold session_reference_count. pose proof (session_objects_result sid) as Hs.
  destruct (dk_references d !! sid) as [m|] eqn:Hm.
  - assert (markers_of sid d = m) as He by (unfold markers_of; by rewrite Hm). rewrite He in Hs.
    destruct (session_objects sid d m) as [objects|]; cbn; [|done]. destruct Hs as [Hk _].
    rewrite saturating_count_clip. f_equal. unfold len.
    rewrite He, <-(proj1 (btree_keys_dom m)), <-Hk. by rewrite length_fmap.
  - unfold markers_of. by rewrite Hm.
Qed.

Lemma referenced_names (l : list (list Sha256Digest)) x :
  Forall2 (λ sid names, names = btree_keys (markers_of sid d))
    (session_names (dk_references d)) l →
  x ∈ concat l ↔ referenced d x.
Proof.
  intros H. rewrite list_elem_of_In, in_concat. setoid_rewrite <-list_elem_of_In.
  unfold referenced. split.
  - intros (names & Hin & Hx). destruct (Forall2_elem_r _ _ _ _ H Hin) as (sid & _ & ->).
    exists sid. by apply btree_keys_elem.
  - intros (sid & Hs). destruct (dk_references d !! sid) as [m|] eqn:Hm.
    + assert (sid ∈ session_names (dk_references d)) as Hin by (apply session_names_elem; eauto).
      destruct (Forall2_elem_l _ _ _ _ H Hin) as (names & Hn & ->).
      eexists. split; [done|]. by apply btree_keys_elem.
    + unfold markers_of in Hs. rewrite Hm in Hs. by destruct Hs.
Qed.

Lemma raw_session_result sid :
  match
    names ← list_markers (SessionReferences sid) (markers_of sid d) d;
    _ ← collect (reference_marker sid (markers_of sid d)) names;
    Ok names
  with
  | Ok names => names = btree_keys (markers_of sid d)
  | Err _ => dk_temporaries d ≠ []
  end.
Proof.
  rewrite list_markers_result. case_bool_decide as Ht; cbn.
  { intros Hn. rewrite Hn in Ht. by apply not_elem_of_nil in Ht. }
  edestruct (collect_total (reference_marker sid (markers_of sid d)) (λ _ _, True))
    as (ys & -> & _); [|done].
  intros x [f Hf]%btree_keys_elem.
  destruct (reference_marker_present sha256 d Hok sid _ x f eq_refl Hf) as (m & _ & ->). eauto.
Qed.

Lemma raw_referenced_result :
  match raw_referenced_digests d with
  | Ok set => ∀ x, x ∈ set ↔ referenced d x
  | Err _ => dk_temporaries d ≠ []
  end.
Proof.
  unfold raw_referenced_digests.
  match goal with |- context [over_sessions ?f d] =>
    pose proof (over_sessions_result f _ (λ _, dk_temporaries d ≠ []) d raw_session_result) as H end.
  destruct (over_sessions _ d) as [l|e]; cbn; [|done].
  intros x. rewrite elem_of_list_to_set. by apply referenced_names.
Qed.

Lemma object_digests_result : object_digests d = Ok (btree_keys (dk_objects d)).
Proof.
  unfold object_digests.
  edestruct (collect_total (λ name, digest ← parse_digest name;
    dir ← ok_or (dk_objects d !! name) (EvidenceNotFound name);
    _ ← validate_object_directory dir digest; Ok digest) (λ x y, y = x)) as (l & -> & Hl).
  - intros x [o Ho]%btree_keys_elem. exists x. split; [|done].
    rewrite (intact_digest sha256 x o) by (by eapply do_objects). cbn. rewrite Ho. cbn.
    by destruct (do_objects _ _ Hok _ _ Ho) as (meta & data & -> & _).
  - f_equal. by induction Hl as [|x y l' k -> _ ->].
Qed.

Lemma unreferenced_marker_result x :
  is_Some (dk_unreferenced d !! x) → ∃ marker,
    dk_unreferenced d !! x = Some (Some marker) ∧ unreferenced_marker x d = Ok (x, marker).
Proof.
  intros [f Hf]. destruct (do_unreferenced _ _ Hok _ _ Hf) as (m & o & meta & -> & Hv & _ & Hi & _).
  exists m. split; [done|]. unfold unreferenced_marker.
  rewrite (intact_digest _ _ _ Hi). cbn. rewrite Hf. cbn. by rewrite Hv.
Qed.
End Scans.

(** ** The index is a function of the disk *)

(** The number of Sessions that own a reference to an object *)
Definition refcount (d : Disk) (x : Sha256Digest) : N :=
  len (filter (λ sid, is_Some (markers_of sid d !! x)) (session_names (dk_references d))).

Definition session_size (d : Disk) (sid : SessionId) : N := N.of_nat (size (markers_of sid d)).

Definition index_exact (d : Disk) (index : ReferenceIndex) : Prop :=
  (∀ x, ix_by_digest index !! x = positive (clip (refcount d x))) ∧
  (∀ sid, ix_by_session index !! sid = positive (clip (session_size d sid))).

Lemma refcount_referenced d x : refcount d x ≠ 0 ↔ referenced d x.
Proof.
  unfold refcount, len, referenced. split.
  - intros Hn. destruct (filter _ _) as [|sid l] eqn:Hl; [done|]. exists sid.
    assert (sid ∈ filter (λ sid, is_Some (markers_of sid d !! x)) (session_names (dk_references d)))
      as Hin by (rewrite Hl; set_solver).
    by apply list_elem_of_filter in Hin as [? _].
  - intros (sid & Hs) Hn.
    assert (sid ∈ filter (λ sid, is_Some (markers_of sid d !! x)) (session_names (dk_references d)))
      as Hin.
    { apply list_elem_of_filter. split; [done|]. apply session_names_elem.
      unfold markers_of in Hs. destruct (dk_references d !! sid); [eauto|by destruct Hs]. }
    destruct (filter _ _); [by apply not_elem_of_nil in Hin|done].
Qed.

Lemma occurrences_sessions d x (l : list (list Sha256Digest)) names :
  Forall2 (λ sid keys, keys = btree_keys (markers_of sid d)) names l →
  occurrences x (concat l) = len (filter (λ sid, is_Some (markers_of sid d !! x)) names).
Proof.
  induction 1 as [|sid keys names l -> _ IH]; [done|]. cbn [concat].
  rewrite occurrences_app, IH, occurrences_NoDup, filter_cons by apply btree_keys_NoDup.
  destruct (decide (is_Some (markers_of sid d !! x))) as [Hs|Hs].
  - rewrite bool_decide_true by by apply btree_keys_elem. unfold len. cbn. lia.
  - rewrite bool_decide_false by by rewrite btree_keys_elem. lia.
Qed.

Definition index_session (index : ReferenceIndex) (entry : SessionId * list Sha256Digest)
    : ReferenceIndex :=
  let '(session_id, digests) := entry in
  let session_count := saturating_count digests in
  mkReferenceIndex
    (foldl count_entry (ix_by_digest index) digests)
    (if 0 <? session_count then <[session_id := session_count]> (ix_by_session index)
     else ix_by_session index).

Lemma index_sessions_by_digest l index :
  ix_by_digest (foldl index_session index l) = foldl count_entry (ix_by_digest index) (concat l.*2).
Proof.
  revert index. induction l as [|[sid digests] l IH]; intros index; [done|].
  cbn. by rewrite IH, foldl_app.
Qed.

Lemma index_session_other index sid sid' digests :
  sid ≠ sid' →
  ix_by_session (index_session index (sid', digests)) !! sid = ix_by_session index !! sid.
Proof. intros Hne. cbn. case_match; [|done]. by rewrite lookup_insert_ne. Qed.

Lemma index_sessions_other l index sid :
  sid ∉ l.*1 → ix_by_session (foldl index_session index l) !! sid = ix_by_session index !! sid.
Proof.
  revert index. induction l as [|[sid' digests] l IH]; intros index Hn; [done|].
  cbn [foldl]. rewrite IH by set_solver. apply index_session_other. set_solver.
Qed.

Lemma index_sessions_by_session l index sid digests :
  NoDup l.*1 → ix_by_session index !! sid = None → (sid, digests) ∈ l →
  ix_by_session (foldl index_session index l) !! sid = positive (clip (len digests)).
Proof.
  revert index. induction l as [|[sid' ds] l IH]; intros index Hnd Hn Hin;
    [by apply not_elem_of_nil in Hin|].
  cbn in Hnd. apply NoDup_cons in Hnd as [Hni Hnd]. cbn [foldl].
  apply elem_of_cons in Hin as [[= <- <-]|Hin].
  - rewrite index_sessions_other by done. cbn. rewrite saturating_count_clip.
    unfold positive. destruct (N.eqb_spec (clip (len digests)) 0) as [Hz|Hz].
    + by rewrite Hz.
    + assert ((0 <? clip (len digests)) = true) as -> by (apply N.ltb_lt; lia).
      apply lookup_insert_eq.
  - apply IH; [done| |done]. rewrite index_session_other; [done|].
    intros ->. destruct Hni. apply list_elem_of_fmap. by exists (sid', digests).
Qed.

Lemma scan_reference_index_result sha256 d :
  disk_ok sha256 d →
  match scan_reference_index d with
  | Ok index => index_exact d index
  | Err _ => dk_temporaries d ≠ []
  end.
Proof.
  intros Hok. unfold scan_reference_index.
  match goal with |- context [over_sessions ?f d] =>
    pose proof (over_sessions_result f (λ sid p, p = (sid, btree_keys (markers_of sid d)))
      (λ _, dk_temporaries d ≠ []) d) as H; lapply H; clear H; [intros H|] end; cycle 1.
  { intros sid. pose proof (session_objects_result sha256 d Hok sid) as Hs.
    destruct (session_objects _ _ _) as [objects|]; cbn; [|done]. by destruct Hs as [-> _]. }
  destruct (over_sessions _ d) as [l|e]; cbn; [|done]. fold index_session.
  change (index_exact d (foldl index_session (mkReferenceIndex ∅ ∅) l)).
  assert (l.*1 = session_names (dk_references d)) as Hl1.
  { clear -H. by induction H as [|sid p names l -> _ IH]; cbn; [|rewrite IH]. }
  assert (Forall2 (λ sid keys, keys = btree_keys (markers_of sid d))
    (session_names (dk_references d)) l.*2) as Hl2.
  { clear -H. induction H as [|sid p names l -> _ IH]; by constructor. }
  split.
  - intros x. rewrite index_sessions_by_digest, (foldl_count_entry _ _ (λ _, 0)) by done.
    by rewrite (occurrences_sessions d x _ _ Hl2).
  - intros sid. destruct (decide (sid ∈ session_names (dk_references d))) as [Hin|Hni].
    + destruct (Forall2_elem_l _ _ _ _ H Hin) as (p & Hp & ->).
      rewrite (index_sessions_by_session _ _ _ (btree_keys (markers_of sid d)));
        [|rewrite Hl1; apply session_names_NoDup|done|done].
      unfold session_size, len. by rewrite (proj1 (btree_keys_dom _)).
    + rewrite index_sessions_other by by rewrite Hl1. rewrite session_names_elem in Hni.
      apply eq_None_not_Some in Hni. unfold session_size, markers_of. by rewrite Hni.
Qed.

Lemma count_references_result sha256 d x :
  disk_ok sha256 d →
  match count_references x d with
  | Ok n => n = clip (refcount d x)
  | Err _ => dk_temporaries d ≠ []
  end.
Proof.
  intros Hok. unfold count_references.
  match goal with |- context [over_sessions ?f d] =>
    pose proof (over_sessions_result f (λ sid keys, keys = btree_keys (markers_of sid d))
      (λ _, dk_temporaries d ≠ []) d) as H; lapply H; clear H; [intros H|] end; cycle 1.
  { intros sid. pose proof (session_objects_result sha256 d Hok sid) as Hs.
    destruct (session_objects _ _ _) as [objects|]; cbn; [|done]. by destruct Hs as [-> _]. }
  destruct (over_sessions _ d) as [l|e]; cbn; [|done].
  rewrite saturating_count_clip. f_equal. exact (occurrences_sessions d x _ _ H).
Qed.
