(* ===== verification/EvidenceFsSafe.v ===== *)
(** * Every operation of the filesystem evidence store is safe

    Each operation of [EvidenceFs], under every outcome of its calls to the
    file system, keeps the invariant of the disk and whatever Sessions that
    were not released own; without failures it returns, or refuses for one of
    the reasons given. *)

From S2P Require Import Prelude Protocol Evidence EvidenceFs EvidenceFsInv EvidenceFsIndex.

Local Open Scope N_scope.

Section Safe.
Context (sha256 : list N → list N) (touched : Uuid → Prop) (d0 : Disk).

Abbreviation I := (safe sha256 touched d0).
Abbreviation NoError := (λ _ : EvidenceError, False).

Lemma safe_ok d : I d → disk_ok sha256 d.
Proof. by intros [? _]. Qed.

(** ** Markers *)

Lemma set_unreferenced_delete_id x d :
  dk_unreferenced d !! x = None → set_unreferenced (delete x) d = d.
Proof. destruct d. unfold set_unreferenced. cbn. intros H. by rewrite delete_id. Qed.

Lemma spec_remove_marker P x E :
  (∀ d, P d → I d) →
  spec P (remove_unreferenced_marker_if_present x)
    (λ _ d', ∃ d, P d ∧ d' = set_unreferenced (delete x) d) I E.
Proof.
  intros HP. apply spec_disk. intros d1 Hd1. unfold exists_at. case_bool_decide as Hx.
  - eapply (spec_bind _ _ _ (λ _ d', ∃ d, P d ∧ d' = set_unreferenced (delete x) d)).
    + apply spec_io; [intros d [_ ?]; auto| |by intros ?]. intros d [-> ?]. eauto.
    + intros []. apply spec_sync; [|done]. intros d (d2 & Hd2 & ->). apply safe_remove_marker. auto.
  - apply spec_ret. intros d [-> _]. exists d1. split; [done|].
    symmetry. apply set_unreferenced_delete_id. by apply eq_None_not_Some.
Qed.

(** The marker of an object in place *)
Definition marker_for (x : Sha256Digest) (meta : ObjectMetadata) (at_ms : N) : UnreferencedMarker :=
  mkUnreferencedMarker STORE_VERSION x (om_byte_length meta) at_ms.

Definition in_place (x : Sha256Digest) (meta : ObjectMetadata) (d : Disk) : Prop :=
  ∃ o, dk_objects d !! x = Some o ∧ object_meta o = Some meta.

Lemma marker_length d x meta f :
  disk_ok sha256 d → in_place x meta d → dk_unreferenced d !! x = Some f → ∃ marker,
    f = Some marker ∧ validate_unreferenced_marker marker x = Ok () ∧
    um_byte_length marker = om_byte_length meta.
Proof.
  intros Hok (o & Ho & Hm) Hf.
  destruct (do_unreferenced _ _ Hok _ _ Hf) as (m & o' & meta' & -> & Hv & Hor & _ & Hm' & Hl).
  exists m. split_and!; [done..|]. destruct Hor as [Hor|Hor].
  - by simplify_eq.
  - apply (do_trash _ _ Hok) in Hor as [Hn _]. congruence.
Qed.

Lemma spec_write_marker P op x meta at_ms :
  (∀ d, P d → I d ∧ in_place x meta d ∧ dk_unreferenced d !! x = None) →
  ∀ E, spec P (atomic_write_json UnreferencedMarkers op
      (λ disk, exists_at (dk_unreferenced disk) x)
      (set_unreferenced <[x := Some (marker_for x meta at_ms)]>))
    (λ _ d', ∃ d, P d ∧ d' = set_unreferenced <[x := Some (marker_for x meta at_ms)]> d) I E.
Proof.
  intros HP E. apply spec_atomic_write_json.
  - intros d Hd. by apply HP.
  - intros d Hd. apply safe_add_temporary; [by apply HP|done].
  - intros d Hd Hx. destruct (HP d Hd) as (_ & _ & Hn). unfold exists_at in Hx.
    apply bool_decide_eq_true in Hx. rewrite Hn in Hx. by destruct Hx.
  - intros d Hd _. split; [by eauto|]. destruct (HP d Hd) as (HI & (o & Ho & Hm) & _).
    by eapply safe_add_marker.
  - by intros ?.
Qed.

Lemma spec_ensure_marker P x meta at_ms E :
  (∀ d, P d → I d ∧ in_place x meta d) →
  spec P (ensure_unreferenced_marker x (om_byte_length meta) at_ms)
    (λ created d', ∃ d, P d ∧
      if created : bool then dk_unreferenced d !! x = None ∧
        d' = set_unreferenced <[x := Some (marker_for x meta at_ms)]> d
      else is_Some (dk_unreferenced d !! x) ∧ d' = d) I E.
Proof.
  intros HP. apply spec_disk. intros d1 Hd1. destruct (HP d1 Hd1) as [HI Hin].
  destruct (dk_unreferenced d1 !! x) as [f|] eqn:Hf.
  - destruct (marker_length d1 x meta f) as (m & -> & Hv & Hl); [by apply safe_ok|done..|].
    eapply (spec_bind _ _ _ (λ a d, a = m ∧ d = d1 ∧ P d)).
    { apply spec_read; [intros d [_ ?]; by apply HP|]. by intros d [-> _]. }
    intros a s (-> & Hs & _). unfold mbind, M_bind, lift. rewrite Hv. cbn.
    rewrite Hl, N.eqb_refl. cbn. rewrite Hs. split; [|done]. exists d1. eauto.
  - eapply spec_bind; [apply (spec_write_marker (λ d, d = d1 ∧ P d))|].
    + intros d [-> Hd]. split_and!; [done..|]. done.
    + intros []. apply spec_ret. intros d (d2 & [-> Hd2] & ->). exists d1. done.
Qed.

(** ** Sessions *)

Lemma spec_session_open P sid :
  (∀ d, P d → I d) →
  spec P (ensure_session_open sid) (λ _ d, P d ∧ dk_released_sessions d !! sid = None) I
    (λ e, e = SessionClosed sid).
Proof.
  intros HP. apply spec_disk. intros d1 Hd1.
  destruct (dk_released_sessions d1 !! sid) as [f|] eqn:Hf.
  - destruct (do_released _ _ (safe_ok _ (HP _ Hd1)) _ _ Hf) as (m & -> & Hv).
    eapply (spec_bind _ _ _ (λ a d, a = m ∧ P d)).
    { apply spec_read; [intros d [_ ?]; by apply HP|]. by intros d [-> _]. }
    intros a. intros s [-> Hs]. unfold mbind, M_bind, lift, throw. rewrite Hv. cbn. auto.
  - apply spec_ret. by intros d [-> ?].
Qed.

Lemma spec_persist_release P sid at_ms E :
  (∀ d, P d → I d) →
  spec P (persist_session_release sid at_ms)
    (λ _ d', I d' ∧ is_Some (dk_released_sessions d' !! sid)) I E.
Proof.
  intros HP. apply spec_disk. intros d1 Hd1.
  destruct (dk_released_sessions d1 !! sid) as [f|] eqn:Hf.
  - destruct (do_released _ _ (safe_ok _ (HP _ Hd1)) _ _ Hf) as (m & -> & Hv).
    eapply (spec_bind _ _ _ (λ a d, a = m ∧ d = d1)).
    { apply spec_read; [intros d [_ ?]; by apply HP|]. by intros d [-> _]. }
    intros a. intros s [-> Hs]. unfold mbind, M_bind, lift. rewrite Hv. cbn. rewrite Hs. eauto.
  - eapply (spec_bind _ _ _ (λ _ d', I d' ∧ is_Some (dk_released_sessions d' !! sid)));
      [|intros []; by apply spec_ret].
    apply spec_atomic_write_json.
    + intros d [_ ?]. auto.
    + intros d [_ ?]. apply safe_add_temporary; auto. done.
    + intros d [-> ?] Hx. unfold exists_at in Hx. apply bool_decide_eq_true in Hx. auto.
    + intros d [-> ?] _. assert (I (set_released <[sid := Some
        (mkReleasedSessionMarker STORE_VERSION sid at_ms)]> d1)) by (apply safe_add_released; auto).
      split; [|done]. split; [done|]. cbn. rewrite lookup_insert_eq. eauto.
    + by intros ?.
Qed.
(** ** Recovery *)

(** The trash of [x] is gone, and nothing else changed but what was stored
    under [x]. *)
Definition same_owners (d d' : Disk) : Prop :=
  dk_references d' = dk_references d ∧ dk_staging d' = dk_staging d ∧
  dk_released_sessions d' = dk_released_sessions d ∧ dk_header d' = dk_header d.

Record trash_cleared (restored : bool) (x : Sha256Digest) (d d' : Disk) : Prop := {
  tc_trash : dk_trash d' = delete x (dk_trash d);
  tc_owners : same_owners d d';
  tc_objects y : y ≠ x → dk_objects d' !! y = dk_objects d !! y;
  tc_markers y : y ≠ x → dk_unreferenced d' !! y = dk_unreferenced d !! y;
  tc_untouched : dk_trash d !! x = None → d' = d;
  tc_not_restored : restored = false → dk_objects d' = dk_objects d;
}.

Lemma spec_remove_trash P op x E :
  (∀ d, P d → I d ∧ dk_unreferenced d !! x = None) →
  spec P (remove_trash op x) (λ _ d', I d' ∧ ∃ d, P d ∧ d' = set_trash (delete x) d) I E.
Proof.
  intros HP. apply spec_remove_dir_all; [..|by intros ?].
  - intros d names Hd. by apply safe_trash; apply HP || cbn.
  - intros d Hd. split; [|by eauto]. by apply safe_trash; apply HP || cbn.
Qed.

Lemma spec_restore P x o E :
  (∀ d, P d → I d ∧ dk_trash d !! x = Some o) → intact sha256 x o →
  spec P (check! io "create store directory" id;
          check! io "restore referenced GC object"
            (λ disk, set_trash (delete x) (set_objects <[x := o]> disk));
          check! sync_directory;
          check! sync_directory;
          remove_unreferenced_marker_if_present x)
    (λ _ d', I d' ∧ ∃ d, P d ∧ trash_cleared true x d d') I E.
Proof.
  intros HP Hi.
  eapply (spec_bind _ _ _ (λ _, P)); [apply spec_io; [intros ? H; by apply HP|done|by intros ?]|].
  intros []. set (P1 := λ d', I d' ∧ ∃ d, P d ∧ trash_cleared true x d d').
  eapply (spec_bind _ _ _ (λ _, P1)).
  { apply spec_io; [intros ? H; by apply HP| |by intros ?]. intros d Hd.
    destruct (HP d Hd) as [HI Hx]. split; [by apply safe_restore|]. exists d. split; [done|].
    split; try done; [|congruence]. cbn. intros y Hy. by rewrite lookup_insert_ne. }
  intros []. eapply (spec_bind _ _ _ (λ _, P1)); [apply spec_sync; [by intros ? [??]|done]|].
  intros []. eapply (spec_bind _ _ _ (λ _, P1)); [apply spec_sync; [by intros ? [??]|done]|].
  intros []. eapply spec_conseq; [apply (spec_remove_marker P1); by intros ? [??]|done|].
  intros [] d' (d & (HI & d1 & Hd1 & Htc) & ->). split; [by apply safe_remove_marker|].
  exists d1. split; [done|]. destruct Htc as [? ? ? Hmk Hu ?]. split; try done.
  { intros y Hy. cbn. rewrite lookup_delete_ne by done. by apply Hmk. }
  intros Hn. exfalso. destruct (HP _ Hd1) as [_ Hx]. congruence.
Qed.

Lemma spec_recover_entry P x b (E : EvidenceError → Prop) :
  (∀ d, P d → I d) →
  (∀ d o e, P d → b = true → dk_trash d !! x = Some o →
    verify_object_directory_sync sha256 o x = Err e → E e) →
  spec P (recover_gc_trash_entry sha256 x b) (λ _ d', I d' ∧ ∃ d, P d ∧ trash_cleared b x d d') I E.
Proof.
  intros HP HE. apply spec_disk. intros d1 Hd1. pose proof (HP _ Hd1) as HI.
  destruct (dk_trash d1 !! x) as [o|] eqn:Hx.
  2:{ apply spec_ret. intros d [-> _]. split; [done|]. exists d1. split; [done|].
      split; try done. by rewrite delete_id. }
  destruct (do_trash _ _ (safe_ok _ HI) _ _ Hx) as [-> _]. destruct b.
  - eapply (spec_bind _ _ _ (λ _ d, intact sha256 x o ∧ d = d1 ∧ P d)).
    { apply spec_read; [intros d [_ ?]; auto|]. intros d [-> _].
      destruct (verify_object_directory_sync sha256 o x) eqn:Hv; [|by eauto].
      eauto using verify_sync_intact. }
    intros _. apply spec_pure. intros Hi.
    eapply spec_conseq; [apply (spec_restore (λ d, d = d1 ∧ P d) x o); [|done]|..]; try done.
    + by intros d [-> ?].
    + naive_solver.
  - eapply spec_bind; [apply (spec_remove_marker (λ d, d = d1 ∧ P d)); naive_solver|].
    intros []. eapply spec_bind; [apply spec_remove_trash|].
    + intros d (d2 & [-> ?] & ->). split; [by apply safe_remove_marker|].
      cbn. by rewrite lookup_delete_eq.
    + intros []. apply spec_sync; [by intros d [??]|].
      intros d (HId & d2 & (d3 & [-> ?] & ->) & ->). split; [done|]. exists d1. split; [done|].
      split; try done; [|congruence]. intros y Hy. cbn. by rewrite lookup_delete_ne.
Qed.
Lemma same_owners_trans d1 d2 d3 : same_owners d1 d2 → same_owners d2 d3 → same_owners d1 d3.
Proof. unfold same_owners. intuition congruence. Qed.

Lemma same_owners_markers sid d d' : same_owners d d' → markers_of sid d' = markers_of sid d.
Proof. intros (Hr & _). unfold markers_of. by rewrite Hr. Qed.

Lemma same_owners_referenced x d d' : same_owners d d' → referenced d' x ↔ referenced d x.
Proof. intros Hs. unfold referenced. by setoid_rewrite (same_owners_markers _ _ _ Hs). Qed.

Lemma spec_recover_gc_trash P E :
  (∀ d, P d → I d) →
  spec P (recover_gc_trash sha256)
    (λ _ d', I d' ∧ dk_trash d' = ∅ ∧
      ∃ d, P d ∧ same_owners d d' ∧ dk_objects d' = dk_objects d ∧
        ∀ x, dk_unreferenced d' !! x = dk_unreferenced d !! x ∨ dk_objects d !! x = None) I E.
Proof.
  intros HP. eapply (spec_bind _ _ _ (λ set d, P d ∧ ∀ x, x ∈ set ↔ referenced d x)).
  { apply spec_read; [done|]. intros d Hd.
    pose proof (raw_referenced_result sha256 d (safe_ok _ (HP _ Hd))) as Hr.
    destruct (raw_referenced_digests d); [done|]. by intros ?. }
  intros set. apply spec_disk. intros d1 [Hd1 Hset].
  eapply (spec_bind _ _ _ (λ _ d, d = d1)).
  { apply spec_io; [|by intros d [-> _]|by intros ?]. intros d [-> _]. auto. }
  intros []. set (J := λ (l : list Sha256Digest) d, I d ∧ same_owners d1 d ∧
    dk_objects d = dk_objects d1 ∧ (∀ x, is_Some (dk_trash d !! x) → x ∈ l) ∧
    ∀ x, dk_unreferenced d !! x = dk_unreferenced d1 !! x ∨ dk_objects d1 !! x = None).
  eapply (spec_conseq (J (btree_keys (dk_trash d1)))); [apply (spec_loop J)|..].
  - intros x l [o Ho]%btree_keys_elem.
      destruct (do_trash _ _ (safe_ok _ (HP _ Hd1)) _ _ Ho) as [Hn Hp]. rewrite Hp.
      assert (bool_decide (x ∈ set) = false) as Hb.
      { apply bool_decide_eq_false. rewrite Hset. intros (sid & f & Hf).
        destruct (do_references _ _ (safe_ok _ (HP _ Hd1)) _ _ _ Hf) as (? & ? & ? & _ & ? & _).
        congruence. }
      change (spec (J (x :: l)) (recover_gc_trash_entry sha256 x (bool_decide (x ∈ set)))
        (λ _, J l) I E). rewrite Hb.
      eapply spec_conseq; [apply (spec_recover_entry (J (x :: l)) x false E)|..]; try done.
      * by intros d [? _].
      * intros [] d' (HI & d & (_ & Hso & Ho' & Hl & Hmk) & [Htr Hso' _ Hmk' _ Hob]). split; [done|].
        split; [by eapply same_owners_trans|]. split; [rewrite Hob; done|]. split.
        -- intros y Hy. rewrite Htr in Hy. destruct Hy as [o' [Hne Hy]%lookup_delete_Some].
           assert (y ∈ x :: l) as Hin by eauto. set_solver.
        -- intros y. destruct (decide (y = x)) as [->|Hne]; [by right|]. rewrite Hmk' by done. apply Hmk.
  - intros d ->. unfold J. split_and!; [by auto|done|done| |by left]. intros x. by rewrite btree_keys_elem.
  - intros [] d (HI & Hso & Ho & Hl & Hmk). split; [done|]. split; [|by eauto].
    apply map_empty. intros x. apply eq_None_not_Some. intros Hx%Hl. by apply not_elem_of_nil in Hx.
Qed.
(** What [recover_reference_state] leaves alone *)
Definition markers_only (d d' : Disk) : Prop :=
  I d' ∧ same_owners d d' ∧ dk_objects d' = dk_objects d ∧ dk_trash d' = dk_trash d.

Lemma markers_only_ok d d' : markers_only d d' → disk_ok sha256 d'.
Proof. intros [HI _]. by apply safe_ok. Qed.

Lemma markers_only_referenced d d' x : markers_only d d' → referenced d' x ↔ referenced d x.
Proof. intros (_ & Hs & _). by apply same_owners_referenced. Qed.

Lemma markers_only_remove d d' x :
  markers_only d d' → markers_only d (set_unreferenced (delete x) d').
Proof. intros (HI & Hs & Ho & Ht). split; [by apply safe_remove_marker|done]. Qed.

Lemma referenced_in_place d x : disk_ok sha256 d → referenced d x → is_Some (dk_objects d !! x).
Proof.
  intros Hok (sid & f & Hf). destruct (do_references _ _ Hok _ _ _ Hf) as (_ & o & _ & _ & Ho & _).
  eauto.
Qed.

(** The markers of referenced objects are removed. *)
Definition drop_stale (d1 : Disk) (l : list Sha256Digest) (d : Disk) : Prop :=
  markers_only d1 d ∧
  ∀ x, dk_unreferenced d !! x = dk_unreferenced d1 !! x ∨
       referenced d1 x ∧ dk_unreferenced d !! x = None ∧ x ∉ l.

Lemma spec_recover_referenced d1 x l E :
  referenced d1 x → x ∉ l →
  spec (λ d, drop_stale d1 (x :: l) d ∧
          ∀ y, referenced d1 y → y ∈ x :: l ∨ dk_unreferenced d !! y = None)
    (recover_referenced x)
    (λ _ d, drop_stale d1 l d ∧ ∀ y, referenced d1 y → y ∈ l ∨ dk_unreferenced d !! y = None) I E.
Proof.
  intros Hx Hxl. apply spec_disk. intros d [[Hm Hd] Hr].
  pose proof (markers_only_ok _ _ Hm) as Hok.
  assert (is_Some (dk_objects d !! x)) as [o Ho].
  { apply referenced_in_place; [done|]. by rewrite markers_only_referenced. }
  apply spec_fail_if.
  { intros ? _ Hb. exfalso. unfold exists_at in Hb. by rewrite bool_decide_true in Hb by eauto. }
  intros _. eapply (spec_bind _ _ _ (λ _ d', d' = d)).
  { apply spec_read; [intros d' [-> _]; apply Hm|]. intros d' [-> _].
    destruct (object_present sha256 d Hok _ _ Ho) as (meta & data & _ & -> & _). done. }
  intros _. unfold exists_at. case_bool_decide as Hu.
  - apply spec_io; [intros d' ->; apply Hm| |by intros ?]. intros d' ->. split; [split|].
    + by apply markers_only_remove.
    + intros y. cbn. destruct (decide (y = x)) as [->|Hne].
      * right. by rewrite lookup_delete_eq.
      * rewrite lookup_delete_ne by done. destruct (Hd y) as [?|(? & ? & ?)]; [by left|].
        right. set_solver.
    + intros y Hy. cbn. destruct (decide (y = x)) as [->|Hne].
      * right. apply lookup_delete_eq.
      * rewrite lookup_delete_ne by done. destruct (Hr y Hy) as [?|?]; [left; set_solver|by right].
  - apply eq_None_not_Some in Hu. apply spec_ret. intros d' ->. split; [split; [done|]|].
    + intros y. destruct (Hd y) as [?|(? & ? & ?)]; [by left|]. right. set_solver.
    + intros y Hy. destruct (decide (y = x)) as [->|Hne]; [by right|].
      destruct (Hr y Hy) as [?|?]; [left; set_solver|by right].
Qed.
(** How the markers after recovery come about: kept, dropped because the
    object is referenced or missing, or written for an orphan *)
Definition marker_origin (now_ms : N) (d1 d : Disk) (x : Sha256Digest) : Prop :=
  dk_unreferenced d !! x = dk_unreferenced d1 !! x ∨
  (referenced d1 x ∨ dk_objects d1 !! x = None) ∧ dk_unreferenced d !! x = None ∨
  ¬ referenced d1 x ∧ dk_unreferenced d1 !! x = None ∧
  ∃ meta, in_place x meta d1 ∧ dk_unreferenced d !! x = Some (Some (marker_for x meta now_ms)).

Definition mark_orphans (now_ms : N) (d1 : Disk) (l : list Sha256Digest) (d : Disk) : Prop :=
  markers_only d1 d ∧ (∀ x, marker_origin now_ms d1 d x) ∧
  (∀ x, referenced d1 x → dk_unreferenced d !! x = None) ∧
  (∀ x, is_Some (dk_objects d1 !! x) → ¬ referenced d1 x → x ∈ l ∨ is_Some (dk_unreferenced d !! x)).

Lemma mark_orphans_tail now_ms d1 x l d :
  mark_orphans now_ms d1 (x :: l) d →
  (referenced d1 x ∨ is_Some (dk_unreferenced d !! x)) → mark_orphans now_ms d1 l d.
Proof.
  intros (Hm & Hor & Hr & Hu) Hx. split_and!; [done..|]. intros y Hy Hny.
  destruct (Hu y Hy Hny) as [[->|?]%elem_of_cons|?]; [|by left|by right].
  destruct Hx; [done|by right].
Qed.

Lemma spec_recover_orphan now_ms (references : gset Sha256Digest) d1 x l E :
  (∀ y, y ∈ references ↔ referenced d1 y) → is_Some (dk_objects d1 !! x) →
  spec (mark_orphans now_ms d1 (x :: l)) (recover_orphan now_ms references x)
    (λ _, mark_orphans now_ms d1 l) I E.
Proof.
  intros Hset [o Ho]. unfold recover_orphan. case_bool_decide as Hx.
  { apply spec_ret. intros d Hd. apply (mark_orphans_tail _ _ x); [done|]. left. by apply Hset. }
  rewrite Hset in Hx.
  eapply (spec_bind _ _ _ (λ meta d, in_place x meta d1 ∧ mark_orphans now_ms d1 (x :: l) d)).
  { apply spec_read; [by intros d (H & _); apply H|]. intros d Hd. pose proof Hd as (Hm & _).
    pose proof Hm as (_ & _ & Hobj & _). rewrite <-Hobj in Ho.
    destruct (object_present sha256 d (markers_only_ok _ _ Hm) _ _ Ho) as (meta & data & -> & -> & _).
    split; [|done]. eexists. rewrite <-Hobj. eauto. }
  intros meta. apply spec_pure. intros Hin. apply spec_disk. intros d Hd.
  pose proof Hd as (Hm & Hor & Hr & Hu). unfold exists_at at 1. case_bool_decide as Hux.
  { apply spec_ret. intros d' [-> _]. apply (mark_orphans_tail _ _ x); eauto. }
  apply eq_None_not_Some in Hux.
  eapply spec_conseq; [apply (spec_write_marker (λ d', d' = d) _ x meta now_ms)|by intros ? [-> _]|].
  - intros d' ->. split; [apply Hm|]. split; [|done]. unfold in_place.
    by destruct Hm as (_ & _ & -> & _).
  - intros [] d' (d2 & -> & ->).
    assert (dk_unreferenced d1 !! x = None) as Hu1.
    { destruct (Hor x) as [He|[[[?|?] _]|(_ & ? & _)]]; [congruence|done|congruence|done]. }
    split_and!.
    + destruct Hm as (HI & Hs & Hobj & Ht). split; [|done]. destruct Hin as (o' & Ho' & Hm').
      apply (safe_add_marker _ _ _ _ _ o'); [done|by rewrite Hobj|done].
    + intros y. unfold marker_origin. cbn. destruct (decide (y = x)) as [->|Hne].
      * rewrite lookup_insert_eq. right. right. eauto.
      * rewrite lookup_insert_ne by done. apply Hor.
    + intros y Hy. cbn. rewrite lookup_insert_ne by congruence. by apply Hr.
    + intros y Hy Hny. cbn. destruct (decide (y = x)) as [->|Hne].
      * right. rewrite lookup_insert_eq. eauto.
      * rewrite lookup_insert_ne by done.
        destruct (Hu y Hy Hny) as [[->|?]%elem_of_cons|?]; [done|by left|by right].
Qed.

(** After recovery exactly the unreferenced objects in place have a marker. *)
Definition markers_exact (d : Disk) : Prop :=
  ∀ x, is_Some (dk_unreferenced d !! x) ↔ is_Some (dk_objects d !! x) ∧ ¬ referenced d x.

Definition drop_missing (now_ms : N) (d1 : Disk) (l : list Sha256Digest) (d : Disk) : Prop :=
  NoDup l ∧ mark_orphans now_ms d1 [] d ∧
  (∀ x, x ∈ l → is_Some (dk_unreferenced d !! x)) ∧
  (∀ x, is_Some (dk_unreferenced d !! x) → x ∈ l ∨ is_Some (dk_objects d1 !! x)).

Lemma spec_recover_marker now_ms d1 x l E :
  spec (drop_missing now_ms d1 (x :: l)) (recover_marker x) (λ _, drop_missing now_ms d1 l) I E.
Proof.
  eapply (spec_bind _ _ _ (λ _, drop_missing now_ms d1 (x :: l))).
  { apply spec_read; [by intros d (_ & (H & _) & _); apply H|].
    intros d Hd. pose proof Hd as (_ & (Hm & _) & Hl & _).
    destruct (unreferenced_marker_result sha256 d (markers_only_ok _ _ Hm) x) as (m & _ & ->);
      [apply Hl; set_solver|done]. }
  intros _. apply spec_disk. intros d Hd.
  pose proof Hd as ([Hxl Hnd]%NoDup_cons & (Hm & Hor & Hr & Hu) & Hl & Hc).
  pose proof Hm as (HI & _ & Hobj & _). unfold exists_at. case_bool_decide as Hx; cbn [negb].
  - apply spec_ret. intros d' [-> _]. split_and!; [done..|set_solver|].
    intros y Hy. destruct (Hc y Hy) as [[->|?]%elem_of_cons|?]; rewrite ?Hobj in *; auto.
  - apply eq_None_not_Some in Hx. rewrite Hobj in Hx.
    apply spec_io; [by intros d' [-> _]| |by intros ?]. intros d' [-> _]. split_and!; [done|split_and!|..].
    + by apply markers_only_remove.
    + intros y. unfold marker_origin. cbn. destruct (decide (y = x)) as [->|Hne].
      * rewrite lookup_delete_eq. right. left. auto.
      * rewrite lookup_delete_ne by done. apply Hor.
    + intros y Hy. cbn. apply lookup_delete_None. right. auto.
    + intros y Hy Hny. right. cbn. rewrite lookup_delete_ne by (intros <-; rewrite Hx in Hy; by destruct Hy).
      destruct (Hu y Hy Hny) as [H|?]; [by apply not_elem_of_nil in H|done].
    + intros y Hy. cbn. rewrite lookup_delete_ne by congruence. apply Hl. set_solver.
    + cbn. intros y [f [Hne Hy]%lookup_delete_Some]. destruct (Hc y) as [[->|?]%elem_of_cons|?]; eauto. done.
Qed.
Definition marks_recovered (now_ms : N) (d d' : Disk) : Prop :=
  markers_only d d' ∧ (∀ x, marker_origin now_ms d d' x) ∧ markers_exact d'.

Lemma spec_drop_stale (references : gset Sha256Digest) d1 E :
  (∀ y, y ∈ references ↔ referenced d1 y) →
  spec (λ d, d = d1 ∧ I d) (for_each recover_referenced (merge_sort string_le (elements references)))
    (λ _ d, drop_stale d1 [] d ∧ ∀ y, referenced d1 y → dk_unreferenced d !! y = None) I E.
Proof.
  intros Hset. set (l := merge_sort _ _).
  assert (∀ y, y ∈ l ↔ referenced d1 y) as Hl.
  { intros y. unfold l. by rewrite merge_sort_Permutation, elem_of_elements. }
  assert (NoDup l) as Hnd by (unfold l; rewrite merge_sort_Permutation; apply NoDup_elements).
  set (J := λ (l : list Sha256Digest) d, NoDup l ∧ drop_stale d1 l d ∧
    ∀ y, referenced d1 y → y ∈ l ∨ dk_unreferenced d !! y = None).
  eapply (spec_conseq (J l)); [apply (spec_loop J)|..].
  - intros x l' Hx. apply spec_pure. intros [Hxl Hnd']%NoDup_cons.
    eapply spec_conseq; [apply spec_recover_referenced; [by apply Hl|done]|done|].
    intros [] d Hd. by split.
  - intros d [-> HI]. split; [done|]. split; [split; [|by left]|].
    { by unfold markers_only, same_owners; split_and!. }
    intros y Hy. left. by apply Hl.
  - intros [] d (_ & Hd & Hr). split; [done|]. intros y Hy.
    destruct (Hr y Hy) as [H|?]; [by apply not_elem_of_nil in H|done].
Qed.

Lemma spec_recover_reference_state P now_ms E :
  (∀ d, P d → I d) →
  spec P (recover_reference_state now_ms) (λ _ d', ∃ d, P d ∧ marks_recovered now_ms d d') I E.
Proof.
  intros HP. eapply (spec_bind _ _ _ (λ set d, P d ∧ ∀ x, x ∈ set ↔ referenced d x)).
  { apply spec_read; [done|]. intros d Hd.
    pose proof (raw_referenced_result sha256 d (safe_ok _ (HP _ Hd))) as Hr.
    destruct (raw_referenced_digests d); [done|]. by intros ?. }
  intros references. apply spec_named. intros d1 [Hd1 Hset].
  apply (spec_conseq (λ d, d = d1 ∧ I d) _ _ (λ _, marks_recovered now_ms d1));
    [|by intros d (-> & ? & _); auto|by eauto].
  eapply spec_bind; [by apply spec_drop_stale|]. intros [].
  eapply (spec_bind _ _ _ (λ objects d, objects = btree_keys (dk_objects d1) ∧
    mark_orphans now_ms d1 objects d)).
  { apply spec_read; [by intros d [[H _] _]; apply H|]. intros d [[Hm Hd] Hr].
    rewrite (object_digests_result sha256 d (markers_only_ok _ _ Hm)).
    pose proof Hm as (_ & _ & Hobj & _). rewrite Hobj. split; [done|]. split_and!; [done| |done|].
    - intros x. destruct (Hd x) as [?|(? & ? & _)]; [by left|]. right. left. auto.
    - intros x Hx _. left. by apply btree_keys_elem. }
  intros objects. apply spec_pure. intros ->.
  eapply spec_bind; [apply (spec_loop (mark_orphans now_ms d1))|].
  { intros x l Hx%btree_keys_elem. by apply spec_recover_orphan. }
  intros []. eapply (spec_bind _ _ _ (drop_missing now_ms d1)).
  { apply spec_read; [by intros d [H _]; apply H|]. intros d Hd. rewrite list_markers_result.
    case_bool_decide as Ht; [intros Hn; rewrite Hn in Ht; by apply not_elem_of_nil in Ht|].
    split; [apply btree_keys_NoDup|]. split_and!; [done|..]; intros x; rewrite btree_keys_elem; auto. }
  intros names. eapply spec_bind; [apply (spec_loop (drop_missing now_ms d1))|].
  { intros x l _. apply spec_recover_marker. }
  intros []. apply spec_sync; [by intros d (_ & [H _] & _); apply H|].
  intros d (_ & (Hm & Hor & Hr & Hu) & _ & Hc). split_and!; [done..|].
  intros x. rewrite (markers_only_referenced _ _ x Hm).
  pose proof Hm as (_ & _ & -> & _). split.
  - intros Hx. split; [destruct (Hc x Hx) as [H|?]; [by apply not_elem_of_nil in H|done]|].
    intros Href%Hr. rewrite Href in Hx. by destruct Hx.
  - intros [Ho Hn]. destruct (Hu x Ho Hn) as [H|?]; [by apply not_elem_of_nil in H|done].
Qed.
(** ** The index *)

Lemma spec_rebuild P E : (∀ d, P d → I d) → spec P rebuild_reference_index (λ _, P) I E.
Proof.
  intros HP. eapply (spec_bind _ _ _ (λ _, P)).
  - apply spec_read; [done|]. intros d Hd.
    pose proof (scan_reference_index_result sha256 d (safe_ok _ (HP _ Hd))) as Hr.
    destruct (scan_reference_index d); [done|]. by intros ?.
  - intros index. by apply spec_modify_index.
Qed.

Lemma spec_indexed_count_same P x E :
  (∀ d, P d → I d) → spec P (indexed_reference_count x) (λ _, P) P E.
Proof.
  intros HP. apply spec_index. intros [index|]; [by apply spec_ret|].
  apply spec_read; [done|]. intros d Hd.
  pose proof (count_references_result sha256 d x (safe_ok _ (HP _ Hd))) as Hr.
  destruct (count_references x d); [done|]. by intros ?.
Qed.

Lemma spec_indexed_count P x E :
  (∀ d, P d → I d) → spec P (indexed_reference_count x) (λ _, P) I E.
Proof. intros HP. eapply spec_mono; [by apply spec_indexed_count_same|done..]. Qed.

Lemma spec_indexed_session_count P sid E :
  (∀ d, P d → I d) → spec P (indexed_session_reference_count sid) (λ _, P) I E.
Proof.
  intros HP. apply spec_index. intros [index|]; [by apply spec_ret|].
  apply spec_read; [done|]. intros d Hd.
  pose proof (session_reference_count_result sha256 d (safe_ok _ (HP _ Hd)) sid) as Hr.
  destruct (session_reference_count sid d); [done|]. by intros ?.
Qed.

(** A rebuilt index knows what is referenced. *)
Lemma spec_rebuilt_digests {A} P (k : gset Sha256Digest → FS A) Q E :
  (∀ d, P d → I d) →
  (∀ set, spec (λ d, P d ∧ ∀ x, x ∈ set ↔ referenced d x) (k set) Q I E) →
  spec P (check! rebuild_reference_index; indexed_referenced_digests ≫= k) Q I E.
Proof.
  intros HP Hk. apply spec_named. intros d1 Hd1.
  apply spec_assoc.
  eapply (spec_bind _ _ _ (λ index d, index_exact d1 index ∧ d = d1 ∧ P d)).
  { apply spec_read; [by intros d [_ ?]; auto|]. intros d [-> _].
    pose proof (scan_reference_index_result sha256 d1 (safe_ok _ (HP _ Hd1))) as Hr.
    destruct (scan_reference_index d1); [done|]. by intros ?. }
  intros index. apply spec_pure. intros Hix s [Hs HPs].
  apply (Hk (dom (ix_by_digest index)) (set_index (λ _, Some index) s)). split; [done|].
  cbn. rewrite Hs. intros x. rewrite elem_of_dom, (proj1 Hix x), <-refcount_referenced.
  unfold positive, clip. destruct (N.eqb_spec (N.min (refcount d1 x) U64_MAX) 0) as [He|He].
  - split; [by intros [? ?]|]. unfold U64_MAX in He. lia.
  - split; [|by eauto]. intros _ Hz. rewrite Hz in He. by destruct He.
Qed.
(** ** Releasing *)

Definition released_from (sid : SessionId) (d d' : Disk) : Prop :=
  I d' ∧ dk_references d' = delete sid (dk_references d) ∧
  dk_released_sessions d' = dk_released_sessions d ∧ dk_objects d' = dk_objects d ∧
  dk_header d' = dk_header d ∧ dk_staging d' = dk_staging d ∧ dk_trash d' = dk_trash d.

Lemma spec_mark_released l sid d1 at_ms assets size E :
  (∀ x meta, (x, meta) ∈ l → in_place x meta d1) →
  spec (released_from sid d1) (mark_released l at_ms assets size)
    (λ _, released_from sid d1) I E.
Proof.
  revert assets size. induction l as [|[x meta] l IH]; intros assets size Hl; cbn [mark_released].
  { by apply spec_ret. }
  eapply spec_bind; [apply (spec_indexed_count (released_from sid d1)); by intros d [? _]|].
  intros count. eapply (spec_bind _ _ _ (λ _, released_from sid d1)).
  - case_match; [|by apply spec_ret].
    eapply spec_conseq; [apply (spec_ensure_marker (released_from sid d1) x meta)|done|].
    + intros d Hd. split; [apply Hd|]. destruct Hd as (_ & _ & _ & Ho & _). unfold in_place.
      rewrite Ho. apply Hl. set_solver.
    + intros [] d' (d & Hd & Hd'); destruct Hd' as [_ ->]; [|done].
      destruct Hd as (HI & Hr & Hrel & Ho & Hrest). split; [|done].
      destruct (Hl x meta) as (o & Hx & Hm); [set_solver|].
      eapply safe_add_marker; [done| |done]. by rewrite Ho.
  - intros []; apply IH; set_solver.
Qed.

Lemma spec_remove_session sid d1 E :
  is_Some (dk_released_sessions d1 !! sid) → is_Some (dk_references d1 !! sid) →
  spec (λ d, d = d1 ∧ I d) (remove_session_references sid)
    (λ _ d, released_from sid d1 d) I E.
Proof.
  intros Hrel [m Hm]. apply spec_remove_dir_all.
  - intros d names [-> HI].
    change (set_references ?f d1) with
      (set_temporaries (λ _, dk_temporaries d1) (set_references (λ _, f (dk_references d1)) d1)).
    apply (safe_shrink_session _ _ _ _ sid); [done|by left| | |].
    + rewrite lookup_alter_eq. unfold markers_of. rewrite Hm. cbn. apply map_filter_subseteq.
    + intros sid' Hne. by rewrite lookup_alter_ne.
    + intros sid' Hin. apply (do_temporaries _ _ (safe_ok _ HI)) in Hin.
      apply lookup_alter_is_Some. done.
  - intros d [-> HI]. split; [|done]. unfold clear_session_temporaries.
    change (set_temporaries ?g (set_references ?f d1)) with
      (set_temporaries (λ _, g (dk_temporaries d1)) (set_references (λ _, f (dk_references d1)) d1)).
    apply (safe_shrink_session _ _ _ _ sid); [done|by left| | |].
    + rewrite lookup_delete_eq. apply map_empty_subseteq.
    + intros sid' Hne. by rewrite lookup_delete_ne.
    + intros sid' [Hne Hin]%list_elem_of_filter. apply (do_temporaries _ _ (safe_ok _ HI)) in Hin.
      rewrite lookup_delete_ne by congruence. done.
  - intros d Ht. cbn. by rewrite Ht.
Qed.

Lemma spec_release_references P now_ms sid at_ms E :
  (∀ d, P d → I d ∧ is_Some (dk_released_sessions d !! sid)) →
  spec P (release_references_locked now_ms sid at_ms)
    (λ report d', rr_session_id report = sid ∧ ∃ d, P d ∧ released_from sid d d') I E.
Proof.
  intros HP. apply spec_disk. intros d1 Hd1. destruct (HP d1 Hd1) as [HI1 Hrel].
  destruct (dk_references d1 !! sid) as [entries|] eqn:Hm.
  - assert (markers_of sid d1 = entries) as Hmk by (unfold markers_of; by rewrite Hm).
    eapply (spec_bind _ _ _ (λ released d, (∀ x meta, (x, meta) ∈ released → in_place x meta d1) ∧
      d = d1 ∧ I d)).
    { apply spec_read; [by intros d [-> ?]|]. intros d [-> _].
      pose proof (session_objects_result sha256 d1 (safe_ok _ HI1) sid) as Hr. rewrite Hmk in Hr.
      destruct (session_objects sid d1 entries); [|by intros ?]. by destruct Hr. }
    intros released. apply spec_pure. intros Hin.
    eapply spec_bind; [apply spec_remove_session; eauto|]. intros [].
    eapply (spec_bind _ _ _ (λ _ d, released_from sid d1 d)); [by apply spec_modify_index|]. intros [].
    eapply (spec_bind _ _ _ (λ _ d, released_from sid d1 d)).
    { apply spec_sync; [by intros d [? _]|done]. }
    intros []. eapply spec_bind; [by apply spec_mark_released|]. intros [assets size].
    apply spec_ret. intros d Hd. eauto.
  - eapply spec_bind; [apply (spec_recover_reference_state (λ d, d = d1 ∧ P d)); naive_solver|].
    intros []. eapply spec_bind; [apply spec_rebuild|].
    + by intros d (d2 & _ & [? _] & _).
    + intros []. apply spec_ret. intros d (d2 & [-> ?] & (HI & (Hr & Hst & Hrl & Hh) & Ho & Ht) & _).
      split; [done|]. exists d1. split; [done|]. split_and!; try done. by rewrite Hr, delete_id.
Qed.

Lemma spec_release_session P now_ms sid at_ms E :
  (∀ d, P d → I d) →
  spec P (release_session now_ms sid at_ms)
    (λ report d', rr_session_id report = sid ∧ I d' ∧ dk_references d' !! sid = None ∧
      is_Some (dk_released_sessions d' !! sid)) I E.
Proof.
  intros HP. eapply spec_bind; [by apply spec_persist_release|]. intros at_ms'.
  eapply spec_conseq; [apply (spec_release_references
    (λ d, I d ∧ is_Some (dk_released_sessions d !! sid))); by intros d [? ?]|done|].
  intros report d' (Hid & d & [_ Hr] & (HI & Hrefs & Hrel & _)). split_and!; [done..| |].
  - by rewrite Hrefs, lookup_delete_eq.
  - by rewrite Hrel.
Qed.
(** Only references of released Sessions may have gone. *)
Definition only_released (d d' : Disk) : Prop :=
  I d' ∧ dk_released_sessions d' = dk_released_sessions d ∧ dk_objects d' = dk_objects d ∧
  dk_header d' = dk_header d ∧ dk_staging d' = dk_staging d ∧ dk_trash d' = dk_trash d ∧
  ∀ sid, dk_references d' !! sid = dk_references d !! sid ∨
         is_Some (dk_released_sessions d !! sid) ∧ dk_references d' !! sid = None.

Lemma only_released_step sid d1 d d' :
  only_released d1 d → is_Some (dk_released_sessions d1 !! sid) → released_from sid d d' →
  only_released d1 d'.
Proof.
  intros (_ & Hrel & Ho & Hh & Hs & Ht & Hr) Hsid (HI & Hr' & Hrel' & Ho' & Hh' & Hs' & Ht').
  split_and!; [done|congruence..|]. intros sid'. rewrite Hr'.
  destruct (decide (sid' = sid)) as [->|Hne]; [right; by rewrite lookup_delete_eq|].
  rewrite lookup_delete_ne by done. apply Hr.
Qed.

Lemma spec_recover_released_session now_ms d1 sid l E :
  is_Some (dk_released_sessions d1 !! sid) →
  spec (λ d, only_released d1 d ∧
      ∀ s, is_Some (dk_released_sessions d1 !! s) → s ∈ sid :: l ∨ dk_references d !! s = None)
    (recover_released_session now_ms sid)
    (λ _ d, only_released d1 d ∧
      ∀ s, is_Some (dk_released_sessions d1 !! s) → s ∈ l ∨ dk_references d !! s = None) I E.
Proof.
  intros Hsid. set (P := λ d, only_released d1 d ∧ _ : Prop).
  assert (∀ d, P d → I d ∧ is_Some (dk_released_sessions d !! sid)) as HP.
  { intros d [(HI & Hrel & _) _]. split; [done|]. by rewrite Hrel. }
  eapply (spec_bind _ _ _ (λ _, P)).
  { apply spec_read; [intros d Hd; by apply HP|]. intros d Hd. destruct (HP d Hd) as [HI [f Hf]].
    destruct (do_released _ _ (safe_ok _ HI) _ _ Hf) as (m & -> & Hv). rewrite Hf. cbn.
    by rewrite Hv. }
  intros marker. apply spec_disk. intros d2 [Ho Hl]. unfold exists_at. case_bool_decide as Hx.
  - eapply spec_bind; [apply (spec_release_references (λ d, d = d2 ∧ P d)); by intros d [-> ?]; auto|].
    intros report. apply spec_ret. intros d (_ & d3 & [-> _] & Hd). split.
    + by eapply only_released_step.
    + intros s Hs. destruct Hd as (_ & -> & _). destruct (decide (s = sid)) as [->|Hne].
      * right. apply lookup_delete_eq.
      * rewrite lookup_delete_ne by done. destruct (Hl s Hs); [left; set_solver|by right].
  - apply eq_None_not_Some in Hx. apply spec_ret. intros d [-> _]. split; [done|].
    intros s Hs. destruct (decide (s = sid)) as [->|Hne]; [by right|].
    destruct (Hl s Hs); [left; set_solver|by right].
Qed.

Lemma spec_recover_released_sessions P now_ms E :
  (∀ d, P d → I d) →
  spec P (recover_released_sessions now_ms)
    (λ _ d', ∃ d, P d ∧ only_released d d' ∧
      ∀ sid, is_Some (dk_released_sessions d' !! sid) → dk_references d' !! sid = None) I E.
Proof.
  intros HP. apply spec_named. intros d1 Hd1.
  set (J := λ (l : list SessionId) d, only_released d1 d ∧
    ∀ s, is_Some (dk_released_sessions d1 !! s) → s ∈ l ∨ dk_references d !! s = None).
  eapply (spec_bind _ _ _ (λ names d, names = session_names (dk_released_sessions d1) ∧ J names d)).
  { apply spec_read; [intros d [-> ?]; auto|]. intros d [-> _].
    case_bool_decide as Ht; cbn.
    - intros Hn. rewrite Hn in Ht. by apply not_elem_of_nil in Ht.
    - split; [done|]. split; [by split_and!; auto|]. intros s Hs. left. by apply session_names_elem. }
  intros names. apply spec_pure. intros ->.
  eapply spec_conseq; [apply (spec_loop J)|done|].
  - intros sid l Hsid%session_names_elem. by apply spec_recover_released_session.
  - intros [] d [Ho Hl]. exists d1. split; [done|]. split; [done|].
    intros sid Hs. destruct Ho as (_ & Hrel & _). rewrite Hrel in Hs.
    destruct (Hl sid Hs) as [H|?]; [by apply not_elem_of_nil in H|done].
Qed.
End Safe.
