(* ===== verification/EvidenceFsOps.v ===== *)
(** * The operations of the evidence-store trait are safe

    [put], [attach], [gc] and [open_store] of [EvidenceFs], with what each
    does to the disk when it returns. *)

From S2P Require Import Prelude Protocol Evidence EvidenceFs EvidenceFsInv EvidenceFsIndex.
From S2P Require Import EvidenceFsSafe.

Local Open Scope N_scope.

Section Ops.
Context (sha256 : list N → list N) (touched : Uuid → Prop) (d0 : Disk).

Abbreviation I := (safe sha256 touched d0).

(** ** Adding a reference *)

Definition reference_to (sid : SessionId) (x : Sha256Digest) (meta : ObjectMetadata) (at_ms : N)
    : ReferenceMarker :=
  mkReferenceMarker STORE_VERSION sid x (om_media_type meta) at_ms.

Definition with_reference (sid : SessionId) (x : Sha256Digest) (meta : ObjectMetadata) (at_ms : N)
    (d : Disk) : Disk :=
  set_references <[sid := <[x := Some (reference_to sid x meta at_ms)]> (markers_of sid d)]> d.

Definition reference_added (sid : SessionId) (x : Sha256Digest) (meta : ObjectMetadata)
    (at_ms : N) (added : bool) (d d' : Disk) : Prop :=
  I d' ∧ dk_released_sessions d !! sid = None ∧
  if added then markers_of sid d !! x = None ∧
    d' = with_reference sid x meta at_ms (set_unreferenced (delete x) d)
  else is_Some (markers_of sid d !! x) ∧ d' = d.

Definition reference_refused (config : FileEvidenceStoreConfig) (sid : SessionId)
    (e : EvidenceError) : Prop :=
  e = SessionClosed sid ∨ e = ReferenceLimit (cf_max_references_per_session config).

Lemma spec_session_directory P sid E :
  (∀ d, P d → I d) →
  ∀ present, (∀ d, P d → present = exists_at (dk_references d) sid) →
  spec P (if present : bool then mret ()
          else check! io "create store directory" (set_references <[sid := ∅]>); sync_directory)
    (λ _ d', I d' ∧ is_Some (dk_references d' !! sid) ∧ ∃ d, P d ∧
      (d' = d ∨ dk_references d !! sid = None ∧ d' = set_references <[sid := ∅]> d)) I E.
Proof.
  intros HP present Hp. set (Q := λ d', I d' ∧ _ : Prop). destruct present.
  - apply spec_ret. intros d Hd. split; [auto|]. split; [|by eauto].
    specialize (Hp d Hd). unfold exists_at in Hp. symmetry in Hp. by apply bool_decide_eq_true in Hp.
  - eapply (spec_bind _ _ _ (λ _, Q)).
    + apply spec_io; [done| |by intros ?]. intros d Hd.
      specialize (Hp d Hd). unfold exists_at in Hp. symmetry in Hp.
      apply bool_decide_eq_false, eq_None_not_Some in Hp.
      split; [by apply safe_create_session_directory; auto|].
      split; [cbn; rewrite lookup_insert_eq; eauto|]. eauto.
    + intros []. apply spec_sync; [by intros d [? _]|done].
Qed.

Lemma with_reference_new_directory sid x meta at_ms d :
  dk_references d !! sid = None →
  with_reference sid x meta at_ms (set_references <[sid := ∅]> d) =
  with_reference sid x meta at_ms d.
Proof.
  intros Hn. unfold with_reference. rewrite markers_of_insert, bool_decide_true by done.
  unfold markers_of. rewrite Hn. unfold set_references. cbn. by rewrite insert_insert_eq.
Qed.

Lemma spec_write_reference P sid x meta at_ms E :
  (∀ d, P d → I d ∧ in_place x meta d ∧ is_Some (dk_references d !! sid) ∧
    markers_of sid d !! x = None) →
  spec P (atomic_write_json (SessionReferences sid) "write session reference"
      (λ disk, exists_at (markers_of sid disk) x)
      (with_reference sid x meta at_ms))
    (λ _ d', I d' ∧ ∃ d, P d ∧ d' = with_reference sid x meta at_ms d) I E.
Proof.
  intros HP. apply spec_atomic_write_json.
  - intros d Hd. by apply HP.
  - intros d Hd. destruct (HP d Hd) as (HI & _ & Hs & _). apply safe_add_temporary; [done|].
    by intros sid' [= <-].
  - intros d Hd Hx. destruct (HP d Hd) as (_ & _ & _ & Hn). unfold exists_at in Hx.
    apply bool_decide_eq_true in Hx. rewrite Hn in Hx. by destruct Hx.
  - intros d Hd _. destruct (HP d Hd) as (HI & (o & Ho & Hm) & _ & Hn).
    assert (I (with_reference sid x meta at_ms d)) by by eapply safe_add_reference.
    eauto.
  - by intros ?.
Qed.

Lemma spec_add_reference P config sid x meta at_ms :
  (∀ d, P d → I d ∧ in_place x meta d) →
  spec P (add_reference config sid x (om_media_type meta) at_ms)
    (λ added d', ∃ d, P d ∧ reference_added sid x meta at_ms added d d') I
    (reference_refused config sid).
Proof.
  intros HP. eapply spec_bind.
  { eapply spec_mono; [apply (spec_session_open sha256 touched d0 P sid)|done|done|done|].
    - intros d Hd. by apply HP.
    - intros e ->. by left. }
  intros []. apply spec_disk. intros d1 [Hd1 Hopen]. destruct (HP d1 Hd1) as [HI Hin].
  destruct (markers_of sid d1 !! x) as [f|] eqn:Hf.
  - destruct (reference_present sha256 d1 (safe_ok _ _ _ _ HI) sid x f Hf)
      as (m & o & meta' & -> & Ho & Hm & _ & _ & Hv).
    destruct Hin as (o' & Ho' & Hm'). simplify_eq.
    eapply (spec_bind _ _ _ (λ a d, a = m ∧ d = d1)).
    { apply spec_read; [by intros d [-> _]|]. by intros d [-> _]. }
    intros a s [-> Hs]. unfold mbind, M_bind, lift. rewrite Hv. cbn. rewrite Hs.
    split; [|done]. exists d1. split; [done|]. unfold reference_added. rewrite Hf. eauto.
  - eapply (spec_bind _ _ _ (λ _ d, d = d1)).
    { apply (spec_conseq (λ d, d = d1) _ _ (λ _ d, d = d1)); [|by intros d [-> _]|done].
      case_match; [|by apply spec_ret]. apply (spec_indexed_session_count sha256 touched d0).
      by intros d ->. }
    intros existing. apply spec_fail_if; [intros d -> _; split; [done|by right]|]. intros _.
    eapply spec_bind; [apply (spec_remove_marker sha256 touched d0 (λ d, d = d1)); by intros d ->|].
    intros []. eapply spec_bind; [apply (spec_session_directory _ sid)|].
    { intros d (d2 & -> & ->). by apply safe_remove_marker. }
    { by intros d (d2 & -> & ->). }
    intros []. eapply spec_bind; [apply (spec_write_reference _ sid x meta at_ms)|].
    { intros d (HId & Hs & d2 & (d3 & -> & ->) & Hd). split_and!; [done| |done|].
      - by destruct Hd as [->|[_ ->]].
      - destruct Hd as [->|[_ ->]]; [done|]. rewrite markers_of_insert.
        by case_bool_decide. }
    intros []. eapply (spec_bind _ _ _ (λ _ d', reference_added sid x meta at_ms true d1 d')).
    { apply spec_modify_index. intros d (HId & d2 & (_ & _ & d3 & (d4 & -> & ->) & Hd) & ->).
      split; [done|]. split; [done|]. split; [done|].
      destruct Hd as [->|[Hn ->]]; [done|]. by apply with_reference_new_directory. }
    intros []. apply spec_ret. eauto.
Qed.
Lemma frames_add_reference config sid x mt at_ms :
  frames dk_objects (add_reference config sid x mt at_ms).
Proof.
  unfold add_reference, ensure_session_open, indexed_session_reference_count,
    remove_unreferenced_marker_if_present, sync_directory.
  repeat first [progress eauto with frames|apply frames_bind|intros ?|case_match].
Qed.

(** ** Storing content *)

(** The bytes of an input: its chunks up to the first empty read *)
Fixpoint input_content (chunks : list (list N)) : list N :=
  match chunks with
  | [] | [] :: _ => []
  | chunk :: chunks => chunk ++ input_content chunks
  end.

Lemma spec_drop_staging P path E :
  (∀ d, P d → I d) → touched path →
  spec P (drop_staging path)
    (λ _ d', I d' ∧ ∃ d f, P d ∧ d' = set_staging (partial_alter f path) d) I E.
Proof.
  intros HP Ht. apply spec_ignore. apply spec_remove_dir_all.
  - intros d names Hd. split; [apply safe_staging; auto|]. by exists d, (fmap (remove_entries names)).
  - intros d Hd. split; [apply safe_staging; auto|]. by exists d, (λ _, None).
  - by intros ?.
Qed.

(** Disks that differ in their staging directories only *)
Definition staging_only (d d' : Disk) : Prop :=
  set_staging (λ _, ∅) d' = set_staging (λ _, ∅) d.

Lemma staging_only_fields d d' :
  staging_only d d' →
  dk_objects d' = dk_objects d ∧ dk_references d' = dk_references d ∧
  dk_unreferenced d' = dk_unreferenced d ∧ dk_trash d' = dk_trash d ∧
  dk_released_sessions d' = dk_released_sessions d.
Proof.
  intros H. repeat split;
    [apply (f_equal dk_objects H)|apply (f_equal dk_references H)|apply (f_equal dk_unreferenced H)|
     apply (f_equal dk_trash H)|apply (f_equal dk_released_sessions H)].
Qed.

Definition staged_at (P : Disk → Prop) (path : Uuid) (dir : ObjectDirectory) (d : Disk) : Prop :=
  I d ∧ dk_staging d !! path = Some dir ∧ ∃ d1, P d1 ∧ staging_only d1 d.

Lemma staged_alter P path f dir d :
  touched path → staged_at P path dir d →
  staged_at P path (f dir) (set_staging (alter f path) d).
Proof.
  intros Ht (HI & Hs & Hd). split; [by apply safe_staging|]. split; [|done].
  cbn. by rewrite lookup_alter_eq, Hs.
Qed.

Lemma spec_stage_content P config path chunks size hashed :
  touched path → len hashed = size →
  spec (staged_at P path (mkObjectDirectory None (Some hashed)))
    (stage_content config path chunks size hashed)
    (λ p d, p.2 = hashed ++ input_content chunks ∧ p.1 = len p.2 ∧
      staged_at P path (mkObjectDirectory None (Some p.2)) d) I
    (λ e, ∃ actual maximum, e = TooLarge actual maximum).
Proof.
  intros Ht. revert size hashed. induction chunks as [|chunk chunks IH]; intros size hashed Hsize;
    cbn [stage_content input_content].
  { eapply spec_bind; [apply (spec_io _ _ _ (λ _, staged_at P path (mkObjectDirectory None (Some hashed))));
      [by intros d [? _]|done|by intros ?]|].
    intros []. apply spec_ret. intros d Hd. by rewrite app_nil_r. }
  eapply spec_bind; [apply (spec_io _ _ _ (λ _, staged_at P path (mkObjectDirectory None (Some hashed))));
    [by intros d [? _]|done|by intros ?]|].
  intros []. destruct chunk as [|b chunk].
  { apply spec_ret. intros d Hd. by rewrite app_nil_r. }
  set (c := b :: chunk).
  eapply (spec_bind _ _ _ (λ size' d, size' = size + len c ∧
    staged_at P path (mkObjectDirectory None (Some hashed)) d)).
  { apply spec_lift. intros d Hd. destruct (u64_checked_add size (len c)) eqn:Ha; cbn.
    - by apply u64_checked_add_some in Ha as [-> _].
    - split; [apply Hd|eauto]. }
  intros size'. apply spec_pure. intros ->.
  apply spec_fail_if; [intros d [? _] _; eauto|]. intros _.
  eapply (spec_bind _ _ _ (λ _, staged_at P path (mkObjectDirectory None (Some (hashed ++ c))))).
  { apply spec_io; [by intros d [? _]| |by intros ?]. intros d Hd.
    by apply (staged_alter P path (λ dir, mkObjectDirectory (od_meta dir)
      (Some (default [] (od_data dir) ++ c)))) in Hd. }
  intros []. eapply spec_conseq; [apply IH|done|].
  - rewrite len_app. lia.
  - intros p d. by rewrite <-app_assoc.
Qed.

Definition stage_refused (sid : SessionId) (e : EvidenceError) : Prop :=
  e = SessionClosed sid ∨ e = EmptyContent ∨ (∃ a m, e = TooLarge a m) ∨
  (∃ a b, e = DeclaredSizeMismatch a b) ∨ (∃ a b, e = DigestMismatch a b).

(** What [put] has staged *)
Definition staged_ok (path : Uuid) (request : PutEvidence) (created_at_ms : N)
    (content : list N) (staged : StagedPut) : Prop :=
  sp_path staged = path ∧ sp_session_id staged = put_session_id request ∧
  digest_from_hash (sha256 content) = Ok (sp_digest staged) ∧ content ≠ [] ∧
  sp_metadata staged = mkObjectMetadata STORE_VERSION HASH_ALGORITHM (sp_digest staged)
    (put_media_type request) (len content) created_at_ms.

Definition staged_dir (content : list N) (staged : StagedPut) : ObjectDirectory :=
  mkObjectDirectory (Some (Some (sp_metadata staged))) (Some content).

Lemma staged_intact path request created_at_ms content staged :
  validate_media_type (put_media_type request) = Ok () →
  staged_ok path request created_at_ms content staged →
  intact sha256 (sp_digest staged) (staged_dir content staged).
Proof.
  intros Hm (_ & _ & Hd & Hne & Hmeta). exists (sp_metadata staged), content.
  split; [done|]. rewrite Hmeta. split_and!; [|done|done].
  unfold validate_object_metadata, evidence_metadata_new. cbn.
  rewrite !String.eqb_refl. cbn.
  destruct (N.eqb_spec (len content) 0) as [H|H]; cbn.
  - by destruct content.
  - by rewrite Hm.
Qed.
Lemma spec_put_stage P config path created_at_ms request input :
  (∀ l, ∃ x, digest_from_hash (sha256 l) = Ok x) →
  (∀ d, P d → I d ∧ dk_staging d !! path = None) → touched path →
  spec P (put_stage sha256 config path created_at_ms request input)
    (λ staged d', staged_ok path request created_at_ms (input_content input) staged ∧
      staged_at P path (staged_dir (input_content input) staged) d') I
    (stage_refused (put_session_id request)).
Proof.
  intros Hsha HP Ht. set (content := input_content input).
  eapply spec_bind.
  { eapply spec_mono; [apply (spec_session_open sha256 touched d0 P)|done|done|done|].
    - intros d Hd. by apply HP.
    - intros e ->. by left. }
  intros []. apply spec_fail_if; [intros d [Hd _] _; split; [by apply HP|]; right; right; left; eauto|].
  intros _. apply spec_disk. intros d1 [Hd1 _]. destruct (HP _ Hd1) as [HI Hn].
  apply spec_fail_if; [intros d _ Hb; exfalso; unfold exists_at in Hb; by rewrite Hn in Hb|].
  intros _. assert (∀ f, I (set_staging (partial_alter f path) d1)) as HI' by by intros; apply safe_staging.
  eapply (spec_bind _ _ _ (λ _ d, I d ∧ ∃ d1, P d1 ∧ staging_only d1 d)).
  { apply spec_io; [by intros d [-> _]| |by intros ?]. intros d [-> _]. split; [apply HI'|by exists d1]. }
  intros []. eapply (spec_on_error _ _ _ _ _ I _ (λ _, True)).
  2:{ eapply spec_conseq; [by apply (spec_drop_staging I)|done|by intros [] d [? _]]. }
  eapply (spec_bind _ _ _ (λ _, staged_at P path (mkObjectDirectory None (Some [])))).
  { apply spec_io; [by intros d [? _]| |by intros ?]. intros d [HId Hd].
    split; [by apply safe_staging|]. split; [cbn; by rewrite lookup_insert_eq|done]. }
  intros []. eapply spec_bind.
  { eapply spec_mono; [by apply spec_stage_content|done|done|done|].
    intros e He. right. right. by left. }
  intros [size hashed]. cbn [fst snd app]. fold content. apply spec_pure. intros ->.
  apply spec_pure. intros ->. set (Pd := staged_at P path (mkObjectDirectory None (Some content))).
  assert (∀ d, Pd d → I d) as HPd by by intros d [? _].
  apply spec_fail_if; [intros d Hd _; split; [auto|right; by left]|]. intros Hne%N.eqb_neq.
  apply spec_fail_if; [intros d Hd _; split; [auto|right; right; right; left; eauto]|]. intros _.
  eapply (spec_bind _ _ _ (λ _, Pd)); [by apply spec_io; [..|intros ?]|]. intros [].
  destruct (Hsha content) as [x Hx].
  eapply (spec_bind _ _ _ (λ y d, y = x ∧ Pd d)); [apply spec_lift; by rewrite Hx|].
  intros y. apply spec_pure. intros ->.
  apply spec_fail_if; [intros d Hd _; split; [auto|right; right; right; right; eauto]|]. intros _.
  set (meta := mkObjectMetadata _ _ _ _ _ _). set (staged := mkStagedPut path _ x meta).
  eapply (spec_bind _ _ _ (λ _, staged_at P path (staged_dir content staged))).
  { apply spec_io; [done| |by intros ?]. intros d Hd.
    by apply (staged_alter P path (λ dir, mkObjectDirectory (Some (Some meta)) (od_data dir))) in Hd. }
  intros []. eapply (spec_bind _ _ _ (λ _, staged_at P path (staged_dir content staged))).
  { apply spec_sync; [by intros d [? _]|done]. }
  intros []. apply spec_ret. intros d Hd. split; [|done]. unfold staged_ok. split_and!; try done.
  intros Hc. apply Hne. by rewrite Hc.
Qed.
(** What [publish_object] did, from [d] to [d'] *)
Record published (staged : StagedPut) (content : list N) (meta : ObjectMetadata)
    (deduplicated : bool) (d d' : Disk) : Prop := {
  pb_safe : I d';
  pb_in_place : in_place (sp_digest staged) meta d';
  pb_media_type : om_media_type meta = om_media_type (sp_metadata staged);
  pb_byte_length : om_byte_length meta = om_byte_length (sp_metadata staged);
  pb_references : dk_references d' = dk_references d;
  pb_released : dk_released_sessions d' = dk_released_sessions d;
  pb_fresh : deduplicated = false → meta = sp_metadata staged ∧
    dk_objects d' !! sp_digest staged = Some (staged_dir content staged);
  pb_exact : dk_trash d !! sp_digest staged = None →
    d' = if deduplicated then d
         else set_staging (delete (sp_path staged))
           (set_objects <[sp_digest staged := staged_dir content staged]> d);
  pb_dedup : dk_trash d !! sp_digest staged = None →
    deduplicated = bool_decide (is_Some (dk_objects d !! sp_digest staged));
}.

(** [settled] stands for an empty trash. *)
Definition publish_refused (settled : Prop) (x : Sha256Digest) (e : EvidenceError) : Prop :=
  (∃ a b, e = MediaTypeConflict x a b) ∨
  e = CorruptMetadata x "deduplicated object size differs" ∨ ¬ settled.

Lemma spec_publish_object P staged content settled :
  touched (sp_path staged) →
  intact sha256 (sp_digest staged) (staged_dir content staged) →
  (∀ d, P d → I d ∧ dk_staging d !! sp_path staged = Some (staged_dir content staged)) →
  (∀ d, P d → settled → dk_trash d !! sp_digest staged = None) →
  spec P (publish_object sha256 staged)
    (λ p d', ∃ d, P d ∧ published staged content p.1 p.2 d d') I
    (publish_refused settled (sp_digest staged)).
Proof.
  intros Ht Hint HP HG. unfold publish_object. cbv zeta. set (x := sp_digest staged) in *.
  assert (∀ d, P d → I d) as HPI by (intros d Hd; by apply HP).
  eapply spec_bind; [by apply (spec_indexed_count sha256 touched d0 P)|]. intros count.
  eapply spec_bind; [apply (spec_recover_entry sha256 touched d0 P x); [done|]|].
  { intros d o e Hd _ Ho _. right. right. intros Hs. specialize (HG d Hd Hs). congruence. }
  intros []. eapply spec_bind.
  { apply (spec_io _ _ _ (λ _ d', I d' ∧ ∃ d, P d ∧ trash_cleared (0 <? count) x d d'));
      [by intros d [? _]|done|by intros ?]. }
  intros []. apply spec_disk. intros d1 (HI1 & d & Hd & Htc). pose proof Htc as [Htr Hso Hob _ Hun _].
  destruct Hso as (Hr & Hst & Hrel & _). destruct (HP d Hd) as [_ Hstaged]. rewrite <-Hst in Hstaged.
  destruct (dk_objects d1 !! x) as [o|] eqn:Hx.
  - eapply (spec_bind _ _ _ (λ p d', in_place x p.1 d1 ∧ d' = d1)).
    { apply spec_read; [by intros d' [-> _]|]. intros d' [-> _].
      destruct (object_present sha256 d1 (safe_ok _ _ _ _ HI1) x o Hx) as (meta & data & -> & _ & ->).
      split; [by eexists|done]. }
    intros [existing data]. apply spec_pure. intros Hin.
    apply spec_fail_if; [intros d' -> _; split; [done|left; eauto]|]. intros Hmt%negb_false_iff%String.eqb_eq.
    apply spec_fail_if; [intros d' -> _; split; [done|by right; left]|]. intros Hl%negb_false_iff%N.eqb_eq.
    apply spec_ret. intros d' ->. exists d. split; [done|]. split; try done.
    intros Hn. rewrite bool_decide_true; [done|]. rewrite <-(Hun Hn). by exists o.
  - rewrite Hstaged. eapply (spec_bind _ _ _ (λ dir d', dir = staged_dir content staged ∧ d' = d1)).
    { apply spec_lift. by intros d' [-> _]. }
    intros dir. apply spec_pure. intros ->.
    set (d2 := set_staging (delete (sp_path staged))
      (set_objects <[x := staged_dir content staged]> d1)).
    assert (I d2) as HI2.
    { apply safe_publish; [done..| |done]. by rewrite Htr, lookup_delete_eq. }
    eapply (spec_bind _ _ _ (λ _ d', d' = d2)).
    { by apply spec_io; [intros d' ->|intros d' ->|intros ?]. }
    intros []. apply spec_ret. intros d' ->. exists d. split; [done|]. split; try done.
    + exists (staged_dir content staged). split; [cbn; apply lookup_insert_eq|done].
    + intros _. split; [done|]. cbn. apply lookup_insert_eq.
    + intros Hn. unfold d2. by rewrite (Hun Hn).
    + intros Hn. rewrite bool_decide_false; [done|]. rewrite <-(Hun Hn).
      apply eq_None_not_Some in Hx. done.
Qed.
Lemma in_place_media_type x meta d :
  disk_ok sha256 d → in_place x meta d → validate_media_type (om_media_type meta) = Ok ().
Proof.
  intros Hok (o & Ho & Hm). destruct (do_objects _ _ Hok _ _ Ho) as (meta' & data & -> & Hv & _).
  cbn in Hm. simplify_eq. unfold validate_object_metadata, evidence_metadata_new in Hv. inv_result.
  by match goal with H : validate_media_type _ = Ok ?u |- _ => destruct u end.
Qed.

Lemma spec_mark_unowned P x meta at_ms E :
  (∀ d, P d → I d ∧ in_place x meta d) →
  spec P (mark_unreferenced_if_unowned x (om_byte_length meta) at_ms) (λ _, I) I E.
Proof.
  intros HP. eapply spec_bind; [apply (spec_indexed_count sha256 touched d0 P); by apply HP|].
  intros count. case_match; [apply spec_ret; by apply HP|].
  eapply spec_bind; [by apply (spec_ensure_marker sha256 touched d0 P)|].
  intros created. apply spec_ret. intros d (d1 & Hd1 & Hd). destruct (HP d1 Hd1) as [HI (o & Ho & Hm)].
  destruct created, Hd as [_ ->]; [by eapply safe_add_marker|done].
Qed.

(** Adding the reference of a [put], which marks the object as an orphan when
    it fails *)
Lemma spec_put_reference P config sid x meta at_ms at_ms' :
  (∀ d, P d → I d ∧ in_place x meta d) →
  spec P (on_error (mark_unreferenced_if_unowned x (om_byte_length meta) at_ms')
      (add_reference config sid x (om_media_type meta) at_ms))
    (λ added d', ∃ d, P d ∧ reference_added sid x meta at_ms added d d') I
    (reference_refused config sid).
Proof.
  intros HP. apply spec_named. intros d1 Hd1. destruct (HP d1 Hd1) as [HI Hin].
  eapply (spec_on_error _ _ _ _ _ (λ d, I d ∧ dk_objects d = dk_objects d1) _ (λ _, True)).
  - eapply spec_conseq; [apply (spec_frame dk_objects); [|apply frames_add_reference]|..].
    + by apply (spec_add_reference P).
    + intros d [-> Hd]. done.
    + by intros added d [? _].
  - apply spec_mark_unowned. intros d [HId Ho]. split; [done|].
    destruct Hin as (o & Hx & Hm). exists o. by rewrite Ho.
Qed.

Definition stored_as (x : Sha256Digest) (meta : ObjectMetadata) (deduplicated : bool)
    (stored : StoredEvidence) : Prop :=
  ∃ count, stored = mkStoredEvidence (mkEvidenceMetadata x (om_media_type meta)
    (om_byte_length meta) (om_created_at_ms meta) count) deduplicated.

Lemma spec_put_publish P config staged content settled :
  touched (sp_path staged) →
  intact sha256 (sp_digest staged) (staged_dir content staged) →
  (∀ d, P d → I d ∧ dk_staging d !! sp_path staged = Some (staged_dir content staged)) →
  (∀ d, P d → settled → dk_trash d !! sp_digest staged = None) →
  spec P (put_publish sha256 config staged)
    (λ stored d', ∃ d d1 d2 meta deduplicated added, P d ∧
      published staged content meta deduplicated d d1 ∧ staging_only d1 d2 ∧
      reference_added (sp_session_id staged) (sp_digest staged) meta
        (om_created_at_ms (sp_metadata staged)) added d2 d' ∧
      stored_as (sp_digest staged) meta deduplicated stored) I
    (λ e, publish_refused settled (sp_digest staged) e ∨
          reference_refused config (sp_session_id staged) e).
Proof.
  intros Ht Hint HP HG. unfold put_publish. cbv zeta.
  eapply spec_bind.
  { eapply (spec_on_error _ _ _ _ _ I _ (λ _, True)).
    - eapply spec_mono; [by apply (spec_publish_object P staged content settled)|done..|].
      intros e He. by left.
    - eapply spec_conseq; [by apply (spec_drop_staging I)|done|by intros [] d [? _]]. }
  intros [meta deduplicated]. cbn [fst snd]. apply spec_named. intros d1 (d & Hd & Hpub).
  apply (spec_conseq (λ d', d' = d1) _ _ (λ stored d', ∃ d2 added, staging_only d1 d2 ∧
      reference_added (sp_session_id staged) (sp_digest staged) meta
        (om_created_at_ms (sp_metadata staged)) added d2 d' ∧
      stored_as (sp_digest staged) meta deduplicated stored));
    [|by intros d' [-> _]|by intros stored d' (d2 & added & ? & ? & ?); naive_solver].
  eapply (spec_bind _ _ _ (λ _ d2, I d2 ∧ staging_only d1 d2)).
  { destruct deduplicated.
    - eapply spec_conseq; [apply (spec_drop_staging (λ d', d' = d1)); [|done]|done|].
      + intros d' ->. apply Hpub.
      + by intros [] d' (? & d2 & f & -> & ->).
    - eapply (spec_bind _ _ _ (λ _ d', d' = d1)); [apply spec_sync; [|done]|].
      + intros d' ->. apply Hpub.
      + intros []. apply spec_sync; intros d' ->; [|split; [|done]]; apply Hpub. }
  intros []. set (P2 := λ d2, I d2 ∧ staging_only d1 d2).
  assert (∀ d2, P2 d2 → I d2 ∧ in_place (sp_digest staged) meta d2) as HP2.
  { intros d2 [HI2 Hs]. split; [done|]. unfold in_place.
    rewrite (proj1 (staging_only_fields _ _ Hs)). apply Hpub. }
  eapply (spec_bind _ _ _ (λ _, P2)).
  { eapply (spec_on_error _ _ _ _ _ P2 _ (λ _, True)).
    - apply (spec_indexed_count_same sha256 touched d0 P2). by apply HP2.
    - by apply spec_mark_unowned. }
  intros before. eapply spec_bind.
  { eapply spec_mono; [by apply (spec_put_reference P2)|done..|]. intros e He. by right. }
  intros added. eapply (spec_bind _ _ _ (λ m d', m = mkEvidenceMetadata (sp_digest staged)
    (om_media_type meta) (om_byte_length meta) (om_created_at_ms meta)
    (u64_saturating_add before (if added : bool then 1 else 0)) ∧
    ∃ d2, P2 d2 ∧ reference_added (sp_session_id staged) (sp_digest staged) meta
      (om_created_at_ms (sp_metadata staged)) added d2 d')).
  { apply spec_lift. intros d' (d2 & Hd2 & Hadd). destruct (HP2 d2 Hd2) as [HI2 Hin2].
    unfold evidence_metadata_new. rewrite (in_place_media_type (sp_digest staged) _ d2); [|by eapply safe_ok|done].
    cbn. eauto. }
  intros m. apply spec_pure. intros ->. apply spec_ret. intros d' (d2 & [_ Hs] & Hadd).
  exists d2, added. split_and!; [done..|]. by eexists.
Qed.
End Ops.
