(* ===== verification/EvidenceFsGc.v ===== *)
(** * Garbage collection in the filesystem evidence store

    [gc] against the selection it makes. *)

From S2P Require Import Prelude Protocol Evidence EvidenceFs EvidenceFsInv EvidenceFsIndex.
From S2P Require Import EvidenceFsSafe EvidenceFsOps.

Local Open Scope N_scope.

(** ** What a collection selects *)

Definition over (limit : option N) (exceeds : N → bool) : bool :=
  match limit with Some maximum => exceeds maximum | None => false end.

(** The candidates among markers in the order of their digests, given the
    number and size of those selected before *)
Fixpoint gc_select (policy : GcPolicy) (markers : list (Sha256Digest * UnreferencedMarker))
    (assets size : N) : list (Sha256Digest * N) :=
  match markers with
  | [] => []
  | (x, marker) :: markers =>
      if gp_unreferenced_before_ms policy <? um_released_at_ms marker
      then gc_select policy markers assets size
      else if over (gp_max_assets policy) (λ maximum, maximum <=? assets) then []
      else if over (gp_max_bytes policy)
        (λ maximum, maximum <? u64_saturating_add size (um_byte_length marker))
      then gc_select policy markers assets size
      else (x, um_byte_length marker) ::
        gc_select policy markers (u64_saturating_add assets 1)
          (u64_saturating_add size (um_byte_length marker))
  end.

Definition gc_count (dry_run : bool) (report : GcReport) (candidate : Sha256Digest * N) : GcReport :=
  mkGcReport (gr_examined_assets report)
    (u64_saturating_add (gr_candidate_assets report) 1)
    (u64_saturating_add (gr_candidate_bytes report) candidate.2)
    (if dry_run then gr_deleted_assets report else u64_saturating_add (gr_deleted_assets report) 1)
    (if dry_run then gr_deleted_bytes report
     else u64_saturating_add (gr_deleted_bytes report) candidate.2)
    (gr_dry_run report).

(** ** Properties of the selection *)

Definition eligible (policy : GcPolicy) (marker : UnreferencedMarker) : Prop :=
  um_released_at_ms marker <= gp_unreferenced_before_ms policy.

Definition add_sizes (selected : list (Sha256Digest * N)) (size : N) : N :=
  foldl u64_saturating_add size selected.*2.

Lemma add_sizes_le selected size : size <= U64_MAX → size <= add_sizes selected size <= U64_MAX.
Proof.
  revert size. induction selected as [|[x n] l IH]; intros size Hs; cbn; [lia|].
  specialize (IH (u64_saturating_add size n)). unfold add_sizes, u64_saturating_add in *. cbn in *. lia.
Qed.

Lemma gc_select_sound policy markers assets size x n :
  (x, n) ∈ gc_select policy markers assets size →
  ∃ marker, (x, marker) ∈ markers ∧ eligible policy marker ∧ n = um_byte_length marker.
Proof.
  revert assets size. induction markers as [|[y m] l IH]; intros assets size; cbn [gc_select];
    [by intros ?%not_elem_of_nil|].
  destruct (N.ltb_spec (gp_unreferenced_before_ms policy) (um_released_at_ms m)) as [Ho|He].
  { intros (m' & ? & ?)%IH. exists m'. set_solver. }
  destruct (over (gp_max_assets policy) _); [by intros ?%not_elem_of_nil|].
  destruct (over (gp_max_bytes policy) _); [intros (m' & ? & ?)%IH; exists m'; set_solver|].
  intros [[= -> ->]|(m' & ? & ?)%IH]%elem_of_cons; [|exists m'; set_solver].
  exists m. set_solver.
Qed.

Definition add_count (selected : list (Sha256Digest * N)) (assets : N) : N :=
  foldl (λ assets _, u64_saturating_add assets 1) assets selected.

Lemma add_count_le selected assets : assets <= U64_MAX → assets <= add_count selected assets.
Proof.
  revert assets. induction selected as [|y l IH]; intros assets Ha; cbn; [lia|].
  specialize (IH (u64_saturating_add assets 1)). unfold add_count, u64_saturating_add in *. cbn in *. lia.
Qed.

(** The selection stays within the limits. *)
Lemma gc_select_limits policy markers assets size :
  let selected := gc_select policy markers assets size in
  (∀ maximum, gp_max_assets policy = Some maximum → assets <= maximum →
    add_count selected assets <= maximum) ∧
  (∀ maximum, gp_max_bytes policy = Some maximum → size <= maximum →
    add_sizes selected size <= maximum).
Proof.
  cbv zeta. revert assets size. induction markers as [|[y m] l IH]; intros assets size; cbn [gc_select];
    [done|].
  destruct (gp_unreferenced_before_ms policy <? um_released_at_ms m); [apply IH|].
  destruct (over (gp_max_assets policy) _) eqn:Ha; [done|].
  destruct (over (gp_max_bytes policy) _) eqn:Hb; [apply IH|].
  destruct (IH (u64_saturating_add assets 1) (u64_saturating_add size (um_byte_length m))) as [IHa IHb].
  split; intros maximum Hm Hle.
  - rewrite Hm in Ha. cbn in Ha. apply IHa; [done|]. unfold u64_saturating_add. lia.
  - rewrite Hm in Hb. cbn in Hb. apply IHb; [done|]. lia.
Qed.

(** An eligible object is left over only when a limit is reached. *)
Lemma gc_select_maximal policy markers assets size x marker :
  assets <= U64_MAX → size <= U64_MAX →
  (x, marker) ∈ markers → eligible policy marker →
  let selected := gc_select policy markers assets size in
  x ∈ selected.*1 ∨
  (∃ maximum, gp_max_assets policy = Some maximum ∧ maximum <= add_count selected assets) ∨
  (∃ maximum, gp_max_bytes policy = Some maximum ∧
    maximum < u64_saturating_add (add_sizes selected size) (um_byte_length marker)).
Proof.
  cbv zeta. revert assets size. induction markers as [|[y m] l IH]; intros assets size Ha Hs Hin He;
    [by apply not_elem_of_nil in Hin|]. cbn [gc_select]. unfold eligible in He.
  destruct (N.ltb_spec (gp_unreferenced_before_ms policy) (um_released_at_ms m)) as [Hl|Hl].
  { apply IH; [done..| |done]. apply elem_of_cons in Hin as [[= <- <-]|?]; [lia|done]. }
  destruct (over (gp_max_assets policy) _) eqn:Hma.
  { right. left. unfold over in Hma. destruct (gp_max_assets policy) as [ma|]; [|done].
    exists ma. split; [done|]. cbn. lia. }
  destruct (over (gp_max_bytes policy) _) eqn:Hmb.
  - apply elem_of_cons in Hin as [[= <- <-]|?]; [|by apply IH]. right. right.
    unfold over in Hmb. destruct (gp_max_bytes policy) as [mb|]; [|done]. exists mb. split; [done|].
    pose proof (add_sizes_le (gc_select policy l assets size) size Hs).
    unfold u64_saturating_add in *. lia.
  - apply elem_of_cons in Hin as [[= <- <-]|?]; [left; cbn; set_solver|].
    destruct (IH (u64_saturating_add assets 1) (u64_saturating_add size (um_byte_length m)))
      as [?|[?|?]]; [unfold u64_saturating_add; lia..|done|done| | |]; [left; cbn; set_solver|by right; left|by right; right].
Qed.

(** What the report says of a selection *)
Lemma gc_count_report dry_run report selected :
  let r := foldl (gc_count dry_run) report selected in
  gr_candidate_assets r = add_count selected (gr_candidate_assets report) ∧
  gr_candidate_bytes r = add_sizes selected (gr_candidate_bytes report) ∧
  gr_examined_assets r = gr_examined_assets report ∧ gr_dry_run r = gr_dry_run report ∧
  gr_deleted_assets r = (if dry_run then gr_deleted_assets report
                         else add_count selected (gr_deleted_assets report)) ∧
  gr_deleted_bytes r = (if dry_run then gr_deleted_bytes report
                        else add_sizes selected (gr_deleted_bytes report)).
Proof.
  cbv zeta. revert report. induction selected as [|[x n] l IH]; intros report; cbn [foldl].
  { by destruct dry_run. }
  destruct (IH (gc_count dry_run report (x, n))) as (-> & -> & -> & -> & -> & ->).
  by destruct dry_run.
Qed.

(** Objects and markers without those of some digests *)
Definition forget (l : list Sha256Digest) (d : Disk) : Disk :=
  foldl (λ d x, set_unreferenced (delete x) (set_objects (delete x) d)) d l.

Lemma forget_cons x l d :
  forget (x :: l) d = forget l (set_unreferenced (delete x) (set_objects (delete x) d)).
Proof. done. Qed.

Lemma forget_snoc l x d :
  forget (l ++ [x]) d = set_unreferenced (delete x) (set_objects (delete x) (forget l d)).
Proof. unfold forget. by rewrite foldl_app. Qed.

Lemma forget_objects l d x :
  dk_objects (forget l d) !! x = if bool_decide (x ∈ l) then None else dk_objects d !! x.
Proof.
  revert d. induction l as [|y l IH]; intros d; [done|]. rewrite forget_cons, IH. cbn.
  destruct (decide (x = y)) as [->|Hne].
  - rewrite lookup_delete_eq, (bool_decide_true (_ ∈ y :: l)) by set_solver. by case_bool_decide.
  - rewrite lookup_delete_ne by done. do 2 case_bool_decide; try done; set_solver.
Qed.

Lemma forget_unreferenced l d x :
  dk_unreferenced (forget l d) !! x = if bool_decide (x ∈ l) then None else dk_unreferenced d !! x.
Proof.
  revert d. induction l as [|y l IH]; intros d; [done|]. rewrite forget_cons, IH. cbn.
  destruct (decide (x = y)) as [->|Hne].
  - rewrite lookup_delete_eq, (bool_decide_true (_ ∈ y :: l)) by set_solver. by case_bool_decide.
  - rewrite lookup_delete_ne by done. do 2 case_bool_decide; try done; set_solver.
Qed.

Lemma forget_frame l d :
  dk_references (forget l d) = dk_references d ∧ dk_trash (forget l d) = dk_trash d ∧
  dk_released_sessions (forget l d) = dk_released_sessions d ∧
  dk_staging (forget l d) = dk_staging d ∧ dk_temporaries (forget l d) = dk_temporaries d.
Proof. revert d. induction l as [|y l IH]; intros d; [done|]. rewrite forget_cons. exact (IH _). Qed.

(** The markers of a disk, in the order of their digests *)
Definition gc_listing (d : Disk) : list (Sha256Digest * UnreferencedMarker) :=
  omap (λ x, marker ← mjoin (dk_unreferenced d !! x); Some (x, marker))
    (btree_keys (dk_unreferenced d)).

Definition gc_selected (policy : GcPolicy) (d : Disk) : list (Sha256Digest * N) :=
  gc_select policy (gc_listing d) 0 0.

Lemma gc_listing_elem d x marker :
  (x, marker) ∈ gc_listing d ↔ dk_unreferenced d !! x = Some (Some marker).
Proof.
  unfold gc_listing. rewrite list_elem_of_omap. split.
  - intros (y & _ & Hy). apply bind_Some in Hy as (m & Hm & [= -> ->]).
    by destruct (dk_unreferenced d !! x) as [[]|]; simplify_eq/=.
  - intros Hx. exists x. split; [by apply btree_keys_elem; eauto|]. by rewrite Hx.
Qed.

Lemma gc_listing_fst d :
  (∀ x, is_Some (dk_unreferenced d !! x) → ∃ marker, dk_unreferenced d !! x = Some (Some marker)) →
  (gc_listing d).*1 = btree_keys (dk_unreferenced d).
Proof.
  intros Hd. unfold gc_listing.
  assert (∀ x, x ∈ btree_keys (dk_unreferenced d) →
    ∃ marker, dk_unreferenced d !! x = Some (Some marker)) as Hall.
  { intros x Hx%btree_keys_elem. auto. }
  induction (btree_keys (dk_unreferenced d)) as [|x l IH]; [done|]. cbn.
  destruct (Hall x) as [m Hm]; [set_solver|]. rewrite Hm. cbn. f_equal. apply IH. set_solver.
Qed.

Section Gc.
Context (sha256 : list N → list N) (touched : Uuid → Prop) (d0 : Disk).

Abbreviation I := (safe sha256 touched d0).

Lemma spec_gc_delete d x o E :
  dk_objects d !! x = Some o → dk_trash d !! x = None → ¬ referenced d x →
  spec (λ d', d' = d ∧ I d') (gc_delete x)
    (λ _ d', I d' ∧ d' = set_unreferenced (delete x) (set_objects (delete x) d)) I E.
Proof.
  intros Ho Ht Hr. apply spec_disk. intros d1 [-> HI]. rewrite Ho.
  destruct (do_objects _ _ (safe_ok _ _ _ _ HI) _ _ Ho) as (meta & data & -> & _).
  set (dir := mkObjectDirectory _ _) in *.
  eapply (spec_bind _ _ _ (λ dir' d', dir' = dir ∧ d' = d)); [apply spec_lift; by intros d' [-> _]|].
  intros dir'. apply spec_pure. intros ->.
  eapply (spec_bind _ _ _ (λ _ d', d' = d)); [by apply spec_lift|]. intros _.
  apply spec_fail_if; [intros d' _ Hb; exfalso; unfold exists_at in Hb; by rewrite Ht in Hb|].
  intros _. set (d2 := set_trash <[x := dir]> (set_objects (delete x) d)).
  assert (I d2) as HI2.
  { apply safe_to_trash; [done..|]. intros sid. apply eq_None_not_Some. intros Hs. apply Hr. by exists sid. }
  assert (∀ d', d' = d2 → I d') as HI2' by by intros d' ->.
  eapply (spec_bind _ _ _ (λ _ d', d' = d2)); [apply spec_io; [by intros d' ->|by intros d' ->|by intros ?]|].
  intros []. eapply (spec_bind _ _ _ (λ _ d', d' = d2)); [by apply spec_sync|].
  intros []. eapply (spec_bind _ _ _ (λ _ d', d' = d2)); [by apply spec_sync|].
  intros []. set (d3 := set_unreferenced (delete x) d2).
  assert (I d3) as HI3 by by apply safe_remove_marker.
  assert (∀ d', d' = d3 → I d') as HI3' by by intros d' ->.
  eapply (spec_bind _ _ _ (λ _ d', d' = d3)); [apply spec_io; [done|by intros d' ->|by intros ?]|].
  intros []. eapply (spec_bind _ _ _ (λ _ d', d' = d3)); [by apply spec_sync|].
  intros []. eapply spec_bind.
  { apply (spec_remove_trash sha256 touched d0 (λ d', d' = d3)). intros d' ->. split; [done|].
    cbn. by rewrite lookup_delete_eq. }
  intros []. apply spec_sync; [by intros d' [? _]|]. intros d' (HId & d4 & -> & ->). split; [done|].
  unfold d3, d2, set_trash, set_unreferenced, set_objects. cbn. f_equal.
  by apply delete_insert_id.
Qed.

Lemma spec_gc_loop policy d1 l dl report E :
  (∀ x marker, (x, marker) ∈ l → (x ∉ dl) ∧ dk_unreferenced d1 !! x = Some (Some marker) ∧
    is_Some (dk_objects d1 !! x) ∧ ¬ referenced d1 x) →
  NoDup l.*1 → dk_trash d1 = ∅ →
  let selected := gc_select policy l (gr_candidate_assets report) (gr_candidate_bytes report) in
  spec (λ d, d = forget dl d1 ∧ I d) (gc_loop sha256 policy l report)
    (λ r d', r = foldl (gc_count (gp_dry_run policy)) report selected ∧ I d' ∧
      d' = forget (dl ++ if gp_dry_run policy then [] else selected.*1) d1) I E.
Proof.
  intros Hl Hnd Ht. cbv zeta. revert dl report Hl.
  induction l as [|[x marker] l IH]; intros dl report Hl; cbn [gc_loop gc_select].
  { apply spec_ret. intros d [-> ?]. by destruct (gp_dry_run policy); rewrite app_nil_r. }
  cbn in Hnd. apply NoDup_cons in Hnd as [Hxl Hnd]. specialize (IH Hnd).
  assert (∀ y m, (y, m) ∈ l → (y ∉ dl) ∧ dk_unreferenced d1 !! y = Some (Some m) ∧
    is_Some (dk_objects d1 !! y) ∧ ¬ referenced d1 y) as Hl' by set_solver.
  destruct (gp_unreferenced_before_ms policy <? um_released_at_ms marker); [by apply IH|].
  destruct (Hl x marker) as (Hxdl & Hux & Hox & Hrx); [set_solver|].
  apply spec_named. intros d [-> HI]. destruct Hox as [o Ho].
  assert (dk_objects (forget dl d1) !! x = Some o) as Ho'.
  { rewrite forget_objects. by rewrite bool_decide_false. }
  destruct (object_present sha256 _ (safe_ok _ _ _ _ HI) x o Ho') as (meta & data & -> & _ & Hver).
  assert (um_byte_length marker = om_byte_length meta) as Hlen.
  { destruct (marker_length sha256 _ x meta (Some marker) (safe_ok _ _ _ _ HI)) as (? & [= <-] & _ & ?);
      [by eexists|rewrite forget_unreferenced; by rewrite bool_decide_false|done]. }
  apply (spec_pre (λ d, d = forget dl d1 ∧ I d)); [|by intros d' [-> ?]].
  eapply (spec_bind _ _ _ (λ p d, p = (meta, data) ∧ d = forget dl d1 ∧ I d)).
  { apply spec_read; [by intros d [_ ?]|]. intros d [-> _]. by rewrite Hver. }
  intros p. apply spec_pure. intros ->. rewrite <-Hlen.
  apply spec_fail_if; [intros d _ Hb; by rewrite N.eqb_refl in Hb|]. intros _.
  change (match gp_max_assets policy with Some _ => _ | None => _ end) with
    (over (gp_max_assets policy) (λ maximum, maximum <=? gr_candidate_assets report)).
  change (match gp_max_bytes policy with Some _ => _ | None => _ end) with
    (over (gp_max_bytes policy) (λ maximum, maximum <?
      u64_saturating_add (gr_candidate_bytes report) (um_byte_length marker))).
  destruct (over (gp_max_assets policy) _).
  { apply spec_ret. intros d [-> ?]. by destruct (gp_dry_run policy); rewrite app_nil_r. }
  destruct (over (gp_max_bytes policy) _); [by apply IH|].
  destruct (gp_dry_run policy) eqn:Hdry.
  { by apply (IH dl (gc_count true report (x, um_byte_length marker))). }
  eapply spec_bind; [eapply (spec_gc_delete (forget dl d1) x); [done| |]|].
  { by rewrite (proj1 (proj2 (forget_frame dl d1))), Ht. }
  { unfold referenced, markers_of. by rewrite (proj1 (forget_frame dl d1)). }
  intros []. eapply spec_conseq;
    [apply (IH (dl ++ [x]) (gc_count false report (x, um_byte_length marker)))|..].
  - intros y m Hy. destruct (Hl' y m Hy) as [Hydl Hrest]. split; [|done].
    intros [Hy'| ->%list_elem_of_singleton]%elem_of_app; [done|].
    destruct Hxl. apply list_elem_of_fmap. by exists (x, m).
  - intros d [? ->]. by rewrite forget_snoc.
  - intros r d' (-> & ? & ->). split; [done|]. split; [done|]. by rewrite <-app_assoc.
Qed.
(** What [gc] recovers before it selects *)
Definition gc_recovered (now_ms : N) (d dr : Disk) : Prop :=
  I dr ∧ dk_trash dr = ∅ ∧ same_owners d dr ∧ dk_objects dr = dk_objects d ∧
  markers_exact dr ∧ ∀ x, marker_origin now_ms d dr x.

Lemma spec_gc_recover P now_ms E :
  (∀ d, P d → I d) →
  spec P (check! recover_gc_trash sha256; recover_reference_state now_ms)
    (λ _ dr, ∃ d, P d ∧ gc_recovered now_ms d dr) I E.
Proof.
  intros HP. eapply spec_bind; [by apply (spec_recover_gc_trash sha256 touched d0 P)|]. intros [].
  eapply spec_conseq; [apply (spec_recover_reference_state sha256 touched d0)|intros d Hd; exact Hd|].
  { by intros d [? _]. }
  intros [] dr (dt & (HIt & Ht & d & Hd & Hso & Hob & Hmk) & (HIr & Hso' & Hob' & Ht') & Hor & Hex).
  exists d. split; [done|]. split_and!; [done|congruence|by eapply same_owners_trans|congruence|done|].
  intros x. destruct (dk_objects d !! x) as [o|] eqn:Hx.
  - destruct (Hmk x) as [Hm|?]; [|congruence]. unfold marker_origin in *.
    specialize (Hor x). rewrite (same_owners_referenced x _ _ Hso), Hob, Hm in Hor.
    destruct Hor as [?|[?|(? & ? & meta & Hin & ?)]]; [by left|by right; left|].
    right. right. split; [done|]. split; [done|]. exists meta. split; [|done].
    unfold in_place in *. by rewrite <-Hob.
  - right. left. split; [by right|]. apply eq_None_not_Some. rewrite (Hex x), Hob', Hob, Hx.
    intros [[? ?] _]. done.
Qed.

Lemma gc_markers_result dr set :
  disk_ok sha256 dr → markers_exact dr → (∀ x, x ∈ set ↔ referenced dr x) →
  match gc_markers set dr with
  | Ok markers => markers = gc_listing dr
  | Err _ => dk_temporaries dr ≠ []
  end.
Proof.
  intros Hok Hex Hset. unfold gc_markers. rewrite list_markers_result. case_bool_decide as Ht; cbn.
  { intros Hn. rewrite Hn in Ht. by apply not_elem_of_nil in Ht. }
  unfold gc_listing. assert (∀ x, x ∈ btree_keys (dk_unreferenced dr) →
    is_Some (dk_unreferenced dr !! x)) as Hall by (intros x; apply btree_keys_elem).
  induction (btree_keys (dk_unreferenced dr)) as [|x l IH]; [done|]. cbn [collect omap list_omap].
  specialize (IH ltac:(set_solver)).
  assert (is_Some (dk_unreferenced dr !! x)) as Hx by (apply Hall; set_solver).
  destruct (unreferenced_marker_result sha256 dr Hok x Hx) as (m & Hm & ->). rewrite Hm. cbn.
  rewrite bool_decide_false; cbn.
  - destruct (collect _ l); cbn; [|done]. by rewrite IH.
  - rewrite Hset. apply Hex in Hx. by destruct Hx.
Qed.

(** [gc] after its recovery *)
Definition gc_rest (policy : GcPolicy) : FS GcReport :=
  check! rebuild_reference_index;
  referenced ← indexed_referenced_digests;
  markers ← read "list GC markers" (gc_markers referenced);
  gc_loop sha256 policy markers (mkGcReport (len markers) 0 0 0 0 (gp_dry_run policy)).

Definition gc_result (policy : GcPolicy) (dr : Disk) (report : GcReport) (d' : Disk) : Prop :=
  I d' ∧
  report = foldl (gc_count (gp_dry_run policy))
    (mkGcReport (len (gc_listing dr)) 0 0 0 0 (gp_dry_run policy)) (gc_selected policy dr) ∧
  d' = forget (if gp_dry_run policy then [] else (gc_selected policy dr).*1) dr.

Lemma spec_gc_rest policy dr E :
  I dr → dk_trash dr = ∅ → markers_exact dr →
  spec (λ d, d = dr) (gc_rest policy) (gc_result policy dr) I E.
Proof.
  intros HI Ht Hex. pose proof (safe_ok _ _ _ _ HI) as Hok.
  apply (spec_rebuilt_digests sha256 touched d0); [by intros d ->|].
  intros set. apply spec_named. intros ? [-> Hset].
  eapply (spec_bind _ _ _ (λ markers d', markers = gc_listing dr ∧ d' = forget [] dr ∧ I d')).
  { apply spec_read; [by intros d' [-> _]|]. intros d' [-> _].
    pose proof (gc_markers_result dr set Hok Hex Hset) as Hm.
    destruct (gc_markers set dr); [done|]. by intros ?. }
  intros markers. apply spec_pure. intros ->.
  eapply spec_conseq; [apply (spec_gc_loop policy dr (gc_listing dr) [])|done|].
  - intros x m Hx%gc_listing_elem. split; [apply not_elem_of_nil|]. split; [done|].
    apply Hex. eauto.
  - rewrite gc_listing_fst; [apply btree_keys_NoDup|]. intros x [f Hf].
    destruct (do_unreferenced _ _ Hok _ _ Hf) as (m & _ & _ & -> & _). eauto.
  - done.
  - intros r d' (-> & HI' & ->). by split_and!.
Qed.

Lemma gc_split now_ms policy s :
  gc sha256 now_ms policy s =
  ((check! recover_gc_trash sha256; recover_reference_state now_ms) ≫= λ _, gc_rest policy) s.
Proof.
  unfold gc, gc_rest, mbind, M_bind. destruct (recover_gc_trash sha256 s) as [[[]|e] s1]; [|done].
  by destruct (recover_reference_state now_ms s1) as [[[]|e] s2].
Qed.

Lemma spec_gc P now_ms policy E :
  (∀ d, P d → I d) →
  spec P (gc sha256 now_ms policy)
    (λ report d', ∃ d dr, P d ∧ gc_recovered now_ms d dr ∧ gc_result policy dr report d') I E.
Proof.
  intros HP. assert (spec P ((check! recover_gc_trash sha256; recover_reference_state now_ms)
      ≫= λ _, gc_rest policy) (λ report d', ∃ d dr, P d ∧ gc_recovered now_ms d dr ∧
      gc_result policy dr report d') I E) as H.
  { eapply spec_bind; [by apply spec_gc_recover|]. intros []. apply spec_named.
    intros dr (d & Hd & Hrec). pose proof Hrec as (HI & Ht & _ & _ & Hex & _).
    eapply spec_conseq; [by apply (spec_gc_rest policy dr)|by intros d' [-> _]|].
    intros report d' Hres. eauto. }
  intros s Hs. rewrite gc_split. by apply H.
Qed.
End Gc.
