(* ===== verification/EvidenceFsOpen.v ===== *)
(** * Opening a filesystem evidence store

    [open_store] is safe wherever it stops, and without failures it recovers
    every disk an interrupted operation can leave. *)

From S2P Require Import Prelude Protocol Evidence EvidenceFs EvidenceFsInv EvidenceFsIndex.
From S2P Require Import EvidenceFsSafe EvidenceFsOps.

Local Open Scope N_scope.

(** ** Runs without failures *)

Definition calm {A} (P : Disk → Prop) (m : FS A) (Q : A → Disk → Prop) : Prop :=
  ∀ s, fs_outcomes s = [] → P (fs_disk s) →
  ∃ a s', m s = (Ok a, s') ∧ fs_outcomes s' = [] ∧ Q a (fs_disk s').

Lemma calm_ret {A} P (a : A) (Q : A → Disk → Prop) : (∀ d, P d → Q a d) → calm P (mret a) Q.
Proof. intros H s Ho Hs. exists a, s. split; [done|]. auto. Qed.

Lemma calm_bind {A B} P (m : FS A) (f : A → FS B) Q Q' :
  calm P m Q → (∀ a, calm (Q a) (f a) Q') → calm P (m ≫= f) Q'.
Proof.
  intros Hm Hf s Ho Hs. destruct (Hm s Ho Hs) as (a & s1 & Hr & Ho1 & Hs1).
  destruct (Hf a s1 Ho1 Hs1) as (b & s2 & Hr2 & ?). exists b, s2. unfold mbind, M_bind.
  by rewrite Hr.
Qed.

Lemma calm_disk {A} P (f : Disk → FS A) Q :
  (∀ x, P x → calm (λ d, d = x) (f x) Q) → calm P (gets fs_disk ≫= f) Q.
Proof. intros Hf s Ho Hs. exact (Hf _ Hs s Ho eq_refl). Qed.

Lemma calm_io P op f (Q : () → Disk → Prop) : (∀ d, P d → Q () (f d)) → calm P (io op f) Q.
Proof.
  intros HQ s Ho Hs. exists (), (set_disk f s). unfold io, mbind, M_bind, next_outcome. rewrite Ho.
  split; [done|]. split; [done|]. by apply HQ.
Qed.

Lemma calm_pre {A} (P P' : Disk → Prop) (m : FS A) Q :
  calm P m Q → (∀ d, P' d → P d) → calm P' m Q.
Proof. intros Hm HP s Ho Hs. apply Hm; auto. Qed.

Lemma calm_loop {A} (J : list A → Disk → Prop) f l :
  (∀ x l', x ∈ l → calm (J (x :: l')) (f x) (λ _, J l')) →
  calm (J l) (for_each f l) (λ _, J []).
Proof.
  intros Hf. assert (∀ l', (∀ x, x ∈ l' → x ∈ l) → calm (J l') (for_each f l') (λ _, J [])) as H;
    [|by apply H].
  induction l' as [|x l' IH]; intros Hl'; cbn [for_each]; [by apply calm_ret|].
  eapply calm_bind; [apply Hf; set_solver|]. intros []. apply IH. set_solver.
Qed.

Lemma calm_spec {A} (P : Disk → Prop) (m : FS A) Q R :
  spec P m Q R (λ _, False) →
  calm (λ d, P d ∧ dk_temporaries d = []) m (λ a d, Q a d ∧ dk_temporaries d = []).
Proof.
  intros Hm s Ho [Hs Ht]. specialize (Hm s Hs).
  destruct (m s) as [[a|e] s']; [|by destruct Hm as [_ []]; split].
  destruct Hm as [HQ Hq]. destruct (Hq (conj Ho Ht)) as [Ho' Ht'].
  exists a, s'. auto.
Qed.

Lemma calm_read {A} P op f (a : A) (Q : A → Disk → Prop) :
  (∀ d, P d → f d = Ok a ∧ Q a d) → calm P (read op f) Q.
Proof.
  intros Hf. eapply (calm_bind _ _ _ (λ _, P)); [by apply calm_io|]. intros [] s Ho Hs.
  destruct (Hf _ Hs) as [Hr HQ]. exists a, s. unfold mbind, M_bind, gets, lift. cbn. by rewrite Hr.
Qed.

Lemma calm_set_index P f : calm P (modify (set_index f)) (λ _, P).
Proof. intros s Ho Hs. by eexists (), _. Qed.

(** ** Runs that end with a rebuilt index *)

Definition index_current (s : FileEvidenceStore) : Prop :=
  ∃ index, fs_index s = Some index ∧ index_exact (fs_disk s) index.

Definition rebuilds (sha256 : list N → list N) {A} (m : FS A) : Prop :=
  ∀ s a s', m s = (Ok a, s') → disk_ok sha256 (fs_disk s') → index_current s'.

Lemma rebuilds_bind sha256 {A B} (m : FS A) (f : A → FS B) :
  (∀ a, rebuilds sha256 (f a)) → rebuilds sha256 (m ≫= f).
Proof. intros Hf s b s' (a & s1 & _ & H)%M_bind_ok. by eapply Hf. Qed.

Lemma rebuilds_index sha256 : rebuilds sha256 rebuild_reference_index.
Proof.
  intros s [] s' H Hok. unfold rebuild_reference_index, read in H. inv_run.
  eexists. split; [done|]. cbn in *.
  match goal with H : scan_reference_index ?d = Ok ?ix |- _ =>
    pose proof (scan_reference_index_result sha256 d Hok) as Hr; by rewrite H in Hr end.
Qed.

(** ** Removing what interrupted writes left *)

Lemma calm_cleanup_files P dir :
  calm P (cleanup_atomic_files_in dir)
    (λ _ d', ∃ d, P d ∧ d' = set_temporaries (filter (λ dir', dir' ≠ dir)) d).
Proof.
  apply calm_disk. intros d1 Hd1. case_bool_decide as Hx.
  - eapply (calm_bind _ _ _ (λ _ d', d' = set_temporaries (filter (λ dir', dir' ≠ dir)) d1)).
    + apply calm_io. by intros d ->.
    + intros []. apply calm_io. intros d ->. by exists d1.
  - apply calm_ret. intros d ->. exists d1. split; [done|]. destruct d1 as [a b c e f g h temps].
    unfold set_temporaries. cbn in *. f_equal. symmetry. apply list_filter_id.
    intros x Hin ->. done.
Qed.

(** The same as far as anyone can tell: temporaries and empty directories aside *)
Definition tidied (d d' : Disk) : Prop :=
  dk_header d' = dk_header d ∧ dk_objects d' = dk_objects d ∧
  (∀ sid, markers_of sid d' = markers_of sid d) ∧
  dk_released_sessions d' = dk_released_sessions d ∧ dk_unreferenced d' = dk_unreferenced d ∧
  dk_staging d' = dk_staging d ∧ dk_trash d' = dk_trash d.

Lemma tidied_temporaries d f : tidied d (set_temporaries f d).
Proof. by repeat split. Qed.

Lemma tidied_trans d1 d2 d3 : tidied d1 d2 → tidied d2 d3 → tidied d1 d3.
Proof.
  intros (?&?&Hm&?&?&?&?) (?&?&Hm'&?&?&?&?). split_and!; congruence.
Qed.

Lemma tidied_remove_empty d sid :
  dk_references d !! sid = Some ∅ → tidied d (set_references (delete sid) d).
Proof.
  intros Hs. repeat split. intros sid'. unfold markers_of. cbn.
  destruct (decide (sid' = sid)) as [->|Hne]; [by rewrite lookup_delete_eq, Hs|].
  by rewrite lookup_delete_ne.
Qed.

Section Open.
Context (sha256 : list N → list N) (d0 : Disk).

Abbreviation I := (safe sha256 (λ _, True) d0).

(** What the loop over the Session directories has left to do *)
Definition cleaning (d1 : Disk) (l : list SessionId) (d : Disk) : Prop :=
  tidied d1 d ∧ (VersionRoot ∉ dk_temporaries d) ∧
  ∀ sid, sid ∈ l ∨ (SessionReferences sid ∉ dk_temporaries d) ∧ dk_references d !! sid ≠ Some ∅.

Lemma calm_cleanup_session d1 sid l :
  calm (cleaning d1 (sid :: l)) (cleanup_session_directory sid) (λ _, cleaning d1 l).
Proof.
  eapply calm_bind; [apply calm_cleanup_files|]. intros []. apply calm_disk.
  intros d' (d & (Ht & Hv & Hl) & ->). set (d2 := set_temporaries _ d).
  assert (cleaning d1 (sid :: l) d2 ∧ (SessionReferences sid ∉ dk_temporaries d2)) as [(Ht2 & Hv2 & Hl2) Hs2].
  { unfold d2. cbn. split; [split_and!|].
    - by eapply tidied_trans, tidied_temporaries.
    - intros [_ ?]%list_elem_of_filter. done.
    - intros sid'. destruct (Hl sid') as [?|[Hn ?]]; [by left|right]. split; [|done].
      intros [_ ?]%list_elem_of_filter. done.
    - by intros [? _]%list_elem_of_filter. }
  case_bool_decide as He.
  - apply calm_io. intros ? ->. split_and!; [by eapply tidied_trans, tidied_remove_empty|done|].
    intros sid'. destruct (decide (sid' = sid)) as [->|Hne].
    + right. cbn. by rewrite lookup_delete_eq.
    + destruct (Hl2 sid') as [?|[? ?]]; [left; set_solver|right]. cbn. by rewrite lookup_delete_ne.
  - apply calm_ret. intros ? ->. split_and!; [done..|]. intros sid'.
    destruct (decide (sid' = sid)) as [->|Hne]; [by right|].
    destruct (Hl2 sid') as [?|[? ?]]; [left; set_solver|by right].
Qed.

Lemma calm_cleanup d1 :
  disk_ok sha256 d1 →
  calm (λ d, d = d1) cleanup_atomic_temporaries
    (λ _ d', tidied d1 d' ∧ dk_temporaries d' = [] ∧
      ∀ sid, dk_references d' !! sid ≠ Some ∅).
Proof.
  intros Hok. eapply calm_bind; [apply calm_cleanup_files|]. intros [].
  apply calm_disk. intros d2 (? & -> & Hd2).
  assert (cleaning d1 (session_names (dk_references d2)) d2) as Hc.
  { subst d2. split_and!; [apply tidied_temporaries|by intros [? _]%list_elem_of_filter|].
    intros sid. destruct (dk_references d1 !! sid) as [m|] eqn:Hm.
    - left. apply session_names_elem. cbn. eauto.
    - right. cbn. split; [|by rewrite Hm]. intros [_ Hs]%list_elem_of_filter.
      apply (do_temporaries _ _ Hok) in Hs. rewrite Hm in Hs. by destruct Hs. }
  eapply calm_bind; [eapply calm_pre; [apply (calm_loop (cleaning d1))|by intros d ->]|].
  { intros sid l _. apply calm_cleanup_session. }
  intros []. apply calm_disk. intros d3 Hd3.
  eapply (calm_bind _ _ _ (λ _ d, d = d3)).
  { case_bool_decide; [by apply calm_ret|by apply calm_io]. }
  intros []. eapply calm_bind; [apply calm_cleanup_files|]. intros [].
  intros s Ho Hs. destruct (calm_cleanup_files (λ d, d = fs_disk s) ReleasedSessions s Ho eq_refl)
    as ([] & s' & Hr & Ho' & d4 & -> & Hd4).
  exists (), s'. split; [done|]. split; [done|]. destruct Hs as (d5 & -> & Hs).
  destruct Hd3 as (Ht & Hv & Hl). rewrite Hd4, Hs. split_and!.
  - eapply tidied_trans; [|apply tidied_temporaries]. by eapply tidied_trans, tidied_temporaries.
  - cbn. apply elem_of_nil_inv. intros dir [Hdir [Hdir' Hin]%list_elem_of_filter]%list_elem_of_filter.
    destruct dir as [|sid| |]; try done. destruct (Hl sid) as [H|[? _]]; [|done].
    by apply not_elem_of_nil in H.
  - intros sid. cbn. destruct (Hl sid) as [H|[_ ?]]; [by apply not_elem_of_nil in H|done].
Qed.
(** ** Safety of the steps *)

Lemma spec_cleanup_files P dir E :
  (∀ d, P d → I d) →
  spec P (cleanup_atomic_files_in dir) (λ _ d', I d' ∧ (dir ∉ dk_temporaries d')) I E.
Proof.
  intros HP. apply spec_disk. intros d1 Hd1. case_bool_decide as Hx.
  - eapply (spec_bind _ _ _ (λ _ d', I d' ∧ (dir ∉ dk_temporaries d'))).
    + apply spec_io; [by intros d [_ ?]; auto| |].
      * intros d [-> _]. split; [by apply safe_filter_temporaries; auto|].
        by intros [? _]%list_elem_of_filter.
      * intros d Ht. cbn. by rewrite Ht.
    + intros []. apply spec_sync; [by intros d [? _]|done].
  - apply spec_ret. intros d [-> ?]. auto.
Qed.

Lemma spec_cleanup_session sid E :
  spec I (cleanup_session_directory sid) (λ _, I) I E.
Proof.
  eapply spec_bind; [by apply (spec_cleanup_files I)|]. intros [].
  apply spec_disk. intros d1 [HI Ht]. case_bool_decide as He.
  - apply spec_io; [by intros d [-> _]| |by intros ?]. intros d [-> _].
    change (set_references ?f d1) with
      (set_temporaries (λ _, dk_temporaries d1) (set_references (λ _, f (dk_references d1)) d1)).
    apply (safe_shrink_session _ _ _ _ sid); [done|right; unfold markers_of; by rewrite He| | |].
    + rewrite lookup_delete_eq. apply map_empty_subseteq.
    + intros sid' Hne. by rewrite lookup_delete_ne.
    + intros sid' Hin. rewrite lookup_delete_ne by congruence.
      by apply (do_temporaries _ _ (safe_ok _ _ _ _ HI)).
  - apply spec_ret. by intros d [-> _].
Qed.

Lemma spec_cleanup_temporaries E : spec I cleanup_atomic_temporaries (λ _, I) I E.
Proof.
  assert (∀ dir E, spec I (cleanup_atomic_files_in dir) (λ _, I) I E) as Hf.
  { intros dir E'. eapply spec_conseq; [by apply (spec_cleanup_files I)|done|by intros [] d [? _]]. }
  eapply spec_bind; [apply Hf|]. intros []. apply spec_disk. intros d1 HI.
  eapply (spec_bind _ _ _ (λ _, I)).
  { eapply spec_pre; [apply (spec_loop (λ _, I))|by intros d [-> _]].
    intros sid l _. apply spec_cleanup_session. }
  intros []. apply spec_disk. intros d2 HI2.
  eapply (spec_bind _ _ _ (λ _, I)).
  { case_bool_decide; [apply spec_ret|apply spec_sync]; by intros d [-> _]. }
  intros []. eapply spec_bind; [apply Hf|]. intros []. apply Hf.
Qed.

Lemma check_header_ok op d f :
  disk_ok sha256 d → dk_header d = Some f → check_header op f = Ok ().
Proof. intros Hok ->%(do_header _ _ Hok). done. Qed.

Lemma spec_preflight P E :
  (∀ d, P d → I d) → spec P preflight_existing_store (λ _, P) I E.
Proof.
  intros HP. apply spec_disk. intros d1 Hd1. destruct (dk_header d1) as [f|] eqn:Hf.
  - apply spec_read; [by intros d [_ ?]; auto|]. intros d [-> _].
    by rewrite (check_header_ok _ d1 f (safe_ok _ _ _ _ (HP _ Hd1)) Hf).
  - apply spec_ret. by intros d [-> _].
Qed.

Lemma spec_initialize_header P E :
  (∀ d, P d → I d) →
  spec P initialize_header (λ _ d', I d' ∧ ∃ d h, P d ∧ d' = set_header h d) I E.
Proof.
  intros HP. apply spec_disk. intros d1 Hd1. destruct (dk_header d1) as [f|] eqn:Hf.
  - apply spec_read; [by intros d [_ ?]; auto|]. intros d [-> _].
    rewrite (check_header_ok _ d1 f (safe_ok _ _ _ _ (HP _ Hd1)) Hf). split; [auto|].
    exists d1, (Some f). split; [done|]. rewrite <-Hf. by destruct d1.
  - apply spec_atomic_write_json.
    + by intros d [_ ?]; auto.
    + intros d [-> _]. apply safe_add_temporary; [auto|done].
    + intros d [-> _] Hb. apply bool_decide_eq_true in Hb. rewrite Hf in Hb. by destruct Hb.
    + intros d [-> _] _. assert (I (set_header (Some (Some (mkStoreHeader STORE_VERSION HASH_ALGORITHM))) d1))
        by (apply safe_write_header; auto). eauto 6.
    + by intros ?.
Qed.

Lemma spec_cleanup_staging P E :
  (∀ d, P d → I d) →
  spec P cleanup_abandoned_staging
    (λ _ d', I d' ∧ dk_staging d' = ∅ ∧ ∃ d, P d ∧ d' = set_staging (λ _, ∅) d) I E.
Proof.
  intros HP. apply spec_disk. intros d1 Hd1.
  set (J := λ (l : list Uuid) d, I d ∧ (∀ path, is_Some (dk_staging d !! path) → path ∈ l) ∧
    staging_only d1 d).
  eapply (spec_bind _ _ _ (λ _, J [])).
  - eapply spec_pre; [apply (spec_loop J)|].
    + intros path l _. apply spec_remove_dir_all; [..|by intros ?].
      * intros d names (HI & _). by apply safe_staging.
      * intros d (HI & Hl & Hd). split; [by apply safe_staging|]. split; [|done]. cbn.
        intros path' [o [Hne Ho]%lookup_delete_Some].
        assert (path' ∈ path :: l) as Hin by eauto. by apply elem_of_cons in Hin as [?|?].
    + intros d [-> _]. split; [auto|]. split; [|done].
      intros path. by rewrite (session_names_elem (dk_staging d1)).
  - intros []. apply spec_sync; [by intros d [? _]|]. intros d (HI & Hl & Hd).
    assert (dk_staging d = ∅) as He.
    { apply map_empty. intros path. apply eq_None_not_Some. intros H%Hl. by apply not_elem_of_nil in H. }
    split; [done|]. split; [done|]. exists d1. split; [done|].
    rewrite <-Hd. destruct d. cbn in *. by rewrite He.
Qed.
(** ** The whole of [open_store] *)

(** A disk on which nothing is left to recover *)
Record settled_disk (d : Disk) : Prop := {
  sd_ok : disk_ok sha256 d;
  sd_trash : dk_trash d = ∅;
  sd_staging : dk_staging d = ∅;
  sd_markers : markers_exact d;
  sd_released sid : is_Some (dk_released_sessions d !! sid) → dk_references d !! sid = None;
}.

(** Everything but the references of released Sessions is kept. *)
Definition recovered (d d' : Disk) : Prop :=
  dk_objects d' = dk_objects d ∧ dk_released_sessions d' = dk_released_sessions d ∧
  ∀ sid, dk_released_sessions d !! sid = None → markers_of sid d' = markers_of sid d.

Lemma spec_open_rest P now_ms E :
  (∀ d, P d → I d) →
  spec P (check! initialize_header;
          check! cleanup_abandoned_staging;
          check! recover_gc_trash sha256;
          check! rebuild_reference_index;
          check! recover_released_sessions now_ms;
          check! recover_reference_state now_ms;
          rebuild_reference_index)
    (λ _ d', I d' ∧ settled_disk d' ∧ ∃ d, P d ∧ recovered d d') I E.
Proof.
  intros HP. eapply spec_bind; [by apply (spec_initialize_header P)|]. intros [].
  eapply spec_bind; [apply spec_cleanup_staging; by intros d [? _]|]. intros [].
  eapply spec_bind; [apply spec_recover_gc_trash; by intros d [? _]|]. intros [].
  eapply spec_bind; [apply (spec_rebuild sha256 (λ _, True) d0); by intros d [? _]|]. intros [].
  eapply spec_bind; [apply spec_recover_released_sessions; by intros d [? _]|]. intros [].
  eapply spec_bind; [apply spec_recover_reference_state|].
  { by intros d (? & _ & [? _] & _). }
  intros []. eapply spec_conseq; [apply (spec_rebuild sha256 (λ _, True) d0)|intros d Hd; exact Hd|].
  { by intros d (? & _ & [[? _] _]). }
  intros [] d7 (d6 & (d5 & (HI5 & Ht5 & d4 & (HI4 & Hs4 & d3 & (HI3 & d2 & h & Hd2 & ->) & ->) & Hso5 & Hob5 & _)
    & (HI6 & Hrel6 & Hob6 & Hh6 & Hs6 & Ht6 & Hr6) & Hgone6) & ((HI7 & Hso7 & Hob7 & Ht7) & _ & Hex7)).
  destruct Hso5 as (Hr5 & Hst5 & Hrel5 & _), Hso7 as (Hr7 & Hst7 & Hrel7 & _). cbn in *.
  split; [done|]. split.
  - split; [by eapply safe_ok|congruence|congruence|done|].
    intros sid. rewrite Hrel7, Hr7. apply Hgone6.
  - exists d2. split; [done|]. split_and!; [congruence..|]. intros sid Hn.
    unfold markers_of. rewrite Hr7. destruct (Hr6 sid) as [->|[Hs _]].
    + by rewrite Hr5.
    + rewrite Hrel5, Hn in Hs. by destruct Hs.
Qed.

Lemma open_store_safe config now_ms s :
  I (fs_disk s) → I (fs_disk (snd (open_store sha256 config now_ms s))).
Proof.
  intros Hs. assert (spec I (open_store sha256 config now_ms) (λ _, I) I (λ _, True)) as H.
  { unfold open_store. apply spec_fail_if; [done|]. intros _.
    eapply spec_bind; [by apply (spec_preflight I)|]. intros [].
    eapply (spec_bind _ _ _ (λ _, I)); [by apply spec_modify_index|]. intros [].
    eapply spec_bind; [apply spec_cleanup_temporaries|]. intros [].
    eapply spec_conseq; [by apply (spec_open_rest I)|done|]. by intros [] d [? _]. }
  specialize (H s Hs). destruct (open_store sha256 config now_ms s) as [[]]; by destruct H.
Qed.
End Open.

Definition valid_config (config : FileEvidenceStoreConfig) : bool :=
  negb ((cf_max_asset_bytes config =? 0) || (cf_max_references_per_session config =? 0) ||
    (cf_max_concurrent_writes config =? 0) ||
    (SEMAPHORE_MAX_PERMITS <? cf_max_concurrent_writes config)).

Lemma calm_open_store sha256 config now_ms d1 :
  valid_config config = true → disk_ok sha256 d1 →
  calm (λ d, d = d1) (open_store sha256 config now_ms)
    (λ _ d', (settled_disk sha256 d' ∧ recovered d1 d') ∧ dk_temporaries d' = []).
Proof.
  intros Hc Hok.
  assert (safe sha256 (λ _, True) d1 d1) as HI by (split; [done|apply keeps_refl]).
  unfold open_store. apply negb_true_iff in Hc. rewrite Hc.
  eapply (calm_bind _ _ _ (λ _ d, d = d1)); [intros s1 ? Hs1; by exists (), s1|]. intros [].
  eapply (calm_bind _ _ _ (λ _ d, d = d1)).
  { apply calm_disk. intros ? ->. destruct (dk_header d1) as [f|] eqn:Hf; [|by apply calm_ret].
    apply calm_read with (). intros d ->. split; [|done]. by eapply check_header_ok. }
  intros []. eapply calm_bind; [apply calm_set_index|]. intros [].
  eapply (calm_bind _ _ _ (λ _ d, safe sha256 (λ _, True) d1 d ∧ tidied d1 d ∧ dk_temporaries d = [])).
  { intros s2 Ho2 Hs2. destruct (calm_cleanup sha256 d1 Hok s2 Ho2 Hs2) as ([] & s3 & Hr & Ho3 & Ht & Htmp & _).
    exists (), s3. split; [done|]. split; [done|]. split_and!; [|done..].
    rewrite <-Hs2 in HI. pose proof (spec_cleanup_temporaries sha256 (fs_disk s2) (λ _, True) s2 HI) as H.
    rewrite Hr, Hs2 in H. by destruct H. }
  intros []. intros s3 Ho3 (HI3 & Ht3 & Htmp3).
  destruct (calm_spec _ _ _ _ (spec_open_rest sha256 d1 (λ d, safe sha256 (λ _, True) d1 d ∧ tidied d1 d)
    now_ms (λ _, False) (λ d H, proj1 H)) s3 Ho3 (conj (conj HI3 Ht3) Htmp3))
    as ([] & s4 & Hr4 & Ho4 & (_ & Hset & d5 & [_ Ht5] & Hrec) & Htmp4).
  exists (), s4. split; [done|]. split; [done|]. split; [|done]. split; [done|].
  destruct Ht5 as (_ & Hob & Hm & Hrel & _), Hrec as (Hob' & Hrel' & Hm').
  split_and!; [congruence..|]. intros sid Hn. rewrite Hm', Hm; congruence.
Qed.

(** Without failures every good disk opens. *)
Lemma open_store_recovers sha256 config now_ms s :
  valid_config config = true → disk_ok sha256 (fs_disk s) → fs_outcomes s = [] →
  ∃ s', open_store sha256 config now_ms s = (Ok (), s') ∧ quiet s' ∧ index_current s' ∧
    settled_disk sha256 (fs_disk s') ∧ recovered (fs_disk s) (fs_disk s').
Proof.
  intros Hc Hok Ho.
  destruct (calm_open_store sha256 config now_ms _ Hc Hok s Ho eq_refl)
    as ([] & s' & Hr & Ho' & (Hset & Hrec) & Ht).
  exists s'. split; [done|]. split; [by split|]. split; [|done].
  assert (rebuilds sha256 (open_store sha256 config now_ms)) as Hreb.
  { unfold open_store. repeat first [apply rebuilds_index|apply rebuilds_bind; intros ?]. }
  eapply Hreb; [done|apply Hset].
Qed.
