(* ===== verification/EvidenceFsProps.v ===== *)
(** * Evidence is never lost

    The filesystem evidence store as a system: concurrent stores of content
    that are staged and published in two steps, attachments, releases and
    collections, each with any outcome of its calls to the file system, and a
    process that can stop anywhere and open the store again. *)

From S2P Require Import Prelude Protocol Evidence EvidenceFs EvidenceFsInv EvidenceFsIndex.
From S2P Require Import EvidenceFsSafe EvidenceFsOps EvidenceFsGc EvidenceFsOpen.

Local Open Scope N_scope.

Definition with_outcomes (outcomes : list Outcome) (s : FileEvidenceStore) : FileEvidenceStore :=
  mkFileEvidenceStore (fs_disk s) (fs_index s) outcomes.

(** A new process on the same disk *)
Definition restarted (outcomes : list Outcome) (s : FileEvidenceStore) : FileEvidenceStore :=
  mkFileEvidenceStore (fs_disk s) None outcomes.

Section System.
Context (sha256 : list N → list N) (config : FileEvidenceStoreConfig).

(** The store, and the content staged by each [put] that has not published *)
Record World := mkWorld {
  w_store : FileEvidenceStore;
  w_pending : list (StagedPut * list N);
}.

Abbreviation disk w := (fs_disk (w_store w)).

Inductive world_step (w : World) : World → Prop :=
| step_stage os path now request input r s' :
    validate_media_type (put_media_type request) = Ok () →
    dk_staging (disk w) !! path = None →
    put_stage sha256 config path now request input (with_outcomes os (w_store w)) = (r, s') →
    world_step w (mkWorld s' (match r with
      | Ok staged => (staged, input_content input) :: w_pending w
      | Err _ => w_pending w
      end))
| step_publish os before staged content after :
    w_pending w = before ++ (staged, content) :: after →
    world_step w (mkWorld
      (snd (put_publish sha256 config staged (with_outcomes os (w_store w)))) (before ++ after))
| step_attach os now sid asset :
    world_step w (mkWorld (snd (attach sha256 config now sid asset (with_outcomes os (w_store w))))
      (w_pending w))
| step_release os now sid at_ms :
    world_step w (mkWorld (snd (release_session now sid at_ms (with_outcomes os (w_store w))))
      (w_pending w))
| step_gc os now policy :
    world_step w (mkWorld (snd (gc sha256 now policy (with_outcomes os (w_store w)))) (w_pending w))
| step_restart os now :
    world_step w (mkWorld (snd (open_store sha256 config now (restarted os (w_store w)))) []).

Definition initial_world (now : N) (os : list Outcome) : World :=
  mkWorld (snd (open_store sha256 config now (mkFileEvidenceStore empty_disk None os))) [].

Inductive world_reachable : World → Prop :=
| wr_initial now os : world_reachable (initial_world now os)
| wr_step w w' : world_reachable w → world_step w w' → world_reachable w'.

(** ** The invariant of the system *)

Definition pending_ok (d : Disk) (p : StagedPut * list N) : Prop :=
  intact sha256 (sp_digest p.1) (staged_dir p.2 p.1) ∧
  dk_staging d !! sp_path p.1 = Some (staged_dir p.2 p.1).

Record world_ok (w : World) : Prop := {
  wo_disk : disk_ok sha256 (disk w);
  wo_pending : Forall (pending_ok (disk w)) (w_pending w);
  wo_paths : NoDup (sp_path ∘ fst <$> w_pending w);
}.

Context (sha256_length : ∀ l, ∃ x, digest_from_hash (sha256 l) = Ok x).

Lemma spec_attach touched d0 now sid asset E :
  spec (safe sha256 touched d0) (attach sha256 config now sid asset)
    (λ _, safe sha256 touched d0) (safe sha256 touched d0) (λ e, E e ∨ True).
Proof.
  set (I := safe sha256 touched d0).
  eapply (spec_bind _ _ _ (λ _, I)).
  { apply spec_lift. intros d Hd. destruct (from_asset_ref asset); auto. }
  intros x. eapply (spec_bind _ _ _ (λ _, I)).
  { eapply spec_mono; [by apply (spec_session_open sha256 touched d0 I sid)|done|by intros [] d [? _]|done|].
    auto. }
  intros []. eapply (spec_bind _ _ _ (λ p d, I d ∧ in_place x p.1 d)).
  { apply spec_read; [done|]. intros d Hd.
    destruct (dk_objects d !! x) as [o|] eqn:Hx.
    - destruct (object_present sha256 d (safe_ok _ _ _ _ Hd) x o Hx) as (meta & data & -> & _ & ->).
      split; [done|]. by eexists.
    - unfold verify_object, read_object_metadata. rewrite Hx. cbn. auto. }
  intros [meta data]. cbn [fst].
  apply spec_fail_if; [intros d [? _] _; auto|]. intros _.
  eapply spec_bind.
  { apply (spec_indexed_count sha256 touched d0 (λ d, I d ∧ in_place x meta d)). by intros d [? _]. }
  intros before. eapply (spec_bind _ _ _ (λ _, I)).
  { eapply spec_mono; [apply (spec_add_reference sha256 touched d0 (λ d, I d ∧ in_place x meta d))|..]; auto.
    by intros added d (d1 & _ & [? _]). }
  intros added. eapply (spec_bind _ _ _ (λ _, I)).
  { apply spec_lift. intros d Hd. case_match; auto. }
  intros m. by apply spec_ret.
Qed.

Lemma spec_run {A} (P : Disk → Prop) (m : FS A) Q (R : Disk → Prop) E s :
  spec P m Q R E → P (fs_disk s) → (∀ a d, Q a d → R d) → R (fs_disk (snd (m s))).
Proof.
  intros Hm Hs HQ. specialize (Hm s Hs). destruct (m s) as [[a|e] s']; destruct Hm; cbn; eauto.
Qed.

Lemma safe_refl touched d : disk_ok sha256 d → safe sha256 touched d d.
Proof. intros Hok. split; [done|apply keeps_refl]. Qed.

Lemma pending_kept touched d d' l :
  safe sha256 touched d d' → Forall (pending_ok d) l →
  (∀ p, p ∈ l → ¬ touched (sp_path p.1)) → Forall (pending_ok d') l.
Proof.
  intros [_ Hk] Hl Ht. rewrite Forall_forall in *. intros p Hp. destruct (Hl p Hp) as [Hi Hs].
  split; [done|]. rewrite (ke_staging _ _ _ Hk); auto.
Qed.

Lemma keeps_weaken touched d d' : keeps touched d d' → keeps (λ _, True) d d'.
Proof. intros [Hr Ho Hrel _]. by split. Qed.

Lemma stage_preserves w os path now request input r s' :
  world_ok w → validate_media_type (put_media_type request) = Ok () →
  dk_staging (disk w) !! path = None →
  put_stage sha256 config path now request input (with_outcomes os (w_store w)) = (r, s') →
  world_ok (mkWorld s' (match r with
    | Ok staged => (staged, input_content input) :: w_pending w
    | Err _ => w_pending w
    end)) ∧ keeps (λ _, True) (disk w) (fs_disk s').
Proof.
  intros [Hok Hpen Hnd] Hmt Hfresh Hrun. set (t := λ p, p = path).
  pose proof (spec_put_stage sha256 t (disk w) (λ d, d = disk w) config path now request input
    sha256_length) as H.
  specialize (H ltac:(by intros d ->; split; [apply safe_refl|]) eq_refl
    (with_outcomes os (w_store w)) eq_refl).
  rewrite Hrun in H.
  assert (∀ p, p ∈ w_pending w → ¬ t (sp_path p.1)) as Hne.
  { intros p Hp Ht. rewrite Forall_forall in Hpen. destruct (Hpen p Hp) as [_ Hs]. congruence. }
  destruct r as [staged|e].
  - destruct H as [(Hst & HI & Hat & _) _]. split; [|by eapply keeps_weaken, HI].
    pose proof (staged_intact sha256 path request now _ staged Hmt Hst) as Hint.
    pose proof Hst as (Hpath & _).
    split; [apply HI| |].
    + constructor; [split; cbn; [done|by rewrite Hpath]|]. by eapply pending_kept.
    + cbn. constructor; [|done]. intros ((p & c) & Hp & Hin)%list_elem_of_fmap.
      apply (Hne _ Hin). unfold t. cbn in *. congruence.
  - destruct H as [HI _]. split; [|by eapply keeps_weaken, HI].
    split; [apply HI| |done]. by eapply pending_kept.
Qed.

Lemma publish_preserves w os before staged content after :
  world_ok w → w_pending w = before ++ (staged, content) :: after →
  let s' := snd (put_publish sha256 config staged (with_outcomes os (w_store w))) in
  world_ok (mkWorld s' (before ++ after)) ∧ keeps (λ _, True) (disk w) (fs_disk s').
Proof.
  intros [Hok Hpen Hnd] Hp. cbv zeta. rewrite Hp in Hpen, Hnd. set (t := λ p, p = sp_path staged).
  apply Forall_app in Hpen as [Hb [[Hint Hst] Ha]%Forall_cons].
  rewrite fmap_app, fmap_cons in Hnd. apply NoDup_app in Hnd as (Hnb & Hba & [Hna Hnd]%NoDup_cons).
  assert (safe sha256 t (disk w) (fs_disk (snd (put_publish sha256 config staged
    (with_outcomes os (w_store w)))))) as Hs.
  { refine (spec_run (λ d, d = disk w) _ _ _ _ (with_outcomes os (w_store w))
      (spec_put_publish sha256 t (disk w) (λ d, d = disk w) config staged content False _ _ _ _) _ _); try done.
    - intros d ->. split; [by apply safe_refl|done].
    - by intros a d (_ & _ & _ & _ & _ & _ & _ & _ & _ & [? _] & _). }
  split; [|by eapply keeps_weaken, Hs]. split; [apply Hs| |].
  - eapply pending_kept; [done|by apply Forall_app|]. intros p Hin Ht. unfold t in Ht.
    apply elem_of_app in Hin as [Hin|Hin].
    + apply (Hba (sp_path staged)); [|set_solver]. apply list_elem_of_fmap. by exists p.
    + apply Hna. apply list_elem_of_fmap. by exists p.
  - cbn. rewrite fmap_app. apply NoDup_app. split_and!; [done| |done]. set_solver.
Qed.

(** One step keeps the invariant and what unreleased Sessions own. *)
Lemma step_preserves w w' :
  world_ok w → world_step w w' → world_ok w' ∧ keeps (λ _, True) (disk w) (disk w').
Proof.
  intros [Hok Hpen Hnd] Hstep.
  assert (∀ touched s', safe sha256 touched (disk w) (fs_disk s') →
    keeps (λ _, True) (disk w) (fs_disk s')) as Hkeep.
  { intros touched s' [_ [Hr Ho Hrel Hst]]. split; try done. }
  assert (∀ s', safe sha256 (λ _, False) (disk w) (fs_disk s') →
    world_ok (mkWorld s' (w_pending w)) ∧ keeps (λ _, True) (disk w) (fs_disk s')) as Hsame.
  { intros s' Hs. split; [|by eapply Hkeep]. split; [apply Hs| |done].
    eapply pending_kept; [done..|]. by intros ? _ ?. }
  pose proof (safe_refl (λ _, False) _ Hok) as Hrefl.
  destruct Hstep as [os path now request input r s' Hmt Hfresh Hrun|os before staged content after Hp|
    os now sid asset|os now sid at_ms|os now policy|os now].
  - by eapply stage_preserves.
  - by eapply publish_preserves.
  - apply Hsame. refine (spec_run _ _ _ _ _ (with_outcomes os (w_store w))
      (spec_attach (λ _, False) (disk w) now sid asset (λ _, True)) Hrefl _). done.
  - apply Hsame. refine (spec_run _ _ _ _ _ (with_outcomes os (w_store w))
      (spec_release_session sha256 (λ _, False) (disk w) (safe sha256 (λ _, False) (disk w))
        now sid at_ms (λ _, True) (λ _ H, H)) Hrefl _). by intros a d (_ & ? & _).
  - apply Hsame. refine (spec_run _ _ _ _ _ (with_outcomes os (w_store w))
      (spec_gc sha256 (λ _, False) (disk w) (safe sha256 (λ _, False) (disk w))
        now policy (λ _, True) (λ _ H, H)) Hrefl _). by intros a d (_ & _ & _ & _ & [? _]).
  - pose proof (open_store_safe sha256 (disk w) config now (restarted os (w_store w))
      (safe_refl _ _ Hok)) as Hs.
    split; [|by eapply Hkeep]. split; [apply Hs|constructor|constructor].
Qed.

Lemma empty_disk_ok : disk_ok sha256 empty_disk.
Proof.
  split; try done. intros sid Hs. by apply not_elem_of_nil in Hs.
Qed.

Lemma reachable_ok w : world_reachable w → world_ok w.
Proof.
  induction 1 as [now os|w w' _ IH Hs]; [|by eapply step_preserves].
  pose proof (open_store_safe sha256 empty_disk config now (mkFileEvidenceStore empty_disk None os)
    (safe_refl _ _ empty_disk_ok)) as Hs.
  split; [apply Hs|constructor|constructor].
Qed.

Lemma steps_keep w w' :
  world_ok w → rtc world_step w w' → world_ok w' ∧ keeps (λ _, True) (disk w) (disk w').
Proof.
  intros Hw Hsteps. revert Hw. induction Hsteps as [w|w w1 w2 Hs _ IH]; intros Hw.
  { split; [done|apply keeps_refl]. }
  destruct (step_preserves _ _ Hw Hs) as [Hw1 Hk1]. destruct (IH Hw1) as [Hw2 Hk2].
  split; [done|]. by eapply keeps_trans.
Qed.

(** Reading an object without failures *)
Lemma open_present d x o s :
  disk_ok sha256 d → fs_disk s = d → fs_outcomes s = [] → dk_objects d !! x = Some o →
  ∃ meta data, o = mkObjectDirectory (Some (Some meta)) (Some data) ∧
    open sha256 x s = (Ok data, s) ∧ digest_from_hash (sha256 data) = Ok x ∧
    len data = om_byte_length meta.
Proof.
  intros Hok Hd Ho Hx. destruct (object_present sha256 d Hok x o Hx) as (meta & data & -> & _ & Hv).
  exists meta, data. split; [done|]. split.
  - unfold open, read, io, next_outcome, gets, lift, modify, mbind, M_bind.
    destruct s as [sd si so]. cbn in *. subst. cbn. by rewrite Hv.
  - destruct (do_objects _ _ Hok _ _ Hx) as (m & dt & [= <- <-] & _ & ? & ?). done.
Qed.

(** What a successful publication leaves on disk *)
Lemma publish_stores w before staged content after os stored s1 :
  world_ok w → w_pending w = before ++ (staged, content) :: after →
  put_publish sha256 config staged (with_outcomes os (w_store w)) = (Ok stored, s1) →
  em_digest (sv_metadata stored) = sp_digest staged ∧
  em_byte_length (sv_metadata stored) = len content ∧
  is_Some (markers_of (sp_session_id staged) (fs_disk s1) !! sp_digest staged) ∧
  (∃ o meta, dk_objects (fs_disk s1) !! sp_digest staged = Some o ∧ object_meta o = Some meta ∧
    om_byte_length meta = len content ∧
    em_media_type (sv_metadata stored) = om_media_type meta) ∧
  ∀ sid, markers_of sid (disk w) ⊆ markers_of sid (fs_disk s1).
Proof.
  intros [Hok Hpen _] Hp Hrun. rewrite Hp in Hpen. apply Forall_app in Hpen as [_ [[Hint Hst] _]%Forall_cons].
  cbn in Hint, Hst.
  pose proof (spec_put_publish sha256 (λ _, True) (disk w) (λ d, d = disk w) config staged content False
    Logic.I Hint) as H.
  specialize (H ltac:(by intros d ->; split; [apply safe_refl|]) ltac:(done)
    (with_outcomes os (w_store w)) eq_refl).
  rewrite Hrun in H.
  destruct H as [(d & d1 & d2 & meta & dedup & added & -> & Hpub & Hso & (_ & _ & Hadd) & (n & ->)) _].
  destruct (pb_in_place _ _ _ _ _ _ _ _ _ Hpub) as (o & Ho & Hm).
  pose proof (pb_byte_length _ _ _ _ _ _ _ _ _ Hpub) as Hl.
  assert (om_byte_length (sp_metadata staged) = len content) as Hlen.
  { destruct Hint as (m & dt & [= <- <-] & _ & ? & _). done. }
  destruct (staging_only_fields _ _ Hso) as (Hobj & Href & _).
  assert (∀ sid, markers_of sid d2 = markers_of sid (disk w)) as Hmk.
  { intros sid. unfold markers_of. by rewrite Href, (pb_references _ _ _ _ _ _ _ _ _ Hpub). }
  split; [done|]. split; [cbn; congruence|]. destruct added, Hadd as [Hs ->].
  - split.
    + unfold with_reference. rewrite markers_of_insert, bool_decide_true, lookup_insert_eq by done. eauto.
    + split; [exists o, meta; cbn; rewrite Hobj; split_and!; congruence|]. intros sid.
      unfold with_reference. rewrite markers_of_insert. rewrite <-(Hmk sid).
      case_bool_decide; [subst; by apply insert_subseteq|done].
  - split; [done|]. split; [|intros sid; by rewrite Hmk].
    exists o, meta. rewrite Hobj. split_and!; cbn; congruence.
Qed.
End System.

(** ** The hash of the crate [sha2]: 32 bytes *)

Definition hash_bytes (sha256 : list N → list N) : Prop :=
  ∀ l, length (sha256 l) = 32%nat ∧ Forall (λ b, b < 256) (sha256 l).

Lemma hex_digit_ok n : n < 16 → is_lower_hex (Ascii.N_of_ascii (hex_digit n)) = true.
Proof.
  intros Hn. unfold hex_digit, is_lower_hex, is_ascii_digit. rewrite Ascii.N_ascii_embedding.
  - destruct (N.ltb_spec n 10); lia.
  - destruct (N.ltb_spec n 10); lia.
Qed.

Lemma hex_encode_ok l :
  Forall (λ b, b < 256) l →
  str_len (hex_encode l) = 2 * len l ∧ forallb is_lower_hex (bytes (hex_encode l)) = true.
Proof.
  induction 1 as [|b l Hb _ [IHl IHh]]; [done|]. split.
  - unfold str_len, len in *. cbn. lia.
  - unfold bytes in *. cbn [hex_encode String.list_ascii_of_string map forallb].
    rewrite !hex_digit_ok, IHh; [done|apply N.mod_lt; lia|apply N.Div0.div_lt_upper_bound; lia].
Qed.

Lemma hash_digest sha256 : hash_bytes sha256 → ∀ l, ∃ x, digest_from_hash (sha256 l) = Ok x.
Proof.
  intros Hh l. destruct (Hh l) as [Hl Hb]. exists (hex_encode (sha256 l)).
  destruct (hex_encode_ok _ Hb) as [Hlen Hhex]. apply parse_digest_ok. split; [done|].
  split; [|done]. rewrite Hlen. unfold len. by rewrite Hl.
Qed.

(** ** The properties *)

Section Properties.
Context (sha256 : list N → list N) (config : FileEvidenceStoreConfig).
Implicit Types w : World.

(** C13: a well-formedness invariant of the disk. Whatever operations ran and
    wherever any of them stopped, every object on disk is complete, has the
    length its metadata states and hashes to its name; every reference is a
    valid marker of its Session to an object in place with the same media
    type; every unreferenced marker is valid and states the length of its
    object; no object is both in place and in the trash. *)
Theorem reachable_disk_well_formed w :
  hash_bytes sha256 → world_reachable sha256 config w → disk_ok sha256 (fs_disk (w_store w)).
Proof. intros Hh Hr. apply (reachable_ok sha256 config (hash_digest _ Hh)) in Hr. apply Hr. Qed.

(** C12: whatever operations ran and wherever the process stopped, opening the
    store again without failures succeeds. It leaves nothing to recover,
    builds an index that agrees with the disk, keeps every object, and keeps
    the references of every Session that was not released. *)
Theorem every_interruption_is_recovered w now_ms :
  hash_bytes sha256 → valid_config config = true → world_reachable sha256 config w →
  ∃ s, open_store sha256 config now_ms (restarted [] (w_store w)) = (Ok (), s) ∧
    settled_disk sha256 (fs_disk s) ∧ index_current s ∧
    recovered (fs_disk (w_store w)) (fs_disk s).
Proof.
  intros Hh Hc Hr. apply (reachable_ok sha256 config (hash_digest _ Hh)) in Hr.
  destruct (open_store_recovers sha256 config now_ms (restarted [] (w_store w)) Hc
    (wo_disk _ _ Hr) eq_refl) as (s & Hs & _ & Hix & Hset & Hrec). eauto.
Qed.

(** C9: a reference a Session owns is still there, and its content can be read
    back bit for bit, after any operations, failures and restarts, as long as
    the Session has not been released. *)
Theorem attached_evidence_survives w w' sid x marker :
  hash_bytes sha256 → world_reachable sha256 config w → rtc (world_step sha256 config) w w' →
  markers_of sid (fs_disk (w_store w)) !! x = Some marker →
  dk_released_sessions (fs_disk (w_store w')) !! sid = None →
  markers_of sid (fs_disk (w_store w')) !! x = Some marker ∧
  ∃ content, fst (open sha256 x (with_outcomes [] (w_store w))) = Ok content ∧
    fst (open sha256 x (with_outcomes [] (w_store w'))) = Ok content ∧
    digest_from_hash (sha256 content) = Ok x.
Proof.
  intros Hh Hr Hs Hm Hn. pose proof (hash_digest _ Hh) as Hd.
  apply (reachable_ok sha256 config Hd) in Hr.
  destruct (steps_keep sha256 config Hd _ _ Hr Hs) as [Hok' Hk].
  split; [by eapply ke_references|].
  destruct (do_references _ _ (wo_disk _ _ Hr) _ _ _ Hm) as (_ & o & _ & _ & Ho & _).
  pose proof (ke_objects _ _ _ Hk sid x o Hn ltac:(eauto) Ho) as Ho'.
  destruct (open_present sha256 _ x o (with_outcomes [] (w_store w)) (wo_disk _ _ Hr)
    eq_refl eq_refl Ho) as (meta & data & -> & -> & Hx & _).
  destruct (open_present sha256 _ x _ (with_outcomes [] (w_store w')) (wo_disk _ _ Hok')
    eq_refl eq_refl Ho') as (meta' & data' & [= <- <-] & -> & _).
  eauto.
Qed.

(** Storing content and reading it back. When publishing staged content
    returns, the digest returned is the hash of the content, and as long as the
    Session is not released, opening that digest returns bytes with that hash
    and length whatever happens in between: the content itself, unless other
    bytes with the same hash exist. *)
Theorem stored_content_is_returned w w' before staged content after os stored s :
  hash_bytes sha256 → world_reachable sha256 config w →
  w_pending w = before ++ (staged, content) :: after →
  put_publish sha256 config staged (with_outcomes os (w_store w)) = (Ok stored, s) →
  rtc (world_step sha256 config) (mkWorld s (before ++ after)) w' →
  dk_released_sessions (fs_disk (w_store w')) !! sp_session_id staged = None →
  let x := em_digest (sv_metadata stored) in
  digest_from_hash (sha256 content) = Ok x ∧ from_asset_ref (asset_ref stored) = Ok x ∧
  ∃ bytes, fst (open sha256 x (with_outcomes [] (w_store w'))) = Ok bytes ∧
    digest_from_hash (sha256 bytes) = Ok x ∧ len bytes = len content ∧
    ((∀ other, digest_from_hash (sha256 other) = Ok x → other = content) → bytes = content).
Proof.
  intros Hh Hr Hp Hrun Hs Hn. pose proof (hash_digest _ Hh) as Hd. cbv zeta.
  apply (reachable_ok sha256 config Hd) in Hr.
  destruct (publish_stores sha256 config w before staged content after os stored s Hr Hp Hrun)
    as (Hx & Hl & Hm & (o & meta & Ho & Hmeta & Hlen & Hmt) & _).
  assert (world_ok sha256 (mkWorld s (before ++ after))) as Hok.
  { pose proof (publish_preserves sha256 config Hd w os before staged content after Hr Hp) as [H _].
    by rewrite Hrun in H. }
  destruct (steps_keep sha256 config Hd _ _ Hok Hs) as [Hok' Hk]. rewrite Hx.
  pose proof (ke_objects _ _ _ Hk _ _ o Hn Hm Ho) as Ho'.
  destruct (open_present sha256 _ _ o (with_outcomes [] (w_store w')) (wo_disk _ _ Hok')
    eq_refl eq_refl Ho') as (meta' & data & -> & -> & Hhash & Hdl).
  cbn in Hmeta. simplify_eq. destruct Hr as [Hdisk Hpen _]. rewrite Hp in Hpen.
  apply Forall_app in Hpen as [_ [[(m & dt & [= <- <-] & _ & _ & Hc) _] _]%Forall_cons].
  split; [done|]. split.
  - apply from_asset_ref_ok. unfold asset_ref. cbn. rewrite Hx, Hmt. split; [done|].
    split; [by eapply intact_digest; eapply do_objects; [apply Hok|]|].
    eapply (in_place_media_type sha256 _ _ _ (wo_disk _ _ Hok)). by eexists.
  - exists data. split_and!; [done..|congruence|]. auto.
Qed.

(** What a selected object was before the collection: unreferenced, in place,
    and released no later than the cutoff, or an orphan first seen now *)
Definition collectable (d : Disk) (now_ms cutoff : N) (x : Sha256Digest) (size : N) : Prop :=
  ¬ referenced d x ∧ (∃ meta, in_place x meta d ∧ size = om_byte_length meta) ∧
  ((∃ marker, dk_unreferenced d !! x = Some (Some marker) ∧ um_released_at_ms marker <= cutoff) ∨
   dk_unreferenced d !! x = None ∧ now_ms <= cutoff).

Lemma selected_collectable touched d0 d dr now_ms policy x size :
  gc_recovered sha256 touched d0 now_ms d dr → (x, size) ∈ gc_selected policy dr →
  collectable d now_ms (gp_unreferenced_before_ms policy) x size.
Proof.
  intros (HI & _ & Hso & Hob & Hex & Hor) Hin.
  apply gc_select_sound in Hin as (m & Hm%gc_listing_elem & He & ->).
  assert (is_Some (dk_unreferenced dr !! x)) as [Hx Hnr]%Hex by eauto. destruct Hx as [o Ho].
  rewrite (same_owners_referenced _ _ _ Hso) in Hnr. split; [done|].
  pose proof (safe_ok _ _ _ _ HI) as Hok.
  destruct (do_objects _ _ Hok _ _ Ho) as (meta & data & -> & _).
  destruct (marker_length sha256 dr x meta (Some m) Hok) as (? & [= <-] & _ & Hl); [by eexists|done|].
  split.
  - exists meta. split; [|done]. eexists. rewrite <-Hob. split; [exact Ho|done].
  - destruct (Hor x) as [He'|[[_ Hn]|(_ & Hn & meta' & _ & Hm')]].
    + left. exists m. split; [congruence|done].
    + congruence.
    + right. split; [done|]. rewrite Hm in Hm'. simplify_eq. done.
Qed.

Lemma gc_select_dry cutoff max_assets max_bytes dry dry' d :
  gc_selected (mkGcPolicy cutoff max_assets max_bytes dry) d =
  gc_selected (mkGcPolicy cutoff max_assets max_bytes dry') d.
Proof.
  unfold gc_selected. generalize 0 at 1 3. generalize 0.
  induction (gc_listing d) as [|[x m] l IH]; intros size assets; cbn; [done|]. by rewrite !IH.
Qed.

(** Without failures a collection recovers to one disk, whatever its policy,
    and then deletes its selection. *)
Lemma gc_runs now_ms s :
  disk_ok sha256 (fs_disk s) → quiet s →
  ∃ dr, gc_recovered sha256 (λ _, False) (fs_disk s) now_ms (fs_disk s) dr ∧
  ∀ policy, ∃ report s', gc sha256 now_ms policy s = (Ok report, s') ∧
    gc_result sha256 (λ _, False) (fs_disk s) policy dr report (fs_disk s').
Proof.
  intros Hok Hq.
  pose proof (spec_gc_recover sha256 (λ _, False) (fs_disk s) (λ d, d = fs_disk s) now_ms (λ _, False)
    ltac:(by intros ? ->; apply safe_refl) s eq_refl) as H.
  destruct ((check! recover_gc_trash sha256; recover_reference_state now_ms) s) as [[[]|e] s1] eqn:Hrun;
    [|by destruct H as [_ []]].
  destruct H as [(d & -> & Hrec) Hq1]. exists (fs_disk s1). split; [done|]. intros policy.
  pose proof Hrec as (HI & Htr & _ & _ & Hex & _).
  pose proof (spec_gc_rest sha256 (λ _, False) (fs_disk s) policy (fs_disk s1) (λ _, False) HI Htr Hex
    s1 eq_refl) as H.
  rewrite gc_split. unfold mbind, M_bind at 1. setoid_rewrite Hrun.
  destruct (gc_rest sha256 policy s1) as [[report|e] s2]; [|by destruct H as [_ []]; auto].
  exists report, s2. by destruct H.
Qed.

(** C29: a collection without failures deletes exactly the objects it selects.
    They are unreferenced and were released by the cutoff; nothing else
    changes owners or is deleted. The report states the selection and what was
    deleted, the selection respects both limits and leaves an eligible object
    only when a limit is reached, and a dry run reports the same candidates as
    a deletion and deletes nothing. *)
Theorem gc_collects_exactly w now_ms cutoff max_assets max_bytes :
  hash_bytes sha256 → world_reachable sha256 config w →
  dk_temporaries (fs_disk (w_store w)) = [] →
  ∃ selected, ∀ dry_run, ∃ report s,
    gc sha256 now_ms (mkGcPolicy cutoff max_assets max_bytes dry_run)
      (with_outcomes [] (w_store w)) = (Ok report, s) ∧
    (∀ x, dk_objects (fs_disk s) !! x =
      if bool_decide (x ∈ selected.*1) && negb dry_run then None
      else dk_objects (fs_disk (w_store w)) !! x) ∧
    dk_references (fs_disk s) = dk_references (fs_disk (w_store w)) ∧
    (∀ x size, (x, size) ∈ selected →
      collectable (fs_disk (w_store w)) now_ms cutoff x size) ∧
    gr_candidate_assets report = add_count selected 0 ∧
    gr_candidate_bytes report = add_sizes selected 0 ∧
    gr_deleted_assets report = (if dry_run then 0 else add_count selected 0) ∧
    gr_deleted_bytes report = (if dry_run then 0 else add_sizes selected 0) ∧
    (∀ maximum, max_assets = Some maximum → gr_candidate_assets report <= maximum) ∧
    (∀ maximum, max_bytes = Some maximum → gr_candidate_bytes report <= maximum) ∧
    (∀ x marker, dk_unreferenced (fs_disk s) !! x = Some (Some marker) →
      um_released_at_ms marker <= cutoff → dry_run = false →
      (∃ maximum, max_assets = Some maximum ∧ maximum <= gr_candidate_assets report) ∨
      (∃ maximum, max_bytes = Some maximum ∧
        maximum < u64_saturating_add (gr_candidate_bytes report) (um_byte_length marker))).
Proof.
  intros Hh Hr Ht. apply (reachable_ok sha256 config (hash_digest _ Hh)) in Hr as [Hok _ _].
  destruct (gc_runs now_ms (with_outcomes [] (w_store w)) Hok (conj eq_refl Ht)) as (dr & Hrec & Hgc).
  exists (gc_selected (mkGcPolicy cutoff max_assets max_bytes true) dr). intros dry.
  destruct (Hgc (mkGcPolicy cutoff max_assets max_bytes dry)) as (report & s & Hrun & (_ & -> & Hd)).
  cbn [gp_dry_run] in *.
  set (selected := gc_selected (mkGcPolicy cutoff max_assets max_bytes true) dr) in *.
  assert (gc_selected (mkGcPolicy cutoff max_assets max_bytes dry) dr = selected) as Hsel
    by apply gc_select_dry. rewrite Hsel in *.
  eexists _, s. split; [exact Hrun|].
  destruct (gc_count_report dry (mkGcReport (len (gc_listing dr)) 0 0 0 0 dry) selected)
    as (-> & -> & _ & _ & -> & ->). cbn [gr_candidate_assets gr_candidate_bytes gr_deleted_assets gr_deleted_bytes].
  pose proof Hrec as (_ & _ & (Href & _) & Hob & _).
  destruct (gc_select_limits (mkGcPolicy cutoff max_assets max_bytes true) (gc_listing dr) 0 0) as [Hla Hlb].
  split_and!; try done.
  - intros x. rewrite Hd, forget_objects, Hob. destruct dry; cbn [negb].
    + rewrite andb_false_r, bool_decide_false; [done|apply not_elem_of_nil].
    + by rewrite andb_true_r.
  - by rewrite Hd, (proj1 (forget_frame _ _)).
  - intros x size Hin. by apply (selected_collectable _ _ _ _ _ _ _ _ Hrec) in Hin.
  - intros maximum Hm. apply Hla; [done|lia].
  - intros maximum Hm. apply Hlb; [done|lia].
  - intros x marker Hx He ->. rewrite Hd, forget_unreferenced in Hx.
    case_bool_decide as Hin; [done|]. apply gc_listing_elem in Hx.
    destruct (gc_select_maximal (mkGcPolicy cutoff max_assets max_bytes true) (gc_listing dr) 0 0 x marker)
      as [?|?]; [unfold U64_MAX; lia..|done|done|done|done].
Qed.
End Properties.
