(* ===== verification/EvidenceFsContract.v ===== *)
(** * The filesystem evidence store meets the contract of its trait

    The laws Session cleanup needs of an evidence store, [EvidenceStoreLaws]
    of [Cleanup], for the filesystem store, under every outcome of its calls
    to the file system. *)

From S2P Require Import Prelude Protocol Evidence EvidenceFs EvidenceFsInv EvidenceFsIndex.
From S2P Require Import EvidenceFsSafe EvidenceFsOps EvidenceFsGc EvidenceFsOpen EvidenceFsProps.
From S2P Require Import Cleanup.

Local Open Scope N_scope.

(** ** What a Session owns *)

Definition marker_asset (x : Sha256Digest) (f : json_file ReferenceMarker) : option AssetRef :=
  marker ← f; Some (stored_asset_ref x (rm_media_type marker)).

Definition session_assets (entries : gmap Sha256Digest (json_file ReferenceMarker))
    : gset AssetRef :=
  list_to_set (omap (λ p, marker_asset p.1 p.2) (map_to_list entries)).

Definition session_evidence (s : FileEvidenceStore) (sid : SessionId) : gset AssetRef :=
  session_assets (markers_of sid (fs_disk s)).

Lemma elem_of_session_assets a entries :
  a ∈ session_assets entries ↔
  ∃ x marker, entries !! x = Some (Some marker) ∧ a = stored_asset_ref x (rm_media_type marker).
Proof.
  unfold session_assets. rewrite elem_of_list_to_set, list_elem_of_omap. split.
  - intros ([x f] & Hin & Ha). apply elem_of_map_to_list in Hin. cbn in Ha.
    destruct f as [m|]; cbn in Ha; simplify_eq. eauto.
  - intros (x & m & Hx & ->). exists (x, Some m). split; [by apply elem_of_map_to_list|done].
Qed.

(** ** What the operations leave alone *)

Section Frames.
Context {B : Type} (f : Disk → B).

Lemma frames_for_each {A} (g : A → FS ()) l : (∀ x, frames f (g x)) → frames f (for_each g l).
Proof. intros Hg. induction l as [|x l IH]; cbn; [apply frames_ret|]. apply frames_bind; auto. Qed.

Context (Hu : ∀ g d, f (set_unreferenced g d) = f d)
  (Ht : ∀ g d, f (set_temporaries g d) = f d).

Ltac solve_frames := repeat first
  [done|apply Hu|apply Ht|apply frames_read|apply frames_io|apply frames_for_each|
   apply frames_atomic_write_json|apply frames_ret|apply frames_lift|apply frames_gets|
   apply frames_set_index|apply frames_if|apply frames_bind|
   match goal with |- ∀ _, _ => intros ? end|case_match].

Lemma frames_recover_reference_state now : frames f (recover_reference_state now).
Proof.
  unfold recover_reference_state, sync_directory, recover_referenced, recover_orphan, recover_marker.
  solve_frames.
Qed.

Lemma frames_ensure_marker x n at_ms : frames f (ensure_unreferenced_marker x n at_ms).
Proof.
  unfold ensure_unreferenced_marker.
  solve_frames.
Qed.

Lemma frames_indexed_count x : frames f (indexed_reference_count x).
Proof.
  unfold indexed_reference_count.
  solve_frames.
Qed.

Lemma frames_mark_released l at_ms assets size : frames f (mark_released l at_ms assets size).
Proof.
  revert assets size. induction l as [|[x meta] l IH]; intros assets size; cbn [mark_released].
  { apply frames_ret. }
  apply frames_bind; [apply frames_indexed_count|]. intros count. apply frames_bind.
  - apply frames_if; [apply frames_ensure_marker|apply frames_ret].
  - intros []; apply IH.
Qed.

Lemma frames_rebuild : frames f rebuild_reference_index.
Proof. apply frames_bind; [apply frames_read|]. intros. apply frames_set_index. Qed.

Lemma frames_persist_release sid at_ms :
  (∀ g d, f (set_released g d) = f d) → frames f (persist_session_release sid at_ms).
Proof.
  intros Hr. unfold persist_session_release.
  solve_frames.
Qed.
End Frames.

(** ** The laws *)

Section Release.
Context (now : N) (sid : SessionId).

Lemma markers_of_references s d d' :
  dk_references d' !! s = dk_references d !! s → markers_of s d' = markers_of s d.
Proof. intros H. unfold markers_of. by rewrite H. Qed.

Lemma frames_release_elsewhere at_ms s :
  s ≠ sid → frames (markers_of s) (release_references_locked now sid at_ms).
Proof.
  intros Hne. unfold release_references_locked. apply frames_bind; [apply frames_gets|]. intros d.
  case_match.
  - apply frames_bind; [apply frames_read|]. intros released.
    apply frames_bind.
    { apply frames_bind; [apply frames_next_outcome|]. intros [|names].
      - apply frames_set_disk. intros d'. apply markers_of_references. cbn. by rewrite lookup_delete_ne.
      - apply frames_bind; [|intros; apply frames_throw]. apply frames_set_disk. intros d'.
        apply markers_of_references. cbn. by rewrite lookup_alter_ne. }
    intros []. apply frames_bind; [apply frames_set_index|]. intros [].
    apply frames_bind; [by apply frames_io|]. intros [].
    apply frames_bind; [by apply frames_mark_released|]. intros []. apply frames_ret.
  - apply frames_bind; [by apply frames_recover_reference_state|]. intros [].
    apply frames_bind; [apply frames_rebuild|]. intros []. apply frames_ret.
Qed.

Lemma release_references_drops at_ms s report s' :
  release_references_locked now sid at_ms s = (Ok report, s') →
  rr_session_id report = sid ∧ markers_of sid (fs_disk s') = ∅.
Proof.
  unfold release_references_locked. intros H. apply M_bind_ok in H as (d & s0 & Hg & H).
  unfold gets in Hg. injection Hg as <- <-.
  destruct (dk_references (fs_disk s) !! sid) as [entries|] eqn:Hs.
  - apply M_bind_ok in H as (released & s1 & _ & H). apply M_bind_ok in H as ([] & s2 & Hrm & H).
    apply M_bind_ok in H as ([] & s3 & Hix & H). apply M_bind_ok in H as ([] & s4 & Hsy & H).
    apply M_bind_ok in H as ([assets size] & s5 & Hmk & H). injection H as <- <-. split; [done|].
    pose proof (frames_mark_released (markers_of sid) ltac:(done) ltac:(done) released at_ms 0 0 s4) as Hf.
    rewrite Hmk in Hf. cbn in Hf. rewrite Hf.
    pose proof (frames_io (markers_of sid) "sync directory" id ltac:(done) s3) as Hf2.
    unfold sync_directory in Hsy. rewrite Hsy in Hf2. cbn in Hf2. rewrite Hf2.
    unfold modify in Hix. injection Hix as <-. cbn.
    unfold remove_session_references, remove_dir_all in Hrm.
    apply M_bind_ok in Hrm as ([|names] & s6 & _ & Hrm).
    + injection Hrm as <-. unfold markers_of. cbn. by rewrite lookup_delete_eq.
    + by apply M_bind_ok in Hrm as ([] & s7 & _ & ?).
  - apply M_bind_ok in H as ([] & s1 & Hrec & H). apply M_bind_ok in H as ([] & s2 & Hreb & H).
    injection H as <- <-. split; [done|].
    pose proof (frames_rebuild (markers_of sid) s1) as Hf. rewrite Hreb in Hf. cbn in Hf. rewrite Hf.
    pose proof (frames_recover_reference_state (markers_of sid) ltac:(done) ltac:(done) now s) as Hf2.
    rewrite Hrec in Hf2. cbn in Hf2. rewrite Hf2. unfold markers_of. by rewrite Hs.
Qed.
End Release.

(** The store with the clock [now] *)
#[export] Instance file_evidence_store (now : N) : EvidenceStore FileEvidenceStore := {
  Cleanup.release_session sid at_ms s := EvidenceFs.release_session now sid at_ms s;
  Cleanup.referenced_sessions s := fst (EvidenceFs.referenced_sessions s);
  retained := session_evidence;
}.

Section Laws.
Context (now : N).

Lemma session_objects_entries sid d entries objects :
  session_objects sid d entries = Ok objects →
  objects.*1 = btree_keys entries ∧
  ∀ x f, entries !! x = Some f → ∃ marker, f = Some marker.
Proof.
  unfold session_objects. rewrite list_markers_result. case_bool_decide; cbn; [done|].
  intros Hc%collect_ok. split.
  - induction Hc as [|x [y o] l k Hx _ IH]; [done|]. revert IH. unfold reference_object in Hx. inv_result.
    intros IH. cbn. by rewrite IH.
  - intros x f Hf. assert (x ∈ btree_keys entries) as Hin by (apply btree_keys_elem; eauto).
    destruct (Forall2_elem_l _ _ _ _ Hc Hin) as (y & _ & Hy).
    unfold reference_object, reference_marker in Hy. inv_result. simplify_eq.
    unfold read_digest_json in *. inv_result. eauto.
Qed.

Lemma session_count_evidence sid d n :
  session_reference_count sid d = Ok n → (0 < n ↔ session_assets (markers_of sid d) ≠ ∅).
Proof.
  unfold session_reference_count. destruct (dk_references d !! sid) as [entries|] eqn:Hs.
  - intros H. inv_result. assert (markers_of sid d = entries) as -> by (unfold markers_of; by rewrite Hs).
    rewrite saturating_count_clip.
    match goal with H : session_objects _ _ _ = Ok ?o |- _ =>
      destruct (session_objects_entries _ _ _ _ H) as [Hk Hv]; rename o into objects end.
    assert (len objects = N.of_nat (size entries)) as ->.
    { unfold len. by rewrite <-(proj1 (btree_keys_dom entries)), <-Hk, length_fmap. }
    split.
    + intros Hn He. destruct (map_choose entries) as (x & f & Hf).
      { intros ->. rewrite map_size_empty in Hn. unfold clip, U64_MAX in Hn. lia. }
      destruct (Hv x f Hf) as [m ->].
      assert (stored_asset_ref x (rm_media_type m) ∈ session_assets entries) as Hin
        by (apply elem_of_session_assets; eauto).
      set_solver.
    + intros Hne. apply set_choose_L in Hne as [a (x & m & Hx & _)%elem_of_session_assets].
      assert (size entries ≠ 0%nat) by (intros He%map_size_empty_inv; set_solver).
      unfold clip, U64_MAX. lia.
  - intros [= <-]. unfold markers_of. rewrite Hs. cbn. split; [lia|]. intros []. done.
Qed.

Lemma referenced_session_ids_evidence d sids sid :
  referenced_session_ids d = Ok sids → sid ∈ sids ↔ session_assets (markers_of sid d) ≠ ∅.
Proof.
  unfold referenced_session_ids, over_sessions. intros H. inv_result.
  rewrite merge_sort_Permutation, list_elem_of_fmap. setoid_rewrite list_elem_of_filter.
  match goal with H : collect _ _ = Ok ?l |- _ => apply collect_ok in H as Hc; rename l into counts end.
  assert (∀ s p, (s ∈ session_names (dk_references d)) → (entries ← ok_or (dk_references d !! s)
      (Io "inspect store directory" "not found"); (λ session_id _, count ← session_reference_count session_id d;
      Ok (session_id, count)) s entries) = Ok p → p.1 = s ∧ session_reference_count s d = Ok p.2) as Hp.
  { intros s p [m Hm]%session_names_elem Hr. rewrite Hm in Hr. cbn in Hr. inv_result. done. }
  split.
  - intros ([s n] & -> & Hn & Hin). destruct (Forall2_elem_r _ _ _ _ Hc Hin) as (s' & Hs' & Hr).
    destruct (Hp s' _ Hs' Hr) as [Hs Hcount]. cbn in Hs, Hcount, Hn |- *. subst s'.
    by apply (session_count_evidence _ _ _ Hcount).
  - intros Hne. assert (sid ∈ session_names (dk_references d)) as Hin.
    { apply session_names_elem. destruct (dk_references d !! sid) eqn:Hs; [eauto|].
      destruct Hne. unfold markers_of. by rewrite Hs. }
    destruct (Forall2_elem_l _ _ _ _ Hc Hin) as ([s n] & Hsn & Hr).
    destruct (Hp sid _ Hin Hr) as [Hs Hcount]. cbn in Hs, Hcount. subst s.
    exists (sid, n). split; [done|]. split; [|done]. cbn.
    by apply (session_count_evidence _ _ _ Hcount).
Qed.

Lemma release_session_elsewhere sid at_ms s sid' :
  sid' ≠ sid →
  session_evidence (snd (EvidenceFs.release_session now sid at_ms s)) sid' = session_evidence s sid'.
Proof.
  intros Hne. unfold session_evidence. f_equal. unfold EvidenceFs.release_session.
  apply (frames_bind (markers_of sid')).
  - by apply frames_persist_release.
  - intros at_ms'. by apply frames_release_elsewhere.
Qed.

Lemma release_session_ok sid at_ms s report s' :
  EvidenceFs.release_session now sid at_ms s = (Ok report, s') →
  rr_session_id report = sid ∧ session_evidence s' sid = ∅.
Proof.
  intros (at_ms' & s1 & _ & H)%M_bind_ok. apply release_references_drops in H as [Hid Hm].
  split; [done|]. unfold session_evidence. by rewrite Hm.
Qed.

Lemma referenced_sessions_ok s sids sid :
  fst (EvidenceFs.referenced_sessions s) = Ok sids → sid ∈ sids ↔ session_evidence s sid ≠ ∅.
Proof.
  unfold EvidenceFs.referenced_sessions. destruct (read _ _ s) as [r s'] eqn:Hr. cbn. intros ->.
  unfold read in Hr. apply M_bind_ok in Hr as ([] & s1 & Hio & Hr).
  pose proof (frames_io id "list session references" id ltac:(done) s) as Hf.
  rewrite Hio in Hf. cbn in Hf. unfold id in Hf. inv_run.
  unfold session_evidence. rewrite <-Hf. by apply referenced_session_ids_evidence.
Qed.

#[export] Instance file_evidence_store_laws :
  EvidenceStoreLaws FileEvidenceStore (H := file_evidence_store now).
Proof.
  split.
  - intros sid at_ms s sid' Hne. by apply release_session_elsewhere.
  - intros sid at_ms s report s' H. exact (proj2 (release_session_ok _ _ _ _ _ H)).
  - intros sid at_ms s report s' H. exact (proj1 (release_session_ok _ _ _ _ _ H)).
  - intros s sids sid H. by apply referenced_sessions_ok.
Qed.
End Laws.

Lemma session_evidence_mono s s' sid :
  markers_of sid (fs_disk s) ⊆ markers_of sid (fs_disk s') →
  session_evidence s sid ⊆ session_evidence s' sid.
Proof.
  intros Hm a (x & m & Hx & ->)%elem_of_session_assets. apply elem_of_session_assets. exists x, m.
  split; [|done]. by eapply lookup_weaken.
Qed.

(** C16: the filesystem store keeps the contract of its trait that Session
    cleanup relies on, under every outcome of its calls to the file system: a
    release touches no other Session, leaves the released Session nothing once
    it returns, reports that Session, and the Sessions listed as referenced
    are exactly those that own evidence. Storing evidence adds to what its
    Session owns and takes nothing from any Session. *)
Theorem file_store_keeps_contract sha256 config now w before staged content after os stored s :
  hash_bytes sha256 → world_reachable sha256 config w →
  w_pending w = before ++ (staged, content) :: after →
  put_publish sha256 config staged (with_outcomes os (w_store w)) = (Ok stored, s) →
  EvidenceStoreLaws FileEvidenceStore (H := file_evidence_store now) ∧
  asset_ref stored ∈ session_evidence s (sp_session_id staged) ∧
  ∀ sid, session_evidence (w_store w) sid ⊆ session_evidence s sid.
Proof.
  intros Hh Hr Hp Hrun. pose proof (hash_digest _ Hh) as Hd.
  apply (reachable_ok sha256 config Hd) in Hr. split; [apply file_evidence_store_laws|].
  destruct (publish_stores sha256 config w before staged content after os stored s Hr Hp Hrun)
    as (Hx & _ & [f Hm] & (o & meta & Ho & Hmeta & _ & Hmt) & Hgrow).
  pose proof (publish_preserves sha256 config Hd w os before staged content after Hr Hp) as [Hok _].
  rewrite Hrun in Hok. apply wo_disk in Hok. cbn in Hok. split.
  - destruct (reference_present sha256 _ Hok _ _ f Hm) as (m & o' & meta' & -> & Ho' & Hm' & _ & Hmt' & _).
    apply elem_of_session_assets. exists (sp_digest staged), m. split; [done|].
    unfold asset_ref. rewrite Hx. f_equal. congruence.
  - intros sid. apply session_evidence_mono, Hgrow.
Qed.
