(* ===== verification/EvidenceFsCounts.v ===== *)
(** * The reference index stays exact

    Without failures the incremental updates of the in-memory index agree with
    a scan of the disk, so that the reference counts the store returns are the
    numbers of Sessions that own an object. *)

From S2P Require Import Prelude Protocol Evidence EvidenceFs EvidenceFsInv EvidenceFsIndex.
From S2P Require Import EvidenceFsSafe EvidenceFsOps EvidenceFsGc EvidenceFsOpen EvidenceFsProps.
From S2P Require Import EvidenceFsContract.

Local Open Scope N_scope.

(** ** Owners *)

Definition owners (d : Disk) (x : Sha256Digest) : gset SessionId :=
  list_to_set (filter (λ sid, is_Some (markers_of sid d !! x)) (session_names (dk_references d))).

Lemma elem_of_owners d x sid : sid ∈ owners d x ↔ is_Some (markers_of sid d !! x).
Proof.
  unfold owners. rewrite elem_of_list_to_set, list_elem_of_filter, session_names_elem. split; [by intros [? _]|].
  intros Hs. split; [done|]. unfold markers_of in Hs.
  destruct (dk_references d !! sid); [eauto|by destruct Hs].
Qed.

Lemma refcount_owners d x : refcount d x = N.of_nat (size (owners d x)).
Proof.
  unfold refcount, owners, len. rewrite size_list_to_set; [done|].
  apply NoDup_filter, session_names_NoDup.
Qed.

Lemma owners_with_reference sid x meta at_ms d y :
  owners (with_reference sid x meta at_ms d) y =
  if bool_decide (y = x) then {[sid]} ∪ owners d y else owners d y.
Proof.
  apply set_eq. intros sid'. rewrite elem_of_owners. unfold with_reference. rewrite markers_of_insert.
  case_bool_decide as Hs; case_bool_decide as Hy; subst.
  - rewrite lookup_insert_eq. set_solver.
  - rewrite lookup_insert_ne by done. by rewrite elem_of_owners.
  - rewrite elem_of_union, elem_of_owners. set_solver.
  - by rewrite elem_of_owners.
Qed.

Lemma owners_removed sid d d' y :
  dk_references d' = delete sid (dk_references d) → owners d' y = owners d y ∖ {[sid]}.
Proof.
  intros Hr. apply set_eq. intros sid'. rewrite elem_of_difference, !elem_of_owners.
  unfold markers_of. rewrite Hr. destruct (decide (sid' = sid)) as [->|Hne].
  - rewrite lookup_delete_eq. cbn. rewrite lookup_empty. split; [by intros [? ?]|set_solver].
  - rewrite lookup_delete_ne by done. set_solver.
Qed.

(** Fewer references than a counter can hold *)
Definition countable_disk (d : Disk) : Prop :=
  (∀ x, refcount d x < U64_MAX) ∧ ∀ sid, session_size d sid < U64_MAX.

Lemma clip_small n : n <= U64_MAX → clip n = n.
Proof. unfold clip. lia. Qed.

(** ** Updating the index *)

Lemma count_entry_positive {K} `{Countable K} (m : gmap K N) k n :
  m !! k = positive n → n < U64_MAX →
  ∀ k', count_entry m k !! k' = if bool_decide (k' = k) then positive (n + 1) else m !! k'.
Proof.
  intros Hk Hn k'. unfold count_entry. case_bool_decide as Hk'; [subst|by rewrite lookup_insert_ne].
  rewrite lookup_insert_eq, Hk, positive_default. unfold positive, u64_saturating_add.
  destruct (N.eqb_spec (n + 1) 0); [lia|]. f_equal. lia.
Qed.

Lemma index_added d index sid x meta at_ms :
  index_exact d index → countable_disk d → markers_of sid d !! x = None →
  index_exact (with_reference sid x meta at_ms d)
    (mkReferenceIndex (count_entry (ix_by_digest index) x) (count_entry (ix_by_session index) sid)).
Proof.
  intros [Hd Hs] [Hcd Hcs] Hn. split; cbn.
  - intros y. rewrite (count_entry_positive _ _ (refcount d x));
      [|rewrite Hd, clip_small by (specialize (Hcd x); lia); done|done].
    rewrite (refcount_owners (with_reference _ _ _ _ _)), owners_with_reference.
    case_bool_decide as Hy; [subst y|by rewrite Hd, <-refcount_owners].
    rewrite size_union by (rewrite disjoint_singleton_l, elem_of_owners, Hn; by intros [? ?]).
    pose proof (refcount_owners d x). specialize (Hcd x).
    rewrite size_singleton, clip_small by lia. f_equal. lia.
  - intros sid'. rewrite (count_entry_positive _ _ (session_size d sid));
      [|rewrite Hs, clip_small by (specialize (Hcs sid); lia); done|done].
    unfold session_size at 2. unfold with_reference. rewrite markers_of_insert.
    case_bool_decide as Hy; case_bool_decide as Hy'; try congruence; [|by rewrite Hs].
    rewrite map_size_insert_None by done. rewrite clip_small; unfold session_size in *; [f_equal; lia|].
    specialize (Hcs sid). lia.
Qed.

Lemma remove_one_positive (m : gmap Sha256Digest N) x n y :
  m !! x = positive n →
  remove_one m x !! y = if bool_decide (y = x) then positive (n - 1) else m !! y.
Proof.
  intros Hx. unfold remove_one. rewrite Hx. unfold positive. destruct (N.eqb_spec n 0) as [->|Hn].
  - case_bool_decide; [by subst|done].
  - destruct (N.ltb_spec 1 n).
    + case_bool_decide; [subst; rewrite lookup_insert_eq; case_match eqn:H1; [apply N.eqb_eq in H1; lia|done]|].
      by rewrite lookup_insert_ne.
    + case_bool_decide; [subst; rewrite lookup_delete_eq; case_match eqn:H1; [done|apply N.eqb_neq in H1; lia]|].
      by rewrite lookup_delete_ne.
Qed.

Lemma remove_all_positive l (m : gmap Sha256Digest N) (c : Sha256Digest → N) :
  (∀ x, m !! x = positive (c x)) → NoDup l →
  ∀ y, foldl remove_one m l !! y = positive (c y - if bool_decide (y ∈ l) then 1 else 0).
Proof.
  revert m c. induction l as [|x l IH]; intros m c Hm Hnd y; cbn.
  { rewrite Hm, bool_decide_false by apply not_elem_of_nil. by rewrite N.sub_0_r. }
  apply NoDup_cons in Hnd as [Hx Hnd].
  rewrite (IH _ (λ y, c y - if bool_decide (y = x) then 1 else 0)); [|intros z|done].
  - destruct (decide (y = x)) as [->|Hne].
    + rewrite (bool_decide_true (x = x)), (bool_decide_false (x ∈ l)),
        (bool_decide_true (x ∈ x :: l)) by set_solver. f_equal. lia.
    + rewrite (bool_decide_false (y = x)) by done.
      rewrite (bool_decide_ext (y ∈ x :: l) (y ∈ l)) by set_solver. f_equal. lia.
  - rewrite (remove_one_positive _ _ _ _ (Hm x)). case_bool_decide; [by subst|].
    by rewrite N.sub_0_r.
Qed.

Lemma index_removed d d' index sid :
  index_exact d index → countable_disk d → dk_references d' = delete sid (dk_references d) →
  index_exact d' (mkReferenceIndex
    (foldl remove_one (ix_by_digest index) (btree_keys (markers_of sid d)))
    (delete sid (ix_by_session index))).
Proof.
  intros [Hd Hs] [Hcd Hcs] Hr. split; cbn.
  - intros y. rewrite (remove_all_positive _ _ (refcount d)); [| |apply btree_keys_NoDup].
    2:{ intros x. rewrite Hd, clip_small; [done|]. specialize (Hcd x). lia. }
    rewrite (refcount_owners d'), (owners_removed sid d d' y Hr). specialize (Hcd y).
    rewrite refcount_owners in Hcd |- *.
    assert (size (owners d y ∖ {[sid]}) ≤ size (owners d y))%nat by (apply subseteq_size; set_solver).
    rewrite clip_small by lia. f_equal. case_bool_decide as Hy; rewrite btree_keys_elem in Hy.
    + rewrite size_difference by (apply elem_of_owners in Hy; set_solver). rewrite size_singleton. lia.
    + assert (sid ∉ owners d y) by by rewrite elem_of_owners. rewrite difference_disjoint_L by set_solver. lia.
  - intros sid'. unfold session_size, markers_of. rewrite Hr. destruct (decide (sid' = sid)) as [->|Hne].
    + by rewrite !lookup_delete_eq.
    + rewrite !lookup_delete_ne by done. apply Hs.
Qed.

(** ** What leaves the references and their index alone *)

Definition references_view (s : FileEvidenceStore) :=
  (fs_index s, dk_references (fs_disk s)).

Definition still {A} (m : FS A) : Prop :=
  ∀ s, references_view (snd (m s)) = references_view s.

Lemma still_ret {A} (a : A) : still (mret a).
Proof. by intros s. Qed.

Lemma still_throw {A} e : still (throw e : FS A).
Proof. by intros s. Qed.

Lemma still_lift {A} (r : result EvidenceError A) : still (lift r).
Proof. by intros s. Qed.

Lemma still_gets {A} (g : FileEvidenceStore → A) : still (gets g).
Proof. by intros s. Qed.

Lemma still_set_disk g : (∀ d, dk_references (g d) = dk_references d) → still (modify (set_disk g)).
Proof. intros Hg s. unfold references_view. cbn. by rewrite Hg. Qed.

Lemma still_bind {A B} (m : FS A) (k : A → FS B) :
  still m → (∀ a, still (k a)) → still (m ≫= k).
Proof.
  intros Hm Hk s. unfold mbind, M_bind. specialize (Hm s). destruct (m s) as [[a|e] s1]; [|done].
  by rewrite (Hk a s1).
Qed.

Lemma still_next_outcome : still next_outcome.
Proof. intros s. unfold next_outcome. by destruct (fs_outcomes s). Qed.

Lemma still_on_error {A} (m : FS A) cleanup : still m → still cleanup → still (on_error cleanup m).
Proof.
  intros Hm Hc s. unfold on_error. specialize (Hm s). destruct (m s) as [[a|e] s1]; [done|].
  cbn in *. by rewrite Hc.
Qed.

Lemma still_ignore {A} (m : FS A) : still m → still (ignore_result m).
Proof. intros Hm s. apply Hm. Qed.

Lemma still_io op g : (∀ d, dk_references (g d) = dk_references d) → still (io op g).
Proof.
  intros Hg. apply still_bind; [apply still_next_outcome|].
  intros []; [by apply still_set_disk|apply still_throw].
Qed.

Lemma still_read {A} op (g : Disk → result EvidenceError A) : still (read op g).
Proof.
  apply still_bind; [by apply still_io|]. intros []. apply still_bind; [apply still_gets|].
  intros. apply still_lift.
Qed.

Lemma still_remove_dir_all op whole part :
  (∀ d, dk_references (whole d) = dk_references d) →
  (∀ names d, dk_references (part names d) = dk_references d) →
  still (remove_dir_all op whole part).
Proof.
  intros Hw Hp. apply still_bind; [apply still_next_outcome|].
  intros []; [by apply still_set_disk|]. apply still_bind; [by apply still_set_disk|].
  intros. apply still_throw.
Qed.

Lemma still_for_each {A} (g : A → FS ()) l : (∀ x, still (g x)) → still (for_each g l).
Proof. intros Hg. induction l as [|x l IH]; cbn; [apply still_ret|]. apply still_bind; auto. Qed.

Lemma still_atomic_write_json dir op present write :
  (∀ d, dk_references (write d) = dk_references d) →
  still (atomic_write_json dir op present write).
Proof.
  intros Hw. apply still_bind; [apply still_gets|]. intros d. case_match; [apply still_ret|].
  repeat (apply still_bind; [|intros _]); [by apply still_io| |by apply still_io].
  apply still_on_error.
  - apply still_bind; [by apply still_io|]. intros _. by apply still_io.
  - apply still_bind; [apply still_next_outcome|].
    intros []; [apply still_ret|by apply still_set_disk].
Qed.

Ltac solve_still := repeat first
  [done|apply still_read|apply still_io|apply still_for_each|apply still_remove_dir_all|
   apply still_atomic_write_json|apply still_ret|apply still_lift|apply still_throw|apply still_gets|
   match goal with
   | |- still (on_error _ _) => apply still_on_error
   | |- still (ignore_result _) => apply still_ignore
   | |- ∀ _, _ => intros ?
   end|apply still_bind|case_match].

Lemma still_indexed_count x : still (indexed_reference_count x).
Proof. unfold indexed_reference_count. solve_still. Qed.

Lemma still_publish_object sha256 staged : still (publish_object sha256 staged).
Proof.
  unfold publish_object. cbv zeta. apply still_bind; [apply still_indexed_count|]. intros count.
  unfold recover_gc_trash_entry, remove_trash, sync_directory, remove_unreferenced_marker_if_present.
  solve_still.
Qed.

Lemma still_drop_staging path : still (drop_staging path).
Proof. unfold drop_staging. solve_still. Qed.

Lemma still_ensure_marker x n at_ms : still (ensure_unreferenced_marker x n at_ms).
Proof. unfold ensure_unreferenced_marker. solve_still. Qed.

Lemma still_mark_released l at_ms assets size : still (mark_released l at_ms assets size).
Proof.
  revert assets size. induction l as [|[x meta] l IH]; intros assets size; cbn [mark_released].
  { apply still_ret. }
  apply still_bind; [apply still_indexed_count|]. intros count. apply still_bind.
  - case_match; [apply still_ensure_marker|apply still_ret].
  - intros []; apply IH.
Qed.

Lemma still_persist_release sid at_ms : still (persist_session_release sid at_ms).
Proof. unfold persist_session_release. solve_still. Qed.

Lemma still_ensure_open sid : still (ensure_session_open sid).
Proof. unfold ensure_session_open. solve_still. Qed.

Lemma still_run {A} (m : FS A) s r s' : still m → m s = (r, s') → references_view s' = references_view s.
Proof. intros Hm Hr. specialize (Hm s). by rewrite Hr in Hm. Qed.

(** ** The operations *)

Lemma index_exact_ext d d' index :
  dk_references d' = dk_references d → index_exact d index → index_exact d' index.
Proof.
  intros Hr. unfold index_exact, refcount, session_size, markers_of. by rewrite Hr.
Qed.

Lemma refcount_ext d d' x : dk_references d' = dk_references d → refcount d' x = refcount d x.
Proof. intros Hr. unfold refcount, markers_of. by rewrite Hr. Qed.

Lemma io_returns op g s s' :
  io op g s = (Ok (), s') → fs_index s' = fs_index s ∧ fs_disk s' = g (fs_disk s).
Proof.
  unfold io, next_outcome, mbind, M_bind. destruct (fs_outcomes s) as [|[|names] os]; cbn;
    [intros [= <-]..|done]; done.
Qed.

Lemma atomic_write_returns dir op present write s s' :
  atomic_write_json dir op present write s = (Ok (), s') → present (fs_disk s) = false →
  fs_index s' = fs_index s ∧ fs_disk s' = write (fs_disk s).
Proof.
  intros H Hp. unfold atomic_write_json in H. apply M_bind_ok in H as (d & s0 & Hg & H).
  injection Hg as <- <-. rewrite Hp in H. apply M_bind_ok in H as ([] & s1 & [Hi1 Hd1]%io_returns & H).
  apply M_bind_ok in H as ([] & s2 & Hw & [Hi3 Hd3]%io_returns). unfold on_error in Hw.
  case_match eqn:Hm. case_match; [|done]. simplify_eq.
  apply M_bind_ok in Hm as ([] & s3 & [Hi2 Hd2]%io_returns & [Hi4 Hd4]%io_returns).
  unfold id in *. split; congruence.
Qed.

Lemma session_directory_returns sid (present : bool) s s' :
  present = exists_at (dk_references (fs_disk s)) sid →
  (if present then mret ()
   else check! io "create store directory" (set_references <[sid := ∅]>); sync_directory) s = (Ok (), s') →
  fs_index s' = fs_index s ∧ markers_of sid (fs_disk s') = markers_of sid (fs_disk s) ∧
  ∀ m, <[sid := m]> (dk_references (fs_disk s')) = <[sid := m]> (dk_references (fs_disk s)).
Proof.
  intros Hp H. destruct present; [by injection H as <-|].
  apply M_bind_ok in H as ([] & s1 & [Hi1 Hd1]%io_returns & [Hi2 Hd2]%io_returns).
  unfold id in Hd2. rewrite Hd2, Hd1. split; [congruence|]. unfold markers_of. cbn.
  rewrite lookup_insert_eq. unfold exists_at in Hp. symmetry in Hp.
  apply bool_decide_eq_false, eq_None_not_Some in Hp. rewrite Hp. split; [done|].
  intros m. by rewrite insert_insert_eq.
Qed.

Lemma still_session_count sid : still (indexed_session_reference_count sid).
Proof. unfold indexed_session_reference_count. solve_still. Qed.

Lemma still_remove_marker x : still (remove_unreferenced_marker_if_present x).
Proof. unfold remove_unreferenced_marker_if_present, sync_directory. solve_still. Qed.

Definition reference_recorded (sid : SessionId) (x : Sha256Digest) (added : bool)
    (s s' : FileEvidenceStore) : Prop :=
  if added then
    markers_of sid (fs_disk s) !! x = None ∧
    fs_index s' = index_reference_added sid x (fs_index s) ∧
    ∃ meta at_ms, dk_references (fs_disk s') = dk_references (with_reference sid x meta at_ms (fs_disk s))
  else is_Some (markers_of sid (fs_disk s) !! x) ∧ references_view s' = references_view s.

Lemma view_eq s s' :
  references_view s' = references_view s →
  fs_index s' = fs_index s ∧ dk_references (fs_disk s') = dk_references (fs_disk s) ∧
  ∀ sid, markers_of sid (fs_disk s') = markers_of sid (fs_disk s).
Proof. intros [= Hi Hr]. split_and!; [done..|]. intros sid. unfold markers_of. by rewrite Hr. Qed.

Lemma add_reference_returns config sid x meta at_ms added s s' :
  add_reference config sid x (om_media_type meta) at_ms s = (Ok added, s') →
  reference_recorded sid x added s s'.
Proof.
  intros ([] & s0 & Hs0%still_run & H)%M_bind_ok; [|apply still_ensure_open].
  apply view_eq in Hs0 as (Hi0 & Hr0 & Hm0). apply M_bind_ok in H as (d & s1 & Hg & H).
  injection Hg as <- <-. rewrite Hm0 in H. destruct (markers_of sid (fs_disk s) !! x) as [f|] eqn:Hx.
  - assert (still (marker ← read "read session reference" (λ _, read_digest_json x "session reference" f);
      check! lift (validate_reference_marker marker sid x (om_media_type meta)); mret false)) as Hst
      by solve_still.
    pose proof (still_run _ _ _ _ Hst H) as Hv. revert Hv. inv_run. intros Hv. split; [done|].
    unfold references_view in *. congruence.
  - apply M_bind_ok in H as (existing & s2 & Hs2%still_run & H);
      [|case_match; [apply still_session_count|apply still_ret]].
    apply M_bind_ok in H as ([] & s3 & Hs3%still_run & H); [|solve_still].
    apply M_bind_ok in H as ([] & s4 & Hs4%still_run & H); [|apply still_remove_marker].
    assert (references_view s4 = references_view s) as (Hi4 & Hr4 & Hm4)%view_eq
      by (unfold references_view in *; congruence).
    apply M_bind_ok in H as ([] & s5 & (Hi5 & Hm5 & Hr5)%session_directory_returns & H); [|congruence].
    apply M_bind_ok in H as ([] & s6 & [Hi6 Hd6]%atomic_write_returns & H).
    2:{ unfold exists_at. rewrite Hm5, Hm4, Hx. done. }
    inv_run. cbn. split; [done|]. split; [congruence|]. exists meta, at_ms. rewrite Hd6. cbn.
    by rewrite Hr5, Hr4, Hm5, Hm4.
Qed.

Lemma countable_ext d d' :
  dk_references d' = dk_references d → countable_disk d → countable_disk d'.
Proof. intros Hr. unfold countable_disk, refcount, session_size, markers_of. by rewrite Hr. Qed.

Lemma current_ext s s' :
  references_view s' = references_view s → index_current s → index_current s'.
Proof.
  intros (Hi & Hr & _)%view_eq (index & Hx & He). exists index. split; [congruence|].
  by eapply index_exact_ext.
Qed.

Lemma indexed_count_exact s x :
  index_current s → countable_disk (fs_disk s) →
  indexed_reference_count x s = (Ok (refcount (fs_disk s) x), s).
Proof.
  intros (index & Hi & [Hd _]) [Hc _]. unfold indexed_reference_count, mbind, M_bind, gets. rewrite Hi.
  cbn. rewrite Hd, positive_default, clip_small; [done|]. specialize (Hc x). lia.
Qed.

Lemma recorded_exact sid x added s s' :
  reference_recorded sid x added s s' → index_current s → countable_disk (fs_disk s) →
  index_current s' ∧
  refcount (fs_disk s') x = u64_saturating_add (refcount (fs_disk s) x) (if added then 1 else 0).
Proof.
  intros H (index & Hi & He) Hc. pose proof (proj1 Hc x) as Hx. unfold u64_saturating_add.
  unfold reference_recorded in H. destruct added.
  - destruct H as (Hn & Hi' & meta & at_ms & Hr). split.
    + eexists. split; [rewrite Hi', Hi; done|]. by eapply index_exact_ext, index_added.
    + rewrite (refcount_ext _ _ _ Hr), refcount_owners, owners_with_reference, bool_decide_true by done.
      rewrite size_union by (rewrite disjoint_singleton_l, elem_of_owners, Hn; by intros [? ?]).
      rewrite size_singleton. rewrite refcount_owners in Hx |- *. lia.
  - destruct H as [_ Hv]. split; [by eapply current_ext; [|eexists]|].
    apply view_eq in Hv as (_ & Hr & _). rewrite (refcount_ext _ _ _ Hr). lia.
Qed.

Lemma on_error_returns {A} cleanup (m : FS A) s a s' :
  on_error cleanup m s = (Ok a, s') → m s = (Ok a, s').
Proof. unfold on_error. by destruct (m s) as [[?|?] ?]. Qed.

(** Counting, then recording a reference *)
Lemma counted_reference config sid x meta at_ms before added s s1 s' :
  index_current s → countable_disk (fs_disk s) →
  indexed_reference_count x s = (Ok before, s1) →
  add_reference config sid x (om_media_type meta) at_ms s1 = (Ok added, s') →
  index_current s' ∧
  u64_saturating_add before (if added then 1 else 0) = refcount (fs_disk s') x.
Proof.
  intros Hi Hc. rewrite indexed_count_exact by done. intros [= <- <-] Hadd%add_reference_returns.
  destruct (recorded_exact _ _ _ _ _ Hadd Hi Hc) as [? ->]. done.
Qed.

Lemma metadata_new_ok digest mt n at_ms count metadata :
  evidence_metadata_new digest mt n at_ms count = Ok metadata →
  em_digest metadata = digest ∧ em_reference_count metadata = count.
Proof. unfold evidence_metadata_new. intros H. by inv_result. Qed.

Lemma publish_counts sha256 config staged s stored s' :
  index_current s → countable_disk (fs_disk s) →
  put_publish sha256 config staged s = (Ok stored, s') →
  index_current s' ∧ em_reference_count (sv_metadata stored) =
    refcount (fs_disk s') (em_digest (sv_metadata stored)).
Proof.
  intros Hi Hc H. unfold put_publish in H. cbv zeta in H.
  apply M_bind_ok in H as ([meta dedup] & s1 & Hs1%on_error_returns%still_run & H);
    [|apply still_publish_object].
  apply M_bind_ok in H as ([] & s2 & Hs2%still_run & H);
    [|destruct dedup; [apply still_drop_staging|unfold sync_directory; solve_still]].
  assert (references_view s2 = references_view s) as Hv by congruence.
  apply (current_ext s s2 Hv) in Hi. apply view_eq in Hv as (_ & Hr & _).
  apply (countable_ext _ (fs_disk s2) Hr) in Hc.
  apply M_bind_ok in H as (before & s3 & Hb%on_error_returns & H).
  apply M_bind_ok in H as (added & s4 & Ha%on_error_returns & H).
  apply M_bind_ok in H as (md & s5 & Hmd & H). unfold lift in Hmd. simplify_eq.
  destruct (metadata_new_ok _ _ _ _ _ _ ltac:(eassumption)) as [Hdig Hcnt].
  injection H as <- <-. cbn. rewrite Hdig, Hcnt.
  exact (counted_reference _ _ _ _ _ _ _ _ _ _ Hi Hc Hb Ha).
Qed.

Lemma attach_counts sha256 config now sid asset s stored s' :
  index_current s → countable_disk (fs_disk s) →
  attach sha256 config now sid asset s = (Ok stored, s') →
  index_current s' ∧ em_reference_count (sv_metadata stored) =
    refcount (fs_disk s') (em_digest (sv_metadata stored)).
Proof.
  intros Hi Hc H. unfold attach in H.
  apply M_bind_ok in H as (x & s1 & Hs1%still_run & H); [|apply still_lift].
  apply M_bind_ok in H as ([] & s2 & Hs2%still_run & H); [|apply still_ensure_open].
  apply M_bind_ok in H as ([meta data] & s3 & Hs3%still_run & H); [|apply still_read].
  apply M_bind_ok in H as ([] & s4 & Hs4%still_run & H); [|solve_still].
  assert (references_view s4 = references_view s) as Hv by congruence.
  apply (current_ext s s4 Hv) in Hi. apply view_eq in Hv as (_ & Hr & _).
  apply (countable_ext _ (fs_disk s4) Hr) in Hc.
  apply M_bind_ok in H as (before & s5 & Hb & H).
  apply M_bind_ok in H as (added & s6 & Ha & H).
  apply M_bind_ok in H as (md & s7 & Hmd & H). unfold lift in Hmd. simplify_eq.
  destruct (metadata_new_ok _ _ _ _ _ _ ltac:(eassumption)) as [Hdig Hcnt].
  injection H as <- <-. cbn. rewrite Hdig, Hcnt.
  exact (counted_reference _ _ _ _ _ _ _ _ _ _ Hi Hc Hb Ha).
Qed.

(** ** Releasing a Session *)

Definition total_bytes (l : list (Sha256Digest * ObjectMetadata)) : N :=
  foldr (λ p n, om_byte_length p.2 + n) 0 l.

(** The objects of a list with so many owners and no marker *)
Definition unmarked (n : N) (d : Disk) (l : list (Sha256Digest * ObjectMetadata)) :=
  filter (λ p, refcount d p.1 = n ∧ dk_unreferenced d !! p.1 = None) l.

Lemma unmarked_ext n n' d d' l :
  (∀ p, p ∈ l → refcount d p.1 = n ↔ refcount d' p.1 = n') →
  (∀ p, p ∈ l → dk_unreferenced d' !! p.1 = dk_unreferenced d !! p.1) →
  unmarked n d l = unmarked n' d' l.
Proof.
  intros Hc Hu. unfold unmarked. induction l as [|p l IH]; [done|].
  rewrite !filter_cons, (Hu p) by set_solver. rewrite IH by set_solver.
  specialize (Hc p ltac:(set_solver)). repeat case_decide; tauto.
Qed.

Lemma ensure_marker_returns x n at_ms s created s' :
  ensure_unreferenced_marker x n at_ms s = (Ok created, s') →
  created = bool_decide (dk_unreferenced (fs_disk s) !! x = None) ∧
  ∀ y, y ≠ x → dk_unreferenced (fs_disk s') !! y = dk_unreferenced (fs_disk s) !! y.
Proof.
  intros (d & s0 & Hg & H)%M_bind_ok. injection Hg as <- <-.
  destruct (dk_unreferenced (fs_disk s) !! x) as [f|] eqn:Hx.
  - apply M_bind_ok in H as (marker & s1 & Hr & H).
    pose proof (frames_read id "read GC marker" (λ _, read_digest_json x "GC marker" f) s) as Hf.
    rewrite Hr in Hf. cbn in Hf. unfold id in Hf. inv_run. by rewrite Hf.
  - apply M_bind_ok in H as ([] & s1 & [_ Hd]%atomic_write_returns & H).
    2:{ unfold exists_at. by rewrite Hx. }
    injection H as <- <-. split; [by rewrite bool_decide_true|]. intros y Hy. rewrite Hd. cbn.
    by rewrite lookup_insert_ne.
Qed.

Lemma mark_released_returns l at_ms assets size s r s' :
  index_current s → countable_disk (fs_disk s) → NoDup l.*1 →
  assets <= U64_MAX → size <= U64_MAX →
  mark_released l at_ms assets size s = (Ok r, s') →
  r = (clip (assets + len (unmarked 0 (fs_disk s) l)), clip (size + total_bytes (unmarked 0 (fs_disk s) l))).
Proof.
  intros Hi Hc Hnd. revert assets size s Hi Hc.
  induction l as [|[x meta] l IH]; intros assets size s Hi Hc Ha Hs H; cbn [mark_released] in H.
  { injection H as <- <-. unfold clip, unmarked, len. rewrite filter_nil. cbn [length total_bytes foldr].
    apply (f_equal2 pair); lia. }
  apply NoDup_cons in Hnd as [Hx Hnd]. cbn in Hx.
  apply M_bind_ok in H as (count & s1 & Hcount & H). rewrite indexed_count_exact in Hcount by done.
  injection Hcount as <- <-. apply M_bind_ok in H as (created & s2 & Hcr & H).
  assert (created = bool_decide (refcount (fs_disk s) x = 0 ∧ dk_unreferenced (fs_disk s) !! x = None) ∧
    references_view s2 = references_view s ∧
    ∀ y, y ≠ x → dk_unreferenced (fs_disk s2) !! y = dk_unreferenced (fs_disk s) !! y) as (-> & Hv & Hu).
  { destruct (N.eqb_spec (refcount (fs_disk s) x) 0) as [H0|H0].
    - pose proof (still_run _ _ _ _ (still_ensure_marker _ _ _) Hcr) as Hv.
      apply ensure_marker_returns in Hcr as [-> Hu]. split; [|done]. apply bool_decide_ext. tauto.
    - injection Hcr as <- <-. split; [|done]. symmetry. apply bool_decide_false. tauto. }
  assert (unmarked 0 (fs_disk s) l = unmarked 0 (fs_disk s2) l) as Hl.
  { apply unmarked_ext; intros p Hp.
    - by rewrite (refcount_ext (fs_disk s) (fs_disk s2)) by by apply view_eq.
    - apply Hu. intros Hp1. apply Hx. apply list_elem_of_fmap. by exists p. }
  unfold unmarked at 1 2. rewrite filter_cons. cbn [fst]. fold (unmarked 0 (fs_disk s) l). rewrite Hl.
  apply (current_ext s s2 Hv) in Hi. apply view_eq in Hv as (_ & Hr & _).
  apply (countable_ext _ (fs_disk s2) Hr) in Hc. case_bool_decide as Hd;
    [rewrite decide_True by done|rewrite decide_False by done].
  - rewrite (IH Hnd _ _ _ Hi Hc (N.le_min_r _ _) (N.le_min_r _ _) H).
    unfold clip, u64_saturating_add, len. cbn [length total_bytes foldr snd].
    fold (total_bytes (unmarked 0 (fs_disk s2) l)). apply (f_equal2 pair); lia.
  - exact (IH Hnd _ _ _ Hi Hc Ha Hs H).
Qed.

Section Release.
Context (sha256 : list N → list N).

(** What a release reports of the disk it started from *)
Definition release_reported (sid : SessionId) (d : Disk) (report : ReleaseReport) : Prop :=
  ∃ objects, objects.*1 = btree_keys (markers_of sid d) ∧
    (∀ x meta, (x, meta) ∈ objects → in_place x meta d) ∧
    report = mkReleaseReport sid (len objects) (clip (len (unmarked 1 d objects)))
      (clip (total_bytes (unmarked 1 d objects))).

Lemma read_returns {A} op (f : Disk → result EvidenceError A) s a s' :
  read op f s = (Ok a, s') → fs_index s' = fs_index s ∧ fs_disk s' = fs_disk s ∧ f (fs_disk s) = Ok a.
Proof.
  unfold read. intros ([] & s1 & [Hi Hd]%io_returns & H)%M_bind_ok. unfold id in Hd. inv_run.
  rewrite Hd in *. done.
Qed.

Lemma remove_references_returns sid s s' :
  remove_session_references sid s = (Ok (), s') →
  fs_index s' = fs_index s ∧ dk_references (fs_disk s') = delete sid (dk_references (fs_disk s)) ∧
  dk_unreferenced (fs_disk s') = dk_unreferenced (fs_disk s).
Proof.
  unfold remove_session_references, remove_dir_all, next_outcome, mbind, M_bind.
  destruct (fs_outcomes s) as [|[|names] os]; cbn; [intros [= <-]..|done]; done.
Qed.

Lemma countable_removed sid d d' :
  dk_references d' = delete sid (dk_references d) → countable_disk d → countable_disk d'.
Proof.
  intros Hr [Hc Hs]. split.
  - intros x. rewrite refcount_owners, (owners_removed sid d d' x Hr).
    specialize (Hc x). rewrite refcount_owners in Hc.
    assert (size (owners d x ∖ {[sid]}) ≤ size (owners d x))%nat by (apply subseteq_size; set_solver). lia.
  - intros sid'. unfold session_size, markers_of. rewrite Hr. destruct (decide (sid' = sid)) as [->|Hne].
    + rewrite lookup_delete_eq. cbn. rewrite map_size_empty. unfold U64_MAX. lia.
    + rewrite lookup_delete_ne by done. apply Hs.
Qed.

Lemma sole_owner sid d d' x :
  dk_references d' = delete sid (dk_references d) → is_Some (markers_of sid d !! x) →
  refcount d x = 1 ↔ refcount d' x = 0.
Proof.
  intros Hr Hx%elem_of_owners. rewrite !refcount_owners, (owners_removed sid d d' x Hr).
  rewrite size_difference by set_solver. rewrite size_singleton.
  assert (size (owners d x) ≠ 0%nat); [|lia]. intros H%size_empty_inv. set_solver.
Qed.

Lemma release_references_counts now sid at_ms s report s' :
  disk_ok sha256 (fs_disk s) → disk_ok sha256 (fs_disk s') →
  index_current s → countable_disk (fs_disk s) →
  release_references_locked now sid at_ms s = (Ok report, s') →
  index_current s' ∧ release_reported sid (fs_disk s) report.
Proof.
  intros Hok Hok' (index & Hi & He) Hc H. apply M_bind_ok in H as (d & s0 & Hg & H).
  injection Hg as <- <-. destruct (dk_references (fs_disk s) !! sid) as [entries|] eqn:Hs.
  - assert (markers_of sid (fs_disk s) = entries) as Hmk by (unfold markers_of; by rewrite Hs).
    apply M_bind_ok in H as (objects & s1 & (Hi1 & Hd1 & Hobj)%read_returns & H).
    pose proof (session_objects_result sha256 _ Hok sid) as Hres. rewrite Hmk, Hobj in Hres.
    destruct Hres as [Hkeys Hin]. rewrite <-Hmk in Hkeys.
    apply M_bind_ok in H as ([] & s2 & (Hi2 & Hr2 & Hu2)%remove_references_returns & H).
    apply M_bind_ok in H as ([] & s3 & Hix & H). injection Hix as <-.
    apply M_bind_ok in H as ([] & s4 & [Hi4 Hd4]%io_returns & H). unfold id in Hd4.
    cbn in Hi4, Hd4. rewrite Hd1 in Hr2, Hu2. rewrite Hi2, Hi1, Hi, Hkeys in Hi4. cbn in Hi4.
    assert (index_current s4) as Hcur.
    { eexists. split; [exact Hi4|]. apply index_removed; [done..|congruence]. }
    assert (countable_disk (fs_disk s4)) as Hc4 by (apply (countable_removed sid (fs_disk s)); congruence).
    apply M_bind_ok in H as ([assets size] & s5 & Hmark & H). injection H as <- <-.
    pose proof (still_run _ _ _ _ (still_mark_released _ _ _ _) Hmark) as Hv5.
    split; [by eapply current_ext|]. exists objects. split; [done|]. split; [done|].
    apply mark_released_returns in Hmark; [|done|done|rewrite Hkeys; apply btree_keys_NoDup|
      unfold U64_MAX; lia..].
    rewrite (unmarked_ext 1 0 (fs_disk s) (fs_disk s4) objects); [by injection Hmark as -> ->|..].
    + intros p Hp. apply (sole_owner sid); [congruence|]. rewrite <-btree_keys_elem, <-Hkeys.
      apply list_elem_of_fmap. eauto.
    + intros p _. congruence.
  - apply M_bind_ok in H as ([] & s1 & _ & H). apply M_bind_ok in H as ([] & s2 & Hreb & H).
    injection H as <- <-. split; [by eapply rebuilds_index|]. exists [].
    split; [|by split; [intros ? ? ?%not_elem_of_nil|]]. unfold markers_of. by rewrite Hs.
Qed.

Lemma persist_release_frames sid at_ms :
  frames (λ d, (dk_references d, dk_unreferenced d, dk_objects d)) (persist_session_release sid at_ms).
Proof.
  unfold persist_session_release.
  repeat first [progress eauto with frames|apply frames_bind|
    match goal with |- ∀ _, _ => intros ? end|case_match].
Qed.

Lemma release_session_counts now sid at_ms s report s' :
  disk_ok sha256 (fs_disk s) → disk_ok sha256 (fs_disk s') →
  index_current s → countable_disk (fs_disk s) →
  release_session now sid at_ms s = (Ok report, s') →
  index_current s' ∧ release_reported sid (fs_disk s) report.
Proof.
  intros Hok Hok' Hi Hc (at_ms' & s1 & Hp & H)%M_bind_ok.
  pose proof (still_run _ _ _ _ (still_persist_release _ _) Hp) as Hv.
  pose proof (persist_release_frames sid at_ms s) as Hf. rewrite Hp in Hf. injection Hf as Hr Hu Ho.
  pose proof (spec_persist_release sha256 (λ _, True) (fs_disk s) (λ d, d = fs_disk s) sid at_ms
    (λ _, True) ltac:(by intros ? ->; apply safe_refl) s eq_refl) as Hs. rewrite Hp in Hs.
  destruct Hs as [[[Hok1 _] _] _].
  destruct (release_references_counts now sid at_ms' s1 report s' Hok1 Hok') as [Hcur Hrep]; [..|done|].
  { by eapply current_ext. }
  { by eapply countable_ext. }
  split; [done|]. destruct Hrep as (objects & Hk & Hin & ->). exists objects.
  assert (markers_of sid (fs_disk s) = markers_of sid (fs_disk s1)) as Hm by (unfold markers_of; by rewrite Hr).
  split; [by rewrite Hm|]. split.
  - intros x meta Hx. unfold in_place. rewrite <-Ho. by apply Hin.
  - by rewrite (unmarked_ext 1 1 (fs_disk s1) (fs_disk s))
      by (intros p _; rewrite ?Hu, ?(refcount_ext (fs_disk s) (fs_disk s1)); done).
Qed.

Lemma still_gc_loop policy markers report : still (gc_loop sha256 policy markers report).
Proof.
  revert report. induction markers as [|[x m] markers IH]; intros report; cbn [gc_loop].
  { apply still_ret. }
  unfold gc_delete, remove_trash, sync_directory. solve_still.
Qed.

Lemma gc_counts now policy s report s' :
  disk_ok sha256 (fs_disk s) → gc sha256 now policy s = (Ok report, s') → index_current s'.
Proof.
  intros Hok. rewrite gc_split. intros ([] & s1 & Hrec & H)%M_bind_ok.
  pose proof (spec_gc_recover sha256 (λ _, True) (fs_disk s) (λ d, d = fs_disk s) now
    (λ _, True) ltac:(by intros ? ->; apply safe_refl) s eq_refl) as Hs. rewrite Hrec in Hs.
  destruct Hs as [(d & _ & ([Hok1 _] & _)) _]. unfold gc_rest in H.
  apply M_bind_ok in H as ([] & s2 & Hreb & H).
  pose proof (frames_rebuild id s1) as Hf. rewrite Hreb in Hf. cbn in Hf. unfold id in Hf.
  assert (index_current s2) as Hcur by (eapply rebuilds_index; [done|by rewrite Hf]).
  apply M_bind_ok in H as (x & s3 & Hs3%still_run & H);
    [|unfold indexed_referenced_digests; solve_still].
  apply M_bind_ok in H as (markers & s4 & Hs4%still_run & H); [|apply still_read].
  apply still_run in H; [|apply still_gc_loop].
  eapply current_ext; [|exact Hcur]. congruence.
Qed.
End Release.

Lemma still_put_stage sha256 config path at_ms request input :
  still (put_stage sha256 config path at_ms request input).
Proof.
  assert (∀ size hashed, still (stage_content config path input size hashed)) as Hcontent.
  { induction input as [|chunk input IH]; intros size hashed; cbn [stage_content].
    - solve_still.
    - destruct chunk; [solve_still|]. apply still_bind; [by apply still_io|]. intros _.
      apply still_bind; [apply still_lift|]. intros size'. apply still_bind; [solve_still|]. intros _.
      apply still_bind; [by apply still_io|]. intros _. apply IH. }
  unfold put_stage, sync_directory. apply still_bind; [apply still_ensure_open|]. intros _.
  repeat (apply still_bind; [solve_still|intros ?]).
  apply still_on_error; [|apply still_drop_staging]. apply still_bind; [by apply still_io|]. intros _.
  apply still_bind; [apply Hcontent|]. intros [size hashed]. solve_still.
Qed.

(** C31: the reference index, which every operation updates incrementally,
    stays equal to a scan of the disk as long as operations return. The
    reference count [put] and [attach] return is the number of Sessions that
    own the object afterwards. A release reports the references the Session
    had, and as newly unreferenced exactly the objects only that Session owned
    and that had no marker yet, with their total size. *)
Theorem reference_counts_are_exact sha256 config w :
  hash_bytes sha256 → world_reachable sha256 config w →
  index_current (w_store w) → countable_disk (fs_disk (w_store w)) →
  (∀ os path now_ms request input r s,
    put_stage sha256 config path now_ms request input (with_outcomes os (w_store w)) = (r, s) →
    index_current s) ∧
  (∀ os staged stored s,
    put_publish sha256 config staged (with_outcomes os (w_store w)) = (Ok stored, s) →
    index_current s ∧ em_reference_count (sv_metadata stored) =
      refcount (fs_disk s) (em_digest (sv_metadata stored))) ∧
  (∀ os now_ms sid asset stored s,
    attach sha256 config now_ms sid asset (with_outcomes os (w_store w)) = (Ok stored, s) →
    index_current s ∧ em_reference_count (sv_metadata stored) =
      refcount (fs_disk s) (em_digest (sv_metadata stored))) ∧
  (∀ os now_ms sid at_ms report s,
    release_session now_ms sid at_ms (with_outcomes os (w_store w)) = (Ok report, s) →
    index_current s ∧ release_reported sid (fs_disk (w_store w)) report) ∧
  (∀ os now_ms policy report s,
    gc sha256 now_ms policy (with_outcomes os (w_store w)) = (Ok report, s) → index_current s).
Proof.
  intros Hh Hr Hi Hc. pose proof (hash_digest _ Hh) as Hd.
  apply (reachable_ok sha256 config Hd) in Hr.
  split_and!.
  - intros os path now_ms request input r s Hrun.
    exact (current_ext _ _ (still_run _ _ _ _ (still_put_stage _ _ _ _ _ _) Hrun) Hi).
  - intros os staged stored s. by apply publish_counts.
  - intros os now_ms sid asset stored s. by apply attach_counts.
  - intros os now_ms sid at_ms report s Hrun.
    pose proof (step_preserves sha256 config Hd _ _ Hr (step_release _ _ w os now_ms sid at_ms)) as [H _].
    apply wo_disk in H. cbn in H. rewrite Hrun in H.
    by apply (release_session_counts sha256 now_ms sid at_ms (with_outcomes os (w_store w)) report s
      (wo_disk _ _ Hr) H Hi Hc).
  - intros os now_ms policy report s. apply (gc_counts sha256). by apply wo_disk.
Qed.
