(* ===== verification/EvidenceFsExamples.v ===== *)
(** * A run of the filesystem evidence store

    One store and one hash at which the theorems about the store apply: two
    Sessions store the same content, a collection fails, one Session is
    released, and the store is opened again. *)

From S2P Require Import Prelude Protocol Evidence EvidenceFs EvidenceFsInv EvidenceFsIndex.
From S2P Require Import EvidenceFsSafe EvidenceFsOps EvidenceFsGc EvidenceFsOpen EvidenceFsProps.
From S2P Require Import EvidenceFsContract EvidenceFsCounts.

Local Open Scope N_scope.

(** A hash of 32 bytes: the first bytes of the content *)
Definition sample_hash (l : list N) : list N :=
  take 32 (map (λ b, b mod 256) l ++ replicate 32 0).

Lemma sample_hash_bytes : hash_bytes sample_hash.
Proof.
  intros l. unfold sample_hash. split.
  - rewrite length_take, length_app, length_replicate. lia.
  - apply Forall_take, Forall_app. split; [|by apply Forall_replicate; lia].
    apply Forall_map, Forall_forall. intros b _. apply N.mod_lt. lia.
Qed.

Definition sample_config : FileEvidenceStoreConfig := mkFileEvidenceStoreConfig 1000 10 4.
Definition sample_request (sid : SessionId) : PutEvidence := mkPutEvidence sid "image/png" None None.
Definition sample_content : list N := [1; 2; 3].

Abbreviation reachable := (world_reachable sample_hash sample_config).
Abbreviation step := (world_step sample_hash sample_config).

(** ** Steps as functions *)

Definition stage (path : Uuid) (sid : SessionId) (w : World) : World :=
  let '(r, s) := put_stage sample_hash sample_config path 5 (sample_request sid) [sample_content]
    (with_outcomes [] (w_store w)) in
  mkWorld s (match r with
    | Ok staged => (staged, input_content [sample_content]) :: w_pending w
    | Err _ => w_pending w
    end).

Lemma stage_step path sid w :
  dk_staging (fs_disk (w_store w)) !! path = None → step w (stage path sid w).
Proof.
  intros Hp. unfold stage. destruct (put_stage _ _ _ _ _ _ _) as [r s] eqn:Hr.
  by apply (step_stage sample_hash sample_config w [] path 5 (sample_request sid) [sample_content] r s).
Qed.

Definition no_staged : StagedPut := mkStagedPut 0 0 EmptyString
  (mkObjectMetadata 0 EmptyString EmptyString EmptyString 0 0).
Definition first_staged (w : World) : StagedPut :=
  match w_pending w with [] => no_staged | (staged, _) :: _ => staged end.

Definition publication (w : World) : result EvidenceError StoredEvidence * FileEvidenceStore :=
  put_publish sample_hash sample_config (first_staged w) (with_outcomes [] (w_store w)).
Definition no_stored : StoredEvidence :=
  mkStoredEvidence (mkEvidenceMetadata EmptyString EmptyString 0 0 0) false.
Definition stored_by (w : World) : StoredEvidence :=
  match fst (publication w) with Ok stored => stored | Err _ => no_stored end.
Definition publish (w : World) : World := mkWorld (snd (publication w)) [].

Lemma publish_step w content :
  w_pending w = [(first_staged w, content)] → step w (publish w).
Proof. intros Hp. exact (step_publish sample_hash sample_config w [] [] _ content [] Hp). Qed.

(** ** The run *)

Definition opened : World := initial_world sample_hash sample_config 1 [].
Definition staged_first : World := stage 1 21 opened.
Definition stored_first : World := publish staged_first.
Definition staged_second : World := stage 2 22 stored_first.
Definition stored_second : World := publish staged_second.
(** A collection that fails at its first call *)
Definition collection_failed : World :=
  mkWorld (snd (gc sample_hash 8 (mkGcPolicy 100 None None false)
    (with_outcomes [Breaks []] (w_store stored_second)))) [].
Definition released_second : World :=
  mkWorld (snd (release_session 9 22 9 (with_outcomes [] (w_store collection_failed)))) [].
(** A process that stops in the middle of opening the store again *)
Definition reopening : World :=
  mkWorld (snd (open_store sample_hash sample_config 10
    (restarted [Works; Works; Breaks []] (w_store released_second)))) [].

Lemma staged_first_reachable : reachable staged_first.
Proof. apply (wr_step _ _ opened); [apply wr_initial|]. apply (stage_step 1 21 opened). by vm_compute. Qed.

Lemma staged_first_pending :
  w_pending staged_first = [] ++ (first_staged staged_first, sample_content) :: [].
Proof. by vm_compute. Qed.

Lemma stored_first_reachable : reachable stored_first.
Proof.
  apply (wr_step _ _ staged_first); [apply staged_first_reachable|].
  apply (publish_step staged_first sample_content), staged_first_pending.
Qed.

Lemma stored_first_runs :
  rtc step (mkWorld (snd (publication staged_first)) ([] ++ [])) reopening.
Proof.
  apply (rtc_l _ stored_first staged_second); [apply (stage_step 2 22 stored_first); by vm_compute|].
  apply (rtc_l _ _ stored_second); [apply (publish_step staged_second sample_content); by vm_compute|].
  apply (rtc_l _ _ collection_failed); [exact (step_gc sample_hash sample_config stored_second _ _ _)|].
  apply (rtc_l _ _ released_second); [exact (step_release sample_hash sample_config collection_failed _ _ _ _)|].
  apply (rtc_l _ _ reopening); [exact (step_restart sample_hash sample_config released_second _ _)|]. apply rtc_refl.
Qed.

Lemma rtc_reachable w w' : reachable w → rtc step w w' → reachable w'.
Proof.
  intros Hw Hs. revert Hw. induction Hs as [|w w1 w2 Hs _ IH]; [done|]. intros Hw. apply IH.
  by eapply wr_step.
Qed.

Lemma reopening_reachable : reachable reopening.
Proof. eapply rtc_reachable; [apply stored_first_reachable|apply stored_first_runs]. Qed.

Lemma publication_returns w : fst (publication w) = Ok (stored_by w) →
  put_publish sample_hash sample_config (first_staged w) (with_outcomes [] (w_store w)) =
    (Ok (stored_by w), snd (publication w)).
Proof.
  intros Hp. unfold publication in *. rewrite <-Hp. apply surjective_pairing.
Qed.

Lemma first_published : fst (publication staged_first) = Ok (stored_by staged_first).
Proof. by vm_compute. Qed.

Definition sample_digest : Sha256Digest := em_digest (sv_metadata (stored_by staged_first)).
Definition sample_marker : json_file ReferenceMarker :=
  default None (markers_of 21 (fs_disk (w_store stored_first)) !! sample_digest).

(** ** The theorems at the run *)

Lemma reachable_disk_well_formed_witness : disk_ok sample_hash (fs_disk (w_store reopening)).
Proof.
  apply (reachable_disk_well_formed sample_hash sample_config reopening sample_hash_bytes).
  apply reopening_reachable.
Defined.

Lemma every_interruption_is_recovered_witness :
  ∃ s, open_store sample_hash sample_config 11 (restarted [] (w_store reopening)) = (Ok (), s) ∧
    settled_disk sample_hash (fs_disk s) ∧ index_current s ∧
    recovered (fs_disk (w_store reopening)) (fs_disk s).
Proof.
  apply (every_interruption_is_recovered sample_hash sample_config reopening 11 sample_hash_bytes);
    [by vm_compute|apply reopening_reachable].
Defined.

Lemma attached_evidence_survives_witness :
  markers_of 21 (fs_disk (w_store reopening)) !! sample_digest = Some sample_marker ∧
  ∃ content, fst (open sample_hash sample_digest (with_outcomes [] (w_store stored_first))) = Ok content ∧
    fst (open sample_hash sample_digest (with_outcomes [] (w_store reopening))) = Ok content ∧
    digest_from_hash (sample_hash content) = Ok sample_digest.
Proof.
  apply (attached_evidence_survives sample_hash sample_config stored_first reopening 21 sample_digest
    sample_marker sample_hash_bytes stored_first_reachable stored_first_runs);
    vm_compute; reflexivity.
Defined.

Lemma stored_content_is_returned_witness :
  let x := em_digest (sv_metadata (stored_by staged_first)) in
  digest_from_hash (sample_hash sample_content) = Ok x ∧
  from_asset_ref (asset_ref (stored_by staged_first)) = Ok x ∧
  ∃ bytes, fst (open sample_hash x (with_outcomes [] (w_store reopening))) = Ok bytes ∧
    digest_from_hash (sample_hash bytes) = Ok x ∧ len bytes = len sample_content ∧
    ((∀ other, digest_from_hash (sample_hash other) = Ok x → other = sample_content) →
     bytes = sample_content).
Proof.
  apply (stored_content_is_returned sample_hash sample_config staged_first reopening []
    (first_staged staged_first) sample_content [] [] (stored_by staged_first)
    (snd (publication staged_first)) sample_hash_bytes staged_first_reachable staged_first_pending
    (publication_returns _ first_published) stored_first_runs).
  vm_compute. reflexivity.
Defined.

Definition released_both : World :=
  mkWorld (snd (release_session 12 21 12 (with_outcomes [] (w_store released_second)))) [].

Lemma released_both_reachable : reachable released_both.
Proof.
  apply (wr_step _ _ released_second).
  - apply (wr_step _ _ collection_failed).
    + apply (wr_step _ _ stored_second).
      * apply (wr_step _ _ staged_second).
        -- apply (wr_step _ _ stored_first); [apply stored_first_reachable|].
           apply (stage_step 2 22 stored_first). by vm_compute.
        -- apply (publish_step staged_second sample_content). by vm_compute.
      * exact (step_gc sample_hash sample_config stored_second _ _ _).
    + exact (step_release sample_hash sample_config collection_failed _ _ _ _).
  - exact (step_release sample_hash sample_config released_second _ _ _ _).
Qed.

Lemma gc_collects_exactly_witness :
  ∃ report s, gc sample_hash 13 (mkGcPolicy 12 None None false)
      (with_outcomes [] (w_store released_both)) = (Ok report, s) ∧
    dk_references (fs_disk s) = dk_references (fs_disk (w_store released_both)).
Proof.
  destruct (gc_collects_exactly sample_hash sample_config released_both 13 12 None None
    sample_hash_bytes released_both_reachable ltac:(vm_compute; reflexivity)) as (selected & H).
  destruct (H false) as (report & s & Hrun & _ & Hr & _). exists report, s. by split.
Defined.

Lemma file_store_keeps_contract_witness :
  asset_ref (stored_by staged_first) ∈
    session_evidence (snd (publication staged_first)) (sp_session_id (first_staged staged_first)).
Proof.
  exact (proj1 (proj2 (file_store_keeps_contract sample_hash sample_config 5 staged_first []
    (first_staged staged_first) sample_content [] [] (stored_by staged_first)
    (snd (publication staged_first)) sample_hash_bytes staged_first_reachable staged_first_pending
    (publication_returns _ first_published)))).
Defined.

Lemma opened_current : index_current (w_store opened).
Proof.
  destruct (open_store_recovers sample_hash sample_config 1 (mkFileEvidenceStore empty_disk None []))
    as (s & Hs & _ & Hi & _); [by vm_compute|apply empty_disk_ok|done|].
  unfold opened, initial_world. rewrite Hs. done.
Qed.

Lemma staged_first_current : index_current (w_store staged_first).
Proof.
  unfold staged_first, stage. destruct (put_stage _ _ _ _ _ _ _) as [r s] eqn:Hr.
  apply still_run in Hr; [|apply still_put_stage]. eapply current_ext; [exact Hr|].
  apply opened_current.
Qed.

Lemma staged_first_countable : countable_disk (fs_disk (w_store staged_first)).
Proof.
  apply (countable_ext empty_disk); [vm_compute; reflexivity|].
  split; intros; vm_compute; reflexivity.
Qed.

Lemma reference_counts_are_exact_witness :
  em_reference_count (sv_metadata (stored_by staged_first)) =
    refcount (snd (publication staged_first)).(fs_disk) sample_digest.
Proof.
  destruct (reference_counts_are_exact sample_hash sample_config staged_first sample_hash_bytes
    staged_first_reachable staged_first_current staged_first_countable) as (_ & Hput & _).
  exact (proj2 (Hput [] _ _ _ (publication_returns _ first_published))).
Defined.

(** ** When the index does not follow

    The last call of [add_reference] syncs the directory the marker was renamed
    into. When it fails the marker is on disk and the index was not updated:
    the Session owns the object, and attaching it again returns a reference
    count of 0. The next collection or opening rebuilds the index. *)
Lemma failed_sync_undercounts :
  let s := snd (put_publish sample_hash sample_config (first_staged staged_first)
    (with_outcomes (replicate 9 Works ++ [Breaks []]) (w_store staged_first))) in
  let attached := fst (attach sample_hash sample_config 9 21 (asset_ref (stored_by staged_first)) s) in
  refcount (fs_disk s) sample_digest = 1 ∧
  em_reference_count (sv_metadata (match attached with Ok stored => stored | Err _ => no_stored end)) = 0 ∧
  match attached with Ok _ => True | Err _ => False end.
Proof. split; [|split]; vm_compute; done. Qed.
